(* ===== verification/_CoqProject ===== *)
-Q . S2P
Prelude.v
RustStd.v
RustOrd.v
Lexer.v
LexerFacts.v
LexerProps.v
LexerSpelling.v
Literals.v
LiteralsProps.v
IntLiterals.v
LexerLiterals.v
Target.v
Ty.v
ConstNumeric.v
ConstNumericProps.v
Layout.v
LayoutProps.v
LayoutAggregates.v
Mangle.v
MangleProps.v
PatternAnalysis.v
PatternScalars.v
PatternSemantics.v
PatternValidate.v
PatternProps.v
PatternDecides.v
MatchCoverage.v
PatternAdapter.v
PatternAdapterProps.v
SyntaxKind.v
GreenTree.v
GreenTreeProps.v
GrammarParser.v
GrammarLogic.v
GrammarRules.v
GrammarWp.v
GrammarRecover.v
GrammarTactics.v
GrammarRecoverFacts.v
GrammarTypes.v
GrammarContracts.v
GrammarTypesFacts.v
GrammarExprs.v
GrammarExprsFacts.v
GrammarPatterns.v
GrammarStmts.v
GrammarStmtsFacts.v
GrammarItems.v
GrammarItemsFacts.v
GrammarResolve.v
SyntaxParse.v
SyntaxParseFacts.v
GrammarDivergence.v
PackageIds.v
PackageIdsProps.v
PackageSolve.v
PackageSolveProps.v
StableCodec.v
StableCodecFacts.v
StableIds.v
StableIdsFacts.v
StableTypes.v
StableTypesProps.v
PlanTypes.v
PlanValidate.v
PlanFacts.v
PlanCycles.v
PlanClosure.v
PlanFreeze.v
PlanRefreeze.v
PlanCodec.v
PlanCodecFacts.v
PlanProps.v
FnIr.v
FnValidate.v
FnOpt.v
FnSem.v
FnOptFacts.v
FnOptGraph.v
FnOptProps.v
