(* ===== verification/Prelude.v ===== *)
(** * Verification of the Nia compiler: tokens, the parser, literals, constants,
      layouts, symbols, patterns, function bodies, package metadata and build plans

    Nia is a systems language; its compiler is the Rust workspace under
    [src/crates].  A source file goes through the tokenizer ([nia-lexer]), the
    parser ([nia-syntax]), name resolution and body checking, constant evaluation
    ([nia-const-eval]), layout computation ([nia-layout]), lowering to control-flow
    graphs ([nia-function-ir]) that the optimizer rewrites ([nia-function-opt]), and
    code generation, with linker symbols from [nia-mangle].  This library models the
    parts of that pipeline that are computations on data and proves what the rest
    of the compiler relies on.  Around the compiler, packages are described by stable
    metadata ([nia-package-metadata]) and a build by a plan ([nia-build-plan]), which
    the build runner writes and the build tool checks, decodes and executes.

    ** Conventions

    Machine integers are [Z]; wrap-around and the failing [checked_*] operations
    are written out with [RustStd.checked] and the bounds [u64_max], [i128_min]
    and so on ([usize] is 64 bits).  A [&str] is the list of its Unicode scalars
    ([RustStd.is_str]) and [as_bytes] its UTF-8 encoding; byte slices are lists
    of [Z].  [Result<A, E>] is [Result E A] below and [Option] is [option], both
    with the monad notation for [?].  Loops of the source that are not structural
    take fuel; where they do, the theorems include that the given fuel is enough:
    the tokenizer has one unit per byte and one more, every scanning step
    consuming at least one byte; the literal decoders one unit per character; a
    varint of a [u64] ten bytes; the pattern analysis the weight of the types; the
    grammar one unit per significant token, shared by its recursion and each of its
    loops, since every recursive call and every iteration consumes a token; a walk of
    scopes the number of scopes and one more; reachability of blocks one unit per edge
    and one more; the following of empty jumps one unit per jump.  The fuel of the loop
    of [merge_empty_jump_blocks], which need not end, is an argument.

    ** Files and parts

    - [Prelude], [RustStd]: notations, the error monad, tactics and hints; the parts
      of the Rust standard library the sources use (UTF-8, [char::to_digit],
      [from_str_radix], checked arithmetic) with their lemmas.
    - [RustOrd]: derived orders as the class [Ord] with the laws [OrdLaws], and the
      sorting, [dedup] and [windows] of slices.
    - [Lexer]: [nia-span] and [nia-lexer/src/token.rs], [tokenizer.rs].  The
      tokenizer state is the record [Tokenizer]; every method of the source is a
      function of the same name on it, up to [tokenize] and [tokenize_lossless].
      [LexerFacts], [LexerProps], [LexerSpelling]: tokenizing ends, the lossless
      tokens tile the source, spans are character boundaries,
      the significant tokens are those of [tokenize], and every fixed token covers
      its documented spelling.
    - [Literals]: [nia-literals/src/lib.rs].  [LiteralsProps], [IntLiterals]: the
      length functions agree with the decoders, and integer literals have their
      positional value.  [LexerLiterals] joins the two crates: what the tokenizer
      calls a literal is what the decoders accept.
    - [Target]: [nia-target/src/lib.rs], the target matrix and its names.
    - [Ty]: the primitive types and [IntConst] of [nia-ty/src/lib.rs].
    - [ConstNumeric], [ConstNumericProps]: [nia-const-eval/src/numeric.rs] and the
      shifts of [literals.rs].  Typed arithmetic, negation, complement, comparison
      and array lengths are exact on the mathematical values, or fail with the
      error of the source; typed operations fail exactly when the language reference
      says that they trap, [MIN % -1] excepted.
    - [Layout]: [nia-layout/src/abi.rs], [aggregate.rs] and the representation
      steps of [lib.rs].  [LayoutProps], [LayoutAggregates]: struct placement is
      valid and least, the order of native structs is optimal, enums keep their
      fields aligned and apart, and every layout built from others is well-formed.
    - [Mangle], [MangleProps]: the symbol records of [nia-mangle/src/lib.rs].
      Symbols are injective; decoding is exact up to the substitution table.
    - [PatternAnalysis]: [nia-pattern-analysis/src/lib.rs], over a [domain] callback.
      [PatternScalars], [PatternSemantics], [PatternValidate], [PatternProps] and
      [PatternDecides]: the analysis against the values of the types.  What it
      promises and expects of a caller are the classes [LawfulDomain] and
      [FoundedDomain].
    - [MatchCoverage]: the arm loop of the match checkers of [nia-const-check] and
      [nia-body-check], proved against those classes.
    - [PatternAdapter], [PatternAdapterProps]: the domains and patterns that
      [nia-body-check/src/patterns/analysis.rs] gives to the analysis and the part of
      [check_match_expr] that asks it, with its guard for recovery types, over the
      record [PatternStore] of the semantic stores with the laws [StoreLaws].  They
      discharge [LawfulDomain], and the checker is correct for the values of types and
      the meaning of source patterns, both defined from the stores alone.  The fuel of
      the guard is one more than the references of all interned types, each of which
      is visited once.
    - [SyntaxKind], [GreenTree]: [nia-syntax/src/kind.rs] and [tree.rs], green nodes
      with relative offsets, the event builder, edits and splicing.
      [GreenTreeProps]: nesting events over contiguous tokens build a tree with
      exactly these tokens.
    - [GrammarParser], [GrammarRecover]: [grammar/parser.rs] and [grammar/mod.rs].  The
      parser state is the record [Parser]; a method is a computation [M A] that
      returns, panics or runs out of fuel.  [GrammarTypes], [GrammarExprs],
      [GrammarPatterns], [GrammarStmts], [GrammarItems]: one definition per
      production of [types.rs], [exprs.rs], [patterns.rs], [stmts.rs] and [items.rs],
      over the record [Grammar] of the productions that recursion enters; [grammar n]
      ties the knot [n] levels deep.
    - [GrammarLogic], [GrammarRules], [GrammarWp], [GrammarTactics],
      [GrammarContracts]: a program logic for these computations.  [Spec] is the class
      of contracts, so that callers find those of their callees; [GrammarOk] is the
      contract of the recursive entry points.  [GrammarRecoverFacts],
      [GrammarTypesFacts], [GrammarExprsFacts], [GrammarStmtsFacts] (patterns and
      statements), [GrammarItemsFacts]: every production keeps its contract: no
      panic, events that nest and take the tokens in order, progress.
    - [GrammarResolve]: the events of a production resolve to one
      tree, although parents may be pushed after their children.
    - [SyntaxParse], [SyntaxParseFacts]: [parse] of [nia-syntax/src/lib.rs].  It never
      panics or fails, its trees are lossless, and it ends with as much fuel as there
      are significant tokens, unless the source is not [tame], which is where
      [GrammarDivergence] shows that it does not.

    - [PackageIds], [PackageIdsProps]: package identities of
      [nia-package-metadata/src/lib.rs]; canonical texts are injective.  The [semver]
      crate is the class [Semver].  [PackageSolve], [PackageSolveProps]: the selection
      of registry versions is optimal, or fails for a package that has none; it
      relies on the order laws [SemverOrder].
    - [StableCodec]: the writers and readers of stable metadata.  [StableCodecFacts]:
      the class [Codec] of writers and readers that are inverse to each other, its
      instances for integers, strings, options and lists, and rules to compose them.
      [StableIds], [StableIdsFacts]: modules and definitions with their owners.
      [StableTypes], [StableTypesProps]: type graphs; a payload
      decodes exactly to the graphs that encode to it.

    - [PlanTypes], [PlanValidate]: the data of [nia-build-plan/src/lib.rs] and every
      check of [BuildPlan::freeze] in [validation.rs], [actions.rs] and
      [dependencies.rs].  [PlanFacts], [PlanCycles], [PlanClosure], [PlanFreeze],
      [PlanRefreeze]: the cycle check decides acyclicity, dependency closures are the
      steps that run before, outputs are apart, and a frozen plan is its own canonical
      form.  The loops of the cycle check and of the closure have as much fuel as there
      are steps and dependencies; their lemmas show that it is enough.
    - [PlanCodec]: the writer and reader of [codec.rs].  [PlanCodecFacts]: the
      class [PlanCodecOf] of writers whose values are read back, the
      class [Makes] of readers that return valid values, with an instance for each part
      of a plan.  [PlanProps]: what a frozen plan promises to its executor (progress,
      reads after writes, outputs apart) and the round trip of the encoding.

    - [FnIr]: the data of [nia-function-ir/src/ir.rs], blocks, operations, terminators,
      expressions and lexical scopes, with the edges of terminators and the walks of
      scope chains.  [FnValidate]: every check of [validate.rs]; the cycle check with a
      slow and a fast pointer is exact.
    - [FnOpt]: the control-flow passes of [nia-function-opt] ([cfg.rs], [purity.rs],
      [cfg_passes.rs]) and the policies of [nia-opt] that select passes.  [FnSem]: what
      running a body means, over the class [Machine] of what the passes do not look
      into (expressions, stores, propagation), with [defer] bodies unwound on the edges
      that leave scopes; [ConstantLaws] and [PureLaws] are what the passes rely on.
      [FnOptFacts], [FnOptGraph], [FnOptProps]: the passes keep the validity of a body
      and its runs, those that discard evaluations up to lost traps; removal of blocks
      is exact, and threading of empty jumps ends exactly when these have no cycle.
      Folding and discarding need conditional edges that leave no scope
      ([body_edges_enter]), which validation does not ask for
      ([folding_leaving_edge]).

    ** Where the code does not do what it says

    Theorems also state behaviour that differs from the documentation:
    [field_init_list_hangs] (attributes in struct literals; with the examples after
    it, the reason for the condition [tame] of [parse_safe]),
    [missing_witness_diverges] (types that contain themselves),
    [closure_entry_symbols_collide] and [demangle_accepts_overlong] (symbols),
    [unknown_builtin_not_decodable] (validated graphs that cannot be read back),
    [typed_rem_min_by_minus_one] (constants and runtime traps),
    [cast_to_primitive_int_value] (casts without sign extension),
    [pure_division_dropped] (traps that the optimizer discards, the reason why
    [discarding_passes_sound] keeps runs only up to traps) and
    [merge_empty_jumps_ends] (cycles of empty blocks).

    ** What is not modelled

    Incremental reparsing, the lowering of syntax trees to the AST, name
    resolution, type inference, traits, const-IR interpretation, float arithmetic,
    the walk of the layout computation over the type store, the mangling of types,
    lowering, the passes of the optimizer over locals (copies, constants, stores,
    bindings), casts and logical expressions and the pipeline that runs all passes, code
    generation, and everything that is files, processes or concurrency (the query
    engine, the driver, manifests, lock files, package fetching and linking).  Next in
    line are those passes and [nia-function-lower], the incremental reparser of
    [nia-syntax], the type-level mangling of [nia-mangle], the layout walk with its
    cycle detection, and the handoff and invocation arguments of [nia-build-plan]. *)

From stdpp Require Export base list numbers option tactics strings.
From Stdlib Require Export ZArith Lia.

#[global] Open Scope Z_scope.

(** ** Byte literals

    ["x"%B] is the [Z] code of the one-character string, as Rust's [b'x']. *)

Declare Scope byte_lit_scope.
Delimit Scope byte_lit_scope with B.

Definition parse_byte_lit (l : list Byte.byte) : option Z :=
  match l with
  | [b] => Some (Z.of_N (Byte.to_N b))
  | _ => None
  end.

Definition print_byte_lit (z : Z) : option (list Byte.byte) := None.

String Notation Z parse_byte_lit print_byte_lit : byte_lit_scope.

(** The UTF-8 bytes of an ASCII string constant of the source. *)
Definition bytes_of_string (s : string) : list Z :=
  (λ b, Z.of_N (Byte.to_N b)) <$> String.list_byte_of_string s.

(** The character codes that cannot be written between double quotes. *)
Notation DQUOTE := 34 (only parsing).
Notation SQUOTE := 39 (only parsing).
Notation BACKSLASH := 92 (only parsing).
Notation TAB := 9 (only parsing).
Notation LF := 10 (only parsing).
Notation FF := 12 (only parsing).
Notation CR := 13 (only parsing).

(** ** Results

    Rust's [Result<A, E>], with the error type first so that [Result E] is a
    monad and the source's [?] is stdpp's bind notation. *)

Inductive Result (E A : Type) : Type :=
  | Ok (a : A)
  | Err (e : E).
Arguments Ok {E A} a.
Arguments Err {E A} e.

#[global] Instance Result_ret E : MRet (Result E) := λ A a, Ok a.
#[global] Instance Result_bind E : MBind (Result E) := λ A B f r,
  match r with Ok a => f a | Err e => Err e end.
#[global] Instance Result_fmap E : FMap (Result E) := λ A B f r,
  match r with Ok a => Ok (f a) | Err e => Err e end.

(** [Option::ok_or]. *)
Definition ok_or {E A} (o : option A) (e : E) : Result E A :=
  match o with Some a => Ok a | None => Err e end.

#[global] Instance Result_eq_dec {E A} `{EqDecision E, EqDecision A} :
  EqDecision (Result E A).
Proof. solve_decision. Defined.

(** ** Automation shared by the components *)

Create HintDb nia discriminated.

(** Turns boolean comparisons in the context and the goal into propositions. *)
Ltac bool_to_prop :=
  repeat match goal with
  | H : (_ && _)%bool = true |- _ => apply andb_true_iff in H as [? ?]
  | H : (_ || _)%bool = false |- _ => apply orb_false_iff in H as [? ?]
  | H : (_ =? _) = true |- _ => apply Z.eqb_eq in H
  | H : (_ =? _) = false |- _ => apply Z.eqb_neq in H
  | H : (_ <=? _) = true |- _ => apply Z.leb_le in H
  | H : (_ <=? _) = false |- _ => apply Z.leb_gt in H
  | H : (_ <? _) = true |- _ => apply Z.ltb_lt in H
  | H : (_ <? _) = false |- _ => apply Z.ltb_ge in H
  | H : negb _ = true |- _ => apply negb_true_iff in H
  | H : negb _ = false |- _ => apply negb_false_iff in H
  end.

(** Case analysis on every [if] and [match] of the goal, then arithmetic. *)
Ltac case_all := repeat (case_match; simplify_eq/=); bool_to_prop.

(** Linear arithmetic with division and remainder by constants. *)
Ltac div_lia := Z.to_euclidean_division_equations; lia.

(** ** Lists *)

(** Boolean predicates that hold of every element between two positions. *)
Definition range_forall {A} (P : A → Prop) (l : list A) (i j : nat) : Prop :=
  ∀ k x, (i ≤ k < j)%nat → l !! k = Some x → P x.

Definition slice {A} (l : list A) (i j : nat) : list A := take (j - i) (drop i l).

Lemma slice_nil {A} (l : list A) i : slice l i i = [].
Proof. unfold slice. by rewrite Nat.sub_diag. Qed.

Lemma slice_full {A} (l : list A) : slice l 0 (length l) = l.
Proof. unfold slice. rewrite drop_0, Nat.sub_0_r. by apply take_ge. Qed.

Lemma slice_app {A} (l : list A) i j k :
  (i ≤ j)%nat → (j ≤ k)%nat → slice l i j ++ slice l j k = slice l i k.
Proof.
  intros Hij Hjk. unfold slice.
  replace (drop j l) with (drop (j - i) (drop i l))
    by (rewrite drop_drop; f_equal; lia).
  rewrite take_take_drop. f_equal. lia.
Qed.

Lemma slice_cons {A} (l : list A) i j x :
  l !! i = Some x → (i < j)%nat → slice l i j = x :: slice l (S i) j.
Proof.
  intros Hx Hij. unfold slice. rewrite (drop_S _ _ _ Hx).
  replace (j - i)%nat with (S (j - S i)) by lia. done.
Qed.

Lemma slice_length {A} (l : list A) i j :
  (j ≤ length l)%nat → length (slice l i j) = (j - i)%nat.
Proof. intros. unfold slice. rewrite length_take, length_drop. lia. Qed.

Lemma slice_lookup {A} (l : list A) i j k :
  (k < j - i)%nat → slice l i j !! k = l !! (i + k)%nat.
Proof. intros. unfold slice. by rewrite lookup_take_lt, lookup_drop by lia. Qed.

Lemma range_forall_slice {A} (P : A → Prop) (l : list A) i j :
  range_forall P l i j ↔ Forall P (slice l i j).
Proof.
  rewrite Forall_lookup. unfold range_forall. split; intros H.
  - intros k x Hk. assert (k < j - i)%nat.
    { apply lookup_lt_Some in Hk. unfold slice in Hk. rewrite length_take in Hk. lia. }
    rewrite slice_lookup in Hk by lia. eapply H; [|exact Hk]. lia.
  - intros k x Hk Hx. apply (H (k - i)%nat). rewrite slice_lookup by lia.
    by replace (i + (k - i))%nat with k by lia.
Qed.
