(* ===== verification/RustStd.v ===== *)
(** * The parts of the Rust language and standard library the sources use

    Machine integers with checked arithmetic, [char], UTF-8 strings and
    [from_str_radix].  A [&str] is modelled as the list of its Unicode scalar
    values (a [str]); [as_bytes] is its UTF-8 encoding, a list of bytes. *)

From S2P Require Import Prelude.

(** ** Machine integers: a value of [Z] with the bounds of its type *)

Definition u8_max : Z := 2 ^ 8 - 1.
Definition u32_max : Z := 2 ^ 32 - 1.
Definition u64_max : Z := 2 ^ 64 - 1.
Definition u128_max : Z := 2 ^ 128 - 1.
Definition i128_max : Z := 2 ^ 127 - 1.
Definition i128_min : Z := - 2 ^ 127.
(** Every supported host has 64-bit pointers. *)
Definition usize_max : Z := u64_max.

(** [Some x] when the mathematical result [x] fits the type [lo..=hi]. *)
Definition checked (lo hi x : Z) : option Z :=
  if (lo <=? x) && (x <=? hi) then Some x else None.

Definition in_u8 (x : Z) : Prop := 0 ≤ x ≤ u8_max.
Definition in_u64 (x : Z) : Prop := 0 ≤ x ≤ u64_max.
Definition in_u128 (x : Z) : Prop := 0 ≤ x ≤ u128_max.
Definition in_i128 (x : Z) : Prop := i128_min ≤ x ≤ i128_max.

Lemma checked_Some lo hi x y : checked lo hi x = Some y ↔ y = x ∧ lo ≤ x ≤ hi.
Proof.
  unfold checked. destruct (lo <=? x) eqn:?, (x <=? hi) eqn:?; bool_to_prop; simpl;
    split; intros; simplify_eq; (done || lia || naive_solver lia).
Qed.

Lemma checked_None lo hi x : checked lo hi x = None ↔ ¬ (lo ≤ x ≤ hi).
Proof.
  unfold checked. destruct (lo <=? x) eqn:?, (x <=? hi) eqn:?; bool_to_prop; simpl;
    split; intros; simplify_eq; (done || lia || naive_solver lia).
Qed.

Lemma checked_in lo hi x : lo ≤ x ≤ hi → checked lo hi x = Some x.
Proof. intros. by apply checked_Some. Qed.

(** ** [char]: Unicode scalar values *)

Definition is_scalar (c : Z) : bool :=
  ((0 <=? c) && (c <? 55296)) || ((57344 <=? c) && (c <=? 1114111)).

(** [char::from_u32]. *)
Definition char_from_u32 (v : Z) : option Z := if is_scalar v then Some v else None.

(** [char::len_utf8]. *)
Definition len_utf8 (c : Z) : Z :=
  if c <? 128 then 1 else if c <? 2048 then 2 else if c <? 65536 then 3 else 4.

(** [char::encode_utf8]. *)
Definition encode_utf8 (c : Z) : list Z :=
  if c <? 128 then [c]
  else if c <? 2048 then [192 + c / 64; 128 + c mod 64]
  else if c <? 65536 then [224 + c / 4096; 128 + (c / 64) mod 64; 128 + c mod 64]
  else [240 + c / 262144; 128 + (c / 4096) mod 64; 128 + (c / 64) mod 64; 128 + c mod 64].

(** [char::to_digit(16)], for characters and for bytes. *)
Definition hex_digit (c : Z) : option Z :=
  if ("0"%B <=? c) && (c <=? "9"%B) then Some (c - "0"%B)
  else if ("a"%B <=? c) && (c <=? "f"%B) then Some (c - "a"%B + 10)
  else if ("A"%B <=? c) && (c <=? "F"%B) then Some (c - "A"%B + 10)
  else None.

(** [char::to_digit(radix)] for [radix <= 16]. *)
Definition to_digit (radix c : Z) : option Z :=
  match hex_digit c with
  | Some d => if d <? radix then Some d else None
  | None => None
  end.

(** [u8::is_ascii_*]. *)
Definition is_ascii_digit (b : Z) : bool := ("0"%B <=? b) && (b <=? "9"%B).
Definition is_ascii_alphabetic (b : Z) : bool :=
  (("a"%B <=? b) && (b <=? "z"%B)) || (("A"%B <=? b) && (b <=? "Z"%B)).
Definition is_ascii_alphanumeric (b : Z) : bool :=
  is_ascii_alphabetic b || is_ascii_digit b.
(** Space, tab, line feed, form feed and carriage return. *)
Definition is_ascii_whitespace (b : Z) : bool :=
  (b =? 32) || (b =? TAB) || (b =? LF) || (b =? FF) || (b =? CR).

(** ** Strings *)

(** [str::as_bytes]. *)
Definition as_bytes (s : list Z) : list Z := s ≫= encode_utf8.

(** The contents of a [&str]: only Unicode scalar values. *)
Definition is_str (s : list Z) : Prop := Forall (λ c, is_scalar c = true) s.

(** [str::from_utf8]: exactly the canonical encodings are accepted. *)
Fixpoint utf8_decode (bs : list Z) : option (list Z) :=
  let accept (c : Z) (used : list Z) (rest : option (list Z)) (other : option (list Z)) :=
    if is_scalar c && bool_decide (encode_utf8 c = used) then cons c <$> rest else other in
  match bs with
  | [] => Some []
  | b0 :: r0 =>
    accept b0 [b0] (utf8_decode r0)
      match r0 with
      | [] => None
      | b1 :: r1 =>
        accept ((b0 - 192) * 64 + (b1 - 128)) [b0; b1] (utf8_decode r1)
          match r1 with
          | [] => None
          | b2 :: r2 =>
            accept ((b0 - 224) * 4096 + (b1 - 128) * 64 + (b2 - 128)) [b0; b1; b2]
              (utf8_decode r2)
              match r2 with
              | [] => None
              | b3 :: r3 =>
                accept ((b0 - 240) * 262144 + (b1 - 128) * 4096 + (b2 - 128) * 64 + (b3 - 128))
                  [b0; b1; b2; b3] (utf8_decode r3) None
              end
          end
      end
  end.

(** [str::is_char_boundary] on the bytes of a string: the offset is the end, or
    the byte there is not a continuation byte. *)
Definition is_char_boundary (bs : list Z) (p : nat) : bool :=
  match bs !! p with
  | Some b => negb ((128 <=? b) && (b <? 192))
  | None => (p =? length bs)%nat
  end.

(** The digits of [from_str_radix], most significant first, with overflow
    past [hi] an error. *)
Fixpoint radix_digits (hi radix acc : Z) (ds : list Z) : option Z :=
  match ds with
  | [] => Some acc
  | c :: ds =>
    match to_digit radix c with
    | None => None
    | Some d =>
      match checked 0 hi (acc * radix + d) with
      | None => None
      | Some acc => radix_digits hi radix acc ds
      end
    end
  end.

(** [uN::from_str_radix] for an unsigned type with maximum [hi]: one leading
    ['+'] is allowed, and at least one digit is required. *)
Definition from_str_radix (hi radix : Z) (text : list Z) : option Z :=
  match text with
  | [] => None
  | c :: rest =>
    if c =? "+"%B then
      match rest with [] => None | _ => radix_digits hi radix 0 rest end
    else radix_digits hi radix 0 text
  end.

(** [str::strip_prefix] and [str::strip_suffix] for a constant. *)
Fixpoint strip_prefix (p s : list Z) : option (list Z) :=
  match p, s with
  | [], _ => Some s
  | c :: p, d :: s => if c =? d then strip_prefix p s else None
  | _ :: _, [] => None
  end.

Definition strip_suffix_char (c : Z) (s : list Z) : option (list Z) :=
  match last s with
  | Some d => if d =? c then Some (take (length s - 1) s) else None
  | None => None
  end.

(** [str::replace(c, empty)]. *)
Definition remove_char (c : Z) (s : list Z) : list Z := filter (λ d, d ≠ c) s.

#[global] Arguments as_bytes : simpl never.

(** ** Lemmas *)

Lemma is_scalar_spec c :
  is_scalar c = true ↔ (0 ≤ c < 55296) ∨ (57344 ≤ c ≤ 1114111).
Proof. unfold is_scalar. rewrite orb_true_iff, !andb_true_iff. lia. Qed.

Lemma char_from_u32_Some v c : char_from_u32 v = Some c ↔ c = v ∧ is_scalar v = true.
Proof. unfold char_from_u32. case_match; naive_solver. Qed.

Lemma encode_utf8_length c : Z.of_nat (length (encode_utf8 c)) = len_utf8 c.
Proof. unfold encode_utf8, len_utf8. by repeat case_match. Qed.

Lemma as_bytes_nil : as_bytes [] = [].
Proof. done. Qed.

Lemma as_bytes_cons c s : as_bytes (c :: s) = encode_utf8 c ++ as_bytes s.
Proof. done. Qed.

Lemma as_bytes_app s1 s2 : as_bytes (s1 ++ s2) = as_bytes s1 ++ as_bytes s2.
Proof. unfold as_bytes. by rewrite bind_app. Qed.

Lemma encode_utf8_ascii c : c < 128 → encode_utf8 c = [c].
Proof. intros. unfold encode_utf8. case_match; bool_to_prop; [done|lia]. Qed.

(** The shape of an encoding: an ASCII byte, or a leading byte and
    continuation bytes. *)
Lemma encode_utf8_shape c :
  is_scalar c = true →
  (∃ b, encode_utf8 c = [b] ∧ b = c ∧ 0 ≤ b < 128) ∨
  (∃ b0 bs, encode_utf8 c = b0 :: bs ∧ 192 ≤ b0 < 248 ∧ 128 ≤ c ∧
    Forall (λ b, 128 ≤ b < 192) bs ∧
    ((192 ≤ b0 < 224 ∧ length bs = 1%nat) ∨ (224 ≤ b0 < 240 ∧ length bs = 2%nat)
      ∨ (240 ≤ b0 < 248 ∧ length bs = 3%nat))).
Proof.
  intros Hc%is_scalar_spec. unfold encode_utf8.
  destruct (c <? 128) eqn:?; [|destruct (c <? 2048) eqn:?;
    [|destruct (c <? 65536) eqn:?]]; bool_to_prop.
  - left. eexists. split_and!; [done|done|lia|lia].
  - right. eexists _, _. split_and!; [done|div_lia|div_lia|lia| |left; split; [div_lia|done]].
    repeat constructor; div_lia.
  - right. eexists _, _. split_and!; [done|div_lia|div_lia|lia| |right; left; split; [div_lia|done]].
    repeat constructor; div_lia.
  - right. eexists _, _. split_and!; [done|div_lia|div_lia|lia| |right; right; split; [div_lia|done]].
    repeat constructor; div_lia.
Qed.

Lemma encode_utf8_not_ascii c : 128 ≤ c → is_scalar c = true → Forall (λ b, 128 ≤ b) (encode_utf8 c).
Proof.
  intros Hc Hs. destruct (encode_utf8_shape c Hs) as [(b&?&?&?)|(b0&bs&->&?&?&Hbs&_)]; [lia|].
  constructor; [lia|]. eapply Forall_impl; [exact Hbs|]. simpl. lia.
Qed.

Lemma is_str_app s1 s2 : is_str (s1 ++ s2) ↔ is_str s1 ∧ is_str s2.
Proof. apply Forall_app. Qed.

Lemma encode_utf8_cons c : is_scalar c = true → ∃ b bs, encode_utf8 c = b :: bs.
Proof.
  intros [(b&->&_)|(b&bs&->&_)]%encode_utf8_shape; eauto.
Qed.

(** The start of a scalar is a boundary. *)
Lemma boundary_intro s1 s2 :
  is_str s2 → is_char_boundary (as_bytes (s1 ++ s2)) (length (as_bytes s1)) = true.
Proof.
  intros Hs. unfold is_char_boundary. rewrite as_bytes_app.
  rewrite lookup_app_r, Nat.sub_diag by done.
  destruct s2 as [|c s2]; simpl.
  - rewrite app_nil_r. by apply Nat.eqb_eq.
  - inversion Hs as [|?? Hc _]; subst. rewrite as_bytes_cons.
    destruct (encode_utf8_shape c Hc) as [(b&->&_&?)|(b&bs&->&?&_)]; simpl;
      apply negb_true_iff, andb_false_iff; rewrite Z.leb_gt, Z.ltb_ge; lia.
Qed.

(** Every boundary is the start of a scalar, or the end of the string. *)
Lemma boundary_elim s p :
  is_str s → is_char_boundary (as_bytes s) p = true →
  ∃ s1 s2, s = s1 ++ s2 ∧ p = length (as_bytes s1).
Proof.
  intros Hs. revert p. induction Hs as [|c s Hc Hs IH]; intros p Hp.
  - exists [], []. split; [done|]. unfold is_char_boundary in Hp. simpl in Hp.
    by apply Nat.eqb_eq in Hp.
  - destruct (decide (p = 0%nat)) as [->|Hp0].
    { by exists [], (c :: s). }
    destruct (decide (p < length (encode_utf8 c))%nat) as [Hlt|Hge].
    + exfalso. unfold is_char_boundary in Hp. rewrite as_bytes_cons, lookup_app_l in Hp by done.
      destruct (encode_utf8_shape c Hc) as [(b&Hb&_)|(b&bs&Hb&_&_&Hbs&_)]; rewrite Hb in *;
        simpl in *; [lia|].
      destruct p as [|p]; [done|]. simpl in Hp.
      destruct (bs !! p) as [b'|] eqn:Hb'; [|apply lookup_ge_None in Hb'; lia].
      rewrite Forall_lookup in Hbs. specialize (Hbs _ _ Hb'). simpl in Hbs.
      apply negb_true_iff, andb_false_iff in Hp. rewrite Z.leb_gt, Z.ltb_ge in Hp. lia.
    + destruct (IH (p - length (encode_utf8 c))%nat) as (s1&s2&->&Hp').
      { unfold is_char_boundary in *. rewrite as_bytes_cons, lookup_app_r in Hp by lia.
        rewrite length_app in Hp. case_match; [done|].
        apply Nat.eqb_eq in Hp. apply Nat.eqb_eq. lia. }
      exists (c :: s1), s2. split; [done|]. rewrite as_bytes_cons, length_app. lia.
Qed.

(** A boundary that is not the end splits the string at a scalar. *)
Lemma boundary_scalar s p b :
  is_str s → is_char_boundary (as_bytes s) p = true → as_bytes s !! p = Some b →
  ∃ s1 c s2, s = s1 ++ c :: s2 ∧ p = length (as_bytes s1) ∧ is_scalar c = true ∧
    ∃ bs, encode_utf8 c = b :: bs.
Proof.
  intros Hs Hp Hb. destruct (boundary_elim s p Hs Hp) as (s1&s2&->&->).
  rewrite as_bytes_app, lookup_app_r, Nat.sub_diag in Hb by done.
  destruct s2 as [|c s2]; [done|]. apply is_str_app in Hs as [_ Hs].
  inversion Hs as [|?? Hc _]; subst. exists s1, c, s2. split_and!; [done..|].
  destruct (encode_utf8_cons c Hc) as (b'&bs&Hbs). rewrite as_bytes_cons, Hbs in Hb.
  simpl in Hb. simplify_eq. eauto.
Qed.

Lemma boundary_advance s1 c s2 :
  is_str (s1 ++ c :: s2) →
  is_char_boundary (as_bytes (s1 ++ c :: s2))
    (length (as_bytes s1) + length (encode_utf8 c)) = true.
Proof.
  intros [_ Hs]%is_str_app. inversion Hs; subst.
  replace (s1 ++ c :: s2) with ((s1 ++ [c]) ++ s2) by (by rewrite <-app_assoc).
  replace (length (as_bytes s1) + length (encode_utf8 c))%nat
    with (length (as_bytes (s1 ++ [c]))); [by apply boundary_intro|].
  rewrite as_bytes_app, length_app, as_bytes_cons, as_bytes_nil, app_nil_r. done.
Qed.

Lemma boundary_of_ascii bs p b :
  bs !! p = Some b → b < 128 → is_char_boundary bs p = true.
Proof.
  intros Hb ?. unfold is_char_boundary. rewrite Hb.
  apply negb_true_iff, andb_false_iff. rewrite Z.leb_gt, Z.ltb_ge. lia.
Qed.

Lemma boundary_end bs : is_char_boundary bs (length bs) = true.
Proof.
  unfold is_char_boundary. rewrite lookup_ge_None_2 by done. by apply Nat.eqb_eq.
Qed.

(** The offset after an ASCII byte is a boundary. *)
Lemma boundary_after_ascii s p b :
  is_str s → as_bytes s !! p = Some b → b < 128 →
  is_char_boundary (as_bytes s) (S p) = true.
Proof.
  intros Hs Hb Hlt.
  destruct (boundary_scalar s p b Hs) as (s1&c&s2&->&->&Hc&bs&Hbs); [|done|].
  { by eapply boundary_of_ascii. }
  destruct (encode_utf8_shape c Hc) as [(b'&He&_)|(b'&bs'&He&?&_)];
    rewrite Hbs in He; simplify_eq; [|lia].
  pose proof (boundary_advance s1 c s2 Hs) as H. rewrite Hbs in H. simpl in H.
  by rewrite Nat.add_1_r in H.
Qed.

(** ** Decoding inverts encoding *)

Lemma encode_utf8_inj c d :
  is_scalar c = true → is_scalar d = true → encode_utf8 c = encode_utf8 d → c = d.
Proof.
  intros Hc%is_scalar_spec Hd%is_scalar_spec. unfold encode_utf8.
  repeat case_match; bool_to_prop; intros; simplify_eq; div_lia.
Qed.

Lemma utf8_decode_encode c bs :
  is_scalar c = true → utf8_decode (encode_utf8 c ++ bs) = cons c <$> utf8_decode bs.
Proof.
  intros Hc. pose proof Hc as Hs. apply is_scalar_spec in Hs.
  assert (∀ d used r o, encode_utf8 c = used → d = c →
    (if is_scalar d && bool_decide (encode_utf8 d = used) then cons d <$> r else o)
      = cons c <$> (r : option (list Z))) as Hyes.
  { intros d used r o He ->. rewrite Hc, bool_decide_eq_true_2 by done. done. }
  assert (∀ d used r o, length used ≠ length (encode_utf8 d) →
    (if is_scalar d && bool_decide (encode_utf8 d = used) then cons d <$> r else o)
      = (o : option (list Z))) as Hno.
  { intros d used r o He. rewrite bool_decide_eq_false_2 by congruence. by rewrite andb_false_r. }
  unfold encode_utf8.
  destruct (c <? 128) eqn:?; [|destruct (c <? 2048) eqn:?;
    [|destruct (c <? 65536) eqn:?]]; bool_to_prop; cbn [app utf8_decode].
  - apply Hyes; [|done]. by apply encode_utf8_ascii.
  - rewrite Hno.
    2:{ unfold encode_utf8. case_all; simpl; div_lia. }
    apply Hyes; [|div_lia]. unfold encode_utf8. case_all; (done || lia).
  - rewrite Hno.
    2:{ unfold encode_utf8. case_all; simpl; div_lia. }
    rewrite Hno.
    2:{ unfold encode_utf8. case_all; simpl; div_lia. }
    apply Hyes; [|div_lia]. unfold encode_utf8. case_all; (done || lia).
  - rewrite Hno.
    2:{ unfold encode_utf8. case_all; simpl; div_lia. }
    rewrite Hno.
    2:{ unfold encode_utf8. case_all; simpl; div_lia. }
    rewrite Hno.
    2:{ unfold encode_utf8. case_all; simpl; div_lia. }
    apply Hyes; [|div_lia]. unfold encode_utf8. case_all; (done || lia).
Qed.

Lemma utf8_decode_as_bytes s : is_str s → utf8_decode (as_bytes s) = Some s.
Proof.
  induction 1 as [|c s Hc _ IH]; [done|].
  rewrite as_bytes_cons, utf8_decode_encode, IH by done. done.
Qed.

Lemma as_bytes_inj s1 s2 : is_str s1 → is_str s2 → as_bytes s1 = as_bytes s2 → s1 = s2.
Proof.
  intros H1%utf8_decode_as_bytes H2%utf8_decode_as_bytes He. rewrite He in H1. congruence.
Qed.

(** [str::from_utf8] accepts only encodings of scalar values. *)
Lemma utf8_decode_sound bs s : utf8_decode bs = Some s → is_str s ∧ as_bytes s = bs.
Proof.
  revert s. induction bs as [bs IH] using (induction_ltof1 _ length). unfold ltof in IH.
  assert (∀ c used rest o s, (length rest < length bs)%nat →
    (if is_scalar c && bool_decide (encode_utf8 c = used) then cons c <$> utf8_decode rest else o)
      = Some s →
    (o = Some s → is_str s ∧ as_bytes s = bs) → bs = used ++ rest →
    is_str s ∧ as_bytes s = bs) as Hacc.
  { intros c used rest o s Hlen Hif Ho Hbs.
    destruct (is_scalar c) eqn:Hc; [|by apply Ho].
    case_bool_decide as He; [|by apply Ho]. simpl in Hif.
    destruct (utf8_decode rest) as [s'|] eqn:Hr; [|done]. simpl in Hif. simplify_eq.
    destruct (IH rest Hlen s' Hr) as [Hs' Hb']. split; [by constructor|].
    by rewrite as_bytes_cons, Hb'. }
  intros s Hd. destruct bs as [|b0 r0].
  { simpl in Hd. simplify_eq. split; [constructor|done]. }
  cbn [utf8_decode] in Hd. eapply Hacc; [|exact Hd| |]; [simpl; lia| |done].
  clear Hd. intros Hd. destruct r0 as [|b1 r1]; [done|].
  eapply Hacc; [|exact Hd| |]; [simpl; lia| |done].
  clear Hd. intros Hd. destruct r1 as [|b2 r2]; [done|].
  eapply Hacc; [|exact Hd| |]; [simpl; lia| |done].
  clear Hd. intros Hd. destruct r2 as [|b3 r3]; [done|].
  eapply Hacc; [|exact Hd| |]; [simpl; lia|done|done].
Qed.

Lemma as_bytes_ascii s : Forall (λ c, c < 128) s → as_bytes s = s.
Proof.
  induction 1 as [|c s Hc _ IH]; [done|]. by rewrite as_bytes_cons, IH, encode_utf8_ascii.
Qed.

(** An executable test for ASCII strings, for concrete inputs. *)
Definition ascii_only (s : list Z) : bool := forallb (λ c, (0 <=? c) && (c <? 128)) s.

Lemma ascii_only_spec s : ascii_only s = true → is_str s ∧ as_bytes s = s.
Proof.
  intros H. assert (Forall (λ c, 0 ≤ c < 128) s) as Hs.
  { induction s as [|c s IH]; [constructor|]. simpl in H. bool_to_prop. constructor; auto. }
  split.
  - eapply Forall_impl; [exact Hs|]. intros c ?. apply is_scalar_spec. simpl in *. lia.
  - apply as_bytes_ascii. eapply Forall_impl; [exact Hs|]. simpl. lia.
Qed.

(** An executable test for strings. *)
Definition is_str_b (s : list Z) : bool := forallb is_scalar s.

Lemma is_str_b_spec s : is_str_b s = true → is_str s.
Proof.
  intros H. induction s as [|c s IH]; [constructor|]. simpl in H. bool_to_prop. constructor; [done|by apply IH].
Qed.

Lemma strip_prefix_Some p s r : strip_prefix p s = Some r ↔ s = p ++ r.
Proof.
  revert s. induction p as [|c p IH]; intros s; simpl; [naive_solver|].
  destruct s as [|d s]; [naive_solver|]. destruct (c =? d) eqn:Hc; bool_to_prop.
  - subst d. rewrite IH. naive_solver.
  - naive_solver.
Qed.

Lemma strip_suffix_char_Some c s r : strip_suffix_char c s = Some r ↔ s = r ++ [c].
Proof.
  unfold strip_suffix_char. split.
  - destruct (last s) as [d|] eqn:Hl; [|done]. apply last_Some in Hl as [s' ->].
    destruct (d =? c) eqn:Hc; [|done]. bool_to_prop. intros [= <-]. subst d.
    rewrite length_app. simpl. rewrite Nat.add_sub. by rewrite take_app_length.
  - intros ->. rewrite last_snoc, Z.eqb_refl. f_equal.
    rewrite length_app. simpl. rewrite Nat.add_sub. by rewrite take_app_length.
Qed.
