(* ===== verification/RustOrd.v ===== *)
(** * Rust's [Ord], sorting and deduplication

    [Ord] is the class of comparison functions and [OrdLaws] what [Ord] documents: a
    total order whose [Equal] is equality.  [sort_by] and [dedup] are the slice
    methods.  Strings compare as the lists of their Unicode scalars, the order of
    their UTF-8 bytes ([str_cmp_scalars]). *)

From Stdlib Require Import Sorting.Sorted.
From S2P Require Import Prelude RustStd.

(** [Ordering::then_with]. *)
Definition then_with (a b : comparison) : comparison :=
  match a with Eq => b | Lt | Gt => a end.

Class Ord (A : Type) := cmp : A → A → comparison.

Class OrdLaws (A : Type) `{Ord A} : Prop := {
  cmp_eq (a b : A) : cmp a b = Eq ↔ a = b;
  cmp_flip (a b : A) : cmp b a = CompOpp (cmp a b);
  cmp_trans (a b c : A) : cmp a b ≠ Gt → cmp b c ≠ Gt → cmp a c ≠ Gt;
}.

#[global] Instance Z_ord : Ord Z := Z.compare.

(** The lexicographic orders of vectors and tuples. *)
Fixpoint list_cmp {A} (c : A → A → comparison) (a b : list A) : comparison :=
  match a, b with
  | [], [] => Eq
  | [], _ :: _ => Lt
  | _ :: _, [] => Gt
  | x :: a, y :: b => then_with (c x y) (list_cmp c a b)
  end.

#[global] Instance list_ord `{Ord A} : Ord (list A) := list_cmp cmp.
#[global] Instance prod_ord `{Ord A, Ord B} : Ord (A * B) := λ p q, then_with (cmp p.1 q.1) (cmp p.2 q.2).
#[global] Instance option_ord `{Ord A} : Ord (option A) := λ a b,
  match a, b with
  | None, None => Eq
  | None, Some _ => Lt
  | Some _, None => Gt
  | Some a, Some b => cmp a b
  end.

(** [str::cmp] on the bytes of the strings. *)
Definition bytes_cmp : list Z → list Z → comparison := list_cmp Z.compare.
Definition str_cmp (a b : list Z) : comparison := bytes_cmp (as_bytes a) (as_bytes b).

(** ** Slices *)

(** A stable [slice::sort_by]. *)
Fixpoint insert_by {A} (c : A → A → comparison) (x : A) (l : list A) : list A :=
  match l with
  | [] => [x]
  | y :: l => match c x y with Gt => y :: insert_by c x l | Lt | Eq => x :: y :: l end
  end.
Definition sort_by {A} (c : A → A → comparison) (l : list A) : list A := foldr (insert_by c) [] l.

(** [slice::sort]. *)
Definition sort `{Ord A} (l : list A) : list A := sort_by cmp l.

(** [Vec::dedup]. *)
Fixpoint dedup `{EqDecision A} (l : list A) : list A :=
  match l with
  | a :: (b :: _) as rest => if decide (a = b) then dedup rest else a :: dedup rest
  | _ => l
  end.

(** [windows(2)]. *)
Fixpoint windows2 {A} (l : list A) : list (A * A) :=
  match l with
  | a :: (b :: _) as rest => (a, b) :: windows2 rest
  | _ => []
  end.

(** [join]. *)
Fixpoint join_with (sep : list Z) (l : list (list Z)) : list Z :=
  match l with
  | [] => []
  | [a] => a
  | a :: l => a ++ sep ++ join_with sep l
  end.

(** ** Laws *)

Lemma then_with_flip a b : CompOpp (then_with a b) = then_with (CompOpp a) (CompOpp b).
Proof. by destruct a. Qed.

Lemma then_with_eq a b : then_with a b = Eq ↔ a = Eq ∧ b = Eq.
Proof. destruct a; naive_solver. Qed.

(** An order by one comparison and then another is transitive. *)
Lemma then_with_trans {A} (f g : A → A → comparison) a b c :
  (∀ a b, f b a = CompOpp (f a b)) →
  (∀ a b c, f a b ≠ Gt → f b c ≠ Gt → f a c ≠ Gt) →
  (g a b ≠ Gt → g b c ≠ Gt → g a c ≠ Gt) →
  then_with (f a b) (g a b) ≠ Gt → then_with (f b c) (g b c) ≠ Gt → then_with (f a c) (g a c) ≠ Gt.
Proof.
  intros Hflip Htrans Hg. pose proof (Htrans a b c) as H1. pose proof (Htrans c a b) as H2.
  pose proof (Htrans b c a) as H3. pose proof (Htrans c b a) as H4.
  rewrite (Hflip b c), (Hflip a b), (Hflip a c) in H4. rewrite (Hflip b c), (Hflip a c) in H2.
  rewrite (Hflip a c), (Hflip a b) in H3.
  destruct (f a b), (f b c), (f a c); simpl in *; try done; intros; try (by apply Hg); exfalso;
    first [by apply H1|by apply H2|by apply H3|by apply H4].
Qed.

#[global] Instance Z_ord_laws : OrdLaws Z.
Proof.
  split; unfold cmp, Z_ord.
  - apply Z.compare_eq_iff.
  - intros. apply Z.compare_antisym.
  - intros a b c. apply Z.le_trans.
Qed.

#[global] Instance prod_ord_laws `{OrdLaws A, OrdLaws B} : OrdLaws (A * B).
Proof.
  split.
  - intros [a1 b1] [a2 b2]. change (then_with (cmp a1 a2) (cmp b1 b2) = Eq ↔ (a1, b1) = (a2, b2)).
    rewrite then_with_eq, !cmp_eq. naive_solver.
  - intros [a1 b1] [a2 b2]. change (then_with (cmp a2 a1) (cmp b2 b1) = CompOpp (then_with (cmp a1 a2) (cmp b1 b2))).
    by rewrite then_with_flip, <- !cmp_flip.
  - intros a b c. apply (then_with_trans (λ p q : A * B, cmp p.1 q.1) (λ p q, cmp p.2 q.2)).
    + intros [] []. apply cmp_flip.
    + intros [] [] []. apply cmp_trans.
    + apply cmp_trans.
Qed.

#[global] Instance list_ord_laws `{OrdLaws A} : OrdLaws (list A).
Proof.
  split.
  - change (∀ a b : list A, list_cmp cmp a b = Eq ↔ a = b).
    intros a. induction a as [|x a IH]; intros [|y b]; simpl; try naive_solver.
    rewrite then_with_eq, cmp_eq, IH. naive_solver.
  - change (∀ a b : list A, list_cmp cmp b a = CompOpp (list_cmp cmp a b)).
    intros a. induction a as [|x a IH]; intros [|y b]; try done. simpl.
    by rewrite then_with_flip, <- cmp_flip, IH.
  - change (∀ a b c : list A, list_cmp cmp a b ≠ Gt → list_cmp cmp b c ≠ Gt → list_cmp cmp a c ≠ Gt).
    intros a. induction a as [|x a IH]; intros [|y b] [|z c]; try done.
    apply (then_with_trans (λ p q, cmp p.1 q.1) (λ p q, list_cmp cmp p.2 q.2) (x, a) (y, b) (z, c)).
    + intros [] []. apply cmp_flip.
    + intros [] [] []. apply cmp_trans.
    + apply IH.
Qed.

#[global] Instance option_ord_laws `{OrdLaws A} : OrdLaws (option A).
Proof.
  split.
  - intros [a|] [b|]; try (cbn; naive_solver). change (cmp a b = Eq ↔ Some a = Some b).
    rewrite cmp_eq. naive_solver.
  - intros [a|] [b|]; try done. exact (cmp_flip a b).
  - intros [a|] [b|] [c|]; try done. exact (cmp_trans a b c).
Qed.

(** A type that embeds in an ordered one, compared there. *)
Lemma ord_laws_inj {A B} `{OrdLaws B} (f : A → B) (c : Ord A) :
  (∀ a b, f a = f b → a = b) → (∀ a b, c a b = cmp (f a) (f b)) → @OrdLaws A c.
Proof.
  intros Hinj Hc. split; unfold cmp at 1.
  - intros a b. rewrite Hc, cmp_eq. split; [apply Hinj|congruence].
  - intros a b. unfold cmp. rewrite !Hc. apply cmp_flip.
  - intros a b x. unfold cmp. rewrite !Hc. apply cmp_trans.
Qed.

(** ** Sorting *)

Section Sort.
Context {A : Type} (c : A → A → comparison).
Context (Hflip : ∀ a b, c b a = CompOpp (c a b)).

Notation le a b := (c a b ≠ Gt).

Lemma insert_by_perm x l : insert_by c x l ≡ₚ x :: l.
Proof. induction l as [|y l IH]; [done|]. simpl. case_match; [done..|]. rewrite IH. constructor. Qed.

Lemma sort_by_perm l : sort_by c l ≡ₚ l.
Proof. induction l as [|x l IH]; [done|]. simpl. by rewrite insert_by_perm, IH. Qed.

Lemma insert_by_sorted x l : Sorted (λ a b, le a b) l → Sorted (λ a b, le a b) (insert_by c x l).
Proof.
  induction 1 as [|y l Hs IH Hy]; [repeat constructor|]. simpl. destruct (c x y) eqn:E.
  1, 2: constructor; [by constructor|constructor; congruence].
  assert (le y x) by (rewrite Hflip, E; done).
  constructor; [done|]. destruct l as [|z l]; simpl; [by constructor|].
  inversion Hy; subst. destruct (c x z); by constructor.
Qed.

Lemma sort_by_sorted l : Sorted (λ a b, le a b) (sort_by c l).
Proof. induction l; [constructor|]. by apply insert_by_sorted. Qed.

Lemma sort_by_id l : Sorted (λ a b, le a b) l → sort_by c l = l.
Proof.
  induction 1 as [|x l Hs IH Hx]; [done|]. simpl. rewrite IH. destruct Hx as [|y l Hxy]; [done|].
  simpl. by destruct (c x y).
Qed.
End Sort.

Lemma dedup_cons2 `{EqDecision A} (a b : A) l :
  dedup (a :: b :: l) = if decide (a = b) then dedup (b :: l) else a :: dedup (b :: l).
Proof. done. Qed.

Lemma dedup_elem `{EqDecision A} (l : list A) x : x ∈ dedup l ↔ x ∈ l.
Proof.
  induction l as [|a [|b l] IH]; [done..|]. rewrite dedup_cons2. case_decide as Hab.
  - rewrite IH, !elem_of_cons. naive_solver.
  - rewrite elem_of_cons, IH. by rewrite (elem_of_cons (b :: l)).
Qed.

Lemma dedup_head `{EqDecision A} (a : A) l : ∃ l', dedup (a :: l) = a :: l'.
Proof.
  revert a. induction l as [|b l IH]; intros a; [by eexists|]. rewrite dedup_cons2. case_decide as Hab; [|by eexists].
  subst. apply IH.
Qed.

Lemma dedup_keeps_sorted `{EqDecision A} (R : A → A → Prop) l : Sorted R l → Sorted R (dedup l).
Proof.
  induction l as [|a [|b l] IH]; [done..|]. intros Hs. apply Sorted_inv in Hs as [Hs Hab].
  rewrite dedup_cons2. case_decide as Heq; [by apply IH|]. constructor; [by apply IH|].
  destruct (dedup_head b l) as [l' ->]. inversion Hab; subst. by constructor.
Qed.

(** No two neighbours are equal. *)
Definition distinct_neighbours {A} (l : list A) : Prop := Forall (λ p, p.1 ≠ p.2) (windows2 l).

Lemma dedup_distinct `{EqDecision A} (l : list A) : distinct_neighbours (dedup l).
Proof.
  unfold distinct_neighbours. induction l as [|a [|b l] IH]; [constructor..|].
  rewrite dedup_cons2. case_decide as Heq; [done|]. destruct (dedup_head b l) as [l' E].
  rewrite E in *. cbn [windows2]. by constructor.
Qed.

Lemma dedup_id `{EqDecision A} (l : list A) : distinct_neighbours l → dedup l = l.
Proof.
  unfold distinct_neighbours. induction l as [|a [|b l] IH]; [done..|]. cbn [windows2].
  intros [Hab Hl]%Forall_cons. rewrite dedup_cons2. rewrite decide_False by done. f_equal. by apply IH.
Qed.

(** ** Strings *)

(** UTF-8 keeps the order of scalars. *)
Lemma encode_utf8_lt c d r1 r2 : is_scalar c = true → is_scalar d = true → c < d →
  bytes_cmp (encode_utf8 c ++ r1) (encode_utf8 d ++ r2) = Lt.
Proof.
  intros Hc Hd Hlt. apply is_scalar_spec in Hc, Hd. unfold bytes_cmp, encode_utf8.
  repeat case_match; bool_to_prop; try lia; cbn [app list_cmp].
  all: repeat match goal with
       | |- then_with (?x ?= ?y) _ = Lt => destruct (Z.compare_spec x y); cbn [then_with]; [|done|exfalso; div_lia]
       end; exfalso; div_lia.
Qed.

(** [str::cmp] is the comparison of the scalars. *)
Lemma str_cmp_scalars a b : is_str a → is_str b → str_cmp a b = cmp a b.
Proof.
  intros Ha. revert b. induction Ha as [|c a Hc Ha IH]; intros b Hb.
  - destruct Hb as [|d b Hd Hb]; [done|]. unfold str_cmp. rewrite as_bytes_cons.
    by destruct (encode_utf8_cons d Hd) as (x&l&->).
  - destruct Hb as [|d b Hd Hb].
    { unfold str_cmp. rewrite as_bytes_cons. by destruct (encode_utf8_cons c Hc) as (x&l&->). }
    change (cmp (c :: a) (d :: b)) with (then_with (c ?= d) (cmp a b)). rewrite <- IH by done.
    unfold str_cmp. rewrite !as_bytes_cons. destruct (Z.compare_spec c d) as [->|Hlt|Hlt]; cbn [then_with].
    + induction (encode_utf8 d) as [|x l IHl]; [done|]. unfold bytes_cmp in *. cbn [app list_cmp].
      by rewrite Z.compare_refl.
    + by apply encode_utf8_lt.
    + change bytes_cmp with (cmp (A := list Z)). rewrite cmp_flip. unfold cmp, list_ord, Z_ord, cmp.
      fold bytes_cmp. by rewrite encode_utf8_lt.
Qed.
