(* ===== verification/Lexer.v ===== *)
(** * nia-lexer: tokens and the byte-offset tokenizer

    [crates/nia-lexer/src/token.rs] and [tokenizer.rs].  The tokenizer is the
    source's state machine: a byte slice, a byte position and the kind of the
    previous significant token (which keeps the chained tuple fields of
    [pair.0.1] apart from the float [0.1]).  Every method is a function on that
    state; the scanning loops carry a fuel of one more than the bytes left, and
    the lemmas [*_unfold] of [LexerFacts] show that it never runs out.  Rust's
    enum [TokenKind] has a constructor [Dot], [And], ..; here they carry the
    prefix [T]. *)

From S2P Require Import Prelude RustStd.

(** ** Spans ([crates/nia-span/src/lib.rs]) *)

Record Span := mkSpan { start : nat; end_ : nat }.

(** The saturating length of the half-open range. *)
Definition span_len (s : Span) : nat := end_ s - start s.

Definition span_is_empty (s : Span) : bool := (start s =? end_ s)%nat.

#[global] Instance Span_eq_dec : EqDecision Span.
Proof. solve_decision. Defined.

(** ** Token kinds *)

Inductive LexError : Type :=
  | UnexpectedByte (byte : Z)
  | UnterminatedString
  | UnterminatedChar
  | EmptyChar
  | InvalidByteChar
  | InvalidNumber
  | InvalidStringEscape
  | InvalidCharEscape.

#[global] Instance LexError_eq_dec : EqDecision LexError.
Proof. solve_decision. Defined.

Inductive TokenKind : Type :=
  | TIdent | TInteger | TFloat | TString | TByteString | TChar | TByteChar | TAnd | TAs
  | TBool | TBreak | TConst | TContinue | TDefer | TElse | TEnum | TExtern | TExtend
  | TFalse | TFun | TFor | TIf | TIn | TIs | TLet | TLoop | TModule | TMut | TNever
  | TNot | TNull | TOpaque | TOr | TPub | TRoot | TReturn | TSelfValue | TStruct
  | TSelfType | TStatic | TSuper | TMatch | TTrue | TTrait | TType | TUnion | TUsing
  | TVar | TWhere | TWhile | TLParen | TRParen | TLBrace | TRBrace | TLBracket
  | TRBracket | TComma | TDot | TDotDot | TDotDotEq | TEllipsis | TColon | TColonColon
  | TSemicolon | TAt | TBackslash | TQuestion | TUnderscore | TPlus | TMinus | TStar
  | TSlash | TPercent | TAmp | TPipe | TCaret | TTilde | TBang | TEq | TLt | TGt
  | TLtLt | TGtGt | TPlusEq | TMinusEq | TStarEq | TSlashEq | TPercentEq | TAmpEq
  | TPipeEq | TCaretEq | TEqEq | TBangEq | TLtEq | TGtEq | TLtLtEq | TGtGtEq
  | TFatArrow | TThinArrow | TEof | TError (e : LexError).

(** The two comparisons of token kinds the tokenizer makes. *)
Definition is_eof (k : TokenKind) : bool := match k with TEof => true | _ => false end.
Definition is_dot (k : TokenKind) : bool := match k with TDot => true | _ => false end.

Record Token := mkToken { kind : TokenKind; span : Span }.

Inductive LosslessTokenKind : Type :=
  | LToken (k : TokenKind)
  | LWhitespace
  | LLineComment.

Record LosslessToken := mkLosslessToken { lkind : LosslessTokenKind; lspan : Span }.

(** ** Tokenizer state and byte access *)

Record Tokenizer := mkTokenizer {
  source : list Z;
  pos : nat;
  previous_kind : option TokenKind;
}.

(** [Tokenizer::new]: the UTF-8 bytes of the source string. *)
Definition new (text : list Z) : Tokenizer := mkTokenizer (as_bytes text) 0 None.

Definition set_pos (p : nat) (t : Tokenizer) : Tokenizer :=
  mkTokenizer (source t) p (previous_kind t).

Definition set_previous (k : TokenKind) (t : Tokenizer) : Tokenizer :=
  mkTokenizer (source t) (pos t) (Some k).

Definition bump (t : Tokenizer) : option Z * Tokenizer :=
  match source t !! pos t with
  | None => (None, t)
  | Some byte => (Some byte, set_pos (S (pos t)) t)
  end.

Definition peek (t : Tokenizer) : option Z := source t !! pos t.

Definition peek_next (t : Tokenizer) : option Z := source t !! S (pos t).

(** [self.peek() == Some(byte)]. *)
Definition peek_is (byte : Z) (t : Tokenizer) : bool :=
  match peek t with Some b => b =? byte | None => false end.

Definition peek_next_is (byte : Z) (t : Tokenizer) : bool :=
  match peek_next t with Some b => b =? byte | None => false end.

(** [self.peek().is_some_and(p)]. *)
Definition peek_sat (p : Z → bool) (t : Tokenizer) : bool :=
  match peek t with Some b => p b | None => false end.

Definition eat (byte : Z) (t : Tokenizer) : bool * Tokenizer :=
  if peek_is byte t then (true, snd (bump t)) else (false, t).

Definition token (k : TokenKind) (st en : nat) : Token := mkToken k (mkSpan st en).

Definition lossless_token (k : LosslessTokenKind) (st en : nat) : LosslessToken :=
  mkLosslessToken k (mkSpan st en).

(** Every scanner that ends a token at the current position. *)
Definition emit (k : TokenKind) (st : nat) (t : Tokenizer) : Token * Tokenizer :=
  (token k st (pos t), t).

(** The bytes left, the measure of every scanning loop. *)
Definition remaining (t : Tokenizer) : nat := length (source t) - pos t.

(** ** Byte classes *)

Definition is_ident_continue (byte : Z) : bool :=
  is_ascii_alphanumeric byte || (byte =? "_"%B).

Definition is_ident_start (byte : Z) : bool :=
  is_ascii_alphabetic byte || (byte =? "_"%B).

Definition digit_value (byte : Z) : option Z :=
  if ("0"%B <=? byte) && (byte <=? "9"%B) then Some (byte - "0"%B)
  else if ("a"%B <=? byte) && (byte <=? "f"%B) then Some (byte - "a"%B + 10)
  else if ("A"%B <=? byte) && (byte <=? "F"%B) then Some (byte - "A"%B + 10)
  else None.

(** [digit_value(byte).is_some_and(|value| value < radix)]. *)
Definition is_radix_digit (radix byte : Z) : bool :=
  match digit_value byte with Some value => value <? radix | None => false end.

Definition is_hex_digit (byte : Z) : bool :=
  match digit_value byte with Some _ => true | None => false end.

Definition utf8_width (first : Z) : nat :=
  if (0 <=? first) && (first <=? 127) then 1
  else if (192 <=? first) && (first <=? 223) then 2
  else if (224 <=? first) && (first <=? 239) then 3
  else if (240 <=? first) && (first <=? 247) then 4
  else 0.

Definition is_newline (byte : Z) : bool := (byte =? LF) || (byte =? CR).

(** ** Scanning loops *)

(** [while self.peek().is_some_and(p) { self.bump(); }]. *)
Fixpoint bump_while_fuel (fuel : nat) (p : Z → bool) (t : Tokenizer) : Tokenizer :=
  match fuel with
  | O => t
  | S fuel => if peek_sat p t then bump_while_fuel fuel p (snd (bump t)) else t
  end.

Definition bump_while (p : Z → bool) (t : Tokenizer) : Tokenizer :=
  bump_while_fuel (S (remaining t)) p t.

Definition consume_whitespace (t : Tokenizer) : Tokenizer :=
  bump_while is_ascii_whitespace t.

Definition consume_line_comment (t : Tokenizer) : Tokenizer :=
  bump_while (λ b, negb (b =? LF)) t.

Fixpoint skip_trivia_fuel (fuel : nat) (t : Tokenizer) : Tokenizer :=
  match fuel with
  | O => t
  | S fuel =>
    if peek_sat is_ascii_whitespace t then skip_trivia_fuel fuel (consume_whitespace t)
    else if peek_is "/"%B t && peek_next_is "/"%B t
    then skip_trivia_fuel fuel (consume_line_comment t)
    else t
  end.

Definition skip_trivia (t : Tokenizer) : Tokenizer := skip_trivia_fuel (S (remaining t)) t.

(** The numeric digit loop: the digits seen, whether a separator or digit was
    misplaced, and the state after the run. *)
Fixpoint consume_digits_fuel (fuel : nat) (radix : Z) (previous_was_digit : bool)
    (digits : nat) (invalid : bool) (t : Tokenizer) : nat * bool * Tokenizer :=
  match fuel with
  | O => (digits, invalid, t)
  | S fuel =>
    match peek t with
    | None => (digits, invalid, t)
    | Some byte =>
      if byte =? "_"%B then
        let next_is_digit :=
          match peek_next t with Some b => is_radix_digit radix b | None => false end in
        consume_digits_fuel fuel radix false digits
          (invalid || (negb previous_was_digit || negb next_is_digit)) (snd (bump t))
      else if is_radix_digit radix byte then
        consume_digits_fuel fuel radix true (S digits) invalid (snd (bump t))
      else if negb (radix =? 10) && is_hex_digit byte then
        consume_digits_fuel fuel radix false digits true (snd (bump t))
      else (digits, invalid, t)
    end
  end.

Definition consume_digits (radix : Z) (previous_was_digit : bool) (t : Tokenizer) :
    nat * bool * Tokenizer :=
  consume_digits_fuel (S (remaining t)) radix previous_was_digit 0 false t.

Definition consume_numeric_suffix (t : Tokenizer) : Tokenizer :=
  if peek_sat is_ident_start t then bump_while is_ident_continue (snd (bump t)) else t.

Definition try_scan_exponent (t : Tokenizer) : option bool * Tokenizer :=
  if peek_is "e"%B t || peek_is "E"%B t then
    let t := snd (bump t) in
    let t := if peek_is "+"%B t || peek_is "-"%B t then snd (bump t) else t in
    let '(digits, invalid, t) := consume_digits 10 false t in
    (Some ((0 <? digits)%nat && negb invalid), t)
  else (None, t).

(** ** Numbers *)

Definition radix_number (st : nat) (radix : Z) (t : Tokenizer) : Token * Tokenizer :=
  let '(digits, invalid, t) := consume_digits radix false t in
  let t := consume_numeric_suffix t in
  emit (if (digits =? 0)%nat || invalid then TError InvalidNumber else TInteger) st t.

(** The radix a [0x], [0b] or [0o] prefix selects; [self] is past the [0]. *)
Definition radix_prefix (st : nat) (t : Tokenizer) : option Z :=
  if bool_decide (source t !! st = Some "0"%B) then
    if peek_is "x"%B t || peek_is "X"%B t then Some 16
    else if peek_is "b"%B t || peek_is "B"%B t then Some 2
    else if peek_is "o"%B t || peek_is "O"%B t then Some 8
    else None
  else None.

Definition number (st : nat) (t : Tokenizer) : Token * Tokenizer :=
  match radix_prefix st t with
  | Some radix => radix_number st radix (snd (bump t))
  | None =>
    let '(_, invalid, t) := consume_digits 10 true t in
    if negb (match previous_kind t with Some k => is_dot k | None => false end)
       && peek_is "."%B t
       && match peek_next t with Some b => is_ascii_digit b | None => false end
    then
      let t := snd (bump t) in
      let '(_, invalid', t) := consume_digits 10 false t in
      let invalid := invalid || invalid' in
      let '(exponent_valid, t) := try_scan_exponent t in
      let t := consume_numeric_suffix t in
      if invalid || match exponent_valid with Some false => true | _ => false end
      then emit (TError InvalidNumber) st t
      else emit TFloat st t
    else
      let '(exponent, t) := try_scan_exponent t in
      let t := consume_numeric_suffix t in
      match exponent with
      | Some valid =>
        if invalid || negb valid then emit (TError InvalidNumber) st t else emit TFloat st t
      | None => emit (if invalid then TError InvalidNumber else TInteger) st t
      end
  end.

(** ** Escapes, strings and characters *)

Record CharValue := mkCharValue { value : Z; byte_len : Z }.

Definition one_byte (v : Z) : CharValue := mkCharValue v 1.

Inductive CharScan : Type :=
  | CSValue (v : CharValue)
  | CSEmpty
  | CSUnterminated
  | CSInvalidEscape.

(** The digit loop of [consume_exact_hex_digits]. *)
Fixpoint exact_hex_loop (count : nat) (t : Tokenizer) : bool * Tokenizer :=
  match count with
  | O => (true, t)
  | S count =>
    match peek t with
    | None => (false, t)
    | Some byte =>
      if is_radix_digit 16 byte then exact_hex_loop count (snd (bump t)) else (false, t)
    end
  end.

Definition consume_exact_hex_digits (count : nat) (t : Tokenizer) : option Z * Tokenizer :=
  let st := pos t in
  let '(ok, t) := exact_hex_loop count t in
  if ok then
    (utf8_decode (slice (source t) st (pos t)) ≫= from_str_radix u32_max 16, t)
  else (None, t).

Definition scan_unicode_escape (t : Tokenizer) : option CharValue * Tokenizer :=
  let '(opening, t) := bump t in
  if bool_decide (opening = Some "{"%B) then
    let digits_start := pos t in
    let t := bump_while is_hex_digit t in
    let digits := (pos t - digits_start)%nat in
    if (digits =? 0)%nat || (6 <? digits)%nat then (None, t)
    else
      let '(closing, t) := bump t in
      if bool_decide (closing = Some "}"%B) then
        (text ← utf8_decode (slice (source t) digits_start (pos t - 1));
         v ← from_str_radix u32_max 16 text;
         ch ← char_from_u32 v;
         Some (mkCharValue ch (len_utf8 ch)), t)
      else (None, t)
  else (None, t).

Definition scan_escape (t : Tokenizer) : option (option CharValue) * Tokenizer :=
  match bump t with
  | (None, t) => (None, t)
  | (Some escaped, t) =>
    if escaped =? "n"%B then (Some (Some (one_byte LF)), t)
    else if escaped =? "r"%B then (Some (Some (one_byte CR)), t)
    else if escaped =? "t"%B then (Some (Some (one_byte TAB)), t)
    else if escaped =? BACKSLASH then (Some (Some (one_byte BACKSLASH)), t)
    else if escaped =? SQUOTE then (Some (Some (one_byte SQUOTE)), t)
    else if escaped =? DQUOTE then (Some (Some (one_byte DQUOTE)), t)
    else if escaped =? "0"%B then (Some (Some (one_byte 0)), t)
    else if escaped =? "x"%B then
      let '(v, t) := consume_exact_hex_digits 2 t in (Some (one_byte <$> v), t)
    else if escaped =? "u"%B then
      let '(v, t) := scan_unicode_escape t in (Some v, t)
    else (Some None, t)
  end.

Fixpoint string_fuel (fuel : nat) (st : nat) (success_kind : TokenKind)
    (invalid_escape : bool) (t : Tokenizer) : Token * Tokenizer :=
  match fuel with
  | O => emit (TError UnterminatedString) st t
  | S fuel =>
    match peek t with
    | None => emit (TError UnterminatedString) st t
    | Some byte =>
      if byte =? DQUOTE then
        emit (if invalid_escape then TError InvalidStringEscape else success_kind) st
          (snd (bump t))
      else if is_newline byte then emit (TError UnterminatedString) st t
      else if byte =? BACKSLASH then
        let '(esc, t) := scan_escape (snd (bump t)) in
        string_fuel fuel st success_kind
          (match esc with Some (Some _) => invalid_escape | _ => true end) t
      else string_fuel fuel st success_kind invalid_escape (snd (bump t))
    end
  end.

Definition string_lit (st : nat) (success_kind : TokenKind) (t : Tokenizer) : Token * Tokenizer :=
  string_fuel (S (remaining t)) st success_kind false t.

Fixpoint recover_char_literal_fuel (fuel : nat) (t : Tokenizer) : Tokenizer :=
  match fuel with
  | O => t
  | S fuel =>
    match peek t with
    | None => t
    | Some byte =>
      if byte =? SQUOTE then snd (bump t)
      else if is_newline byte then t
      else recover_char_literal_fuel fuel (snd (bump t))
    end
  end.

Definition recover_char_literal (t : Tokenizer) : Tokenizer :=
  recover_char_literal_fuel (S (remaining t)) t.

(** The continuation-byte loop of [scan_utf8_codepoint]: [None] when every byte
    is a continuation byte. *)
Fixpoint continuation_bytes (n : nat) (t : Tokenizer) : option CharScan * Tokenizer :=
  match n with
  | O => (None, t)
  | S n =>
    match bump t with
    | (None, t) => (Some CSUnterminated, t)
    | (Some byte, t) =>
      if Z.land byte 192 =? 128 then continuation_bytes n t else (Some CSInvalidEscape, t)
    end
  end.

Definition scan_utf8_codepoint (t : Tokenizer) : CharScan * Tokenizer :=
  let st := pos t in
  match bump t with
  | (None, t) => (CSUnterminated, t)
  | (Some first, t) =>
    let width := utf8_width first in
    if (width =? 0)%nat || (length (source t) <? pos t + (width - 1))%nat
    then (CSInvalidEscape, t)
    else
      match continuation_bytes (width - 1) t with
      | (Some failure, t) => (failure, t)
      | (None, t) =>
        match utf8_decode (slice (source t) st (pos t)) with
        | Some [ch] => (CSValue (mkCharValue ch (Z.of_nat width)), t)
        | _ => (CSInvalidEscape, t)
        end
      end
  end.

Definition scan_char_value (t : Tokenizer) : CharScan * Tokenizer :=
  match peek t with
  | None => (CSUnterminated, t)
  | Some first =>
    if first =? SQUOTE then (CSEmpty, t)
    else if is_newline first then (CSUnterminated, t)
    else if first =? BACKSLASH then
      match scan_escape (snd (bump t)) with
      | (Some (Some v), t) => (CSValue v, t)
      | (Some None, t) => (CSInvalidEscape, t)
      | (None, t) => (CSUnterminated, t)
      end
    else scan_utf8_codepoint t
  end.

(** The token kind of a terminated character literal. *)
Definition char_kind (is_byte : bool) (v : CharValue) : TokenKind :=
  if is_byte then
    if negb (byte_len v =? 1) || (u8_max <? value v)
    then TError InvalidByteChar else TByteChar
  else
    match char_from_u32 (value v) with
    | Some _ => TChar
    | None => TError InvalidCharEscape
    end.

Definition char_lit (st : nat) (is_byte : bool) (t : Tokenizer) : Token * Tokenizer :=
  match scan_char_value t with
  | (CSEmpty, t) => emit (TError EmptyChar) st (snd (bump t))
  | (CSUnterminated, t) => emit (TError UnterminatedChar) st t
  | (CSInvalidEscape, t) => emit (TError InvalidCharEscape) st (recover_char_literal t)
  | (CSValue v, t) =>
    let '(closing, t) := bump t in
    if bool_decide (closing = Some SQUOTE) then emit (char_kind is_byte v) st t
    else emit (TError UnterminatedChar) st (recover_char_literal t)
  end.

(** ** Identifiers and keywords *)

(** The arms of the keyword match of [ident_or_keyword], in order. *)
Definition keyword_table : list (string * TokenKind) :=
  [("and", TAnd); ("as", TAs); ("bool", TBool); ("break", TBreak); ("const", TConst);
   ("continue", TContinue); ("defer", TDefer); ("else", TElse); ("enum", TEnum);
   ("extern", TExtern); ("extend", TExtend); ("false", TFalse); ("fun", TFun);
   ("for", TFor); ("if", TIf); ("in", TIn); ("is", TIs); ("let", TLet); ("loop", TLoop);
   ("module", TModule); ("mut", TMut); ("never", TNever); ("not", TNot); ("null", TNull);
   ("opaque", TOpaque); ("or", TOr); ("root", TRoot); ("pub", TPub); ("return", TReturn);
   ("self", TSelfValue); ("Self", TSelfType); ("static", TStatic); ("struct", TStruct);
   ("super", TSuper); ("match", TMatch); ("trait", TTrait); ("true", TTrue);
   ("type", TType); ("union", TUnion); ("using", TUsing); ("where", TWhere);
   ("while", TWhile)]%string.

Definition keyword_kind (text : list Z) : TokenKind :=
  match list_find (λ kw, bytes_of_string kw.1 = text) keyword_table with
  | Some (_, (_, k)) => k
  | None => TIdent
  end.

Definition ident_or_keyword (st : nat) (t : Tokenizer) : Token * Tokenizer :=
  let t := bump_while is_ident_continue t in
  let text := default [] (utf8_decode (slice (source t) st (pos t))) in
  emit (keyword_kind text) st t.

Definition maybe_eq (st : nat) (plain eq : TokenKind) (t : Tokenizer) : Token * Tokenizer :=
  let '(ate, t) := eat "="%B t in
  emit (if ate then eq else plain) st t.

(** ** One token *)

Definition scan_token (t : Tokenizer) : Token * Tokenizer :=
  let st := pos t in
  match bump t with
  | (None, t) => (token TEof st st, t)
  | (Some byte, t) =>
    if (byte =? "b"%B) && peek_is DQUOTE t then string_lit st TByteString (snd (bump t))
    else if (byte =? "b"%B) && peek_is SQUOTE t then char_lit st true (snd (bump t))
    else if is_ascii_alphabetic byte then ident_or_keyword st t
    else if byte =? "_"%B then
      if peek_sat is_ident_continue t then ident_or_keyword st t else emit TUnderscore st t
    else if is_ascii_digit byte then number st t
    else if byte =? DQUOTE then string_lit st TString t
    else if byte =? BACKSLASH then emit TBackslash st t
    else if byte =? SQUOTE then char_lit st false t
    else if byte =? "("%B then emit TLParen st t
    else if byte =? ")"%B then emit TRParen st t
    else if byte =? "{"%B then emit TLBrace st t
    else if byte =? "}"%B then emit TRBrace st t
    else if byte =? "["%B then emit TLBracket st t
    else if byte =? "]"%B then emit TRBracket st t
    else if byte =? ","%B then emit TComma st t
    else if byte =? "."%B then
      if peek_is "."%B t && peek_next_is "."%B t
      then emit TEllipsis st (snd (bump (snd (bump t))))
      else
        let '(ate, t) := eat "."%B t in
        if ate then
          let '(ate, t) := eat "="%B t in emit (if ate then TDotDotEq else TDotDot) st t
        else emit TDot st t
    else if byte =? ";"%B then emit TSemicolon st t
    else if byte =? "@"%B then emit TAt st t
    else if byte =? "?"%B then emit TQuestion st t
    else if byte =? ":"%B then
      let '(ate, t) := eat ":"%B t in emit (if ate then TColonColon else TColon) st t
    else if byte =? "+"%B then maybe_eq st TPlus TPlusEq t
    else if byte =? "-"%B then
      let '(ate, t) := eat ">"%B t in
      if ate then emit TThinArrow st t else maybe_eq st TMinus TMinusEq t
    else if byte =? "*"%B then maybe_eq st TStar TStarEq t
    else if byte =? "/"%B then maybe_eq st TSlash TSlashEq t
    else if byte =? "%"%B then maybe_eq st TPercent TPercentEq t
    else if byte =? "^"%B then maybe_eq st TCaret TCaretEq t
    else if byte =? "~"%B then emit TTilde st t
    else if byte =? "!"%B then maybe_eq st TBang TBangEq t
    else if byte =? "="%B then
      let '(ate, t) := eat "="%B t in
      if ate then emit TEqEq st t
      else let '(ate, t) := eat ">"%B t in emit (if ate then TFatArrow else TEq) st t
    else if byte =? "<"%B then
      let '(ate, t) := eat "<"%B t in
      if ate then maybe_eq st TLtLt TLtLtEq t
      else let '(ate, t) := eat "="%B t in emit (if ate then TLtEq else TLt) st t
    else if byte =? ">"%B then
      let '(ate, t) := eat ">"%B t in
      if ate then maybe_eq st TGtGt TGtGtEq t
      else let '(ate, t) := eat "="%B t in emit (if ate then TGtEq else TGt) st t
    else if byte =? "&"%B then
      let '(ate, t) := eat "="%B t in emit (if ate then TAmpEq else TAmp) st t
    else if byte =? "|"%B then
      let '(ate, t) := eat "="%B t in emit (if ate then TPipeEq else TPipe) st t
    else
      let t := if byte <? 128 then t else set_pos (st + utf8_width byte) t in
      emit (TError (UnexpectedByte byte)) st t
  end.

Definition next_token (t : Tokenizer) : Token * Tokenizer :=
  let '(tok, t) := scan_token t in (tok, set_previous (kind tok) t).

Definition next_lossless_token (t : Tokenizer) : LosslessToken * Tokenizer :=
  let st := pos t in
  match peek t with
  | None => (lossless_token (LToken TEof) st st, t)
  | Some byte =>
    if is_ascii_whitespace byte then
      let t := consume_whitespace t in (lossless_token LWhitespace st (pos t), t)
    else if (byte =? "/"%B) && peek_next_is "/"%B t then
      let t := consume_line_comment t in (lossless_token LLineComment st (pos t), t)
    else
      let '(tok, t) := next_token t in (mkLosslessToken (LToken (kind tok)) (span tok), t)
  end.

(** ** The token streams

    The loops end at the EOF token; [None] when the fuel runs out first, which
    [LexerFacts] shows never happens for a string. *)

Fixpoint tokenize_fuel (fuel : nat) (t : Tokenizer) : option (list Token) :=
  match fuel with
  | O => None
  | S fuel =>
    let '(tok, t) := next_token (skip_trivia t) in
    if is_eof (kind tok) then Some [tok] else cons tok <$> tokenize_fuel fuel t
  end.

Fixpoint tokenize_lossless_fuel (fuel : nat) (t : Tokenizer) : option (list LosslessToken) :=
  match fuel with
  | O => None
  | S fuel =>
    let '(tok, t) := next_lossless_token t in
    match lkind tok with
    | LToken TEof => Some [tok]
    | _ => cons tok <$> tokenize_lossless_fuel fuel t
    end
  end.

(** [tokenize] and [tokenize_lossless] on a source string. *)
Definition tokenize (text : list Z) : option (list Token) :=
  tokenize_fuel (S (length (as_bytes text))) (new text).

Definition tokenize_lossless (text : list Z) : option (list LosslessToken) :=
  tokenize_lossless_fuel (S (length (as_bytes text))) (new text).

(** The source bytes of a span. *)
Definition span_text (bs : list Z) (s : Span) : list Z := slice bs (start s) (end_ s).
