(* ===== verification/LexerFacts.v ===== *)
(** * nia-lexer: the tokenizer's loops terminate, cover the source and stay on
    character boundaries

    The lemmas behind the lexer properties: every scanner only moves the
    position forward ([advances]), the loops satisfy the source's [while]
    equations ([*_unfold]), and on the bytes of a string every token starts and
    ends on a character boundary. *)

From S2P Require Import Prelude RustStd Lexer.

Create HintDb lexer discriminated.

(** ** Moving forward *)

(** [t'] is [t] with the position moved forward within the source. *)
Definition advances (t t' : Tokenizer) : Prop :=
  source t' = source t ∧ previous_kind t' = previous_kind t ∧ (pos t ≤ pos t')%nat ∧
  (pos t ≤ length (source t) → pos t' ≤ length (source t))%nat.

#[global] Instance advances_preorder : PreOrder advances.
Proof.
  split; [by repeat split|].
  intros t1 t2 t3 (Hs&Hp&?&?) (Hs'&Hp'&?&?). unfold advances. rewrite Hs', Hp'.
  rewrite Hs in *. split_and!; (done || lia).
Qed.

Lemma bump_Some t b : peek t = Some b → bump t = (Some b, set_pos (S (pos t)) t).
Proof. unfold bump, peek. by intros ->. Qed.

Lemma bump_None t : peek t = None → bump t = (None, t).
Proof. unfold bump, peek. by intros ->. Qed.

Lemma bump_fst t : fst (bump t) = peek t.
Proof. unfold bump, peek. by case_match. Qed.

Lemma bump_advances t : advances t (snd (bump t)).
Proof.
  unfold bump. case_match eqn:H; [|done]. apply lookup_lt_Some in H.
  unfold advances. simpl. split_and!; (done || lia).
Qed.

Lemma bump_pos t b : peek t = Some b → pos (snd (bump t)) = S (pos t).
Proof. intros H. by rewrite (bump_Some _ _ H). Qed.

Lemma peek_lt t b : peek t = Some b → (pos t < length (source t))%nat.
Proof. apply lookup_lt_Some. Qed.

Lemma bump_remaining t b : peek t = Some b → S (remaining (snd (bump t))) = remaining t.
Proof.
  intros H. pose proof (peek_lt _ _ H). unfold remaining. rewrite (bump_pos _ _ H).
  rewrite (proj1 (bump_advances t)). lia.
Qed.

Lemma advances_remaining t t' : advances t t' → (remaining t' ≤ remaining t)%nat.
Proof. intros (Hs&_&?&_). unfold remaining. rewrite Hs. lia. Qed.

Lemma peek_sat_true p t : peek_sat p t = true ↔ ∃ b, peek t = Some b ∧ p b = true.
Proof. unfold peek_sat. case_match; naive_solver. Qed.

Lemma peek_is_true b t : peek_is b t = true ↔ peek t = Some b.
Proof. unfold peek_is. case_match; [rewrite Z.eqb_eq|]; naive_solver. Qed.

Lemma eat_advances b t : advances t (snd (eat b t)).
Proof. unfold eat. case_match; [apply bump_advances|done]. Qed.

(** ** The [while] loops *)

Lemma bump_while_unfold p t :
  bump_while p t = if peek_sat p t then bump_while p (snd (bump t)) else t.
Proof.
  unfold bump_while at 1. cbn [bump_while_fuel].
  destruct (peek_sat p t) eqn:Hp; [|done].
  apply peek_sat_true in Hp as (b&Hb&_). unfold bump_while.
  by rewrite (bump_remaining t b Hb).
Qed.

(** Induction along a scanning loop: on the number of bytes left. *)
Lemma remaining_ind (P : Tokenizer → Prop) :
  (∀ t, (∀ t', (remaining t' < remaining t)%nat → P t') → P t) → ∀ t, P t.
Proof. intros H. apply (well_founded_ind (Wf_nat.well_founded_ltof _ remaining)). exact H. Qed.

Lemma bump_while_spec p t :
  advances t (bump_while p t) ∧ peek_sat p (bump_while p t) = false ∧
  range_forall (λ b, p b = true) (source t) (pos t) (pos (bump_while p t)).
Proof.
  induction t as [t IH] using remaining_ind. rewrite bump_while_unfold.
  destruct (peek_sat p t) eqn:Hp; [|split_and!; [done..|intros k x Hk; lia]].
  apply peek_sat_true in Hp as (b&Hb&Hpb).
  destruct (IH (snd (bump t))) as (Ha&Hf&Hr).
  { pose proof (bump_remaining t b Hb). lia. }
  pose proof (bump_advances t) as Hbt. split_and!; [by etrans|done|].
  intros k x Hk Hx. destruct (decide (k = pos t)) as [->|].
  { unfold peek in Hb. congruence. }
  rewrite (proj1 Hbt), (bump_pos t b Hb) in Hr. apply (Hr k); [lia|done].
Qed.

Lemma bump_while_advances p t : advances t (bump_while p t).
Proof. apply bump_while_spec. Qed.

#[export] Hint Resolve bump_advances eat_advances bump_while_advances : lexer.

Lemma skip_trivia_fuel_enough t : ∀ f1 f2,
  (remaining t < f1)%nat → (remaining t < f2)%nat → skip_trivia_fuel f1 t = skip_trivia_fuel f2 t.
Proof.
  induction t as [t IH] using remaining_ind. intros [|f1] [|f2] ??; [lia..|]. cbn [skip_trivia_fuel].
  assert (∀ p, peek_sat p t = true → (remaining (bump_while p t) < remaining t)%nat) as Hlt.
  { intros p Hp. rewrite bump_while_unfold, Hp. apply peek_sat_true in Hp as (b&Hb&_).
    pose proof (bump_remaining t b Hb).
    pose proof (advances_remaining _ _ (bump_while_advances p (snd (bump t)))). lia. }
  destruct (peek_sat is_ascii_whitespace t) eqn:Hw.
  { specialize (Hlt _ Hw). fold (consume_whitespace t) in Hlt. apply IH; lia. }
  destruct (peek_is _ t && peek_next_is _ t) eqn:Hc; [|done].
  apply andb_true_iff in Hc as [Hc%peek_is_true _].
  assert (peek_sat (λ b, negb (b =? LF)) t = true) as Hs.
  { apply peek_sat_true. by eexists. }
  specialize (Hlt _ Hs). fold (consume_line_comment t) in Hlt. apply IH; lia.
Qed.

Lemma skip_trivia_unfold t :
  skip_trivia t =
    if peek_sat is_ascii_whitespace t then skip_trivia (consume_whitespace t)
    else if peek_is "/"%B t && peek_next_is "/"%B t then skip_trivia (consume_line_comment t)
    else t.
Proof.
  unfold skip_trivia.
  assert (∀ t' f, advances t t' → (remaining t < f)%nat →
    skip_trivia_fuel f t' = skip_trivia_fuel (S (remaining t')) t') as H.
  { intros t' f Ha%advances_remaining ?. apply skip_trivia_fuel_enough; lia. }
  rewrite (skip_trivia_fuel_enough t _ (S (S (remaining t)))) by lia.
  remember (S (remaining t)) as n eqn:Hn. cbn [skip_trivia_fuel].
  rewrite (H (consume_whitespace t) n), (H (consume_line_comment t) n)
    by (apply bump_while_advances || lia). done.
Qed.

(** The digit loop without its fuel. *)
Definition digit_loop (radix : Z) (prev : bool) (digits : nat) (invalid : bool) (t : Tokenizer) :=
  consume_digits_fuel (S (remaining t)) radix prev digits invalid t.

Lemma digit_loop_unfold radix prev digits invalid t :
  digit_loop radix prev digits invalid t =
    match peek t with
    | None => (digits, invalid, t)
    | Some byte =>
      let t' := snd (bump t) in
      if byte =? "_"%B then
        let next_is_digit :=
          match peek_next t with Some b => is_radix_digit radix b | None => false end in
        digit_loop radix false digits (invalid || (negb prev || negb next_is_digit)) t'
      else if is_radix_digit radix byte then digit_loop radix true (S digits) invalid t'
      else if negb (radix =? 10) && is_hex_digit byte then digit_loop radix false digits true t'
      else (digits, invalid, t)
    end.
Proof.
  unfold digit_loop at 1. cbn [consume_digits_fuel].
  destruct (peek t) as [b|] eqn:Hb; [|done].
  cbn zeta. unfold digit_loop. by rewrite (bump_remaining t b Hb).
Qed.

(** The digit loop stops before a byte it does not accept, and every byte it
    consumes is ASCII. *)
Definition digit_byte (radix byte : Z) : bool :=
  (byte =? "_"%B) || is_radix_digit radix byte || (negb (radix =? 10) && is_hex_digit byte).

Lemma digit_loop_spec radix prev digits invalid t :
  let t' := snd (digit_loop radix prev digits invalid t) in
  advances t t' ∧ peek_sat (digit_byte radix) t' = false ∧
  range_forall (λ b, digit_byte radix b = true) (source t) (pos t) (pos t').
Proof.
  revert prev digits invalid. induction t as [t IH] using remaining_ind. intros.
  subst t'. rewrite digit_loop_unfold.
  destruct (peek t) as [b|] eqn:Hb.
  2:{ simpl. unfold peek_sat. rewrite Hb. split_and!; [done..|intros k x Hk; lia]. }
  assert (∀ prev digits invalid, digit_byte radix b = true →
    let t' := snd (digit_loop radix prev digits invalid (snd (bump t))) in
    advances t t' ∧ peek_sat (digit_byte radix) t' = false ∧
    range_forall (λ b, digit_byte radix b = true) (source t) (pos t) (pos t')) as Hstep.
  { intros prev' digits' invalid' Hd. pose proof (bump_remaining t b Hb).
    destruct (IH (snd (bump t)) ltac:(lia) prev' digits' invalid') as (Ha&Hf&Hr).
    pose proof (bump_advances t) as Hbt. split_and!; [by etrans|done|].
    intros k x Hk Hx. destruct (decide (k = pos t)) as [->|].
    { unfold peek in Hb. congruence. }
    rewrite (proj1 Hbt), (bump_pos t b Hb) in Hr. apply (Hr k); [lia|done]. }
  cbn zeta. unfold digit_byte in Hstep at 1.
  destruct (b =? _) eqn:?; [by apply Hstep|].
  destruct (is_radix_digit radix b) eqn:?; [by apply Hstep|].
  destruct (negb _ && _) eqn:?; [by apply Hstep|].
  simpl. unfold peek_sat, digit_byte. rewrite Hb. split_and!; [done| |intros k x Hk; lia].
  by rewrite Heqb0, Heqb1, Heqb2.
Qed.

(** ** Runs of ASCII bytes *)

(** [t'] is reached from [t] by consuming ASCII bytes only. *)
Definition ascii_run (t t' : Tokenizer) : Prop :=
  advances t t' ∧ range_forall (λ b, b < 128) (source t) (pos t) (pos t').

#[global] Instance ascii_run_preorder : PreOrder ascii_run.
Proof.
  split.
  - intros t. split; [done|]. intros k x Hk. lia.
  - intros t1 t2 t3 [H12 Hr12] [H23 Hr23]. split; [by etrans|].
    intros k x Hk Hx. destruct (decide (k < pos t2)%nat).
    + apply (Hr12 k); [lia|done].
    + rewrite (proj1 H12) in Hr23. apply (Hr23 k); [lia|done].
Qed.

Lemma ascii_run_advances t t' : ascii_run t t' → advances t t'.
Proof. by intros [? _]. Qed.

Lemma bump_ascii_run t b : peek t = Some b → b < 128 → ascii_run t (snd (bump t)).
Proof.
  intros Hb ?. split; [apply bump_advances|]. rewrite (bump_pos t b Hb).
  intros k x Hk Hx. assert (k = pos t) as -> by lia. unfold peek in Hb. congruence.
Qed.

Lemma bump_sat_ascii_run p t :
  (∀ b, p b = true → b < 128) → peek_sat p t = true → ascii_run t (snd (bump t)).
Proof. intros Hp (b&Hb&?)%peek_sat_true. eapply bump_ascii_run; eauto. Qed.

Lemma bump_is_ascii_run b t : b < 128 → peek_is b t = true → ascii_run t (snd (bump t)).
Proof. intros Hb H%peek_is_true. by eapply bump_ascii_run. Qed.

Lemma bump_while_ascii_run p t : (∀ b, p b = true → b < 128) → ascii_run t (bump_while p t).
Proof.
  intros Hp. destruct (bump_while_spec p t) as (?&_&Hr). split; [done|].
  intros k x Hk Hx. apply Hp. by eapply Hr.
Qed.

Lemma eat_ascii_run b t : b < 128 → ascii_run t (snd (eat b t)).
Proof. intros. unfold eat. case_match; [by eapply bump_is_ascii_run|done]. Qed.

Lemma is_ident_continue_ascii b : is_ident_continue b = true → b < 128.
Proof.
  unfold is_ident_continue, is_ascii_alphanumeric, is_ascii_alphabetic, is_ascii_digit.
  rewrite !orb_true_iff, !andb_true_iff. lia.
Qed.

Lemma is_ident_start_ascii b : is_ident_start b = true → b < 128.
Proof.
  unfold is_ident_start, is_ascii_alphabetic. rewrite !orb_true_iff, !andb_true_iff. lia.
Qed.

Lemma is_hex_digit_ascii b : is_hex_digit b = true → b < 128.
Proof. unfold is_hex_digit, digit_value. repeat case_match; bool_to_prop; (done || lia). Qed.

Lemma is_radix_digit_hex radix b : is_radix_digit radix b = true → is_hex_digit b = true.
Proof. unfold is_radix_digit, is_hex_digit. by case_match. Qed.

Lemma is_ascii_whitespace_ascii b : is_ascii_whitespace b = true → b < 128.
Proof. unfold is_ascii_whitespace. rewrite !orb_true_iff. lia. Qed.

Lemma digit_byte_ascii radix b : digit_byte radix b = true → b < 128.
Proof.
  unfold digit_byte. rewrite !orb_true_iff, andb_true_iff.
  intros [[?|?%is_radix_digit_hex%is_hex_digit_ascii]|[_ ?%is_hex_digit_ascii]]; lia.
Qed.

#[export] Hint Resolve is_ident_continue_ascii is_ident_start_ascii is_hex_digit_ascii
  is_ascii_whitespace_ascii digit_byte_ascii eat_ascii_run bump_while_ascii_run
  ascii_run_advances : lexer.
#[export] Hint Extern 1 (_ < 128) => lia : lexer.

Lemma consume_digits_ascii_run radix prev t : ascii_run t (snd (consume_digits radix prev t)).
Proof.
  destruct (digit_loop_spec radix prev 0 false t) as (?&_&Hr). split; [done|].
  intros k x Hk Hx. eapply digit_byte_ascii, Hr; eauto.
Qed.

Lemma consume_numeric_suffix_ascii_run t : ascii_run t (consume_numeric_suffix t).
Proof.
  unfold consume_numeric_suffix. case_match eqn:H; [|done].
  etrans; [eapply (bump_sat_ascii_run is_ident_start)|apply bump_while_ascii_run];
    eauto using is_ident_start_ascii, is_ident_continue_ascii.
Qed.

Lemma peek_is_or_ascii_run b1 b2 t :
  b1 < 128 → b2 < 128 → peek_is b1 t || peek_is b2 t = true → ascii_run t (snd (bump t)).
Proof. intros ?? [H|H]%orb_true_iff; eapply bump_is_ascii_run; [|done| |done]; lia. Qed.

Lemma try_scan_exponent_ascii_run t : ascii_run t (snd (try_scan_exponent t)).
Proof.
  unfold try_scan_exponent. case_match eqn:He; [|done].
  match goal with |- context [consume_digits ?r ?b ?t] =>
    pose proof (consume_digits_ascii_run r b t) as Hd;
    destruct (consume_digits r b t) as [[d i] t'] end.
  simpl in *. etrans; [|exact Hd].
  eapply peek_is_or_ascii_run in He; [|lia..].
  case_match eqn:Hs; [|done]. etrans; [exact He|].
  eapply peek_is_or_ascii_run; [| |done]; lia.
Qed.

#[export] Hint Resolve consume_digits_ascii_run consume_numeric_suffix_ascii_run
  try_scan_exponent_ascii_run : lexer.

(** ** What a scanner returns *)

(** The token spans from [st] to the position reached, and is not EOF. *)
Definition token_ends (st : nat) (r : Token * Tokenizer) : Prop :=
  span (fst r) = mkSpan st (pos (snd r)) ∧ kind (fst r) ≠ TEof.

Lemma emit_token_ends k st t : k ≠ TEof → token_ends st (emit k st t).
Proof. by split. Qed.

Lemma radix_number_spec st radix t :
  token_ends st (radix_number st radix t) ∧ ascii_run t (snd (radix_number st radix t)).
Proof.
  unfold radix_number. pose proof (consume_digits_ascii_run radix false t) as Hd.
  destruct (consume_digits _ _ _) as [[d i] t']. simpl in Hd.
  split; [apply emit_token_ends; by case_match|].
  etrans; [exact Hd|]. apply consume_numeric_suffix_ascii_run.
Qed.

Lemma radix_prefix_bump st t r : radix_prefix st t = Some r → ascii_run t (snd (bump t)).
Proof.
  unfold radix_prefix. intros H. case_bool_decide; [|done].
  repeat match type of H with context [if ?b then _ else _] =>
    destruct b eqn:?; [eapply peek_is_or_ascii_run; [| |done]; lia|] end.
  done.
Qed.

Lemma number_spec st t : token_ends st (number st t) ∧ ascii_run t (snd (number st t)).
Proof.
  unfold number. destruct (radix_prefix st t) as [r|] eqn:Hr.
  { destruct (radix_number_spec st r (snd (bump t))) as [??]. split; [done|].
    etrans; [by eapply radix_prefix_bump|done]. }
  pose proof (consume_digits_ascii_run 10 true t) as Hd.
  destruct (consume_digits _ _ _) as [[d i] t1]. simpl in Hd.
  destruct (negb _ && _ && _) eqn:Hdot.
  - apply andb_true_iff in Hdot as [[_ Hdot]%andb_true_iff _].
    apply bump_is_ascii_run in Hdot; [|lia].
    pose proof (consume_digits_ascii_run 10 false (snd (bump t1))) as Hd2.
    destruct (consume_digits _ _ _) as [[d2 i2] t2]. simpl in Hd2.
    pose proof (try_scan_exponent_ascii_run t2) as Hx.
    destruct (try_scan_exponent t2) as [e t3]. simpl in Hx.
    pose proof (consume_numeric_suffix_ascii_run t3) as Hn.
    split; [case_match; by apply emit_token_ends|].
    case_match; simpl; by repeat (etrans; [eassumption|]).
  - pose proof (try_scan_exponent_ascii_run t1) as Hx.
    destruct (try_scan_exponent t1) as [e t2]. simpl in Hx.
    pose proof (consume_numeric_suffix_ascii_run t2) as Hn.
    split; [repeat case_match; by apply emit_token_ends|].
    repeat case_match; simpl; by repeat (etrans; [eassumption|]).
Qed.

Lemma ident_or_keyword_spec st t :
  token_ends st (ident_or_keyword st t) ∧ ascii_run t (snd (ident_or_keyword st t)).
Proof.
  unfold ident_or_keyword. split.
  - apply emit_token_ends. unfold keyword_kind.
    destruct (list_find _ _) as [[i [kw k]]|] eqn:Hf; [|done].
    apply list_find_Some in Hf as (Hk&_&_).
    assert (Forall (λ kw, kw.2 ≠ TEof) keyword_table) as Hall by (repeat constructor; discriminate).
    rewrite Forall_lookup in Hall. by apply Hall in Hk.
  - apply bump_while_ascii_run, is_ident_continue_ascii.
Qed.

Lemma maybe_eq_spec st p e t :
  p ≠ TEof → e ≠ TEof →
  token_ends st (maybe_eq st p e t) ∧ ascii_run t (snd (maybe_eq st p e t)).
Proof.
  intros ??. unfold maybe_eq. pose proof (eat_ascii_run "="%B t) as Heat.
  destruct (eat _ t) as [a t']. split; [apply emit_token_ends; by case_match|].
  apply Heat. lia.
Qed.

(** ** Escapes, strings and characters *)

Lemma exact_hex_loop_advances n t : advances t (snd (exact_hex_loop n t)).
Proof.
  revert t. induction n as [|n IH]; intros t; simpl; [done|].
  repeat case_match; try done. etrans; [apply bump_advances|apply IH].
Qed.

Lemma consume_exact_hex_digits_advances n t : advances t (snd (consume_exact_hex_digits n t)).
Proof.
  unfold consume_exact_hex_digits. pose proof (exact_hex_loop_advances n t).
  destruct (exact_hex_loop n t) as [[] t']; done.
Qed.

Lemma scan_unicode_escape_advances t : advances t (snd (scan_unicode_escape t)).
Proof.
  unfold scan_unicode_escape. pose proof (bump_advances t) as H1.
  destruct (bump t) as [o t1]. simpl in H1. case_bool_decide; [|done].
  pose proof (bump_while_advances is_hex_digit t1) as H2.
  set (t2 := bump_while is_hex_digit t1) in *. case_match; [by etrans|].
  pose proof (bump_advances t2) as H3. destruct (bump t2) as [c t3]. simpl in H3.
  case_bool_decide; simpl; by repeat (etrans; [eassumption|]).
Qed.

Lemma scan_escape_advances t : advances t (snd (scan_escape t)).
Proof.
  unfold scan_escape. pose proof (bump_advances t) as H1.
  destruct (bump t) as [[b|] t1]; simpl in H1; [|done].
  pose proof (consume_exact_hex_digits_advances 2 t1).
  destruct (consume_exact_hex_digits 2 t1) as [v t2].
  pose proof (scan_unicode_escape_advances t1).
  destruct (scan_unicode_escape t1) as [w t3]. simpl in *.
  repeat case_match; simpl; (done || by etrans).
Qed.

Lemma string_fuel_enough t : ∀ f1 f2 st k inv,
  (remaining t < f1)%nat → (remaining t < f2)%nat →
  string_fuel f1 st k inv t = string_fuel f2 st k inv t.
Proof.
  induction t as [t IH] using remaining_ind. intros [|f1] [|f2] st k inv ??; [lia..|].
  cbn [string_fuel]. destruct (peek t) as [b|] eqn:Hb; [|done].
  pose proof (bump_remaining t b Hb).
  pose proof (advances_remaining _ _ (scan_escape_advances (snd (bump t)))) as Hesc.
  destruct (b =? DQUOTE); [done|]. destruct (is_newline b); [done|].
  destruct (b =? BACKSLASH); [|apply IH; lia].
  destruct (scan_escape _) as [esc t']. simpl in Hesc. apply IH; lia.
Qed.

(** The string loop without its fuel. *)
Definition string_loop (st : nat) (k : TokenKind) (inv : bool) (t : Tokenizer) :=
  string_fuel (S (remaining t)) st k inv t.

Lemma string_loop_unfold st k inv t :
  string_loop st k inv t =
    match peek t with
    | None => emit (TError UnterminatedString) st t
    | Some byte =>
      if byte =? DQUOTE then
        emit (if inv then TError InvalidStringEscape else k) st (snd (bump t))
      else if is_newline byte then emit (TError UnterminatedString) st t
      else if byte =? BACKSLASH then
        let '(esc, t) := scan_escape (snd (bump t)) in
        string_loop st k (match esc with Some (Some _) => inv | _ => true end) t
      else string_loop st k inv (snd (bump t))
    end.
Proof.
  unfold string_loop at 1. cbn [string_fuel].
  destruct (peek t) as [b|] eqn:Hb; [|done]. pose proof (bump_remaining t b Hb).
  pose proof (advances_remaining _ _ (scan_escape_advances (snd (bump t)))) as Hesc.
  destruct (b =? DQUOTE); [done|]. destruct (is_newline b); [done|].
  destruct (b =? BACKSLASH); [|apply string_fuel_enough; lia].
  destruct (scan_escape _) as [esc t']. simpl in Hesc. apply string_fuel_enough; lia.
Qed.

Lemma recover_unfold t :
  recover_char_literal t =
    match peek t with
    | None => t
    | Some byte =>
      if byte =? SQUOTE then snd (bump t) else if is_newline byte then t
      else recover_char_literal (snd (bump t))
    end.
Proof.
  unfold recover_char_literal at 1. cbn [recover_char_literal_fuel].
  destruct (peek t) as [b|] eqn:Hb; [|done]. unfold recover_char_literal.
  by rewrite (bump_remaining t b Hb).
Qed.

Lemma continuation_bytes_advances n t : advances t (snd (continuation_bytes n t)).
Proof.
  revert t. induction n as [|n IH]; intros t; simpl; [done|].
  pose proof (bump_advances t). destruct (bump t) as [[b|] t']; simpl in *; [|done].
  case_match; [|done]. etrans; [eassumption|apply IH].
Qed.

Lemma scan_utf8_codepoint_advances t : advances t (snd (scan_utf8_codepoint t)).
Proof.
  unfold scan_utf8_codepoint. pose proof (bump_advances t) as H1.
  destruct (bump t) as [[b|] t1]; simpl in *; [|done]. case_match; [done|].
  pose proof (continuation_bytes_advances (utf8_width b - 1) t1) as H2.
  destruct (continuation_bytes _ t1) as [[f|] t2]; simpl in *; [by etrans|].
  repeat case_match; simpl; by etrans.
Qed.

Lemma scan_char_value_advances t : advances t (snd (scan_char_value t)).
Proof.
  unfold scan_char_value. destruct (peek t) as [b|]; [|done].
  destruct (b =? SQUOTE); [done|]. destruct (is_newline b); [done|].
  destruct (b =? BACKSLASH); [|apply scan_utf8_codepoint_advances].
  assert (advances t (snd (scan_escape (snd (bump t))))) as Ha.
  { etrans; [apply bump_advances|apply scan_escape_advances]. }
  destruct (scan_escape _) as [[[v|]|] t']; done.
Qed.

(** ** Character boundaries *)

Section Boundary.
Context (s : list Z) (Hs : is_str s).

(** Somewhere in the source, and on a character boundary of it. *)
Definition inside (t : Tokenizer) : Prop :=
  source t = as_bytes s ∧ (pos t ≤ length (as_bytes s))%nat.
Definition safe (t : Tokenizer) : Prop :=
  source t = as_bytes s ∧ is_char_boundary (as_bytes s) (pos t) = true.

Lemma safe_inside t : safe t → inside t.
Proof.
  intros [H1 H2]. split; [done|]. unfold is_char_boundary in H2.
  case_match eqn:Hl; [apply lookup_lt_Some in Hl; lia|]. apply Nat.eqb_eq in H2. lia.
Qed.

Lemma inside_advances t t' : inside t → advances t t' → inside t'.
Proof.
  intros [H1 H2] (Hsrc&_&_&Hle). rewrite H1 in *. split; [done|]. by apply Hle.
Qed.

Lemma peek_ascii_safe t b : inside t → peek t = Some b → b < 128 → safe t.
Proof.
  intros [H1 _] Hb ?. split; [done|]. unfold peek in Hb. rewrite H1 in Hb.
  by eapply boundary_of_ascii.
Qed.

Lemma peek_none_safe t : inside t → peek t = None → safe t.
Proof.
  intros [H1 H2] Hb%lookup_ge_None. split; [done|]. rewrite H1 in Hb.
  replace (pos t) with (length (as_bytes s)) by lia. apply boundary_end.
Qed.

Lemma bump_ascii_safe t b : inside t → peek t = Some b → b < 128 → safe (snd (bump t)).
Proof.
  intros [H1 _] Hb ?. split; [by rewrite (proj1 (bump_advances t))|].
  rewrite (bump_pos t b Hb). unfold peek in Hb. rewrite H1 in Hb.
  by eapply boundary_after_ascii.
Qed.

Lemma ascii_run_safe t t' : safe t → ascii_run t t' → safe t'.
Proof.
  intros Ht [Ha Hr]. pose proof (inside_advances t t' (safe_inside t Ht) Ha) as [H1 Hin].
  destruct Ht as [H2 Hb], Ha as (Hsrc&_&Hle&_). split; [done|].
  destruct (decide (pos t' = pos t)) as [->|]; [done|].
  assert (∃ p, pos t' = S p) as [p Hp] by (exists (pos t' - 1)%nat; lia).
  destruct (as_bytes s !! p) as [b|] eqn:Hl; [|apply lookup_ge_None in Hl; lia].
  rewrite Hp. eapply boundary_after_ascii; [done..|].
  apply (Hr p); [lia|]. by rewrite H2.
Qed.

Lemma string_loop_spec st k inv t :
  k ≠ TEof → inside t →
  let r := string_loop st k inv t in
  token_ends st r ∧ advances t (snd r) ∧ safe (snd r).
Proof.
  intros Hk. revert inv. induction t as [t IH] using remaining_ind. intros inv Hin. cbn zeta.
  rewrite string_loop_unfold. destruct (peek t) as [b|] eqn:Hb.
  2:{ split_and!; [by apply emit_token_ends|done|by apply peek_none_safe]. }
  pose proof (bump_remaining t b Hb) as Hrem. pose proof (bump_advances t) as Hadv.
  destruct (b =? DQUOTE) eqn:?; bool_to_prop.
  { split_and!; [apply emit_token_ends; by case_match|done|].
    eapply bump_ascii_safe; [done..|lia]. }
  destruct (is_newline b) eqn:Hn.
  { split_and!; [by apply emit_token_ends|done|]. eapply peek_ascii_safe; [done..|].
    unfold is_newline in Hn. apply orb_true_iff in Hn. lia. }
  destruct (b =? BACKSLASH) eqn:?.
  - pose proof (scan_escape_advances (snd (bump t))) as Hesc.
    destruct (scan_escape _) as [esc t']. simpl in Hesc.
    assert (advances t t') as Htt' by (by etrans).
    pose proof (advances_remaining _ _ Hesc).
    match goal with |- context [string_loop st k ?i t'] =>
      destruct (IH t' ltac:(lia) i) as (?&?&?) end; [by eapply inside_advances|].
    split_and!; [done|by etrans|done].
  - destruct (IH (snd (bump t)) ltac:(lia) inv) as (?&?&?); [by eapply inside_advances|].
    split_and!; [done|by etrans|done].
Qed.

Lemma recover_spec t :
  inside t → advances t (recover_char_literal t) ∧ safe (recover_char_literal t).
Proof.
  induction t as [t IH] using remaining_ind. intros Hin. rewrite recover_unfold.
  destruct (peek t) as [b|] eqn:Hb; [|split; [done|by apply peek_none_safe]].
  pose proof (bump_remaining t b Hb) as Hrem. pose proof (bump_advances t) as Hadv.
  destruct (b =? SQUOTE) eqn:?; bool_to_prop.
  { split; [done|]. eapply bump_ascii_safe; [done..|lia]. }
  destruct (is_newline b) eqn:Hn.
  { split; [done|]. eapply peek_ascii_safe; [done..|].
    unfold is_newline in Hn. apply orb_true_iff in Hn. lia. }
  destruct (IH (snd (bump t)) ltac:(lia)) as (?&?); [by eapply inside_advances|].
  split; [by etrans|done].
Qed.

Lemma bump_None_inv t t' : bump t = (None, t') → t' = t ∧ peek t = None.
Proof. unfold bump, peek. case_match; naive_solver. Qed.

Lemma scan_escape_none t t' : scan_escape t = (None, t') → t' = t ∧ peek t = None.
Proof.
  unfold scan_escape. destruct (bump t) as [[b|] t1] eqn:Hb.
  - intros. repeat case_match; simplify_eq.
  - intros [= <-]. by apply bump_None_inv.
Qed.

Lemma continuation_bytes_unterminated n t t' :
  continuation_bytes n t = (Some CSUnterminated, t') → peek t' = None.
Proof.
  revert t. induction n as [|n IH]; intros t; simpl; [done|].
  destruct (bump t) as [[b|] t1] eqn:Hb.
  - case_match; [apply IH|done].
  - intros [= <-]. by apply bump_None_inv in Hb as [-> ?].
Qed.

Lemma scan_char_value_unterminated t t' :
  scan_char_value t = (CSUnterminated, t') → inside t → safe t'.
Proof.
  intros Hscan Hin. pose proof (scan_char_value_advances t) as Ha.
  rewrite Hscan in Ha. simpl in Ha. pose proof (inside_advances t t' Hin Ha) as Hin'.
  revert Hscan. unfold scan_char_value. destruct (peek t) as [b|] eqn:Hb.
  2:{ intros [= <-]. by apply peek_none_safe. }
  destruct (b =? SQUOTE); [done|]. destruct (is_newline b) eqn:Hn.
  { intros [= <-]. eapply peek_ascii_safe; [done..|].
    unfold is_newline in Hn. apply orb_true_iff in Hn. lia. }
  destruct (b =? BACKSLASH).
  - destruct (scan_escape _) as [[[v|]|] t1] eqn:He; try done. intros [= <-].
    apply scan_escape_none in He as [-> He]. by apply peek_none_safe.
  - unfold scan_utf8_codepoint. rewrite (bump_Some t b Hb). case_match; [done|].
    destruct (continuation_bytes _ _) as [[f|] t1] eqn:Hc.
    + intros [= -> ->]. apply continuation_bytes_unterminated in Hc. by apply peek_none_safe.
    + by repeat case_match.
Qed.

Lemma continuation_bytes_not_empty n t t' :
  continuation_bytes n t ≠ (Some CSEmpty, t').
Proof.
  revert t. induction n as [|n IH]; intros t; simpl; [done|].
  destruct (bump t) as [[b|] t1]; [|done]. case_match; [apply IH|done].
Qed.

Lemma scan_char_value_empty t t' :
  scan_char_value t = (CSEmpty, t') → t' = t ∧ peek t = Some SQUOTE.
Proof.
  unfold scan_char_value. destruct (peek t) as [b|] eqn:Hb; [|done].
  destruct (b =? SQUOTE) eqn:Hq; bool_to_prop; [naive_solver|].
  destruct (is_newline b); [done|]. destruct (b =? BACKSLASH).
  { by destruct (scan_escape _) as [[[v|]|] t1]. }
  unfold scan_utf8_codepoint. rewrite (bump_Some t b Hb). case_match; [done|].
  destruct (continuation_bytes _ _) as [[f|] t1] eqn:Hc.
  - intros [= -> ->]. by apply continuation_bytes_not_empty in Hc.
  - by repeat case_match.
Qed.

Lemma char_lit_spec st is_byte t :
  inside t →
  let r := char_lit st is_byte t in
  token_ends st r ∧ advances t (snd r) ∧ safe (snd r).
Proof.
  intros Hin. cbn zeta. unfold char_lit. pose proof (scan_char_value_advances t) as Ha.
  destruct (scan_char_value t) as [[v| | |] t1] eqn:Hscan; simpl in Ha;
    pose proof (inside_advances t t1 Hin Ha) as Hin1.
  - pose proof (bump_advances t1) as Ha1. destruct (bump t1) as [c t2] eqn:Hc.
    simpl in Ha1. assert (advances t t2) by (by etrans). case_bool_decide as Hq.
    + split_and!; [|done|].
      * apply emit_token_ends. unfold char_kind. by repeat case_match.
      * assert (t2 = snd (bump t1)) as -> by (by rewrite Hc).
        apply (bump_ascii_safe _ SQUOTE); [done| |lia].
        rewrite <-bump_fst, Hc. done.
    + destruct (recover_spec t2) as [??]; [by eapply inside_advances|].
      split_and!; [by apply emit_token_ends|by etrans|done].
  - apply scan_char_value_empty in Hscan as [-> Hq].
    split_and!; [by apply emit_token_ends|simpl; apply bump_advances|].
    eapply bump_ascii_safe; [done..|lia].
  - split_and!; [by apply emit_token_ends|done|].
    by eapply scan_char_value_unterminated.
  - destruct (recover_spec t1) as [??]; [done|].
    split_and!; [by apply emit_token_ends|by etrans|done].
Qed.

(** A leading byte at a boundary is followed by the rest of its scalar. *)
Lemma wide_byte_boundary p b :
  is_char_boundary (as_bytes s) p = true → as_bytes s !! p = Some b → 128 ≤ b →
  (0 < utf8_width b)%nat ∧ is_char_boundary (as_bytes s) (p + utf8_width b) = true.
Proof.
  intros Hp Hb ?. destruct (boundary_scalar s p b Hs Hp Hb) as (s1&c&s2&Heq&->&Hc&bs&He).
  pose proof (boundary_advance s1 c s2) as Hadv. rewrite <-Heq in Hadv.
  assert (utf8_width b = length (encode_utf8 c)) as ->.
  { destruct (encode_utf8_shape c Hc) as [(b'&He'&_&?)|(b'&bs'&He'&?&_&_&Hw)];
      rewrite He in *; simplify_eq; [lia|]. unfold utf8_width. simpl.
    destruct Hw as [[? ->]|[[? ->]|[? ->]]];
      repeat case_match; bool_to_prop; rewrite ?andb_false_iff, ?Z.leb_gt in *; lia. }
  split; [rewrite He; simpl; lia|by apply Hadv].
Qed.

(** What [scan_token] does from a boundary: EOF at the end of the source, and
    otherwise a non-empty token that ends on a boundary. *)
Definition scanned (t : Tokenizer) (r : Token * Tokenizer) : Prop :=
  token_ends (pos t) r ∧ advances t (snd r) ∧ (pos t < pos (snd r))%nat ∧ safe (snd r).

Lemma scanned_after_bump t b st r :
  safe t → peek t = Some b → st = pos t →
  token_ends st r ∧ advances (snd (bump t)) (snd r) ∧ safe (snd r) → scanned t r.
Proof.
  intros Ht Hb -> (?&Ha&?). split_and!; [done| | |done].
  - etrans; [apply bump_advances|done].
  - destruct Ha as (_&_&Ha&_). rewrite (bump_pos t b Hb) in Ha. lia.
Qed.

Lemma scanned_ascii t b st r :
  safe t → peek t = Some b → b < 128 → st = pos t →
  token_ends st r ∧ ascii_run (snd (bump t)) (snd r) → scanned t r.
Proof.
  intros Ht Hb Hlt Hst [? Ha]. eapply scanned_after_bump; [done..|].
  split_and!; [done|by apply ascii_run_advances|].
  eapply ascii_run_safe; [|exact Ha]. eapply bump_ascii_safe; [|done..].
  by apply safe_inside.
Qed.

Lemma eat_emit_spec st byte k1 k2 t :
  byte < 128 → k1 ≠ TEof → k2 ≠ TEof →
  token_ends st (let '(ate, t') := eat byte t in emit (if ate then k1 else k2) st t') ∧
  ascii_run t (snd (let '(ate, t') := eat byte t in emit (if ate then k1 else k2) st t')).
Proof.
  intros Hb ??. pose proof (eat_ascii_run byte t Hb) as Heat.
  destruct (eat byte t) as [a t']. split; [apply emit_token_ends; by case_match|done].
Qed.

Lemma emit_spec st k t :
  k ≠ TEof → token_ends st (emit k st t) ∧ ascii_run t (snd (emit k st t)).
Proof. intros. split; [by apply emit_token_ends|done]. Qed.

Lemma eat_then_spec st byte k t (f : Tokenizer → Token * Tokenizer) :
  byte < 128 → k ≠ TEof → (∀ t, token_ends st (f t) ∧ ascii_run t (snd (f t))) →
  token_ends st (let '(ate, t') := eat byte t in if ate then emit k st t' else f t') ∧
  ascii_run t (snd (let '(ate, t') := eat byte t in if ate then emit k st t' else f t')).
Proof.
  intros Hb ? Hf. pose proof (eat_ascii_run byte t Hb) as Heat.
  destruct (eat byte t) as [[] t']; simpl in Heat; [by split; [apply emit_token_ends|]|].
  destruct (Hf t') as [??]. split; [done|by etrans].
Qed.

Lemma eat_branch_spec st byte t (f g : Tokenizer → Token * Tokenizer) :
  byte < 128 → (∀ t, token_ends st (f t) ∧ ascii_run t (snd (f t))) →
  (∀ t, token_ends st (g t) ∧ ascii_run t (snd (g t))) →
  token_ends st (let '(ate, t') := eat byte t in if ate then f t' else g t') ∧
  ascii_run t (snd (let '(ate, t') := eat byte t in if ate then f t' else g t')).
Proof.
  intros Hb Hf Hg. pose proof (eat_ascii_run byte t Hb) as Heat.
  destruct (eat byte t) as [[] t']; simpl in Heat.
  - destruct (Hf t') as [??]. split; [done|by etrans].
  - destruct (Hg t') as [??]. split; [done|by etrans].
Qed.

Lemma string_lit_scanned t b k t1 :
  k ≠ TEof → safe t → peek t = Some b → advances (snd (bump t)) t1 →
  scanned t (string_lit (pos t) k t1).
Proof.
  intros Hk Ht Hb Ha. assert (advances t t1) by (etrans; [apply bump_advances|done]).
  destruct (string_loop_spec (pos t) k false t1 Hk) as (?&?&?).
  { eapply inside_advances; [by apply safe_inside|done]. }
  eapply scanned_after_bump; [done..|]. split_and!; [done|by etrans|done].
Qed.

Lemma char_lit_scanned t b is_byte t1 :
  safe t → peek t = Some b → advances (snd (bump t)) t1 →
  scanned t (char_lit (pos t) is_byte t1).
Proof.
  intros Ht Hb Ha. assert (advances t t1) by (etrans; [apply bump_advances|done]).
  destruct (char_lit_spec (pos t) is_byte t1) as (?&?&?).
  { eapply inside_advances; [by apply safe_inside|done]. }
  eapply scanned_after_bump; [done..|]. split_and!; [done|by etrans|done].
Qed.

Lemma unexpected_scanned t b :
  safe t → peek t = Some b →
  scanned t (emit (TError (UnexpectedByte b)) (pos t)
    (if b <? 128 then snd (bump t) else set_pos (pos t + utf8_width b) (snd (bump t)))).
Proof.
  intros Ht Hb. destruct (b <? 128) eqn:Hlt; bool_to_prop.
  { eapply scanned_ascii; [done..|]. by apply emit_spec. }
  pose proof (safe_inside t Ht) as Hin. destruct Ht as [Hsrc Hbd].
  destruct (wide_byte_boundary (pos t) b) as [Hw Hbw]; [done| |done|].
  { unfold peek in Hb. by rewrite <-Hsrc. }
  destruct (bump_advances t) as (Hs1&Hp1&_).
  assert (safe (set_pos (pos t + utf8_width b) (snd (bump t)))) as Hsafe.
  { split; simpl; [congruence|done]. }
  split_and!; [by apply emit_token_ends| |simpl; lia|done].
  apply safe_inside in Hsafe as [_ Hle]. simpl in Hle.
  split_and!; simpl; [done|done|lia|]. rewrite Hsrc. done.
Qed.

Lemma is_ascii_digit_ascii b : is_ascii_digit b = true → b < 128.
Proof. unfold is_ascii_digit. rewrite andb_true_iff. lia. Qed.

Lemma is_ascii_alphabetic_ascii b : is_ascii_alphabetic b = true → b < 128.
Proof. unfold is_ascii_alphabetic. rewrite orb_true_iff, !andb_true_iff. lia. Qed.

(** One ASCII-headed branch of [scan_token]. *)
Ltac scan_branch :=
  eapply scanned_ascii; [done|done| |done|];
  [first [lia | by apply is_ascii_digit_ascii | by apply is_ascii_alphabetic_ascii]|];
  repeat first
    [ apply emit_spec; by (repeat case_match)
    | apply maybe_eq_spec; done
    | apply eat_emit_spec; [lia|done|done]
    | apply eat_then_spec; [lia|done|intros]
    | apply eat_branch_spec; [lia|intros|intros]
    | apply ident_or_keyword_spec
    | apply number_spec ].

Ltac next_branch b :=
  match goal with |- scanned _ (if b =? ?x then _ else _) =>
    destruct (b =? x) eqn:?; [bool_to_prop; scan_branch|] end.

Lemma scan_token_scanned t b : safe t → peek t = Some b → scanned t (scan_token t).
Proof.
  intros Ht Hb. unfold scan_token. pose proof (bump_Some t b Hb) as Hbump.
  assert (set_pos (S (pos t)) t = snd (bump t)) as Ht1 by (by rewrite Hbump).
  rewrite Hbump, Ht1. clear Hbump Ht1.
  destruct (_ && peek_is DQUOTE _).
  { eapply string_lit_scanned; [done..|apply bump_advances]. }
  destruct (_ && peek_is SQUOTE _).
  { eapply char_lit_scanned; [done..|apply bump_advances]. }
  destruct (is_ascii_alphabetic b) eqn:?; [scan_branch|].
  destruct (b =? "_"%B) eqn:?; [bool_to_prop; case_match; scan_branch|].
  destruct (is_ascii_digit b) eqn:?; [scan_branch|].
  destruct (b =? DQUOTE) eqn:?; [by eapply string_lit_scanned|].
  destruct (b =? BACKSLASH) eqn:?; [bool_to_prop; scan_branch|].
  destruct (b =? SQUOTE) eqn:?; [by eapply char_lit_scanned|].
  do 7 next_branch b.
  destruct (b =? "."%B) eqn:?.
  { bool_to_prop. destruct (peek_is _ _ && peek_next_is _ _) eqn:Hdots; [|scan_branch].
    eapply scanned_ascii; [done|done|lia|done|]. split; [by apply emit_token_ends|].
    apply andb_true_iff in Hdots as [H1 H2]. etrans; [eapply bump_is_ascii_run; [|done]; lia|].
    apply peek_is_true in H1. simpl. eapply (bump_is_ascii_run "."%B); [lia|].
    apply peek_is_true. unfold peek. rewrite (bump_pos _ _ H1), (proj1 (bump_advances _)).
    unfold peek_next_is, peek_next in H2. case_match; [|done].
    apply Z.eqb_eq in H2. by subst. }
  repeat next_branch b. by apply unexpected_scanned.
Qed.

Lemma scan_token_eof t : peek t = None → scan_token t = (token TEof (pos t) (pos t), t).
Proof. intros H. unfold scan_token. by rewrite (bump_None t H). Qed.
End Boundary.
