(* ===== verification/LexerProps.v ===== *)
(** * nia-lexer: the properties of the token streams

    Losslessness, character boundaries, and agreement of the two streams. *)

From S2P Require Import Prelude RustStd Lexer LexerFacts.

(** ** Tilings *)

(** The tokens lie end to end from offset [p], are not empty, and the stream
    ends with one EOF token at the end of the source. *)
Inductive tiles (bs : list Z) : nat → list LosslessToken → Prop :=
  | tiles_eof : tiles bs (length bs) [lossless_token (LToken TEof) (length bs) (length bs)]
  | tiles_cons p q k toks :
      (p < q)%nat → k ≠ LToken TEof → tiles bs q toks →
      tiles bs p (lossless_token k p q :: toks).

(** The significant tokens of a lossless stream. *)
Definition significant (tok : LosslessToken) : option Token :=
  match lkind tok with
  | LToken k => Some (mkToken k (lspan tok))
  | _ => None
  end.

Definition significant_tokens (toks : list LosslessToken) : list Token := omap significant toks.

Lemma significant_trivia tok o :
  significant tok = None →
  significant_tokens <$> (cons tok <$> o) = significant_tokens <$> (o : option _).
Proof. intros H. destruct o; simpl; [|done]. f_equal. unfold significant_tokens. simpl. by rewrite H. Qed.

Section Streams.
Context (s : list Z) (Hs : is_str s).

Notation safe := (safe s).
Notation inside := (inside s).

(** One step of the lossless stream from a boundary. *)
Definition lossless_step (t : Tokenizer) (r : LosslessToken * Tokenizer) : Prop :=
  lspan (fst r) = mkSpan (pos t) (pos (snd r)) ∧ lkind (fst r) ≠ LToken TEof ∧
  (pos t < pos (snd r))%nat ∧ safe (snd r).

Lemma bump_while_lt p t b : peek t = Some b → p b = true → (pos t < pos (bump_while p t))%nat.
Proof.
  intros Hb Hp. rewrite bump_while_unfold. unfold peek_sat. rewrite Hb, Hp.
  destruct (bump_while_advances p (snd (bump t))) as (_&_&Hle&_).
  rewrite (bump_pos t b Hb) in Hle. lia.
Qed.

Lemma consume_whitespace_safe t : safe t → safe (consume_whitespace t).
Proof.
  intros Ht. eapply ascii_run_safe; [done|done|].
  apply bump_while_ascii_run, is_ascii_whitespace_ascii.
Qed.

Lemma consume_line_comment_safe t : safe t → safe (consume_line_comment t).
Proof.
  intros Ht. destruct (bump_while_spec (λ b, negb (b =? LF)) t) as (Ha&Hend&_).
  fold (consume_line_comment t) in *.
  pose proof (inside_advances s _ _ (safe_inside s t Ht) Ha) as Hin.
  unfold peek_sat in Hend. case_match eqn:Hb.
  - bool_to_prop. eapply peek_ascii_safe; [done..|lia].
  - by apply peek_none_safe.
Qed.

Lemma next_lossless_token_step t b :
  safe t → peek t = Some b → lossless_step t (next_lossless_token t).
Proof.
  intros Ht Hb. unfold next_lossless_token. rewrite Hb.
  destruct (is_ascii_whitespace b) eqn:Hw.
  { split_and!; [done|done|by eapply bump_while_lt|by apply consume_whitespace_safe]. }
  destruct (_ && _) eqn:Hc.
  { apply andb_true_iff in Hc as [Hc%Z.eqb_eq _].
    split_and!; [done|done| |by apply consume_line_comment_safe].
    eapply bump_while_lt; [done|]. by subst b. }
  unfold next_token. destruct (scan_token_scanned s Hs t b Ht Hb) as ([Hsp Hk]&Ha&Hlt&Hsafe).
  destruct (scan_token t) as [tok t']. simpl in *.
  split_and!; simpl; [done|congruence|done|done].
Qed.

Lemma next_lossless_token_eof t :
  peek t = None → next_lossless_token t = (lossless_token (LToken TEof) (pos t) (pos t), t).
Proof. intros H. unfold next_lossless_token. by rewrite H. Qed.

Lemma lossless_step_remaining t r :
  safe t → lossless_step t r → (remaining (snd r) < remaining t)%nat.
Proof.
  intros Ht (_&_&Hlt&Ht'). pose proof (safe_inside s _ Ht') as [Hsrc' Hle].
  destruct Ht as [Hsrc _]. unfold remaining. rewrite Hsrc, Hsrc'. lia.
Qed.

(** The lossless stream from a boundary exists, tiles the rest of the source,
    and its spans lie on boundaries. *)
Lemma lossless_stream t fuel :
  safe t → (remaining t < fuel)%nat →
  ∃ toks, tokenize_lossless_fuel fuel t = Some toks ∧ tiles (as_bytes s) (pos t) toks ∧
    Forall (λ tok, is_char_boundary (as_bytes s) (start (lspan tok)) = true ∧
                   is_char_boundary (as_bytes s) (end_ (lspan tok)) = true) toks.
Proof.
  revert fuel. induction t as [t IH] using remaining_ind. intros [|fuel] Ht Hfuel; [lia|].
  cbn [tokenize_lossless_fuel]. destruct (peek t) as [b|] eqn:Hb.
  - pose proof (next_lossless_token_step t b Ht Hb) as Hstep.
    pose proof (lossless_step_remaining t _ Ht Hstep) as Hrem.
    destruct (next_lossless_token t) as [tok t']. destruct Hstep as (Hspan&Hk&Hlt&Ht').
    simpl in *. destruct (IH t' Hrem fuel Ht' ltac:(lia)) as (toks&->&Htile&Hall).
    exists (tok :: toks). split; [by repeat case_match|].
    destruct tok as [k sp]. simpl in *. subst sp. split.
    + by apply tiles_cons.
    + constructor; [|done]. destruct Ht, Ht'. done.
  - rewrite (next_lossless_token_eof t Hb). simpl. eexists. split; [done|].
    pose proof (peek_none_safe s t (safe_inside s t Ht) Hb) as [_ Hbd].
    apply lookup_ge_None in Hb. pose proof (safe_inside s t Ht) as [Hsrc Hle].
    rewrite Hsrc in Hb. replace (pos t) with (length (as_bytes s)) in * by lia.
    split; [constructor|]. by repeat constructor.
Qed.

Lemma skip_trivia_none t :
  (∀ b, peek t = Some b → is_ascii_whitespace b = false ∧ (b =? "/"%B) && peek_next_is "/"%B t = false) →
  skip_trivia t = t.
Proof.
  intros H. rewrite skip_trivia_unfold. unfold peek_sat, peek_is.
  destruct (peek t) as [b|]; [|done]. destruct (H b eq_refl) as [-> ->]. done.
Qed.

(** The significant stream skips the trivia of the lossless one. *)
Lemma streams_agree t f1 f2 :
  safe t → (remaining t < f1)%nat → (remaining t < f2)%nat →
  tokenize_fuel f1 t = significant_tokens <$> tokenize_lossless_fuel f2 t.
Proof.
  revert f1 f2. induction t as [t IH] using remaining_ind. intros [|f1] [|f2] Ht Hf1 Hf2; [lia..|].
  cbn [tokenize_lossless_fuel]. destruct (peek t) as [b|] eqn:Hb.
  2:{ rewrite (next_lossless_token_eof t Hb). cbn [tokenize_fuel].
      rewrite skip_trivia_none by (intros; congruence).
      unfold next_token. by rewrite (scan_token_eof t Hb). }
  pose proof (next_lossless_token_step t b Ht Hb) as Hstep.
  pose proof (lossless_step_remaining t _ Ht Hstep) as Hrem.
  destruct Hstep as (_&Hk&_&Ht'). revert Hrem Hk Ht'.
  unfold next_lossless_token. rewrite Hb. destruct (is_ascii_whitespace b) eqn:Hw.
  { cbn [fst snd]. intros Hrem _ Ht'. simpl lkind. cbn iota. rewrite significant_trivia by done.
    rewrite <-(IH _ Hrem (S f1)) by (done || lia). cbn [tokenize_fuel].
    rewrite (skip_trivia_unfold t). unfold peek_sat. by rewrite Hb, Hw. }
  destruct ((b =? _) && _) eqn:Hc.
  { cbn [fst snd]. intros Hrem _ Ht'. simpl lkind. cbn iota. rewrite significant_trivia by done.
    rewrite <-(IH _ Hrem (S f1)) by (done || lia). cbn [tokenize_fuel].
    rewrite (skip_trivia_unfold t). unfold peek_sat, peek_is. by rewrite Hb, Hw, Hc. }
  cbn [tokenize_fuel]. rewrite skip_trivia_none.
  2:{ intros b' Hb'. rewrite Hb in Hb'. by injection Hb' as <-. }
  destruct (next_token t) as [tok t']. cbn [fst snd lkind]. intros Hrem Hk Ht'.
  rewrite (IH t' Hrem f1 f2) by (done || lia).
  destruct (is_eof (kind tok)) eqn:He; [destruct (kind tok); simplify_eq|].
  assert (∀ o, significant_tokens <$> (cons (mkLosslessToken (LToken (kind tok)) (span tok)) <$> o)
    = cons tok <$> (significant_tokens <$> (o : option _))) as Hcons.
  { intros [o|]; [|done]. destruct tok. done. }
  rewrite <-Hcons. by destruct (kind tok).
Qed.
End Streams.

Lemma new_safe s : is_str s → safe s (new s).
Proof. intros Hs. split; [done|]. by apply (boundary_intro [] s). Qed.

Lemma new_remaining s : remaining (new s) = length (as_bytes s).
Proof. unfold remaining, new. simpl. lia. Qed.

(** ** Properties of the token streams *)

(** C3: tokenization of any string terminates, and its lossless tokens tile the
    source: they start at offset 0, each non-empty token starts where the one
    before ends, and the stream ends with a single EOF token at the end. *)
Theorem tokenize_lossless_tiles (text : list Z) (Htext : is_str text) :
  ∃ toks, tokenize_lossless text = Some toks ∧ tiles (as_bytes text) 0 toks.
Proof.
  destruct (lossless_stream text Htext (new text) (S (length (as_bytes text))))
    as (toks&?&?&_); [by apply new_safe|rewrite new_remaining; lia|].
  by exists toks.
Qed.

Definition sample_source : list Z :=
  bytes_of_string "pub fun f(x: i32) i32 { x <<= 0x1F; // tail" ++ [LF; 20013; SQUOTE; 233; SQUOTE].

Lemma tokenize_lossless_tiles_witness :
  ∃ toks, tokenize_lossless sample_source = Some toks ∧ tiles (as_bytes sample_source) 0 toks.
Proof. apply tokenize_lossless_tiles, is_str_b_spec. reflexivity. Defined.

(** Every span of the lossless stream starts and ends on a UTF-8 character
    boundary, also the spans of lexical errors and of unsupported characters. *)
Theorem tokenize_lossless_char_boundaries (text : list Z) (Htext : is_str text) :
  ∃ toks, tokenize_lossless text = Some toks ∧
    Forall (λ tok, is_char_boundary (as_bytes text) (start (lspan tok)) = true ∧
                   is_char_boundary (as_bytes text) (end_ (lspan tok)) = true) toks.
Proof.
  destruct (lossless_stream text Htext (new text) (S (length (as_bytes text))))
    as (toks&?&_&?); [by apply new_safe|rewrite new_remaining; lia|].
  by exists toks.
Qed.

Lemma tokenize_lossless_char_boundaries_witness :
  ∃ toks, tokenize_lossless sample_source = Some toks ∧
    Forall (λ tok, is_char_boundary (as_bytes sample_source) (start (lspan tok)) = true ∧
                   is_char_boundary (as_bytes sample_source) (end_ (lspan tok)) = true) toks.
Proof. apply tokenize_lossless_char_boundaries, is_str_b_spec. reflexivity. Defined.

(** C4: The parser's token stream is the lossless stream without its trivia:
    [tokenize] and [tokenize_lossless] agree on every significant token, its
    kind and its span, although one skips trivia in a loop and the other emits it. *)
Theorem tokenize_is_significant_lossless (text : list Z) (Htext : is_str text) :
  tokenize text = significant_tokens <$> tokenize_lossless text.
Proof.
  apply (streams_agree text Htext); [by apply new_safe|rewrite new_remaining; lia..].
Qed.

Lemma tokenize_is_significant_lossless_witness :
  tokenize sample_source = significant_tokens <$> tokenize_lossless sample_source.
Proof. apply tokenize_is_significant_lossless, is_str_b_spec. reflexivity. Defined.
