(* ===== verification/LexerSpelling.v ===== *)
(** * nia-lexer: keywords, operators and delimiters have their documented spelling

    [spelling] is the table of the doc comments of [TokenKind] in
    [crates/nia-lexer/src/token.rs]; every token of a stream whose kind has a
    fixed spelling covers exactly that text. *)

From S2P Require Import Prelude RustStd Lexer LexerFacts LexerProps.

(** The documented spelling of a token kind. *)
Definition spelling (k : TokenKind) : option (list Z) :=
  match k with
  | TAnd => Some (bytes_of_string "and")
  | TAs => Some (bytes_of_string "as")
  | TBool => Some (bytes_of_string "bool")
  | TBreak => Some (bytes_of_string "break")
  | TConst => Some (bytes_of_string "const")
  | TContinue => Some (bytes_of_string "continue")
  | TDefer => Some (bytes_of_string "defer")
  | TElse => Some (bytes_of_string "else")
  | TEnum => Some (bytes_of_string "enum")
  | TExtern => Some (bytes_of_string "extern")
  | TExtend => Some (bytes_of_string "extend")
  | TFalse => Some (bytes_of_string "false")
  | TFun => Some (bytes_of_string "fun")
  | TFor => Some (bytes_of_string "for")
  | TIf => Some (bytes_of_string "if")
  | TIn => Some (bytes_of_string "in")
  | TIs => Some (bytes_of_string "is")
  | TLet => Some (bytes_of_string "let")
  | TLoop => Some (bytes_of_string "loop")
  | TModule => Some (bytes_of_string "module")
  | TMut => Some (bytes_of_string "mut")
  | TNever => Some (bytes_of_string "never")
  | TNot => Some (bytes_of_string "not")
  | TNull => Some (bytes_of_string "null")
  | TOpaque => Some (bytes_of_string "opaque")
  | TOr => Some (bytes_of_string "or")
  | TPub => Some (bytes_of_string "pub")
  | TRoot => Some (bytes_of_string "root")
  | TReturn => Some (bytes_of_string "return")
  | TSelfValue => Some (bytes_of_string "self")
  | TStruct => Some (bytes_of_string "struct")
  | TSelfType => Some (bytes_of_string "Self")
  | TStatic => Some (bytes_of_string "static")
  | TSuper => Some (bytes_of_string "super")
  | TMatch => Some (bytes_of_string "match")
  | TTrue => Some (bytes_of_string "true")
  | TTrait => Some (bytes_of_string "trait")
  | TType => Some (bytes_of_string "type")
  | TUnion => Some (bytes_of_string "union")
  | TUsing => Some (bytes_of_string "using")
  | TVar => Some (bytes_of_string "var")
  | TWhere => Some (bytes_of_string "where")
  | TWhile => Some (bytes_of_string "while")
  | TLParen => Some (bytes_of_string "(")
  | TRParen => Some (bytes_of_string ")")
  | TLBrace => Some (bytes_of_string "{")
  | TRBrace => Some (bytes_of_string "}")
  | TLBracket => Some (bytes_of_string "[")
  | TRBracket => Some (bytes_of_string "]")
  | TComma => Some (bytes_of_string ",")
  | TDot => Some (bytes_of_string ".")
  | TDotDot => Some (bytes_of_string "..")
  | TDotDotEq => Some (bytes_of_string "..=")
  | TEllipsis => Some (bytes_of_string "...")
  | TColon => Some (bytes_of_string ":")
  | TColonColon => Some (bytes_of_string "::")
  | TSemicolon => Some (bytes_of_string ";")
  | TAt => Some (bytes_of_string "@")
  | TBackslash => Some [BACKSLASH]
  | TQuestion => Some (bytes_of_string "?")
  | TUnderscore => Some (bytes_of_string "_")
  | TPlus => Some (bytes_of_string "+")
  | TMinus => Some (bytes_of_string "-")
  | TStar => Some (bytes_of_string "*")
  | TSlash => Some (bytes_of_string "/")
  | TPercent => Some (bytes_of_string "%")
  | TAmp => Some (bytes_of_string "&")
  | TPipe => Some (bytes_of_string "|")
  | TCaret => Some (bytes_of_string "^")
  | TTilde => Some (bytes_of_string "~")
  | TBang => Some (bytes_of_string "!")
  | TEq => Some (bytes_of_string "=")
  | TLt => Some (bytes_of_string "<")
  | TGt => Some (bytes_of_string ">")
  | TLtLt => Some (bytes_of_string "<<")
  | TGtGt => Some (bytes_of_string ">>")
  | TPlusEq => Some (bytes_of_string "+=")
  | TMinusEq => Some (bytes_of_string "-=")
  | TStarEq => Some (bytes_of_string "*=")
  | TSlashEq => Some (bytes_of_string "/=")
  | TPercentEq => Some (bytes_of_string "%=")
  | TAmpEq => Some (bytes_of_string "&=")
  | TPipeEq => Some (bytes_of_string "|=")
  | TCaretEq => Some (bytes_of_string "^=")
  | TEqEq => Some (bytes_of_string "==")
  | TBangEq => Some (bytes_of_string "!=")
  | TLtEq => Some (bytes_of_string "<=")
  | TGtEq => Some (bytes_of_string ">=")
  | TLtLtEq => Some (bytes_of_string "<<=")
  | TGtGtEq => Some (bytes_of_string ">>=")
  | TFatArrow => Some (bytes_of_string "=>")
  | TThinArrow => Some (bytes_of_string "->")
  | _ => None
  end.

(** ** The text between two states *)

(** [t'] is reached from [t] by consuming exactly the bytes [l]. *)
Definition consumed (t t' : Tokenizer) (l : list Z) : Prop :=
  source t' = source t ∧ pos t' = (pos t + length l)%nat ∧
  slice (source t) (pos t) (pos t') = l.

Lemma consumed_nil t : consumed t t [].
Proof. split_and!; [done|simpl; lia|apply slice_nil]. Qed.

Lemma consumed_trans t1 t2 t3 l1 l2 :
  consumed t1 t2 l1 → consumed t2 t3 l2 → consumed t1 t3 (l1 ++ l2).
Proof.
  intros (Hs&Hp&Hl) (Hs'&Hp'&Hl'). split_and!; [congruence|rewrite length_app; lia|].
  rewrite <-(slice_app _ _ (pos t2)) by lia. rewrite Hl. f_equal. by rewrite <-Hs.
Qed.

Lemma consumed_bump t b : peek t = Some b → consumed t (snd (bump t)) [b].
Proof.
  intros Hb. pose proof (bump_pos t b Hb) as Hp.
  split_and!; [apply bump_advances|simpl; lia|].
  rewrite Hp, (slice_cons _ _ _ b Hb) by lia. by rewrite slice_nil.
Qed.

Lemma consumed_eat byte t : consumed t (snd (eat byte t)) (if fst (eat byte t) then [byte] else []).
Proof.
  unfold eat. destruct (peek_is byte t) eqn:H; [|apply consumed_nil].
  apply peek_is_true in H. by apply consumed_bump.
Qed.

(** A scanner result that has its documented text, [l] being consumed before. *)
Definition spelled (l : list Z) (t : Tokenizer) (r : Token * Tokenizer) : Prop :=
  ∀ txt, spelling (kind (fst r)) = Some txt →
  ∃ l', consumed t (snd r) l' ∧ l ++ l' = txt.

Lemma spelled_emit l k st t : (∀ txt, spelling k = Some txt → l = txt) → spelled l t (emit k st t).
Proof.
  intros H txt Htxt. exists []. split; [apply consumed_nil|]. rewrite app_nil_r. by apply H.
Qed.

Lemma spelled_none l t r : spelling (kind (fst r)) = None → spelled l t r.
Proof. intros H txt Htxt. congruence. Qed.

Lemma spelled_step l l' t t' r : consumed t t' l' → spelled (l ++ l') t' r → spelled l t r.
Proof.
  intros Hc Hr txt Htxt. destruct (Hr txt Htxt) as (l''&Hc'&<-).
  exists (l' ++ l''). split; [by eapply consumed_trans|]. by rewrite app_assoc.
Qed.

Lemma spelled_eat l byte t (f g : Tokenizer → Token * Tokenizer) :
  (∀ t, spelled (l ++ [byte]) t (f t)) → (∀ t, spelled l t (g t)) →
  spelled l t (let '(ate, t') := eat byte t in if ate then f t' else g t').
Proof.
  intros Hf Hg. pose proof (consumed_eat byte t) as Hc.
  destruct (eat byte t) as [[] t']; simpl in Hc; eapply spelled_step; eauto.
  by rewrite app_nil_r.
Qed.

Lemma spelled_eat_emit l byte k1 k2 st t :
  (∀ t, spelled (l ++ [byte]) t (emit k1 st t)) → (∀ t, spelled l t (emit k2 st t)) →
  spelled l t (let '(ate, t') := eat byte t in emit (if ate then k1 else k2) st t').
Proof.
  intros H1 H2. pose proof (spelled_eat l byte t (emit k1 st) (emit k2 st) H1 H2) as H.
  by destruct (eat byte t) as [[] t'].
Qed.

(** ** Identifiers *)

Lemma keyword_spelling text txt : spelling (keyword_kind text) = Some txt → text = txt.
Proof.
  unfold keyword_kind. destruct (list_find _ _) as [[i [kw k]]|] eqn:Hf; [|done].
  apply list_find_Some in Hf as (Hk&<-&_). simpl.
  assert (Forall (λ kw, spelling kw.2 = Some (bytes_of_string kw.1)) keyword_table) as Hall.
  { repeat constructor. }
  rewrite Forall_lookup in Hall. specialize (Hall _ _ Hk). simpl in Hall. congruence.
Qed.

Lemma spelling_ascii k txt : spelling k = Some txt → as_bytes txt = txt.
Proof.
  intros H. apply ascii_only_spec. destruct k; simpl in H; simplify_eq; reflexivity.
Qed.

Lemma spelling_not_nil k : spelling k ≠ Some [].
Proof. by destruct k. Qed.

(** An identifier or keyword token starting at [pos t - 1]. *)
Lemma ident_spelled t0 b :
  peek t0 = Some b → spelled [b] (snd (bump t0)) (ident_or_keyword (pos t0) (snd (bump t0))).
Proof.
  intros Hb txt. unfold ident_or_keyword. cbn [fst snd emit token kind].
  set (t1 := snd (bump t0)). set (t2 := bump_while is_ident_continue t1).
  destruct (bump_while_advances is_ident_continue t1) as (Hs2&_&Hle2&_). fold t2 in Hs2, Hle2.
  destruct (consumed_bump t0 b Hb) as (Hs1&Hp1&_). fold t1 in Hs1, Hp1. simpl in Hp1.
  intros Htxt. pose proof (spelling_ascii _ _ Htxt) as Hasc.
  pose proof (keyword_spelling _ _ Htxt) as Htext.
  destruct (utf8_decode _) as [s|] eqn:Hd; simpl in Htext.
  2:{ subst txt. by apply spelling_not_nil in Htxt. }
  subst s. apply utf8_decode_sound in Hd as [_ Hd]. rewrite Hasc in Hd.
  rewrite Hs2, Hs1 in Hd.
  assert (pos t1 ≤ pos t2)%nat by done.
  exists (slice (source t1) (pos t1) (pos t2)). split.
  - split_and!; [done| |done].
    assert (length txt = (length [b] + length (slice (source t1) (pos t1) (pos t2)))%nat) as Hlen.
    { rewrite Hd. rewrite Hs1. rewrite (slice_cons _ _ _ b Hb) by lia. simpl.
      by replace (pos t1) with (S (pos t0)) by lia. }
    assert (length (slice (source t0) (pos t0) (pos t2)) = (pos t2 - pos t0)%nat) as Hl2.
    { apply slice_length. destruct (bump_while_advances is_ident_continue t1) as (_&_&_&Hb2).
      rewrite Hs1 in Hb2. apply Hb2. apply peek_lt in Hb. lia. }
    rewrite Hd, Hl2 in Hlen. simpl in Hlen. lia.
  - rewrite Hd, Hs1, (slice_cons _ _ _ b Hb) by lia. simpl.
    by replace (pos t1) with (S (pos t0)) by lia.
Qed.

(** ** One token *)

Lemma maybe_eq_spelled l p e st t :
  (∀ t, spelled (l ++ ["="%B]) t (emit e st t)) → (∀ t, spelled l t (emit p st t)) →
  spelled l t (maybe_eq st p e t).
Proof. apply spelled_eat_emit. Qed.

(** Kinds without a fixed spelling: literals, errors and EOF. *)
Lemma number_no_spelling st t : spelling (kind (fst (number st t))) = None.
Proof.
  unfold number, radix_number. repeat case_match; simplify_eq/=; repeat case_match; done.
Qed.

Lemma string_no_spelling k : spelling k = None → ∀ fuel st inv t,
  spelling (kind (fst (string_fuel fuel st k inv t))) = None.
Proof.
  intros Hk fuel. induction fuel as [|fuel IH]; intros st inv t; [done|]. cbn [string_fuel].
  destruct (peek t) as [b|]; [|done]. destruct (b =? DQUOTE); [by destruct inv|].
  destruct (is_newline b); [done|]. destruct (b =? BACKSLASH); [|apply IH].
  destruct (scan_escape _) as [esc t']. apply IH.
Qed.

Lemma char_no_spelling st is_byte t : spelling (kind (fst (char_lit st is_byte t))) = None.
Proof.
  unfold char_lit. destruct (scan_char_value t) as [[v| | |] t1]; try done.
  destruct (bump t1) as [c t2]. case_bool_decide; [|done].
  simpl. unfold char_kind. by repeat case_match.
Qed.

Ltac spell_branch :=
  repeat first
    [ apply spelled_emit; intros ? [= <-]; reflexivity
    | apply maybe_eq_spelled; intros
    | apply spelled_eat_emit; intros
    | apply spelled_eat; intros
    | apply spelled_none; first [apply number_no_spelling | apply char_no_spelling
        | apply string_no_spelling; reflexivity | reflexivity] ].

Lemma scan_token_spelled t b : peek t = Some b → spelled [b] (snd (bump t)) (scan_token t).
Proof.
  intros Hb. unfold scan_token. pose proof (bump_Some t b Hb) as Hbump.
  assert (set_pos (S (pos t)) t = snd (bump t)) as Ht1 by (by rewrite Hbump).
  rewrite Hbump, Ht1. clear Hbump Ht1.
  destruct (_ && peek_is DQUOTE _); [spell_branch|].
  destruct (_ && peek_is SQUOTE _); [spell_branch|].
  destruct (is_ascii_alphabetic b); [by apply ident_spelled|].
  destruct (b =? "_"%B) eqn:?; bool_to_prop.
  { subst b. case_match; [by apply ident_spelled|spell_branch]. }
  destruct (is_ascii_digit b); [spell_branch|].
  destruct (b =? DQUOTE); [spell_branch|].
  destruct (b =? BACKSLASH) eqn:?; [bool_to_prop; subst b; spell_branch|].
  destruct (b =? SQUOTE); [spell_branch|].
  repeat match goal with |- spelled _ _ (if b =? ?x then _ else _) =>
    destruct (b =? x) eqn:?; [bool_to_prop; subst b|] end; try by spell_branch.
  destruct (peek_is _ _ && peek_next_is _ _) eqn:Hdots; [|spell_branch].
  apply andb_true_iff in Hdots as [H1%peek_is_true H2].
  eapply (spelled_step _ ["."%B]); [by apply consumed_bump|].
  eapply (spelled_step _ ["."%B]); [apply consumed_bump|spell_branch].
  simpl. unfold peek. rewrite (bump_pos _ _ H1), (proj1 (bump_advances _)).
  unfold peek_next_is, peek_next in H2. case_match; [|done]. apply Z.eqb_eq in H2. by subst.
Qed.

Lemma next_lossless_token_spelled t tok t' k txt :
  next_lossless_token t = (tok, t') → lkind tok = LToken k → spelling k = Some txt →
  slice (source t) (pos t) (pos t') = txt.
Proof.
  unfold next_lossless_token. destruct (peek t) as [b|] eqn:Hb; [|intros; by simplify_eq/=].
  destruct (is_ascii_whitespace b); [intros; by simplify_eq/=|].
  destruct (_ && _); [intros; by simplify_eq/=|]. unfold next_token.
  pose proof (scan_token_spelled t b Hb) as Hsp.
  destruct (scan_token t) as [tk t1]. intros; simplify_eq/=.
  destruct (Hsp txt) as (l'&Hc&<-); [done|].
  by destruct (consumed_trans _ _ _ _ _ (consumed_bump t b Hb) Hc) as (_&_&?).
Qed.

Lemma lossless_stream_spelled s t fuel toks :
  is_str s → safe s t → tokenize_lossless_fuel fuel t = Some toks →
  Forall (λ tok, ∀ k txt, lkind tok = LToken k → spelling k = Some txt →
    span_text (as_bytes s) (lspan tok) = txt) toks.
Proof.
  intros Hs. revert t toks. induction fuel as [|fuel IH]; intros t toks Ht; [done|].
  cbn [tokenize_lossless_fuel]. destruct (peek t) as [b|] eqn:Hb.
  - pose proof (next_lossless_token_step s Hs t b Ht Hb) as (Hsp&Hk&_&Ht').
    pose proof (next_lossless_token_spelled t) as Hspell.
    destruct (next_lossless_token t) as [tok t']. simpl in *.
    destruct (tokenize_lossless_fuel fuel t') as [toks'|] eqn:Hrest.
    2:{ repeat case_match; intros; by simplify_eq/=. }
    intros Htoks. assert (toks = tok :: toks') as ->.
    { repeat case_match; by simplify_eq/=. }
    constructor; [|by eapply IH]. intros k txt Hkt Htxt. rewrite Hsp. unfold span_text. simpl.
    rewrite <-(proj1 Ht). by eapply Hspell.
  - rewrite (next_lossless_token_eof t Hb). simpl. intros [= <-]. constructor; [|done].
    intros k txt. simpl. by intros [= <-].
Qed.

(** C5: Every keyword, operator, delimiter and punctuation token covers exactly
    the text its kind documents. *)
Theorem lossless_token_spelling (text : list Z) (Htext : is_str text) :
  ∃ toks, tokenize_lossless text = Some toks ∧
    Forall (λ tok, ∀ k txt, lkind tok = LToken k → spelling k = Some txt →
      span_text (as_bytes text) (lspan tok) = txt) toks.
Proof.
  destruct (lossless_stream text Htext (new text) (S (length (as_bytes text))))
    as (toks&Htoks&_); [by apply new_safe|rewrite new_remaining; lia|].
  exists toks. split; [done|]. eapply lossless_stream_spelled; [done|by apply new_safe|done].
Qed.

Lemma lossless_token_spelling_witness :
  ∃ toks, tokenize_lossless sample_source = Some toks ∧
    Forall (λ tok, ∀ k txt, lkind tok = LToken k → spelling k = Some txt →
      span_text (as_bytes sample_source) (lspan tok) = txt) toks.
Proof. apply lossless_token_spelling, is_str_b_spec. reflexivity. Defined.
