(* ===== verification/Literals.v ===== *)
(** * nia-literals: decoding numeric, character and string literals

    [crates/nia-literals/src/lib.rs].  The numeric functions read the bytes of
    the literal, the character and string functions its characters, as the
    source does.  [parse::<f64>] of the standard library is a parameter of
    [eval_float_literal].  A loop over a character iterator is a recursion on
    the characters left, with their number as fuel. *)

From S2P Require Import Prelude RustStd.

(** ** Numeric literals (over the bytes of the text) *)

Definition digit_value (byte : Z) : option Z :=
  if ("0"%B <=? byte) && (byte <=? "9"%B) then Some (byte - "0"%B)
  else if ("a"%B <=? byte) && (byte <=? "f"%B) then Some (byte - "a"%B + 10)
  else if ("A"%B <=? byte) && (byte <=? "F"%B) then Some (byte - "A"%B + 10)
  else None.

Definition digit_below (radix : Z) (byte : option Z) : bool :=
  match byte ≫= digit_value with Some v => v <? radix | None => false end.

(** [bytes.iter().enumerate().all(..)]: every separator sits between digits. *)
Definition has_valid_digit_separators (text : list Z) (radix : Z) : bool :=
  forallb (λ index,
    match text !! index with
    | Some byte =>
      if byte =? "_"%B then
        match index with
        | O => false
        | S previous => digit_below radix (text !! previous)
        end && digit_below radix (text !! S index)
      else true
    | None => true
    end) (seq 0 (length text)).

(** [while index < bytes.len() { if p(bytes[index]) { index += 1 } else { break } }]. *)
Fixpoint run_length (p : Z → bool) (l : list Z) : nat :=
  match l with
  | [] => 0
  | b :: l => if p b then S (run_length p l) else 0
  end.

Definition skip_while (p : Z → bool) (bytes : list Z) (index : nat) : nat :=
  index + run_length p (drop index bytes).

Definition starts_with (p s : list Z) : bool :=
  match strip_prefix p s with Some _ => true | None => false end.

Definition byte_at (bytes : list Z) (index : nat) (p : Z → bool) : bool :=
  match bytes !! index with Some b => p b | None => false end.

Definition sep_or (p : Z → bool) (b : Z) : bool := (b =? "_"%B) || p b.

Definition numeric_suffix_start (text : list Z) : option nat :=
  let non_decimal_radix :=
    starts_with (bytes_of_string "0x") text || starts_with (bytes_of_string "0X") text
    || starts_with (bytes_of_string "0b") text || starts_with (bytes_of_string "0B") text
    || starts_with (bytes_of_string "0o") text || starts_with (bytes_of_string "0O") text in
  let index := if non_decimal_radix then 2%nat else 0%nat in
  let index :=
    skip_while (sep_or (λ b, if non_decimal_radix
                             then match digit_value b with Some _ => true | None => false end
                             else is_ascii_digit b)) text index in
  let index :=
    if negb non_decimal_radix && byte_at text index (λ b, b =? "."%B)
    then skip_while (sep_or is_ascii_digit) text (S index) else index in
  let index :=
    if negb non_decimal_radix && byte_at text index (λ b, (b =? "e"%B) || (b =? "E"%B)) then
      let index := S index in
      let index :=
        if byte_at text index (λ b, (b =? "+"%B) || (b =? "-"%B)) then S index else index in
      skip_while (sep_or is_ascii_digit) text index
    else index in
  if (index <? length text)%nat then Some index else None.

Definition numeric_literal_body (text : list Z) : list Z :=
  take (default (length text) (numeric_suffix_start text)) text.

Definition numeric_literal_suffix (text : list Z) : option (list Z) :=
  (λ st, drop st text) <$> numeric_suffix_start text.

Definition integer_suffixes : list (list Z) :=
  bytes_of_string <$> ["i8"; "i16"; "i32"; "i64"; "i128"; "isize";
                       "u8"; "u16"; "u32"; "u64"; "u128"; "usize"]%string.

Definition is_integer_suffix (suffix : list Z) : bool := bool_decide (suffix ∈ integer_suffixes).

Definition is_float_suffix (suffix : list Z) : bool :=
  bool_decide (suffix ∈ bytes_of_string <$> ["f32"; "f64"]%string).

(** The radix and the digits a literal body denotes. *)
Definition split_radix (text : list Z) : Z * list Z :=
  let strip2 a b :=
    match strip_prefix (bytes_of_string a) text with
    | Some rest => Some rest
    | None => strip_prefix (bytes_of_string b) text
    end in
  match strip2 "0x" "0X" with
  | Some rest => (16, rest)
  | None =>
    match strip2 "0b" "0B" with
    | Some rest => (2, rest)
    | None =>
      match strip2 "0o" "0O" with
      | Some rest => (8, rest)
      | None => (10, text)
      end
    end
  end%string.

Definition parse_int_literal (text : list Z) : Result string Z :=
  if match numeric_literal_suffix text with
     | Some suffix => negb (is_integer_suffix suffix)
     | None => false
     end
  then Err "invalid integer constant"%string
  else
    let text := numeric_literal_body text in
    let '(radix, digits) := split_radix text in
    if negb (has_valid_digit_separators digits radix) then Err "invalid integer constant"%string
    else
      let digits := remove_char "_"%B digits in
      match digits with
      | [] => Err "invalid integer constant"%string
      | _ =>
        ok_or (from_str_radix u128_max radix digits)
          "integer literal is out of range for const evaluation"%string
      end.

Definition eval_int_literal (text : list Z) : Result string Z := parse_int_literal text.

(** [parse_f64] stands for [str::parse::<f64>]. *)
Definition eval_float_literal {F : Type} (parse_f64 : list Z → option F) (text : list Z) :
    Result string F :=
  let body := numeric_literal_body text in
  if negb (has_valid_digit_separators body 10)
     || match numeric_literal_suffix text with
        | Some suffix => negb (is_float_suffix suffix)
        | None => false
        end
  then Err "invalid float constant"%string
  else ok_or (parse_f64 (remove_char "_"%B body)) "invalid float constant"%string.

(** ** Escapes (over the characters of the text) *)

(** The text up to the closing brace, and the characters after it. *)
Fixpoint until_brace (chars : list Z) : option (list Z * list Z) :=
  match chars with
  | [] => None
  | ch :: chars =>
    if ch =? "}"%B then Some ([], chars)
    else '(value, rest) ← until_brace chars; Some (ch :: value, rest)
  end.

Definition decode_unicode_escape_scalar (chars : list Z) : option (Z * list Z) :=
  match chars with
  | [] => None
  | ch :: chars =>
    if ch =? "{"%B then
      '(value, rest) ← until_brace chars;
      scalar ← from_str_radix u32_max 16 value;
      _ ← char_from_u32 scalar;
      Some (scalar, rest)
    else None
  end.

Definition unicode_escape_byte_len (chars : list Z) : option (Z * list Z) :=
  match chars with
  | [] => None
  | ch :: chars =>
    if ch =? "{"%B then
      '(value, rest) ← until_brace chars;
      scalar ← from_str_radix u32_max 16 value;
      ch ← char_from_u32 scalar;
      Some (len_utf8 ch, rest)
    else None
  end.

(** The two digits of a byte escape. *)
Definition hex_pair (chars : list Z) : option (Z * list Z) :=
  match chars with
  | c1 :: c2 :: rest =>
    hi ← hex_digit c1;
    lo ← hex_digit c2;
    Some (Z.lor (Z.shiftl hi 4) lo, rest)
  | _ => None
  end.

Fixpoint decode_byte_literal_fuel (fuel : nat) (chars : list Z) : option (list Z) :=
  match fuel with
  | O => None
  | S fuel =>
    match chars with
    | [] => Some []
    | ch :: chars =>
      if negb (ch =? BACKSLASH) then
        app (encode_utf8 ch) <$> decode_byte_literal_fuel fuel chars
      else
        match chars with
        | [] => None
        | e :: chars =>
          if e =? "n"%B then cons LF <$> decode_byte_literal_fuel fuel chars
          else if e =? "r"%B then cons CR <$> decode_byte_literal_fuel fuel chars
          else if e =? "t"%B then cons TAB <$> decode_byte_literal_fuel fuel chars
          else if e =? BACKSLASH then cons BACKSLASH <$> decode_byte_literal_fuel fuel chars
          else if e =? SQUOTE then cons SQUOTE <$> decode_byte_literal_fuel fuel chars
          else if e =? DQUOTE then cons DQUOTE <$> decode_byte_literal_fuel fuel chars
          else if e =? "0"%B then cons 0 <$> decode_byte_literal_fuel fuel chars
          else if e =? "x"%B then
            '(v, chars) ← hex_pair chars;
            cons (v mod 256) <$> decode_byte_literal_fuel fuel chars
          else if e =? "u"%B then
            '(v, chars) ← decode_unicode_escape_scalar chars;
            c ← char_from_u32 v;
            app (encode_utf8 c) <$> decode_byte_literal_fuel fuel chars
          else None
        end
    end
  end.

Definition decode_byte_literal_inner (text : list Z) : option (list Z) :=
  decode_byte_literal_fuel (S (length text)) text.

Fixpoint decode_scalar_literal_fuel (fuel : nat) (chars : list Z) : option (list Z) :=
  match fuel with
  | O => None
  | S fuel =>
    match chars with
    | [] => Some []
    | ch :: chars =>
      if negb (ch =? BACKSLASH) then cons ch <$> decode_scalar_literal_fuel fuel chars
      else
        match chars with
        | [] => None
        | e :: chars =>
          '(scalar, chars) ←
            (if e =? "n"%B then Some (LF, chars)
             else if e =? "r"%B then Some (CR, chars)
             else if e =? "t"%B then Some (TAB, chars)
             else if e =? BACKSLASH then Some (BACKSLASH, chars)
             else if e =? SQUOTE then Some (SQUOTE, chars)
             else if e =? DQUOTE then Some (DQUOTE, chars)
             else if e =? "0"%B then Some (0, chars)
             else if e =? "x"%B then hex_pair chars
             else if e =? "u"%B then decode_unicode_escape_scalar chars
             else None);
          _ ← char_from_u32 scalar;
          cons scalar <$> decode_scalar_literal_fuel fuel chars
        end
    end
  end.

Definition decode_scalar_literal_inner (text : list Z) : option (list Z) :=
  decode_scalar_literal_fuel (S (length text)) text.

(** The escapes that denote one byte. *)
Definition is_simple_escape (e : Z) : bool :=
  (e =? "n"%B) || (e =? "r"%B) || (e =? "t"%B) || (e =? BACKSLASH) || (e =? SQUOTE)
  || (e =? DQUOTE) || (e =? "0"%B).

Definition checked_add_usize (a b : Z) : option Z := checked 0 usize_max (a + b).

Fixpoint decoded_byte_len_fuel (fuel : nat) (bytes : Z) (chars : list Z) : option Z :=
  match fuel with
  | O => None
  | S fuel =>
    match chars with
    | [] => Some bytes
    | ch :: chars =>
      if negb (ch =? BACKSLASH) then
        bytes ← checked_add_usize bytes (len_utf8 ch); decoded_byte_len_fuel fuel bytes chars
      else
        match chars with
        | [] => None
        | e :: chars =>
          if is_simple_escape e then
            bytes ← checked_add_usize bytes 1; decoded_byte_len_fuel fuel bytes chars
          else if e =? "x"%B then
            '(_, chars) ← hex_pair chars;
            bytes ← checked_add_usize bytes 1; decoded_byte_len_fuel fuel bytes chars
          else if e =? "u"%B then
            '(len, chars) ← unicode_escape_byte_len chars;
            bytes ← checked_add_usize bytes len; decoded_byte_len_fuel fuel bytes chars
          else None
        end
    end
  end.

Definition decoded_byte_len (inner : list Z) : option Z :=
  decoded_byte_len_fuel (S (length inner)) 0 inner.

Fixpoint decoded_scalar_len_fuel (fuel : nat) (scalars : Z) (chars : list Z) : option Z :=
  match fuel with
  | O => None
  | S fuel =>
    match chars with
    | [] => Some scalars
    | ch :: chars =>
      if negb (ch =? BACKSLASH) then
        scalars ← checked_add_usize scalars 1; decoded_scalar_len_fuel fuel scalars chars
      else
        match chars with
        | [] => None
        | e :: chars =>
          if is_simple_escape e then
            scalars ← checked_add_usize scalars 1; decoded_scalar_len_fuel fuel scalars chars
          else if e =? "x"%B then
            '(v, chars) ← hex_pair chars;
            _ ← char_from_u32 v;
            scalars ← checked_add_usize scalars 1; decoded_scalar_len_fuel fuel scalars chars
          else if e =? "u"%B then
            '(_, chars) ← decode_unicode_escape_scalar chars;
            scalars ← checked_add_usize scalars 1; decoded_scalar_len_fuel fuel scalars chars
          else None
        end
    end
  end.

Definition decoded_scalar_len (inner : list Z) : option Z :=
  decoded_scalar_len_fuel (S (length inner)) 0 inner.

(** ** Literals *)

Definition decode_char_literal (text : list Z) : option Z :=
  inner ← strip_prefix [SQUOTE] text;
  inner ← strip_suffix_char SQUOTE inner;
  scalars ← decode_scalar_literal_inner inner;
  match scalars with [c] => Some c | _ => None end.

Definition decode_byte_char_literal (text : list Z) : option Z :=
  inner ← strip_prefix ["b"%B; SQUOTE] text;
  inner ← strip_suffix_char SQUOTE inner;
  bytes ← decode_byte_literal_inner inner;
  match bytes with [b] => Some b | _ => None end.

Definition decode_string_literal_part (text : list Z) : option (list Z) :=
  inner ← strip_prefix [DQUOTE] text;
  inner ← strip_suffix_char DQUOTE inner;
  scalars ← decode_scalar_literal_inner inner;
  mapM char_from_u32 scalars.

(** [text.strip_prefix(..).or_else(|| text.strip_prefix('"'))?.strip_suffix('"')?]. *)
Definition byte_string_inner (text : list Z) : option (list Z) :=
  inner ← match strip_prefix ["b"%B; DQUOTE] text with
          | Some inner => Some inner
          | None => strip_prefix [DQUOTE] text
          end;
  strip_suffix_char DQUOTE inner.

Definition decode_byte_string_literal_part (text : list Z) : option (list Z) :=
  inner ← byte_string_inner text; decode_byte_literal_inner inner.

Definition string_literal_part_char_len (text : list Z) : option Z :=
  inner ← strip_prefix [DQUOTE] text;
  inner ← strip_suffix_char DQUOTE inner;
  decoded_scalar_len inner.

Definition byte_string_literal_part_len (text : list Z) : option Z :=
  inner ← byte_string_inner text; decoded_byte_len inner.

Fixpoint eval_string_literal_parts (parts : list (list Z)) : option (list Z) :=
  match parts with
  | [] => Some []
  | part :: parts =>
    s ← decode_string_literal_part part; app s <$> eval_string_literal_parts parts
  end.

Fixpoint eval_byte_string_literal_parts (parts : list (list Z)) : option (list Z) :=
  match parts with
  | [] => Some []
  | part :: parts =>
    s ← decode_byte_string_literal_part part; app s <$> eval_byte_string_literal_parts parts
  end.

Definition decode_string_literal_scalars (parts : list (list Z)) : option (list Z) :=
  eval_string_literal_parts parts.

(** [parts.into_iter().try_fold(0usize, ..)]. *)
Fixpoint fold_lengths (f : list Z → option Z) (len : Z) (parts : list (list Z)) : option Z :=
  match parts with
  | [] => Some len
  | part :: parts =>
    n ← f part; len ← checked_add_usize len n; fold_lengths f len parts
  end.

Definition string_literal_char_len (parts : list (list Z)) : option Z :=
  fold_lengths string_literal_part_char_len 0 parts.

Definition byte_string_literal_len (parts : list (list Z)) : option Z :=
  fold_lengths byte_string_literal_part_len 0 parts.
