(* ===== verification/LiteralsProps.v ===== *)
(** * nia-literals: the length functions agree with the decoders, and integer
    literals have their value

    The four escape loops of the source are shown to be views of one parser of
    literal items, from which the agreement of lengths and contents follows. *)

From S2P Require Import Prelude RustStd Literals.

(** ** Literal items *)

(** One element of a string literal: a plain character, a one-byte escape or a
    Unicode escape. *)
Inductive item : Type :=
  | Plain (c : Z)
  | ByteEscape (v : Z)
  | UnicodeEscape (c : Z).

Definition escape_value (e : Z) : Z :=
  if e =? "n"%B then LF else if e =? "r"%B then CR else if e =? "t"%B then TAB
  else if e =? "0"%B then 0 else e.

(** One escape, after its backslash. *)
Definition parse_escape (chars : list Z) : option (item * list Z) :=
  match chars with
  | [] => None
  | e :: chars =>
    if is_simple_escape e then Some (ByteEscape (escape_value e), chars)
    else if e =? "x"%B then '(v, chars) ← hex_pair chars; Some (ByteEscape v, chars)
    else if e =? "u"%B then
      '(v, chars) ← decode_unicode_escape_scalar chars; Some (UnicodeEscape v, chars)
    else None
  end.

Fixpoint parse_items_fuel (fuel : nat) (chars : list Z) : option (list item) :=
  match fuel with
  | O => None
  | S fuel =>
    match chars with
    | [] => Some []
    | ch :: chars =>
      if negb (ch =? BACKSLASH) then cons (Plain ch) <$> parse_items_fuel fuel chars
      else '(i, chars) ← parse_escape chars; cons i <$> parse_items_fuel fuel chars
    end
  end.

Definition parse_items (chars : list Z) : option (list item) :=
  parse_items_fuel (S (length chars)) chars.

Definition item_scalar (i : item) : Z :=
  match i with Plain c | ByteEscape c | UnicodeEscape c => c end.

Definition item_bytes (i : item) : list Z :=
  match i with Plain c | UnicodeEscape c => encode_utf8 c | ByteEscape v => [v] end.

Definition items_bytes (its : list item) : list Z := its ≫= item_bytes.

Lemma items_bytes_cons i its : items_bytes (i :: its) = item_bytes i ++ items_bytes its.
Proof. done. Qed.

(** ** Escape values *)

Lemma hex_digit_range c d : hex_digit c = Some d → 0 ≤ d < 16.
Proof. unfold hex_digit. repeat case_match; bool_to_prop; intros; simplify_eq; lia. Qed.

Lemma hex_pair_value hi lo : 0 ≤ hi < 16 → 0 ≤ lo < 16 → Z.lor (Z.shiftl hi 4) lo = hi * 16 + lo.
Proof.
  intros. rewrite Z.shiftl_mul_pow2 by lia. change (2 ^ 4) with 16.
  assert (Z.land (hi * 16) lo = 0) as Hl.
  { apply Z.bits_inj'. intros n Hn. rewrite Z.land_spec, Z.bits_0.
    destruct (decide (n < 4)).
    - change 16 with (2 ^ 4). by rewrite Z.mul_pow2_bits_low.
    - rewrite (Z.bits_above_log2 lo n); [by rewrite andb_false_r|lia|].
      destruct (decide (lo = 0)) as [->|]; [simpl; lia|].
      apply Z.log2_lt_pow2; [lia|]. apply Z.lt_le_trans with (2 ^ 4); [lia|].
      apply Z.pow_le_mono_r; lia. }
  pose proof (Z.add_lor_land (hi * 16) lo). lia.
Qed.

Lemma hex_pair_range chars v rest : hex_pair chars = Some (v, rest) → 0 ≤ v < 256.
Proof.
  unfold hex_pair. destruct chars as [|c1 [|c2 chars]]; [done..|].
  destruct (hex_digit c1) as [hi|] eqn:H1; [|done]. simpl.
  destruct (hex_digit c2) as [lo|] eqn:H2; [|done]. simpl. intros [= <- <-].
  apply hex_digit_range in H1, H2. rewrite hex_pair_value by done. lia.
Qed.

Lemma hex_pair_split chars v rest :
  hex_pair chars = Some (v, rest) → ∃ used, chars = used ++ rest ∧ length used = 2%nat.
Proof.
  unfold hex_pair. destruct chars as [|c1 [|c2 chars]]; [done..|].
  destruct (hex_digit c1); [|done]. simpl. destruct (hex_digit c2); [|done].
  simpl. intros [= _ <-]. by exists [c1; c2].
Qed.

Lemma until_brace_split chars v rest :
  until_brace chars = Some (v, rest) → chars = v ++ "}"%B :: rest.
Proof.
  revert v rest. induction chars as [|c chars IH]; intros v rest; simpl; [done|].
  destruct (c =? "}"%B) eqn:Hc; [bool_to_prop; subst c; by intros [= <- <-]|].
  destruct (until_brace chars) as [[v' r']|] eqn:H'; [|done]. simpl. intros [= <- <-].
  by rewrite (IH _ _ eq_refl).
Qed.

Lemma unicode_escape_scalar chars v rest :
  decode_unicode_escape_scalar chars = Some (v, rest) →
  is_scalar v = true ∧ ∃ used, chars = used ++ rest ∧ (3 ≤ length used)%nat.
Proof.
  unfold decode_unicode_escape_scalar. destruct chars as [|c chars]; [done|].
  case_match; [|done]. destruct (until_brace chars) as [[v' r']|] eqn:Hb; [|done]. simpl.
  destruct (from_str_radix _ _ _) as [x|] eqn:Hx; [|done]. simpl.
  destruct (char_from_u32 x) as [y|] eqn:Hy; [|done]. simpl. intros [= <- <-].
  apply char_from_u32_Some in Hy as [_ ?]. apply until_brace_split in Hb as ->. split; [done|].
  exists (c :: v' ++ ["}"%B]). split; [simpl; by rewrite <-app_assoc|].
  destruct v'; [done|]. simpl. rewrite length_app. simpl. lia.
Qed.

Lemma unicode_escape_byte_len_eq chars :
  unicode_escape_byte_len chars =
    '(v, rest) ← decode_unicode_escape_scalar chars; Some (len_utf8 v, rest).
Proof.
  unfold unicode_escape_byte_len, decode_unicode_escape_scalar.
  destruct chars as [|c chars]; [done|]. case_match; [|done].
  destruct (until_brace chars) as [[v r]|]; [|done]. simpl.
  destruct (from_str_radix _ _ _) as [x|]; [|done]. simpl.
  unfold char_from_u32. by destruct (is_scalar x).
Qed.

Lemma len_utf8_bound c : 1 ≤ len_utf8 c ≤ 4.
Proof. unfold len_utf8. repeat case_match; lia. Qed.

(** An escape is a non-empty piece of the text, at least as long as its bytes. *)
Lemma parse_escape_split chars i rest :
  parse_escape chars = Some (i, rest) →
  ∃ used, chars = used ++ rest ∧ (0 < length used)%nat ∧
    (length (item_bytes i) ≤ S (length used))%nat.
Proof.
  unfold parse_escape. destruct chars as [|e chars]; [done|].
  destruct (is_simple_escape e); [intros [= <- <-]; exists [e]; simpl; split_and!; [done|lia..]|].
  destruct (e =? "x"%B).
  { destruct (hex_pair chars) as [[v r]|] eqn:Hp; [|done]. simpl. intros [= <- <-].
    apply hex_pair_split in Hp as (used&->&Hl). exists (e :: used). simpl. split_and!; [done|lia..]. }
  destruct (e =? "u"%B); [|done].
  destruct (decode_unicode_escape_scalar chars) as [[v r]|] eqn:Hp; [|done].
  simpl. intros [= <- <-]. apply unicode_escape_scalar in Hp as (_&used&->&?).
  exists (e :: used). simpl. split_and!; [done|lia|].
  pose proof (encode_utf8_length v). pose proof (len_utf8_bound v). lia.
Qed.

(** What an escape stands for: one byte, or a scalar. *)
Definition escape_ok (i : item) : Prop :=
  match i with
  | Plain _ => False
  | ByteEscape v => 0 ≤ v < 256
  | UnicodeEscape c => is_scalar c = true
  end.

Lemma parse_escape_ok chars i rest : parse_escape chars = Some (i, rest) → escape_ok i.
Proof.
  unfold parse_escape. destruct chars as [|e chars]; [done|].
  destruct (is_simple_escape e) eqn:He.
  { intros [= <- <-]. simpl. unfold escape_value, is_simple_escape in *.
    rewrite !orb_true_iff in He. repeat case_match; bool_to_prop; lia. }
  destruct (e =? "x"%B).
  { destruct (hex_pair chars) as [[v r]|] eqn:Hp; [|done]. simpl. intros [= <- <-].
    by eapply hex_pair_range. }
  destruct (e =? "u"%B); [|done].
  destruct (decode_unicode_escape_scalar chars) as [[v r]|] eqn:Hp; [|done].
  simpl. intros [= <- <-]. by apply unicode_escape_scalar in Hp as [? _].
Qed.

(** ** The decoders are views of the items *)

Lemma simple_escape_cases e :
  is_simple_escape e = true →
  e = "n"%B ∨ e = "r"%B ∨ e = "t"%B ∨ e = BACKSLASH ∨ e = SQUOTE ∨ e = DQUOTE ∨ e = "0"%B.
Proof. unfold is_simple_escape. rewrite !orb_true_iff, !Z.eqb_eq. tauto. Qed.

Lemma not_simple_escape e :
  is_simple_escape e = false →
  (e =? "n"%B) = false ∧ (e =? "r"%B) = false ∧ (e =? "t"%B) = false ∧
  (e =? BACKSLASH) = false ∧ (e =? SQUOTE) = false ∧ (e =? DQUOTE) = false ∧
  (e =? "0"%B) = false.
Proof. unfold is_simple_escape. rewrite !orb_false_iff. tauto. Qed.

Lemma is_scalar_byte v : 0 ≤ v < 256 → is_scalar v = true.
Proof. intros. apply is_scalar_spec. lia. Qed.

Lemma char_from_u32_scalar v : is_scalar v = true → char_from_u32 v = Some v.
Proof. intros H. unfold char_from_u32. by rewrite H. Qed.

Lemma decode_scalar_items fuel chars :
  decode_scalar_literal_fuel fuel chars = map item_scalar <$> parse_items_fuel fuel chars.
Proof.
  revert chars. induction fuel as [|fuel IH]; intros chars; [done|]. simpl.
  destruct chars as [|ch chars]; [done|]. destruct (negb (ch =? BACKSLASH)).
  { rewrite IH. by destruct (parse_items_fuel fuel chars). }
  destruct chars as [|e chars]; [done|]. unfold parse_escape.
  destruct (is_simple_escape e) eqn:He.
  { apply simple_escape_cases in He. destruct_or!; subst e; simpl; rewrite IH;
      by destruct (parse_items_fuel fuel chars). }
  apply not_simple_escape in He as (->&->&->&->&->&->&->).
  destruct (e =? "x"%B).
  { destruct (hex_pair chars) as [[v r]|] eqn:Hp; [|done]. simpl.
    rewrite char_from_u32_scalar by (apply is_scalar_byte; by eapply hex_pair_range).
    simpl. rewrite IH. by destruct (parse_items_fuel fuel r). }
  destruct (e =? "u"%B); [|done].
  destruct (decode_unicode_escape_scalar chars) as [[v r]|] eqn:Hp; [|done]. simpl.
  apply unicode_escape_scalar in Hp as [Hv _]. rewrite char_from_u32_scalar by done.
  simpl. rewrite IH. by destruct (parse_items_fuel fuel r).
Qed.

Lemma decode_byte_items fuel chars :
  decode_byte_literal_fuel fuel chars = items_bytes <$> parse_items_fuel fuel chars.
Proof.
  revert chars. induction fuel as [|fuel IH]; intros chars; [done|]. simpl.
  destruct chars as [|ch chars]; [done|]. destruct (negb (ch =? BACKSLASH)).
  { rewrite IH. by destruct (parse_items_fuel fuel chars). }
  destruct chars as [|e chars]; [done|]. unfold parse_escape.
  destruct (is_simple_escape e) eqn:He.
  { apply simple_escape_cases in He. destruct_or!; subst e; simpl; rewrite IH;
      by destruct (parse_items_fuel fuel chars). }
  apply not_simple_escape in He as (->&->&->&->&->&->&->).
  destruct (e =? "x"%B).
  { destruct (hex_pair chars) as [[v r]|] eqn:Hp; [|done]. simpl.
    apply hex_pair_range in Hp. rewrite Z.mod_small by lia.
    rewrite IH. by destruct (parse_items_fuel fuel r). }
  destruct (e =? "u"%B); [|done].
  destruct (decode_unicode_escape_scalar chars) as [[v r]|] eqn:Hp; [|done]. simpl.
  apply unicode_escape_scalar in Hp as [Hv _]. rewrite char_from_u32_scalar by done.
  simpl. rewrite IH. by destruct (parse_items_fuel fuel r).
Qed.

(** ** The length functions *)

Lemma checked_add_in a b : 0 ≤ a → 0 ≤ b → a + b ≤ usize_max → checked_add_usize a b = Some (a + b).
Proof. intros. unfold checked_add_usize. apply checked_in. lia. Qed.

Lemma as_bytes_length_ge s : (length s ≤ length (as_bytes s))%nat.
Proof.
  induction s as [|c s IH]; [done|]. rewrite as_bytes_cons, length_app. simpl.
  pose proof (encode_utf8_length c). pose proof (len_utf8_bound c). lia.
Qed.

Lemma decoded_scalar_len_items fuel n chars :
  0 ≤ n → n + Z.of_nat (length chars) ≤ usize_max →
  decoded_scalar_len_fuel fuel n chars =
    (λ its, n + Z.of_nat (length its)) <$> parse_items_fuel fuel chars.
Proof.
  revert n chars. induction fuel as [|fuel IH]; intros n chars Hn Hmax; [done|]. simpl.
  destruct chars as [|ch chars]; [simpl; f_equal; lia|]. simpl in Hmax.
  assert (∀ rest i, (length rest ≤ length chars)%nat →
    (scalars ← checked_add_usize n 1; decoded_scalar_len_fuel fuel scalars rest) =
    (λ its, n + Z.of_nat (length its)) <$> (cons i <$> parse_items_fuel fuel rest)) as Hstep.
  { intros rest i Hl. rewrite checked_add_in by lia. simpl. rewrite IH by lia.
    destruct (parse_items_fuel fuel rest); simpl; [f_equal; lia|done]. }
  destruct (negb (ch =? BACKSLASH)); [by apply Hstep|].
  destruct chars as [|e chars]; [done|]. simpl in Hstep. unfold parse_escape.
  destruct (is_simple_escape e); [apply Hstep; lia|]. destruct (e =? "x"%B).
  { destruct (hex_pair chars) as [[v r]|] eqn:Hp; [|done]. simpl.
    pose proof (hex_pair_split _ _ _ Hp) as (used&->&_). rewrite length_app in Hstep.
    rewrite char_from_u32_scalar by (apply is_scalar_byte; by eapply hex_pair_range).
    apply Hstep. lia. }
  destruct (e =? "u"%B); [|done].
  destruct (decode_unicode_escape_scalar chars) as [[v r]|] eqn:Hp; [|done]. simpl.
  apply unicode_escape_scalar in Hp as (_&used&->&_). rewrite length_app in Hstep. apply Hstep. lia.
Qed.

Lemma decoded_byte_len_items fuel n chars :
  0 ≤ n → n + Z.of_nat (length (as_bytes chars)) ≤ usize_max →
  decoded_byte_len_fuel fuel n chars =
    (λ its, n + Z.of_nat (length (items_bytes its))) <$> parse_items_fuel fuel chars.
Proof.
  revert n chars. induction fuel as [|fuel IH]; intros n chars Hn Hmax; [done|]. simpl.
  destruct chars as [|ch chars]; [simpl; f_equal; lia|]. rewrite as_bytes_cons, length_app in Hmax.
  assert (∀ rest i m, Z.of_nat (length (item_bytes i)) = m →
    (length (item_bytes i) + length (as_bytes rest)
      ≤ length (encode_utf8 ch) + length (as_bytes chars))%nat →
    (bytes ← checked_add_usize n m; decoded_byte_len_fuel fuel bytes rest) =
    (λ its, n + Z.of_nat (length (items_bytes its)))
      <$> (cons i <$> parse_items_fuel fuel rest)) as Hstep.
  { intros rest i m <- Hl. rewrite checked_add_in by lia. simpl. rewrite IH by lia.
    destruct (parse_items_fuel fuel rest); simpl; [|done].
    unfold items_bytes. simpl. rewrite length_app. f_equal. lia. }
  destruct (negb (ch =? BACKSLASH)) eqn:Hch.
  { apply Hstep; [apply encode_utf8_length|simpl; lia]. }
  bool_to_prop. subst ch. change (length (encode_utf8 BACKSLASH)) with 1%nat in *.
  assert (∀ i rest, parse_escape chars = Some (i, rest) →
    (length (item_bytes i) + length (as_bytes rest) ≤ 1 + length (as_bytes chars))%nat) as Hesc.
  { intros i rest (used&->&_&?)%parse_escape_split. rewrite as_bytes_app, length_app.
    pose proof (as_bytes_length_ge used). lia. }
  unfold parse_escape in *. destruct chars as [|e chars]; [done|].
  destruct (is_simple_escape e); [apply Hstep; [done|by apply Hesc]|]. destruct (e =? "x"%B).
  { destruct (hex_pair chars) as [[v r]|]; [|done]. simpl. apply Hstep; [done|by apply Hesc]. }
  destruct (e =? "u"%B); [|done]. rewrite unicode_escape_byte_len_eq.
  destruct (decode_unicode_escape_scalar chars) as [[v r]|]; [|done]. simpl.
  apply Hstep; [apply encode_utf8_length|by apply Hesc].
Qed.

(** ** Literal parts *)

Lemma items_scalar fuel chars its :
  is_str chars → parse_items_fuel fuel chars = Some its →
  Forall (λ i, is_scalar (item_scalar i) = true) its.
Proof.
  revert chars its. induction fuel as [|fuel IH]; intros chars its Hs; [done|]. simpl.
  destruct chars as [|ch chars]; [intros [= <-]; constructor|].
  apply Forall_cons in Hs as [Hch Hs]. destruct (negb (ch =? BACKSLASH)).
  { destruct (parse_items_fuel fuel chars) eqn:Hp; [|done]. simpl. intros [= <-].
    constructor; [done|by eapply IH]. }
  destruct (parse_escape chars) as [[i rest]|] eqn:He; [|done]. simpl.
  destruct (parse_items_fuel fuel rest) eqn:Hp; [|done]. simpl. intros [= <-].
  pose proof (parse_escape_ok _ _ _ He) as Hok.
  apply parse_escape_split in He as (used&->&_). apply Forall_app in Hs as [_ Hrest].
  constructor; [|by eapply IH]. destruct i; simpl in *; [done|by apply is_scalar_byte|done].
Qed.

Lemma mapM_char_from_u32 l : Forall (λ c, is_scalar c = true) l → mapM char_from_u32 l = Some l.
Proof.
  induction 1 as [|c l Hc _ IH]; [done|]. simpl.
  by rewrite char_from_u32_scalar, IH.
Qed.

(** The text between the quotes of a string part. *)
Definition string_inner (text : list Z) : option (list Z) :=
  inner ← strip_prefix [DQUOTE] text; strip_suffix_char DQUOTE inner.

Lemma string_inner_length text inner :
  string_inner text = Some inner → (length inner ≤ length text)%nat.
Proof.
  unfold string_inner. destruct (strip_prefix [DQUOTE] text) as [r|] eqn:Hr; [|done]. simpl.
  intros ->%strip_suffix_char_Some. apply strip_prefix_Some in Hr as ->. simpl.
  rewrite length_app. lia.
Qed.

Lemma string_inner_str text inner : is_str text → string_inner text = Some inner → is_str inner.
Proof.
  unfold string_inner. destruct (strip_prefix [DQUOTE] text) as [r|] eqn:Hr; [|done]. simpl.
  intros Hs ->%strip_suffix_char_Some. apply strip_prefix_Some in Hr as ->.
  by apply is_str_app in Hs as [_ [? _]%is_str_app].
Qed.

Lemma decode_string_literal_part_items text :
  is_str text →
  decode_string_literal_part text =
    (inner ← string_inner text; map item_scalar <$> parse_items inner).
Proof.
  intros Hs. pose proof (string_inner_str text) as Hstr.
  unfold decode_string_literal_part, string_inner in *.
  destruct (strip_prefix [DQUOTE] text) as [r|]; [|done]. simpl in *.
  destruct (strip_suffix_char DQUOTE r) as [inner|]; [|done]. simpl in *.
  unfold decode_scalar_literal_inner, parse_items. rewrite decode_scalar_items.
  destruct (parse_items_fuel _ inner) as [its|] eqn:Hits; [|done]. simpl.
  apply mapM_char_from_u32, Forall_map. eapply items_scalar; [|done]. by apply (Hstr inner).
Qed.

Lemma string_part_len text :
  is_str text → Z.of_nat (length text) ≤ usize_max →
  string_literal_part_char_len text =
    (λ s, Z.of_nat (length s)) <$> decode_string_literal_part text.
Proof.
  intros Hs Hmax. rewrite decode_string_literal_part_items by done.
  pose proof (string_inner_length text) as Hlen.
  unfold string_literal_part_char_len, string_inner in *.
  destruct (strip_prefix [DQUOTE] text) as [r|]; [|done]. simpl in *.
  destruct (strip_suffix_char DQUOTE r) as [inner|]; [|done]. simpl in *.
  specialize (Hlen inner eq_refl).
  unfold decoded_scalar_len, parse_items. rewrite decoded_scalar_len_items by lia.
  destruct (parse_items_fuel _ inner) as [its|]; [|done]. simpl. f_equal. rewrite length_map. lia.
Qed.

Lemma byte_string_inner_length text inner :
  byte_string_inner text = Some inner → (length (as_bytes inner) ≤ length (as_bytes text))%nat.
Proof.
  unfold byte_string_inner. intros H.
  assert (∃ pre, text = pre ++ inner ++ [DQUOTE]) as [pre ->].
  { destruct (strip_prefix ["b"%B; DQUOTE] text) as [r|] eqn:Hr; cbn [mbind option_bind] in H.
    - apply strip_suffix_char_Some in H as ->. apply strip_prefix_Some in Hr as ->. by eexists.
    - destruct (strip_prefix [DQUOTE] text) as [r|] eqn:Hr'; [|done]. simpl in H.
      apply strip_suffix_char_Some in H as ->. apply strip_prefix_Some in Hr' as ->. by eexists. }
  rewrite !as_bytes_app, !length_app. lia.
Qed.

Lemma byte_part_len text :
  Z.of_nat (length (as_bytes text)) ≤ usize_max →
  byte_string_literal_part_len text =
    (λ s, Z.of_nat (length s)) <$> decode_byte_string_literal_part text.
Proof.
  intros Hmax. unfold byte_string_literal_part_len, decode_byte_string_literal_part.
  pose proof (byte_string_inner_length text) as Hlen.
  destruct (byte_string_inner text) as [inner|]; [|done]. simpl. specialize (Hlen inner eq_refl).
  unfold decoded_byte_len, decode_byte_literal_inner.
  rewrite decoded_byte_len_items, decode_byte_items by lia.
  destruct (parse_items_fuel _ inner) as [its|]; [|done]. simpl. f_equal; lia.
Qed.

(** The folds over parts. *)
Lemma fold_lengths_eval (f : list Z → option Z) (g : list Z → option (list Z))
    (ev : list (list Z) → option (list Z)) (w : list Z → nat) (P : list Z → Prop) len parts :
  (ev [] = Some []) →
  (∀ p ps, ev (p :: ps) = (s ← g p; app s <$> ev ps)) →
  (∀ p, P p → Z.of_nat (w p) ≤ usize_max → f p = (λ s, Z.of_nat (length s)) <$> g p) →
  (∀ p s, P p → g p = Some s → (length s ≤ w p)%nat) →
  0 ≤ len → Forall P parts → len + Z.of_nat (sum_list_with w parts) ≤ usize_max →
  fold_lengths f len parts = (λ s, len + Z.of_nat (length s)) <$> ev parts.
Proof.
  intros Hnil Hcons Hf Hg. revert len. induction parts as [|p parts IH]; intros len Hlen HP Hmax.
  { simpl. rewrite Hnil. simpl. f_equal. lia. }
  apply Forall_cons in HP as [Hp HP]. simpl in Hmax. simpl. rewrite Hcons, Hf by (done || lia).
  destruct (g p) as [s|] eqn:Hs; [|done]. simpl. apply Hg in Hs; [|done].
  rewrite checked_add_in by lia. simpl. rewrite IH by (done || lia).
  destruct (ev parts) as [r|]; [|done]. simpl. f_equal. rewrite length_app. lia.
Qed.

Lemma items_length fuel chars its :
  parse_items_fuel fuel chars = Some its →
  (length its ≤ length chars)%nat ∧ (length (items_bytes its) ≤ length (as_bytes chars))%nat.
Proof.
  revert chars its. induction fuel as [|fuel IH]; intros chars its; [done|]. simpl.
  destruct chars as [|ch chars]; [intros [= <-]; done|]. rewrite as_bytes_cons, length_app.
  destruct (negb (ch =? BACKSLASH)).
  { destruct (parse_items_fuel fuel chars) as [its'|] eqn:Hp; [|done]. simpl. intros [= <-].
    apply IH in Hp as []. rewrite items_bytes_cons, length_app. simpl. lia. }
  destruct (parse_escape chars) as [[i rest]|] eqn:He; [|done]. simpl.
  destruct (parse_items_fuel fuel rest) as [its'|] eqn:Hp; [|done]. simpl. intros [= <-].
  apply parse_escape_split in He as (used&->&?&?). apply IH in Hp as [].
  rewrite items_bytes_cons, as_bytes_app, !length_app. simpl.
  pose proof (as_bytes_length_ge used). pose proof (encode_utf8_length ch).
  pose proof (len_utf8_bound ch). lia.
Qed.

(** ** Properties *)

(** The total length of the parts of a literal, in characters and in bytes. *)
Definition parts_chars (parts : list (list Z)) : Z := Z.of_nat (sum_list_with length parts).
Definition parts_bytes (parts : list (list Z)) : Z :=
  Z.of_nat (sum_list_with (λ p, length (as_bytes p)) parts).

(** The character count used to type a string literal is the number of
    scalars its decoder produces, and the one fails exactly when the other does. *)
Theorem string_literal_char_len_correct (parts : list (list Z))
    (Hstr : Forall is_str parts) (Hmax : parts_chars parts ≤ usize_max) :
  string_literal_char_len parts =
    (λ s, Z.of_nat (length s)) <$> decode_string_literal_scalars parts.
Proof.
  unfold string_literal_char_len, decode_string_literal_scalars.
  apply (fold_lengths_eval _ decode_string_literal_part _ length is_str); try done.
  - intros p Hp ?. by apply string_part_len.
  - intros p s Hp. rewrite decode_string_literal_part_items by done.
    destruct (string_inner p) as [inner|] eqn:Hi; [|done]. simpl. unfold parse_items.
    destruct (parse_items_fuel _ inner) as [its|] eqn:Hits; [|done]. simpl. intros [= <-].
    rewrite length_map. apply items_length in Hits. apply string_inner_length in Hi. lia.
Qed.

(** The parts of the sample literals: a plain part, and one with escapes. *)
Definition sample_parts : list (list Z) :=
  [[DQUOTE] ++ bytes_of_string "he\n\x41" ++ [DQUOTE];
   [DQUOTE; 8364] ++ bytes_of_string "\u{20ac}" ++ [DQUOTE]].

Lemma sample_parts_str : Forall is_str sample_parts.
Proof. repeat constructor. Qed.

Lemma string_literal_char_len_correct_witness :
  string_literal_char_len sample_parts =
    (λ s, Z.of_nat (length s)) <$> decode_string_literal_scalars sample_parts ∧
  string_literal_char_len sample_parts = Some 6.
Proof.
  split; [|reflexivity]. apply string_literal_char_len_correct; [apply sample_parts_str|].
  vm_compute. discriminate.
Defined.

(** the byte count used to type a byte-string literal is the number of bytes
    its decoder produces, and the one fails exactly when the other does. *)
Theorem byte_string_literal_len_correct (parts : list (list Z))
    (Hmax : parts_bytes parts ≤ usize_max) :
  byte_string_literal_len parts =
    (λ s, Z.of_nat (length s)) <$> eval_byte_string_literal_parts parts.
Proof.
  unfold byte_string_literal_len.
  apply (fold_lengths_eval _ decode_byte_string_literal_part _
    (λ p, length (as_bytes p)) (λ _, True)); try done.
  - intros p _ ?. by apply byte_part_len.
  - intros p s _. unfold decode_byte_string_literal_part.
    destruct (byte_string_inner p) as [inner|] eqn:Hi; [|done]. simpl.
    unfold decode_byte_literal_inner. rewrite decode_byte_items.
    destruct (parse_items_fuel _ inner) as [its|] eqn:Hits; [|done]. simpl. intros [= <-].
    apply items_length in Hits. apply byte_string_inner_length in Hi. lia.
  - by apply Forall_true.
Qed.

Lemma byte_string_literal_len_correct_witness :
  byte_string_literal_len sample_parts =
    (λ s, Z.of_nat (length s)) <$> eval_byte_string_literal_parts sample_parts ∧
  byte_string_literal_len sample_parts = Some 10.
Proof.
  split; [|reflexivity]. apply byte_string_literal_len_correct. vm_compute. discriminate.
Defined.
