(* ===== verification/IntLiterals.v ===== *)
(** * nia-literals: the value of an integer literal

    Every well-formed integer literal, in any radix, with separators and with or
    without a type suffix, evaluates to its positional value, or to the
    out-of-range error when that value does not fit [u128]. *)

From S2P Require Import Prelude RustStd Literals.

(** The positional value of a digit string. *)
Definition radix_value (radix acc : Z) (ds : list Z) : Z :=
  foldl (λ acc c, acc * radix + default 0 (digit_value c)) acc ds.

(** The prefixes that select a radix. *)
Definition radix_prefixes (radix : Z) : list (list Z) :=
  bytes_of_string <$>
    (if radix =? 16 then ["0x"; "0X"]%string
     else if radix =? 2 then ["0b"; "0B"]%string
     else if radix =? 8 then ["0o"; "0O"]%string
     else if radix =? 10 then [EmptyString]
     else []).

(** A byte of a digit run: a digit of the radix or a separator. *)
Definition digit_or_sep (radix b : Z) : bool := (b =? "_"%B) || digit_below radix (Some b).

(** A well-formed integer literal: prefix, digits and suffix. *)
Record int_literal := mkIntLiteral {
  il_radix : Z;
  il_prefix : list Z;
  il_digits : list Z;
  il_suffix : list Z;
}.

Definition il_text (l : int_literal) : list Z := il_prefix l ++ il_digits l ++ il_suffix l.

(** Well-formed up to the suffix. *)
Definition int_body_ok (l : int_literal) : bool :=
  bool_decide (il_prefix l ∈ radix_prefixes (il_radix l))
  && forallb (digit_or_sep (il_radix l)) (il_digits l)
  && has_valid_digit_separators (il_digits l) (il_radix l)
  && negb (bool_decide (remove_char "_"%B (il_digits l) = [])).

Definition int_suffix_valid (l : int_literal) : bool :=
  bool_decide (il_suffix l = []) || is_integer_suffix (il_suffix l).

Definition int_literal_ok (l : int_literal) : bool := int_body_ok l && int_suffix_valid l.

(** The suffix starts where the literal cannot go on: not with a separator or a digit,
    in radix 10 not with a fraction or an exponent, and not with a letter that makes a
    radix prefix of a leading zero. *)
Definition int_split_ok (l : int_literal) : bool :=
  match il_suffix l with
  | [] => true
  | b :: _ =>
    negb (b =? "_"%B)
    && if il_radix l =? 10
       then negb (is_ascii_digit b) && negb (bool_decide (b ∈ ["."%B; "e"%B; "E"%B]))
            && negb (bool_decide (il_digits l = ["0"%B])
                     && bool_decide (b ∈ ["x"%B; "X"%B; "b"%B; "B"%B; "o"%B; "O"%B]))
       else negb (match digit_value b with Some _ => true | None => false end)
  end.

Definition il_value (l : int_literal) : Z :=
  radix_value (il_radix l) 0 (remove_char "_"%B (il_digits l)).

(** ** Positional values *)

Lemma digit_value_range b d : digit_value b = Some d → 0 ≤ d < 16.
Proof. unfold digit_value. repeat case_match; bool_to_prop; intros; simplify_eq; lia. Qed.

Lemma to_digit_below radix b :
  digit_below radix (Some b) = true → ∃ d, to_digit radix b = Some d ∧ digit_value b = Some d.
Proof.
  unfold digit_below, to_digit. simpl. change (hex_digit b) with (digit_value b).
  destruct (digit_value b) as [d|]; [|done]. intros ->. by exists d.
Qed.

Lemma radix_value_ge radix acc ds : 1 ≤ radix → 0 ≤ acc → acc ≤ radix_value radix acc ds.
Proof.
  intros Hr. revert acc. induction ds as [|c ds IH]; intros acc Ha; unfold radix_value in *; simpl; [lia|].
  assert (0 ≤ default 0 (digit_value c)).
  { destruct (digit_value c) eqn:H; simpl; [apply digit_value_range in H; lia|lia]. }
  etrans; [|apply IH; nia]. nia.
Qed.

Lemma radix_digits_value hi radix acc ds :
  1 ≤ radix → 0 ≤ acc ≤ hi → Forall (λ b, digit_below radix (Some b) = true) ds →
  radix_digits hi radix acc ds =
    if radix_value radix acc ds <=? hi then Some (radix_value radix acc ds) else None.
Proof.
  intros Hr. revert acc. induction ds as [|c ds IH]; intros acc Ha Hds.
  { unfold radix_value. simpl. case_match eqn:H; bool_to_prop; [done|lia]. }
  apply Forall_cons in Hds as [Hc Hds]. destruct (to_digit_below _ _ Hc) as (d&Hd&Hv).
  cbn [radix_digits]. rewrite Hd.
  assert (radix_value radix acc (c :: ds) = radix_value radix (acc * radix + d) ds) as ->.
  { unfold radix_value. simpl. by rewrite Hv. }
  apply digit_value_range in Hv. unfold checked.
  assert ((0 <=? acc * radix + d) = true) as -> by (apply Z.leb_le; nia). simpl.
  destruct (acc * radix + d <=? hi) eqn:Hle; bool_to_prop.
  - apply IH; [nia|done].
  - pose proof (radix_value_ge radix (acc * radix + d) ds Hr ltac:(nia)).
    assert ((radix_value radix (acc * radix + d) ds <=? hi) = false) as ->
      by (apply Z.leb_gt; lia). done.
Qed.

Lemma from_str_radix_value hi radix ds :
  1 ≤ radix → 0 ≤ hi → ds ≠ [] → Forall (λ b, digit_below radix (Some b) = true) ds →
  from_str_radix hi radix ds =
    if radix_value radix 0 ds <=? hi then Some (radix_value radix 0 ds) else None.
Proof.
  intros Hr Hhi Hne Hds. unfold from_str_radix. destruct ds as [|c ds]; [done|].
  destruct (c =? "+"%B) eqn:Hc.
  - bool_to_prop. subst c. apply Forall_cons in Hds as [Hc _]. done.
  - apply radix_digits_value; [done|lia|done].
Qed.

(** ** Splitting a literal *)

Lemma run_length_app p l r :
  forallb p l = true → match r with [] => true | b :: _ => negb (p b) end = true →
  run_length p (l ++ r) = length l.
Proof.
  intros Hl Hr. induction l as [|b l IH]; simpl in *.
  - destruct r as [|b r]; [done|]. simpl. by destruct (p b).
  - apply andb_true_iff in Hl as [-> Hl]. by rewrite IH.
Qed.

Lemma skip_while_app p pre l r n :
  n = length pre → forallb p l = true →
  match r with [] => true | b :: _ => negb (p b) end = true →
  skip_while p (pre ++ l ++ r) n = (length pre + length l)%nat.
Proof.
  intros -> Hl Hr. unfold skip_while. rewrite drop_app_length. by rewrite run_length_app.
Qed.

Lemma forallb_impl_bool {A} (p q : A → bool) l :
  (∀ x, p x = true → q x = true) → forallb p l = true → forallb q l = true.
Proof.
  intros Hpq. induction l as [|x l IH]; simpl; [done|]. intros [Hx Hl]%andb_true_iff.
  by rewrite (Hpq x Hx), IH.
Qed.

(** Only [i] and [u] start an integer suffix. *)
Lemma integer_suffix_head s :
  is_integer_suffix s = true → ∃ b s', s = b :: s' ∧ (b = "i"%B ∨ b = "u"%B).
Proof.
  intros H%bool_decide_eq_true. unfold integer_suffixes in H.
  apply list_elem_of_fmap in H as (w&->&Hw).
  repeat (apply elem_of_cons in Hw as [->|Hw]; [eexists _, _; split; [reflexivity|first [by left|by right]]|]).
  by apply not_elem_of_nil in Hw.
Qed.

Lemma digit_or_sep_is_digit radix b : radix ≤ 10 → digit_or_sep radix b = true → sep_or is_ascii_digit b = true.
Proof.
  intros Hr. unfold digit_or_sep, sep_or, digit_below, is_ascii_digit. simpl.
  destruct (b =? "_"%B); [done|]. simpl. unfold digit_value.
  repeat case_match; bool_to_prop; intros; simplify_eq; bool_to_prop; (done || lia).
Qed.

Lemma digit_or_sep_is_hex radix b :
  digit_or_sep radix b = true →
  sep_or (λ b, match digit_value b with Some _ => true | None => false end) b = true.
Proof.
  unfold digit_or_sep, sep_or, digit_below. simpl. destruct (b =? "_"%B); [done|]. simpl.
  by destruct (digit_value b).
Qed.

(** A two-byte radix prefix is not a prefix of a digit run and a suffix. *)
Lemma digits_no_prefix w ds rest :
  bool_decide (w ∈ ["0x"; "0X"; "0b"; "0B"; "0o"; "0O"]%string) = true →
  forallb (digit_or_sep 10) ds = true → int_split_ok (mkIntLiteral 10 [] ds rest) = true →
  strip_prefix (bytes_of_string w) (ds ++ rest) = None.
Proof.
  intros Hw%bool_decide_eq_true Hds Hrest.
  assert (∃ x, bytes_of_string w = ["0"%B; x] ∧ digit_or_sep 10 x = false ∧
    x ∈ ["x"%B; "X"%B; "b"%B; "B"%B; "o"%B; "O"%B]) as (x&->&Hx&Hin).
  { repeat (apply elem_of_cons in Hw as [->|Hw];
      [eexists; split_and!; [reflexivity|reflexivity|by apply (bool_decide_unpack _)]|]).
    by apply not_elem_of_nil in Hw. }
  unfold int_split_ok in Hrest. simpl in Hrest.
  destruct ds as [|d0 [|d1 ds]]; cbn [forallb] in Hds; cbn [app strip_prefix].
  - destruct rest as [|r0 rest]; [done|]. destruct ("0"%B =? r0) eqn:Heq0; [|done].
    bool_to_prop. subst r0. done.
  - destruct ("0"%B =? d0) eqn:Heq0; [|done]. destruct rest as [|r0 rest]; [done|].
    destruct (x =? r0) eqn:Heq1; [|done]. bool_to_prop. subst r0 d0.
    match goal with H : _ && _ = false |- _ => rewrite !bool_decide_true in H by done end. done.
  - bool_to_prop. destruct ("0"%B =? d0); [|done]. destruct (x =? d1) eqn:Heq0; [|done].
    bool_to_prop. congruence.
Qed.

Lemma starts_with_false p s : strip_prefix p s = None → starts_with p s = false.
Proof. unfold starts_with. by intros ->. Qed.

(** An integer suffix does not go on with the literal. *)
Lemma int_suffix_split l : int_suffix_valid l = true → int_split_ok l = true.
Proof.
  unfold int_suffix_valid, int_split_ok.
  intros [Hs%bool_decide_eq_true|(b&s'&Hs&Hb)%integer_suffix_head]%orb_true_iff; rewrite Hs; [done|].
  destruct Hb as [-> | ->]; simpl; rewrite andb_false_r; by destruct (il_radix l =? 10).
Qed.

Lemma suffix_start_end (text : list Z) n :
  (if (n <? length text)%nat then Some n else None) =
    (if bool_decide (length text ≤ n)%nat then None else Some n).
Proof. case_match eqn:H; case_bool_decide; [apply Nat.ltb_lt in H; lia|done|done|apply Nat.ltb_ge in H; lia]. Qed.

(** Where the suffix of a well-formed literal starts. *)
Lemma numeric_suffix_start_ok l :
  int_body_ok l = true → int_split_ok l = true →
  numeric_suffix_start (il_text l) =
    (if bool_decide (il_suffix l = []) then None
     else Some (length (il_prefix l ++ il_digits l))).
Proof.
  destruct l as [radix pre ds suf]. unfold int_body_ok, il_text. simpl.
  intros [[[Hpre%bool_decide_eq_true Hds]%andb_true_iff _]%andb_true_iff _]%andb_true_iff Hsplit.
  assert (∀ n, n = length (pre ++ ds) →
    (if (n <? length (pre ++ ds ++ suf))%nat then Some n else None) =
    (if bool_decide (suf = []) then None else Some (length (pre ++ ds)))) as Hend.
  { intros n ->. rewrite suffix_start_end, !length_app.
    destruct suf; simpl; case_bool_decide; simplify_eq; try done; lia. }
  assert (∀ p, match suf with [] => true | b :: _ => negb (p b) end = true →
    byte_at (pre ++ ds ++ suf) (length (pre ++ ds)) p = false) as Hat.
  { intros p Hp. unfold byte_at. rewrite app_assoc, lookup_app_r, Nat.sub_diag by done.
    destruct suf; [done|]. simpl. by apply negb_true_iff. }
  unfold radix_prefixes in Hpre.
  destruct (radix =? 10) eqn:Hr.
  - bool_to_prop. subst radix. simpl in Hpre. apply list_elem_of_singleton in Hpre as ->.
    unfold numeric_suffix_start. simpl app in *.
    rewrite !starts_with_false by (apply digits_no_prefix; [reflexivity|done|done]).
    cbn [orb negb andb]. unfold int_split_ok in Hsplit. simpl in Hsplit.
    assert (match suf with [] => true | b :: _ => negb (sep_or is_ascii_digit b) && negb (b =? "."%B)
      && negb ((b =? "e"%B) || (b =? "E"%B)) end = true) as Hsuf.
    { destruct suf as [|b suf]; [done|]. bool_to_prop. unfold sep_or. rewrite !andb_true_iff, !negb_true_iff, !orb_false_iff.
      repeat match goal with H : bool_decide _ = false |- _ => apply bool_decide_eq_false in H end.
      rewrite !not_elem_of_cons in *. rewrite !Z.eqb_neq. naive_solver. }
    rewrite (skip_while_app _ [] ds suf 0);
      [|done|eapply forallb_impl_bool; [|exact Hds]; intros b; by apply digit_or_sep_is_digit|].
    2:{ destruct suf; [done|]. by apply andb_true_iff in Hsuf as [[? _]%andb_true_iff _]. }
    simpl length. rewrite Nat.add_0_l.
    rewrite !Hat by (destruct suf; [done|]; by apply andb_true_iff in Hsuf as [[? ?]%andb_true_iff ?]).
    by apply Hend.
  - assert (∃ p1 p2, pre = [p1; p2] ∧
      (starts_with (bytes_of_string "0x") (pre ++ ds ++ suf) || starts_with (bytes_of_string "0X") (pre ++ ds ++ suf)
       || starts_with (bytes_of_string "0b") (pre ++ ds ++ suf) || starts_with (bytes_of_string "0B") (pre ++ ds ++ suf)
       || starts_with (bytes_of_string "0o") (pre ++ ds ++ suf) || starts_with (bytes_of_string "0O") (pre ++ ds ++ suf))
      = true) as (p1&p2&Hpp&Hsw).
    { repeat case_match; simpl in Hpre;
        repeat (apply elem_of_cons in Hpre as [->|Hpre]; [eexists _, _; by split|]);
        by apply not_elem_of_nil in Hpre. }
    unfold numeric_suffix_start. rewrite Hsw. cbn [negb andb].
    rewrite (skip_while_app _ pre ds suf 2).
    + rewrite <-length_app. by apply Hend.
    + by rewrite Hpp.
    + eapply forallb_impl_bool; [|exact Hds]. apply digit_or_sep_is_hex.
    + unfold int_split_ok in Hsplit. simpl in Hsplit. rewrite Hr in Hsplit. destruct suf as [|b suf]; [done|].
      apply andb_true_iff in Hsplit as [H1%negb_true_iff H2%negb_true_iff].
      unfold sep_or. by rewrite H1, H2.
Qed.

Lemma numeric_parts_ok l :
  int_body_ok l = true → int_split_ok l = true →
  numeric_literal_body (il_text l) = il_prefix l ++ il_digits l ∧
  numeric_literal_suffix (il_text l) =
    (if bool_decide (il_suffix l = []) then None else Some (il_suffix l)).
Proof.
  intros Hok Hsplit. unfold numeric_literal_body, numeric_literal_suffix.
  rewrite (numeric_suffix_start_ok l Hok Hsplit). unfold il_text.
  case_bool_decide as Hs; simpl.
  - rewrite Hs, app_nil_r. split; [by apply take_ge|done].
  - rewrite app_assoc. split; [by rewrite take_app_length|]. by rewrite drop_app_length.
Qed.

Lemma split_radix_ok l :
  int_body_ok l = true →
  split_radix (il_prefix l ++ il_digits l) = (il_radix l, il_digits l) ∧ 2 ≤ il_radix l.
Proof.
  destruct l as [radix pre ds suf]. unfold int_body_ok. simpl.
  intros [[[Hpre%bool_decide_eq_true Hds]%andb_true_iff _]%andb_true_iff _]%andb_true_iff.
  unfold radix_prefixes in Hpre.
  destruct (radix =? 16) eqn:H16; [|destruct (radix =? 2) eqn:H2;
    [|destruct (radix =? 8) eqn:H8; [|destruct (radix =? 10) eqn:H10]]]; bool_to_prop;
    simpl in Hpre; try subst radix.
  1-3: split; [|lia]; repeat (apply elem_of_cons in Hpre as [->|Hpre]; [reflexivity|]);
    by apply not_elem_of_nil in Hpre.
  - apply list_elem_of_singleton in Hpre as ->. split; [|lia]. unfold split_radix.
    change (bytes_of_string EmptyString ++ ds) with ds.
    assert (∀ w, bool_decide (w ∈ ["0x"; "0X"; "0b"; "0B"; "0o"; "0O"]%string) = true →
      strip_prefix (bytes_of_string w) ds = None) as Hnone.
    { intros w Hw. rewrite <-(app_nil_r ds). by apply digits_no_prefix. }
    by rewrite !Hnone.
  - by apply not_elem_of_nil in Hpre.
Qed.

Lemma remove_sep_digits radix ds :
  forallb (digit_or_sep radix) ds = true →
  Forall (λ b, digit_below radix (Some b) = true) (remove_char "_"%B ds).
Proof.
  unfold remove_char. induction ds as [|b ds IH]; [constructor|]. cbn [forallb].
  intros [Hb Hds]%andb_true_iff. rewrite filter_cons. case_decide as Hne; [|by apply IH].
  constructor; [|by apply IH]. unfold digit_or_sep in Hb.
  apply orb_true_iff in Hb as [Hb%Z.eqb_eq|]; done.
Qed.

(** What a literal with any suffix evaluates to. *)
Lemma int_token_value l :
  int_body_ok l = true → int_split_ok l = true →
  eval_int_literal (il_text l) =
    if negb (int_suffix_valid l) then Err "invalid integer constant"%string
    else if il_value l <=? u128_max then Ok (il_value l)
    else Err "integer literal is out of range for const evaluation"%string.
Proof.
  intros Hok Hsplit. pose proof (numeric_parts_ok l Hok Hsplit) as [Hbody Hsuf].
  pose proof (split_radix_ok l Hok) as [Hrad Hr].
  unfold eval_int_literal, parse_int_literal. rewrite Hsuf, Hbody, Hrad.
  unfold int_suffix_valid, int_body_ok in *. bool_to_prop.
  destruct (bool_decide (il_suffix l = [])); [|destruct (is_integer_suffix _); [|done]]; cbn [negb orb];
  (match goal with H : has_valid_digit_separators _ _ = true |- _ => rewrite H end; cbn [negb];
  match goal with H : bool_decide (_ = []) = false |- _ => apply bool_decide_eq_false in H end;
  destruct (remove_char _ _) as [|c ds] eqn:Hds; [done|];
  rewrite from_str_radix_value; [| lia | done | done | by rewrite <-Hds; apply remove_sep_digits];
  unfold il_value; rewrite Hds; by destruct (radix_value _ _ _ <=? _)).
Qed.

Lemma int_literal_value l :
  int_literal_ok l = true →
  eval_int_literal (il_text l) =
    if il_value l <=? u128_max then Ok (il_value l)
    else Err "integer literal is out of range for const evaluation"%string.
Proof.
  intros [Hb Hs]%andb_true_iff. by rewrite int_token_value, Hs by (done || by apply int_suffix_split).
Qed.

(** C34: a well-formed integer literal of any radix, with separators and an
    optional type suffix, evaluates to its positional value, and to the
    out-of-range error exactly when that value exceeds [u128::MAX]. *)
Theorem eval_int_literal_value (l : int_literal) (Hok : int_literal_ok l = true) :
  eval_int_literal (il_text l) =
    if il_value l <=? u128_max then Ok (il_value l)
    else Err "integer literal is out of range for const evaluation"%string.
Proof. by apply int_literal_value. Qed.

Definition sample_literal : int_literal :=
  mkIntLiteral 16 (bytes_of_string "0x") (bytes_of_string "dead_BEEF") (bytes_of_string "u64").

Lemma eval_int_literal_value_witness :
  eval_int_literal (il_text sample_literal) =
    (if il_value sample_literal <=? u128_max then Ok (il_value sample_literal)
     else Err "integer literal is out of range for const evaluation"%string) ∧
  il_value sample_literal = 3735928559.
Proof. split; [apply eval_int_literal_value; reflexivity|reflexivity]. Defined.
