(* ===== verification/LexerLiterals.v ===== *)
(** * The lexer and the literal decoders agree

    A literal the lexer accepts is one the decoders of [nia-literals] decode:
    string, byte-string, character and byte-character tokens always decode, and
    an integer token is a well-formed literal up to its suffix. *)

From S2P Require Import Prelude RustStd Lexer LexerFacts LexerProps LexerSpelling.
From S2P Require Import Literals LiteralsProps IntLiterals.

(** ** The characters ahead of the tokenizer *)

(** The rest of the source is the text [cs]. *)
Definition view (t : Tokenizer) (cs : list Z) : Prop :=
  drop (pos t) (source t) = as_bytes cs.

(** [t'] is reached from [t] by consuming the text [w], with [cs] left. *)
Definition reads (t t' : Tokenizer) (w cs : list Z) : Prop :=
  consumed t t' (as_bytes w) ∧ view t' cs.

Lemma view_lookup t cs k : view t cs → source t !! (pos t + k)%nat = as_bytes cs !! k.
Proof. intros H. unfold view in H. by rewrite <-H, lookup_drop. Qed.

Lemma view_nil t : view t [] → peek t = None.
Proof. intros H. unfold peek. rewrite <-(Nat.add_0_r (pos t)), (view_lookup t []); done. Qed.

Lemma view_peek t c cs : view t (c :: cs) → peek t = encode_utf8 c !! 0%nat.
Proof.
  intros H. unfold peek. rewrite <-(Nat.add_0_r (pos t)), (view_lookup _ _ _ H), as_bytes_cons.
  apply lookup_app_l. pose proof (encode_utf8_length c). pose proof (len_utf8_bound c). lia.
Qed.

Lemma view_peek_ascii t c cs : view t (c :: cs) → c < 128 → peek t = Some c.
Proof. intros H Hc. by rewrite (view_peek _ _ _ H), encode_utf8_ascii. Qed.

(** A non-ASCII character starts with a non-ASCII byte. *)
Lemma view_peek_wide t c cs :
  view t (c :: cs) → 128 ≤ c → is_scalar c = true → ∃ b, peek t = Some b ∧ 192 ≤ b.
Proof.
  intros H Hc Hs. rewrite (view_peek _ _ _ H).
  destruct (encode_utf8_shape c Hs) as [(b&->&->&?)|(b&bs&->&?&_)]; [lia|].
  exists b. split; [done|lia].
Qed.

Lemma reads_intro t w cs :
  view t (w ++ cs) → reads t (set_pos (pos t + length (as_bytes w)) t) w cs.
Proof.
  intros H. unfold view in H. rewrite as_bytes_app in H. split.
  - split_and!; [done|done|]. simpl. unfold slice.
    replace (pos t + length (as_bytes w) - pos t)%nat with (length (as_bytes w)) by lia.
    rewrite H. by rewrite take_app_length.
  - unfold view. simpl. rewrite <-drop_drop, H. by rewrite drop_app_length.
Qed.

Lemma reads_nil t cs : view t cs → reads t t [] cs.
Proof. intros H. split; [apply consumed_nil|done]. Qed.

Lemma reads_trans t1 t2 t3 w1 w2 cs1 cs2 :
  reads t1 t2 w1 cs1 → reads t2 t3 w2 cs2 → reads t1 t3 (w1 ++ w2) cs2.
Proof.
  intros [H1 _] [H2 H3]. split; [|done]. rewrite as_bytes_app. by eapply consumed_trans.
Qed.

Lemma reads_bump t c cs : view t (c :: cs) → c < 128 → reads t (snd (bump t)) [c] cs.
Proof.
  intros H Hc. rewrite (bump_Some t c) by (by eapply view_peek_ascii). simpl.
  pose proof (reads_intro t [c] cs H) as Hr. rewrite as_bytes_cons, encode_utf8_ascii in Hr by done.
  simpl in Hr. by rewrite Nat.add_1_r in Hr.
Qed.

Lemma bump_while_reads p t cs :
  (∀ b, p b = true → b < 128) → is_str cs → view t cs →
  ∃ w cs', cs = w ++ cs' ∧ forallb p w = true ∧ reads t (bump_while p t) w cs' ∧
    match cs' with [] => true | c :: _ => negb (p c) end = true.
Proof.
  intros Hp Hs. revert t. induction Hs as [|c cs Hc Hs IH]; intros t Hv; rewrite bump_while_unfold.
  { exists [], []. unfold peek_sat. rewrite (view_nil t Hv).
    split_and!; [done|done|by apply reads_nil|done]. }
  destruct (decide (c < 128)) as [Hlt|Hge].
  - pose proof (view_peek_ascii _ _ _ Hv Hlt) as Hpk. unfold peek_sat. rewrite Hpk.
    destruct (p c) eqn:Hpc.
    + pose proof (reads_bump _ _ _ Hv Hlt) as Hr.
      destruct (IH _ (proj2 Hr)) as (w&cs'&->&Hw&Hr'&Hend).
      exists (c :: w), cs'. split_and!; [done|simpl; by rewrite Hpc| |done].
      by apply (reads_trans _ _ _ [c] w _ _ Hr).
    + exists [], (c :: cs). split_and!; [done|done|by apply reads_nil|]. by rewrite Hpc.
  - destruct (view_peek_wide _ _ _ Hv ltac:(lia) Hc) as (b&Hb&?).
    unfold peek_sat. rewrite Hb. destruct (p b) eqn:Hpb; [apply Hp in Hpb; lia|].
    exists [], (c :: cs). split_and!; [done|done|by apply reads_nil|].
    destruct (p c) eqn:Hpc; [apply Hp in Hpc; lia|done].
Qed.

Lemma reads_slice t t' w cs : reads t t' w cs → slice (source t') (pos t) (pos t') = as_bytes w.
Proof. intros [(->&_&?) _]. done. Qed.

(** ** Escapes *)

(** What a successful escape scan reads: an escape the decoders accept, with the
    same value and encoded length. *)
Definition escape_read (t t' : Tokenizer) (cs : list Z) (v : CharValue) : Prop :=
  ∃ used cs' i, cs = used ++ cs' ∧ reads t t' used cs' ∧
    (∀ rest, parse_escape (used ++ rest) = Some (i, rest)) ∧
    value v = item_scalar i ∧ byte_len v = Z.of_nat (length (item_bytes i)).

Lemma is_hex_digit_value b : is_hex_digit b = true → ∃ d, hex_digit b = Some d ∧ 0 ≤ d < 16.
Proof.
  unfold is_hex_digit. change (Lexer.digit_value b) with (hex_digit b).
  destruct (hex_digit b) as [d|] eqn:Hd; [|done]. intros _. exists d. split; [done|].
  by eapply hex_digit_range.
Qed.

Lemma exact_hex_reads t cs v t' :
  is_str cs → view t cs → consume_exact_hex_digits 2 t = (Some v, t') →
  ∃ c1 c2 cs', cs = c1 :: c2 :: cs' ∧ reads t t' [c1; c2] cs' ∧
    ∀ rest, hex_pair (c1 :: c2 :: rest) = Some (v, rest).
Proof.
  intros Hs Hv. unfold consume_exact_hex_digits. cbn [exact_hex_loop].
  assert (∀ t cs, is_str cs → view t cs → ∀ b, peek t = Some b → is_radix_digit 16 b = true →
    ∃ cs', cs = b :: cs' ∧ is_str cs' ∧ reads t (snd (bump t)) [b] cs') as Hone.
  { clear. intros t cs Hs Hv b Hb Hd. apply is_radix_digit_hex, is_hex_digit_ascii in Hd.
    destruct cs as [|c cs]; [by rewrite (view_nil t Hv) in Hb|].
    apply Forall_cons in Hs as [Hc Hs]. destruct (decide (c < 128)).
    - rewrite (view_peek_ascii _ _ _ Hv) in Hb by done. simplify_eq.
      exists cs. split_and!; [done|done|by apply reads_bump].
    - destruct (view_peek_wide _ _ _ Hv ltac:(lia) Hc) as (b'&Hb'&?). rewrite Hb in Hb'.
      simplify_eq. lia. }
  destruct (peek t) as [b1|] eqn:Hb1; [|done].
  destruct (is_radix_digit 16 b1) eqn:Hd1; [|done].
  destruct (Hone t cs Hs Hv b1 Hb1 Hd1) as (cs1&->&Hs1&Hr1).
  destruct (peek (snd (bump t))) as [b2|] eqn:Hb2; [|done].
  destruct (is_radix_digit 16 b2) eqn:Hd2; [|done].
  destruct (Hone _ cs1 Hs1 (proj2 Hr1) b2 Hb2 Hd2) as (cs2&->&Hs2&Hr2).
  pose proof (reads_trans _ _ _ _ _ _ _ Hr1 Hr2) as Hr. simpl app in Hr.
  set (t2 := snd (bump (snd (bump t)))) in *. rewrite (reads_slice _ _ _ _ Hr).
  intros Heq. exists b1, b2, cs2. split; [done|].
  pose proof (is_radix_digit_hex _ _ Hd1) as Hx1. pose proof (is_radix_digit_hex _ _ Hd2) as Hx2.
  assert (is_str [b1; b2]) as Hstr.
  { change (b1 :: b2 :: cs2) with ([b1; b2] ++ cs2) in Hs. by apply is_str_app in Hs as [? _]. }
  rewrite utf8_decode_as_bytes in Heq by done. cbn [mbind option_bind] in Heq.
  destruct (is_hex_digit_value b1 Hx1) as (d1&Hh1&?), (is_hex_digit_value b2 Hx2) as (d2&Hh2&?).
  assert (∀ b, is_hex_digit b = true → digit_below 16 (Some b) = true) as Hbelow.
  { intros b (d&Hd&?)%is_hex_digit_value. unfold digit_below. simpl.
    change (digit_value b) with (hex_digit b). rewrite Hd. apply Z.ltb_lt. lia. }
  assert (from_str_radix u32_max 16 [b1; b2] = Some v) as Hval by congruence.
  assert (t2 = t') as <- by congruence. split; [done|]. intros rest. unfold hex_pair. rewrite Hh1, Hh2. simpl.
  rewrite hex_pair_value by done.
  rewrite from_str_radix_value in Hval; [|lia|done|done|by repeat constructor; apply Hbelow].
  unfold radix_value in Hval. cbn [foldl] in Hval.
  change (digit_value b1) with (hex_digit b1) in Hval. change (digit_value b2) with (hex_digit b2) in Hval.
  rewrite Hh1, Hh2 in Hval. cbn [default from_option] in Hval.
  case_match; simplify_eq. done.
Qed.

Lemma bump_read t cs b :
  is_str cs → view t cs → fst (bump t) = Some b → b < 128 →
  ∃ cs', cs = b :: cs' ∧ is_str cs' ∧ reads t (snd (bump t)) [b] cs'.
Proof.
  intros Hs Hv Hb Hlt. rewrite bump_fst in Hb.
  destruct cs as [|c cs]; [by rewrite (view_nil t Hv) in Hb|].
  apply Forall_cons in Hs as [Hc Hs]. destruct (decide (c < 128)).
  - rewrite (view_peek_ascii _ _ _ Hv) in Hb by done. simplify_eq.
    exists cs. split_and!; [done|done|by apply reads_bump].
  - destruct (view_peek_wide _ _ _ Hv ltac:(lia) Hc) as (b'&Hb'&?). rewrite Hb in Hb'.
    simplify_eq. lia.
Qed.

Lemma until_brace_app w rest :
  forallb is_hex_digit w = true → until_brace (w ++ "}"%B :: rest) = Some (w, rest).
Proof.
  induction w as [|c w IH]; [done|]. cbn [forallb app until_brace]. intros [Hc Hw]%andb_true_iff.
  destruct (c =? "}"%B) eqn:Hb; [bool_to_prop; subst c; done|]. by rewrite IH.
Qed.

Lemma unicode_reads t cs v t' :
  is_str cs → view t cs → scan_unicode_escape t = (Some v, t') →
  ∃ used cs', cs = used ++ cs' ∧ reads t t' used cs' ∧
    (∀ rest, decode_unicode_escape_scalar (used ++ rest) = Some (value v, rest)) ∧
    byte_len v = len_utf8 (value v).
Proof.
  intros Hs Hv. unfold scan_unicode_escape.
  pose proof (bump_read t cs "{"%B Hs Hv) as Hopen. destruct (bump t) as [o t1].
  simpl in Hopen. case_bool_decide as Ho; [|done].
  destruct (Hopen Ho ltac:(lia)) as (cs1&->&Hs1&Hr1).
  destruct (bump_while_reads is_hex_digit t1 cs1 is_hex_digit_ascii Hs1 (proj2 Hr1))
    as (w&cs2&->&Hw&Hr2&_).
  apply is_str_app in Hs1 as [Hsw Hs2]. set (t2 := bump_while is_hex_digit t1) in *.
  destruct (_ || _); [done|]. pose proof (bump_read t2 cs2 "}"%B Hs2 (proj2 Hr2)) as Hclose.
  destruct (bump t2) as [c t3]. simpl in Hclose. case_bool_decide as Hc; [|done].
  destruct (Hclose Hc ltac:(lia)) as (cs3&->&_&Hr3).
  assert (slice (source t3) (pos t1) (pos t3 - 1) = as_bytes w) as ->.
  { destruct Hr3 as [(Hsrc&Hpos&_) _]. rewrite as_bytes_cons, as_bytes_nil in Hpos. simpl in Hpos.
    rewrite Hsrc. replace (pos t3 - 1)%nat with (pos t2) by lia. by eapply reads_slice. }
  rewrite utf8_decode_as_bytes by done. cbn [mbind option_bind].
  destruct (from_str_radix u32_max 16 w) as [x|] eqn:Hx; [|done]. cbn [mbind option_bind].
  destruct (char_from_u32 x) as [y|] eqn:Hy; [|done]. cbn [mbind option_bind].
  intros [= <- <-]. apply char_from_u32_Some in Hy as [-> Hsc]. simpl.
  exists ("{"%B :: w ++ ["}"%B]), cs3. split_and!.
  - simpl. by rewrite <-app_assoc.
  - apply (reads_trans _ _ _ ["{"%B] _ _ _ Hr1). by apply (reads_trans _ _ _ w ["}"%B] _ _ Hr2).
  - intros rest. simpl. rewrite <-app_assoc. cbn [app]. rewrite until_brace_app by done.
    cbn [mbind option_bind]. rewrite Hx. cbn [mbind option_bind].
    by rewrite char_from_u32_scalar.
  - done.
Qed.

(** One arm [e =? x] of the escape match, with the value [w]. *)
Ltac simple_case Hsimple x w :=
  match goal with |- (if ?e =? x then _ else _) = _ → _ =>
    destruct (e =? x) eqn:?;
    [bool_to_prop; intros [= ? ?]; eapply (Hsimple x w); [lia|lia|reflexivity|reflexivity|congruence|done]|]
  end.

Lemma scan_escape_reads t cs v t' :
  is_str cs → view t cs → scan_escape t = (Some (Some v), t') → escape_read t t' cs v.
Proof.
  intros Hs Hv. unfold scan_escape, escape_read.
  pose proof (bump_fst t) as Hfst. pose proof (λ b, bump_read t cs b Hs Hv) as Hread.
  destruct (bump t) as [[e|] t1]; [|done]. simpl in Hread.
  assert (∀ x, x = e → x < 128 → ∃ cs', cs = x :: cs' ∧ is_str cs' ∧ reads t t1 [x] cs') as Hx.
  { intros x -> ?. by apply Hread. }
  clear Hread.
  assert (∀ x w, x = e → x < 128 → w = escape_value x → is_simple_escape x = true →
    Some (Some (one_byte w)) = Some (Some v) → t1 = t' →
    ∃ used cs' i, cs = used ++ cs' ∧ reads t t' used cs' ∧
      (∀ rest, parse_escape (used ++ rest) = Some (i, rest)) ∧
      value v = item_scalar i ∧ byte_len v = Z.of_nat (length (item_bytes i))) as Hsimple.
  { intros x w Hxe Hlt -> Hse Heq <-. destruct (Hx x Hxe Hlt) as (cs'&->&_&Hr).
    injection Heq as <-. exists [x], cs', (ByteEscape (escape_value x)).
    split_and!; [done|done| |done|done]. intros rest. unfold parse_escape. simpl app. cbn iota.
    by rewrite Hse. }
  simple_case Hsimple 110 10. simple_case Hsimple 114 13. simple_case Hsimple 116 9.
  simple_case Hsimple 92 92. simple_case Hsimple 39 39. simple_case Hsimple 34 34.
  simple_case Hsimple 48 0.
  assert (is_simple_escape e = false) as Hse.
  { unfold is_simple_escape. bool_to_prop. rewrite !orb_false_iff, !Z.eqb_neq. tauto. }
  destruct (e =? "x"%B) eqn:Hex.
  { bool_to_prop. destruct (Hx "x"%B) as (cs1&->&Hs1&Hr1); [lia|lia|].
    destruct (consume_exact_hex_digits 2 t1) as [[w|] t2] eqn:Hhex; [|done]. intros [= <- <-].
    destruct (exact_hex_reads t1 cs1 w t2 Hs1 (proj2 Hr1) Hhex) as (c1&c2&cs'&->&Hr2&Hp).
    exists ["x"%B; c1; c2], cs', (ByteEscape w).
    split_and!; [done|by apply (reads_trans _ _ _ ["x"%B] [c1; c2] _ _ Hr1)| |done|done].
    intros rest. unfold parse_escape. simpl app. cbn iota.
    change (is_simple_escape "x"%B) with false. cbn iota. rewrite Z.eqb_refl, Hp. done. }
  destruct (e =? "u"%B) eqn:Heu; [|done]. bool_to_prop.
  destruct (Hx "u"%B) as (cs1&->&Hs1&Hr1); [lia|lia|].
  destruct (scan_unicode_escape t1) as [[w|] t2] eqn:Hu; [|done]. intros [= <- <-].
  destruct (unicode_reads t1 cs1 w t2 Hs1 (proj2 Hr1) Hu) as (used&cs'&->&Hr2&Hp&Hl).
  exists ("u"%B :: used), cs', (UnicodeEscape (value w)).
  split_and!; [done|by apply (reads_trans _ _ _ ["u"%B] used _ _ Hr1)| |done|].
  - intros rest. unfold parse_escape. simpl app. cbn iota.
    change (is_simple_escape "u"%B) with false. cbn iota. change ("u"%B =? "x"%B) with false.
    cbn iota. rewrite Z.eqb_refl, Hp. done.
  - rewrite Hl. simpl. by rewrite encode_utf8_length.
Qed.

(** ** Strings *)

Lemma parse_items_fuel_enough chars : ∀ f1 f2,
  (length chars < f1)%nat → (length chars < f2)%nat →
  parse_items_fuel f1 chars = parse_items_fuel f2 chars.
Proof.
  induction chars as [chars IH] using (induction_ltof1 _ length). unfold ltof in IH.
  intros [|f1] [|f2] ??; [lia..|]. cbn [parse_items_fuel]. destruct chars as [|c chars]; [done|].
  simpl in *. destruct (negb _); [f_equal; apply IH; lia|].
  destruct (parse_escape chars) as [[i rest]|] eqn:He; [|done]. simpl. f_equal.
  apply parse_escape_split in He as (used&->&?&_). rewrite length_app in *. apply IH; lia.
Qed.

Lemma parse_items_cons c chars :
  parse_items (c :: chars) =
    if negb (c =? BACKSLASH) then cons (Plain c) <$> parse_items chars
    else '(i, rest) ← parse_escape chars; cons i <$> parse_items rest.
Proof.
  unfold parse_items at 1. cbn [parse_items_fuel]. destruct (negb _); [done|].
  destruct (parse_escape chars) as [[i rest]|] eqn:He; [|done]. cbn [mbind option_bind]. f_equal.
  apply parse_escape_split in He as (used&->&?&_). apply parse_items_fuel_enough;
    simpl; rewrite ?length_app; lia.
Qed.

Definition not_error (k : TokenKind) : Prop := ∀ e, k ≠ TError e.

(** An invalid escape is never forgotten. *)
Lemma string_loop_invalid st k t : not_error k → kind (fst (string_loop st k true t)) ≠ k.
Proof.
  intros Hk. induction t as [t IH] using remaining_ind. rewrite string_loop_unfold.
  destruct (peek t) as [b|] eqn:Hb; [|intros H; by apply (Hk UnterminatedString)].
  pose proof (bump_remaining t b Hb).
  pose proof (advances_remaining _ _ (scan_escape_advances (snd (bump t)))) as Hesc.
  destruct (b =? DQUOTE); [intros H'; by apply (Hk InvalidStringEscape)|].
  destruct (is_newline b); [intros H'; by apply (Hk UnterminatedString)|].
  destruct (b =? BACKSLASH); [|apply IH; lia].
  destruct (scan_escape _) as [[[v|]|] t']; simpl in Hesc; apply IH; lia.
Qed.

(** Bytes of non-ASCII characters are skipped one by one. *)
Lemma string_loop_skip st k inv t n :
  (∀ i, (i < n)%nat → ∃ b, source t !! (pos t + i)%nat = Some b ∧ 128 ≤ b) →
  string_loop st k inv t = string_loop st k inv (set_pos (pos t + n) t).
Proof.
  induction n as [|n IH]; intros Hn.
  { destruct t; simpl. by rewrite Nat.add_0_r. }
  rewrite IH by (intros; apply Hn; lia). destruct (Hn n ltac:(lia)) as (b&Hb&?).
  rewrite string_loop_unfold. unfold peek at 1. simpl. rewrite Hb.
  destruct (b =? DQUOTE) eqn:?; [lia|]. destruct (is_newline b) eqn:Hnl.
  { unfold is_newline in Hnl. apply orb_true_iff in Hnl. lia. }
  destruct (b =? BACKSLASH) eqn:?; [lia|].
  rewrite (bump_Some _ b) by done. simpl. by rewrite Nat.add_succ_r.
Qed.

Lemma string_loop_wide st k inv t c cs :
  view t (c :: cs) → 128 ≤ c → is_scalar c = true →
  string_loop st k inv t = string_loop st k inv (set_pos (pos t + length (as_bytes [c])) t).
Proof.
  intros Hv Hc Hs. apply string_loop_skip. intros i Hi. rewrite (view_lookup _ _ _ Hv).
  rewrite as_bytes_cons, as_bytes_nil, app_nil_r in *.
  rewrite lookup_app_l by done. destruct (lookup_lt_is_Some_2 _ _ Hi) as [b Hb].
  exists b. split; [done|]. pose proof (encode_utf8_not_ascii c Hc Hs) as Hall.
  by eapply Forall_lookup_1 in Hall.
Qed.

Lemma string_loop_decodes st k t cs :
  not_error k → is_str cs → view t cs → kind (fst (string_loop st k false t)) = k →
  ∃ inner rest its, cs = inner ++ DQUOTE :: rest ∧
    reads t (snd (string_loop st k false t)) (inner ++ [DQUOTE]) rest ∧
    parse_items inner = Some its.
Proof.
  intros Hk. revert t. induction cs as [cs IH] using (induction_ltof1 _ length).
  unfold ltof in IH. intros t Hs Hv.
  destruct cs as [|c cs].
  { rewrite string_loop_unfold, (view_nil t Hv). intros H. by destruct (Hk UnterminatedString). }
  pose proof Hs as [Hc Hs']%Forall_cons. destruct (decide (c < 128)) as [Hlt|Hge].
  2:{ rewrite (string_loop_wide _ _ _ t c cs Hv) by (done || lia). intros Hkind.
      pose proof (reads_intro t [c] cs Hv) as Hr.
      destruct (IH cs ltac:(simpl; lia) _ Hs' (proj2 Hr) Hkind) as (inner&rest&its&->&Hr'&Hits).
      exists (c :: inner), rest, (Plain c :: its). split_and!; [done|by eapply (reads_trans _ _ _ [c])|].
      rewrite parse_items_cons, Hits. destruct (c =? BACKSLASH) eqn:?; [bool_to_prop; lia|done]. }
  rewrite string_loop_unfold, (view_peek_ascii _ _ _ Hv Hlt).
  pose proof (reads_bump t c cs Hv Hlt) as Hr.
  destruct (c =? DQUOTE) eqn:Hq.
  { bool_to_prop. subst c. intros _. exists [], cs, []. split_and!; [done|done|done]. }
  destruct (is_newline c); [intros H; by destruct (Hk UnterminatedString)|].
  destruct (c =? BACKSLASH) eqn:Hb.
  - pose proof (scan_escape_reads (snd (bump t)) cs) as Hesc.
    destruct (scan_escape (snd (bump t))) as [[[v|]|] t']; [|intros H; by apply string_loop_invalid in H..].
    destruct (Hesc v t' Hs' (proj2 Hr) eq_refl) as (used&cs'&i&->&Hr1&Hp&_).
    apply is_str_app in Hs' as [_ Hs'']. intros Hkind.
    destruct (IH cs' ltac:(simpl; rewrite length_app; lia) t' Hs'' (proj2 Hr1) Hkind)
      as (inner&rest&its&->&Hr'&Hits).
    exists (c :: used ++ inner), rest, (i :: its). split_and!.
    + simpl. by rewrite <-app_assoc.
    + apply (reads_trans _ _ _ [c] ((used ++ inner) ++ [DQUOTE]) _ _ Hr). rewrite <-app_assoc.
      by eapply reads_trans.
    + rewrite parse_items_cons, Hb. cbn [negb]. rewrite Hp. cbn [mbind option_bind]. by rewrite Hits.
  - intros Hkind. destruct (IH cs ltac:(simpl; lia) _ Hs' (proj2 Hr) Hkind) as (inner&rest&its&->&Hr'&Hits).
    exists (c :: inner), rest, (Plain c :: its). split_and!; [done|by eapply (reads_trans _ _ _ [c])|].
    rewrite parse_items_cons, Hits, Hb. done.
Qed.

(** ** Characters *)

Lemma continuation_bytes_None n t t' :
  continuation_bytes n t = (None, t') → t' = set_pos (pos t + n) t.
Proof.
  revert t. induction n as [|n IH]; intros t; simpl.
  { intros [= <-]. destruct t; simpl. by rewrite Nat.add_0_r. }
  destruct (peek t) as [b|] eqn:Hb; [|by rewrite bump_None].
  rewrite (bump_Some t b Hb). case_match; [|done]. intros ->%IH.
  unfold set_pos. simpl. f_equal. lia.
Qed.

Lemma utf8_width_encode c b bs :
  is_scalar c = true → encode_utf8 c = b :: bs → utf8_width b = length (b :: bs).
Proof.
  intros Hc He. unfold utf8_width.
  destruct (encode_utf8_shape c Hc) as [(b'&He'&_&?)|(b'&bs'&He'&?&_&_&Hw)];
    rewrite He in He'; simplify_eq/=; repeat case_match; bool_to_prop;
    rewrite ?andb_false_iff, ?Z.leb_gt in *; lia.
Qed.

Lemma scan_utf8_codepoint_reads t cs v t' :
  is_str cs → view t cs → scan_utf8_codepoint t = (CSValue v, t') →
  ∃ c cs', cs = c :: cs' ∧ reads t t' [c] cs' ∧ v = mkCharValue c (len_utf8 c).
Proof.
  intros Hs Hv. destruct cs as [|c cs].
  { unfold scan_utf8_codepoint. by rewrite (bump_None _ (view_nil t Hv)). }
  apply Forall_cons in Hs as [Hc Hs]. destruct (encode_utf8_cons c Hc) as (b&bs&He).
  pose proof (view_peek _ _ _ Hv) as Hpk. rewrite He in Hpk. simpl in Hpk.
  pose proof (utf8_width_encode c b bs Hc He) as Hw. unfold scan_utf8_codepoint.
  rewrite (bump_Some t b Hpk), Hw. destruct (_ || _); [done|].
  destruct (continuation_bytes _ _) as [[f|] t2] eqn:Hcont.
  { intros [= -> ->]. exfalso. clear -Hcont. revert Hcont.
    generalize (set_pos (S (pos t)) t) (length (b :: bs) - 1)%nat. clear.
    intros u n. revert u. induction n as [|n IH]; intros u; simpl; [done|].
    destruct (bump u) as [[x|] u']; [|done]. case_match; [apply IH|done]. }
  apply continuation_bytes_None in Hcont. simpl in Hcont.
  pose proof (reads_intro t [c] cs Hv) as Hr.
  assert (t2 = set_pos (pos t + length (as_bytes [c])) t) as ->.
  { subst t2. unfold set_pos. simpl. f_equal. rewrite as_bytes_cons, He. simpl.
    rewrite length_app. simpl. lia. }
  rewrite (reads_slice _ _ _ _ Hr), utf8_decode_as_bytes by (by constructor).
  intros [= <- <-]. exists c, cs. split_and!; [done|done|]. f_equal.
  by rewrite <-encode_utf8_length, He.
Qed.

Lemma scan_char_value_reads t cs v t' :
  is_str cs → view t cs → scan_char_value t = (CSValue v, t') →
  ∃ used cs' i, cs = used ++ cs' ∧ reads t t' used cs' ∧ parse_items used = Some [i] ∧
    value v = item_scalar i ∧ byte_len v = Z.of_nat (length (item_bytes i)).
Proof.
  intros Hs Hv. unfold scan_char_value. destruct (peek t) as [b|] eqn:Hb; [|done].
  destruct (b =? SQUOTE); [done|]. destruct (is_newline b); [done|].
  destruct (b =? BACKSLASH) eqn:Hbs.
  - bool_to_prop. subst b. destruct (bump_read t cs BACKSLASH Hs Hv) as (cs1&->&Hs1&Hr1).
    { by rewrite bump_fst. } { lia. }
    pose proof (scan_escape_reads (snd (bump t)) cs1) as Hesc.
    destruct (scan_escape _) as [[[w|]|] t1]; [|done..]. intros [= -> ->].
    destruct (Hesc v t' Hs1 (proj2 Hr1) eq_refl) as (used&cs2&i&->&Hr2&Hp&Hval&Hlen).
    exists (BACKSLASH :: used), cs2, i. split_and!; [done|by eapply (reads_trans _ _ _ [BACKSLASH])| |done|done].
    rewrite parse_items_cons. specialize (Hp []). rewrite app_nil_r in Hp. simpl. by rewrite Hp.
  - intros (c&cs'&->&Hr&->)%(scan_utf8_codepoint_reads t cs); [|done..].
    exists [c], cs', (Plain c). split_and!; [done|done| |done|simpl; by rewrite encode_utf8_length].
    rewrite parse_items_cons. destruct (c =? BACKSLASH) eqn:Hc; [|done]. bool_to_prop. subst c.
    by rewrite (view_peek_ascii _ _ _ Hv ltac:(lia)) in Hb; simplify_eq.
Qed.

Lemma char_lit_decodes st is_byte t cs :
  is_str cs → view t cs → kind (fst (char_lit st is_byte t)) = (if is_byte then TByteChar else TChar) →
  ∃ inner rest i, cs = inner ++ SQUOTE :: rest ∧
    reads t (snd (char_lit st is_byte t)) (inner ++ [SQUOTE]) rest ∧
    parse_items inner = Some [i] ∧ (is_byte = true → length (item_bytes i) = 1%nat).
Proof.
  intros Hs Hv. unfold char_lit.
  destruct (scan_char_value t) as [[v| | |] t1] eqn:Hscan; [|by destruct is_byte..].
  destruct (scan_char_value_reads t cs v t1 Hs Hv Hscan) as (used&cs1&i&->&Hr1&Hits&Hval&Hlen).
  apply is_str_app in Hs as [_ Hs1].
  pose proof (bump_read t1 cs1 SQUOTE Hs1 (proj2 Hr1)) as Hclose.
  destruct (bump t1) as [closing t2]. simpl in Hclose.
  case_bool_decide as Hq; [|by destruct is_byte].
  destruct (Hclose Hq ltac:(lia)) as (cs2&->&_&Hr2). simpl. intros Hkind.
  exists used, cs2, i. split_and!; [done|by eapply reads_trans|done|].
  intros ->. unfold char_kind in Hkind. destruct (_ || _) eqn:Ho; [done|].
  apply orb_false_iff in Ho as [Ho _]. bool_to_prop. lia.
Qed.

(** ** Integers *)

(** The digit runs the lexer accepts: [prev] tells whether a digit precedes, and
    [need] whether a separator does. *)
Fixpoint digit_run (radix : Z) (prev need : bool) (ds : list Z) : bool :=
  match ds with
  | [] => negb need
  | b :: ds =>
    if b =? "_"%B then prev && negb need && digit_run radix false true ds
    else digit_below radix (Some b) && digit_run radix true false ds
  end.

Lemma digit_run_digits radix prev need ds :
  digit_run radix prev need ds = true → forallb (digit_or_sep radix) ds = true.
Proof.
  revert prev need. induction ds as [|b ds IH]; intros prev need; [done|].
  cbn [digit_run forallb]. unfold digit_or_sep at 1. destruct (b =? "_"%B).
  - intros [_ H]%andb_true_iff. by eapply IH.
  - intros [-> H]%andb_true_iff. by eapply IH.
Qed.

Lemma digit_run_seps radix prev need ds i :
  digit_run radix prev need ds = true → ds !! i = Some "_"%B →
  match i with O => prev | S j => digit_below radix (ds !! j) end = true ∧
  digit_below radix (ds !! S i) = true.
Proof.
  revert prev need i. induction ds as [|b ds IH]; intros prev need i; [done|].
  cbn [digit_run]. destruct (b =? "_"%B) eqn:Hb; bool_to_prop.
  - subst b. intros [[-> _]%andb_true_iff H]%andb_true_iff. destruct i as [|i]; simpl.
    + intros _. split; [done|]. destruct ds as [|c ds]; [done|]. cbn [digit_run] in H.
      destruct (c =? _); [done|]. by apply andb_true_iff in H as [? _].
    + intros Hi. destruct (IH _ _ _ H Hi) as [H1 H2]. split; [|done]. by destruct i.
  - intros [Hd H]%andb_true_iff. destruct i as [|i]; simpl; [intros [= ->]; lia|].
    intros Hi. destruct (IH _ _ _ H Hi) as [H1 H2]. split; [|done]. by destruct i.
Qed.

Lemma digit_run_valid radix ds :
  digit_run radix false false ds = true → has_valid_digit_separators ds radix = true.
Proof.
  intros H. unfold has_valid_digit_separators. apply forallb_forall. intros i _.
  destruct (ds !! i) as [b|] eqn:Hi; [|done]. destruct (b =? "_"%B) eqn:Hb; [|done].
  bool_to_prop. subst b. destruct (digit_run_seps _ _ _ _ _ H Hi) as [H1 ->].
  rewrite andb_true_r. by destruct i.
Qed.

Lemma digit_loop_invalid radix prev n t :
  snd (fst (digit_loop radix prev n true t)) = true.
Proof.
  revert prev n. induction t as [t IH] using remaining_ind. intros prev n.
  rewrite digit_loop_unfold. destruct (peek t) as [b|] eqn:Hb; [|done].
  pose proof (bump_remaining t b Hb). cbn zeta. repeat case_match; (done || apply IH; lia).
Qed.

Lemma peek_read t cs b :
  is_str cs → view t cs → peek t = Some b → b < 128 →
  ∃ cs', cs = b :: cs' ∧ is_str cs' ∧ reads t (snd (bump t)) [b] cs'.
Proof. intros Hs Hv Hb. apply bump_read; [done..|]. by rewrite bump_fst. Qed.

Lemma peek_after_bump t b : peek t = Some b → peek (snd (bump t)) = peek_next t.
Proof.
  intros Hb. unfold peek, peek_next. by rewrite (bump_pos t b Hb), (proj1 (bump_advances t)).
Qed.

Lemma digit_loop_reads radix prev need n t cs n' t' :
  (need = true → ∃ b, peek t = Some b ∧ is_radix_digit radix b = true ∧ b ≠ "_"%B) →
  is_str cs → view t cs → digit_loop radix prev n false t = (n', false, t') →
  ∃ ds cs', cs = ds ++ cs' ∧ is_str cs' ∧ reads t t' ds cs' ∧
    digit_run radix prev need ds = true ∧
    (remove_char "_"%B ds = [] → n' = n).
Proof.
  revert prev need n cs. induction t as [t IH] using remaining_ind.
  intros prev need n cs Hneed Hs Hv. rewrite digit_loop_unfold.
  destruct (peek t) as [b|] eqn:Hb.
  2:{ intros [= <- <-]. exists [], cs. split_and!; [done|done|by apply reads_nil| |done].
      destruct need; [|done]. by destruct Hneed as (?&?&_). }
  pose proof (bump_remaining t b Hb) as Hrem. cbn zeta.
  destruct (b =? "_"%B) eqn:Hu.
  { bool_to_prop. subst b. destruct need; [destruct Hneed as (?&?&?&?); [done|]; by simplify_eq|].
    set (nd := match peek_next t with Some b => is_radix_digit radix b | None => false end).
    destruct (negb prev || negb nd) eqn:Hinv.
    { intros Heq. pose proof (digit_loop_invalid radix false n (snd (bump t))) as Hi.
      cbn [orb] in Heq. by rewrite Heq in Hi. }
    apply orb_false_iff in Hinv as [->%negb_false_iff Hnd%negb_false_iff]. intros Heq.
    destruct (peek_read t cs _ Hs Hv Hb ltac:(lia)) as (cs1&->&Hs1&Hr1).
    destruct (IH (snd (bump t)) ltac:(lia) false true n cs1) as (ds&cs'&->&Hs'&Hr&Hd&Hn);
      [|done|apply Hr1|done|].
    { intros _. rewrite (peek_after_bump t _ Hb). subst nd. destruct (peek_next t) as [x|]; [|done].
      exists x. split_and!; [done|done|]. by intros ->. }
    exists ("_"%B :: ds), cs'. split_and!; [done|done|by apply (reads_trans _ _ _ ["_"%B] ds _ _ Hr1)| |].
    { cbn [digit_run]. done. }
    unfold remove_char in *. by rewrite filter_cons, decide_False by tauto. }
  destruct (is_radix_digit radix b) eqn:Hd.
  { pose proof (is_hex_digit_ascii b (is_radix_digit_hex _ _ Hd)). intros Heq.
    destruct (peek_read t cs _ Hs Hv Hb ltac:(lia)) as (cs1&->&Hs1&Hr1).
    destruct (IH (snd (bump t)) ltac:(lia) true false (S n) cs1) as (ds&cs'&->&Hs'&Hr&Hrun&Hn);
      [done|done|apply Hr1|done|].
    exists (b :: ds), cs'. split_and!; [done|done|by apply (reads_trans _ _ _ [b] ds _ _ Hr1)| |].
    { cbn [digit_run]. rewrite Hu, Hrun, andb_true_r. done. }
    unfold remove_char. rewrite filter_cons, decide_True by (bool_to_prop; done). done. }
  destruct (_ && _).
  { intros Heq. pose proof (digit_loop_invalid radix false n (snd (bump t))) as Hi.
    by rewrite Heq in Hi. }
  intros [= <- <-]. exists [], cs. split_and!; [done|done|by apply reads_nil| |done].
  destruct need; [|done]. destruct Hneed as (?&?&?&_); [done|]. congruence.
Qed.

(** The loop stops in front of what is not a digit or a separator. *)
Lemma digit_loop_stops radix prev n inv t n' inv' t' b :
  digit_loop radix prev n inv t = (n', inv', t') → peek t' = Some b →
  b ≠ "_"%B ∧ (if radix =? 10 then is_radix_digit 10 b else is_hex_digit b) = false.
Proof.
  revert prev n inv. induction t as [t IH] using remaining_ind. intros prev n inv.
  rewrite digit_loop_unfold. destruct (peek t) as [c|] eqn:Hc; [|intros [= <- <- <-]; congruence].
  pose proof (bump_remaining t c Hc). cbn zeta.
  destruct (c =? "_"%B) eqn:Hu; [by apply IH; lia|].
  destruct (is_radix_digit radix c) eqn:Hd; [by apply IH; lia|].
  destruct (_ && _) eqn:Hx; [by apply IH; lia|]. intros [= <- <- <-]. rewrite Hc. intros [= <-].
  bool_to_prop. split; [done|]. destruct (Z.eqb_spec radix 10) as [->|]; [done|]. exact Hx.
Qed.

Lemma suffix_reads t cs :
  is_str cs → view t cs →
  ∃ suf cs', cs = suf ++ cs' ∧ reads t (consume_numeric_suffix t) suf cs' ∧
    match suf with [] => True | b :: _ => peek t = Some b ∧ is_ident_start b = true end.
Proof.
  intros Hs Hv. unfold consume_numeric_suffix. destruct (peek_sat is_ident_start t) eqn:Hp.
  2:{ exists [], cs. split_and!; [done|by apply reads_nil|done]. }
  apply peek_sat_true in Hp as (b&Hb&Hst). pose proof (is_ident_start_ascii _ Hst) as Hasc.
  destruct (peek_read t cs b Hs Hv Hb Hasc) as (cs1&->&Hs1&Hr1).
  destruct (bump_while_reads is_ident_continue _ cs1 is_ident_continue_ascii Hs1 (proj2 Hr1))
    as (w&cs2&->&_&Hr2&_).
  exists (b :: w), cs2. split_and!; [done|by apply (reads_trans _ _ _ [b] w _ _ Hr1)|done|done].
Qed.

Lemma int_body_intro radix pre ds suf :
  pre ∈ radix_prefixes radix → digit_run radix false false ds = true → remove_char "_"%B ds ≠ [] →
  int_body_ok (mkIntLiteral radix pre ds suf) = true.
Proof.
  intros Hpre Hrun Hne. unfold int_body_ok. simpl.
  rewrite bool_decide_true, (digit_run_digits _ _ _ _ Hrun), (digit_run_valid _ _ Hrun),
    bool_decide_false by done. done.
Qed.

(** What the lexer reads as an integer token. *)
Definition reads_int (t t' : Tokenizer) (cs : list Z) : Prop :=
  ∃ l rest, cs = il_text l ++ rest ∧ reads t t' (il_text l) rest ∧
    int_body_ok l = true ∧ int_split_ok l = true.

Lemma radix_number_reads st radix t0 t cs pre :
  radix ≠ 10 → pre ∈ radix_prefixes radix → is_str cs → reads t0 t pre cs →
  kind (fst (radix_number st radix t)) = TInteger →
  reads_int t0 (snd (radix_number st radix t)) (pre ++ cs).
Proof.
  intros H10 Hpre Hs Hr0. unfold radix_number, consume_digits.
  destruct (consume_digits_fuel _ radix false 0 false t) as [[n inv] t1] eqn:Hd.
  change (digit_loop radix false 0 false t = (n, inv, t1)) in Hd. simpl. intros Hk.
  destruct ((n =? 0)%nat || inv) eqn:Hinv; [done|].
  apply orb_false_iff in Hinv as [Hn%Nat.eqb_neq ->].
  destruct (digit_loop_reads radix false false 0 t cs n t1) as (ds&cs1&->&Hs1&Hr1&Hrun&Hne);
    [done|done|apply Hr0|done|].
  destruct (suffix_reads t1 cs1 Hs1 (proj2 Hr1)) as (suf&cs2&->&Hr2&Hhead).
  exists (mkIntLiteral radix pre ds suf), cs2. unfold il_text. simpl. split_and!.
  - by rewrite <-!app_assoc.
  - eapply reads_trans; [done|]. by eapply reads_trans.
  - apply int_body_intro; [done|done|]. intros H. by apply Hn, Hne.
  - unfold int_split_ok. simpl. destruct suf as [|b suf]; [done|]. destruct Hhead as [Hb _].
    destruct (digit_loop_stops _ _ _ _ _ _ _ _ b Hd Hb) as [Hu Hdig].
    rewrite (proj2 (Z.eqb_neq b "_"%B) Hu). rewrite (proj2 (Z.eqb_neq radix 10) H10) in *.
    apply negb_true_iff. exact Hdig.
Qed.

Lemma radix_prefix_reads t0 cs radix :
  is_str ("0"%B :: cs) → view t0 ("0"%B :: cs) → radix_prefix (pos t0) (snd (bump t0)) = Some radix →
  ∃ x cs', cs = x :: cs' ∧ is_str cs' ∧ ["0"%B; x] ∈ radix_prefixes radix ∧
    reads t0 (snd (bump (snd (bump t0)))) ["0"%B; x] cs'.
Proof.
  intros [_ Hs]%Forall_cons Hv. pose proof (reads_bump t0 _ cs Hv ltac:(lia)) as Hr.
  set (t := snd (bump t0)) in *. unfold radix_prefix. case_bool_decide; [|done].
  assert (∀ x, peek t = Some x → x < 128 → ["0"%B; x] ∈ radix_prefixes radix →
    ∃ y cs', cs = y :: cs' ∧ is_str cs' ∧ ["0"%B; y] ∈ radix_prefixes radix ∧
      reads t0 (snd (bump t)) ["0"%B; y] cs') as Hx.
  { intros x Hx Hlt Hin. destruct (peek_read t cs x Hs (proj2 Hr) Hx Hlt) as (cs'&->&Hs'&Hr').
    exists x, cs'. split_and!; [done|done|done|]. by apply (reads_trans _ _ _ ["0"%B] [x] _ _ Hr). }
  destruct (_ || _) eqn:H16; [|destruct (peek_is "b"%B t || _) eqn:H2;
    [|destruct (peek_is "o"%B t || _) eqn:H8; [|done]]]; intros [= <-];
    match goal with H : _ || _ = true |- _ =>
      apply orb_true_iff in H as [H%peek_is_true|H%peek_is_true] end;
    (eapply Hx; [done|lia|]); by apply (bool_decide_unpack _).
Qed.

Lemma exponent_none t t' :
  try_scan_exponent t = (None, t') → t' = t ∧ peek t ≠ Some "e"%B ∧ peek t ≠ Some "E"%B.
Proof.
  unfold try_scan_exponent. destruct (_ || _) eqn:He.
  - by destruct (consume_digits _ _ _) as [[? ?] ?].
  - intros [= <-]. apply orb_false_iff in He as [H1 H2]. split_and!; [done|..];
      intros H%peek_is_true; congruence.
Qed.

(** A zero that is not a radix prefix is not followed by the letter of one. *)
Lemma radix_prefix_none t0 c cs :
  view t0 ("0"%B :: c :: cs) → c < 128 → radix_prefix (pos t0) (snd (bump t0)) = None →
  c ∉ ["x"%B; "X"%B; "b"%B; "B"%B; "o"%B; "O"%B].
Proof.
  intros Hv Hc. pose proof (reads_bump t0 _ _ Hv ltac:(lia)) as Hr.
  pose proof (view_peek_ascii _ _ _ (proj2 Hr) Hc) as Hp. unfold radix_prefix.
  rewrite (proj1 (bump_advances t0)).
  rewrite bool_decide_true by (exact (view_peek_ascii _ _ _ Hv ltac:(lia))).
  intros Hnone Hin.
  repeat (apply elem_of_cons in Hin as [->|Hin];
    [repeat match type of Hnone with context [peek_is ?x ?t] =>
       destruct (peek_is x t) eqn:?; simpl in Hnone; try done end;
     match goal with H : peek_is ?x ?t = false |- _ =>
       by rewrite (proj2 (peek_is_true x t) Hp) in H end|]).
  by apply not_elem_of_nil in Hin.
Qed.

Lemma number_reads t0 b cs :
  is_str (b :: cs) → view t0 (b :: cs) → is_ascii_digit b = true →
  kind (fst (number (pos t0) (snd (bump t0)))) = TInteger →
  reads_int t0 (snd (number (pos t0) (snd (bump t0)))) (b :: cs).
Proof.
  intros Hs Hv Hb. pose proof (is_ascii_digit_ascii b Hb) as Hlt.
  pose proof (reads_bump t0 b cs Hv Hlt) as Hr. unfold number.
  destruct (radix_prefix _ _) as [radix|] eqn:Hrad.
  { assert (b = "0"%B) as ->.
    { unfold radix_prefix in Hrad. case_bool_decide as H0; [|done].
      rewrite (proj1 (bump_advances t0)) in H0. change (peek t0 = Some "0"%B) in H0.
      rewrite (view_peek_ascii _ _ _ Hv Hlt) in H0. congruence. }
    destruct (radix_prefix_reads t0 cs radix Hs Hv Hrad) as (x&cs'&->&Hs'&Hpre&Hr').
    apply (radix_number_reads _ _ _ _ cs' ["0"%B; x]); [|done..].
    intros ->. unfold radix_prefix in Hrad. by repeat case_match. }
  apply Forall_cons in Hs as [_ Hs]. set (t := snd (bump t0)) in *. unfold consume_digits at 1.
  unfold consume_digits at 2.
  destruct (consume_digits_fuel _ 10 true 0 false t) as [[n inv] t1] eqn:Hd.
  change (digit_loop 10 true 0 false t = (n, inv, t1)) in Hd.
  destruct (_ && _).
  { destruct (consume_digits 10 false _) as [[? inv'] t2].
    destruct (try_scan_exponent t2) as [ev t3]. by repeat case_match. }
  destruct (try_scan_exponent t1) as [[ok|] t2] eqn:Hexp; [by repeat case_match|].
  apply exponent_none in Hexp as (->&He1&He2). simpl. intros Hk. destruct inv; [done|].
  destruct (digit_loop_reads 10 true false 0 t cs n t1) as (ds&cs1&->&Hs1&Hr1&Hrun&_);
    [done|done|apply Hr|done|].
  destruct (suffix_reads t1 cs1 Hs1 (proj2 Hr1)) as (suf&cs2&->&Hr2&Hhead).
  exists (mkIntLiteral 10 [] (b :: ds) suf), cs2. unfold il_text. simpl. split_and!.
  - by rewrite <-app_assoc.
  - apply (reads_trans _ _ _ [b] (ds ++ suf) _ _ Hr). by eapply reads_trans.
  - assert (b ≠ "_"%B) as Hbne by (intros ->; by vm_compute in Hb).
    apply int_body_intro; [by apply (bool_decide_unpack _)| |].
    + cbn [digit_run]. destruct (b =? "_"%B) eqn:?; [lia|]. rewrite Hrun, andb_true_r.
      unfold is_ascii_digit in Hb. unfold digit_below. simpl. unfold digit_value. rewrite Hb.
      bool_to_prop. lia.
    + unfold remove_char. by rewrite filter_cons, decide_True by done.
  - unfold int_split_ok. simpl. destruct suf as [|c suf]; [done|]. destruct Hhead as [Hc Hst].
    destruct (digit_loop_stops _ _ _ _ _ _ _ _ c Hd Hc) as [Hu Hdig]. simpl in Hdig.
    rewrite (proj2 (Z.eqb_neq c "_"%B) Hu). simpl. apply andb_true_iff. split.
    + apply andb_true_iff. split; apply negb_true_iff.
      * unfold is_radix_digit, Lexer.digit_value in Hdig. unfold is_ascii_digit.
        destruct (_ && _) eqn:H09; [|done]. bool_to_prop. lia.
      * apply bool_decide_eq_false. rewrite !not_elem_of_cons.
        split_and!; [intros ->; by vm_compute in Hst|congruence|congruence|apply not_elem_of_nil].
    + apply negb_true_iff, andb_false_iff. destruct (decide (b :: ds = ["0"%B])) as [[= -> ->]|Hne];
        [right|left; by apply bool_decide_eq_false].
      apply bool_decide_eq_false. apply (radix_prefix_none t0 c (suf ++ cs2)); [done| |done].
      by apply is_ident_start_ascii.
Qed.

(** ** Literal tokens *)

Definition is_literal (k : TokenKind) : bool :=
  match k with TString | TByteString | TChar | TByteChar | TInteger => true | _ => false end.

(** What the decoders make of the text of a literal token. *)
Definition literal_decodes (k : TokenKind) (text : list Z) : Prop :=
  match k with
  | TString => is_Some (decode_string_literal_part text)
  | TByteString => is_Some (decode_byte_string_literal_part text)
  | TChar => is_Some (decode_char_literal text)
  | TByteChar => is_Some (decode_byte_char_literal text)
  | TInteger =>
    ∃ l, text = il_text l ∧ int_body_ok l = true ∧ int_split_ok l = true ∧
      eval_int_literal text =
        if negb (int_suffix_valid l) then Err "invalid integer constant"%string
        else if il_value l <=? u128_max then Ok (il_value l)
        else Err "integer literal is out of range for const evaluation"%string
  | _ => True
  end.

Lemma strip_suffix_char_app c s : strip_suffix_char c (s ++ [c]) = Some s.
Proof. by apply strip_suffix_char_Some. Qed.

Lemma string_part_decodes inner its :
  is_str inner → parse_items inner = Some its →
  literal_decodes TString (DQUOTE :: inner ++ [DQUOTE]).
Proof.
  intros Hs Hits. simpl. rewrite decode_string_literal_part_items.
  - unfold string_inner. simpl. rewrite strip_suffix_char_app. simpl. by rewrite Hits.
  - constructor; [done|]. apply is_str_app. split; [done|]. by repeat constructor.
Qed.

Lemma byte_string_part_decodes inner its :
  parse_items inner = Some its →
  literal_decodes TByteString ("b"%B :: DQUOTE :: inner ++ [DQUOTE]).
Proof.
  intros Hits. simpl. unfold decode_byte_string_literal_part, byte_string_inner. simpl.
  rewrite strip_suffix_char_app. simpl. unfold decode_byte_literal_inner.
  rewrite decode_byte_items. unfold parse_items in Hits. by rewrite Hits.
Qed.

Lemma char_decodes inner i :
  parse_items inner = Some [i] → literal_decodes TChar (SQUOTE :: inner ++ [SQUOTE]).
Proof.
  intros Hits. simpl. unfold decode_char_literal. simpl. rewrite strip_suffix_char_app. simpl.
  unfold decode_scalar_literal_inner. rewrite decode_scalar_items. unfold parse_items in Hits.
  by rewrite Hits.
Qed.

Lemma byte_char_decodes inner i :
  parse_items inner = Some [i] → length (item_bytes i) = 1%nat →
  literal_decodes TByteChar ("b"%B :: SQUOTE :: inner ++ [SQUOTE]).
Proof.
  intros Hits Hlen. simpl. unfold decode_byte_char_literal. simpl.
  rewrite strip_suffix_char_app. simpl. unfold decode_byte_literal_inner.
  rewrite decode_byte_items. unfold parse_items in Hits. rewrite Hits. simpl.
  destruct (item_bytes i) as [|x [|y l]]; done.
Qed.

(** The result of scanning at [t], when it is a literal, decodes. *)
Definition scan_decodes (t : Tokenizer) (cs : list Z) (r : Token * Tokenizer) : Prop :=
  is_literal (kind (fst r)) = true →
  ∃ w rest, cs = w ++ rest ∧ reads t (snd r) w rest ∧ literal_decodes (kind (fst r)) w.

Lemma not_literal t cs r : is_literal (kind (fst r)) = false → scan_decodes t cs r.
Proof. intros H Hlit. congruence. Qed.

Lemma string_literal_kind fuel st k inv t :
  let k' := kind (fst (string_fuel fuel st k inv t)) in k' = k ∨ is_literal k' = false.
Proof.
  revert inv t. induction fuel as [|fuel IH]; intros inv t; [by right|]. cbn [string_fuel].
  destruct (peek t) as [b|]; [|by right]. destruct (b =? DQUOTE).
  { destruct inv; [by right|by left]. }
  destruct (is_newline b); [by right|]. destruct (b =? BACKSLASH); [|apply IH].
  destruct (scan_escape _) as [esc t']. apply IH.
Qed.

Lemma char_literal_kind st is_byte t :
  let k := kind (fst (char_lit st is_byte t)) in
  k = (if is_byte then TByteChar else TChar) ∨ is_literal k = false.
Proof.
  unfold char_lit, char_kind. destruct (scan_char_value t) as [[v| | |] t1]; [|by right..].
  destruct (bump t1) as [c t2]. destruct is_byte; repeat case_match; (by left) || by right.
Qed.

Lemma number_literal_kind st t :
  let k := kind (fst (number st t)) in k = TInteger ∨ is_literal k = false.
Proof.
  unfold number, radix_number. repeat case_match; simplify_eq/=; repeat case_match;
    (by left) || by right.
Qed.

Lemma keyword_not_literal text : is_literal (keyword_kind text) = false.
Proof.
  unfold keyword_kind. destruct (list_find _ _) as [[i [w k]]|] eqn:Hf; [|done].
  apply list_find_Some in Hf as (Hi&_&_). apply list_elem_of_lookup_2 in Hi. simpl in *.
  assert (Forall (λ p, is_literal p.2 = false) keyword_table) as Hall by (by repeat constructor).
  rewrite Forall_forall in Hall. exact (Hall _ Hi).
Qed.

Lemma string_scan_decodes t0 t cs st :
  is_str cs → reads t0 t [DQUOTE] cs →
  scan_decodes t0 (DQUOTE :: cs) (string_lit st TString t).
Proof.
  intros Hs Hr Hlit. destruct (string_literal_kind (S (remaining t)) st TString false t) as [Hk|Hk].
  2:{ unfold string_lit in Hlit. congruence. }
  destruct (string_loop_decodes st TString t cs) as (inner&rest&its&->&Hr'&Hits);
    [by intros e|done|apply Hr|done|].
  exists (DQUOTE :: inner ++ [DQUOTE]), rest. split_and!.
  - simpl. by rewrite <-app_assoc.
  - by apply (reads_trans _ _ _ [DQUOTE] (inner ++ [DQUOTE]) _ _ Hr).
  - unfold string_lit. rewrite Hk. eapply string_part_decodes; [|done].
    by apply is_str_app in Hs as [? _].
Qed.

Lemma byte_string_scan_decodes t0 t cs st :
  is_str cs → reads t0 t ["b"%B; DQUOTE] cs →
  scan_decodes t0 ("b"%B :: DQUOTE :: cs) (string_lit st TByteString t).
Proof.
  intros Hs Hr Hlit.
  destruct (string_literal_kind (S (remaining t)) st TByteString false t) as [Hk|Hk].
  2:{ unfold string_lit in Hlit. congruence. }
  destruct (string_loop_decodes st TByteString t cs) as (inner&rest&its&->&Hr'&Hits);
    [by intros e|done|apply Hr|done|].
  exists ("b"%B :: DQUOTE :: inner ++ [DQUOTE]), rest. split_and!.
  - simpl. by rewrite <-app_assoc.
  - by apply (reads_trans _ _ _ ["b"%B; DQUOTE] (inner ++ [DQUOTE]) _ _ Hr).
  - unfold string_lit. rewrite Hk. by eapply byte_string_part_decodes.
Qed.

Lemma char_scan_decodes t0 t cs st (is_byte : bool) :
  let pre := if is_byte then ["b"%B; SQUOTE] else [SQUOTE] in
  is_str cs → reads t0 t pre cs → scan_decodes t0 (pre ++ cs) (char_lit st is_byte t).
Proof.
  intros pre Hs Hr Hlit. destruct (char_literal_kind st is_byte t) as [Hk|Hk]; [|congruence].
  destruct (char_lit_decodes st is_byte t cs) as (inner&rest&i&->&Hr'&Hits&Hlen);
    [done|apply Hr|done|].
  exists (pre ++ inner ++ [SQUOTE]), rest. split_and!.
  - by rewrite <-!app_assoc.
  - by eapply reads_trans.
  - rewrite Hk. destruct is_byte; [by eapply byte_char_decodes, Hlen|by eapply char_decodes].
Qed.

Lemma number_scan_decodes t cs b :
  is_str (b :: cs) → view t (b :: cs) → is_ascii_digit b = true →
  scan_decodes t (b :: cs) (number (pos t) (snd (bump t))).
Proof.
  intros Hs Hv Hb Hlit. destruct (number_literal_kind (pos t) (snd (bump t))) as [Hk|Hk]; [|congruence].
  destruct (number_reads t b cs Hs Hv Hb Hk) as (l&rest&->&Hr&Hok&Hsplit).
  exists (il_text l), rest. split_and!; [done|done|]. rewrite Hk. exists l.
  split_and!; [done..|]. by apply int_token_value.
Qed.

Lemma scan_token_decodes t cs b :
  is_str cs → view t cs → peek t = Some b → scan_decodes t cs (scan_token t).
Proof.
  intros Hs Hv Hb. unfold scan_token. pose proof (bump_Some t b Hb) as Hbump.
  assert (set_pos (S (pos t)) t = snd (bump t)) as Ht1 by (by rewrite Hbump).
  rewrite Hbump, Ht1. clear Hbump Ht1. pose proof (peek_read t cs b Hs Hv Hb) as Hread.
  destruct (_ && peek_is DQUOTE _) eqn:Hbq.
  { apply andb_true_iff in Hbq as [->%Z.eqb_eq Hq%peek_is_true].
    destruct Hread as (cs1&->&Hs1&Hr1); [lia|].
    destruct (peek_read _ cs1 _ Hs1 (proj2 Hr1) Hq) as (cs2&->&Hs2&Hr2); [lia|].
    apply byte_string_scan_decodes; [done|]. by apply (reads_trans _ _ _ ["b"%B] [DQUOTE] _ _ Hr1). }
  destruct (_ && peek_is SQUOTE _) eqn:Hbs.
  { apply andb_true_iff in Hbs as [->%Z.eqb_eq Hq%peek_is_true].
    destruct Hread as (cs1&->&Hs1&Hr1); [lia|].
    destruct (peek_read _ cs1 _ Hs1 (proj2 Hr1) Hq) as (cs2&->&Hs2&Hr2); [lia|].
    apply (char_scan_decodes _ _ cs2 _ true); [done|]. by apply (reads_trans _ _ _ ["b"%B] [SQUOTE] _ _ Hr1). }
  destruct (is_ascii_alphabetic b); [apply not_literal, keyword_not_literal|].
  destruct (b =? "_"%B).
  { case_match; apply not_literal; [apply keyword_not_literal|done]. }
  destruct (is_ascii_digit b) eqn:Hdig.
  { destruct Hread as (cs1&->&Hs1&Hr1); [by apply is_ascii_digit_ascii|].
    by apply number_scan_decodes. }
  destruct (b =? DQUOTE) eqn:Hq; bool_to_prop.
  { subst b. destruct Hread as (cs1&->&Hs1&Hr1); [lia|]. by apply string_scan_decodes. }
  destruct (b =? BACKSLASH); [by apply not_literal|].
  destruct (b =? SQUOTE) eqn:Hsq; bool_to_prop.
  { subst b. destruct Hread as (cs1&->&Hs1&Hr1); [lia|].
    by apply (char_scan_decodes _ _ cs1 _ false). }
  apply not_literal. clear. unfold maybe_eq.
  repeat match goal with |- is_literal (kind (fst (if b =? ?x then _ else _))) = _ =>
    destruct (b =? x); [repeat case_match; done|] end. done.
Qed.

(** ** The stream *)

Lemma safe_view s t : is_str s → safe s t → ∃ cs, is_str cs ∧ view t cs.
Proof.
  intros Hs [Hsrc Hb]. destruct (boundary_elim s (pos t) Hs Hb) as (s1&s2&->&Hp).
  exists s2. split; [by apply is_str_app in Hs as [_ ?]|].
  unfold view. by rewrite Hsrc, Hp, as_bytes_app, drop_app_length.
Qed.

Definition token_decodes (s : list Z) (tok : LosslessToken) : Prop :=
  ∀ k, lkind tok = LToken k → is_literal k = true →
  ∃ text, span_text (as_bytes s) (lspan tok) = as_bytes text ∧ literal_decodes k text.

Lemma next_lossless_token_decodes s t tok t' b :
  is_str s → safe s t → peek t = Some b → next_lossless_token t = (tok, t') → token_decodes s tok.
Proof.
  intros Hs Ht Hb Hnext. pose proof (next_lossless_token_step s Hs t b Ht Hb) as (Hsp&_).
  rewrite Hnext in Hsp. simpl in Hsp. destruct (safe_view s t Hs Ht) as (cs&Hcs&Hv).
  pose proof (scan_token_decodes t cs b Hcs Hv Hb) as Hdec. revert Hnext.
  unfold next_lossless_token, token_decodes. rewrite Hb.
  destruct (is_ascii_whitespace b); [intros; by simplify_eq/=|].
  destruct (_ && _); [intros; by simplify_eq/=|]. unfold next_token.
  destruct (scan_token t) as [tk t1]. intros Hnext k Hk Hlit. simplify_eq/=.
  destruct (Hdec Hlit) as (w&rest&_&((_&_&Hw)&_)&Hd). simpl in *.
  exists w. split; [|done]. rewrite Hsp. unfold span_text. simpl. by rewrite <-(proj1 Ht).
Qed.

Lemma lossless_stream_decodes s t fuel toks :
  is_str s → safe s t → tokenize_lossless_fuel fuel t = Some toks → Forall (token_decodes s) toks.
Proof.
  intros Hs. revert t toks. induction fuel as [|fuel IH]; intros t toks Ht; [done|].
  cbn [tokenize_lossless_fuel]. destruct (peek t) as [b|] eqn:Hb.
  - pose proof (next_lossless_token_step s Hs t b Ht Hb) as (_&Hk&_&Ht').
    pose proof (next_lossless_token_decodes s t) as Hdec.
    destruct (next_lossless_token t) as [tok t']. simpl in *.
    destruct (tokenize_lossless_fuel fuel t') as [toks'|] eqn:Hrest.
    2:{ repeat case_match; intros; by simplify_eq/=. }
    intros Htoks. assert (toks = tok :: toks') as ->.
    { repeat case_match; by simplify_eq/=. }
    constructor; [|by eapply IH]. by eapply Hdec.
  - rewrite (next_lossless_token_eof t Hb). simpl. intros [= <-]. constructor; [|done].
    intros k. simpl. by intros [= <-].
Qed.

(** C30: every string, byte-string, character and byte-character token decodes,
    and every integer token splits into a radix prefix, its longest run of digits and
    separators, and a suffix: with no suffix or an integer suffix it evaluates to its
    positional value or is out of range, with any other suffix it is an invalid
    constant. *)
Theorem literal_tokens_decode (text : list Z) (Htext : is_str text) :
  ∃ toks, tokenize_lossless text = Some toks ∧ Forall (token_decodes text) toks.
Proof.
  destruct (lossless_stream text Htext (new text) (S (length (as_bytes text))))
    as (toks&Htoks&_); [by apply new_safe|rewrite new_remaining; lia|].
  exists toks. split; [done|]. eapply lossless_stream_decodes; [done|by apply new_safe|done].
Qed.

Lemma literal_tokens_decode_witness :
  ∃ toks, tokenize_lossless sample_source = Some toks ∧ Forall (token_decodes sample_source) toks.
Proof. apply literal_tokens_decode, is_str_b_spec. reflexivity. Defined.
