(* ===== verification/Target.v ===== *)
(** * nia-target: the maintained compilation targets

    [crates/nia-target/src/lib.rs].  A target is an architecture and an operating
    system; every other property derives from them.  The host a compiler was
    built for is fixed by the Rust build, not by this code, and is left out. *)

From S2P Require Import Prelude.
From stdpp Require Import pretty.

Inductive Arch : Type := X86 | X86_64 | Aarch64.
Inductive Os : Type := Linux | Windows | Macos.
Inductive Endian : Type := Little | Big.
Inductive ObjectFormat : Type := Elf | Coff | MachO.

#[global] Instance Arch_eq_dec : EqDecision Arch.
Proof. solve_decision. Defined.
#[global] Instance Os_eq_dec : EqDecision Os.
Proof. solve_decision. Defined.
#[global] Instance Endian_eq_dec : EqDecision Endian.
Proof. solve_decision. Defined.
#[global] Instance ObjectFormat_eq_dec : EqDecision ObjectFormat.
Proof. solve_decision. Defined.

Definition arch_name (a : Arch) : string :=
  match a with X86 => "x86" | X86_64 => "x86_64" | Aarch64 => "aarch64" end%string.

Definition arch_pointer_width (a : Arch) : Z :=
  match a with X86 => 32 | X86_64 | Aarch64 => 64 end.

Definition os_name (o : Os) : string :=
  match o with Linux => "linux" | Windows => "windows" | Macos => "macos" end%string.

Definition endian_name (e : Endian) : string :=
  match e with Little => "little" | Big => "big" end%string.

Record OsVersion := mkOsVersion { major : Z; minor : Z }.

#[global] Instance OsVersion_eq_dec : EqDecision OsVersion.
Proof. solve_decision. Defined.

(** [Display] of a version. *)
Definition os_version_display (v : OsVersion) : string :=
  (pretty (major v) ++ "." ++ pretty (minor v))%string.

Definition MACOS_MINIMUM : OsVersion := mkOsVersion 15 0.

Record TargetConfig := mkTarget { arch : Arch; os : Os }.

#[global] Instance TargetConfig_eq_dec : EqDecision TargetConfig.
Proof. solve_decision. Defined.

Definition SUPPORTED_TARGETS : list TargetConfig :=
  [mkTarget X86_64 Linux; mkTarget X86 Linux; mkTarget Aarch64 Linux;
   mkTarget X86_64 Windows; mkTarget X86_64 Macos; mkTarget Aarch64 Macos].

Record UnsupportedTarget := mkUnsupported { unsupported_name : string }.

(** [TargetConfig::new]. *)
Definition target_new (a : Arch) (o : Os) : option TargetConfig :=
  let target := mkTarget a o in
  if bool_decide (target ∈ SUPPORTED_TARGETS) then Some target else None.

Definition vendor (t : TargetConfig) : string :=
  match os t with Linux => "unknown" | Windows => "pc" | Macos => "apple" end%string.

Definition env (t : TargetConfig) : string :=
  match os t with Windows => "msvc" | Linux | Macos => "" end%string.

Definition endian (t : TargetConfig) : Endian := Little.

Definition pointer_width (t : TargetConfig) : Z := arch_pointer_width (arch t).

Definition object_format (t : TargetConfig) : ObjectFormat :=
  match os t with Linux => Elf | Windows => Coff | Macos => MachO end.

Definition executable_extension (t : TargetConfig) : string :=
  match os t with Windows => "exe" | Linux | Macos => "" end%string.

Definition minimum_os_version (t : TargetConfig) : option OsVersion :=
  match os t with Macos => Some MACOS_MINIMUM | Linux | Windows => None end.

(** [TargetConfig::name]. *)
Definition target_name (t : TargetConfig) : string :=
  let name := (arch_name (arch t) ++ "-" ++ vendor t ++ "-" ++ os_name (os t))%string in
  if String.eqb (env t) EmptyString then name else (name ++ "-" ++ env t)%string.

(** [TargetConfig::parse]. *)
Definition target_parse (name : string) : Result UnsupportedTarget TargetConfig :=
  ok_or (snd <$> list_find (λ t, target_name t = name) SUPPORTED_TARGETS) (mkUnsupported name).

(** [TargetConfig::matrix_index]; [None] is the panic of [expect]. *)
Definition matrix_index (t : TargetConfig) : option nat :=
  fst <$> list_find (λ t', t' = t) SUPPORTED_TARGETS.

(** The LLVM target triple. *)
Definition llvm_triple (t : TargetConfig) : string :=
  match os t with
  | Linux =>
    match arch t with X86 => "i686" | X86_64 => "x86_64" | Aarch64 => "aarch64" end
    ++ "-unknown-linux"
  | Windows => arch_name (arch t) ++ "-pc-windows-msvc"
  | Macos =>
    match arch t with Aarch64 => "arm64" | X86 | X86_64 => arch_name (arch t) end
    ++ "-apple-macosx" ++ os_version_display MACOS_MINIMUM ++ ".0"
  end%string.

Definition baseline_cpu (t : TargetConfig) : string :=
  match arch t, os t with
  | X86, _ => "i686"
  | X86_64, Macos => "core2"
  | X86_64, _ => "x86-64"
  | Aarch64, Macos => "apple-m1"
  | Aarch64, _ => "generic"
  end%string.

(** ** Properties *)

Example macos_triple :
  llvm_triple (mkTarget Aarch64 Macos) = "arm64-apple-macosx15.0.0"%string.
Proof. reflexivity. Qed.

(** The targets a name or a pair of components can select. *)
Lemma target_new_Some a o t : target_new a o = Some t ↔ t = mkTarget a o ∧ t ∈ SUPPORTED_TARGETS.
Proof. unfold target_new. case_bool_decide; naive_solver. Qed.

Lemma supported_ind (P : TargetConfig → bool) :
  forallb P SUPPORTED_TARGETS = true → ∀ t, t ∈ SUPPORTED_TARGETS → P t = true.
Proof. intros H t Ht. rewrite forallb_forall in H. by apply H, list_elem_of_In. Qed.

(** The checks of one target: its name parses back to it, its components select
    it, and its index in the matrix finds it. *)
Definition target_roundtrips (t : TargetConfig) : bool :=
  match target_parse (target_name t) with Ok t' => bool_decide (t' = t) | Err _ => false end
  && bool_decide (target_new (arch t) (os t) = Some t)
  && match matrix_index t with
     | Some i => bool_decide (SUPPORTED_TARGETS !! i = Some t)
     | None => false
     end.

(** Target names are canonical: a name parses exactly when it is the name of
    a maintained target, and then to that target; every target selectable from
    its components has such a name and a position in the matrix. *)
Theorem target_parse_canonical (name : string) (t : TargetConfig) :
  (target_parse name = Ok t ↔ t ∈ SUPPORTED_TARGETS ∧ target_name t = name) ∧
  (target_new (arch t) (os t) = Some t ↔ t ∈ SUPPORTED_TARGETS) ∧
  (t ∈ SUPPORTED_TARGETS ↔ ∃ i, matrix_index t = Some i ∧ SUPPORTED_TARGETS !! i = Some t).
Proof.
  split_and!.
  - unfold target_parse. split.
    + destruct (list_find _ _) as [[i t']|] eqn:Hf; [|done]. simpl. intros [= ->].
      apply list_find_Some in Hf as (Hi&Hn&_). split; [by eapply list_elem_of_lookup_2|done].
    + intros [Ht <-]. apply supported_ind with (P := target_roundtrips) in Ht; [|reflexivity].
      unfold target_roundtrips, target_parse in Ht.
      destruct (ok_or _ _) as [t'|]; [|done]. bool_to_prop.
      by match goal with H : bool_decide (_ = t) = true |- _ => apply bool_decide_eq_true in H as -> end.
  - rewrite target_new_Some. destruct t; naive_solver.
  - split.
    + intros Ht. apply supported_ind with (P := target_roundtrips) in Ht; [|reflexivity].
      unfold target_roundtrips in Ht. destruct (matrix_index t) as [i|]; bool_to_prop; [|done].
      exists i. split; [done|]. by eapply bool_decide_eq_true.
    + intros (i&_&Hi). by eapply list_elem_of_lookup_2.
Qed.
