(* ===== verification/Ty.v ===== *)
(** * nia-ty: primitive types and integer constants

    The primitive types, range kinds and integer constants of
    [crates/nia-ty/src/lib.rs], with the [LayoutBuiltin] of [nia-ids].  An
    [IntConst] is 128 bits with a signedness; its bits are kept as a [Z] in
    [0 .. 2^128). *)

From S2P Require Import Prelude RustStd.

(** ** Primitive types *)

Inductive PrimitiveTy : Type :=
  | I8 | I16 | I32 | I64 | I128 | Isize
  | U8 | U16 | U32 | U64 | U128 | Usize
  | F32 | F64 | Bool | Char | Never.

#[global] Instance PrimitiveTy_eq_dec : EqDecision PrimitiveTy.
Proof. solve_decision. Defined.

Inductive RangeTyKind : Type :=
  | Exclusive | Inclusive | RFrom | RTo | ToInclusive | Full.

#[global] Instance RangeTyKind_eq_dec : EqDecision RangeTyKind.
Proof. solve_decision. Defined.

Inductive LayoutBuiltin : Type := LSize | LAlign.

(** [PrimitiveTy::name]. *)
Definition primitive_name (p : PrimitiveTy) : string :=
  match p with
  | I8 => "i8" | I16 => "i16" | I32 => "i32" | I64 => "i64" | I128 => "i128"
  | Isize => "isize"
  | U8 => "u8" | U16 => "u16" | U32 => "u32" | U64 => "u64" | U128 => "u128"
  | Usize => "usize"
  | F32 => "f32" | F64 => "f64" | Bool => "bool" | Char => "char" | Never => "!"
  end%string.

(** The arms of [PrimitiveTy::from_name]. *)
Definition primitive_table : list (string * PrimitiveTy) :=
  [("i8", I8); ("i16", I16); ("i32", I32); ("i64", I64); ("i128", I128); ("isize", Isize);
   ("u8", U8); ("u16", U16); ("u32", U32); ("u64", U64); ("u128", U128); ("usize", Usize);
   ("f32", F32); ("f64", F64); ("bool", Bool); ("char", Char); ("!", Never)]%string.

Definition primitive_from_name (name : string) : option PrimitiveTy :=
  (λ e, e.2.2) <$> list_find (λ e, e.1 = name) primitive_table.

Definition is_vector_element (p : PrimitiveTy) : bool :=
  match p with Char | Never => false | _ => true end.

Definition vector_element_from_name (name : string) : option PrimitiveTy :=
  p ← primitive_from_name name; if is_vector_element p then Some p else None.

Definition is_integer (p : PrimitiveTy) : bool :=
  match p with
  | I8 | I16 | I32 | I64 | I128 | Isize | U8 | U16 | U32 | U64 | U128 | Usize => true
  | _ => false
  end.

Definition is_signed_integer (p : PrimitiveTy) : bool :=
  match p with I8 | I16 | I32 | I64 | I128 | Isize => true | _ => false end.

Definition integer_bits (p : PrimitiveTy) (pointer_width : Z) : option Z :=
  match p with
  | I8 | U8 => Some 8
  | I16 | U16 => Some 16
  | I32 | U32 => Some 32
  | I64 | U64 => Some 64
  | I128 | U128 => Some 128
  | Isize | Usize => Some pointer_width
  | _ => None
  end.

Definition is_float (p : PrimitiveTy) : bool :=
  match p with F32 | F64 => true | _ => false end.

Definition integer_mask (bits : Z) : Z :=
  if 128 <=? bits then u128_max else Z.shiftl 1 bits - 1.

(** ** Integer constants *)

(** [x as i128] and [x as u128]: reinterpretation of 128 bits. *)
Definition as_signed128 (x : Z) : Z := if x <? 2 ^ 127 then x else x - 2 ^ 128.
Definition as_unsigned128 (x : Z) : Z := x mod 2 ^ 128.

Record IntConst := mkInt { bits : Z; signed : bool }.

#[global] Instance IntConst_eq_dec : EqDecision IntConst.
Proof. solve_decision. Defined.

Definition signed_bits (b : Z) : IntConst := mkInt b true.
Definition from_i128 (v : Z) : IntConst := signed_bits (as_unsigned128 v).
Definition unsigned (b : Z) : IntConst := mkInt b false.

(** [i128::try_from] and [u128::try_from]. *)
Definition i128_try (x : Z) : option Z := checked i128_min i128_max x.
Definition u128_try (x : Z) : option Z := checked 0 u128_max x.

Definition as_i128 (c : IntConst) : option Z :=
  if signed c then Some (as_signed128 (bits c)) else i128_try (bits c).

Definition fits_primitive_int (c : IntConst) (p : PrimitiveTy) (pointer_width : Z) : bool :=
  match integer_bits p pointer_width with
  | None => false
  | Some b =>
    if negb ((1 <=? b) && (b <=? 128)) then false
    else if is_signed_integer p then
      match as_i128 c with
      | None => false
      | Some v =>
        (b =? 128) || ((- Z.shiftl 1 (b - 1) <=? v) && (v <=? Z.shiftl 1 (b - 1) - 1))
      end
    else
      match (if signed c then as_i128 c ≫= u128_try else Some (bits c)) with
      | Some v => (b =? 128) || (v <? Z.shiftl 1 b)
      | None => false
      end
  end.

Definition cast_to_primitive_int (c : IntConst) (p : PrimitiveTy) (pointer_width : Z) :
    option IntConst :=
  b ← integer_bits p pointer_width;
  let mask := integer_mask b in
  let b := Z.land (bits c) mask in
  if is_signed_integer p then Some (signed_bits b) else Some (unsigned b).

(** ** The value of a constant *)

(** The bits are those of a [u128]. *)
Definition int_wf (c : IntConst) : Prop := 0 ≤ bits c < 2 ^ 128.

(** The mathematical value. *)
Definition int_value (c : IntConst) : Z :=
  if signed c then as_signed128 (bits c) else bits c.

(** The range of a primitive integer type of [b] bits. *)
Definition in_range (sgn : bool) (b v : Z) : Prop :=
  if sgn then - 2 ^ (b - 1) ≤ v < 2 ^ (b - 1) else 0 ≤ v < 2 ^ b.

#[global] Instance in_range_dec sgn b v : Decision (in_range sgn b v).
Proof. unfold in_range. destruct sgn; apply _. Defined.
#[global] Arguments in_range : simpl never.
#[global] Arguments in_range_dec : simpl never.

Lemma as_signed128_range x : 0 ≤ x < 2 ^ 128 → - 2 ^ 127 ≤ as_signed128 x < 2 ^ 127.
Proof. unfold as_signed128. case_match; bool_to_prop; lia. Qed.

Lemma as_signed_unsigned v : - 2 ^ 127 ≤ v < 2 ^ 127 → as_signed128 (as_unsigned128 v) = v.
Proof.
  intros. unfold as_signed128, as_unsigned128. destruct (decide (0 ≤ v)).
  - rewrite Z.mod_small by lia. case_match; bool_to_prop; lia.
  - replace (v mod 2 ^ 128) with (v + 2 ^ 128).
    + case_match; bool_to_prop; lia.
    + apply (Z.mod_unique_pos _ _ (-1)); lia.
Qed.

Lemma from_i128_wf v : int_wf (from_i128 v).
Proof. unfold int_wf, from_i128, as_unsigned128. simpl bits. apply Z.mod_pos_bound. lia. Qed.

Lemma from_i128_value v : - 2 ^ 127 ≤ v < 2 ^ 127 → int_value (from_i128 v) = v.
Proof. intros. unfold int_value. simpl. by apply as_signed_unsigned. Qed.

Lemma int_value_range c : int_wf c → - 2 ^ 127 ≤ int_value c < 2 ^ 128.
Proof.
  unfold int_wf, int_value. intros. destruct (signed c); [|lia].
  pose proof (as_signed128_range (bits c)). lia.
Qed.

(** [as_i128] is the value, when it is an [i128]. *)
Lemma as_i128_spec c :
  int_wf c → as_i128 c = if bool_decide (in_range true 128 (int_value c)) then Some (int_value c) else None.
Proof.
  unfold int_wf, as_i128, int_value, in_range, i128_try, i128_min, i128_max. intros Hwf.
  pose proof (as_signed128_range (bits c) Hwf).
  destruct (signed c); simpl Z.sub; case_bool_decide; try lia; try done.
  - by apply checked_in; lia.
  - apply checked_None. lia.
Qed.

(** The value as a [u128], when it is one. *)
Lemma unsigned_value_spec c :
  int_wf c →
  (if signed c then as_i128 c ≫= u128_try else Some (bits c)) =
    if bool_decide (0 ≤ int_value c) then Some (int_value c) else None.
Proof.
  intros Hwf. pose proof (as_signed128_range (bits c) Hwf). unfold as_i128, int_value, int_wf in *.
  destruct (signed c); [|by rewrite bool_decide_true by lia]. simpl. unfold u128_try, u128_max.
  case_bool_decide; [apply checked_in; lia|apply checked_None; lia].
Qed.

(** [fits_primitive_int] decides membership in the range of the type. *)
Lemma fits_primitive_int_spec c p w b :
  int_wf c → integer_bits p w = Some b → 1 ≤ b ≤ 128 →
  fits_primitive_int c p w = bool_decide (in_range (is_signed_integer p) b (int_value c)).
Proof.
  intros Hwf Hb Hr. unfold fits_primitive_int. rewrite Hb.
  destruct (negb _) eqn:Hn; bool_to_prop; [apply andb_false_iff in Hn as [?|?]; bool_to_prop; lia|].
  pose proof (int_value_range c Hwf) as Hv. rewrite unsigned_value_spec, as_i128_spec by done.
  rewrite !Z.shiftl_1_l. unfold in_range.
  assert (2 ^ (b - 1) ≤ 2 ^ 127) by (apply Z.pow_le_mono_r; lia).
  assert (2 ^ b ≤ 2 ^ 128) by (apply Z.pow_le_mono_r; lia).
  change (128 - 1) with 127. destruct (is_signed_integer p).
  - case_bool_decide as Hc1; case_bool_decide as Hc2; try lia.
    destruct (b =? 128) eqn:?; bool_to_prop; [subst b; change (128 - 1) with 127 in *; lia|].
    simpl. apply andb_false_iff. rewrite !Z.leb_gt. lia.
  - case_bool_decide as Hc1; case_bool_decide as Hc2; try lia; try done.
    destruct (b =? 128) eqn:?; bool_to_prop; [subst b; lia|]. lia.
Qed.
