(* ===== verification/ConstNumeric.v ===== *)
(** * nia-const-eval: integer operations of constant evaluation

    [crates/nia-const-eval/src/numeric.rs] and the shifts of [literals.rs].
    Values of [i128] and [u128] are [Z] in the range of the type; the checked
    operations of the source are [checked] at these ranges, and the casts and
    wrapping shifts are written out.  Floating-point operations and the equality
    of aggregate values are not modelled. *)

From S2P Require Import Prelude RustStd Ty Lexer.

(** ** Operators and semantics *)

Inductive ConstBinaryOp : Type :=
  | Mul | Div | Rem | Add | Sub | Shl | Shr
  | Lt | Le | Gt | Ge | Eq | Ne
  | BitAnd | BitXor | BitOr | And | Or.

#[global] Instance ConstBinaryOp_eq_dec : EqDecision ConstBinaryOp.
Proof. solve_decision. Defined.

(** The derived [Debug] name. *)
Definition op_debug (op : ConstBinaryOp) : string :=
  match op with
  | Mul => "Mul" | Div => "Div" | Rem => "Rem" | Add => "Add" | Sub => "Sub"
  | Shl => "Shl" | Shr => "Shr" | Lt => "Lt" | Le => "Le" | Gt => "Gt" | Ge => "Ge"
  | Eq => "Eq" | Ne => "Ne" | BitAnd => "BitAnd" | BitXor => "BitXor" | BitOr => "BitOr"
  | And => "And" | Or => "Or"
  end%string.

Record ConstIntegerSemantics := mkSemantics { sem_bits : Z; sem_signed : bool }.

Record ConstError := mkConstError { error_span : Span; message : string }.

(** ** Checked host arithmetic *)

Definition checked_i128 (v : Z) : option Z := checked i128_min i128_max v.
Definition checked_u128 (v : Z) : option Z := checked 0 u128_max v.
Definition try_u32 (v : Z) : option Z := checked 0 u32_max v.

(** [i128::checked_rem]: [None] also when the quotient overflows. *)
Definition checked_rem_i128 (a b : Z) : option Z :=
  if (b =? 0) || ((a =? i128_min) && (b =? -1)) then None else Some (Z.rem a b).

Definition option_filter {A} (p : A → bool) (o : option A) : option A :=
  match o with Some a => if p a then Some a else None | None => None end.

(** ** Shifts *)

Definition shift_range_message : string := "shift count is out of range in const expression".
Definition shl_overflow_message : string := "integer overflow in const left shift".
Definition shr_overflow_message : string := "integer overflow in const right shift".

Definition checked_signed_left_shift (lhs rhs b : Z) : option Z :=
  if negb ((1 <=? b) && (b <=? 128)) || (b <=? rhs) then None
  else
    let negative_limit := Z.shiftl 1 (b - 1) in
    let magnitude_limit :=
      Z.shiftr (if lhs <? 0 then negative_limit else negative_limit - 1) rhs in
    if magnitude_limit <? Z.abs lhs then None
    else Some (as_signed128 (as_unsigned128 (Z.shiftl lhs rhs))).

Definition checked_unsigned_left_shift (lhs rhs b : Z) : option Z :=
  if negb ((1 <=? b) && (b <=? 128)) || (b <=? rhs) then None
  else
    let mask := if b =? 128 then u128_max else Z.shiftl 1 b - 1 in
    if (mask <? lhs) || (Z.shiftr mask rhs <? lhs) then None
    else Some (as_unsigned128 (Z.shiftl lhs rhs)).

(** The [checked_shr] of a count below 128 succeeds. *)
Definition checked_shift (lhs rhs : Z) (is_left : bool) : Result string Z :=
  match try_u32 rhs with
  | None => Err shift_range_message
  | Some rhs =>
    if 128 <=? rhs then Err shift_range_message
    else if is_left then ok_or (checked_signed_left_shift lhs rhs 128) shl_overflow_message
    else ok_or (if rhs <? 128 then Some (Z.shiftr lhs rhs) else None) shr_overflow_message
  end.

Definition checked_shift_u128 (lhs rhs : Z) (is_left : bool) : Result string Z :=
  match try_u32 rhs with
  | None => Err shift_range_message
  | Some rhs =>
    if 128 <=? rhs then Err shift_range_message
    else if is_left then ok_or (checked_unsigned_left_shift lhs rhs 128) shl_overflow_message
    else ok_or (if rhs <? 128 then Some (Z.shiftr lhs rhs) else None) shr_overflow_message
  end.

(** ** Bitwise not *)

Definition not128 (x : Z) : Z := as_unsigned128 (Z.lnot x).

Definition const_bit_not (value : IntConst) : IntConst :=
  if signed value then
    from_i128 (Z.lnot (default (as_signed128 (bits value)) (as_i128 value)))
  else unsigned (not128 (bits value)).

Definition const_typed_bit_not (value : IntConst) (semantics : option ConstIntegerSemantics) :
    Result string IntConst :=
  match semantics with
  | None => Ok (const_bit_not value)
  | Some sem =>
    let b := sem_bits sem in
    match (if (1 <=? b) && (b <=? 127) then Some (Z.shiftl 1 b - 1)
           else if b =? 128 then Some u128_max else None) with
    | None => Err "invalid integer width in const bitwise not semantics"%string
    | Some mask =>
      let bs := Z.land (not128 (bits value)) mask in
      if sem_signed sem then
        let shift := 128 - b in
        Ok (from_i128 (Z.shiftr (as_signed128 (as_unsigned128 (Z.shiftl bs shift))) shift))
      else Ok (unsigned bs)
    end
  end.

(** ** Conversions *)

Definition int_to_array_len (span : Span) (value : IntConst) : Result ConstError Z :=
  match as_i128 value with
  | None => Err (mkConstError span "array length is too large")
  | Some v =>
    if v <? 0 then Err (mkConstError span "array length must be non-negative")
    else ok_or (checked 0 u64_max v) (mkConstError span "array length is too large")
  end.

Definition int_to_i128 (value : IntConst) (context : string) : Result string Z :=
  ok_or (as_i128 value) ("integer value is too large for " ++ context)%string.

Definition int_to_u128 (value : IntConst) (context : string) : Result string Z :=
  if signed value then
    ok_or (as_i128 value ≫= u128_try) ("integer value is negative in unsigned " ++ context)%string
  else Ok (bits value).

Definition typed_shift_count (value b : Z) : Result string Z :=
  ok_or (option_filter (λ count, count <? b) (try_u32 value)) shift_range_message.

Definition signed_value_fits (value b : Z) : bool :=
  if (1 <=? b) && (b <=? 127) then
    let magnitude := Z.shiftl 1 (b - 1) in (- magnitude <=? value) && (value <? magnitude)
  else b =? 128.

Definition unsigned_value_fits (value b : Z) : bool :=
  if (1 <=? b) && (b <=? 127) then value <? Z.shiftl 1 b else b =? 128.

Definition integer_overflow_message (op : ConstBinaryOp) : string :=
  ("integer overflow in const " ++
   match op with
   | Mul => "multiplication" | Div => "division" | Rem => "remainder" | Add => "addition"
   | Sub => "subtraction" | Shl => "left shift" | _ => "operation"
   end)%string.

Definition div_zero_message : string := "division by zero in const expression".
Definition rem_zero_message : string := "remainder by zero in const expression".
Definition unsupported_message (op : ConstBinaryOp) : string :=
  ("unsupported binary operator in const expression: " ++ op_debug op)%string.

(** ** Binary operations at the host width *)

Definition eval_binary_uint (lhs : Z) (op : ConstBinaryOp) (rhs : Z) : Result string Z :=
  match op with
  | Mul => ok_or (checked_u128 (lhs * rhs)) "integer overflow in const multiplication"%string
  | Div => if rhs =? 0 then Err div_zero_message else Ok (lhs / rhs)
  | Rem => if rhs =? 0 then Err rem_zero_message else Ok (lhs mod rhs)
  | Add => ok_or (checked_u128 (lhs + rhs)) "integer overflow in const addition"%string
  | Sub => ok_or (checked_u128 (lhs - rhs)) "integer overflow in const subtraction"%string
  | Shl => checked_shift_u128 lhs rhs true
  | Shr => checked_shift_u128 lhs rhs false
  | BitAnd => Ok (Z.land lhs rhs)
  | BitXor => Ok (Z.lxor lhs rhs)
  | BitOr => Ok (Z.lor lhs rhs)
  | _ => Err (unsupported_message op)
  end.

Definition eval_binary_int (lhs : IntConst) (op : ConstBinaryOp) (rhs : IntConst) :
    Result string IntConst :=
  if negb (signed lhs) && negb (signed rhs) then
    unsigned <$> eval_binary_uint (bits lhs) op (bits rhs)
  else
    lhs ← int_to_i128 lhs "const operation";
    rhs ← int_to_i128 rhs "const operation";
    from_i128 <$>
      match op with
      | Mul => ok_or (checked_i128 (lhs * rhs)) "integer overflow in const multiplication"%string
      | Div =>
        if rhs =? 0 then Err div_zero_message
        else ok_or (checked_i128 (Z.quot lhs rhs)) "integer overflow in const division"%string
      | Rem =>
        if rhs =? 0 then Err rem_zero_message
        else ok_or (checked_rem_i128 lhs rhs) "integer overflow in const remainder"%string
      | Add => ok_or (checked_i128 (lhs + rhs)) "integer overflow in const addition"%string
      | Sub => ok_or (checked_i128 (lhs - rhs)) "integer overflow in const subtraction"%string
      | Shl => checked_shift lhs rhs true
      | Shr => checked_shift lhs rhs false
      | BitAnd => Ok (Z.land lhs rhs)
      | BitXor => Ok (Z.lxor lhs rhs)
      | BitOr => Ok (Z.lor lhs rhs)
      | _ => Err (unsupported_message op)
      end.

(** ** Binary operations at the width of the type *)

Definition eval_typed_binary_int (lhs : IntConst) (op : ConstBinaryOp) (rhs : IntConst)
    (semantics : ConstIntegerSemantics) : Result string IntConst :=
  let b := sem_bits semantics in
  if negb ((1 <=? b) && (b <=? 128)) then
    Err "invalid integer width in const operation semantics"%string
  else if sem_signed semantics then
    lhs ← int_to_i128 lhs "const operation";
    rhs ← int_to_i128 rhs "const operation";
    let finish (value : option Z) :=
      from_i128 <$> ok_or (option_filter (λ v, signed_value_fits v b) value)
                      (integer_overflow_message op) in
    match op with
    | Mul => finish (checked_i128 (lhs * rhs))
    | Div => if rhs =? 0 then Err div_zero_message else finish (checked_i128 (Z.quot lhs rhs))
    | Rem => if rhs =? 0 then Err rem_zero_message else finish (checked_rem_i128 lhs rhs)
    | Add => finish (checked_i128 (lhs + rhs))
    | Sub => finish (checked_i128 (lhs - rhs))
    | Shl => count ← typed_shift_count rhs b; finish (checked_signed_left_shift lhs count b)
    | Shr => count ← typed_shift_count rhs b; Ok (from_i128 (Z.shiftr lhs count))
    | _ => eval_binary_int (from_i128 lhs) op (from_i128 rhs)
    end
  else
    lhs ← int_to_u128 lhs "const operation";
    rhs ← int_to_u128 rhs "const operation";
    let finish (value : option Z) :=
      unsigned <$> ok_or (option_filter (λ v, unsigned_value_fits v b) value)
                      (integer_overflow_message op) in
    match op with
    | Mul => finish (checked_u128 (lhs * rhs))
    | Div => if rhs =? 0 then Err div_zero_message else finish (Some (lhs / rhs))
    | Rem => if rhs =? 0 then Err rem_zero_message else finish (Some (lhs mod rhs))
    | Add => finish (checked_u128 (lhs + rhs))
    | Sub => finish (checked_u128 (lhs - rhs))
    | Shl => count ← typed_shift_count rhs b; finish (checked_unsigned_left_shift lhs count b)
    | Shr => count ← typed_shift_count rhs b; Ok (unsigned (Z.shiftr lhs count))
    | _ => unsigned <$> eval_binary_uint lhs op rhs
    end.

(** ** Negation *)

Definition neg_overflow_message : string := "integer overflow in const negation".

Definition eval_typed_int_neg (value : IntConst) (semantics : option ConstIntegerSemantics) :
    Result string IntConst :=
  value ←
    ok_or (if signed value then from_i128 <$> (v ← as_i128 value; checked_i128 (- v))
           else if bits value <=? Z.shiftl 1 127
           then Some (signed_bits (as_unsigned128 (0 - bits value)))
           else None)
      neg_overflow_message;
  if match semantics with
     | None => false
     | Some sem =>
       negb (sem_signed sem)
       || negb (match as_i128 value with Some v => signed_value_fits v (sem_bits sem) | None => false end)
     end
  then Err neg_overflow_message
  else Ok value.

(** ** Comparison and equality *)

Definition compare_int_values (lhs rhs : IntConst) : comparison :=
  match signed lhs, signed rhs with
  | false, false => bits lhs ?= bits rhs
  | true, true => as_signed128 (bits lhs) ?= as_signed128 (bits rhs)
  | true, false =>
    let l := as_signed128 (bits lhs) in
    if l <? 0 then Datatypes.Lt else as_unsigned128 l ?= bits rhs
  | false, true =>
    let r := as_signed128 (bits rhs) in
    if r <? 0 then Datatypes.Gt else bits lhs ?= as_unsigned128 r
  end.

Definition eval_binary_int_compare (lhs : IntConst) (op : ConstBinaryOp) (rhs : IntConst) :
    Result string bool :=
  let ordering := compare_int_values lhs rhs in
  match op with
  | Lt => Ok (match ordering with Datatypes.Lt => true | _ => false end)
  | Le => Ok (match ordering with Datatypes.Gt => false | _ => true end)
  | Gt => Ok (match ordering with Datatypes.Gt => true | _ => false end)
  | Ge => Ok (match ordering with Datatypes.Lt => false | _ => true end)
  | _ => Err "non-comparison operator routed to integer comparison"%string
  end.

Definition int_values_equal (lhs rhs : IntConst) : bool :=
  match as_i128 lhs, as_i128 rhs with
  | Some l, Some r => l =? r
  | None, None => bits lhs =? bits rhs
  | Some _, None | None, Some _ => false
  end.
