(* ===== verification/ConstNumericProps.v ===== *)
(** * nia-const-eval: integer operations are exact

    A typed integer operation yields the mathematical result when that result
    fits the type and the documented error otherwise; comparison and equality
    are those of the mathematical values, whatever the signedness of the
    operands. *)

From S2P Require Import Prelude RustStd Ty Lexer ConstNumeric.

(** ** The reference *)

(** The mathematical result of an arithmetic or bitwise operator. *)
Definition int_op (op : ConstBinaryOp) (a b : Z) : option Z :=
  match op with
  | Mul => Some (a * b)
  | Div => Some (Z.quot a b)
  | Rem => Some (Z.rem a b)
  | Add => Some (a + b)
  | Sub => Some (a - b)
  | Shl => Some (a * 2 ^ b)
  | Shr => Some (a / 2 ^ b)
  | BitAnd => Some (Z.land a b)
  | BitXor => Some (Z.lxor a b)
  | BitOr => Some (Z.lor a b)
  | _ => None
  end.

(** Operands an operator rejects before computing. *)
Definition operand_error (op : ConstBinaryOp) (b width : Z) : option string :=
  match op with
  | Div => if b =? 0 then Some div_zero_message else None
  | Rem => if b =? 0 then Some rem_zero_message else None
  | Shl | Shr => if (0 <=? b) && (b <? width) then None else Some shift_range_message
  | _ => None
  end.

(** The one remainder that is rejected although its result fits. *)
Definition rem_overflows (op : ConstBinaryOp) (sgn : bool) (width a b : Z) : bool :=
  bool_decide (op = Rem) && sgn && (width =? 128) && (a =? - 2 ^ 127) && (b =? -1).

(** The constant of a value and a signedness. *)
Definition int_of (sgn : bool) (v : Z) : IntConst := if sgn then from_i128 v else unsigned v.

Lemma int_of_spec sgn b v :
  1 ≤ b ≤ 128 → in_range sgn b v →
  int_wf (int_of sgn v) ∧ int_value (int_of sgn v) = v ∧ signed (int_of sgn v) = sgn.
Proof.
  intros Hb Hv. unfold int_of, in_range in *. destruct sgn.
  - assert (2 ^ (b - 1) ≤ 2 ^ 127) by (apply Z.pow_le_mono_r; lia).
    split_and!; [apply from_i128_wf|apply from_i128_value; lia|done].
  - assert (2 ^ b ≤ 2 ^ 128) by (apply Z.pow_le_mono_r; lia).
    split_and!; [unfold int_wf; simpl; lia|done..].
Qed.

(** ** Ranges *)

Lemma in_range_i128 b v : 1 ≤ b ≤ 128 → in_range true b v → i128_min ≤ v ≤ i128_max.
Proof.
  unfold in_range, i128_min, i128_max. intros.
  assert (2 ^ (b - 1) ≤ 2 ^ 127) by (apply Z.pow_le_mono_r; lia). lia.
Qed.

Lemma in_range_u128 b v : 1 ≤ b ≤ 128 → in_range false b v → 0 ≤ v ≤ u128_max.
Proof.
  unfold in_range, u128_max. intros.
  assert (2 ^ b ≤ 2 ^ 128) by (apply Z.pow_le_mono_r; lia). lia.
Qed.

Lemma signed_value_fits_spec v b :
  1 ≤ b ≤ 128 → i128_min ≤ v ≤ i128_max → signed_value_fits v b = bool_decide (in_range true b v).
Proof.
  unfold signed_value_fits, in_range, i128_min, i128_max. intros. rewrite Z.shiftl_1_l.
  destruct (decide (b = 128)) as [->|].
  - rewrite bool_decide_true; [done|]. change (128 - 1) with 127. lia.
  - destruct ((1 <=? b) && (b <=? 127)) eqn:Hb; [|apply andb_false_iff in Hb; lia].
    cbn zeta. case_bool_decide; lia.
Qed.

Lemma unsigned_value_fits_spec v b :
  1 ≤ b ≤ 128 → 0 ≤ v ≤ u128_max → unsigned_value_fits v b = bool_decide (in_range false b v).
Proof.
  unfold unsigned_value_fits, in_range, u128_max. intros. rewrite Z.shiftl_1_l.
  destruct (decide (b = 128)) as [->|].
  - rewrite bool_decide_true; [done|]. lia.
  - destruct ((1 <=? b) && (b <=? 127)) eqn:Hb; [|apply andb_false_iff in Hb; lia].
    case_bool_decide; lia.
Qed.

(** Filtering a checked host result keeps exactly the results that fit. *)
Lemma finish_signed v b (m : string) :
  1 ≤ b ≤ 128 →
  from_i128 <$> ok_or (option_filter (λ v, signed_value_fits v b) (checked_i128 v)) m =
    if bool_decide (in_range true b v) then Ok (from_i128 v) else Err m.
Proof.
  intros Hb. pose proof (in_range_i128 b v Hb) as Hi. unfold checked_i128.
  destruct (decide (i128_min ≤ v ≤ i128_max)) as [Hv|Hv].
  - rewrite checked_in by done. cbn [option_filter]. rewrite signed_value_fits_spec by done.
    by case_bool_decide.
  - rewrite (proj2 (checked_None _ _ v)) by done. rewrite bool_decide_false; [done|tauto].
Qed.

Lemma finish_unsigned v b (m : string) :
  1 ≤ b ≤ 128 →
  unsigned <$> ok_or (option_filter (λ v, unsigned_value_fits v b) (checked_u128 v)) m =
    if bool_decide (in_range false b v) then Ok (unsigned v) else Err m.
Proof.
  intros Hb. pose proof (in_range_u128 b v Hb) as Hi. unfold checked_u128.
  destruct (decide (0 ≤ v ≤ u128_max)) as [Hv|Hv].
  - rewrite checked_in by done. cbn [option_filter]. rewrite unsigned_value_fits_spec by done.
    by case_bool_decide.
  - rewrite (proj2 (checked_None _ _ v)) by done. rewrite bool_decide_false; [done|tauto].
Qed.

(** ** Shifts *)

Lemma pow2_split b n : 0 ≤ n < b → 2 ^ b = 2 ^ (b - n) * 2 ^ n.
Proof. intros. rewrite <-Z.pow_add_r by lia. f_equal. lia. Qed.

Lemma typed_shift_count_spec v b :
  1 ≤ b ≤ 128 →
  typed_shift_count v b = if (0 <=? v) && (v <? b) then Ok v else Err shift_range_message.
Proof.
  intros Hb. unfold typed_shift_count, try_u32.
  destruct (decide (0 ≤ v ≤ u32_max)) as [Hv|Hv].
  - rewrite checked_in by done. simpl. destruct (0 <=? v) eqn:?; bool_to_prop; [|lia].
    simpl. by destruct (v <? b).
  - rewrite (proj2 (checked_None _ _ v)) by done. unfold u32_max in Hv.
    destruct ((0 <=? v) && (v <? b)) eqn:?; bool_to_prop; [lia|done].
Qed.

Lemma signed_left_shift_spec a n b :
  1 ≤ b ≤ 128 → 0 ≤ n < b →
  checked_signed_left_shift a n b =
    if bool_decide (in_range true b (a * 2 ^ n)) then Some (a * 2 ^ n) else None.
Proof.
  intros Hb Hn. unfold checked_signed_left_shift.
  destruct (negb _ || _) eqn:Hg.
  { apply orb_true_iff in Hg as [Hg|Hg]; bool_to_prop; [apply andb_false_iff in Hg; lia|lia]. }
  clear Hg.
  pose proof (in_range_i128 b (a * 2 ^ n) Hb) as Hi.
  rewrite Z.shiftl_1_l, Z.shiftl_mul_pow2, Z.shiftr_div_pow2 by lia.
  assert (0 < 2 ^ n) by (apply Z.pow_pos_nonneg; lia).
  assert (0 < 2 ^ (b - 1 - n)) by (apply Z.pow_pos_nonneg; lia).
  assert (2 ^ (b - 1) = 2 ^ (b - 1 - n) * 2 ^ n) as Hsplit.
  { destruct (decide (n = b - 1)) as [->|]; [rewrite Z.sub_diag; simpl; lia|].
    apply pow2_split. lia. }
  set (q := 2 ^ (b - 1 - n)) in *. set (p := 2 ^ n) in *.
  assert ((if a <? 0 then 2 ^ (b - 1) else 2 ^ (b - 1) - 1) / p = (if a <? 0 then q else q - 1)) as ->.
  { rewrite Hsplit. destruct (a <? 0); [by rewrite Z.div_mul by lia|].
    symmetry. apply Z.div_unique_pos with (p - 1); lia. }
  unfold in_range in *. rewrite Hsplit in *.
  destruct (_ <? Z.abs a) eqn:Hlim; case_bool_decide as Hr; try done; bool_to_prop.
  - exfalso. destruct (a <? 0) eqn:?; bool_to_prop; nia.
  - rewrite as_signed_unsigned; [done|]. unfold i128_min, i128_max in Hi. lia.
  - exfalso. destruct (a <? 0) eqn:?; bool_to_prop; nia.
Qed.

Lemma unsigned_left_shift_spec a n b :
  1 ≤ b ≤ 128 → 0 ≤ n < b → 0 ≤ a →
  checked_unsigned_left_shift a n b =
    if bool_decide (in_range false b (a * 2 ^ n)) then Some (a * 2 ^ n) else None.
Proof.
  intros Hb Hn Ha. unfold checked_unsigned_left_shift.
  destruct (negb _ || _) eqn:Hg.
  { apply orb_true_iff in Hg as [Hg|Hg]; bool_to_prop; [apply andb_false_iff in Hg; lia|lia]. }
  clear Hg.
  pose proof (in_range_u128 b (a * 2 ^ n) Hb) as Hi.
  assert ((if b =? 128 then u128_max else Z.shiftl 1 b - 1) = 2 ^ b - 1) as ->.
  { rewrite Z.shiftl_1_l. destruct (b =? 128) eqn:?; [bool_to_prop; by subst|done]. }
  rewrite Z.shiftl_mul_pow2, Z.shiftr_div_pow2 by lia.
  assert (0 < 2 ^ n) by (apply Z.pow_pos_nonneg; lia).
  assert (0 < 2 ^ (b - n)) by (apply Z.pow_pos_nonneg; lia).
  pose proof (pow2_split b n ltac:(lia)) as Hsplit.
  set (q := 2 ^ (b - n)) in *. set (p := 2 ^ n) in *.
  assert ((2 ^ b - 1) / p = q - 1) as ->.
  { rewrite Hsplit. symmetry. apply Z.div_unique_pos with (p - 1); lia. }
  unfold in_range, u128_max in *. rewrite Hsplit in *.
  destruct (_ || _) eqn:Hlim; case_bool_decide as Hr; try done.
  - exfalso. apply orb_true_iff in Hlim as [Hlim|Hlim]; bool_to_prop; nia.
  - unfold as_unsigned128. rewrite Z.mod_small by lia. done.
  - exfalso. bool_to_prop. nia.
Qed.

(** ** Bitwise results stay in range *)

Lemma signed_range_shift b v :
  1 ≤ b → in_range true b v ↔ Z.shiftr v (b - 1) = 0 ∨ Z.shiftr v (b - 1) = -1.
Proof.
  intros. unfold in_range. rewrite Z.shiftr_div_pow2 by lia.
  assert (0 < 2 ^ (b - 1)) by (apply Z.pow_pos_nonneg; lia).
  pose proof (Z.div_mod v (2 ^ (b - 1)) ltac:(lia)).
  pose proof (Z.mod_pos_bound v (2 ^ (b - 1)) ltac:(lia)).
  split; [|intros [Hq|Hq]; rewrite Hq in *; lia].
  intros Hv. destruct (decide (0 ≤ v)).
  - left. apply Z.div_small. lia.
  - right. symmetry. apply Z.div_unique_pos with (v + 2 ^ (b - 1)); lia.
Qed.

Lemma unsigned_range_shift b v : 0 ≤ b → in_range false b v ↔ Z.shiftr v b = 0.
Proof.
  intros. unfold in_range. rewrite Z.shiftr_div_pow2 by lia.
  assert (0 < 2 ^ b) by (apply Z.pow_pos_nonneg; lia).
  split; [apply Z.div_small|]. intros Hq.
  pose proof (Z.div_mod v (2 ^ b) ltac:(lia)). pose proof (Z.mod_pos_bound v (2 ^ b) ltac:(lia)).
  rewrite Hq in *. lia.
Qed.

Lemma bitop_in_range op sgn b x y r :
  1 ≤ b → op = BitAnd ∨ op = BitXor ∨ op = BitOr → int_op op x y = Some r →
  in_range sgn b x → in_range sgn b y → in_range sgn b r.
Proof.
  intros Hb Hop Hr. destruct sgn.
  - rewrite !signed_range_shift by lia.
    intros Hx Hy. destruct Hop as [->|[->| ->]]; simplify_eq/=;
      rewrite ?Z.shiftr_land, ?Z.shiftr_lxor, ?Z.shiftr_lor;
      destruct Hx as [-> | ->], Hy as [-> | ->]; vm_compute; tauto.
  - rewrite !unsigned_range_shift by lia. intros Hx Hy.
    destruct Hop as [->|[->| ->]]; simplify_eq/=;
      rewrite ?Z.shiftr_land, ?Z.shiftr_lxor, ?Z.shiftr_lor, Hx, Hy; done.
Qed.

Lemma shr_in_range sgn b x n :
  1 ≤ b → 0 ≤ n → in_range sgn b x → in_range sgn b (x / 2 ^ n).
Proof.
  intros Hb Hn. assert (0 < 2 ^ n) by (apply Z.pow_pos_nonneg; lia).
  pose proof (Z.div_mod x (2 ^ n) ltac:(lia)). pose proof (Z.mod_pos_bound x (2 ^ n) ltac:(lia)).
  unfold in_range. destruct sgn; nia.
Qed.

Lemma rem_in_range sgn b x y :
  1 ≤ b → y ≠ 0 → in_range sgn b x → in_range sgn b y → in_range sgn b (Z.rem x y).
Proof.
  intros Hb Hy Hx Hyr. assert (Z.abs (Z.rem x y) ≤ Z.abs x ∧ 0 ≤ Z.rem x y * x) as [H1 H2].
  { pose proof (Z.quot_rem' x y). pose proof (Z.rem_sign_mul x y ltac:(lia)).
    pose proof (Z.rem_bound_abs x y ltac:(lia)). split; [|done].
    rewrite <-Z.rem_abs by lia. destruct (decide (Z.abs x < Z.abs y)).
    - rewrite Z.rem_small by lia. done.
    - pose proof (Z.rem_bound_pos (Z.abs x) (Z.abs y) ltac:(lia) ltac:(lia)). lia. }
  unfold in_range in *. destruct sgn; nia.
Qed.

(** ** Typed operations *)

Lemma int_to_i128_in_range c b ctx :
  int_wf c → 1 ≤ b ≤ 128 → in_range true b (int_value c) → int_to_i128 c ctx = Ok (int_value c).
Proof.
  intros Hwf Hb Hr. unfold int_to_i128. rewrite as_i128_spec by done. rewrite bool_decide_true; [done|].
  apply in_range_i128 in Hr; [|done]. unfold in_range, i128_min, i128_max in *. simpl. lia.
Qed.

Lemma int_to_u128_in_range c b ctx :
  int_wf c → in_range false b (int_value c) → int_to_u128 c ctx = Ok (int_value c).
Proof.
  intros Hwf Hr. pose proof (unsigned_value_spec c Hwf) as Hu. unfold int_to_u128.
  unfold in_range in Hr. rewrite bool_decide_true in Hu by lia.
  destruct (signed c); [by rewrite Hu|]. congruence.
Qed.

(** The bitwise operators of the signed branch go through [eval_binary_int]. *)
Lemma signed_bitop op b x y r :
  1 ≤ b ≤ 128 → in_range true b x → in_range true b y →
  op = BitAnd ∨ op = BitXor ∨ op = BitOr → int_op op x y = Some r →
  eval_binary_int (from_i128 x) op (from_i128 y) = Ok (from_i128 r).
Proof.
  intros Hb Hx Hy Hop Hr. unfold eval_binary_int. simpl andb. cbn iota.
  assert (∀ z, in_range true b z → int_to_i128 (from_i128 z) "const operation" = Ok z) as Hz.
  { intros z Hz. pose proof (int_of_spec true b z Hb Hz) as (Hwf&Hv&_). simpl in *.
    rewrite (int_to_i128_in_range _ b); rewrite ?Hv; done. }
  rewrite !Hz by done. cbn [mbind Result_bind].
  by destruct Hop as [->|[->| ->]]; simplify_eq/=.
Qed.

Section typed.
Context (lhs rhs : IntConst) (sem : ConstIntegerSemantics).
Let width := sem_bits sem.
Let sgn := sem_signed sem.
Let x := int_value lhs.
Let y := int_value rhs.

(** Well-formed constants whose values belong to the operand type. *)
Definition typed_operands : Prop :=
  int_wf lhs ∧ int_wf rhs ∧ 1 ≤ width ≤ 128 ∧ in_range sgn width x ∧ in_range sgn width y.

(** What the operation is to return. *)
Definition typed_result (op : ConstBinaryOp) (r : Z) : Result string IntConst :=
  match operand_error op y width with
  | Some e => Err e
  | None =>
    if bool_decide (in_range sgn width r) && negb (rem_overflows op sgn width x y)
    then Ok (int_of sgn r) else Err (integer_overflow_message op)
  end.

Lemma typed_signed op r :
  typed_operands → sgn = true → int_op op x y = Some r →
  eval_typed_binary_int lhs op rhs sem = typed_result op r.
Proof.
  intros (Hl&Hr&Hb&Hx&Hy) Hs Hop. unfold eval_typed_binary_int, typed_result.
  fold width sgn. rewrite Hs in *.
  destruct (negb _) eqn:Hn; [bool_to_prop; apply andb_false_iff in Hn; lia|]. clear Hn.
  rewrite (int_to_i128_in_range lhs width), (int_to_i128_in_range rhs width) by done.
  cbn [mbind Result_bind]. fold x y. unfold rem_overflows.
  destruct op; simplify_eq/=; rewrite ?finish_signed, ?andb_true_r by done; try done.
  - by destruct (y =? 0).
  - destruct (y =? 0) eqn:Hy0; bool_to_prop; [done|].
    pose proof (rem_in_range true width x y ltac:(lia) Hy0 Hx Hy) as Hrem.
    rewrite (bool_decide_true (in_range _ _ _)) by done. unfold checked_rem_i128.
    rewrite (proj2 (Z.eqb_neq y 0) Hy0). simpl.
    pose proof (in_range_i128 width _ Hb Hrem) as Hi.
    change i128_min with (- 2 ^ 127). destruct (x =? - 2 ^ 127) eqn:Hx127; bool_to_prop.
    + assert (width = 128) as ->.
      { destruct (decide (width = 128)); [done|]. unfold in_range in Hx.
        assert (2 ^ (width - 1) < 2 ^ 127) by (apply Z.pow_lt_mono_r; lia). lia. }
      by destruct (y =? -1).
    + rewrite andb_false_r. simpl. by rewrite signed_value_fits_spec, bool_decide_true.
  - rewrite typed_shift_count_spec by done. destruct (_ && _) eqn:Hc; [|done]. simpl.
    bool_to_prop. rewrite signed_left_shift_spec by lia. case_bool_decide as Hr'; [|done]. simpl.
    rewrite signed_value_fits_spec by (done || by eapply in_range_i128).
    by rewrite bool_decide_true.
  - rewrite typed_shift_count_spec by done. destruct (_ && _) eqn:Hc; [|done]. simpl. bool_to_prop.
    rewrite bool_decide_true by (apply (shr_in_range true); [lia|lia|done]).
    by rewrite Z.shiftr_div_pow2.
  - rewrite (signed_bitop _ width x y (Z.land x y)) by naive_solver.
    by rewrite bool_decide_true by (eapply (bitop_in_range BitAnd true width x y); naive_solver lia).
  - rewrite (signed_bitop _ width x y (Z.lxor x y)) by naive_solver.
    by rewrite bool_decide_true by (eapply (bitop_in_range BitXor true width x y); naive_solver lia).
  - rewrite (signed_bitop _ width x y (Z.lor x y)) by naive_solver.
    by rewrite bool_decide_true by (eapply (bitop_in_range BitOr true width x y); naive_solver lia).
Qed.

Lemma typed_unsigned op r :
  typed_operands → sgn = false → int_op op x y = Some r →
  eval_typed_binary_int lhs op rhs sem = typed_result op r.
Proof.
  intros (Hl&Hr&Hb&Hx&Hy) Hs Hop. unfold eval_typed_binary_int, typed_result.
  fold width sgn. rewrite Hs in *.
  destruct (negb _) eqn:Hn; [bool_to_prop; apply andb_false_iff in Hn; lia|]. clear Hn.
  rewrite (int_to_u128_in_range lhs width), (int_to_u128_in_range rhs width) by done.
  cbn [mbind Result_bind]. fold x y. unfold rem_overflows. rewrite andb_false_r. simpl negb.
  assert (∀ v m, in_range false width v →
    unsigned <$> ok_or (option_filter (λ v, unsigned_value_fits v width) (Some v)) m =
      @Ok string _ (unsigned v)) as Hfin.
  { intros v m Hv. rewrite <-(checked_in 0 u128_max v) by (by eapply in_range_u128).
    change (checked 0 u128_max v) with (checked_u128 v). rewrite finish_unsigned by done.
    by rewrite bool_decide_true. }
  assert (0 ≤ x ∧ 0 ≤ y) as [Hx0 Hy0] by (unfold in_range in *; lia).
  destruct op; simplify_eq/=; rewrite ?andb_true_r; rewrite ?finish_unsigned by done; try done.
  - destruct (y =? 0) eqn:Hz; bool_to_prop; [done|].
    assert (in_range false width (x / y)) as Hd.
    { unfold in_range in *. pose proof (Z.div_pos x y Hx0 ltac:(lia)).
      pose proof (Z.div_le_upper_bound x y x ltac:(lia) ltac:(nia)). lia. }
    rewrite Z.quot_div_nonneg by lia. rewrite bool_decide_true by done. by apply Hfin.
  - destruct (y =? 0) eqn:Hz; bool_to_prop; [done|].
    pose proof (rem_in_range false width x y ltac:(lia) Hz Hx Hy) as Hrem.
    rewrite bool_decide_true by done. rewrite Z.rem_mod_nonneg in * by lia. by apply Hfin.
  - rewrite typed_shift_count_spec by done. destruct (_ && _) eqn:Hc; [|done]. simpl.
    bool_to_prop. rewrite unsigned_left_shift_spec by lia. case_bool_decide as Hr'; [|done].
    by apply Hfin.
  - rewrite typed_shift_count_spec by done. destruct (_ && _) eqn:Hc; [|done]. simpl. bool_to_prop.
    rewrite bool_decide_true by (apply (shr_in_range false); [lia|lia|done]).
    by rewrite Z.shiftr_div_pow2.
  - by rewrite bool_decide_true by (eapply (bitop_in_range BitAnd false width x y); naive_solver lia).
  - by rewrite bool_decide_true by (eapply (bitop_in_range BitXor false width x y); naive_solver lia).
  - by rewrite bool_decide_true by (eapply (bitop_in_range BitOr false width x y); naive_solver lia).
Qed.

Lemma typed_exact op r :
  typed_operands → int_op op x y = Some r → eval_typed_binary_int lhs op rhs sem = typed_result op r.
Proof.
  intros. destruct sgn eqn:Hs; [by apply typed_signed|by apply typed_unsigned].
Qed.
(** *** Runtime traps

    When the generated code of an operation traps, by the table of the language
    reference. *)
Definition runtime_traps (op : ConstBinaryOp) (r : Z) : bool :=
  let is_min_by_minus_one := sgn && (x =? - 2 ^ (width - 1)) && (y =? -1) in
  let count_out := negb ((0 <=? y) && (y <? width)) in
  match op with
  | Add | Sub | Mul => negb (bool_decide (in_range sgn width r))
  | Div | Rem => (y =? 0) || is_min_by_minus_one
  | Shl => count_out || negb (bool_decide (in_range sgn width r))
  | Shr => count_out
  | _ => false
  end.

(** [MIN % -1] below 128 bits, which traps but is a constant. *)
Definition untrapped_rem (op : ConstBinaryOp) : bool :=
  bool_decide (op = Rem) && sgn && (x =? - 2 ^ (width - 1)) && (y =? -1) && (width <? 128).

Definition typed_error (op : ConstBinaryOp) : string :=
  default (integer_overflow_message op) (operand_error op y width).

Lemma quot_in_range :
  1 ≤ width → in_range sgn width x → in_range sgn width y → y ≠ 0 →
  in_range sgn width (Z.quot x y) ↔ sgn && (x =? - 2 ^ (width - 1)) && (y =? -1) = false.
Proof.
  intros Hw Hx Hy Hy0. unfold in_range in *. destruct sgn; simpl.
  - assert (0 < 2 ^ (width - 1)) by (apply Z.pow_pos_nonneg; lia).
    pose proof (Z.quot_abs x y Hy0) as Habs. pose proof (Z.quot_div_nonneg (Z.abs x) (Z.abs y)) as Hq.
    rewrite andb_false_iff, !Z.eqb_neq. destruct (decide (y = -1)) as [->|Hm1].
    + change (-1) with (- (1)). rewrite Z.quot_opp_r, Z.quot_1_r by lia. lia.
    + split; [tauto|intros _]. destruct (decide (y = 1)) as [->|H1]; [rewrite Z.quot_1_r; lia|].
      assert (Z.abs x / Z.abs y ≤ Z.abs x / 2) by (apply Z.div_le_compat_l; lia).
      pose proof (Z.div_lt_upper_bound (Z.abs x) 2 (2 ^ (width - 1))). lia.
  - split; [done|intros _]. rewrite Z.quot_div_nonneg by lia.
    pose proof (Z.div_pos x y). pose proof (Z.div_le_upper_bound x y x ltac:(lia) ltac:(nia)). lia.
Qed.

Lemma typed_traps op r :
  typed_operands → int_op op x y = Some r →
  eval_typed_binary_int lhs op rhs sem =
    if runtime_traps op r && negb (untrapped_rem op) then Err (typed_error op) else Ok (int_of sgn r).
Proof.
  intros Hops Hop. rewrite (typed_exact op r Hops Hop). destruct Hops as (_&_&Hb&Hx&Hy).
  unfold typed_result, typed_error, runtime_traps, untrapped_rem, rem_overflows.
  destruct op; simplify_eq/=; rewrite ?andb_true_r; try (by case_bool_decide).
  - destruct (y =? 0) eqn:H0; bool_to_prop; [done|]. simpl.
    pose proof (quot_in_range ltac:(lia) Hx Hy H0) as Hq.
    case_bool_decide as Hr; destruct (sgn && _ && _) eqn:Hm; try done; exfalso.
    + by apply Hq in Hr.
    + by apply Hr, Hq.
  - destruct (y =? 0) eqn:H0; bool_to_prop; simpl; [by replace (y =? -1) with false by lia; rewrite ?andb_false_r|].
    rewrite bool_decide_true by (apply rem_in_range; [lia|done..]).
    destruct sgn; [|done]. simpl. destruct (y =? -1); rewrite ?andb_false_r, ?andb_true_r; [|done].
    destruct (Z.eqb_spec width 128) as [Hw|Hw]; simpl.
    + replace (width <? 128) with false by lia. rewrite andb_false_r, andb_true_r.
      rewrite Hw. change (128 - 1) with 127. by destruct (x =? - 2 ^ 127).
    + replace (width <? 128) with true by lia. by destruct (x =? - 2 ^ (width - 1)).
  - destruct (_ && _); [|done]. by case_bool_decide.
  - destruct (_ && _) eqn:Hc; [|done]. bool_to_prop.
    by rewrite bool_decide_true by (apply shr_in_range; [lia|lia|done]).
  - by rewrite bool_decide_true by (eapply (bitop_in_range BitAnd sgn width x y); naive_solver lia).
  - by rewrite bool_decide_true by (eapply (bitop_in_range BitXor sgn width x y); naive_solver lia).
  - by rewrite bool_decide_true by (eapply (bitop_in_range BitOr sgn width x y); naive_solver lia).
Qed.
End typed.

(** C31: for two operands that are values of an integer type of 1 to 128 bits, an
    arithmetic, shift or bitwise operation is a constant error exactly when the
    language reference says that it traps at run time, and else the constant of the
    mathematical result, which fits the type; the one exception is [MIN % -1], which
    traps at run time and is the constant 0 in every signed type below 128 bits. *)
Theorem eval_typed_binary_int_exact (lhs rhs : IntConst) (sem : ConstIntegerSemantics)
    (op : ConstBinaryOp) (r : Z)
    (Hops : typed_operands lhs rhs sem) (Hop : int_op op (int_value lhs) (int_value rhs) = Some r) :
  eval_typed_binary_int lhs op rhs sem =
    (if runtime_traps lhs rhs sem op r && negb (untrapped_rem lhs rhs sem op)
     then Err (typed_error rhs sem op) else Ok (int_of (sem_signed sem) r)) ∧
  ∀ c, eval_typed_binary_int lhs op rhs sem = Ok c →
    int_wf c ∧ int_value c = r ∧ signed c = sem_signed sem ∧ in_range (sem_signed sem) (sem_bits sem) r.
Proof.
  split; [by apply typed_traps|]. rewrite (typed_exact lhs rhs sem op r Hops Hop). intros c.
  destruct Hops as (_&_&Hb&_). unfold typed_result. destruct (operand_error _ _ _); [done|].
  destruct (bool_decide _) eqn:Hr; [|done]. apply bool_decide_eq_true in Hr. simpl.
  case_match; [|done]. intros [= <-].
  destruct (int_of_spec _ _ r Hb Hr) as (?&?&?). done.
Qed.

Lemma eval_typed_binary_int_exact_witness :
  eval_typed_binary_int (from_i128 (-1)) Shl (from_i128 7) (mkSemantics 8 true) = Ok (from_i128 (-128)) ∧
  eval_typed_binary_int (from_i128 1) Shl (from_i128 7) (mkSemantics 8 true) =
    Err "integer overflow in const left shift"%string.
Proof.
  split; (eapply eq_trans; [eapply eval_typed_binary_int_exact; [|reflexivity];
    apply (bool_decide_unpack _); vm_compute; reflexivity|vm_compute; reflexivity]).
Defined.

(** C40: constant evaluation accepts the remainder of the least value by [-1] in
    every signed type narrower than 128 bits (the result is 0), and rejects it at
    128 bits only. *)
Theorem typed_rem_min_by_minus_one (b : Z) (Hb : 2 ≤ b ≤ 128) :
  eval_typed_binary_int (from_i128 (- 2 ^ (b - 1))) Rem (from_i128 (-1)) (mkSemantics b true) =
    if b =? 128 then Err "integer overflow in const remainder"%string else Ok (from_i128 0).
Proof.
  assert (∀ v, in_range true b v → int_wf (from_i128 v) ∧ int_value (from_i128 v) = v) as Hv.
  { intros v Hv. by destruct (int_of_spec true b v) as (?&?&_); [lia|done|]. }
  assert (0 < 2 ^ (b - 1)) as Hpos by (apply Z.pow_pos_nonneg; lia).
  assert (in_range true b (- 2 ^ (b - 1)) ∧ in_range true b (-1)) as [H1 H2] by (unfold in_range; lia).
  destruct (Hv _ H1) as [Hw1 Hv1], (Hv _ H2) as [Hw2 Hv2].
  rewrite (typed_exact _ _ _ Rem 0).
  - unfold typed_result, rem_overflows. rewrite Hv1, Hv2. simpl.
    rewrite bool_decide_true by (unfold in_range; lia). destruct (b =? 128) eqn:Hb128; bool_to_prop.
    + by subst b.
    + done.
  - unfold typed_operands. simpl. rewrite Hv1, Hv2. naive_solver lia.
  - rewrite Hv1, Hv2. simpl. rewrite Z.rem_opp_l by lia.
    change (-1) with (- (1)). by rewrite Z.rem_opp_r, Z.rem_1_r by lia.
Qed.

Lemma typed_rem_min_by_minus_one_witness :
  eval_typed_binary_int (from_i128 (-128)) Rem (from_i128 (-1)) (mkSemantics 8 true) = Ok (from_i128 0).
Proof. apply (typed_rem_min_by_minus_one 8). lia. Defined.

(** ** Comparison and equality *)

Lemma compare_int_values_spec l r :
  int_wf l → int_wf r → compare_int_values l r = (int_value l ?= int_value r).
Proof.
  unfold int_wf, compare_int_values, int_value. intros Hl Hr.
  pose proof (as_signed128_range (bits l) Hl). pose proof (as_signed128_range (bits r) Hr).
  destruct (signed l), (signed r); try done; case_match; bool_to_prop; symmetry;
    try (apply Z.compare_lt_iff; lia); try (apply Z.compare_gt_iff; lia);
    unfold as_unsigned128; rewrite Z.mod_small by lia; done.
Qed.

Lemma int_values_equal_spec l r :
  int_wf l → int_wf r → int_values_equal l r = bool_decide (int_value l = int_value r).
Proof.
  intros Hl Hr. pose proof (int_value_range l Hl). pose proof (int_value_range r Hr).
  unfold int_values_equal. rewrite !as_i128_spec by done. unfold in_range.
  change (128 - 1) with 127.
  assert (∀ c, int_wf c → 2 ^ 127 ≤ int_value c → bits c = int_value c) as Hbig.
  { intros c Hc. unfold int_value, int_wf in *. pose proof (as_signed128_range (bits c) Hc).
    destruct (signed c); [lia|done]. }
  repeat case_bool_decide; try lia.
  - rewrite !Hbig by (done || lia). lia.
  - rewrite !Hbig by (done || lia). lia.
Qed.

(** The comparison an operator denotes. *)
Definition comparison_op (op : ConstBinaryOp) (a b : Z) : option bool :=
  match op with
  | Lt => Some (a <? b)
  | Le => Some (a <=? b)
  | Gt => Some (b <? a)
  | Ge => Some (b <=? a)
  | _ => None
  end.

(** Integer comparison and equality are those of the complete mathematical
    values: no operand is narrowed, whatever the two signednesses, and every
    other operator is rejected. *)
Theorem int_comparison_exact (lhs rhs : IntConst) (op : ConstBinaryOp)
    (Hl : int_wf lhs) (Hr : int_wf rhs) :
  eval_binary_int_compare lhs op rhs =
    ok_or (comparison_op op (int_value lhs) (int_value rhs))
      "non-comparison operator routed to integer comparison"%string ∧
  int_values_equal lhs rhs = bool_decide (int_value lhs = int_value rhs).
Proof.
  split; [|by apply int_values_equal_spec].
  unfold eval_binary_int_compare. rewrite compare_int_values_spec by done.
  destruct op; try done; simpl; unfold Z.ltb, Z.leb; rewrite ?(Z.compare_antisym (int_value lhs));
    by destruct (int_value lhs ?= int_value rhs).
Qed.

Lemma int_comparison_exact_witness :
  eval_binary_int_compare (from_i128 (-1)) Lt (unsigned u128_max) = Ok true ∧
  int_values_equal (from_i128 (-1)) (unsigned u128_max) = false.
Proof.
  destruct (int_comparison_exact (from_i128 (-1)) (unsigned u128_max) Lt) as [H1 H2];
    [by apply (bool_decide_unpack _)..|].
  split; [eapply eq_trans; [exact H1|reflexivity]|eapply eq_trans; [exact H2|reflexivity]].
Defined.

(** ** Negation, bitwise not and array lengths *)

Lemma neg_untyped c :
  int_wf c →
  (if signed c then from_i128 <$> (v ← as_i128 c; checked_i128 (- v))
   else if bits c <=? Z.shiftl 1 127
   then Some (signed_bits (as_unsigned128 (0 - bits c)))
   else None) =
  if bool_decide (in_range true 128 (- int_value c)) then Some (from_i128 (- int_value c)) else None.
Proof.
  intros Hwf. pose proof (as_signed128_range (bits c) Hwf). unfold in_range, as_i128, int_value, int_wf in *.
  change (128 - 1) with 127. destruct (signed c).
  - cbn [mbind option_bind]. unfold checked_i128, i128_min, i128_max. case_bool_decide.
    + by rewrite checked_in by lia.
    + rewrite (proj2 (checked_None _ _ _)); [done|lia].
  - rewrite Z.shiftl_1_l. case_bool_decide; case_match; bool_to_prop; try lia; done.
Qed.

(** Negation of a constant in a signed type of 1 to 128 bits gives the
    constant of the opposite value when that value fits the type, and the
    overflow error otherwise; in an unsigned type it is always the error. *)
Theorem eval_typed_int_neg_exact (c : IntConst) (sem : ConstIntegerSemantics)
    (Hwf : int_wf c) (Hb : 1 ≤ sem_bits sem ≤ 128) :
  eval_typed_int_neg c (Some sem) =
    if sem_signed sem && bool_decide (in_range true (sem_bits sem) (- int_value c))
    then Ok (from_i128 (- int_value c)) else Err neg_overflow_message.
Proof.
  unfold eval_typed_int_neg. rewrite neg_untyped by done.
  pose proof (in_range_i128 (sem_bits sem) (- int_value c) Hb) as Hi.
  case_bool_decide as H128; cbn [ok_or mbind Result_bind].
  - destruct (int_of_spec true 128 (- int_value c)) as (Hw&Hv&_); [lia|done|]. simpl in Hw, Hv.
    rewrite as_i128_spec, Hv, bool_decide_true by done.
    rewrite signed_value_fits_spec by (done || by eapply (in_range_i128 128)).
    by destruct (sem_signed sem), (bool_decide _).
  - destruct (sem_signed sem); [|done]. simpl. rewrite bool_decide_false; [done|].
    intros H%Hi. apply H128. unfold in_range, i128_min, i128_max in *. change (128 - 1) with 127. lia.
Qed.

Lemma eval_typed_int_neg_exact_witness :
  eval_typed_int_neg (unsigned (2 ^ 127)) (Some (mkSemantics 128 true)) = Ok (from_i128 (- 2 ^ 127)).
Proof.
  eapply eq_trans; [apply eval_typed_int_neg_exact; [by apply (bool_decide_unpack _)|simpl; lia]|].
  reflexivity.
Defined.

Lemma land_mask x b : 0 ≤ b → Z.land x (2 ^ b - 1) = x mod 2 ^ b.
Proof. intros. rewrite <-Z.land_ones, Z.ones_equiv by lia. by rewrite Z.sub_1_r. Qed.

Lemma sign_extend b m : 1 ≤ b ≤ 128 → 0 ≤ m < 2 ^ b →
  Z.shiftr (as_signed128 (as_unsigned128 (Z.shiftl m (128 - b)))) (128 - b) =
    if m <? 2 ^ (b - 1) then m else m - 2 ^ b.
Proof.
  intros Hb Hm. rewrite Z.shiftl_mul_pow2, Z.shiftr_div_pow2 by lia.
  assert (0 < 2 ^ (128 - b)) by (apply Z.pow_pos_nonneg; lia).
  assert (2 ^ 128 = 2 ^ b * 2 ^ (128 - b)) as H128 by (rewrite <-Z.pow_add_r by lia; f_equal; lia).
  assert (2 ^ 127 = 2 ^ (b - 1) * 2 ^ (128 - b)) as H127
    by (rewrite <-Z.pow_add_r by lia; f_equal; lia).
  unfold as_unsigned128, as_signed128. rewrite Z.mod_small by nia.
  destruct (m <? 2 ^ (b - 1)) eqn:Hlt; bool_to_prop.
  - destruct (_ <? 2 ^ 127) eqn:?; bool_to_prop; [|nia]. by rewrite Z.div_mul by lia.
  - destruct (_ <? 2 ^ 127) eqn:?; bool_to_prop; [nia|]. rewrite H128, <-Z.mul_sub_distr_r.
    by rewrite Z.div_mul by lia.
Qed.

(** Bits and value agree modulo [2^b]. *)
Lemma bits_mod_value c b : int_wf c → 0 ≤ b ≤ 128 → bits c mod 2 ^ b = int_value c mod 2 ^ b.
Proof.
  intros Hwf Hb. unfold int_value, as_signed128. destruct (signed c); [|done]. case_match; [done|].
  assert (2 ^ 128 = 2 ^ (128 - b) * 2 ^ b) as -> by (rewrite <-Z.pow_add_r by lia; f_equal; lia).
  rewrite <-Z.add_opp_r, <-Z.mul_opp_l, Z.mod_add; [done|]. apply Z.pow_nonzero; lia.
Qed.

Lemma not_mod c b : int_wf c → 0 ≤ b ≤ 128 → not128 (bits c) mod 2 ^ b = (- int_value c - 1) mod 2 ^ b.
Proof.
  intros Hwf Hb. unfold not128, as_unsigned128, Z.lnot. rewrite <-Z.sub_1_r.
  assert (2 ^ b ≠ 0) by (apply Z.pow_nonzero; lia).
  rewrite Z.mod_mod_divide by (exists (2 ^ (128 - b)); rewrite <-Z.pow_add_r by lia; f_equal; lia).
  rewrite (Zminus_mod (- bits c)), (Zminus_mod (- int_value c)).
  do 2 f_equal. rewrite <-!Z.sub_0_l, (Zminus_mod 0 (bits c)), (Zminus_mod 0 (int_value c)).
  by rewrite (bits_mod_value c b).
Qed.

Lemma typed_not_value sgn b v :
  1 ≤ b ≤ 128 → in_range sgn b v →
  let m := (- v - 1) mod 2 ^ b in
  (if sgn then if m <? 2 ^ (b - 1) then m else m - 2 ^ b else m) =
    (if sgn then - v - 1 else 2 ^ b - 1 - v).
Proof.
  intros Hb Hv m. assert (2 ^ b = 2 * 2 ^ (b - 1)) as Hp.
  { rewrite <-Z.pow_succ_r by lia. f_equal. lia. }
  unfold in_range in Hv. subst m. destruct sgn.
  - destruct (decide (0 ≤ - v - 1)).
    + rewrite Z.mod_small by lia. case_match; bool_to_prop; lia.
    + replace ((- v - 1) mod 2 ^ b) with (- v - 1 + 2 ^ b) by (apply (Z.mod_unique_pos _ _ (-1)); lia).
      case_match; bool_to_prop; lia.
  - symmetry. apply (Z.mod_unique_pos _ _ (-1)); lia.
Qed.

(** bitwise not in an integer type of 1 to 128 bits complements exactly the
    bits of the type: the result is [-v-1] in a signed type and [2^b-1-v] in an
    unsigned one, and belongs to the type. *)
Theorem const_typed_bit_not_exact (c : IntConst) (sem : ConstIntegerSemantics)
    (Hwf : int_wf c) (Hb : 1 ≤ sem_bits sem ≤ 128)
    (Hv : in_range (sem_signed sem) (sem_bits sem) (int_value c)) :
  let r := if sem_signed sem then - int_value c - 1 else 2 ^ sem_bits sem - 1 - int_value c in
  const_typed_bit_not c (Some sem) = Ok (int_of (sem_signed sem) r) ∧
  in_range (sem_signed sem) (sem_bits sem) r.
Proof.
  intros r. split; [|subst r; unfold in_range in *; destruct (sem_signed sem); lia].
  unfold const_typed_bit_not. set (b := sem_bits sem) in *.
  assert ((if (1 <=? b) && (b <=? 127) then Some (Z.shiftl 1 b - 1)
           else if b =? 128 then Some u128_max else None) = Some (2 ^ b - 1)) as ->.
  { rewrite Z.shiftl_1_l. destruct (_ && _) eqn:Hr; [done|]. apply andb_false_iff in Hr.
    destruct (b =? 128) eqn:Hb'; bool_to_prop; [by rewrite Hb'|]. lia. }
  cbn zeta iota. rewrite land_mask, not_mod by (done || lia).
  pose proof (typed_not_value (sem_signed sem) b (int_value c) Hb Hv) as Hval. cbn zeta in Hval.
  pose proof (Z.mod_pos_bound (- int_value c - 1) (2 ^ b) ltac:(apply Z.pow_pos_nonneg; lia)).
  destruct (sem_signed sem); unfold int_of; subst r; [|by rewrite Hval].
  by rewrite sign_extend, Hval.
Qed.

Lemma const_typed_bit_not_exact_witness :
  const_typed_bit_not (unsigned 0) (Some (mkSemantics 127 true)) = Ok (from_i128 (-1)).
Proof.
  refine (proj1 (const_typed_bit_not_exact (unsigned 0) (mkSemantics 127 true) _ _ _));
    [by apply (bool_decide_unpack _)|simpl; lia|by apply (bool_decide_unpack _)].
Defined.

(** a constant becomes an array length exactly when its value is a [u64],
    and the error tells a negative value from a value that is too large. *)
Theorem int_to_array_len_exact (sp : Span) (c : IntConst) (Hwf : int_wf c) :
  int_to_array_len sp c =
    if int_value c <? 0 then Err (mkConstError sp "array length must be non-negative")
    else if int_value c <=? u64_max then Ok (int_value c)
    else Err (mkConstError sp "array length is too large").
Proof.
  unfold int_to_array_len. rewrite as_i128_spec by done. pose proof (int_value_range c Hwf).
  unfold u64_max, in_range. change (128 - 1) with 127. case_bool_decide.
  - destruct (int_value c <? 0) eqn:?; [done|]. bool_to_prop. unfold u64_max.
    destruct (_ <=? _) eqn:?; bool_to_prop.
    + by rewrite checked_in by lia.
    + by rewrite (proj2 (checked_None _ _ _)) by lia.
  - destruct (int_value c <? 0) eqn:?; bool_to_prop; [lia|].
    destruct (_ <=? _) eqn:?; bool_to_prop; [lia|done].
Qed.

Lemma int_to_array_len_exact_witness :
  int_to_array_len (mkSpan 3 7) (from_i128 (-1)) =
    Err (mkConstError (mkSpan 3 7) "array length must be non-negative").
Proof.
  eapply eq_trans; [apply int_to_array_len_exact; by apply (bool_decide_unpack _)|reflexivity].
Defined.

(** C35: a cast to an unsigned type is the value modulo the width and always fits
    it; a cast to a signed type keeps the low bits without extending their sign,
    so its result fits the type exactly when bit [b-1] of the value is clear. *)
Theorem cast_to_primitive_int_value (c : IntConst) (p : PrimitiveTy) (w b : Z)
    (Hwf : int_wf c) (Hp : integer_bits p w = Some b) (Hb : 1 ≤ b ≤ 128) :
  ∃ c', cast_to_primitive_int c p w = Some c' ∧ int_wf c' ∧
    bits c' = int_value c mod 2 ^ b ∧ signed c' = is_signed_integer p ∧
    fits_primitive_int c' p w =
      negb (is_signed_integer p && (b <? 128) && (2 ^ (b - 1) <=? int_value c mod 2 ^ b)).
Proof.
  unfold cast_to_primitive_int. rewrite Hp. cbn [mbind option_bind].
  assert (integer_mask b = 2 ^ b - 1) as ->.
  { unfold integer_mask. rewrite Z.shiftl_1_l. destruct (128 <=? b) eqn:?; bool_to_prop; [|done].
    by replace b with 128 by lia. }
  rewrite land_mask, bits_mod_value by (done || lia).
  assert (0 < 2 ^ b ≤ 2 ^ 128) by (split; [apply Z.pow_pos_nonneg|apply Z.pow_le_mono_r]; lia).
  pose proof (Z.mod_pos_bound (int_value c) (2 ^ b) ltac:(lia)) as Hm.
  assert (2 ^ b = 2 * 2 ^ (b - 1)) as Hsplit by (rewrite <-Z.pow_succ_r by lia; f_equal; lia).
  set (m := int_value c mod 2 ^ b) in *.
  assert (int_wf (mkInt m (is_signed_integer p))) as Hwf' by (unfold int_wf; simpl; lia).
  exists (mkInt m (is_signed_integer p)). split_and!; [by destruct (is_signed_integer p)|done..|].
  rewrite (fits_primitive_int_spec _ p w b) by done. unfold in_range, int_value. simpl.
  destruct (is_signed_integer p); simpl.
  - unfold as_signed128. destruct (decide (b = 128)) as [->|].
    + rewrite bool_decide_true; [done|]. change (128 - 1) with 127 in *. case_match; bool_to_prop; lia.
    + assert (2 ^ b ≤ 2 ^ 127) by (apply Z.pow_le_mono_r; lia).
      destruct (b <? 128) eqn:?; bool_to_prop; [|lia]. simpl.
      destruct (m <? 2 ^ 127) eqn:?; bool_to_prop; [|lia]. case_bool_decide; lia.
  - by rewrite bool_decide_true by lia.
Qed.

Lemma cast_to_primitive_int_value_witness :
  ∃ c', cast_to_primitive_int (from_i128 (-1)) I8 64 = Some c' ∧ int_wf c' ∧
    bits c' = int_value (from_i128 (-1)) mod 2 ^ 8 ∧ signed c' = true ∧
    fits_primitive_int c' I8 64 = false.
Proof.
  apply (cast_to_primitive_int_value (from_i128 (-1)) I8 64 8);
    [by apply (bool_decide_unpack _)|reflexivity|lia].
Defined.
