(* ===== verification/Layout.v ===== *)
(** * nia-layout: sizes, alignments and field placement

    [crates/nia-layout/src/abi.rs], [aggregate.rs] and the representation steps
    of [lib.rs].  Every size, alignment and offset is a [u64]: the checked
    additions and multiplications of the source return [None] outside
    [0 .. u64::MAX].  The walk over the type store that finds the layouts of the
    fields ([LayoutComputer::layout_ty], generics and caches) is not modelled; the
    functions here start from the field layouts it produces. *)

From S2P Require Import Prelude RustStd Target Ty.

Definition add64 (a b : Z) : option Z := checked 0 u64_max (a + b).
Definition mul64 (a b : Z) : option Z := checked 0 u64_max (a * b).

(** ** Data *)

Record TypeLayout := mkLayout { size : Z; align : Z }.

#[global] Instance TypeLayout_eq_dec : EqDecision TypeLayout.
Proof. solve_decision. Defined.

Definition builtin_value (l : TypeLayout) (builtin : LayoutBuiltin) : Z :=
  match builtin with LSize => size l | LAlign => align l end.

Record TargetDataLayout := mkDataLayout {
  pointer_size : Z;
  pointer_align : Z;
  wide_scalar_align : Z;
}.

Definition LP64 : TargetDataLayout := mkDataLayout 8 8 8.

Definition for_target (target : TargetConfig) : TargetDataLayout :=
  let pointer_size := Target.pointer_width target / 8 in
  mkDataLayout pointer_size pointer_size (if decide (arch target = X86) then 4 else 8).

Record FieldLayout := mkField { def_id : Z; offset : Z; layout : TypeLayout }.
Record StructLayout := mkStruct { slayout : TypeLayout; fields : list FieldLayout }.
Record PendingFieldLayout := mkPending {
  pdef_id : Z;
  source_index : Z;
  playout : TypeLayout;
}.

Record EnumFieldLayout := mkEnumField {
  edef_id : option Z;
  eoffset : Z;
  elayout : TypeLayout;
}.
Record PendingEnumFieldLayout := mkPendingEnum { pedef_id : option Z; pelayout : TypeLayout }.
Record EnumVariantLayout := mkVariant {
  vdef_id : Z;
  payload : TypeLayout;
  vfields : list EnumFieldLayout;
}.
Record EnumLayout := mkEnum {
  enlayout : TypeLayout;
  tag : TypeLayout;
  payload_offset : option Z;
  variants : list EnumVariantLayout;
}.

(** ** abi.rs *)

Definition align_to (value align : Z) : option Z :=
  if align =? 0 then None
  else
    let remainder := value mod align in
    if remainder =? 0 then Some value else add64 value (align - remainder).

Definition primitive_layout (p : PrimitiveTy) (target : TargetDataLayout) : TypeLayout :=
  match p with
  | I8 | U8 | Bool => mkLayout 1 1
  | I16 | U16 => mkLayout 2 2
  | I32 | U32 | F32 | Char => mkLayout 4 4
  | I64 | U64 | F64 => mkLayout 8 (wide_scalar_align target)
  | I128 | U128 => mkLayout 16 16
  | Isize | Usize => mkLayout (pointer_size target) (pointer_align target)
  | Never => mkLayout 0 1
  end.

(** [then_some] evaluates its argument, so the multiplication is checked first. *)
Definition fat_pointer_layout (target : TargetDataLayout) : option TypeLayout :=
  sz ← mul64 (pointer_size target) 2;
  if pointer_align target =? 0 then None else Some (mkLayout sz (pointer_align target)).

Definition array_layout (element : TypeLayout) (len : Z) : option TypeLayout :=
  if align element =? 0 then None
  else sz ← mul64 (size element) len; Some (mkLayout sz (align element)).

Definition range_layout (kind : RangeTyKind) (bound : option TypeLayout) : option TypeLayout :=
  let field_count :=
    match kind with
    | Exclusive | Inclusive => 2
    | RFrom | RTo | ToInclusive => 1
    | Full => 0
    end in
  match bound with
  | None => if field_count =? 0 then Some (mkLayout 0 1) else None
  | Some bound => if field_count =? 0 then None else array_layout bound field_count
  end.

(** The loop of [sequential_layout]. *)
Fixpoint sequential_loop (sz max_align : Z) (fields : list TypeLayout) : option (Z * Z) :=
  match fields with
  | [] => Some (sz, max_align)
  | field :: fields =>
    sz ← align_to sz (align field);
    sz ← add64 sz (size field);
    sequential_loop sz (Z.max max_align (align field)) fields
  end.

Definition sequential_layout (fields : list TypeLayout) : option TypeLayout :=
  '(sz, max_align) ← sequential_loop 0 1 fields;
  sz ← align_to sz max_align;
  Some (mkLayout sz max_align).

(** [u64::checked_next_power_of_two]: the least power of two not below [n]. *)
Definition checked_next_power_of_two (n : Z) : option Z := checked 0 u64_max (2 ^ Z.log2_up n).

Definition vector_layout (element : PrimitiveTy) (lanes : Z) (target : TargetDataLayout) :
    option TypeLayout :=
  if negb (is_vector_element element) || (lanes =? 0) then None
  else
    lane_bits ←
      (if bool_decide (element = Bool) then Some 1
       else mul64 (size (primitive_layout element target)) 8);
    store_bits ← mul64 lane_bits lanes;
    store_bits ← add64 store_bits 7;
    let store_size := store_bits / 8 in
    align ← checked_next_power_of_two store_size;
    sz ← align_to store_size align;
    Some (mkLayout sz align).

Definition union_layout_from_fields (fields : list TypeLayout) : option TypeLayout :=
  let max_size := foldl (λ m f, Z.max m (size f)) 0 fields in
  let max_align := foldl (λ m f, Z.max m (align f)) 1 fields in
  sz ← align_to max_size max_align;
  Some (mkLayout sz max_align).

(** [iter().max().unwrap_or(d)]. *)
Definition max_or (d : Z) (l : list Z) : Z :=
  match l with [] => d | x :: l => foldl Z.max x l end.

Definition tagged_union_layout_with_tag (tag : TypeLayout) (payloads : list TypeLayout) :
    option TypeLayout :=
  let payload_size := max_or 0 (size <$> payloads) in
  let payload_align := max_or 1 (align <$> payloads) in
  let al := Z.max (align tag) payload_align in
  payload_offset ← align_to (size tag) payload_align;
  end_ ← add64 payload_offset payload_size;
  sz ← align_to end_ al;
  Some (mkLayout sz al).

Definition tagged_union_layout (payloads : list TypeLayout) : option TypeLayout :=
  tagged_union_layout_with_tag (mkLayout 1 1) payloads.

(** ** aggregate.rs *)

(** The placement loops: the offset, the maximal alignment and the placed fields. *)
Fixpoint place_struct_loop (off max_align : Z) (fields : list PendingFieldLayout) :
    option (Z * Z * list FieldLayout) :=
  match fields with
  | [] => Some (off, max_align, [])
  | field :: fields =>
    off ← align_to off (align (playout field));
    let placed := mkField (pdef_id field) off (playout field) in
    off ← add64 off (size (playout field));
    '(off, max_align, rest) ←
      place_struct_loop off (Z.max max_align (align (playout field))) fields;
    Some (off, max_align, placed :: rest)
  end.

Definition place_struct_fields (fields : list PendingFieldLayout) : option StructLayout :=
  '(off, max_align, placed) ← place_struct_loop 0 1 fields;
  sz ← align_to off max_align;
  Some (mkStruct (mkLayout sz max_align) placed).

Fixpoint place_enum_loop (off max_align : Z) (fields : list PendingEnumFieldLayout) :
    option (Z * Z * list EnumFieldLayout) :=
  match fields with
  | [] => Some (off, max_align, [])
  | field :: fields =>
    off ← align_to off (align (pelayout field));
    let placed := mkEnumField (pedef_id field) off (pelayout field) in
    off ← add64 off (size (pelayout field));
    '(off, max_align, rest) ←
      place_enum_loop off (Z.max max_align (align (pelayout field))) fields;
    Some (off, max_align, placed :: rest)
  end.

Definition place_enum_fields (fields : list PendingEnumFieldLayout) :
    option (TypeLayout * list EnumFieldLayout) :=
  '(off, max_align, placed) ← place_enum_loop 0 1 fields;
  sz ← align_to off max_align;
  Some (mkLayout sz max_align, placed).

(** ** The representation steps of lib.rs *)

(** The comparator of [sorted_field_layout]: not greater than, in the order by
    decreasing alignment, decreasing size and increasing source index. *)
Definition field_le (left right : PendingFieldLayout) : bool :=
  let la := align (playout left) in let ra := align (playout right) in
  let ls := size (playout left) in let rs := size (playout right) in
  (ra <? la) || ((ra =? la) && ((rs <? ls) || ((rs =? ls) && (source_index left <=? source_index right)))).

(** [slice::sort_by], a stable sort: an element goes before the first one it does
    not exceed. *)
Fixpoint insert_field (f : PendingFieldLayout) (l : list PendingFieldLayout) :
    list PendingFieldLayout :=
  match l with
  | [] => [f]
  | g :: l' => if field_le f g then f :: l else g :: insert_field f l'
  end.

Definition sort_fields (l : list PendingFieldLayout) : list PendingFieldLayout :=
  foldr insert_field [] l.

(** [layout_fields] numbers the fields in source order. *)
Definition number_fields (fs : list (Z * TypeLayout)) : list PendingFieldLayout :=
  imap (λ i f, mkPending f.1 (Z.of_nat i) f.2) fs.

(** [field_order_layout], [sorted_field_layout] and the choice between them. *)
Definition field_order_layout (fs : list (Z * TypeLayout)) : option StructLayout :=
  place_struct_fields (number_fields fs).

Definition sorted_field_layout (fs : list (Z * TypeLayout)) : option StructLayout :=
  place_struct_fields (sort_fields (number_fields fs)).

Definition struct_layout (is_extern is_tuple : bool) (fs : list (Z * TypeLayout)) :
    option StructLayout :=
  if is_extern then field_order_layout fs
  else if is_tuple then field_order_layout fs else sorted_field_layout fs.

Definition union_field_layout (fs : list (Z * TypeLayout)) : option StructLayout :=
  let fields := (λ f, mkField f.1 0 f.2) <$> fs in
  l ← union_layout_from_fields (layout <$> fields);
  Some (mkStruct l fields).

(** The payload loop of [enum_layout]. *)
Fixpoint place_variants (vs : list (Z * list PendingEnumFieldLayout)) :
    option (list EnumVariantLayout) :=
  match vs with
  | [] => Some []
  | (did, pending) :: vs =>
    '(payload, fields) ← place_enum_fields pending;
    cons (mkVariant did payload fields) <$> place_variants vs
  end.

(** [enum_layout] from the layouts of the tag and of the payload fields. *)
Definition enum_layout (tag : TypeLayout) (vs : list (Z * list PendingEnumFieldLayout)) :
    option EnumLayout :=
  variants ← place_variants vs;
  let has_payload := existsb (λ v, match vfields v with [] => false | _ => true end) variants in
  layout ←
    (if has_payload then tagged_union_layout_with_tag tag (payload <$> variants) else Some tag);
  payload_offset ←
    (if has_payload then
       let payload_align := max_or 1 (align <$> (payload <$> variants)) in
       Some <$> align_to (size tag) payload_align
     else Some None);
  Some (mkEnum layout tag payload_offset variants).
