(* ===== verification/LayoutProps.v ===== *)
(** * nia-layout: aligned, disjoint and minimal layouts

    The checked loops are shown to compute the unbounded layout whenever it fits
    [u64]; the facts about placement are then proved of the unbounded one. *)

From S2P Require Import Prelude RustStd Target Ty Layout.
From Stdlib Require Import Sorting.Sorted.

(** ** Rounding up *)

Definition round_up (v al : Z) : Z := v + (- v) mod al.

Lemma round_up_ge v al : 0 < al → v ≤ round_up v al.
Proof. intros. unfold round_up. pose proof (Z.mod_pos_bound (- v) al). lia. Qed.

Lemma round_up_lt v al : 0 < al → round_up v al < v + al.
Proof. intros. unfold round_up. pose proof (Z.mod_pos_bound (- v) al). lia. Qed.

Lemma round_up_divide v al : 0 < al → (al | round_up v al).
Proof.
  intros. unfold round_up. exists (- (- v / al)).
  pose proof (Z.div_mod (- v) al ltac:(lia)). lia.
Qed.

(** The least multiple. *)
Lemma round_up_least v al m : 0 < al → v ≤ m → (al | m) → round_up v al ≤ m.
Proof.
  intros Hal Hm [k ->]. destruct (round_up_divide v al Hal) as [j Hj].
  pose proof (round_up_lt v al Hal) as Hlt. rewrite Hj in *.
  assert (j * al < (k + 1) * al) as Hlt' by lia. apply Z.mul_lt_mono_pos_r in Hlt'; [nia|done].
Qed.

Lemma round_up_id v al : 0 < al → (al | v) → round_up v al = v.
Proof.
  intros Hal Hd. pose proof (round_up_ge v al Hal).
  pose proof (round_up_least v al v Hal ltac:(lia) Hd). lia.
Qed.

Lemma round_up_mono v w al : 0 < al → v ≤ w → round_up v al ≤ round_up w al.
Proof.
  intros. apply round_up_least; [done| |by apply round_up_divide].
  pose proof (round_up_ge w al). lia.
Qed.

Lemma align_to_spec v al : 0 < al → 0 ≤ v ≤ u64_max → align_to v al = checked 0 u64_max (round_up v al).
Proof.
  intros Hal Hv. unfold align_to, add64, round_up. destruct (al =? 0) eqn:?; bool_to_prop; [lia|].
  cbn zeta. destruct (v mod al =? 0) eqn:Hm; bool_to_prop.
  - rewrite Z.mod_opp_l_z by lia. rewrite Z.add_0_r. by rewrite checked_in.
  - by rewrite Z.mod_opp_l_nz by lia.
Qed.

Lemma align_to_Some v al r :
  0 ≤ v ≤ u64_max → 0 ≤ al → align_to v al = Some r → 0 < al ∧ r = round_up v al ∧ r ≤ u64_max.
Proof.
  intros Hv Hal. destruct (decide (al = 0)) as [->|]; [done|].
  rewrite align_to_spec by lia. intros [-> ?]%checked_Some. split_and!; [lia|done|lia].
Qed.

(** ** Layouts *)

(** Positive alignment and non-negative size. *)
Definition layout_pos (l : TypeLayout) : Prop := 0 < align l ∧ 0 ≤ size l.

(** The invariant of computed layouts: the alignment is a power of two that
    divides the size. *)
Definition layout_ok (l : TypeLayout) : Prop :=
  (∃ k, 0 ≤ k ∧ align l = 2 ^ k) ∧ (align l | size l) ∧ 0 ≤ size l ≤ u64_max.

Lemma layout_ok_pos l : layout_ok l → layout_pos l.
Proof. intros ((k&?&Hk)&_&?). split; [|lia]. rewrite Hk. apply Z.pow_pos_nonneg; lia. Qed.

Lemma pow2_divide j k : 0 ≤ j → 0 ≤ k → 2 ^ j ≤ 2 ^ k → (2 ^ j | 2 ^ k).
Proof.
  intros Hj Hk Hle. apply Z.pow_le_mono_r_iff in Hle; [|lia..].
  exists (2 ^ (k - j)). rewrite <-Z.pow_add_r by lia. f_equal. lia.
Qed.

Lemma align_divide l1 l2 : layout_ok l1 → layout_ok l2 → align l1 ≤ align l2 → (align l1 | align l2).
Proof. intros ((j&?&->)&_) ((k&?&->)&_). by apply pow2_divide. Qed.

(** The maximal alignment, as the loops accumulate it. *)
Definition max_align (m : Z) (ls : list TypeLayout) : Z := foldl (λ m l, Z.max m (align l)) m ls.

Lemma max_align_ge m ls : m ≤ max_align m ls.
Proof.
  revert m. induction ls as [|l ls IH]; intros m; simpl; [lia|].
  pose proof (IH (Z.max m (align l))). lia.
Qed.

Lemma max_align_in m ls l : l ∈ ls → align l ≤ max_align m ls.
Proof.
  intros Hl. revert m. induction Hl as [l ls|l l' ls Hl IH]; intros m; simpl.
  - pose proof (max_align_ge (Z.max m (align l)) ls). unfold max_align in *. lia.
  - apply IH.
Qed.

Lemma max_align_pow2 m ls :
  (∃ k, 0 ≤ k ∧ m = 2 ^ k) → Forall layout_ok ls → ∃ k, 0 ≤ k ∧ max_align m ls = 2 ^ k.
Proof.
  intros Hm Hls. revert m Hm. induction Hls as [|l ls [Hl _] _ IH]; intros m Hm; [done|].
  simpl. apply IH. by destruct (Z.max_spec m (align l)) as [[_ ->]|[_ ->]].
Qed.

Lemma max_align_divide ls l :
  Forall layout_ok ls → l ∈ ls → (align l | max_align 1 ls).
Proof.
  intros Hls Hl. destruct (max_align_pow2 1 ls) as (k&?&Hk); [by exists 0|done|].
  pose proof (max_align_in 1 ls l Hl). rewrite Forall_forall in Hls.
  destruct (Hls l Hl) as ((j&?&Hj)&_). rewrite Hj, Hk in *. by apply pow2_divide.
Qed.

Lemma max_align_perm m ls ls' : ls ≡ₚ ls' → max_align m ls = max_align m ls'.
Proof.
  intros Hp. revert m. induction Hp as [|l ls ls' _ IH|l1 l2 ls|ls1 ls2 ls3 _ IH1 _ IH2]; intros m; simpl.
  - done.
  - apply IH.
  - f_equal. lia.
  - by rewrite IH1.
Qed.

(** ** Unbounded placement *)

Fixpoint ideal_end (off : Z) (ls : list TypeLayout) : Z :=
  match ls with
  | [] => off
  | l :: ls => ideal_end (round_up off (align l) + size l) ls
  end.

Fixpoint ideal_offsets (off : Z) (ls : list TypeLayout) : list Z :=
  match ls with
  | [] => []
  | l :: ls => round_up off (align l) :: ideal_offsets (round_up off (align l) + size l) ls
  end.

Definition ideal_layout (ls : list TypeLayout) : TypeLayout :=
  mkLayout (round_up (ideal_end 0 ls) (max_align 1 ls)) (max_align 1 ls).

Lemma ideal_end_ge off ls : Forall layout_pos ls → off ≤ ideal_end off ls.
Proof.
  intros Hls. revert off. induction Hls as [|l ls [Ha Hs] _ IH]; intros off; simpl; [lia|].
  pose proof (IH (round_up off (align l) + size l)). pose proof (round_up_ge off (align l) Ha). lia.
Qed.

Lemma ideal_offsets_length off ls : length (ideal_offsets off ls) = length ls.
Proof. revert off. induction ls as [|l ls IH]; intros off; simpl; [done|]. by rewrite IH. Qed.

(** Every offset is aligned and lies between the start and the end. *)
Lemma ideal_offsets_lookup off ls i o l :
  Forall layout_pos ls → ideal_offsets off ls !! i = Some o → ls !! i = Some l →
  (align l | o) ∧ off ≤ o ∧ o + size l ≤ ideal_end off ls.
Proof.
  intros Hls. revert off i. induction Hls as [|l' ls [Ha Hs] Hls IH]; intros off i; [done|].
  destruct i as [|i]; simpl.
  - intros ??; simplify_eq. pose proof (ideal_end_ge (round_up off (align l) + size l) ls Hls).
    split_and!; [by apply round_up_divide|by apply round_up_ge|lia].
  - intros Ho Hl. destruct (IH _ _ Ho Hl) as (?&?&?). pose proof (round_up_ge off (align l') Ha).
    split_and!; [done|lia|done].
Qed.

(** An earlier element ends before a later one starts. *)
Lemma ideal_offsets_disjoint off ls i j oi oj li :
  Forall layout_pos ls → (i < j)%nat →
  ideal_offsets off ls !! i = Some oi → ideal_offsets off ls !! j = Some oj → ls !! i = Some li →
  oi + size li ≤ oj.
Proof.
  intros Hls. revert off i j. induction Hls as [|l ls [Ha Hs] Hls IH]; intros off i j Hij; [done|].
  destruct j as [|j]; [lia|]. destruct i as [|i]; simpl.
  - intros ? Hj ?; simplify_eq. destruct (ls !! j) as [lj|] eqn:Hlj.
    + by destruct (ideal_offsets_lookup _ _ _ _ _ Hls Hj Hlj) as (_&?&_).
    + apply lookup_lt_Some in Hj. apply lookup_ge_None in Hlj. rewrite ideal_offsets_length in Hj. lia.
  - intros. eapply IH; [|done..]. lia.
Qed.

(** No placement of these fields in this order ends earlier. *)
Lemma ideal_end_least off ls (place : list Z) e :
  Forall layout_pos ls → off ≤ e →
  length place = length ls →
  (∀ i o l, place !! i = Some o → ls !! i = Some l → (align l | o) ∧ off ≤ o ∧ o + size l ≤ e) →
  (∀ i j oi oj li, (i < j)%nat → place !! i = Some oi → place !! j = Some oj →
    ls !! i = Some li → oi + size li ≤ oj) →
  ideal_end off ls ≤ e.
Proof.
  intros Hls. revert off place. induction Hls as [|l ls [Ha Hs] Hls IH]; intros off place Hoe Hlen Hok Hdis;
    [done|].
  destruct place as [|o place]; [done|]. simpl. destruct (Hok 0%nat o l) as (Hd&Hoff&He); [done..|].
  pose proof (round_up_least off (align l) o Ha Hoff Hd) as Hle.
  assert (ideal_end (round_up off (align l) + size l) ls ≤ e); [|done].
  apply (IH _ place); [lia|simpl in Hlen; lia| |].
  - intros i o' l' Ho' Hl'. destruct (Hok (S i) o' l') as (?&?&?); [done..|].
    pose proof (Hdis 0%nat (S i) o o' l ltac:(lia) eq_refl Ho' eq_refl). split_and!; [done|lia|done].
  - intros i j oi oj li Hij Hi Hj Hl. eapply (Hdis (S i) (S j)); [lia|done..].
Qed.

(** ** The checked loops compute the unbounded placement *)

(** One step of a placement loop. *)
Lemma place_step {B} off l (k : Z → Z → option B) :
  0 ≤ off ≤ u64_max → layout_pos l →
  (o ← align_to off (align l); e ← add64 o (size l); k o e) =
    let o := round_up off (align l) in if o + size l <=? u64_max then k o (o + size l) else None.
Proof.
  intros Hoff [Ha Hs]. rewrite align_to_spec by done. cbn zeta.
  pose proof (round_up_ge off (align l) Ha). unfold add64.
  destruct (decide (round_up off (align l) ≤ u64_max)).
  - rewrite checked_in by lia. cbn [mbind option_bind]. destruct (_ <=? _) eqn:?; bool_to_prop.
    + by rewrite checked_in by lia.
    + by rewrite (proj2 (checked_None _ _ _)) by lia.
  - rewrite (proj2 (checked_None _ _ _)) by lia. destruct (_ <=? _) eqn:?; bool_to_prop; [lia|done].
Qed.

Lemma sequential_loop_spec off m ls :
  0 ≤ off ≤ u64_max → Forall layout_pos ls →
  sequential_loop off m ls =
    if ideal_end off ls <=? u64_max then Some (ideal_end off ls, max_align m ls) else None.
Proof.
  intros Hoff Hls. revert off m Hoff. induction Hls as [|l ls Hl Hls IH]; intros off m Hoff; simpl.
  { destruct (_ <=? _) eqn:?; bool_to_prop; [done|lia]. }
  rewrite (place_step off l (λ _ e, sequential_loop e _ ls)) by done. cbn zeta.
  pose proof (round_up_ge off (align l) (proj1 Hl)). pose proof (proj2 Hl).
  destruct (_ <=? _) eqn:Hle; bool_to_prop; [apply IH; lia|].
  pose proof (ideal_end_ge (round_up off (align l) + size l) ls Hls).
  destruct (ideal_end _ _ <=? _) eqn:?; bool_to_prop; [lia|done].
Qed.

Lemma place_struct_loop_spec off m fs :
  0 ≤ off ≤ u64_max → Forall layout_pos (playout <$> fs) →
  place_struct_loop off m fs =
    if ideal_end off (playout <$> fs) <=? u64_max
    then Some (ideal_end off (playout <$> fs), max_align m (playout <$> fs),
               zip_with (λ f o, mkField (pdef_id f) o (playout f)) fs
                 (ideal_offsets off (playout <$> fs)))
    else None.
Proof.
  revert off m. induction fs as [|f fs IH]; intros off m Hoff Hls.
  { simpl. destruct (_ <=? _) eqn:?; bool_to_prop; [done|lia]. }
  rewrite fmap_cons in *. apply Forall_cons in Hls as [Hl Hls]. cbn [place_struct_loop].
  rewrite (place_step off (playout f) (λ o e,
    '(off, ma, rest) ← place_struct_loop e (Z.max m (align (playout f))) fs;
    Some (off, ma, mkField (pdef_id f) o (playout f) :: rest))) by done.
  cbn zeta. cbn [ideal_end ideal_offsets zip_with].
  pose proof (round_up_ge off (align (playout f)) (proj1 Hl)). pose proof (proj2 Hl).
  pose proof (ideal_end_ge (round_up off (align (playout f)) + size (playout f)) _ Hls).
  destruct (round_up off (align (playout f)) + size (playout f) <=? _) eqn:Hle; bool_to_prop.
  - rewrite IH by (done || lia). by destruct (ideal_end _ _ <=? _).
  - destruct (ideal_end _ _ <=? _) eqn:?; bool_to_prop; [lia|done].
Qed.

Lemma place_enum_loop_spec off m fs :
  0 ≤ off ≤ u64_max → Forall layout_pos (pelayout <$> fs) →
  place_enum_loop off m fs =
    if ideal_end off (pelayout <$> fs) <=? u64_max
    then Some (ideal_end off (pelayout <$> fs), max_align m (pelayout <$> fs),
               zip_with (λ f o, mkEnumField (pedef_id f) o (pelayout f)) fs
                 (ideal_offsets off (pelayout <$> fs)))
    else None.
Proof.
  revert off m. induction fs as [|f fs IH]; intros off m Hoff Hls.
  { simpl. destruct (_ <=? _) eqn:?; bool_to_prop; [done|lia]. }
  rewrite fmap_cons in *. apply Forall_cons in Hls as [Hl Hls]. cbn [place_enum_loop].
  rewrite (place_step off (pelayout f) (λ o e,
    '(off, ma, rest) ← place_enum_loop e (Z.max m (align (pelayout f))) fs;
    Some (off, ma, mkEnumField (pedef_id f) o (pelayout f) :: rest))) by done.
  cbn zeta. cbn [ideal_end ideal_offsets zip_with].
  pose proof (round_up_ge off (align (pelayout f)) (proj1 Hl)). pose proof (proj2 Hl).
  pose proof (ideal_end_ge (round_up off (align (pelayout f)) + size (pelayout f)) _ Hls).
  destruct (round_up off (align (pelayout f)) + size (pelayout f) <=? _) eqn:Hle; bool_to_prop.
  - rewrite IH by (done || lia). by destruct (ideal_end _ _ <=? _).
  - destruct (ideal_end _ _ <=? _) eqn:?; bool_to_prop; [lia|done].
Qed.

Lemma max_align_pos m ls : 0 < m → 0 < max_align m ls.
Proof. pose proof (max_align_ge m ls). lia. Qed.

Lemma ideal_size_nonneg ls : Forall layout_pos ls → 0 ≤ ideal_end 0 ls ≤ size (ideal_layout ls).
Proof.
  intros Hls. pose proof (ideal_end_ge 0 ls Hls).
  pose proof (round_up_ge (ideal_end 0 ls) (max_align 1 ls) (max_align_pos 1 ls ltac:(lia))).
  simpl. lia.
Qed.

(** The tail padding. *)
Lemma pad_tail {B} ls (k : Z → B) :
  Forall layout_pos ls →
  (if ideal_end 0 ls <=? u64_max
   then sz ← align_to (ideal_end 0 ls) (max_align 1 ls); Some (k sz) else None) =
  if size (ideal_layout ls) <=? u64_max then Some (k (size (ideal_layout ls))) else None.
Proof.
  intros Hls. pose proof (ideal_size_nonneg _ Hls). pose proof (max_align_pos 1 ls ltac:(lia)).
  destruct (ideal_end _ _ <=? _) eqn:He; bool_to_prop.
  - rewrite align_to_spec by lia. destruct (_ <=? _) eqn:Hle; bool_to_prop.
    + rewrite checked_in; [done|]. simpl in *. lia.
    + rewrite (proj2 (checked_None _ _ _)); [done|]. simpl in *. lia.
  - destruct (_ <=? u64_max) eqn:Hle; bool_to_prop; [lia|done].
Qed.

Definition struct_of (fs : list PendingFieldLayout) : StructLayout :=
  mkStruct (ideal_layout (playout <$> fs))
    (zip_with (λ f o, mkField (pdef_id f) o (playout f)) fs (ideal_offsets 0 (playout <$> fs))).

Definition enum_fields_of (fs : list PendingEnumFieldLayout) : list EnumFieldLayout :=
  zip_with (λ f o, mkEnumField (pedef_id f) o (pelayout f)) fs (ideal_offsets 0 (pelayout <$> fs)).

Lemma place_struct_fields_spec fs :
  Forall layout_pos (playout <$> fs) →
  place_struct_fields fs =
    if size (ideal_layout (playout <$> fs)) <=? u64_max then Some (struct_of fs) else None.
Proof.
  intros Hls. unfold place_struct_fields, struct_of.
  rewrite place_struct_loop_spec by (done || (unfold u64_max; lia)).
  etrans; [|apply (pad_tail _ (λ sz, mkStruct (mkLayout sz (max_align 1 (playout <$> fs)))
    (zip_with (λ f o, mkField (pdef_id f) o (playout f)) fs (ideal_offsets 0 (playout <$> fs)))) Hls)].
  by destruct (ideal_end _ _ <=? _).
Qed.

Lemma place_enum_fields_spec fs :
  Forall layout_pos (pelayout <$> fs) →
  place_enum_fields fs =
    if size (ideal_layout (pelayout <$> fs)) <=? u64_max
    then Some (ideal_layout (pelayout <$> fs), enum_fields_of fs) else None.
Proof.
  intros Hls. unfold place_enum_fields.
  rewrite place_enum_loop_spec by (done || (unfold u64_max; lia)).
  etrans; [|apply (pad_tail _ (λ sz, (mkLayout sz (max_align 1 (pelayout <$> fs)),
    enum_fields_of fs)) Hls)].
  by destruct (ideal_end _ _ <=? _).
Qed.

Lemma sequential_layout_spec ls :
  Forall layout_pos ls →
  sequential_layout ls =
    if size (ideal_layout ls) <=? u64_max then Some (ideal_layout ls) else None.
Proof.
  intros Hls. unfold sequential_layout. rewrite sequential_loop_spec by (done || (unfold u64_max; lia)).
  etrans; [|apply (pad_tail _ (λ sz, mkLayout sz (max_align 1 ls)) Hls)].
  by destruct (ideal_end _ _ <=? _).
Qed.

(** ** Struct placement is the least valid one *)

(** A placement in the given order: aligned, disjoint and ordered fields inside a
    size that is a multiple of the maximal alignment. *)
Record valid_placement (ls : list TypeLayout) (offs : list Z) (sz : Z) : Prop := {
  vp_length : length offs = length ls;
  vp_field : ∀ i o l, offs !! i = Some o → ls !! i = Some l →
    (align l | o) ∧ 0 ≤ o ∧ o + size l ≤ sz;
  vp_order : ∀ i j oi oj li, (i < j)%nat → offs !! i = Some oi → offs !! j = Some oj →
    ls !! i = Some li → oi + size li ≤ oj;
  vp_size : (max_align 1 ls | sz) ∧ 0 ≤ sz;
}.

Lemma ideal_valid ls :
  Forall layout_pos ls → valid_placement ls (ideal_offsets 0 ls) (size (ideal_layout ls)).
Proof.
  intros Hls. pose proof (ideal_size_nonneg ls Hls). split.
  - apply ideal_offsets_length.
  - intros i o l Ho Hl. destruct (ideal_offsets_lookup 0 ls i o l) as (?&?&?); [done..|].
    split_and!; [done|done|lia].
  - intros. by eapply ideal_offsets_disjoint.
  - split; [|lia]. apply round_up_divide, max_align_pos. lia.
Qed.

Lemma ideal_least ls offs sz :
  Forall layout_pos ls → valid_placement ls offs sz → size (ideal_layout ls) ≤ sz.
Proof.
  intros Hls [Hlen Hf Ho [Hd H0]]. apply round_up_least; [apply max_align_pos; lia| |done].
  by eapply ideal_end_least.
Qed.

Lemma fmap_zip_left {A B C D} (mk : A → B → C) (g : C → D) (h : A → D) l k :
  (∀ a b, g (mk a b) = h a) → (length l ≤ length k)%nat → g <$> zip_with mk l k = h <$> l.
Proof.
  intros Hg. revert k. induction l as [|a l IH]; intros [|b k] Hk; simpl in *; try done; [lia|].
  rewrite Hg. f_equal. apply IH. lia.
Qed.

Lemma struct_of_fields fs :
  (offset <$> fields (struct_of fs)) = ideal_offsets 0 (playout <$> fs) ∧
  (layout <$> fields (struct_of fs)) = playout <$> fs ∧
  (def_id <$> fields (struct_of fs)) = pdef_id <$> fs.
Proof.
  unfold struct_of. simpl. pose proof (ideal_offsets_length 0 (playout <$> fs)) as Hlen.
  rewrite length_fmap in Hlen.
  split_and!; [apply fmap_zip_with_r; [done|lia]|apply fmap_zip_left; [done|lia]..].
Qed.

(** C26: placing struct fields in a given order succeeds exactly when some valid
    placement in that order has a size within [u64]; the result then keeps every
    field and its layout, is valid (every field aligned, inside the struct and
    before the next, size a multiple of the maximal alignment), and has the least
    size a valid placement can have. *)
Theorem place_struct_fields_least (fs : list PendingFieldLayout)
    (Hpos : Forall layout_pos (playout <$> fs)) :
  match place_struct_fields fs with
  | Some s =>
    (def_id <$> fields s) = pdef_id <$> fs ∧ (layout <$> fields s) = playout <$> fs ∧
    align (slayout s) = max_align 1 (playout <$> fs) ∧
    valid_placement (playout <$> fs) (offset <$> fields s) (size (slayout s)) ∧
    size (slayout s) ≤ u64_max ∧
    ∀ offs sz, valid_placement (playout <$> fs) offs sz → size (slayout s) ≤ sz
  | None => ∀ offs sz, valid_placement (playout <$> fs) offs sz → u64_max < sz
  end.
Proof.
  rewrite place_struct_fields_spec by done. destruct (_ <=? _) eqn:Hle; bool_to_prop.
  - destruct (struct_of_fields fs) as (->&->&->). split_and!; [done|done|done| |done|].
    + by apply ideal_valid.
    + intros. by eapply ideal_least.
  - intros offs sz Hv. pose proof (ideal_least _ _ _ Hpos Hv). lia.
Qed.

Definition sample_fields : list PendingFieldLayout :=
  [mkPending 1 0 (mkLayout 1 1); mkPending 2 1 (mkLayout 8 8); mkPending 3 2 (mkLayout 2 2)].

Lemma place_struct_fields_least_witness :
  ∃ s, place_struct_fields sample_fields = Some s ∧
    (offset <$> fields s) = [0; 8; 16] ∧ size (slayout s) = 24 ∧
    ∀ offs sz, valid_placement (playout <$> sample_fields) offs sz → 24 ≤ sz.
Proof.
  pose proof (place_struct_fields_least sample_fields) as H.
  destruct (place_struct_fields sample_fields) as [s|] eqn:Hs; [|by vm_compute in Hs].
  exists s. destruct H as (_&_&_&_&_&Hmin); [repeat constructor; simpl; lia|].
  injection Hs as <-. split_and!; [done|done|done|exact Hmin].
Defined.

(** ** Reordering the fields of a native struct is optimal *)

Lemma insert_field_perm f l : insert_field f l ≡ₚ f :: l.
Proof.
  induction l as [|g l IH]; [done|]. simpl. case_match; [done|]. rewrite IH. constructor.
Qed.

Lemma sort_fields_perm l : sort_fields l ≡ₚ l.
Proof.
  induction l as [|f l IH]; [done|]. unfold sort_fields in *. simpl. by rewrite insert_field_perm, IH.
Qed.

(** By decreasing alignment. *)
Definition align_desc (f g : PendingFieldLayout) : Prop := align (playout g) ≤ align (playout f).

Lemma field_le_align f g : (if field_le f g then align_desc f g else align_desc g f).
Proof.
  unfold field_le, align_desc. cbn zeta.
  destruct (_ || _) eqn:H.
  - apply orb_true_iff in H as [H|H]; [|apply andb_true_iff in H as [H _]]; bool_to_prop; lia.
  - apply orb_false_iff in H as [H _]. bool_to_prop. lia.
Qed.

Lemma insert_field_sorted f l :
  StronglySorted align_desc l → StronglySorted align_desc (insert_field f l).
Proof.
  induction 1 as [|g l Hl IH Hg]; [by repeat constructor|]. simpl.
  pose proof (field_le_align f g) as Hfg. destruct (field_le f g).
  - constructor; [by constructor|]. constructor; [done|].
    eapply Forall_impl; [exact Hg|]. unfold align_desc in *. simpl. intros. lia.
  - constructor; [done|]. rewrite insert_field_perm. by constructor.
Qed.

Lemma sort_fields_sorted l : StronglySorted align_desc (sort_fields l).
Proof.
  induction l as [|f l IH]; [constructor|]. unfold sort_fields in *. simpl. by apply insert_field_sorted.
Qed.

Definition total_size (ls : list TypeLayout) : Z := foldr (λ l acc, size l + acc) 0 ls.

Lemma total_size_cons l ls : total_size (l :: ls) = size l + total_size ls.
Proof. done. Qed.

Lemma total_size_perm ls ls' : ls ≡ₚ ls' → total_size ls = total_size ls'.
Proof. induction 1; simpl; lia. Qed.

(** Every order needs at least the total size. *)
Lemma ideal_end_total off ls : Forall layout_pos ls → off + total_size ls ≤ ideal_end off ls.
Proof.
  intros Hls. revert off. induction Hls as [|l ls [Ha Hs] _ IH]; intros off; simpl; [lia|].
  pose proof (IH (round_up off (align l) + size l)). pose proof (round_up_ge off (align l) Ha). lia.
Qed.

(** The order by decreasing alignment has no padding. *)
Lemma ideal_end_sorted off fs :
  StronglySorted align_desc fs → Forall layout_ok (playout <$> fs) →
  Forall (λ f, (align (playout f) | off)) fs →
  ideal_end off (playout <$> fs) = off + total_size (playout <$> fs).
Proof.
  intros Hs. revert off. induction Hs as [|f fs Hs IH Hf]; intros off Hok Hoff; [simpl; lia|].
  rewrite fmap_cons in *. cbn [ideal_end]. rewrite total_size_cons. apply Forall_cons in Hok as [Hok1 Hok], Hoff as [Hoff1 Hoff].
  rewrite round_up_id by (done || apply layout_ok_pos; done).
  rewrite IH; [lia|done|].
  rewrite Forall_forall in *. intros g Hg. apply Z.divide_add_r; [by apply Hoff|].
  transitivity (align (playout f)); [|by destruct Hok1 as (_&?&_)].
  apply align_divide; [|done|by apply Hf].
  eapply Forall_forall; [exact Hok|]. apply list_elem_of_fmap. by exists g.
Qed.

Lemma imap_fmap_id {A B C} (mk : nat → A → B) (g : B → C) (h : A → C) l :
  (∀ i a, g (mk i a) = h a) → g <$> imap mk l = h <$> l.
Proof.
  intros Hg. revert mk Hg. induction l as [|a l IH]; intros mk Hg; [done|].
  rewrite imap_cons, !fmap_cons, Hg. f_equal. apply (IH (mk ∘ S)). intros. apply Hg.
Qed.

Lemma number_fields_layouts fs : playout <$> number_fields fs = fs.*2.
Proof. by apply imap_fmap_id. Qed.

Lemma number_fields_ids fs : pdef_id <$> number_fields fs = fs.*1.
Proof. by apply imap_fmap_id. Qed.

Lemma sorted_size fs :
  Forall layout_ok (fs.*2) →
  let ls := playout <$> sort_fields (number_fields fs) in
  ls ≡ₚ fs.*2 ∧ ideal_layout ls = mkLayout (round_up (total_size (fs.*2)) (max_align 1 (fs.*2)))
                                      (max_align 1 (fs.*2)).
Proof.
  intros Hok ls. assert (ls ≡ₚ fs.*2) as Hp.
  { subst ls. rewrite <-number_fields_layouts. by rewrite sort_fields_perm. }
  split; [done|]. unfold ideal_layout. rewrite (max_align_perm _ _ _ Hp). do 2 f_equal.
  subst ls. rewrite ideal_end_sorted.
  - by rewrite (total_size_perm _ _ Hp).
  - apply sort_fields_sorted.
  - by rewrite Hp.
  - apply Forall_forall. intros. apply Z.divide_0_r.
Qed.

(** C27: the field order of native structs is optimal: for fields with
    well-formed layouts the struct occupies the sum of the field sizes rounded up
    to the alignment, no other order of the same fields gives a smaller struct,
    and when the chosen order does not fit [u64] no order does. *)
Theorem sorted_field_layout_optimal (fs : list (Z * TypeLayout))
    (Hok : Forall layout_ok (fs.*2)) (order : list PendingFieldLayout)
    (Hperm : order ≡ₚ number_fields fs) :
  match struct_layout false false fs with
  | Some s =>
    slayout s = mkLayout (round_up (total_size (fs.*2)) (max_align 1 (fs.*2))) (max_align 1 (fs.*2)) ∧
    (def_id <$> fields s) ≡ₚ fs.*1 ∧
    ∀ s', place_struct_fields order = Some s' →
      size (slayout s) ≤ size (slayout s') ∧ align (slayout s) = align (slayout s')
  | None => place_struct_fields order = None
  end.
Proof.
  assert (∀ l, l ≡ₚ fs.*2 → Forall layout_pos l) as Hpos.
  { intros l ->. eapply Forall_impl; [exact Hok|]. apply layout_ok_pos. }
  destruct (sorted_size fs Hok) as [Hp Hsize].
  assert (playout <$> order ≡ₚ fs.*2) as Hp' by (rewrite Hperm; by rewrite number_fields_layouts).
  assert (size (ideal_layout (playout <$> sort_fields (number_fields fs)))
          ≤ size (ideal_layout (playout <$> order))) as Hle.
  { rewrite Hsize. simpl. rewrite (max_align_perm _ _ _ Hp').
    apply round_up_mono; [apply max_align_pos; lia|].
    rewrite <-(total_size_perm _ _ Hp'). by apply (ideal_end_total 0), Hpos. }
  unfold struct_layout, sorted_field_layout. rewrite !place_struct_fields_spec by (by apply Hpos).
  destruct (_ <=? u64_max) eqn:Hfit; bool_to_prop.
  - split_and!; [exact Hsize| |].
    + destruct (struct_of_fields (sort_fields (number_fields fs))) as (_&_&->).
      by rewrite sort_fields_perm, number_fields_ids.
    + destruct (size (ideal_layout (playout <$> order)) <=? u64_max); [|done].
      intros s' [= <-]. split; [exact Hle|]. simpl. by rewrite (max_align_perm _ _ _ Hp), (max_align_perm _ _ _ Hp').
  - destruct (size (ideal_layout (playout <$> order)) <=? u64_max) eqn:?; bool_to_prop; [lia|done].
Qed.

(** The declaration order of a byte, a word and a short needs 24 bytes, the sorted
    one 16. *)
Lemma sorted_field_layout_optimal_witness :
  ∃ s s', struct_layout false false [(1, mkLayout 1 1); (2, mkLayout 8 8); (3, mkLayout 2 2)] = Some s ∧
    place_struct_fields (number_fields [(1, mkLayout 1 1); (2, mkLayout 8 8); (3, mkLayout 2 2)]) = Some s' ∧
    size (slayout s') = 24 ∧ size (slayout s) ≤ size (slayout s').
Proof.
  pose proof (sorted_field_layout_optimal [(1, mkLayout 1 1); (2, mkLayout 8 8); (3, mkLayout 2 2)]
    ltac:(repeat constructor; simpl; first [by exists 0|by exists 1|by exists 3|unfold u64_max; lia])
    (number_fields [(1, mkLayout 1 1); (2, mkLayout 8 8); (3, mkLayout 2 2)]) (reflexivity _)) as H.
  destruct (struct_layout false false _) as [s|] eqn:Hs; [|by vm_compute in Hs].
  destruct H as (_&_&Hmin). eexists s, _. split_and!; [done|reflexivity|reflexivity|].
  by apply Hmin.
Defined.
