(* ===== verification/LayoutAggregates.v ===== *)
(** * nia-layout: enums, vectors and the layout invariant

    Enum payloads are placed after the tag, aligned and in bounds; vectors get
    power-of-two storage; and every layout function preserves the invariant that
    the alignment is a power of two dividing the size. *)

From S2P Require Import Prelude RustStd Target Ty Layout LayoutProps.

(** ** Maxima *)

Lemma foldl_max_ge x l : x ≤ foldl Z.max x l ∧ ∀ y, y ∈ l → y ≤ foldl Z.max x l.
Proof.
  revert x. induction l as [|y l IH]; intros x; simpl.
  - split; [lia|]. by intros y ?%not_elem_of_nil.
  - destruct (IH (Z.max x y)) as [H1 H2]. split; [lia|].
    intros z [->|Hz]%elem_of_cons; [lia|by apply H2].
Qed.

Lemma foldl_max_in x l : foldl Z.max x l = x ∨ foldl Z.max x l ∈ l.
Proof.
  revert x. induction l as [|y l IH]; intros x; simpl; [by left|].
  destruct (IH (Z.max x y)) as [->|H]; [|by right; right].
  destruct (Z.max_spec x y) as [[_ ->]|[_ ->]]; [right; left|by left].
Qed.

Lemma max_or_ge d l x : x ∈ l → x ≤ max_or d l.
Proof.
  destruct l as [|y l]; simpl; [by intros ?%not_elem_of_nil|].
  destruct (foldl_max_ge y l). intros [->|?]%elem_of_cons; auto.
Qed.

Lemma max_or_in d l : max_or d l = d ∨ max_or d l ∈ l.
Proof.
  destruct l as [|y l]; simpl; [by left|]. right.
  destruct (foldl_max_in y l) as [->|?]; [left|by right].
Qed.

(** ** Layouts built from rounded sizes *)

Lemma layout_ok_intro sz al :
  (∃ k, 0 ≤ k ∧ al = 2 ^ k) → 0 ≤ sz → round_up sz al ≤ u64_max →
  layout_ok (mkLayout (round_up sz al) al).
Proof.
  intros (k&?&->) Hs Hm. assert (0 < 2 ^ k) by (apply Z.pow_pos_nonneg; lia).
  pose proof (round_up_ge sz (2 ^ k)). split_and!; simpl; [by exists k|by apply round_up_divide|lia..].
Qed.

Lemma ok_pos_all ls : Forall layout_ok ls → Forall layout_pos ls.
Proof. intros H. eapply Forall_impl; [exact H|]. apply layout_ok_pos. Qed.

Lemma ideal_layout_ok ls :
  Forall layout_ok ls → size (ideal_layout ls) ≤ u64_max → layout_ok (ideal_layout ls).
Proof.
  intros Hls Hm. apply layout_ok_intro; [apply max_align_pow2; [by exists 0|done]| |done].
  by apply ideal_size_nonneg, ok_pos_all.
Qed.

(** ** Enums *)

(** One laid out variant and the pending fields it comes from. *)
Definition variant_of (p : Z * list PendingEnumFieldLayout) : EnumVariantLayout :=
  mkVariant p.1 (ideal_layout (pelayout <$> p.2)) (enum_fields_of p.2).

Lemma place_variants_spec vs variants :
  Forall (λ p, Forall layout_ok (pelayout <$> p.2)) vs → place_variants vs = Some variants →
  variants = variant_of <$> vs ∧ Forall (λ v, layout_ok (payload v)) variants.
Proof.
  intros Hok. revert variants. induction Hok as [|[d pend] vs Hp _ IH]; intros variants.
  { intros [= <-]. split; [done|constructor]. }
  simpl. rewrite place_enum_fields_spec by (by apply ok_pos_all).
  destruct (_ <=? _) eqn:Hle; [|done]. bool_to_prop. cbn [mbind option_bind].
  destruct (place_variants vs) as [rest|]; [|done]. simpl. intros [= <-].
  destruct (IH rest eq_refl) as [-> Hrest]. split; [done|]. constructor; [by apply ideal_layout_ok|done].
Qed.

(** The fields of a variant, relative to its payload. *)
Lemma enum_fields_of_lookup pend i f :
  Forall layout_pos (pelayout <$> pend) → enum_fields_of pend !! i = Some f →
  (pelayout <$> pend) !! i = Some (elayout f) ∧
  ideal_offsets 0 (pelayout <$> pend) !! i = Some (eoffset f) ∧
  (align (elayout f) | eoffset f) ∧ 0 ≤ eoffset f ∧
  eoffset f + size (elayout f) ≤ size (ideal_layout (pelayout <$> pend)).
Proof.
  intros Hpos. unfold enum_fields_of. rewrite lookup_zip_with_Some. intros (p&o&->&Hp&Ho). simpl.
  assert ((pelayout <$> pend) !! i = Some (pelayout p)) as Hl by (by rewrite list_lookup_fmap, Hp).
  pose proof (ideal_size_nonneg _ Hpos).
  destruct (ideal_offsets_lookup 0 _ _ _ _ Hpos Ho Hl) as (?&?&?).
  simpl in *. split_and!; [done..|lia].
Qed.

Lemma tagged_union_ok tag ps l :
  layout_ok tag → Forall layout_ok ps → tagged_union_layout_with_tag tag ps = Some l →
  let off := round_up (size tag) (max_or 1 (align <$> ps)) in
  layout_ok l ∧ (align tag | align l) ∧ align_to (size tag) (max_or 1 (align <$> ps)) = Some off ∧
  size tag ≤ off ∧
  ∀ p, p ∈ ps → (align p | off) ∧ (align p | align l) ∧ off + size p ≤ size l.
Proof.
  intros Htag Hps. unfold tagged_union_layout_with_tag. cbn zeta.
  set (pa := max_or 1 (align <$> ps)). set (psz := max_or 0 (size <$> ps)).
  assert (∃ k, 0 ≤ k ∧ pa = 2 ^ k) as Hpa.
  { subst pa. destruct (max_or_in 1 (align <$> ps)) as [->|H]; [by exists 0|].
    apply list_elem_of_fmap in H as (p&->&Hp). rewrite Forall_forall in Hps. by destruct (Hps p Hp). }
  assert (0 ≤ psz) as Hpsz.
  { subst psz. destruct (max_or_in 0 (size <$> ps)) as [->|H]; [done|].
    apply list_elem_of_fmap in H as (p&->&Hp). rewrite Forall_forall in Hps.
    destruct (Hps p Hp) as (_&_&?). lia. }
  assert (0 < pa) as Hpa0 by (destruct Hpa as (k&?&->); apply Z.pow_pos_nonneg; lia).
  destruct Htag as (Hta&Htd&Hts). assert (0 < align tag) as Hta0
    by (destruct Hta as (k&?&->); apply Z.pow_pos_nonneg; lia).
  set (al := Z.max (align tag) pa).
  assert (∃ k, 0 ≤ k ∧ al = 2 ^ k) as Hal.
  { subst al. by destruct (Z.max_spec (align tag) pa) as [[_ ->]|[_ ->]]. }
  assert (∀ a, (∃ k, 0 ≤ k ∧ a = 2 ^ k) → a ≤ al → (a | al)) as Hdiv.
  { intros a (j&?&->). destruct Hal as (k&?&->). by apply pow2_divide. }
  destruct (align_to (size tag) pa) as [off|] eqn:Hoff; [|done]. cbn [mbind option_bind].
  apply align_to_Some in Hoff as (_&->&Hoff); [|lia..].
  pose proof (round_up_ge (size tag) pa Hpa0). unfold add64.
  destruct (checked 0 u64_max _) as [e|] eqn:He; [|done]. cbn [mbind option_bind].
  apply checked_Some in He as [-> He].
  destruct (align_to (_ + psz) al) as [sz|] eqn:Hsz; [|done]. cbn [mbind option_bind].
  intros [= <-]. apply align_to_Some in Hsz as (Hal0&->&Hsz); [|lia..].
  pose proof (round_up_ge (round_up (size tag) pa + psz) al Hal0).
  split_and!; [apply layout_ok_intro; [done|lia|done]|simpl; apply Hdiv; [done|lia]|done|done|].
  intros p Hp. simpl. rewrite Forall_forall in Hps. destruct (Hps p Hp) as (Hpp&_).
  assert (align p ≤ pa) by (apply max_or_ge, list_elem_of_fmap; by exists p).
  assert (size p ≤ psz) by (apply max_or_ge, list_elem_of_fmap; by exists p).
  split_and!; [|apply Hdiv; [done|lia]|lia].
  transitivity pa; [|by apply round_up_divide].
  clearbody pa. destruct Hpp as (j&?&Hj), Hpa as (k&?&Hk). rewrite Hj, Hk in *. by apply pow2_divide.
Qed.

(** What [enum_layout] promises of its result. *)
Definition enum_placed (tag : TypeLayout) (vs : list (Z * list PendingEnumFieldLayout))
    (e : EnumLayout) : Prop :=
  layout_ok (enlayout e) ∧ (align tag | align (enlayout e)) ∧
  (vdef_id <$> variants e) = vs.*1 ∧
  ((λ v, elayout <$> vfields v) <$> variants e) = ((λ p, pelayout <$> p.2) <$> vs) ∧
  match payload_offset e with
  | None => enlayout e = tag ∧ Forall (λ v, vfields v = []) (variants e)
  | Some off =>
    size tag ≤ off ∧
    ∀ v, v ∈ variants e →
      (∀ f, f ∈ vfields v →
        (align (elayout f) | off + eoffset f) ∧ (align (elayout f) | align (enlayout e)) ∧
        0 ≤ eoffset f ∧ off + eoffset f + size (elayout f) ≤ size (enlayout e)) ∧
      (∀ i j fi fj, (i < j)%nat → vfields v !! i = Some fi → vfields v !! j = Some fj →
        eoffset fi + size (elayout fi) ≤ eoffset fj)
  end.

Lemma enum_layout_placed tag vs e :
  layout_ok tag → Forall (λ p, Forall layout_ok (pelayout <$> p.2)) vs →
  enum_layout tag vs = Some e → enum_placed tag vs e.
Proof.
  intros Htag Hok He. unfold enum_placed. unfold enum_layout in He. destruct (place_variants vs) as [variants|] eqn:Hv; [|done].
  cbn [mbind option_bind] in He. destruct (place_variants_spec _ _ Hok Hv) as [-> Hpay].
  assert (vdef_id <$> (variant_of <$> vs) = vs.*1) as Hids by (by rewrite <-list_fmap_compose).
  assert ((λ v, elayout <$> vfields v) <$> (variant_of <$> vs) = (λ p, pelayout <$> p.2) <$> vs) as Hls.
  { rewrite <-list_fmap_compose. apply list_fmap_ext. intros i [d pend] _. simpl.
    apply fmap_zip_left; [done|]. by rewrite ideal_offsets_length, length_fmap. }
  set (hp := existsb _ _) in He. destruct hp eqn:Hhp.
  - destruct (tagged_union_layout_with_tag _ _) as [l|] eqn:Hl; [|done]. cbn [mbind option_bind] in He.
    assert (Forall layout_ok (payload <$> (variant_of <$> vs))) as Hpay' by (by apply Forall_fmap).
    destruct (tagged_union_ok tag _ l Htag Hpay' Hl) as (Hlok&Hta&Hoff&Hge&Hp).
    rewrite Hoff in He. injection He as <-. simpl. split_and!; [done..|].
    intros v Hin. pose proof Hin as ([d pend]&->&Hvs)%list_elem_of_fmap. cbn [vfields variant_of].
    destruct (Hp (ideal_layout (pelayout <$> pend))) as (Hd1&Hd2&Hsz).
    { apply list_elem_of_fmap. eexists. by split; [|exact Hin]. }
    rewrite Forall_forall in Hok. pose proof (Hok _ Hvs) as Hpok. simpl in Hpok.
    pose proof (ok_pos_all _ Hpok) as Hpos. split.
    + intros f (i&Hi)%list_elem_of_lookup.
      destruct (enum_fields_of_lookup pend i f Hpos Hi) as (Hlf&_&Ha&H0&Hb).
      apply list_elem_of_lookup_2 in Hlf. pose proof (max_align_divide _ _ Hpok Hlf) as Hm.
      split_and!; [|by etrans; [exact Hm|]|done|lia].
      apply Z.divide_add_r; [by etrans; [exact Hm|]|done].
    + intros i j fi fj Hij Hi Hj. destruct (enum_fields_of_lookup pend i fi Hpos Hi) as (Hli&Hoi&_).
      destruct (enum_fields_of_lookup pend j fj Hpos Hj) as (_&Hoj&_).
      by eapply ideal_offsets_disjoint.
  - injection He as <-. simpl. split_and!; [done|apply Z.divide_refl|done|done|done|].
    apply Forall_forall. intros v Hv'. destruct (vfields v) eqn:Hf; [done|]. exfalso.
    assert (hp = true); [|congruence]. subst hp. apply existsb_exists. exists v.
    split; [by apply list_elem_of_In|]. by rewrite Hf.
Qed.

(** C32: a computed enum keeps its variants; without payloads it is its tag; with
    payloads, the payload area starts at or after the end of the tag, every field
    of every variant is aligned and inside the enum whenever the enum itself is
    aligned, and the fields of a variant do not overlap. *)
Theorem enum_layout_correct (tag : TypeLayout) (vs : list (Z * list PendingEnumFieldLayout))
    (e : EnumLayout) (Htag : layout_ok tag)
    (Hok : Forall (λ p, Forall layout_ok (pelayout <$> p.2)) vs)
    (He : enum_layout tag vs = Some e) :
  enum_placed tag vs e.
Proof. by apply enum_layout_placed. Qed.

Definition sample_variants : list (Z * list PendingEnumFieldLayout) :=
  [(1, []); (2, [mkPendingEnum None (mkLayout 8 8); mkPendingEnum None (mkLayout 1 1)])].

Lemma enum_layout_correct_witness :
  ∃ e, enum_layout (mkLayout 1 1) sample_variants = Some e ∧
    payload_offset e = Some 8 ∧ enlayout e = mkLayout 24 8 ∧ layout_ok (enlayout e).
Proof.
  destruct (enum_layout (mkLayout 1 1) sample_variants) as [e|] eqn:He; [|by vm_compute in He].
  exists e. destruct (enum_layout_correct (mkLayout 1 1) sample_variants e) as (Hok&_); [..|].
  - split_and!; simpl; [by exists 0|by exists 1|lia|unfold u64_max; lia].
  - repeat constructor; simpl; first [by exists 0|by exists 1|by exists 3|by exists 1|unfold u64_max; lia].
  - exact He.
  - injection He as <-. split_and!; [done|done|done|exact Hok].
Defined.

(** ** Vectors *)

Lemma next_power_of_two_spec n p :
  1 ≤ n → checked_next_power_of_two n = Some p →
  (∃ k, 0 ≤ k ∧ p = 2 ^ k) ∧ n ≤ p < 2 * n ∧ p ≤ u64_max.
Proof.
  intros Hn. unfold checked_next_power_of_two. intros [-> Hp]%checked_Some.
  pose proof (Z.log2_up_nonneg n). split_and!; [by exists (Z.log2_up n)| | |lia].
  - destruct (decide (n = 1)) as [->|]; [done|]. apply Z.log2_up_spec. lia.
  - destruct (decide (n = 1)) as [->|]; [done|]. pose proof (Z.log2_up_spec n ltac:(lia)) as [Hlt _].
    pose proof (Z.log2_up_pos n ltac:(lia)).
    replace (2 ^ Z.log2_up n) with (2 * 2 ^ Z.pred (Z.log2_up n)); [lia|].
    rewrite <-Z.pow_succ_r by lia. f_equal. lia.
Qed.

(** The bits of one lane. *)
Definition lane_bits (p : PrimitiveTy) (target : TargetDataLayout) : Z :=
  if bool_decide (p = Bool) then 1 else size (primitive_layout p target) * 8.

Lemma vector_layout_inv p lanes target l :
  0 ≤ lanes → 0 < pointer_size target → vector_layout p lanes target = Some l →
  1 ≤ lanes ∧ 1 ≤ lane_bits p target ∧
  checked_next_power_of_two ((lane_bits p target * lanes + 7) / 8) = Some (align l) ∧
  align_to ((lane_bits p target * lanes + 7) / 8) (align l) = Some (size l) ∧
  (lane_bits p target * lanes + 7) / 8 ≤ u64_max.
Proof.
  intros Hl Hp. unfold vector_layout. destruct (_ || _) eqn:Hg; [done|].
  apply orb_false_iff in Hg as [Hve Hl0]. bool_to_prop.
  assert (∀ b, (if bool_decide (p = Bool) then Some 1 else mul64 (size (primitive_layout p target)) 8) = Some b →
    b = lane_bits p target ∧ 1 ≤ b) as Hlane.
  { intros b. unfold lane_bits, mul64. case_bool_decide; [intros [= <-]; lia|].
    intros [-> _]%checked_Some. split; [done|]. destruct p; simpl in *; try done; lia. }
  destruct (if bool_decide (p = Bool) then _ else _) as [b|] eqn:Hb; [|done].
  destruct (Hlane b eq_refl) as [-> Hb1]. cbn [mbind option_bind]. unfold mul64, add64.
  destruct (checked 0 u64_max _) as [sb|] eqn:Hsb; [|done]. apply checked_Some in Hsb as [-> Hsb].
  cbn [mbind option_bind]. destruct (checked 0 u64_max _) as [sb|] eqn:Hs7; [|done].
  apply checked_Some in Hs7 as [-> Hs7]. cbn [mbind option_bind]. cbn zeta.
  destruct (checked_next_power_of_two _) as [al|] eqn:Hal; [|done]. cbn [mbind option_bind].
  destruct (align_to _ al) as [sz|] eqn:Hsz; [|done]. intros [= <-]. simpl.
  split_and!; [lia|done|done|done|]. apply Z.div_le_upper_bound; lia.
Qed.

Lemma vector_storage p lanes target l :
  0 ≤ lanes → 0 < pointer_size target → vector_layout p lanes target = Some l →
  size l = align l ∧ layout_ok l ∧ lane_bits p target * lanes ≤ 8 * size l ∧
  ∀ k, 0 ≤ k → lane_bits p target * lanes ≤ 8 * 2 ^ k → size l ≤ 2 ^ k.
Proof.
  intros Hlanes Hptr Hl. destruct (vector_layout_inv p lanes target l Hlanes Hptr Hl) as (Hl1&Hb1&Hal&Hsz&Hmax).
  set (bits := lane_bits p target * lanes) in *. assert (1 ≤ bits) by nia.
  assert (1 ≤ (bits + 7) / 8) as Hst by (apply Z.div_le_lower_bound; lia).
  pose proof Hal as Hal'. apply next_power_of_two_spec in Hal as ((k&Hk&Hk')&Hle&Hu); [|done].
  apply align_to_Some in Hsz as (Hpos&Hsz&_); [|lia..].
  assert (size l = align l) as Heq.
  { rewrite Hsz. apply Z.le_antisymm.
    - apply round_up_least; [done|lia|apply Z.divide_refl].
    - destruct (round_up_divide ((bits + 7) / 8) (align l) Hpos) as [j Hj].
      pose proof (round_up_ge ((bits + 7) / 8) (align l) Hpos) as Hge. rewrite Hj in *. clear -Hge Hst Hpos.
      assert (0 < j) by nia. nia. }
  pose proof (Z.div_mod (bits + 7) 8 ltac:(lia)). pose proof (Z.mod_pos_bound (bits + 7) 8 ltac:(lia)).
  split_and!; [done| |lia|].
  - split_and!; [by exists k|rewrite Heq; apply Z.divide_refl|lia|lia].
  - intros j Hj Hbits. rewrite Heq. unfold checked_next_power_of_two in Hal'.
    apply checked_Some in Hal' as [-> _]. apply Z.pow_le_mono_r; [lia|].
    apply Z.log2_up_le_pow2; [lia|]. apply Z.lt_succ_r, Z.div_lt_upper_bound; lia.
Qed.

(** A vector occupies the least power of two of bytes that holds its lanes at
    their bit width, and is aligned to its size. *)
Theorem vector_layout_storage (p : PrimitiveTy) (lanes : Z) (target : TargetDataLayout)
    (l : TypeLayout) (Hlanes : 0 ≤ lanes) (Hptr : 0 < pointer_size target)
    (Hl : vector_layout p lanes target = Some l) :
  size l = align l ∧ layout_ok l ∧ lane_bits p target * lanes ≤ 8 * size l ∧
  ∀ k, 0 ≤ k → lane_bits p target * lanes ≤ 8 * 2 ^ k → size l ≤ 2 ^ k.
Proof. by apply vector_storage. Qed.

Lemma vector_layout_storage_witness :
  vector_layout I32 3 LP64 = Some (mkLayout 16 16) ∧ layout_ok (mkLayout 16 16).
Proof.
  split; [reflexivity|].
  apply (vector_layout_storage I32 3 LP64 (mkLayout 16 16)); [lia|simpl; lia|reflexivity].
Defined.

(** ** The layout invariant *)

(** The layouts the compiler forms for a maintained target. *)
Inductive computed (t : TargetConfig) : TypeLayout → Prop :=
  | computed_primitive p : computed t (primitive_layout p (for_target t))
  | computed_fat_pointer l : fat_pointer_layout (for_target t) = Some l → computed t l
  | computed_array e n l : computed t e → 0 ≤ n → array_layout e n = Some l → computed t l
  | computed_range k b l :
      (∀ e, b = Some e → computed t e) → range_layout k b = Some l → computed t l
  | computed_product ls l :
      (∀ e, e ∈ ls → computed t e) → sequential_layout ls = Some l → computed t l
  | computed_vector p n l : 0 ≤ n → vector_layout p n (for_target t) = Some l → computed t l
  | computed_union fs s :
      (∀ f, f ∈ fs.*2 → computed t f) → union_field_layout fs = Some s → computed t (slayout s)
  | computed_tagged ls l :
      (∀ e, e ∈ ls → computed t e) → tagged_union_layout ls = Some l → computed t l
  | computed_struct is_extern is_tuple fs s :
      (∀ f, f ∈ fs.*2 → computed t f) → struct_layout is_extern is_tuple fs = Some s →
      computed t (slayout s)
  | computed_enum tag vs e :
      computed t tag → (∀ p f, p ∈ vs → f ∈ pelayout <$> p.2 → computed t f) →
      enum_layout tag vs = Some e → computed t (enlayout e).

Lemma array_layout_ok e n l : layout_ok e → 0 ≤ n → array_layout e n = Some l → layout_ok l.
Proof.
  intros (Hp&Hd&Hs) Hn. unfold array_layout, mul64. case_match; [done|].
  destruct (checked 0 u64_max _) as [sz|] eqn:Hsz; [|done]. apply checked_Some in Hsz as [-> ?].
  intros [= <-]. split_and!; simpl; [done|by apply Z.divide_mul_l|lia..].
Qed.

Lemma primitive_layout_ok p t : layout_ok (primitive_layout p (for_target t)).
Proof.
  unfold layout_ok, u64_max.
  destruct t as [[] o], p; simpl; (split_and!;
    [first [by exists 0|by exists 1|by exists 2|by exists 3|by exists 4]
    |first [by exists 0|by exists 1|by exists 2]|by vm_compute|by vm_compute]).
Qed.

Lemma union_layout_ok ls l :
  Forall layout_ok ls → union_layout_from_fields ls = Some l → layout_ok l.
Proof.
  intros Hls. unfold union_layout_from_fields. cbn zeta. fold (max_align 1 ls).
  assert (∀ m, 0 ≤ m ≤ u64_max → 0 ≤ foldl (λ m f, Z.max m (size f)) m ls ≤ u64_max) as Hsz.
  { induction Hls as [|f ls (_&_&?) _ IH]; intros m Hm; simpl; [done|]. apply IH. lia. }
  specialize (Hsz 0 ltac:(unfold u64_max; lia)).
  destruct (align_to _ _) as [sz|] eqn:Ha; [|done]. intros [= <-].
  pose proof (max_align_pos 1 ls ltac:(lia)).
  apply align_to_Some in Ha as (_&->&?); [|lia..].
  apply layout_ok_intro; [apply max_align_pow2; [by exists 0|done]|lia|done].
Qed.

Lemma struct_layout_ok is_extern is_tuple fs s :
  Forall layout_ok (fs.*2) → struct_layout is_extern is_tuple fs = Some s → layout_ok (slayout s).
Proof.
  intros Hfs. assert (∀ order, playout <$> order ≡ₚ fs.*2 →
    place_struct_fields order = Some s → layout_ok (slayout s)) as Horder.
  { intros order Hp. assert (Forall layout_ok (playout <$> order)) as Hok by (by rewrite Hp).
    rewrite place_struct_fields_spec by (by apply ok_pos_all).
    destruct (_ <=? _) eqn:?; [|done]. intros [= <-]. bool_to_prop. by apply ideal_layout_ok. }
  unfold struct_layout, field_order_layout, sorted_field_layout.
  destruct is_extern; [|destruct is_tuple]; apply Horder; rewrite ?sort_fields_perm;
    by rewrite number_fields_layouts.
Qed.

(** Every layout the compiler forms, from primitives through pointers,
    arrays, ranges, tuples, vectors, unions, optional and error unions, structs
    and enums, has a power-of-two alignment that divides its size, both within
    [u64]. *)
Theorem computed_layout_ok (t : TargetConfig) (l : TypeLayout) (Hl : computed t l) : layout_ok l.
Proof.
  induction Hl as [p|l H|e n l _ IH Hn H|k b l _ IH H|ls l _ IH H|p n l Hn H|fs s _ IH H
    |ls l _ IH H|x y fs s _ IH H|tag vs e _ IHt _ IH H].
  - apply primitive_layout_ok.
  - revert H. unfold fat_pointer_layout. destruct t as [[] o]; simpl; intros [= <-];
      (split_and!; simpl; [first [by exists 2|by exists 3]|by exists 2|by vm_compute|by vm_compute]).
  - by eapply array_layout_ok.
  - revert H. unfold range_layout. destruct b as [b|].
    + destruct k; simpl; try done; apply array_layout_ok; (lia || by apply IH).
    + destruct k; simpl; try done. intros [= <-].
      split_and!; simpl; [by exists 0|by exists 0|lia|unfold u64_max; lia].
  - assert (Forall layout_ok ls) as Hok by (by apply Forall_forall).
    rewrite sequential_layout_spec in H by (by apply ok_pos_all).
    destruct (_ <=? _) eqn:?; [|done]. injection H as <-. bool_to_prop. by apply ideal_layout_ok.
  - refine (proj1 (proj2 (vector_storage p n (for_target t) l Hn _ H))).
    by destruct t as [[] o].
  - revert H. unfold union_field_layout. destruct (union_layout_from_fields _) as [l|] eqn:Hu; [|done].
    intros [= <-]. simpl. apply union_layout_ok in Hu; [done|].
    apply Forall_forall. intros f Hf. apply IH. by rewrite <-list_fmap_compose in Hf.
  - eapply tagged_union_ok; [|by apply Forall_forall|exact H].
    split_and!; simpl; [by exists 0|by exists 1|lia|unfold u64_max; lia].
  - eapply struct_layout_ok; [by apply Forall_forall|exact H].
  - eapply (enum_layout_placed tag vs e); [exact IHt| |exact H]. apply Forall_forall. intros p Hp.
    apply Forall_forall. intros f Hf. by eapply IH.
Qed.

Lemma computed_layout_ok_witness : layout_ok (mkLayout 24 8).
Proof.
  set (t := mkTarget X86_64 Linux). apply (computed_layout_ok t).
  apply (computed_product t
    [primitive_layout U8 (for_target t); primitive_layout U64 (for_target t);
     primitive_layout U16 (for_target t)]); [|reflexivity].
  intros e He. repeat (apply elem_of_cons in He as [->|He]; [apply computed_primitive|]).
  by apply not_elem_of_nil in He.
Defined.
