(* ===== verification/Mangle.v ===== *)
(** * nia-mangle: canonical linker symbols

    The stable-symbol part of [crates/nia-mangle/src/lib.rs]: the binary record
    (variable-length integers and length-delimited strings), its base64url
    rendering, the decoder, and the symbols derived from a decoded owner.  A
    byte is a [Z] below 256, a string the list of its scalars.  The reservation
    of memory for the decoded arguments is not modelled; the textual encoding of
    types is left out. *)

From stdpp Require Import pretty.
From S2P Require Import Prelude RustStd.

(** ** Variable-length integers *)

(** [value as u8] keeps the low eight bits; ten bytes hold a [u64]. *)
Fixpoint put_varint_fuel (fuel : nat) (value : Z) : list Z :=
  match fuel with
  | O => []
  | S fuel =>
    if 128 <=? value
    then Z.lor (value mod 256) 128 :: put_varint_fuel fuel (Z.shiftr value 7)
    else [value mod 256]
  end.

Definition put_varint (value : Z) : list Z := put_varint_fuel 10 value.

(** The loop over the shifts [0, 7, .., 63]; a [u64] shift drops the high bits. *)
Fixpoint get_varint_loop (shifts : list Z) (value : Z) (bytes : list Z) (cursor : nat) :
    option (Z * nat) :=
  match shifts with
  | [] => None
  | shift :: shifts =>
    byte ← bytes !! cursor;
    let cursor := S cursor in
    let value := Z.lor value (Z.shiftl (Z.land byte 127) shift mod 2 ^ 64) in
    if Z.land byte 128 =? 0 then Some (value, cursor)
    else get_varint_loop shifts value bytes cursor
  end.

Definition varint_shifts : list Z := [0; 7; 14; 21; 28; 35; 42; 49; 56; 63].

Definition get_varint (bytes : list Z) (cursor : nat) : option (Z * nat) :=
  get_varint_loop varint_shifts 0 bytes cursor.

(** ** Length-delimited bytes *)

Definition put_bytes (bytes : list Z) : list Z := put_varint (Z.of_nat (length bytes)) ++ bytes.

Definition get_bytes (bytes : list Z) (cursor : nat) : option (list Z * nat) :=
  '(len, cursor) ← get_varint bytes cursor;
  len ← checked 0 usize_max len;
  end_ ← checked 0 usize_max (Z.of_nat cursor + len);
  if end_ <=? Z.of_nat (length bytes)
  then Some (slice bytes cursor (Z.to_nat end_), Z.to_nat end_) else None.

(** ** base64url *)

Definition BASE64URL : list Z :=
  bytes_of_string "ABCDEFGHIJKLMNOPQRSTUVWXYZabcdefghijklmnopqrstuvwxyz0123456789-_".

(** [BASE64URL[index]]; the indices of the source are below 64. *)
Definition base64_char (index : Z) : Z := default 0 (BASE64URL !! Z.to_nat index).

Definition base64_value (byte : Z) : option Z :=
  (λ e, Z.of_nat e.1) <$> list_find (λ c, c = byte) BASE64URL.

(** One chunk of up to three bytes. *)
Definition encode_chunk (chunk : list Z) : list Z :=
  match chunk with
  | [] => []
  | first :: _ =>
    let second := Z.lor (Z.shiftl (Z.land first 3) 4) (Z.shiftr (default 0 (chunk !! 1%nat)) 4) in
    [base64_char (Z.shiftr first 2); base64_char second]
    ++ match chunk !! 1%nat with
       | Some third =>
         [base64_char (Z.lor (Z.shiftl (Z.land third 15) 2) (Z.shiftr (default 0 (chunk !! 2%nat)) 6))]
       | None => []
       end
    ++ match chunk !! 2%nat with
       | Some fourth => [base64_char (Z.land fourth 63)]
       | None => []
       end
  end.

(** [bytes.chunks(3)]. *)
Fixpoint encode_base64url (bytes : list Z) : list Z :=
  match bytes with
  | a :: b :: c :: rest => encode_chunk [a; b; c] ++ encode_base64url rest
  | [] => []
  | last => encode_chunk last
  end.

(** The bytes pushed for four, three or two values, truncated to [u8]. *)
Definition byte1 (v0 v1 : Z) : Z := Z.lor (Z.shiftl v0 2 mod 256) (Z.shiftr v1 4).
Definition byte2 (v1 v2 : Z) : Z := Z.lor (Z.shiftl v1 4 mod 256) (Z.shiftr v2 2).
Definition byte3 (v2 v3 : Z) : Z := Z.lor (Z.shiftl v2 6 mod 256) v3.

(** [values] holds the values of the current group, [values[..count]]. *)
Fixpoint decode_loop (values : list Z) (text : list Z) : option (list Z) :=
  match text with
  | [] =>
    match values with
    | [] => Some []
    | [v0; v1] => Some [byte1 v0 v1]
    | [v0; v1; v2] => Some [byte1 v0 v1; byte2 v1 v2]
    | _ => None
    end
  | byte :: text =>
    v ← base64_value byte;
    match values ++ [v] with
    | [v0; v1; v2; v3] =>
      app [byte1 v0 v1; byte2 v1 v2; byte3 v2 v3] <$> decode_loop [] text
    | values => decode_loop values text
    end
  end.

Definition decode_base64url (text : list Z) : option (list Z) :=
  output ← decode_loop [] (as_bytes text);
  if decide (encode_base64url output = text) then Some output else None.

(** ** Keys *)

Inductive MangleSymbolKind : Type :=
  | SFunction | SGlobal | SType | SVtable | SClosureEntry | SAdapter.

#[global] Instance MangleSymbolKind_eq_dec : EqDecision MangleSymbolKind.
Proof. solve_decision. Defined.

Definition kind_tag (k : MangleSymbolKind) : Z :=
  match k with
  | SFunction => "f"%B | SGlobal => "g"%B | SType => "t"%B
  | SVtable => "v"%B | SClosureEntry => "c"%B | SAdapter => "a"%B
  end.

Definition kind_from_tag (tag : Z) : option MangleSymbolKind :=
  if tag =? "f"%B then Some SFunction
  else if tag =? "g"%B then Some SGlobal
  else if tag =? "t"%B then Some SType
  else if tag =? "v"%B then Some SVtable
  else if tag =? "c"%B then Some SClosureEntry
  else if tag =? "a"%B then Some SAdapter
  else None.

(** [SymbolPackageIdentity::try_new]: present and non-empty. *)
Definition package_try_new (value : list Z) : option (list Z) :=
  match value with [] => None | _ => Some value end.

(** [StableSymbolKey] and [DecodedStableSymbol] have the same fields. *)
Record StableSymbolKey := mkKey {
  package : list Z;
  module : Z;
  definition : list Z;
  name : list Z;
  kind : MangleSymbolKind;
  generic_args : list (list Z);
}.

#[global] Instance StableSymbolKey_eq_dec : EqDecision StableSymbolKey.
Proof. solve_decision. Defined.

(** [StableSymbolKey::new]. *)
Definition key_new (pkg : list Z) (md : Z) (def nm : list Z) (k : MangleSymbolKind)
    (args : list (list Z)) : Result string StableSymbolKey :=
  match pkg with
  | [] => Err "canonical symbol is missing package identity"%string
  | _ => Ok (mkKey pkg md def nm k args)
  end.

(** ** Encoding *)

(** The loop over the generic arguments: an argument already in the substitution
    table is written as its index. *)
Fixpoint encode_args (substitutions : list (list Z)) (args : list (list Z)) : list Z :=
  match args with
  | [] => []
  | arg :: args =>
    match list_find (λ known, known = arg) substitutions with
    | Some (index, _) => 0 :: put_varint (Z.of_nat index) ++ encode_args substitutions args
    | None => 1 :: put_bytes (as_bytes arg) ++ encode_args (substitutions ++ [arg]) args
    end
  end.

Definition encode_record (key : StableSymbolKey) : list Z :=
  bytes_of_string "NIA" ++ [1]
  ++ put_varint (module key)
  ++ put_bytes (as_bytes (definition key))
  ++ [kind_tag (kind key)]
  ++ put_bytes (as_bytes (package key))
  ++ put_bytes (as_bytes (name key))
  ++ put_varint (Z.of_nat (length (generic_args key)))
  ++ encode_args [] (generic_args key).

Definition mangle_stable_symbol (key : StableSymbolKey) : list Z :=
  bytes_of_string "_N" ++ encode_base64url (encode_record key).

(** ** Decoding *)

(** [String::from_utf8(get_bytes(..)?.to_vec()).ok()?]. *)
Definition get_string (bytes : list Z) (cursor : nat) : option (list Z * nat) :=
  '(bs, cursor) ← get_bytes bytes cursor;
  text ← utf8_decode bs;
  Some (text, cursor).

(** The loop over the arguments.  [push] is how the substitution table grows with
    an argument read under a tag. *)
Fixpoint decode_args (push : Z → list (list Z) → list Z → list (list Z)) (count : nat)
    (substitutions : list (list Z)) (bytes : list Z) (cursor : nat) :
    option (list (list Z) * nat) :=
  match count with
  | O => Some ([], cursor)
  | S count =>
    tag ← bytes !! cursor;
    let cursor := S cursor in
    '(arg, cursor) ←
      (if tag =? 0 then
         '(index, cursor) ← get_varint bytes cursor;
         index ← checked 0 usize_max index;
         arg ← substitutions !! Z.to_nat index;
         Some (arg, cursor)
       else if tag =? 1 then get_string bytes cursor
       else None);
    '(args, cursor) ← decode_args push count (push tag substitutions arg) bytes cursor;
    Some (arg :: args, cursor)
  end.

(** The source pushes every argument. *)
Definition push_all (tag : Z) (substitutions : list (list Z)) (arg : list Z) : list (list Z) :=
  substitutions ++ [arg].

Definition decode_record (push : Z → list (list Z) → list Z → list (list Z)) (bytes : list Z) :
    option StableSymbolKey :=
  if (3 <=? length bytes)%nat && bool_decide (take 3 bytes = bytes_of_string "NIA")
     && bool_decide (bytes !! 3%nat = Some 1) then
    let cursor := 4%nat in
    '(md, cursor) ← get_varint bytes cursor;
    '(def, cursor) ← get_string bytes cursor;
    tag ← bytes !! cursor;
    k ← kind_from_tag tag;
    let cursor := S cursor in
    '(pkg, cursor) ← get_string bytes cursor;
    pkg ← package_try_new pkg;
    '(nm, cursor) ← get_string bytes cursor;
    '(arg_count, cursor) ← get_varint bytes cursor;
    arg_count ← checked 0 usize_max arg_count;
    '(args, cursor) ← decode_args push (Z.to_nat arg_count) [] bytes cursor;
    if (cursor =? length bytes)%nat then Some (mkKey pkg md def nm k args) else None
  else None.

Definition demangle_stable_symbol (symbol : list Z) : option StableSymbolKey :=
  payload ← strip_prefix (bytes_of_string "_N") symbol;
  bytes ← decode_base64url payload;
  decode_record push_all bytes.

(** ** Derived symbols *)

Definition mangle_base_symbol_canonical (pkg : list Z) (md : Z) (def nm : list Z)
    (k : MangleSymbolKind) : Result string (list Z) :=
  mangle_stable_symbol <$> key_new pkg md def nm k [].

Definition mangle_derived_symbol_canonical (pkg : list Z) (md : Z) (def nm : list Z)
    (k : MangleSymbolKind) (args : list (list Z)) : Result string (list Z) :=
  mangle_stable_symbol <$> key_new pkg md def nm k args.

(** The decimal spelling of the ordinal of a closure. *)
Definition closure_arg (ordinal : N) : list Z :=
  bytes_of_string ("closure:ord:" ++ pretty ordinal)%string.

Definition mangle_closure_entry_symbol (owner_symbol : list Z) (ordinal : N) :
    Result string (option (list Z)) :=
  match demangle_stable_symbol owner_symbol with
  | None => Ok None
  | Some owner =>
    Some <$> mangle_derived_symbol_canonical (package owner) (module owner) (definition owner)
      (name owner) SClosureEntry (generic_args owner ++ [closure_arg ordinal])
  end.

(** ** Identifier parts *)

Definition sanitize_symbol_part (text : list Z) : list Z :=
  let out := (λ ch, if is_ascii_alphanumeric ch || (ch =? "_"%B) then ch else "_"%B) <$> text in
  match out with [] => ["_"%B] | _ => out end.
