(* ===== verification/MangleProps.v ===== *)
(** * nia-mangle: canonical symbols are unique and decode

    The encodings are read back by their decoders; the record encoding is
    injective; the symbol decoder returns the encoded key exactly when every
    repeated argument keeps its position in the decoder's table. *)

From S2P Require Import Prelude RustStd Mangle.

(** ** Bits *)

Lemma lor_disjoint a b s : 0 ≤ s → 0 ≤ a < 2 ^ s → 0 ≤ b → Z.lor a (b * 2 ^ s) = a + b * 2 ^ s.
Proof.
  intros Hs Ha Hb. assert (Z.land a (b * 2 ^ s) = 0) as Hl.
  { destruct (decide (a = 0)) as [->|Ha0]; [done|].
    apply Z.bits_inj'. intros n Hn. rewrite Z.land_spec, Z.bits_0. destruct (decide (n < s)).
    - rewrite Z.mul_pow2_bits_low by lia. apply andb_false_r.
    - rewrite (Z.bits_above_log2 a n); [done|lia|].
      apply Z.log2_lt_pow2; [lia|]. apply Z.lt_le_trans with (2 ^ s); [lia|].
      apply Z.pow_le_mono_r; lia. }
  pose proof (Z.add_lor_land a (b * 2 ^ s)). lia.
Qed.

(** A check of every byte. *)
Definition all_bytes (p : Z → bool) : bool := forallb (λ n, p (Z.of_nat n)) (seq 0 256).

Lemma all_bytes_spec p b : all_bytes p = true → 0 ≤ b < 256 → p b = true.
Proof.
  unfold all_bytes. rewrite forallb_forall. intros H Hb.
  rewrite <-(Z2Nat.id b) by lia. apply H, in_seq. lia.
Qed.

Lemma continuation_byte m :
  0 ≤ m < 256 → Z.land (Z.lor m 128) 127 = m mod 128 ∧ Z.land (Z.lor m 128) 128 = 128.
Proof.
  intros Hm. assert ((Z.land (Z.lor m 128) 127 =? m mod 128) && (Z.land (Z.lor m 128) 128 =? 128) = true).
  { revert m Hm. intros m. apply (all_bytes_spec (λ m,
      (Z.land (Z.lor m 128) 127 =? m mod 128) && (Z.land (Z.lor m 128) 128 =? 128))). reflexivity. }
  bool_to_prop. done.
Qed.

Lemma final_byte m : 0 ≤ m < 128 → Z.land m 127 = m ∧ Z.land m 128 = 0.
Proof.
  intros Hm. assert (((128 <=? m) || ((Z.land m 127 =? m) && (Z.land m 128 =? 0))) = true) as H.
  { apply (all_bytes_spec (λ m, (128 <=? m) || ((Z.land m 127 =? m) && (Z.land m 128 =? 0))));
      [reflexivity|lia]. }
  apply orb_true_iff in H as [H|H]; bool_to_prop; [lia|done].
Qed.

(** ** Reading at a cursor *)

Lemma drop_cons_lookup {A} (l : list A) c x r : drop c l = x :: r → l !! c = Some x ∧ drop (S c) l = r.
Proof.
  intros H. split.
  - rewrite <-(Nat.add_0_r c), <-lookup_drop, H. done.
  - rewrite <-Nat.add_1_r, <-drop_drop, H. done.
Qed.

Lemma drop_app_advance {A} (l : list A) c w r : drop c l = w ++ r → drop (c + length w) l = r.
Proof. intros H. by rewrite <-drop_drop, H, drop_app_length. Qed.

(** ** Variable-length integers *)

Fixpoint shifts_from (n : nat) (s : Z) : list Z :=
  match n with O => [] | S n => s :: shifts_from n (s + 7) end.

Lemma get_varint_loop_put n s acc v bytes c r :
  (0 < n)%nat → 0 ≤ s → 0 ≤ acc < 2 ^ s → 0 ≤ v → v * 2 ^ s < 2 ^ 64 → v < 2 ^ (7 * Z.of_nat n) →
  drop c bytes = put_varint_fuel n v ++ r →
  get_varint_loop (shifts_from n s) acc bytes c =
    Some (acc + v * 2 ^ s, (c + length (put_varint_fuel n v))%nat).
Proof.
  revert s acc v c. induction n as [|n IH]; intros s acc v c Hn0 Hs Hacc Hv H64 Hn Hd; [lia|].
  assert (0 < 2 ^ s) as Hps by (apply Z.pow_pos_nonneg; lia).
  cbn [put_varint_fuel shifts_from get_varint_loop] in *. destruct (128 <=? v) eqn:H128; bool_to_prop.
  - apply drop_cons_lookup in Hd as [-> Hd]. cbn [mbind option_bind].
    destruct (continuation_byte (v mod 256)) as [-> ->]; [apply Z.mod_pos_bound; lia|]. simpl.
    assert (v mod 256 mod 128 = v mod 128) as -> by (rewrite Z.mod_mod_divide; [done|by exists 2]).
    rewrite Z.shiftr_div_pow2 in * by lia. change (2 ^ 7) with 128 in *.
    pose proof (Z.div_mod v 128 ltac:(lia)) as Hdm. pose proof (Z.mod_pos_bound v 128 ltac:(lia)) as Hm.
    rewrite Z.shiftl_mul_pow2 by lia.
    rewrite (Z.mod_small (v mod 128 * 2 ^ s)) by nia. rewrite lor_disjoint by lia.
    assert (2 ^ (s + 7) = 2 ^ s * 128) as Hp7 by (rewrite Z.pow_add_r by lia; done).
    rewrite (IH (s + 7) _ (v / 128) (S c)); [| | | |apply Z.div_pos; lia| | |exact Hd].
    + f_equal. f_equal; [rewrite Hp7; nia|lia].
    + destruct n; [simpl in Hn; lia|lia].
    + lia.
    + rewrite Hp7. nia.
    + rewrite Hp7. nia.
    + apply Z.div_lt_upper_bound; [lia|]. rewrite Nat2Z.inj_succ in Hn.
      replace (7 * Z.succ (Z.of_nat n)) with (7 + 7 * Z.of_nat n) in Hn by lia.
      rewrite Z.pow_add_r in Hn by lia. exact Hn.
  - rewrite (Z.mod_small v 256) in * by lia. simpl in Hd.
    apply drop_cons_lookup in Hd as [-> Hd]. cbn [mbind option_bind].
    destruct (final_byte v) as [-> ->]; [lia|]. simpl.
    rewrite Z.shiftl_mul_pow2, Z.mod_small by lia. rewrite lor_disjoint by lia.
    f_equal. f_equal. lia.
Qed.

Lemma get_varint_put v bytes c r :
  0 ≤ v ≤ u64_max → drop c bytes = put_varint v ++ r →
  get_varint bytes c = Some (v, (c + length (put_varint v))%nat).
Proof.
  unfold u64_max. intros Hv Hd. unfold get_varint, put_varint in *.
  change varint_shifts with (shifts_from 10 0).
  rewrite (get_varint_loop_put 10 0 0 v bytes c r); [|lia|simpl; lia..|done].
  change (2 ^ 0) with 1. by rewrite Z.add_0_l, Z.mul_1_r.
Qed.

Lemma put_varint_not_nil v : (1 ≤ length (put_varint v))%nat.
Proof. unfold put_varint. cbn [put_varint_fuel]. destruct (128 <=? v); cbn [length]; lia. Qed.

(** ** Strings *)

Definition fits_usize {A} (l : list A) : Prop := Z.of_nat (length l) ≤ usize_max.

Lemma get_bytes_put bs bytes c r :
  fits_usize bytes → drop c bytes = put_bytes bs ++ r →
  get_bytes bytes c = Some (bs, (c + length (put_bytes bs))%nat).
Proof.
  unfold fits_usize, usize_max. intros Hfit Hd. unfold get_bytes, put_bytes in *.
  rewrite <-app_assoc in Hd.
  assert (length bytes = c + length (put_varint (Z.of_nat (length bs))) + length bs + length r)%nat as Hlen.
  { pose proof (f_equal length Hd) as Hl. rewrite length_drop, !length_app in Hl.
    pose proof (put_varint_not_nil (Z.of_nat (length bs))). lia. }
  rewrite (get_varint_put (Z.of_nat (length bs)) bytes c (bs ++ r)) by (done || lia).
  cbn [mbind option_bind]. unfold usize_max. rewrite checked_in by lia. cbn [mbind option_bind].
  rewrite checked_in by lia. cbn [mbind option_bind].
  destruct (_ <=? _) eqn:?; bool_to_prop; [|lia]. f_equal. f_equal.
  - apply drop_app_advance in Hd. unfold slice. rewrite Hd.
    rewrite take_app_le by lia. apply take_ge. lia.
  - rewrite length_app. lia.
Qed.

Lemma get_string_put s bytes c r :
  is_str s → fits_usize bytes → drop c bytes = put_bytes (as_bytes s) ++ r →
  get_string bytes c = Some (s, (c + length (put_bytes (as_bytes s)))%nat).
Proof.
  intros Hs Hfit Hd. unfold get_string. rewrite (get_bytes_put _ _ _ _ Hfit Hd).
  cbn [mbind option_bind]. by rewrite utf8_decode_as_bytes.
Qed.

(** ** Arguments *)

(** The table of a decoder that mirrors the encoder: only arguments written in
    full enter it. *)
Definition push_new (tag : Z) (substitutions : list (list Z)) (arg : list Z) : list (list Z) :=
  if tag =? 1 then substitutions ++ [arg] else substitutions.

(** What the decoder makes of the arguments: [E] is the encoder's table, [D] the
    decoder's. *)
Fixpoint decoded_args (push : Z → list (list Z) → list Z → list (list Z))
    (E D : list (list Z)) (args : list (list Z)) : list (list Z) :=
  match args with
  | [] => []
  | arg :: args =>
    match list_find (λ known, known = arg) E with
    | Some (i, _) =>
      let arg' := default [] (D !! i) in arg' :: decoded_args push E (push 0 D arg') args
    | None => arg :: decoded_args push (E ++ [arg]) (push 1 D arg) args
    end
  end.

(** A growing decoder table is at least as long as the encoder's. *)
Definition push_grows (push : Z → list (list Z) → list Z → list (list Z)) : Prop :=
  ∀ D arg, (length D ≤ length (push 0%Z D arg))%nat ∧ length (push 1 D arg) = S (length D).

Lemma push_all_grows : push_grows push_all.
Proof. intros D arg. unfold push_all. rewrite length_app. simpl. lia. Qed.

Lemma push_new_grows : push_grows push_new.
Proof. intros D arg. unfold push_new. simpl. rewrite length_app. simpl. lia. Qed.

Lemma decode_encode_args push E D args bytes c r :
  push_grows push → (length E ≤ length D)%nat → Forall is_str args → fits_usize bytes →
  Z.of_nat (length E + length args) ≤ usize_max →
  drop c bytes = encode_args E args ++ r →
  decode_args push (length args) D bytes c =
    Some (decoded_args push E D args, (c + length (encode_args E args))%nat).
Proof.
  intros Hpush. revert E D c. induction args as [|arg args IH]; intros E D c HED Hs Hfit Hcount Hd.
  { simpl. by rewrite Nat.add_0_r. }
  apply Forall_cons in Hs as [Hs1 Hs]. destruct (Hpush D arg) as [_ H1].
  cbn [length encode_args decode_args decoded_args] in *.
  destruct (list_find _ E) as [[i a]|] eqn:Hf.
  - apply list_find_Some in Hf as (Hi&->&_). apply lookup_lt_Some in Hi as Hlt.
    simpl in Hd. apply drop_cons_lookup in Hd as [-> Hd]. cbn [mbind option_bind].
    rewrite Z.eqb_refl. rewrite <-app_assoc in Hd.
    rewrite (get_varint_put (Z.of_nat i) bytes (S c) _) with (2 := Hd)
      by (unfold usize_max in Hcount; lia).
    cbn [mbind option_bind]. rewrite checked_in by lia. cbn [mbind option_bind]. rewrite Nat2Z.id.
    destruct (lookup_lt_is_Some_2 D i) as [b Hb]; [lia|]. rewrite Hb. cbn [mbind option_bind default].
    destruct (Hpush D b) as [H0 _].
    rewrite (IH E (push 0 D b)) with (5 := drop_app_advance _ _ _ _ Hd) by (done || lia).
    cbn [mbind option_bind]. f_equal. f_equal. cbn [length]. rewrite length_app. lia.
  - simpl in Hd. apply drop_cons_lookup in Hd as [-> Hd]. cbn [mbind option_bind].
    change (1 =? 0) with false. rewrite Z.eqb_refl. cbn iota. rewrite <-app_assoc in Hd.
    rewrite (get_string_put arg bytes (S c) _ Hs1 Hfit Hd). cbn [mbind option_bind].
    rewrite (IH (E ++ [arg]) (push 1 D arg)) with (5 := drop_app_advance _ _ _ _ Hd);
      [|rewrite length_app; simpl; lia|done|done|rewrite length_app; simpl; lia].
    cbn [mbind option_bind]. f_equal. f_equal. cbn [length]. rewrite length_app. lia.
Qed.

(** The mirrored decoder returns the arguments. *)
Lemma decoded_args_new E args : decoded_args push_new E E args = args.
Proof.
  revert E. induction args as [|arg args IH]; intros E; [done|]. cbn [decoded_args].
  destruct (list_find _ E) as [[i a]|] eqn:Hf.
  - apply list_find_Some in Hf as (Hi&->&_). rewrite Hi. simpl. f_equal. apply IH.
  - f_equal. apply IH.
Qed.

(** The positions a repeated argument has in the two tables agree. *)
Fixpoint refs_ok (E D : list (list Z)) (args : list (list Z)) : bool :=
  match args with
  | [] => true
  | arg :: args =>
    match list_find (λ known, known = arg) E with
    | Some (i, _) => bool_decide (D !! i = Some arg) && refs_ok E (D ++ [arg]) args
    | None => refs_ok (E ++ [arg]) (D ++ [arg]) args
    end
  end.

Lemma decoded_args_all E D args :
  (length E ≤ length D)%nat → decoded_args push_all E D args = args ↔ refs_ok E D args = true.
Proof.
  revert E D. induction args as [|arg args IH]; intros E D HED; [done|]. cbn [decoded_args refs_ok].
  destruct (list_find _ E) as [[i a]|] eqn:Hf.
  - apply list_find_Some in Hf as (Hi&->&_). apply lookup_lt_Some in Hi as Hlt.
    destruct (lookup_lt_is_Some_2 D i) as [b Hb]; [lia|]. rewrite Hb. cbn [default].
    rewrite andb_true_iff, bool_decide_eq_true.
    pose proof (IH E (D ++ [arg]) ltac:(rewrite length_app; lia)) as IH'. split.
    + intros [= -> H]. split; [done|]. by apply IH'.
    + intros [[= ->] H]. f_equal. by apply IH'.
  - rewrite <-IH by (rewrite !length_app; simpl; lia). unfold push_all. split; [by intros [= H]|].
    by intros ->.
Qed.

Lemma refs_ok_nodup args E : NoDup (E ++ args) → refs_ok E E args = true.
Proof.
  revert E. induction args as [|arg args IH]; intros E Hnd; [done|]. cbn [refs_ok].
  destruct (list_find _ E) as [[i a]|] eqn:Hf.
  - apply list_find_Some in Hf as (Hi&->&_). apply list_elem_of_lookup_2 in Hi.
    apply NoDup_app in Hnd as (_&Hdis&_). exfalso. by apply (Hdis arg Hi); left.
  - apply IH. by rewrite <-app_assoc.
Qed.

Lemma encode_args_length E args : (length args ≤ length (encode_args E args))%nat.
Proof.
  revert E. induction args as [|arg args IH]; intros E; [done|]. cbn [encode_args length].
  destruct (list_find _ E) as [[i a]|]; cbn [length]; rewrite length_app.
  - pose proof (IH E). lia.
  - pose proof (IH (E ++ [arg])). lia.
Qed.

(** ** Records *)

(** Keys the compiler builds: a 64-bit module hash, a package, strings, and a
    record that fits the address space. *)
Record key_ok (key : StableSymbolKey) : Prop := {
  ok_module : 0 ≤ module key ≤ u64_max;
  ok_package : is_str (package key) ∧ package key ≠ [];
  ok_definition : is_str (definition key);
  ok_name : is_str (name key);
  ok_args : Forall is_str (generic_args key);
  ok_size : fits_usize (encode_record key);
}.

Definition with_args (key : StableSymbolKey) (args : list (list Z)) : StableSymbolKey :=
  mkKey (package key) (module key) (definition key) (name key) (kind key) args.

Lemma kind_from_tag_tag k : kind_from_tag (kind_tag k) = Some k.
Proof. by destruct k. Qed.

Lemma decode_encode_record push key :
  push_grows push → key_ok key →
  decode_record push (encode_record key) =
    Some (with_args key (decoded_args push [] [] (generic_args key))).
Proof.
  intros Hpush [Hm [Hp Hne] Hdef Hn Ha Hfit]. unfold decode_record.
  set (bytes := encode_record key) in *.
  assert (drop 4 bytes = put_varint (module key) ++ put_bytes (as_bytes (definition key)) ++
    [kind_tag (kind key)] ++ put_bytes (as_bytes (package key)) ++ put_bytes (as_bytes (name key)) ++
    put_varint (Z.of_nat (length (generic_args key))) ++ encode_args [] (generic_args key) ++ []) as Hd
    by (rewrite app_nil_r; reflexivity).
  assert (length (generic_args key) ≤ length bytes)%nat as Hcount.
  { pose proof (encode_args_length [] (generic_args key)). subst bytes. unfold encode_record.
    rewrite !length_app. lia. }
  assert (4 ≤ length bytes)%nat by (subst bytes; unfold encode_record; rewrite length_app; simpl; lia).
  assert ((3 <=? length bytes)%nat && bool_decide (take 3 bytes = bytes_of_string "NIA")
    && bool_decide (bytes !! 3%nat = Some 1) = true) as ->.
  { rewrite (proj2 (Nat.leb_le _ _)) by lia. rewrite !bool_decide_true by reflexivity. done. }
  unfold fits_usize, usize_max in *.
  rewrite (get_varint_put _ _ _ _ Hm Hd). cbn [mbind option_bind]. apply drop_app_advance in Hd.
  rewrite (get_string_put _ _ _ _ Hdef Hfit Hd). cbn [mbind option_bind]. apply drop_app_advance in Hd.
  simpl app in Hd. apply drop_cons_lookup in Hd as [-> Hd]. cbn [mbind option_bind].
  rewrite kind_from_tag_tag. cbn [mbind option_bind].
  rewrite (get_string_put _ _ _ _ Hp Hfit Hd). cbn [mbind option_bind]. apply drop_app_advance in Hd.
  assert (package_try_new (package key) = Some (package key)) as -> by (by destruct (package key)).
  cbn [mbind option_bind].
  rewrite (get_string_put _ _ _ _ Hn Hfit Hd). cbn [mbind option_bind]. apply drop_app_advance in Hd.
  rewrite (get_varint_put (Z.of_nat (length (generic_args key))) _ _ _) with (2 := Hd) by lia.
  cbn [mbind option_bind]. unfold usize_max. rewrite checked_in by lia. cbn [mbind option_bind].
  apply drop_app_advance in Hd. rewrite Nat2Z.id.
  rewrite (decode_encode_args push [] [] (generic_args key) bytes _ []) with (6 := Hd)
    by (done || (unfold usize_max; simpl; lia)).
  cbn [mbind option_bind]. apply drop_app_advance in Hd.
  match type of Hd with drop ?n _ = _ => assert (n = length bytes) as Hend end.
  { clear. subst bytes. unfold encode_record. rewrite !length_app.
    change (length (bytes_of_string "NIA")) with 3%nat. cbn [length]. lia. }
  rewrite Hend, Nat.eqb_refl. done.
Qed.

(** ** base64url *)

Definition is_bytes (bs : list Z) : Prop := Forall (λ b, 0 ≤ b < 256) bs.

Definition all_pairs (p : Z → Z → bool) : bool := all_bytes (λ a, all_bytes (p a)).

Lemma all_pairs_spec p a b : all_pairs p = true → 0 ≤ a < 256 → 0 ≤ b < 256 → p a b = true.
Proof. intros H Ha Hb. eapply all_bytes_spec in H; [|exact Ha]. by eapply all_bytes_spec in H. Qed.

(** The four values of a chunk. *)
Definition value0 (a : Z) : Z := Z.shiftr a 2.
Definition value1 (a b : Z) : Z := Z.lor (Z.shiftl (Z.land a 3) 4) (Z.shiftr b 4).
Definition value2 (b c : Z) : Z := Z.lor (Z.shiftl (Z.land b 15) 2) (Z.shiftr c 6).
Definition value3 (c : Z) : Z := Z.land c 63.

Definition is_value (v : Z) : bool := (0 <=? v) && (v <? 64).

Definition first_pair (a b : Z) : bool :=
  is_value (value0 a) && is_value (value1 a b) && (byte1 (value0 a) (value1 a b) =? a)
  && (Z.shiftl (value1 a b) 4 mod 256 =? Z.shiftl (Z.shiftr b 4) 4).

Definition second_pair (b c : Z) : bool :=
  is_value (value2 b c) && is_value (value3 c) && (byte3 (value2 b c) (value3 c) =? c)
  && (Z.lor (Z.shiftl (Z.shiftr b 4) 4) (Z.shiftr (value2 b c) 2) =? b).

Lemma first_pairs : all_pairs first_pair = true.
Proof. vm_compute. reflexivity. Qed.

Lemma second_pairs : all_pairs second_pair = true.
Proof. vm_compute. reflexivity. Qed.

Lemma chunk_values a b c :
  0 ≤ a < 256 → 0 ≤ b < 256 → 0 ≤ c < 256 →
  is_value (value0 a) = true ∧ is_value (value1 a b) = true ∧ is_value (value2 b c) = true ∧
  is_value (value3 c) = true ∧ byte1 (value0 a) (value1 a b) = a ∧
  byte2 (value1 a b) (value2 b c) = b ∧ byte3 (value2 b c) (value3 c) = c.
Proof.
  intros Ha Hb Hc. pose proof (all_pairs_spec _ a b first_pairs Ha Hb) as H1.
  pose proof (all_pairs_spec _ b c second_pairs Hb Hc) as H2.
  unfold first_pair, second_pair in *. bool_to_prop. split_and!; try done.
  unfold byte2. congruence.
Qed.

Definition char_check (v : Z) : bool :=
  negb (is_value v) ||
  (bool_decide (base64_value (base64_char v) = Some v)
   && (0 <=? base64_char v) && (base64_char v <? 128)).

Lemma char_checks : all_bytes char_check = true.
Proof. vm_compute. reflexivity. Qed.

Lemma base64_char_value v :
  is_value v = true → base64_value (base64_char v) = Some v ∧ 0 ≤ base64_char v < 128.
Proof.
  intros Hv. assert (0 ≤ v < 256) as Hr by (unfold is_value in Hv; bool_to_prop; lia).
  pose proof (all_bytes_spec _ v char_checks Hr) as H. unfold char_check in H. rewrite Hv in H.
  simpl in H. bool_to_prop.
  match goal with H : bool_decide _ = true |- _ => apply bool_decide_eq_true in H end. done.
Qed.

Lemma decode_loop_char values v text :
  is_value v = true →
  decode_loop values (base64_char v :: text) =
    match values ++ [v] with
    | [v0; v1; v2; v3] => app [byte1 v0 v1; byte2 v1 v2; byte3 v2 v3] <$> decode_loop [] text
    | values => decode_loop values text
    end.
Proof. intros Hv. cbn [decode_loop]. destruct (base64_char_value v Hv) as [-> _]. done. Qed.

(** Induction over chunks of three. *)
Lemma chunk_ind (P : list Z → Prop) :
  P [] → (∀ a, P [a]) → (∀ a b, P [a; b]) → (∀ a b c l, P l → P (a :: b :: c :: l)) → ∀ l, P l.
Proof.
  intros H0 H1 H2 H3. fix IH 1. intros [|a [|b [|c l]]]; [done|done|done|]. apply H3, IH.
Qed.

Lemma encode_chunk_values bs :
  is_bytes bs →
  encode_base64url bs =
    match bs with
    | [] => []
    | [a] => [base64_char (value0 a); base64_char (value1 a 0)]
    | [a; b] => [base64_char (value0 a); base64_char (value1 a b); base64_char (value2 b 0)]
    | a :: b :: c :: l =>
      base64_char (value0 a) :: base64_char (value1 a b) :: base64_char (value2 b c)
        :: base64_char (value3 c) :: encode_base64url l
    end.
Proof. intros _. by destruct bs as [|a [|b [|c l]]]. Qed.

Lemma decode_encode_loop bs : is_bytes bs → decode_loop [] (encode_base64url bs) = Some bs.
Proof.
  induction bs as [|a|a b|a b c l IH] using chunk_ind; intros Hbs; rewrite encode_chunk_values by done;
    [done| | |]; unfold is_bytes in Hbs; rewrite !Forall_cons in Hbs.
  - destruct (chunk_values a 0 0) as (Ha&Hb&_&_&H1&_); [lia..|].
    rewrite decode_loop_char by done. cbn [app]. rewrite decode_loop_char by done.
    cbn [app decode_loop]. by rewrite H1.
  - destruct (chunk_values a b 0) as (Ha&Hb&Hc&_&H1&H2&_); [lia..|].
    rewrite decode_loop_char by done. cbn [app]. rewrite decode_loop_char by done. cbn [app].
    rewrite decode_loop_char by done. cbn [app decode_loop]. by rewrite H1, H2.
  - destruct Hbs as (Hra&Hrb&Hrc&Hl).
    destruct (chunk_values a b c) as (Ha&Hb&Hc&Hd&H1&H2&H3); [lia..|].
    rewrite decode_loop_char by done. cbn [app]. rewrite decode_loop_char by done. cbn [app].
    rewrite decode_loop_char by done. cbn [app]. rewrite decode_loop_char by done. cbn [app].
    rewrite IH by done. by rewrite H1, H2, H3.
Qed.

Lemma encode_ascii bs : is_bytes bs → Forall (λ c, 0 ≤ c < 128) (encode_base64url bs).
Proof.
  induction bs as [|a|a b|a b c l IH] using chunk_ind; intros Hbs; rewrite encode_chunk_values by done;
    [constructor| | |]; unfold is_bytes in Hbs; rewrite !Forall_cons in Hbs.
  - destruct (chunk_values a 0 0) as (?&?&_); [lia..|].
    repeat constructor; by apply base64_char_value.
  - destruct (chunk_values a b 0) as (?&?&?&_); [lia..|].
    repeat constructor; by apply base64_char_value.
  - destruct Hbs as (?&?&?&Hl). destruct (chunk_values a b c) as (?&?&?&?&_); [lia..|].
    do 4 (constructor; [by apply base64_char_value|]). by apply IH.
Qed.

Lemma decode_encode_base64 bs : is_bytes bs → decode_base64url (encode_base64url bs) = Some bs.
Proof.
  intros Hbs. unfold decode_base64url. rewrite as_bytes_ascii.
  - rewrite decode_encode_loop by done. cbn [mbind option_bind]. by rewrite decide_True.
  - eapply Forall_impl; [by apply encode_ascii|]. simpl. lia.
Qed.

(** ** Symbols *)

Lemma put_varint_bytes v : is_bytes (put_varint v).
Proof.
  unfold put_varint. generalize 10%nat. intros n. revert v.
  induction n as [|n IH]; intros v; cbn [put_varint_fuel]; [constructor|].
  pose proof (Z.mod_pos_bound v 256 ltac:(lia)) as Hm. destruct (128 <=? v).
  - constructor; [|apply IH].
    assert ((0 <=? Z.lor (v mod 256) 128) && (Z.lor (v mod 256) 128 <? 256) = true) as H.
    { apply (all_bytes_spec (λ m, (0 <=? Z.lor m 128) && (Z.lor m 128 <? 256))); [reflexivity|lia]. }
    bool_to_prop. lia.
  - constructor; [done|constructor].
Qed.

Lemma as_bytes_bytes s : is_str s → is_bytes (as_bytes s).
Proof.
  induction 1 as [|c s Hc _ IH]; [constructor|]. rewrite as_bytes_cons. apply Forall_app. split; [|done].
  destruct (encode_utf8_shape c Hc) as [(b&->&_&?)|(b&bs&->&?&_&Hbs&_)].
  - constructor; [lia|constructor].
  - constructor; [lia|]. eapply Forall_impl; [exact Hbs|]. simpl. lia.
Qed.

Lemma put_bytes_bytes s : is_str s → is_bytes (put_bytes (as_bytes s)).
Proof. intros Hs. apply Forall_app. split; [apply put_varint_bytes|by apply as_bytes_bytes]. Qed.

Lemma encode_args_bytes E args : Forall is_str args → is_bytes (encode_args E args).
Proof.
  intros Hs. revert E. induction Hs as [|arg args Harg _ IH]; intros E; [constructor|].
  cbn [encode_args]. destruct (list_find _ E) as [[i a]|]; (constructor; [lia|]); apply Forall_app;
    (split; [|apply IH]); [apply put_varint_bytes|by apply put_bytes_bytes].
Qed.

Lemma is_bytes_app l k : is_bytes (l ++ k) ↔ is_bytes l ∧ is_bytes k.
Proof. apply Forall_app. Qed.

Lemma encode_record_bytes key : key_ok key → is_bytes (encode_record key).
Proof.
  intros [Hm [Hp _] Hd Hn Ha _]. unfold encode_record.
  rewrite !is_bytes_app. split_and!;
    try by (apply put_varint_bytes || apply put_bytes_bytes || apply encode_args_bytes).
  - apply Forall_forall. intros b Hb. repeat (apply elem_of_cons in Hb as [->|Hb]; [done|]).
    by apply not_elem_of_nil in Hb.
  - constructor; [lia|constructor].
  - constructor; [by destruct (kind key)|constructor].
Qed.

Lemma demangle_mangle key :
  key_ok key →
  demangle_stable_symbol (mangle_stable_symbol key) =
    Some (with_args key (decoded_args push_all [] [] (generic_args key))).
Proof.
  intros Hok. unfold demangle_stable_symbol, mangle_stable_symbol.
  rewrite (proj2 (strip_prefix_Some _ _ (encode_base64url (encode_record key)))) by done.
  cbn [mbind option_bind]. rewrite decode_encode_base64 by (by apply encode_record_bytes).
  cbn [mbind option_bind]. apply decode_encode_record; [apply push_all_grows|done].
Qed.

Lemma mangle_inj k1 k2 :
  key_ok k1 → key_ok k2 → mangle_stable_symbol k1 = mangle_stable_symbol k2 → k1 = k2.
Proof.
  intros H1 H2 Heq. apply app_inv_head in Heq.
  apply (f_equal (λ t, decode_base64url t ≫= decode_record push_new)) in Heq.
  rewrite !decode_encode_base64 in Heq by (by apply encode_record_bytes). cbn [mbind option_bind] in Heq.
  rewrite !(decode_encode_record push_new) in Heq by (done || apply push_new_grows).
  rewrite !decoded_args_new in Heq. destruct k1, k2. by injection Heq as -> -> -> -> -> ->.
Qed.

(** C28: distinct keys have distinct linker symbols. *)
Theorem mangle_stable_symbol_injective (k1 k2 : StableSymbolKey) (H1 : key_ok k1) (H2 : key_ok k2)
    (Heq : mangle_stable_symbol k1 = mangle_stable_symbol k2) : k1 = k2.
Proof. by apply mangle_inj. Qed.

Definition sample_key (args : list string) : StableSymbolKey :=
  mkKey (bytes_of_string "pkg") 81985529216486895 (bytes_of_string "def:1") (bytes_of_string "push")
    SFunction (bytes_of_string <$> args).

(** A decidable sufficient condition for [key_ok] on ASCII keys. *)
Definition key_ok_b (key : StableSymbolKey) : bool :=
  (0 <=? module key) && (module key <=? u64_max) && is_str_b (package key)
  && negb (bool_decide (package key = [])) && is_str_b (definition key) && is_str_b (name key)
  && forallb is_str_b (generic_args key)
  && (Z.of_nat (length (encode_record key)) <=? usize_max).

Lemma key_ok_b_spec key : key_ok_b key = true → key_ok key.
Proof.
  unfold key_ok_b. intros H. rewrite !andb_true_iff in H.
  destruct H as [[[[[[[H1 H2] H3] H4] H5] H6] H7] H8]. bool_to_prop. apply bool_decide_eq_false in H4.
  split; try by apply is_str_b_spec.
  - done.
  - split; [by apply is_str_b_spec|done].
  - rewrite forallb_forall in H7. apply Forall_forall. intros a Ha.
    apply is_str_b_spec, H7. by apply list_elem_of_In.
  - done.
Qed.

Lemma mangle_stable_symbol_injective_witness :
  mangle_stable_symbol (sample_key ["i32"; "u8"]) ≠ mangle_stable_symbol (sample_key ["i32u8"]).
Proof.
  intros H. apply mangle_stable_symbol_injective in H; [by vm_compute in H|..];
    by apply key_ok_b_spec; vm_compute.
Defined.

(** C33: decoding a symbol gives back its key exactly when every repeated generic
    argument has the same position in the encoder's table of distinct arguments
    and in the decoder's table of all arguments; in particular when no argument
    is repeated. *)
Theorem demangle_mangle_exact (key : StableSymbolKey) (Hok : key_ok key) :
  (demangle_stable_symbol (mangle_stable_symbol key) = Some key ↔
     refs_ok [] [] (generic_args key) = true) ∧
  (NoDup (generic_args key) → demangle_stable_symbol (mangle_stable_symbol key) = Some key).
Proof.
  pose proof (decoded_args_all [] [] (generic_args key) ltac:(done)) as Hrefs.
  rewrite demangle_mangle by done. split.
  - rewrite <-Hrefs. unfold with_args. destruct key as [p m d n k args]. simpl. split.
    + by intros [= ->].
    + by intros ->.
  - intros Hnd. rewrite (proj2 Hrefs) by (by apply (refs_ok_nodup _ [])). by destruct key.
Qed.

Lemma demangle_mangle_exact_witness :
  demangle_stable_symbol (mangle_stable_symbol (sample_key ["i32"; "u8"; "i32"])) =
    Some (sample_key ["i32"; "u8"; "i32"]).
Proof.
  refine (proj2 (proj1 (demangle_mangle_exact _ _)) _); [by apply key_ok_b_spec; vm_compute|reflexivity].
Defined.

(** C37: the closure entries of two different owners can have the same symbol: for
    any two distinct argument spellings [A] and [B], the owners instantiated at
    [A, A, B, B] and [A, A, B, A] have different symbols, but the derived
    closure-entry symbols of equal ordinals are equal. *)
Theorem closure_entry_symbols_collide (key : StableSymbolKey) (A B : list Z) (ordinal : N)
    (HAB : A ≠ B) (H1 : key_ok (with_args key [A; A; B; B])) (H2 : key_ok (with_args key [A; A; B; A])) :
  mangle_stable_symbol (with_args key [A; A; B; B]) ≠ mangle_stable_symbol (with_args key [A; A; B; A]) ∧
  mangle_closure_entry_symbol (mangle_stable_symbol (with_args key [A; A; B; B])) ordinal =
  mangle_closure_entry_symbol (mangle_stable_symbol (with_args key [A; A; B; A])) ordinal.
Proof.
  split.
  - intros Heq. apply mangle_inj in Heq; [|done..]. by injection Heq as ?.
  - unfold mangle_closure_entry_symbol. rewrite !demangle_mangle by done.
    assert (decoded_args push_all [] [] [A; A; B; B] = decoded_args push_all [] [] [A; A; B; A]) as Hd.
    { simpl. repeat (case_decide; try done; simpl). }
    unfold with_args. cbn [generic_args package module definition name kind]. by rewrite Hd.
Qed.

Lemma closure_entry_symbols_collide_witness :
  mangle_closure_entry_symbol (mangle_stable_symbol (sample_key ["i32"; "i32"; "u8"; "u8"])) 0 =
  mangle_closure_entry_symbol (mangle_stable_symbol (sample_key ["i32"; "i32"; "u8"; "i32"])) 0.
Proof.
  apply (closure_entry_symbols_collide (sample_key []) (bytes_of_string "i32") (bytes_of_string "u8"));
    [by vm_compute|by apply key_ok_b_spec; vm_compute..].
Defined.

(** the decoder accepts symbols the encoder never produces: some symbol with
    an overlong integer decodes to a key whose own symbol is another one. *)
Theorem demangle_accepts_overlong :
  ∃ symbol, demangle_stable_symbol symbol = Some (mkKey [112] 5 [] [] SType []) ∧
    symbol ≠ mangle_stable_symbol (mkKey [112] 5 [] [] SType []).
Proof.
  exists (bytes_of_string "_N" ++ encode_base64url
    (bytes_of_string "NIA" ++ [1; 133; 0; 0; "t"%B; 1; 112; 0; 0])).
  split; [vm_compute; reflexivity|]. by vm_compute.
Qed.
