(* ===== verification/PatternAnalysis.v ===== *)
(** * nia-pattern-analysis: usefulness of patterns

    [crates/nia-pattern-analysis/src/lib.rs].  The whole analysis, over any type
    [T] of type identities and [C] of constructor identities, for a [domain]
    callback that is a function of the type.  The source recurses without a
    bound; here every recursive call consumes one unit of fuel, and [OutOfFuel]
    is kept apart from the errors of the analysis.  [i128] endpoints are [Z]. *)

From S2P Require Import Prelude RustStd.

(** ** Data *)

Inductive Pattern (C : Type) : Type :=
  | Wildcard
  | PConstructor (id : C) (fields : list (Pattern C))
  | ScalarRange (start end_ : Z)
  | POpaque.
Arguments Wildcard {C}.
Arguments PConstructor {C} id fields.
Arguments ScalarRange {C} start end_.
Arguments POpaque {C}.

Record Constructor (T C : Type) := mkConstructor { ctor_id : C; ctor_fields : list T }.
Arguments mkConstructor {T C} ctor_id ctor_fields.
Arguments ctor_id {T C} _.
Arguments ctor_fields {T C} _.

Inductive Domain (T C : Type) : Type :=
  | Finite (constructors : list (Constructor T C))
  | Open (constructors : list (Constructor T C))
  | Scalar (min max : Z) (complete : bool)
  | DOpaque.
Arguments Finite {T C} constructors.
Arguments Open {T C} constructors.
Arguments Scalar {T C} min max complete.
Arguments DOpaque {T C}.

Inductive AnalysisError : Type :=
  | MatrixWidth (expected found : nat)
  | QueryWidth (expected found : nat)
  | UnknownConstructor
  | ConstructorArity (expected found : nat)
  | ScalarPatternOutsideScalarDomain.

(** ** Results of a bounded computation *)

Inductive Outcome (A : Type) : Type :=
  | Done (a : A)
  | Fail (e : AnalysisError)
  | OutOfFuel.
Arguments Done {A} a.
Arguments Fail {A} e.
Arguments OutOfFuel {A}.

#[global] Instance Outcome_ret : MRet Outcome := λ A a, Done a.
#[global] Instance Outcome_bind : MBind Outcome := λ A B f o,
  match o with Done a => f a | Fail e => Fail e | OutOfFuel => OutOfFuel end.
#[global] Instance Outcome_fmap : FMap Outcome := λ A B f o,
  match o with Done a => Done (f a) | Fail e => Fail e | OutOfFuel => OutOfFuel end.

(** A witness is changed when there is one. *)
Definition map_witness {A} (f : A → A) (o : Outcome (option A)) : Outcome (option A) :=
  match o with
  | Done (Some a) => Done (Some (f a))
  | Done None => Done None
  | Fail e => Fail e
  | OutOfFuel => OutOfFuel
  end.

(** ** Scalars *)

Definition clip_range (start end_ min max : Z) : option (Z * Z) :=
  let start := Z.max start min in
  let end_ := Z.min end_ max in
  if start <=? end_ then Some (start, end_) else None.

(** [sort_unstable] and [dedup] of integers. *)
Fixpoint insert_boundary (b : Z) (l : list Z) : list Z :=
  match l with
  | [] => [b]
  | c :: l' => if b <=? c then b :: l else c :: insert_boundary b l'
  end.

Fixpoint dedup (l : list Z) : list Z :=
  match l with
  | [] => []
  | a :: l =>
    match l with
    | [] => [a]
    | b :: _ => if a =? b then dedup l else a :: dedup l
    end
  end.

(** Each boundary starts a part that ends before the next one, or at [max]. *)
Fixpoint parts_of (max : Z) (boundaries : list Z) : list (Z * Z) :=
  match boundaries with
  | [] => []
  | start :: rest =>
    (start, match rest with [] => max | next :: _ => Z.max i128_min (next - 1) end)
    :: parts_of max rest
  end.

Section analysis.
Context {T C : Type} `{!EqDecision T} `{!EqDecision C}.
Context (domain : T → Domain T C).

Definition is_wildcard (p : Pattern C) : bool :=
  match p with Wildcard => true | _ => false end.

(** The range of the first pattern of a row. *)
Definition row_range (row : list (Pattern C)) : option (Z * Z) :=
  match row with ScalarRange s e :: _ => Some (s, e) | _ => None end.

Definition range_boundaries (min max : Z) (range : Z * Z) : list Z :=
  match clip_range range.1 range.2 min max with
  | Some (s, e) => s :: if e <? max then [e + 1] else []
  | None => []
  end.

Definition scalar_partitions (matrix : list (list (Pattern C))) (query : option (Z * Z))
    (min max : Z) : list (Z * Z) :=
  if max <? min then []
  else
    let ranges := omap row_range matrix ++ match query with Some r => [r] | None => [] end in
    let boundaries := min :: (ranges ≫= range_boundaries min max) in
    parts_of max (dedup (foldr insert_boundary [] boundaries)).

(** ** Specialization *)

Definition check_arity (found expected : nat) : Outcome unit :=
  if (found =? expected)%nat then Done () else Fail (ConstructorArity expected found).

Definition find_constructor (d : Domain T C) (id : C) : Outcome (Constructor T C) :=
  match d with
  | Finite cs | Open cs =>
    match list_find (λ c, ctor_id c = id) cs with
    | Some (_, c) => Done c
    | None => Fail UnknownConstructor
    end
  | Scalar _ _ _ | DOpaque => Fail UnknownConstructor
  end.

(** A row of width zero is a panic of the source; no row of a matrix that is
    specialized has that width, and the model drops it. *)
Fixpoint specialize_constructor (matrix : list (list (Pattern C))) (id : C) (arity : nat) :
    Outcome (list (list (Pattern C))) :=
  match matrix with
  | [] => Done []
  | row :: matrix =>
    match row with
    | Wildcard :: tail =>
      cons (replicate arity Wildcard ++ tail) <$> specialize_constructor matrix id arity
    | PConstructor row_id fields :: tail =>
      if decide (row_id = id) then
        _ ← check_arity (length fields) arity;
        cons (fields ++ tail) <$> specialize_constructor matrix id arity
      else specialize_constructor matrix id arity
    | ScalarRange _ _ :: _ | POpaque :: _ | [] => specialize_constructor matrix id arity
    end
  end.

Definition specialize_scalar_row (part_start part_end : Z) (row : list (Pattern C)) :
    option (list (Pattern C)) :=
  match row with
  | Wildcard :: tail => Some tail
  | ScalarRange s e :: tail => if (s <=? part_start) && (part_end <=? e) then Some tail else None
  | _ => None
  end.

Definition specialize_scalar (matrix : list (list (Pattern C))) (part_start part_end : Z) :
    list (list (Pattern C)) :=
  omap (specialize_scalar_row part_start part_end) matrix.

Definition default_row (row : list (Pattern C)) : option (list (Pattern C)) :=
  match row with Wildcard :: tail => Some tail | _ => None end.

Definition default_matrix (matrix : list (list (Pattern C))) : list (list (Pattern C)) :=
  omap default_row matrix.

(** ** Validation of a query against an empty matrix *)

(** The constructor loop of [validate_wildcard_head]. *)
Fixpoint any_constructor (validate : list (Pattern C) → list T → Outcome bool)
    (cs : list (Constructor T C)) : Outcome bool :=
  match cs with
  | [] => Done false
  | c :: cs =>
    ok ← validate (replicate (length (ctor_fields c)) Wildcard) (ctor_fields c);
    if (ok : bool) then Done true else any_constructor validate cs
  end.

Definition validate_wildcard_head (validate : list (Pattern C) → list T → Outcome bool)
    (d : Domain T C) : Outcome bool :=
  match d with
  | Finite cs => any_constructor validate cs
  | Open _ | DOpaque => Done true
  | Scalar min max _ => Done (min <=? max)
  end.

(** [active] is the stack of types whose wildcard is being expanded. *)
Fixpoint validate_empty_query_inner (fuel : nat) (query : list (Pattern C)) (types : list T)
    (active : list T) : Outcome bool :=
  match fuel with
  | O => OutOfFuel
  | S fuel =>
    match query, types with
    | [], _ => Done true
    | head :: tail, ty :: tail_types =>
      ok ←
        match head with
        | Wildcard | POpaque =>
          if bool_decide (ty ∈ active) then Done false
          else
            validate_wildcard_head
              (λ q ts, validate_empty_query_inner fuel q ts (active ++ [ty])) (domain ty)
        | PConstructor id fields =>
          c ← find_constructor (domain ty) id;
          _ ← check_arity (length fields) (length (ctor_fields c));
          validate_empty_query_inner fuel fields (ctor_fields c) active
        | ScalarRange s e =>
          match domain ty with
          | Scalar min max _ =>
            Done (match clip_range s e min max with Some _ => true | None => false end)
          | _ => Fail ScalarPatternOutsideScalarDomain
          end
        end;
      if (ok : bool) then validate_empty_query_inner fuel tail tail_types active else Done false
    | _ :: _, [] => Done true
    end
  end.

Definition validate_empty_query (fuel : nat) (query : list (Pattern C)) (types : list T) :
    Outcome bool :=
  validate_empty_query_inner fuel query types [].

(** ** Usefulness *)

(** The witness of a specialized query, with the constructor put back. *)
Definition rebuild (id : C) (arity : nat) (witness : list (Pattern C)) : list (Pattern C) :=
  PConstructor id (take arity witness) :: drop arity witness.

Notation useful_type := (list (list (Pattern C)) → list (Pattern C) → list T →
  Outcome (option (list (Pattern C)))).

(** The first constructor whose specialization is useful. *)
Fixpoint first_constructor (useful : useful_type) (matrix : list (list (Pattern C)))
    (tail : list (Pattern C)) (tail_types : list T) (cs : list (Constructor T C)) :
    Outcome (option (list (Pattern C))) :=
  match cs with
  | [] => Done None
  | c :: cs =>
    let arity := length (ctor_fields c) in
    specialized ← specialize_constructor matrix (ctor_id c) arity;
    r ← useful specialized (replicate arity Wildcard ++ tail) (ctor_fields c ++ tail_types);
    match r with
    | Some witness => Done (Some (rebuild (ctor_id c) arity witness))
    | None => first_constructor useful matrix tail tail_types cs
    end
  end.

(** The first part of a scalar domain, within [bounds], that is useful. *)
Fixpoint first_part (useful : useful_type) (matrix : list (list (Pattern C)))
    (tail : list (Pattern C)) (tail_types : list T) (bounds : option (Z * Z))
    (parts : list (Z * Z)) : Outcome (option (list (Pattern C))) :=
  match parts with
  | [] => Done None
  | (s, e) :: parts =>
    if match bounds with Some (lo, hi) => (s <? lo) || (hi <? e) | None => false end
    then first_part useful matrix tail tail_types bounds parts
    else
      r ← useful (specialize_scalar matrix s e) tail tail_types;
      match r with
      | Some witness => Done (Some (ScalarRange s s :: witness))
      | None => first_part useful matrix tail tail_types bounds parts
      end
  end.

Definition useful_default (useful : useful_type) (matrix : list (list (Pattern C)))
    (tail : list (Pattern C)) (tail_types : list T) (head : Pattern C) :
    Outcome (option (list (Pattern C))) :=
  map_witness (cons head) (useful (default_matrix matrix) tail tail_types).

Definition useful_wildcard (useful : useful_type) (matrix : list (list (Pattern C)))
    (tail : list (Pattern C)) (tail_types : list T) (d : Domain T C) :
    Outcome (option (list (Pattern C))) :=
  match d with
  | Finite cs => first_constructor useful matrix tail tail_types cs
  | Open cs =>
    r ← first_constructor useful matrix tail tail_types cs;
    match r with
    | Some witness => Done (Some witness)
    | None => useful_default useful matrix tail tail_types Wildcard
    end
  | Scalar min max complete =>
    r ← first_part useful matrix tail tail_types None (scalar_partitions matrix None min max);
    match r with
    | Some witness => Done (Some witness)
    | None =>
      if complete then Done None else useful_default useful matrix tail tail_types Wildcard
    end
  | DOpaque => useful_default useful matrix tail tail_types Wildcard
  end.

Fixpoint useful_inner (fuel : nat) (matrix : list (list (Pattern C))) (query : list (Pattern C))
    (types : list T) : Outcome (option (list (Pattern C))) :=
  match fuel with
  | O => OutOfFuel
  | S fuel =>
    match matrix with
    | [] =>
      ok ← validate_empty_query fuel query types;
      Done (if (ok : bool) then Some query else None)
    | _ =>
      match query, types with
      | [], _ => Done None
      | head :: tail, ty :: tail_types =>
        if existsb (forallb is_wildcard) matrix then Done None
        else
          match head with
          | PConstructor id fields =>
            c ← find_constructor (domain ty) id;
            _ ← check_arity (length fields) (length (ctor_fields c));
            specialized ← specialize_constructor matrix id (length (ctor_fields c));
            map_witness (rebuild id (length (ctor_fields c)))
              (useful_inner fuel specialized (fields ++ tail) (ctor_fields c ++ tail_types))
          | ScalarRange s e =>
            match domain ty with
            | Scalar min max _ =>
              match clip_range s e min max with
              | None => Done None
              | Some (lo, hi) =>
                first_part (useful_inner fuel) matrix tail tail_types (Some (lo, hi))
                  (scalar_partitions matrix (Some (lo, hi)) min max)
              end
            | _ => Fail ScalarPatternOutsideScalarDomain
            end
          | Wildcard => useful_wildcard (useful_inner fuel) matrix tail tail_types (domain ty)
          | POpaque => useful_default (useful_inner fuel) matrix tail tail_types POpaque
          end
      | _ :: _, [] => Done None
      end
    end
  end.

Definition validate_widths (matrix : list (list (Pattern C))) (query : list (Pattern C))
    (width : nat) : Outcome unit :=
  if negb (length query =? width)%nat then Fail (QueryWidth width (length query))
  else
    match list_find (λ row, length row ≠ width) matrix with
    | Some (_, row) => Fail (MatrixWidth width (length row))
    | None => Done ()
    end.

Definition useful_witness (fuel : nat) (matrix : list (list (Pattern C)))
    (query : list (Pattern C)) (types : list T) : Outcome (option (list (Pattern C))) :=
  _ ← validate_widths matrix query (length types);
  useful_inner fuel matrix query types.

(** [Vec::pop] takes the last pattern of the witness. *)
Definition missing_witness (fuel : nat) (matrix : list (list (Pattern C))) (ty : T) :
    Outcome (option (Pattern C)) :=
  r ← useful_witness fuel matrix [Wildcard] [ty];
  Done (r ≫= last).
End analysis.
