(* ===== verification/PatternScalars.v ===== *)
(** * nia-pattern-analysis: scalar partitions

    The boundaries of the ranges of a column cut the scalar domain into
    non-empty parts that cover it, each of which lies inside or outside every
    range. *)

From Stdlib Require Import Sorting.Sorted.
From S2P Require Import Prelude RustStd PatternAnalysis.

(** ** Sorting and deduplication *)

Lemma insert_boundary_in b l x : x ∈ insert_boundary b l ↔ x = b ∨ x ∈ l.
Proof.
  induction l as [|c l IH]; simpl; [by rewrite elem_of_cons|].
  case_match; rewrite !elem_of_cons, ?IH; tauto.
Qed.

Lemma insert_boundary_sorted b l :
  StronglySorted Z.le l → StronglySorted Z.le (insert_boundary b l).
Proof.
  induction 1 as [|c l Hl IH Hc]; simpl; [by repeat constructor|].
  case_match; bool_to_prop.
  - constructor; [by constructor|]. constructor; [done|].
    eapply Forall_impl; [exact Hc|]. simpl. lia.
  - constructor; [done|]. apply Forall_forall. intros x [->|Hx]%insert_boundary_in; [lia|].
    rewrite Forall_forall in Hc. by apply Hc.
Qed.

Definition sort_boundaries (l : list Z) : list Z := foldr insert_boundary [] l.

Lemma sort_boundaries_in l x : x ∈ sort_boundaries l ↔ x ∈ l.
Proof.
  induction l as [|b l IH]; [done|]. simpl. rewrite insert_boundary_in, IH, elem_of_cons. done.
Qed.

Lemma sort_boundaries_sorted l : StronglySorted Z.le (sort_boundaries l).
Proof. induction l as [|b l IH]; [constructor|]. by apply insert_boundary_sorted. Qed.

Lemma dedup_cons a b l : dedup (a :: b :: l) = if a =? b then dedup (b :: l) else a :: dedup (b :: l).
Proof. done. Qed.

Lemma dedup_in l x : x ∈ dedup l ↔ x ∈ l.
Proof.
  induction l as [|a [|b l] IH]; [done|done|]. rewrite dedup_cons.
  destruct (a =? b) eqn:Hab; bool_to_prop.
  - subst b. rewrite IH, !elem_of_cons. tauto.
  - rewrite (elem_of_cons (dedup _)), (elem_of_cons (b :: l)), IH. done.
Qed.

Lemma dedup_sorted l : StronglySorted Z.le l → StronglySorted Z.lt (dedup l).
Proof.
  induction 1 as [|a l Hl IH Ha]; [constructor|]. destruct l as [|b l]; [by repeat constructor|].
  rewrite dedup_cons. destruct (a =? b) eqn:Hab; [done|]. bool_to_prop. constructor; [done|].
  apply Forall_forall. intros x Hx. apply (proj1 (dedup_in _ _)) in Hx. apply Forall_cons in Ha as [Hb Ha].
  apply elem_of_cons in Hx as [->|Hx]; [lia|].
  apply StronglySorted_inv in Hl as [_ Hbl]. rewrite Forall_forall in Hbl.
  pose proof (Hbl x Hx). lia.
Qed.

(** ** Parts *)

(** A cut point never lies strictly inside a part. *)
Definition uncut (b : Z) (part : Z * Z) : Prop := b ≤ part.1 ∨ part.2 < b.

Lemma parts_of_spec mx l part :
  StronglySorted Z.lt l → Forall (λ b, i128_min ≤ b ≤ mx) l → part ∈ parts_of mx l →
  part.1 ∈ l ∧ part.1 ≤ part.2 ≤ mx ∧ ∀ b, b ∈ l → uncut b part.
Proof.
  intros Hs. induction Hs as [|a l Hl IH Ha]; intros Hb; [by intros ?%not_elem_of_nil|].
  apply Forall_cons in Hb as [Hba Hb]. cbn [parts_of]. rewrite elem_of_cons. intros [->|Hin]; simpl.
  - split; [by left|]. destruct l as [|c l].
    + split; [lia|]. intros b. rewrite list_elem_of_singleton. intros ->. left. simpl. lia.
    + apply Forall_cons in Ha as [Hac Ha], Hb as [Hbc Hb]. rewrite Z.max_r by lia.
      split; [lia|]. intros b. rewrite !elem_of_cons. unfold uncut. simpl.
      intros [->|[->|Hbl]]; [lia|lia|].
      apply StronglySorted_inv in Hl as [_ Hcl]. rewrite Forall_forall in Hcl. pose proof (Hcl b Hbl). lia.
  - destruct (IH Hb Hin) as (H1&H2&H3). split; [by right|]. split; [done|].
    intros b [->|Hbl]%elem_of_cons; [|by apply H3]. left.
    rewrite Forall_forall in Ha. pose proof (Ha _ H1). lia.
Qed.

Lemma parts_of_cover mx a l z :
  StronglySorted Z.lt (a :: l) → Forall (λ b, i128_min ≤ b ≤ mx) (a :: l) → a ≤ z ≤ mx →
  ∃ part, part ∈ parts_of mx (a :: l) ∧ part.1 ≤ z ≤ part.2.
Proof.
  revert a. induction l as [|c l IH]; intros a Hs Hb Hz.
  { exists (a, mx). split; [left|done]. }
  apply StronglySorted_inv in Hs as [Hs Ha]. apply Forall_cons in Ha as [Hac _], Hb as [Hba Hb].
  pose proof Hb as [Hbc _]%Forall_cons.
  destruct (decide (c ≤ z)) as [Hcz|Hcz].
  - destruct (IH c Hs Hb ltac:(lia)) as (part&Hin&Hp). exists part. split; [by right|done].
  - exists (a, Z.max i128_min (c - 1)). split; [left|]. simpl. lia.
Qed.

(** ** The partition of a column *)

Section partitions.
Context {C : Type}.
Implicit Types (matrix : list (list (Pattern C))).

Lemma clip_range_Some s e min max lo hi :
  clip_range s e min max = Some (lo, hi) ↔ lo = Z.max s min ∧ hi = Z.min e max ∧ lo ≤ hi.
Proof. unfold clip_range. cbn zeta. case_match; bool_to_prop; naive_solver lia. Qed.

Lemma clip_range_in s e min max z :
  s ≤ z ≤ e → min ≤ z ≤ max → clip_range s e min max = Some (Z.max s min, Z.min e max).
Proof. intros. apply clip_range_Some. lia. Qed.

Definition column_ranges matrix (query : option (Z * Z)) : list (Z * Z) :=
  omap row_range matrix ++ match query with Some r => [r] | None => [] end.

Definition column_boundaries matrix (query : option (Z * Z)) (min max : Z) : list Z :=
  dedup (sort_boundaries (min :: (column_ranges matrix query ≫= range_boundaries min max))).

Lemma scalar_partitions_eq matrix query min max :
  min ≤ max → scalar_partitions matrix query min max = parts_of max (column_boundaries matrix query min max).
Proof.
  intros H. unfold scalar_partitions. destruct (max <? min) eqn:Hlt; bool_to_prop; [lia|done].
Qed.

Lemma column_boundaries_in matrix query min max b :
  b ∈ column_boundaries matrix query min max ↔
  b = min ∨ ∃ r, r ∈ column_ranges matrix query ∧ b ∈ range_boundaries min max r.
Proof.
  unfold column_boundaries. rewrite dedup_in, sort_boundaries_in, elem_of_cons, list_elem_of_bind.
  naive_solver.
Qed.

Lemma range_boundaries_bound min max r b :
  b ∈ range_boundaries min max r → min ≤ b ≤ max.
Proof.
  unfold range_boundaries. destruct (clip_range _ _ _ _) as [[lo hi]|] eqn:Hc; [|by intros ?%not_elem_of_nil].
  apply clip_range_Some in Hc as (->&->&?). rewrite elem_of_cons. intros [->|Hb]; [lia|].
  revert Hb. case_match; bool_to_prop; [rewrite list_elem_of_singleton; lia|by intros ?%not_elem_of_nil].
Qed.

Lemma column_boundaries_ok matrix query min max :
  i128_min ≤ min ≤ max →
  StronglySorted Z.lt (column_boundaries matrix query min max) ∧
  Forall (λ b, i128_min ≤ b ≤ max) (column_boundaries matrix query min max).
Proof.
  intros H. split; [apply dedup_sorted, sort_boundaries_sorted|].
  apply Forall_forall. intros b [->|(r&_&Hb%range_boundaries_bound)]%column_boundaries_in; lia.
Qed.

(** Every part is a non-empty piece of the domain, inside or outside each range. *)
Lemma scalar_partitions_part matrix query min max part :
  i128_min ≤ min ≤ max → part ∈ scalar_partitions matrix query min max →
  min ≤ part.1 ≤ part.2 ∧ part.2 ≤ max ∧
  ∀ s e z, (s, e) ∈ column_ranges matrix query → part.1 ≤ z ≤ part.2 → s ≤ z ≤ e →
    s ≤ part.1 ∧ part.2 ≤ e.
Proof.
  intros Hm. rewrite scalar_partitions_eq by lia. intros Hin.
  destruct (column_boundaries_ok matrix query min max Hm) as [Hs Hb].
  destruct (parts_of_spec _ _ _ Hs Hb Hin) as (H1&H2&Huncut).
  assert (min ≤ part.1) as Hmin.
  { destruct (proj1 (column_boundaries_in _ _ _ _ _) H1) as [->|(r&_&Hr%range_boundaries_bound)]; lia. }
  split_and!; [done|lia|lia|]. intros s e z Hr Hz Hse.
  assert (∀ b, b ∈ range_boundaries min max (s, e) → uncut b part) as Hcut.
  { intros b Hbr. apply Huncut, column_boundaries_in. right. by exists (s, e). }
  unfold range_boundaries in Hcut. simpl in Hcut.
  rewrite (clip_range_in s e min max z) in Hcut by lia.
  pose proof (Hcut (Z.max s min) ltac:(left)) as Hlo. unfold uncut in Hlo.
  split; [lia|]. destruct (Z.min e max <? max) eqn:Hhi; bool_to_prop; [|lia].
  pose proof (Hcut (Z.min e max + 1) ltac:(right; left)) as Hu. unfold uncut in Hu. lia.
Qed.

Lemma scalar_partitions_cover matrix query min max z :
  i128_min ≤ min → min ≤ z ≤ max →
  ∃ part, part ∈ scalar_partitions matrix query min max ∧ part.1 ≤ z ≤ part.2.
Proof.
  intros Hm Hz. rewrite scalar_partitions_eq by lia.
  destruct (column_boundaries_ok matrix query min max ltac:(lia)) as [Hs Hb].
  destruct (column_boundaries matrix query min max) as [|a l] eqn:Hl.
  { assert (min ∈ column_boundaries matrix query min max) as Hin by (apply column_boundaries_in; by left).
    rewrite Hl in Hin. by apply not_elem_of_nil in Hin. }
  apply parts_of_cover; [done|done|]. split; [|lia].
  assert (min ∈ a :: l) as Hin by (rewrite <-Hl; apply column_boundaries_in; by left).
  apply elem_of_cons in Hin as [->|Hin]; [lia|].
  apply StronglySorted_inv in Hs as [_ Ha]. rewrite Forall_forall in Ha. pose proof (Ha _ Hin). lia.
Qed.
End partitions.
