(* ===== verification/PatternSemantics.v ===== *)
(** * nia-pattern-analysis: values, typing and matching

    The meaning of the analysis: values of a type as its domain describes them,
    the values a pattern matches, and how the matrix operations act on the values
    a matrix covers. *)

From S2P Require Import Prelude RustStd PatternAnalysis PatternScalars.

(** ** Values and matching *)

(** A value: a known constructor, a scalar, or a value outside the known ones. *)
Inductive value (C : Type) : Type :=
  | VConstructor (id : C) (fields : list (value C))
  | VScalar (z : Z)
  | VOther.
Arguments VConstructor {C} id fields.
Arguments VScalar {C} z.
Arguments VOther {C}.

Section semantics.
Context {T C : Type} `{!EqDecision T} `{!EqDecision C}.
Context (domain : T → Domain T C).

(** [opaque] is the answer for opaque patterns: [false] for what a pattern is sure
    to match, [true] for what it may match. *)
Fixpoint matches (opaque : bool) (p : Pattern C) (v : value C) {struct p} : bool :=
  match p, v with
  | Wildcard, _ => true
  | PConstructor id ps, VConstructor id' vs =>
    bool_decide (id = id') &&
    (fix go (ps : list (Pattern C)) (vs : list (value C)) : bool :=
       match ps, vs with
       | [], [] => true
       | p :: ps, v :: vs => matches opaque p v && go ps vs
       | _, _ => false
       end) ps vs
  | ScalarRange s e, VScalar z => (s <=? z) && (z <=? e)
  | POpaque, _ => opaque
  | _, _ => false
  end.

Fixpoint matches_row (opaque : bool) (ps : list (Pattern C)) (vs : list (value C)) : bool :=
  match ps, vs with
  | [], [] => true
  | p :: ps, v :: vs => matches opaque p v && matches_row opaque ps vs
  | _, _ => false
  end.

Lemma matches_constructor o id ps id' vs :
  matches o (PConstructor id ps) (VConstructor id' vs) = bool_decide (id = id') && matches_row o ps vs.
Proof.
  simpl. f_equal. revert vs. induction ps as [|p ps IH]; intros [|v vs]; try done. simpl. by rewrite IH.
Qed.

Lemma matches_row_length o ps vs : matches_row o ps vs = true → length ps = length vs.
Proof.
  revert vs. induction ps as [|p ps IH]; intros [|v vs]; try done. simpl.
  intros [_ H]%andb_true_iff. f_equal. by apply IH.
Qed.

Lemma matches_row_app o ps vs1 vs2 :
  matches_row o ps (vs1 ++ vs2) =
    matches_row o (take (length vs1) ps) vs1 && matches_row o (drop (length vs1) ps) vs2.
Proof.
  revert ps. induction vs1 as [|v vs1 IH]; intros ps; simpl; [by destruct ps|].
  destruct ps as [|p ps]; [done|]. simpl. rewrite IH. by rewrite andb_assoc.
Qed.

Lemma matches_row_wildcards o ps vs :
  forallb is_wildcard ps = true → length ps = length vs → matches_row o ps vs = true.
Proof.
  revert vs. induction ps as [|p ps IH]; intros [|v vs]; try done. simpl.
  intros [Hp Hps]%andb_true_iff [= Hlen]. destruct p; try done. simpl. by apply IH.
Qed.

Lemma matches_row_replicate o n ps vs vs' :
  length vs = n → matches_row o (replicate n Wildcard ++ ps) (vs ++ vs') = matches_row o ps vs'.
Proof.
  intros <-. rewrite matches_row_app, take_app_le, drop_app_le by (by rewrite length_replicate).
  rewrite take_ge, drop_ge by (by rewrite length_replicate). rewrite matches_row_wildcards; [done| |].
  - apply forallb_forall. intros p Hp%list_elem_of_In%elem_of_replicate. by destruct Hp as [-> _].
  - by rewrite length_replicate.
Qed.

(** The values a matrix is sure to match. *)
Definition covered (matrix : list (list (Pattern C))) (vs : list (value C)) : bool :=
  existsb (λ row, matches_row false row vs) matrix.

Lemma covered_spec matrix vs :
  covered matrix vs = true ↔ ∃ row, row ∈ matrix ∧ matches_row false row vs = true.
Proof.
  unfold covered. rewrite existsb_exists. split; intros (row&Hr&Hm); exists row.
  - split; [by apply list_elem_of_In|done].
  - split; [by apply list_elem_of_In|done].
Qed.

(** ** Typing *)

Definition has_other (d : Domain T C) : bool :=
  match d with Open _ | DOpaque | Scalar _ _ false => true | _ => false end.

(** Values of a type in which no position has a type of [A]. *)
Inductive has_type (A : list T) : T → value C → Prop :=
  | ty_constructor ty id c fields :
      ty ∉ A → find_constructor (domain ty) id = Done c → has_types A (ctor_fields c) fields →
      has_type A ty (VConstructor id fields)
  | ty_scalar ty min max complete z :
      ty ∉ A → domain ty = Scalar min max complete → min ≤ z ≤ max → has_type A ty (VScalar z)
  | ty_other ty : ty ∉ A → has_other (domain ty) = true → has_type A ty VOther
with has_types (A : list T) : list T → list (value C) → Prop :=
  | tys_nil : has_types A [] []
  | tys_cons ty tys v vs : has_type A ty v → has_types A tys vs → has_types A (ty :: tys) (v :: vs).

Scheme has_type_mut := Induction for has_type Sort Prop
  with has_types_mut := Induction for has_types Sort Prop.

Lemma has_types_length A tys vs : has_types A tys vs → length tys = length vs.
Proof. induction 1; simpl; congruence. Qed.

Lemma has_types_app A tys1 tys2 vs :
  has_types A (tys1 ++ tys2) vs ↔
  ∃ vs1 vs2, vs = vs1 ++ vs2 ∧ has_types A tys1 vs1 ∧ has_types A tys2 vs2.
Proof.
  split.
  - revert vs. induction tys1 as [|ty tys1 IH]; intros vs H; simpl in H.
    { exists [], vs. split_and!; [done|constructor|done]. }
    inversion H as [|? ? v vs' Hv Hvs]; subst.
    destruct (IH vs' Hvs) as (vs1&vs2&->&H1&H2). exists (v :: vs1), vs2.
    split_and!; [done|by constructor|done].
  - intros (vs1&vs2&->&H1&H2). induction H1; [done|]. simpl. by constructor.
Qed.

(** ** The matrix operations on covered values *)

Lemma specialize_constructor_covered matrix id n spec fs tl :
  specialize_constructor matrix id n = Done spec → length fs = n →
  covered spec (fs ++ tl) = covered matrix (VConstructor id fs :: tl).
Proof.
  intros HS Hlen. revert spec HS. induction matrix as [|row matrix IH]; intros spec; [by intros [= <-]|].
  unfold covered. destruct row as [|[|id' fields|s e|] tail]; cbn [specialize_constructor existsb matches_row].
  - intros HS. by apply IH.
  - destruct (specialize_constructor matrix id n) as [S'| |] eqn:HS'; [|done..]. intros [= <-].
    cbn [existsb]. rewrite matches_row_replicate by done. f_equal. by apply IH.
  - rewrite matches_constructor. destruct (decide (id' = id)) as [->|Hne].
    + unfold check_arity. destruct (length fields =? n)%nat eqn:Har; [|done]. apply Nat.eqb_eq in Har.
      cbn [mbind Outcome_bind].
      destruct (specialize_constructor matrix id n) as [S'| |] eqn:HS'; [|done..]. intros [= <-].
      cbn [existsb]. f_equal; [|by apply IH]. rewrite bool_decide_true by done.
      rewrite matches_row_app, Hlen, <-Har, take_app_length, drop_app_length. by rewrite andb_true_l.
    + intros HS. rewrite bool_decide_false by done. by apply IH.
  - intros HS. by apply IH.
  - intros HS. by apply IH.
Qed.

Lemma default_covered matrix tl : covered (default_matrix matrix) tl = covered matrix (VOther :: tl).
Proof.
  unfold default_matrix, covered. induction matrix as [|row matrix IH]; [done|].
  destruct row as [|[|id fields|s e|] tail]; cbn; [apply IH|f_equal; apply IH|apply IH..].
Qed.

Lemma default_covered_any matrix v tl :
  covered (default_matrix matrix) tl = true → covered matrix (v :: tl) = true.
Proof.
  unfold default_matrix, covered. induction matrix as [|row matrix IH]; [done|].
  destruct row as [|p tail]; cbn; [done|]. destruct p; cbn; try exact IH; try (intros H; apply orb_true_iff; right; by apply IH).
  rewrite !orb_true_iff. tauto.
Qed.

Lemma specialize_scalar_covered matrix s e z tl :
  s ≤ z ≤ e →
  (∀ rs re, (rs, re) ∈ omap row_range matrix → rs ≤ z ≤ re → rs ≤ s ∧ e ≤ re) →
  covered (specialize_scalar matrix s e) tl = covered matrix (VScalar z :: tl).
Proof.
  intros Hz. unfold specialize_scalar, covered. induction matrix as [|row matrix IH]; intros Hr; [done|].
  assert (∀ rs re, (rs, re) ∈ omap row_range matrix → rs ≤ z ≤ re → rs ≤ s ∧ e ≤ re) as Hr'.
  { intros rs re Hin. apply Hr. simpl. destruct (row_range row); [by right|done]. }
  specialize (IH Hr'). destruct row as [|[|id fields|rs re|] tail]; cbn;
    [apply IH|f_equal; apply IH|apply IH| |apply IH].
  destruct ((rs <=? s) && (e <=? re)) eqn:Hin.
  - cbn. rewrite <-IH. bool_to_prop. destruct ((rs <=? z) && (z <=? re)) eqn:Hz'; [done|].
    apply andb_false_iff in Hz'. lia.
  - destruct ((rs <=? z) && (z <=? re)) eqn:Hz'; [|exact IH]. bool_to_prop.
    destruct (Hr rs re) as [H1 H2]; [simpl; by left|lia|].
    apply andb_false_iff in Hin. lia.
Qed.

(** ** Widths *)

Definition width_ok (n : nat) (matrix : list (list (Pattern C))) : Prop :=
  Forall (λ row, length row = n) matrix.

Lemma specialize_constructor_width matrix id n spec m :
  specialize_constructor matrix id n = Done spec → width_ok (S m) matrix → width_ok (n + m) spec.
Proof.
  intros HS Hw. revert spec HS. induction Hw as [|row matrix Hrow Hw IH]; intros spec.
  { intros [= <-]. constructor. }
  destruct row as [|[|id' fields|s e|] tail]; cbn [specialize_constructor]; [done|..]; injection Hrow as Hrow.
  - destruct (specialize_constructor matrix id n) as [S'| |] eqn:HS'; [|done..]. intros [= <-].
    constructor; [|by apply IH]. rewrite length_app, length_replicate. lia.
  - destruct (decide (id' = id)) as [->|Hne]; [|apply IH].
    unfold check_arity. destruct (length fields =? n)%nat eqn:Har; [|done]. apply Nat.eqb_eq in Har.
    cbn [mbind Outcome_bind].
    destruct (specialize_constructor matrix id n) as [S'| |] eqn:HS'; [|done..]. intros [= <-].
    constructor; [|by apply IH]. rewrite length_app. lia.
  - apply IH.
  - apply IH.
Qed.

Lemma default_width matrix m : width_ok (S m) matrix → width_ok m (default_matrix matrix).
Proof.
  unfold default_matrix. induction 1 as [|row matrix Hrow Hw IH]; [constructor|].
  destruct row as [|[| | |] tail]; cbn; try done; try exact IH. constructor; [simpl in Hrow; lia|exact IH].
Qed.

Lemma specialize_scalar_width matrix s e m :
  width_ok (S m) matrix → width_ok m (specialize_scalar matrix s e).
Proof.
  unfold specialize_scalar. induction 1 as [|row matrix Hrow Hw IH]; [constructor|].
  destruct row as [|[| | |] tail]; cbn; try done; try exact IH.
  - constructor; [simpl in Hrow; lia|exact IH].
  - destruct (_ && _); [|exact IH]. constructor; [simpl in Hrow; lia|exact IH].
Qed.
End semantics.
