(* ===== verification/PatternValidate.v ===== *)
(** * nia-pattern-analysis: search loops and validation

    Inversion lemmas for the loops over constructors and scalar parts, and the
    meaning of the validation of a query against a matrix without rows: it
    accepts exactly the queries that match a value. *)

From S2P Require Import Prelude RustStd PatternAnalysis PatternScalars PatternSemantics.

(** ** Inversion of the search loops *)

Section loops.
Context {T C : Type} `{!EqDecision T} `{!EqDecision C}.
Implicit Types (matrix : list (list (Pattern C))) (q tail : list (Pattern C)) (cs : list (Constructor T C)).

Lemma mbind_Done {A B} (f : A → Outcome B) (o : Outcome A) b :
  (o ≫= f) = Done b → ∃ a, o = Done a ∧ f a = Done b.
Proof. destruct o; try done. intros H. by exists a. Qed.

Lemma map_witness_None {A} (f : A → A) o : map_witness f o = Done None → o = Done None.
Proof. by destruct o as [[?|]| |]. Qed.

Lemma map_witness_Some {A} (f : A → A) o w :
  map_witness f o = Done (Some w) → ∃ w', o = Done (Some w') ∧ w = f w'.
Proof. destruct o as [[a|]| |]; try done. intros [= <-]. by exists a. Qed.

Lemma check_arity_Done n m u : check_arity n m = Done u → n = m.
Proof. unfold check_arity. destruct (n =? m)%nat eqn:H; [|done]. by apply Nat.eqb_eq in H. Qed.

Lemma find_constructor_in (d : Domain T C) id c :
  find_constructor d id = Done c →
  (∃ cs, (d = Finite cs ∨ d = Open cs) ∧ c ∈ cs) ∧ ctor_id c = id.
Proof.
  destruct d as [cs|cs| |]; try done; simpl;
    (destruct (list_find _ cs) as [[i c']|] eqn:Hf; [|done]); intros [= <-];
    apply list_find_Some in Hf as (Hi&Hid&_); (split; [|done]); exists cs;
    (split; [tauto|]); by eapply list_elem_of_lookup_2.
Qed.

(** With distinct constructors the search finds each of them. *)
Lemma find_constructor_self (d : Domain T C) cs c :
  d = Finite cs ∨ d = Open cs → NoDup (ctor_id <$> cs) → c ∈ cs → find_constructor d (ctor_id c) = Done c.
Proof.
  intros Hd Hnd Hin. assert (∃ i, list_find (λ c', ctor_id c' = ctor_id c) cs = Some (i, c)) as [i Hf].
  { apply list_elem_of_lookup in Hin as [i Hi]. exists i. apply list_find_Some.
    split_and!; [done|done|]. intros j c' Hj Hji Heq.
    assert (i = j); [|lia]. eapply NoDup_lookup; [exact Hnd| |].
    - by rewrite list_lookup_fmap, Hi.
    - by rewrite list_lookup_fmap, Hj, <-Heq. }
  destruct Hd as [-> | ->]; simpl; by rewrite Hf.
Qed.

Lemma first_constructor_None useful matrix tail tail_types cs c :
  first_constructor useful matrix tail tail_types cs = Done None → c ∈ cs →
  ∃ spec, specialize_constructor matrix (ctor_id c) (length (ctor_fields c)) = Done spec ∧
    useful spec (replicate (length (ctor_fields c)) Wildcard ++ tail) (ctor_fields c ++ tail_types) = Done None.
Proof.
  induction cs as [|c' cs IH]; intros H Hin; [by apply not_elem_of_nil in Hin|]. cbn in H.
  apply mbind_Done in H as (spec&Hs&H). apply mbind_Done in H as (r&Hr&H). destruct r; [done|].
  apply elem_of_cons in Hin as [->|Hin]; [by exists spec|by apply IH].
Qed.

Lemma first_constructor_Some useful matrix tail tail_types cs w :
  first_constructor useful matrix tail tail_types cs = Done (Some w) →
  ∃ c spec w', c ∈ cs ∧ specialize_constructor matrix (ctor_id c) (length (ctor_fields c)) = Done spec ∧
    useful spec (replicate (length (ctor_fields c)) Wildcard ++ tail) (ctor_fields c ++ tail_types)
      = Done (Some w') ∧ w = rebuild (ctor_id c) (length (ctor_fields c)) w'.
Proof.
  induction cs as [|c' cs IH]; intros H; [done|]. cbn in H.
  apply mbind_Done in H as (spec&Hs&H). apply mbind_Done in H as (r&Hr&H). destruct r as [w'|].
  - injection H as <-. exists c', spec, w'. split_and!; [left|done..].
  - destruct (IH H) as (c&sp&w'&Hin&?). exists c, sp, w'. split; [by right|done].
Qed.

Definition in_bounds (bounds : option (Z * Z)) (part : Z * Z) : Prop :=
  match bounds with Some (lo, hi) => lo ≤ part.1 ∧ part.2 ≤ hi | None => True end.

Lemma in_bounds_skip bounds s e :
  (if match bounds with Some (lo, hi) => (s <? lo) || (hi <? e) | None => false end then false else true) = true
  ↔ in_bounds bounds (s, e).
Proof.
  unfold in_bounds. destruct bounds as [[lo hi]|]; [|done]. simpl.
  destruct ((s <? lo) || (hi <? e)) eqn:Hb.
  - apply orb_true_iff in Hb. split; [done|]. intros. bool_to_prop. lia.
  - apply orb_false_iff in Hb as [H1 H2]. bool_to_prop. split; [lia|done].
Qed.

Lemma first_part_None (useful : _ → _ → list T → _) matrix tail tail_types bounds parts part :
  first_part useful matrix tail tail_types bounds parts = Done None → part ∈ parts → in_bounds bounds part →
  useful (specialize_scalar matrix part.1 part.2) tail tail_types = Done None.
Proof.
  induction parts as [|[s e] parts IH]; intros H Hin Hb; [by apply not_elem_of_nil in Hin|].
  apply elem_of_cons in Hin as [->|Hin]; cbn in H.
  - apply in_bounds_skip in Hb. destruct (match bounds with Some _ => _ | None => _ end); [done|].
    apply mbind_Done in H as (r&Hr&H). by destruct r.
  - apply IH; [|done..]. destruct (match bounds with Some _ => _ | None => _ end); [done|].
    apply mbind_Done in H as (r&Hr&H). by destruct r.
Qed.

Lemma first_part_Some (useful : _ → _ → list T → _) matrix tail tail_types bounds parts w :
  first_part useful matrix tail tail_types bounds parts = Done (Some w) →
  ∃ part w', part ∈ parts ∧ in_bounds bounds part ∧
    useful (specialize_scalar matrix part.1 part.2) tail tail_types = Done (Some w') ∧
    w = ScalarRange part.1 part.1 :: w'.
Proof.
  induction parts as [|[s e] parts IH]; intros H; [done|]. cbn in H.
  pose proof (in_bounds_skip bounds s e) as Hb.
  assert (first_part useful matrix tail tail_types bounds parts = Done (Some w) →
    ∃ part w', part ∈ (s, e) :: parts ∧ in_bounds bounds part ∧
      useful (specialize_scalar matrix part.1 part.2) tail tail_types = Done (Some w') ∧
      w = ScalarRange part.1 part.1 :: w') as Hrest.
  { intros H'. destruct (IH H') as (part&w'&Hin&?). exists part, w'. split; [by right|done]. }
  destruct (match bounds with Some _ => _ | None => _ end); [by apply Hrest|].
  apply mbind_Done in H as (r&Hr&H). destruct r as [w'|]; [|by apply Hrest].
  injection H as <-. exists (s, e), w'. split_and!; [left|by apply Hb|done..].
Qed.

Lemma any_constructor_true validate cs c b :
  any_constructor validate cs = Done b → c ∈ cs →
  (∀ b', validate (replicate (length (ctor_fields c)) Wildcard) (ctor_fields c) = Done b' → b' = true) →
  b = true.
Proof.
  intros H Hin Hc. induction cs as [|c' cs IH]; [by apply not_elem_of_nil in Hin|]. cbn in H.
  apply mbind_Done in H as (ok&Hok&H). destruct ok; [by injection H|].
  apply elem_of_cons in Hin as [->|Hin]; [by apply Hc in Hok|by apply IH].
Qed.

Lemma any_constructor_inv validate cs :
  any_constructor validate cs = Done true →
  ∃ c, c ∈ cs ∧ validate (replicate (length (ctor_fields c)) Wildcard) (ctor_fields c) = Done true.
Proof.
  induction cs as [|c' cs IH]; intros H; [done|]. cbn in H.
  apply mbind_Done in H as (ok&Hok&H). destruct ok.
  - exists c'. split; [left|done].
  - destruct (IH H) as (c&Hin&?). exists c. split; [by right|done].
Qed.
End loops.

(** ** Validation of a query against no rows *)

(** What the analysis relies on of a domain: its constructors are distinct, and a
    scalar domain is one of [i128] values, not empty when it is not complete. *)
Definition domain_ok {T C} (d : Domain T C) : Prop :=
  match d with
  | Finite cs | Open cs => NoDup (ctor_id <$> cs)
  | Scalar min max complete => i128_min ≤ min ∧ (complete = false → min ≤ max)
  | DOpaque => True
  end.

(** The promise of a caller of the analysis about its [domain] callback. *)
Class LawfulDomain {T C} (domain : T → Domain T C) : Prop := lawful ty : domain_ok (domain ty).

Fixpoint opaque_free {C} (p : Pattern C) : bool :=
  match p with
  | POpaque => false
  | PConstructor _ ps => forallb opaque_free ps
  | _ => true
  end.

Section soundness.
Context {T C : Type} `{!EqDecision T} `{!EqDecision C}.
Context (domain : T → Domain T C) (Hok : LawfulDomain domain).
Implicit Types (matrix : list (list (Pattern C))) (q tail : list (Pattern C)) (ty : T) (vs : list (value C)).

(** Inside a value of a type there is one that does not contain the type again. *)
Lemma innermost_value A ty cs v :
  domain ty = Finite cs → has_type domain A ty v →
  ∃ c fs, c ∈ cs ∧ has_types domain (A ++ [ty]) (ctor_fields c) fs.
Proof.
  intros Hd Hv.
  set (found := ∃ c fs, c ∈ cs ∧ has_types domain (A ++ [ty]) (ctor_fields c) fs).
  assert (∀ t', t' ∉ A → t' ≠ ty → t' ∉ A ++ [ty]) as Hnot.
  { intros t' H1 H2 [|H%list_elem_of_singleton]%elem_of_app; done. }
  assert (has_type domain (A ++ [ty]) ty v ∨ found) as [H|H]; [|exfalso|done].
  - apply (has_type_mut domain A
      (λ t' v _, has_type domain (A ++ [ty]) t' v ∨ found)
      (λ ts vs _, has_types domain (A ++ [ty]) ts vs ∨ found)).
    + intros t' id c fs HA Hc _ [IH|IH]; [|by right]. destruct (decide (t' = ty)) as [->|Hne].
      * right. destruct (find_constructor_in _ _ _ Hc) as [(cs'&Hcs&Hin) _].
        exists c, fs. split; [|done]. destruct Hcs as [Hcs|Hcs]; rewrite Hd in Hcs; by simplify_eq.
      * left. eapply ty_constructor; [by apply Hnot|done..].
    + intros t' min max cm z HA Hsc Hz. left. eapply ty_scalar; [apply Hnot; [done|congruence]|done..].
    + intros t' HA Ho. left. apply ty_other; [|done]. apply Hnot; [done|].
      intros ->. by rewrite Hd in Ho.
    + left. constructor.
    + intros t' ts v' vs _ [IH1|IH1] _ [IH2|IH2]; [left; by constructor|right..]; done.
    + done.
  - inversion H; subst; match goal with Hn : ty ∉ _ |- _ => apply Hn, elem_of_app; right; by left end.
Qed.

Lemma has_type_not_active A ty v : has_type domain A ty v → ty ∉ A.
Proof. by destruct 1. Qed.

(** A query that may match a value is not rejected. *)
Lemma validate_accepts fuel q ts A vs b :
  has_types domain A ts vs → matches_row true q vs = true →
  validate_empty_query_inner domain fuel q ts A = Done b → b = true.
Proof.
  revert q ts A vs b. induction fuel as [|fuel IH]; intros q ts A vs b Hty Hm Hval; [done|].
  cbn [validate_empty_query_inner] in Hval. destruct q as [|p q]; [by injection Hval|].
  destruct Hty as [|ty ts v vs Hv Hvs]; [done|]. cbn [matches_row] in Hm.
  apply andb_true_iff in Hm as [Hp Hm]. apply mbind_Done in Hval as (ok&Hhd&Hval).
  assert (ok = true) as ->; [clear Hval|by apply (IH _ _ _ _ _ Hvs Hm)].
  assert (∀ b', (if bool_decide (ty ∈ A) then Done false else validate_wildcard_head
      (λ q ts, validate_empty_query_inner domain fuel q ts (A ++ [ty])) (domain ty)) = Done b' → b' = true)
    as Hwild.
  { intros b'. rewrite bool_decide_false by (by eapply has_type_not_active).
    destruct (domain ty) as [cs|cs|min max cm|] eqn:Hd; cbn.
    - intros Hany. destruct (innermost_value _ _ _ _ Hd Hv) as (c&fs&Hc&Hfs).
      eapply any_constructor_true; [done|exact Hc|]. intros b''. eapply IH; [exact Hfs|].
      apply matches_row_wildcards; [|by rewrite length_replicate; eapply has_types_length].
      apply forallb_forall. by intros ? [-> _]%list_elem_of_In%elem_of_replicate.
    - by intros [= <-].
    - intros [= <-]. inversion Hv as [? ? c ? ? Hf|? ? ? ? ? ? Hs|? ? Ho]; subst.
      + by rewrite Hd in Hf.
      + rewrite Hd in Hs. simplify_eq. lia.
      + pose proof (Hok ty) as Hdom. rewrite Hd in Ho, Hdom. destruct cm; [done|].
        destruct Hdom as [_ Hdom]. apply Z.leb_le, Hdom. done.
    - by intros [= <-]. }
  destruct p as [|id ps|s e|].
  - by apply Hwild.
  - apply mbind_Done in Hhd as (c&Hc&Hhd). apply mbind_Done in Hhd as (u&_&Hhd).
    destruct Hv as [ty id' c' fs _ Hc' Hfs| |]; try done. rewrite matches_constructor in Hp.
    apply andb_true_iff in Hp as [Hid%bool_decide_eq_true Hp]. subst id'.
    rewrite Hc in Hc'. injection Hc' as <-. by apply (IH _ _ _ _ _ Hfs Hp).
  - destruct Hv as [|ty min max cm z _ Hd Hz|]; try done. rewrite Hd in Hhd. cbn in Hp, Hhd.
    bool_to_prop. rewrite (clip_range_in s e min max z) in Hhd by lia. by injection Hhd.
  - by apply Hwild.
Qed.

Lemma replicate_wildcard_free n : forallb opaque_free (replicate n (Wildcard : Pattern C)) = true.
Proof. induction n; simpl; done. Qed.

(** An accepted query matches a value. *)
Lemma validate_inhabited fuel q ts A :
  length q = length ts → forallb opaque_free q = true →
  validate_empty_query_inner domain fuel q ts A = Done true →
  ∃ vs, has_types domain [] ts vs ∧ matches_row false q vs = true.
Proof.
  revert q ts A. induction fuel as [|fuel IH]; intros q ts A Hlen Hfree Hval; [done|].
  destruct q as [|p q], ts as [|ty ts]; try done.
  { exists []. split; [constructor|done]. }
  injection Hlen as Hlen. cbn in Hfree. apply andb_true_iff in Hfree as [Hp Hq].
  cbn [validate_empty_query_inner] in Hval. apply mbind_Done in Hval as (ok&Hhd&Hval).
  destruct ok; [|done]. destruct (IH q ts A Hlen Hq Hval) as (vs&Hvs&Hm).
  assert (∃ v, has_type domain [] ty v ∧ matches false p v = true) as (v&Hv&Hpv).
  2:{ exists (v :: vs). split; [by constructor|]. cbn [matches_row]. by rewrite Hpv. }
  pose proof (Hok ty) as Hdom. destruct p as [|id ps|s e|]; [|..|done].
  - destruct (bool_decide (ty ∈ A)); [done|]. destruct (domain ty) as [cs|cs|min max cm|] eqn:Hd; cbn in Hhd.
    + apply any_constructor_inv in Hhd as (c&Hc&Hhd).
      apply IH in Hhd as (fs&Hfs&_); [|by rewrite length_replicate|apply replicate_wildcard_free].
      exists (VConstructor (ctor_id c) fs). split; [|done].
      eapply ty_constructor; [by apply not_elem_of_nil| |exact Hfs].
      rewrite Hd. eapply find_constructor_self; [by left|done..].
    + exists VOther. split; [|done]. apply ty_other; [by apply not_elem_of_nil|by rewrite Hd].
    + exists (VScalar min). split; [|done]. injection Hhd as Hhd. bool_to_prop.
      eapply ty_scalar; [by apply not_elem_of_nil|exact Hd|lia].
    + exists VOther. split; [|done]. apply ty_other; [by apply not_elem_of_nil|by rewrite Hd].
  - apply mbind_Done in Hhd as (c&Hc&Hhd). apply mbind_Done in Hhd as (u&Har&Hhd).
    apply check_arity_Done in Har. apply IH in Hhd as (fs&Hfs&Hmf); [|done..].
    exists (VConstructor id fs). split; [by eapply ty_constructor; [apply not_elem_of_nil|..]|].
    by rewrite matches_constructor, bool_decide_true.
  - destruct (domain ty) as [| |min max cm|] eqn:Hd; try done. injection Hhd as Hhd.
    destruct (clip_range s e min max) as [[lo hi]|] eqn:Hc; [|done].
    apply clip_range_Some in Hc as (->&->&?). exists (VScalar (Z.max s min)). cbn. split.
    + eapply ty_scalar; [by apply not_elem_of_nil|exact Hd|lia].
    + apply andb_true_iff. split; apply Z.leb_le; lia.
Qed.
End soundness.
