(* ===== verification/PatternProps.v ===== *)
(** * nia-pattern-analysis: soundness of the answers

    By induction on the fuel: an answer without a witness means that the rows
    match every value of the query, and a witness describes a value that no row
    matches. *)

From S2P Require Import Prelude RustStd PatternAnalysis PatternScalars PatternSemantics PatternValidate.

Section correctness.
Context {T C : Type} `{!EqDecision T} `{!EqDecision C}.
Context (domain : T → Domain T C) (Hok : LawfulDomain domain).
Implicit Types (matrix : list (list (Pattern C))) (q tail : list (Pattern C)) (ty : T) (vs : list (value C)).

(** ** No witness: every value of the query is covered *)

Definition none_covers (useful : list (list (Pattern C)) → list (Pattern C) → list T → _) : Prop :=
  ∀ matrix q ts vs,
    width_ok (length ts) matrix → useful matrix q ts = Done (None : option (list (Pattern C))) →
    has_types domain [] ts vs → matches_row true q vs = true → covered matrix vs = true.

Section none.
Context (useful : list (list (Pattern C)) → list (Pattern C) → list T → Outcome (option (list (Pattern C)))).
Context (IH : none_covers useful).

Lemma constructor_none matrix c spec qs tail tys fs vs :
  width_ok (S (length tys)) matrix →
  specialize_constructor matrix (ctor_id c) (length (ctor_fields c)) = Done spec →
  useful spec (qs ++ tail) (ctor_fields c ++ tys) = Done None →
  has_types domain [] (ctor_fields c) fs → has_types domain [] tys vs →
  matches_row true qs fs = true → matches_row true tail vs = true →
  covered matrix (VConstructor (ctor_id c) fs :: vs) = true.
Proof.
  intros Hw Hs Hu Hfs Hvs Hqs Htail. pose proof (has_types_length _ _ _ _ Hfs) as Hlen.
  erewrite <-specialize_constructor_covered; [|exact Hs|done].
  eapply IH; [|exact Hu|apply has_types_app; by exists fs, vs|].
  - rewrite length_app. by eapply specialize_constructor_width.
  - rewrite matches_row_app. pose proof (matches_row_length _ _ _ Hqs) as <-.
    by rewrite take_app_length, drop_app_length, Hqs.
Qed.

Lemma wildcards_match o (n : nat) (fs : list (value C)) :
  length fs = n → matches_row o (replicate n Wildcard) fs = true.
Proof.
  intros <-. apply matches_row_wildcards; [|by rewrite length_replicate].
  apply forallb_forall. by intros ? [-> _]%list_elem_of_In%elem_of_replicate.
Qed.

Lemma first_constructor_covers matrix tail tys cs c fs vs :
  width_ok (S (length tys)) matrix →
  first_constructor useful matrix tail tys cs = Done None → c ∈ cs →
  has_types domain [] (ctor_fields c) fs → has_types domain [] tys vs → matches_row true tail vs = true →
  covered matrix (VConstructor (ctor_id c) fs :: vs) = true.
Proof.
  intros Hw Hf Hc Hfs Hvs Htail.
  destruct (first_constructor_None _ _ _ _ _ _ Hf Hc) as (spec&Hs&Hu).
  eapply constructor_none; [exact Hw|exact Hs|exact Hu|done|done| |done].
  apply wildcards_match. symmetry. by eapply has_types_length.
Qed.

Lemma first_part_covers matrix tail ty tys min max cm query bounds z vs :
  width_ok (S (length tys)) matrix → domain ty = Scalar min max cm → min ≤ z ≤ max →
  first_part useful matrix tail tys bounds (scalar_partitions matrix query min max) = Done None →
  query = bounds → match bounds with Some (lo, hi) => lo ≤ z ≤ hi | None => True end →
  has_types domain [] tys vs → matches_row true tail vs = true →
  covered matrix (VScalar z :: vs) = true.
Proof.
  intros Hw Hd Hz Hf -> Hb Hvs Htail. pose proof (Hok ty) as Hdom. rewrite Hd in Hdom. destruct Hdom as [Hmin _].
  destruct (scalar_partitions_cover matrix bounds min max z Hmin Hz) as (part&Hin&Hp).
  destruct (scalar_partitions_part matrix bounds min max part ltac:(lia) Hin) as (H1&H2&Hr).
  erewrite <-(specialize_scalar_covered matrix part.1 part.2 z); [|lia|].
  - eapply IH; [by apply specialize_scalar_width| |done..].
    eapply first_part_None; [exact Hf|done|]. unfold in_bounds. destruct bounds as [[lo hi]|]; [|done].
    apply (Hr lo hi z); [|lia..]. unfold column_ranges. apply elem_of_app. right. by left.
  - intros rs re Hrs Hzr. apply (Hr rs re z); [|lia..]. unfold column_ranges. apply elem_of_app. by left.
Qed.

Lemma useful_default_covers matrix tail tys head v vs :
  width_ok (S (length tys)) matrix →
  useful_default useful matrix tail tys head = Done None →
  has_types domain [] tys vs → matches_row true tail vs = true → covered matrix (v :: vs) = true.
Proof.
  intros Hw Hu%map_witness_None Hvs Htail. apply default_covered_any.
  eapply IH; [by apply default_width|exact Hu|done..].
Qed.

Lemma useful_wildcard_covers matrix tail ty tys v vs :
  width_ok (S (length tys)) matrix →
  useful_wildcard useful matrix tail tys (domain ty) = Done None →
  has_type domain [] ty v → has_types domain [] tys vs → matches_row true tail vs = true →
  covered matrix (v :: vs) = true.
Proof.
  intros Hw Hu Hv Hvs Htail. unfold useful_wildcard in Hu.
  destruct (domain ty) as [cs|cs|min max cm|] eqn:Hd; [| | |by eapply useful_default_covers].
  - inversion Hv as [? id c fs _ Hc Hfs|? ? ? ? ? ? Hs|? _ Ho]; subst; rewrite Hd in *; try done.
    apply find_constructor_in in Hc as [(cs'&Hcs&Hin) <-].
    destruct Hcs as [[= <-]|[=]]. by eapply first_constructor_covers.
  - apply mbind_Done in Hu as (r&Hr&Hu). destruct r; [done|].
    inversion Hv as [? id c fs _ Hc Hfs|? ? ? ? ? ? Hs|? _ Ho]; subst; rewrite Hd in *; try done.
    + apply find_constructor_in in Hc as [(cs'&Hcs&Hin) <-].
      destruct Hcs as [[=]|[= <-]]. by eapply first_constructor_covers.
    + by eapply useful_default_covers.
  - apply mbind_Done in Hu as (r&Hr&Hu). destruct r; [done|].
    inversion Hv as [? id c fs _ Hc Hfs|? ? ? ? z ? Hs Hz|? _ Ho]; subst; try (rewrite Hd in *; done).
    + rewrite Hd in Hs. simplify_eq. by eapply first_part_covers.
    + rewrite Hd in Ho. destruct cm; [done|]. by eapply useful_default_covers.
Qed.
End none.

Lemma useful_inner_none_covers fuel : none_covers (useful_inner domain fuel).
Proof.
  induction fuel as [|fuel IH]; intros matrix q ts vs Hw Hu Hty Hm; [done|]. cbn [useful_inner] in Hu.
  destruct matrix as [|row matrix].
  { apply mbind_Done in Hu as (ok&Hval&Hu). destruct ok; [done|].
    by pose proof (validate_accepts domain Hok _ _ _ _ _ _ Hty Hm Hval). }
  destruct Hty as [|ty tys v vs Hv Hvs].
  { apply Forall_cons in Hw as [Hrow _]. apply covered_spec. exists row. split; [left|]. by destruct row. }
  destruct q as [|p q]; [done|]. cbn [matches_row] in Hm. apply andb_true_iff in Hm as [Hp Hm].
  destruct (existsb _ _) eqn:Hwild.
  { apply existsb_exists in Hwild as (r&Hr%list_elem_of_In&Hwild). apply covered_spec. exists r. split; [done|].
    apply matches_row_wildcards; [done|]. rewrite (proj1 (Forall_forall _ _) Hw _ Hr).
    cbn. f_equal. by eapply has_types_length. }
  destruct p as [|id ps|s e|].
  - by eapply useful_wildcard_covers.
  - apply mbind_Done in Hu as (c&Hc&Hu). apply mbind_Done in Hu as (u&_&Hu).
    apply mbind_Done in Hu as (spec&Hs&Hu). apply map_witness_None in Hu.
    destruct Hv as [ty id' c' fs _ Hc' Hfs| |]; try done. rewrite matches_constructor in Hp.
    apply andb_true_iff in Hp as [Hid%bool_decide_eq_true Hp]. subst id'.
    rewrite Hc in Hc'. injection Hc' as <-. apply find_constructor_in in Hc as [_ <-].
    by eapply constructor_none.
  - destruct Hv as [|ty min max cm z _ Hd Hz|]; try done. rewrite Hd in Hu. cbn in Hp. bool_to_prop.
    rewrite (clip_range_in s e min max z) in Hu by lia.
    eapply first_part_covers; [exact IH|done|exact Hd|done|exact Hu|done| |done..]. simpl. lia.
  - by eapply useful_default_covers.
Qed.

(** ** A witness describes an uncovered value *)

Definition uncovered matrix q ts (w : list (Pattern C)) : Prop :=
  ∃ vs, has_types domain [] ts vs ∧ matches_row false q vs = true ∧
    matches_row false w vs = true ∧ covered matrix vs = false.

Definition some_uncovered (useful : list (list (Pattern C)) → list (Pattern C) → list T → _) : Prop :=
  ∀ matrix q ts w,
    width_ok (length ts) matrix → length q = length ts → forallb opaque_free q = true →
    useful matrix q ts = Done (Some w) → uncovered matrix q ts w.

Lemma rebuild_matches id n w fs vs :
  length fs = n → matches_row false (rebuild id n w) (VConstructor id fs :: vs) = matches_row false w (fs ++ vs).
Proof.
  intros <-. unfold rebuild. cbn [matches_row].
  by rewrite matches_constructor, bool_decide_true, (matches_row_app _ w).
Qed.

Lemma find_constructor_typed ty id c fs :
  find_constructor (domain ty) id = Done c → has_types domain [] (ctor_fields c) fs →
  has_type domain [] ty (VConstructor id fs).
Proof. intros Hc Hfs. eapply ty_constructor; [apply not_elem_of_nil|done..]. Qed.

Section some.
Context (useful : list (list (Pattern C)) → list (Pattern C) → list T → Outcome (option (list (Pattern C)))).
Context (IH : some_uncovered useful).

Lemma constructor_some matrix c spec ps tail ty tys w :
  width_ok (S (length tys)) matrix → find_constructor (domain ty) (ctor_id c) = Done c →
  specialize_constructor matrix (ctor_id c) (length (ctor_fields c)) = Done spec →
  length ps = length (ctor_fields c) → length tail = length tys →
  forallb opaque_free ps = true → forallb opaque_free tail = true →
  useful spec (ps ++ tail) (ctor_fields c ++ tys) = Done (Some w) →
  ∃ fs vs, has_type domain [] ty (VConstructor (ctor_id c) fs) ∧ has_types domain [] tys vs ∧
    matches_row false ps fs = true ∧ matches_row false tail vs = true ∧
    matches_row false (rebuild (ctor_id c) (length (ctor_fields c)) w) (VConstructor (ctor_id c) fs :: vs) = true ∧
    covered matrix (VConstructor (ctor_id c) fs :: vs) = false.
Proof.
  intros Hw Hc Hs Hps Htail Hfps Hftail Hu.
  destruct (IH spec (ps ++ tail) (ctor_fields c ++ tys) w) as (vs'&Hty&Hq&Hwm&Hcov); [| | |done|].
  { rewrite length_app. by eapply specialize_constructor_width. }
  { rewrite !length_app. lia. }
  { by rewrite forallb_app, Hfps. }
  apply has_types_app in Hty as (fs&vs&->&Hfs&Hvs). pose proof (has_types_length _ _ _ _ Hfs) as Hlen.
  exists fs, vs. rewrite matches_row_app, <-Hlen, <-Hps, take_app_length, drop_app_length in Hq.
  apply andb_true_iff in Hq as [Hq1 Hq2].
  split_and!; [by eapply find_constructor_typed|done..| |].
  - by rewrite rebuild_matches.
  - by erewrite <-specialize_constructor_covered.
Qed.

Lemma first_constructor_uncovered matrix tail ty tys cs w :
  width_ok (S (length tys)) matrix → domain ty = Finite cs ∨ domain ty = Open cs →
  length tail = length tys → forallb opaque_free tail = true →
  first_constructor useful matrix tail tys cs = Done (Some w) →
  uncovered matrix (Wildcard :: tail) (ty :: tys) w.
Proof.
  intros Hw Hd Hlen Hfree Hf. apply first_constructor_Some in Hf as (c&spec&w'&Hin&Hs&Hu&->).
  assert (NoDup (ctor_id <$> cs)) as Hnd.
  { pose proof (Hok ty) as H. by destruct Hd as [Hd|Hd]; rewrite Hd in H. }
  destruct (constructor_some matrix c spec (replicate (length (ctor_fields c)) Wildcard) tail ty tys w')
    as (fs&vs&H1&H2&_&H4&H5&H6);
    [done|by eapply find_constructor_self|done|apply length_replicate|done|apply replicate_wildcard_free|done..|].
  exists (VConstructor (ctor_id c) fs :: vs). by split_and!; [constructor|..].
Qed.

Lemma useful_default_uncovered matrix tail ty tys w :
  width_ok (S (length tys)) matrix → has_other (domain ty) = true →
  length tail = length tys → forallb opaque_free tail = true →
  useful_default useful matrix tail tys Wildcard = Done (Some w) →
  uncovered matrix (Wildcard :: tail) (ty :: tys) w.
Proof.
  intros Hw Ho Hlen Hfree Hu. apply map_witness_Some in Hu as (w'&Hu&->).
  destruct (IH _ _ _ _ (default_width _ _ Hw) Hlen Hfree Hu) as (vs&Hvs&Hq&Hm&Hcov).
  exists (VOther :: vs). split_and!; [|done..|by rewrite <-default_covered].
  constructor; [|done]. by apply ty_other; [apply not_elem_of_nil|].
Qed.

Lemma first_part_uncovered matrix tail ty tys min max cm bounds w :
  width_ok (S (length tys)) matrix → domain ty = Scalar min max cm →
  length tail = length tys → forallb opaque_free tail = true →
  first_part useful matrix tail tys bounds (scalar_partitions matrix bounds min max) = Done (Some w) →
  ∃ z vs, min ≤ z ≤ max ∧ match bounds with Some (lo, hi) => lo ≤ z ≤ hi | None => True end ∧
    has_types domain [] tys vs ∧ matches_row false tail vs = true ∧
    matches_row false w (VScalar z :: vs) = true ∧ covered matrix (VScalar z :: vs) = false.
Proof.
  intros Hw Hd Hlen Hfree Hf. apply first_part_Some in Hf as (part&w'&Hin&Hb&Hu&->).
  pose proof (Hok ty) as Hdom. rewrite Hd in Hdom. destruct Hdom as [Hmin _].
  assert (min ≤ max) as Hmm.
  { unfold scalar_partitions in Hin. destruct (max <? min) eqn:Hlt; bool_to_prop; [|done].
    by apply not_elem_of_nil in Hin. }
  destruct (scalar_partitions_part matrix bounds min max part ltac:(lia) Hin) as (H1&H2&Hr).
  destruct (IH _ _ _ _ (specialize_scalar_width _ _ _ _ Hw) Hlen Hfree Hu) as (vs&Hvs&Hq&Hm&Hcov).
  exists part.1, vs. split_and!; [lia|lia| |done|done| |].
  - unfold in_bounds in Hb. destruct bounds as [[lo hi]|]; [lia|done].
  - cbn [matches_row matches]. by rewrite Z.leb_refl.
  - rewrite <-Hcov. symmetry. apply specialize_scalar_covered; [lia|].
    intros rs re Hrs Hzr. apply (Hr rs re part.1); [|lia..]. unfold column_ranges. apply elem_of_app. by left.
Qed.

Lemma useful_wildcard_uncovered matrix tail ty tys w :
  width_ok (S (length tys)) matrix → length tail = length tys → forallb opaque_free tail = true →
  useful_wildcard useful matrix tail tys (domain ty) = Done (Some w) →
  uncovered matrix (Wildcard :: tail) (ty :: tys) w.
Proof.
  intros Hw Hlen Hfree Hu. unfold useful_wildcard in Hu.
  destruct (domain ty) as [cs|cs|min max cm|] eqn:Hd.
  - eapply first_constructor_uncovered; [done|by left|done..].
  - apply mbind_Done in Hu as (r&Hr&Hu). destruct r as [w'|].
    + injection Hu as <-. eapply first_constructor_uncovered; [done|by right|done..].
    + by eapply useful_default_uncovered; [|rewrite Hd|..].
  - apply mbind_Done in Hu as (r&Hr&Hu). destruct r as [w'|].
    + injection Hu as <-.
      destruct (first_part_uncovered _ _ _ _ _ _ _ _ _ Hw Hd Hlen Hfree Hr) as (z&vs&Hz&_&Hvs&Hq&Hm&Hcov).
      exists (VScalar z :: vs). split_and!; [|done..].
      constructor; [|done]. by eapply ty_scalar; [apply not_elem_of_nil|..].
    + destruct cm; [done|]. by eapply useful_default_uncovered; [|rewrite Hd|..].
  - by eapply useful_default_uncovered; [|rewrite Hd|..].
Qed.
End some.

Lemma useful_inner_some_uncovered fuel : some_uncovered (useful_inner domain fuel).
Proof.
  induction fuel as [|fuel IH]; intros matrix q ts w Hw Hlen Hfree Hu; [done|]. cbn [useful_inner] in Hu.
  destruct matrix as [|row matrix].
  { apply mbind_Done in Hu as (ok&Hval&Hu). destruct ok; [|done]. injection Hu as <-.
    destruct (validate_inhabited domain Hok _ _ _ _ Hlen Hfree Hval) as (vs&Hvs&Hm). by exists vs. }
  destruct q as [|p q], ts as [|ty tys]; try done. injection Hlen as Hlen.
  destruct (existsb _ _); [done|]. cbn in Hfree. apply andb_true_iff in Hfree as [Hp Hq].
  destruct p as [|id ps|s e|]; [| | |done].
  - by eapply useful_wildcard_uncovered.
  - apply mbind_Done in Hu as (c&Hc&Hu). apply mbind_Done in Hu as (u&Har%check_arity_Done&Hu).
    apply mbind_Done in Hu as (spec&Hs&Hu). apply map_witness_Some in Hu as (w'&Hu&->).
    pose proof (find_constructor_in _ _ _ Hc) as [_ <-].
    destruct (constructor_some _ IH _ _ _ _ _ _ _ _ Hw Hc Hs Har Hlen Hp Hq Hu) as (fs&vs&H1&H2&H3&H4&H5&H6).
    exists (VConstructor (ctor_id c) fs :: vs). split_and!; [by constructor| |done..].
    cbn [matches_row]. by rewrite matches_constructor, bool_decide_true, H3.
  - destruct (domain ty) as [| |min max cm|] eqn:Hd; try done.
    destruct (clip_range s e min max) as [[lo hi]|] eqn:Hc; [|done]. apply clip_range_Some in Hc as (->&->&_).
    destruct (first_part_uncovered _ IH _ _ _ _ _ _ _ _ _ Hw Hd Hlen Hq Hu) as (z&vs&Hz&Hb&Hvs&Hm&Hwm&Hcov).
    exists (VScalar z :: vs). split_and!; [| |done..].
    + constructor; [|done]. by eapply ty_scalar; [apply not_elem_of_nil|..].
    + cbn [matches_row matches]. rewrite Hm, andb_true_r. apply andb_true_iff. split; apply Z.leb_le; lia.
Qed.
End correctness.
