(* ===== verification/PatternDecides.v ===== *)
(** * nia-pattern-analysis: the analysis decides usefulness

    Well-typed patterns are never an error, and for types that do not contain
    themselves the analysis always answers, so that it decides exhaustiveness.
    For a type that contains itself it may run forever. *)

From S2P Require Import Prelude RustStd PatternAnalysis PatternScalars PatternSemantics PatternValidate PatternProps.

Definition constructors {T C} (d : Domain T C) : list (Constructor T C) :=
  match d with Finite cs | Open cs => cs | _ => [] end.

Section total.
Context {T C : Type} `{!EqDecision T} `{!EqDecision C}.
Context (domain : T → Domain T C).
Implicit Types (matrix : list (list (Pattern C))) (q tail : list (Pattern C)) (ty : T).

(** ** Well-typed patterns *)

Inductive pattern_ok : T → Pattern C → Prop :=
  | ok_wildcard ty : pattern_ok ty Wildcard
  | ok_opaque ty : pattern_ok ty POpaque
  | ok_constructor ty id c ps :
      find_constructor (domain ty) id = Done c → Forall2 pattern_ok (ctor_fields c) ps →
      pattern_ok ty (PConstructor id ps)
  | ok_scalar ty min max complete s e :
      domain ty = Scalar min max complete → pattern_ok ty (ScalarRange s e).

Notation row_ok := (Forall2 pattern_ok).
Notation matrix_ok ts := (Forall (row_ok ts)).

Lemma wildcards_ok ts : row_ok ts (replicate (length ts) Wildcard).
Proof. induction ts; simpl; constructor; [constructor|done]. Qed.

Lemma matrix_ok_width ts matrix : matrix_ok ts matrix → width_ok (length ts) matrix.
Proof. intros H. eapply Forall_impl; [exact H|]. intros row Hrow. symmetry. by eapply Forall2_length. Qed.

Lemma specialize_constructor_total matrix ty tys id c :
  matrix_ok (ty :: tys) matrix → find_constructor (domain ty) id = Done c →
  ∃ spec, specialize_constructor matrix id (length (ctor_fields c)) = Done spec ∧
    matrix_ok (ctor_fields c ++ tys) spec.
Proof.
  intros Hm Hc. induction Hm as [|row matrix Hrow Hm (spec&Hs&Hspec)]; [by exists []|].
  apply Forall2_cons_inv_l in Hrow as (p&tail&Hp&Htail&->). cbn [specialize_constructor].
  destruct Hp as [|ty|ty id' c' ps Hc' Hps|ty].
  - rewrite Hs. eexists. split; [done|]. constructor; [|done]. apply Forall2_app; [apply wildcards_ok|done].
  - by exists spec.
  - destruct (decide (id' = id)) as [->|Hne]; [|by exists spec].
    rewrite Hc in Hc'. injection Hc' as <-.
    unfold check_arity. rewrite (proj2 (Nat.eqb_eq _ _)) by (symmetry; by eapply Forall2_length).
    cbn [mbind Outcome_bind]. rewrite Hs. eexists. split; [done|]. constructor; [|done]. by apply Forall2_app.
  - by exists spec.
Qed.

Lemma default_ok matrix ty tys : matrix_ok (ty :: tys) matrix → matrix_ok tys (default_matrix matrix).
Proof.
  unfold default_matrix. induction 1 as [|row matrix Hrow Hm IH]; [constructor|].
  apply Forall2_cons_inv_l in Hrow as (p&tail&Hp&Htail&->). destruct p; cbn; try exact IH.
  constructor; [done|exact IH].
Qed.

Lemma specialize_scalar_ok matrix s e ty tys :
  matrix_ok (ty :: tys) matrix → matrix_ok tys (specialize_scalar matrix s e).
Proof.
  unfold specialize_scalar. induction 1 as [|row matrix Hrow Hm IH]; [constructor|].
  apply Forall2_cons_inv_l in Hrow as (p&tail&Hp&Htail&->). destruct p; cbn; try exact IH.
  - constructor; [done|exact IH].
  - destruct (_ && _); [|exact IH]. constructor; [done|exact IH].
Qed.

(** ** Termination for types that do not contain themselves *)

Context (weight : T → nat).

(** The fuel a column of each of the types needs. *)
Definition weights (ts : list T) : nat := sum_list_with (λ t, S (weight t)) ts.

Context (Hweight : ∀ ty c, c ∈ constructors (domain ty) → (weights (ctor_fields c) ≤ weight ty)%nat).

Lemma weights_app ts1 ts2 : weights (ts1 ++ ts2) = (weights ts1 + weights ts2)%nat.
Proof. apply sum_list_with_app. Qed.

Lemma find_constructor_weight ty id c :
  find_constructor (domain ty) id = Done c → (weights (ctor_fields c) ≤ weight ty)%nat.
Proof.
  intros Hc. apply find_constructor_in in Hc as [(cs&Hcs&Hin) _]. apply Hweight.
  by destruct Hcs as [-> | ->].
Qed.

Lemma any_constructor_total validate (cs : list (Constructor T C)) :
  (∀ c, c ∈ cs → ∃ b, validate (replicate (length (ctor_fields c)) Wildcard) (ctor_fields c) = Done b) →
  ∃ b, any_constructor validate cs = Done b.
Proof.
  induction cs as [|c cs IH]; intros H; [by exists false|]. cbn [any_constructor].
  destruct (H c) as [b Hb]; [left|]. rewrite Hb. destruct b; [by exists true|].
  apply IH. intros c' Hc'. apply H. by right.
Qed.

Lemma validate_total fuel q ts A :
  (weights ts < fuel)%nat → row_ok ts q →
  ∃ b, validate_empty_query_inner domain fuel q ts A = Done b.
Proof.
  revert q ts A. induction fuel as [|fuel IH]; intros q ts A Hf Hq; [lia|].
  destruct Hq as [|ty p ts q Hp Hq]; [by exists true|]. cbn [validate_empty_query_inner].
  cbn in Hf. fold (weights ts) in Hf.
  assert (∃ b, (if bool_decide (ty ∈ A) then Done false else validate_wildcard_head
      (λ q ts, validate_empty_query_inner domain fuel q ts (A ++ [ty])) (domain ty)) = Done b) as Hwild.
  { case_bool_decide; [by exists false|]. destruct (domain ty) as [cs| | |] eqn:Hd; cbn; [|by eexists..].
    apply any_constructor_total. intros c Hc. apply IH; [|apply wildcards_ok].
    assert (weights (ctor_fields c) ≤ weight ty)%nat; [|lia]. apply Hweight. by rewrite Hd. }
  assert (∃ b, match p with
    | Wildcard | POpaque => if bool_decide (ty ∈ A) then Done false else validate_wildcard_head
        (λ q ts, validate_empty_query_inner domain fuel q ts (A ++ [ty])) (domain ty)
    | PConstructor id fields =>
      c ← find_constructor (domain ty) id;
      _ ← check_arity (length fields) (length (ctor_fields c));
      validate_empty_query_inner domain fuel fields (ctor_fields c) A
    | ScalarRange s e =>
      match domain ty with
      | Scalar min max _ => Done (match clip_range s e min max with Some _ => true | None => false end)
      | _ => Fail ScalarPatternOutsideScalarDomain
      end
    end = Done b) as [b Hb].
  { destruct Hp as [| |ty id c ps Hc Hps|ty min max cm s e Hd]; [done|done| |rewrite Hd; by eexists].
    rewrite Hc. cbn [mbind Outcome_bind]. pose proof (find_constructor_weight _ _ _ Hc).
    unfold check_arity. rewrite (proj2 (Nat.eqb_eq _ _)) by (symmetry; by eapply Forall2_length).
    cbn [mbind Outcome_bind]. apply IH; [lia|done]. }
  rewrite Hb. cbn [mbind Outcome_bind]. destruct b; [|by exists false]. apply IH; [lia|done].
Qed.

(** The loops answer when each analysis they start does. *)
Definition answers (useful : list (list (Pattern C)) → list (Pattern C) → list T → Outcome (option (list (Pattern C))))
    (n : nat) : Prop :=
  ∀ matrix q ts, (weights ts < n)%nat → matrix_ok ts matrix → row_ok ts q → ∃ r, useful matrix q ts = Done r.

Section loops.
Context (useful : list (list (Pattern C)) → list (Pattern C) → list T → Outcome (option (list (Pattern C)))).
Context (n : nat) (IH : answers useful n).

Lemma first_constructor_total matrix tail ty tys cs :
  (weight ty + weights tys < n)%nat → matrix_ok (ty :: tys) matrix → row_ok tys tail →
  (∀ c, c ∈ cs → c ∈ constructors (domain ty) ∧ find_constructor (domain ty) (ctor_id c) = Done c) →
  ∃ r, first_constructor useful matrix tail tys cs = Done r.
Proof.
  intros Hn Hm Htail. induction cs as [|c cs IHcs]; intros Hcs; [by exists None|].
  destruct (Hcs c) as [Hc Hfind]; [left|]. cbn [first_constructor].
  destruct (specialize_constructor_total matrix ty tys (ctor_id c) c Hm Hfind) as (spec&->&Hspec).
  cbn [mbind Outcome_bind].
  destruct (IH spec (replicate (length (ctor_fields c)) Wildcard ++ tail) (ctor_fields c ++ tys)) as [r ->];
    [|done|apply Forall2_app; [apply wildcards_ok|done]|].
  { rewrite weights_app. pose proof (Hweight ty c Hc). lia. }
  cbn [mbind Outcome_bind]. destruct r as [w|]; [by eexists|]. apply IHcs. intros c' Hc'. apply Hcs. by right.
Qed.

Lemma first_part_total matrix tail ty tys bounds parts :
  (weights tys < n)%nat → matrix_ok (ty :: tys) matrix → row_ok tys tail →
  ∃ r, first_part useful matrix tail tys bounds parts = Done r.
Proof.
  intros Hn Hm Htail. induction parts as [|[s e] parts IHp]; [by exists None|]. cbn [first_part].
  destruct (match bounds with Some _ => _ | None => _ end); [done|].
  destruct (IH (specialize_scalar matrix s e) tail tys) as [r ->]; [done|by eapply specialize_scalar_ok|done|].
  cbn [mbind Outcome_bind]. destruct r; [by eexists|done].
Qed.

Lemma useful_default_total matrix tail ty tys head :
  (weights tys < n)%nat → matrix_ok (ty :: tys) matrix → row_ok tys tail →
  ∃ r, useful_default useful matrix tail tys head = Done r.
Proof.
  intros Hn Hm Htail. unfold useful_default.
  destruct (IH (default_matrix matrix) tail tys) as [r ->]; [done|by eapply default_ok|done|].
  destruct r; by eexists.
Qed.

Lemma useful_wildcard_total matrix tail ty tys :
  domain_ok (domain ty) →
  (weight ty + weights tys < n)%nat → matrix_ok (ty :: tys) matrix → row_ok tys tail →
  ∃ r, useful_wildcard useful matrix tail tys (domain ty) = Done r.
Proof.
  intros Hok Hn Hm Htail. unfold useful_wildcard.
  assert (∃ r, useful_default useful matrix tail tys Wildcard = Done r) as Hdef.
  { eapply useful_default_total; [lia|done..]. }
  destruct (domain ty) as [cs|cs|min max cm|] eqn:Hd; [| | |done].
  - eapply first_constructor_total; [exact Hn|done..|]. intros c Hc. rewrite Hd. split; [done|].
    eapply find_constructor_self; [by left|done..].
  - edestruct first_constructor_total as [r ->]; [exact Hn|done|exact Htail| |].
    + intros c Hc. rewrite Hd. split; [exact Hc|]. eapply find_constructor_self; [by right|done..].
    + cbn [mbind Outcome_bind]. destruct r; [by eexists|done].
  - edestruct (first_part_total matrix tail ty tys None) as [r ->]; [lia|done..|].
    cbn [mbind Outcome_bind]. destruct r; [by eexists|]. destruct cm; [by eexists|done].
Qed.
End loops.

Context (Hok : LawfulDomain domain).

Lemma useful_inner_total fuel matrix q ts :
  (weights ts + 1 < fuel)%nat → matrix_ok ts matrix → row_ok ts q →
  ∃ r, useful_inner domain fuel matrix q ts = Done r.
Proof.
  revert matrix q ts. induction fuel as [|fuel IH]; intros matrix q ts Hf Hm Hq; [lia|].
  assert (answers (useful_inner domain fuel) (fuel - 1)) as IH' by (intros ????; apply IH; lia).
  cbn [useful_inner]. destruct matrix as [|row matrix].
  { unfold validate_empty_query. destruct (validate_total fuel q ts []) as [b ->]; [lia|done|]. by eexists. }
  destruct Hq as [|ty p tys q Hp Hq]; [by eexists|]. cbn in Hf. fold (weights tys) in Hf.
  destruct (existsb _ _); [by eexists|].
  destruct Hp as [ty|ty|ty id c ps Hc Hps|ty min max cm s e Hd].
  - eapply useful_wildcard_total; [exact IH'|done|lia|done..].
  - eapply useful_default_total; [exact IH'|lia|done..].
  - rewrite Hc. cbn [mbind Outcome_bind]. pose proof (find_constructor_weight _ _ _ Hc).
    unfold check_arity. rewrite (proj2 (Nat.eqb_eq _ _)) by (symmetry; by eapply Forall2_length).
    cbn [mbind Outcome_bind]. destruct (specialize_constructor_total _ _ _ _ _ Hm Hc) as (spec&->&Hspec).
    cbn [mbind Outcome_bind]. destruct (IH spec (ps ++ q) (ctor_fields c ++ tys)) as [r ->]; [|done| |].
    + rewrite weights_app. lia.
    + by apply Forall2_app.
    + destruct r; by eexists.
  - rewrite Hd. destruct (clip_range _ _ _ _) as [[lo hi]|]; [|by eexists].
    eapply first_part_total; [exact IH'|lia|done..].
Qed.

Lemma validate_widths_ok matrix q ts :
  matrix_ok ts matrix → row_ok ts q → validate_widths matrix q (length ts) = Done ().
Proof.
  intros Hm Hq. unfold validate_widths. rewrite (proj2 (Nat.eqb_eq _ _)) by (symmetry; by eapply Forall2_length).
  cbn [negb]. destruct (list_find _ matrix) as [[i row]|] eqn:Hf; [|done].
  apply list_find_Some in Hf as (Hi&Hne&_). exfalso. apply Hne. symmetry.
  eapply Forall2_length, Forall_lookup_1; [exact Hm|exact Hi].
Qed.

Lemma validate_widths_Done matrix q n u :
  validate_widths matrix q n = Done u → length q = n ∧ width_ok n matrix.
Proof.
  unfold validate_widths. destruct (length q =? n)%nat eqn:Hq; [|done]. apply Nat.eqb_eq in Hq. cbn [negb].
  destruct (list_find _ matrix) as [[i row]|] eqn:Hf; [done|]. intros _. split; [done|].
  apply list_find_None in Hf. eapply Forall_impl; [exact Hf|]. intros row Hrow.
  destruct (decide (length row = n)); [done|]. by destruct Hrow.
Qed.
End total.

(** ** The theorems *)

(** The promise that no type contains itself: a weight that grows from the fields
    of every constructor to its type. *)
Class FoundedDomain {T C} (domain : T → Domain T C) := {
  weight : T → nat;
  weight_fields ty c : c ∈ constructors (domain ty) → (weights weight (ctor_fields c) ≤ weight ty)%nat;
}.

(** An optional byte, [None] and [Some(u8)], and a byte. *)
Inductive demo_ty : Set := OptionU8 | U8.
Inductive demo_ctor : Set := NoneC | SomeC.

#[global] Instance demo_ty_eq_dec : EqDecision demo_ty.
Proof. solve_decision. Defined.
#[global] Instance demo_ctor_eq_dec : EqDecision demo_ctor.
Proof. solve_decision. Defined.

Definition demo_domain (ty : demo_ty) : Domain demo_ty demo_ctor :=
  match ty with
  | OptionU8 => Finite [mkConstructor NoneC []; mkConstructor SomeC [U8]]
  | U8 => Scalar 0 255 true
  end.

Definition demo_weight (ty : demo_ty) : nat := match ty with OptionU8 => 1 | U8 => 0 end.

#[global] Instance demo_domain_lawful : LawfulDomain demo_domain.
Proof.
  intros ty. destruct ty; cbn; [|split; [unfold i128_min; lia|done]].
  apply NoDup_cons. split; [by intros [=]%list_elem_of_singleton|]. apply NoDup_singleton.
Qed.

Lemma demo_domain_weight ty c :
  c ∈ constructors (demo_domain ty) → (weights demo_weight (ctor_fields c) ≤ demo_weight ty)%nat.
Proof.
  destruct ty; cbn; [|by intros ?%not_elem_of_nil].
  rewrite !elem_of_cons. intros [->|[->|?%not_elem_of_nil]]; cbn; [lia|lia|done].
Qed.

#[global] Instance demo_domain_founded : FoundedDomain demo_domain :=
  {| weight := demo_weight; weight_fields := demo_domain_weight |}.

(** The rows [None], [Some(0..=9)] and [Some(20..=255)], which miss [Some(10..=19)]. *)
Definition demo_rows : list (list (Pattern demo_ctor)) :=
  [[PConstructor NoneC []]; [PConstructor SomeC [ScalarRange 0 9]]; [PConstructor SomeC [ScalarRange 20 255]]].

(** An analysis that answers without a witness is sound: every value of the
    types that the query may match is matched by a row of the matrix, opaque
    patterns of the rows counting as matching nothing and those of the query as
    matching anything. *)
Theorem useful_witness_none_sound {T C} `{!EqDecision T, !EqDecision C} (domain : T → Domain T C)
    `{!LawfulDomain domain} (fuel : nat) (matrix : list (list (Pattern C))) (query : list (Pattern C)) (types : list T)
    (vs : list (value C)) :
  useful_witness domain fuel matrix query types = Done None →
  has_types domain [] types vs → matches_row true query vs = true →
  covered matrix vs = true.
Proof.
  intros Hu Hty Hm. apply mbind_Done in Hu as (u&Hw&Hu).
  apply validate_widths_Done in Hw as [_ Hw]. by eapply useful_inner_none_covers.
Qed.

Lemma useful_witness_none_sound_witness :
  covered ([PConstructor SomeC [ScalarRange 10 19]] :: demo_rows) [VConstructor SomeC [VScalar 15]] = true.
Proof.
  apply (useful_witness_none_sound demo_domain 10 _ [Wildcard] [OptionU8]).
  - vm_compute. reflexivity.
  - apply tys_cons; [|apply tys_nil]. eapply ty_constructor; [by apply not_elem_of_nil|reflexivity|].
    apply tys_cons; [|apply tys_nil]. eapply ty_scalar; [by apply not_elem_of_nil|reflexivity|lia].
  - reflexivity.
Defined.

(** A witness is real: for a query without opaque patterns there is a value of
    the types that the query matches, that the witness describes and that no row
    matches. *)
Theorem useful_witness_some_sound {T C} `{!EqDecision T, !EqDecision C} (domain : T → Domain T C)
    `{!LawfulDomain domain} (fuel : nat) (matrix : list (list (Pattern C))) (query witness : list (Pattern C)) (types : list T) :
  forallb opaque_free query = true →
  useful_witness domain fuel matrix query types = Done (Some witness) →
  ∃ vs, has_types domain [] types vs ∧ matches_row false query vs = true ∧
    matches_row false witness vs = true ∧ covered matrix vs = false.
Proof.
  intros Hfree Hu. apply mbind_Done in Hu as (u&Hw&Hu).
  apply validate_widths_Done in Hw as [Hq Hw]. by eapply useful_inner_some_uncovered.
Qed.

Lemma useful_witness_some_sound_witness :
  ∃ vs, has_types demo_domain [] [OptionU8] vs ∧ matches_row false [Wildcard] vs = true ∧
    matches_row false [PConstructor SomeC [ScalarRange 10 10]] vs = true ∧ covered demo_rows vs = false.
Proof.
  apply (useful_witness_some_sound demo_domain 10); [reflexivity|].
  vm_compute. reflexivity.
Defined.

(** C25: for well-typed patterns over types that do not contain themselves (the
    weight of a type is more than that of the fields of each of its constructors)
    the analysis always answers, without an error, with fuel linear in the weight. *)
Theorem useful_witness_total {T C} `{!EqDecision T, !EqDecision C} (domain : T → Domain T C)
    `{!LawfulDomain domain, !FoundedDomain domain} (fuel : nat) (matrix : list (list (Pattern C))) (query : list (Pattern C))
    (types : list T) :
  (weights weight types + 1 < fuel)%nat →
  Forall (Forall2 (pattern_ok domain) types) matrix → Forall2 (pattern_ok domain) types query →
  ∃ r, useful_witness domain fuel matrix query types = Done r.
Proof.
  intros Hf Hm Hq. unfold useful_witness. erewrite validate_widths_ok by done.
  cbn [mbind Outcome_bind]. eapply useful_inner_total; [apply weight_fields|done..].
Qed.

Lemma demo_rows_ok : Forall (Forall2 (pattern_ok demo_domain) [OptionU8]) demo_rows.
Proof.
  repeat constructor; (eapply ok_constructor; [reflexivity|]); repeat constructor;
    eapply ok_scalar; reflexivity.
Qed.

Lemma useful_witness_total_witness :
  ∃ r, useful_witness demo_domain 4 demo_rows [Wildcard] [OptionU8] = Done r.
Proof.
  apply (useful_witness_total demo_domain); [cbn; lia|apply demo_rows_ok|repeat constructor].
Defined.

(** C24: [missing_witness] decides exhaustiveness: for well-typed rows over a type
    that does not contain itself it answers [None] exactly when the rows match
    every value of the type, and otherwise with a pattern of a value they miss. *)
Theorem missing_witness_decides {T C} `{!EqDecision T, !EqDecision C} (domain : T → Domain T C)
    `{!LawfulDomain domain, !FoundedDomain domain} (fuel : nat) (matrix : list (list (Pattern C))) (ty : T) :
  (weight ty + 2 < fuel)%nat → Forall (Forall2 (pattern_ok domain) [ty]) matrix →
  ∃ r, missing_witness domain fuel matrix ty = Done r ∧
    match r with
    | None => ∀ v, has_type domain [] ty v → covered matrix [v] = true
    | Some p => ∃ v, has_type domain [] ty v ∧ matches false p v = true ∧ covered matrix [v] = false
    end.
Proof.
  intros Hf Hm. unfold missing_witness, useful_witness.
  assert (Forall2 (pattern_ok domain) [ty] [Wildcard]) as Hq by (repeat constructor).
  erewrite (validate_widths_ok domain matrix [Wildcard] [ty]) by done. cbn [mbind Outcome_bind].
  destruct (useful_inner_total domain weight weight_fields _ fuel matrix [Wildcard] [ty]) as [r Hr];
    [cbn; lia|done..|]. rewrite Hr. cbn [mbind Outcome_bind]. eexists. split; [done|].
  pose proof (matrix_ok_width _ _ _ Hm) as Hw. destruct r as [w|]; cbn.
  - apply useful_inner_some_uncovered in Hr as (vs&Hvs&_&Hwm&Hcov); [|done..].
    inversion Hvs as [|? ? v ? Hv Hnil]; subst. inversion Hnil; subst.
    destruct w as [|p [|p' w]]; try done; [|by cbn in Hwm; rewrite andb_false_r in Hwm].
    exists v. split_and!; [done| |done]. cbn in Hwm. by rewrite andb_true_r in Hwm.
  - intros v Hv. eapply useful_inner_none_covers; [done|exact Hw|exact Hr| |done].
    repeat constructor. done.
Qed.

Lemma missing_witness_decides_witness :
  ∃ r, missing_witness demo_domain 10 demo_rows OptionU8 = Done r ∧
    match r with
    | None => ∀ v, has_type demo_domain [] OptionU8 v → covered demo_rows [v] = true
    | Some p => ∃ v, has_type demo_domain [] OptionU8 v ∧ matches false p v = true ∧ covered demo_rows [v] = false
    end.
Proof.
  apply (missing_witness_decides demo_domain); [cbn; lia|apply demo_rows_ok].
Defined.

(** ** A type that contains itself *)

(** A pair of a list and a flag; a list is [Nil] or [Cons] of a list. *)
Inductive rec_ty : Set := Pair | List | Flag.
Inductive rec_ctor : Set := PairC | NilC | ConsC | OnC | OffC.

#[global] Instance rec_ty_eq_dec : EqDecision rec_ty.
Proof. solve_decision. Defined.
#[global] Instance rec_ctor_eq_dec : EqDecision rec_ctor.
Proof. solve_decision. Defined.

Definition rec_domain (ty : rec_ty) : Domain rec_ty rec_ctor :=
  match ty with
  | Pair => Finite [mkConstructor PairC [List; Flag]]
  | List => Finite [mkConstructor NilC []; mkConstructor ConsC [List]]
  | Flag => Finite [mkConstructor OnC []; mkConstructor OffC []]
  end.

(** [(_, On)] and [(_, Off)]. *)
Definition rec_rows : list (list (Pattern rec_ctor)) :=
  [[PConstructor PairC [Wildcard; PConstructor OnC []]];
   [PConstructor PairC [Wildcard; PConstructor OffC []]]].

Definition rec_columns : list (list (Pattern rec_ctor)) :=
  [[Wildcard; PConstructor OnC []]; [Wildcard; PConstructor OffC []]].

Definition flag_rows : list (list (Pattern rec_ctor)) := [[PConstructor OnC []]; [PConstructor OffC []]].

Lemma flag_rows_useful fuel :
  useful_inner rec_domain fuel flag_rows [Wildcard] [Flag] = OutOfFuel ∨
  useful_inner rec_domain fuel flag_rows [Wildcard] [Flag] = Done None.
Proof. do 2 (destruct fuel as [|fuel]; [by left|]). by right. Qed.

(** The specialization for [Cons] is the same question again. *)
Lemma rec_columns_step fuel :
  useful_inner rec_domain (S fuel) rec_columns [Wildcard; Wildcard] [List; Flag] =
  (r ← useful_inner rec_domain fuel flag_rows [Wildcard] [Flag];
   match r with
   | Some witness => Done (Some (rebuild NilC 0 witness))
   | None =>
     r ← useful_inner rec_domain fuel rec_columns [Wildcard; Wildcard] [List; Flag];
     match r with
     | Some witness => Done (Some (rebuild ConsC 1 witness))
     | None => Done None
     end
   end).
Proof. reflexivity. Qed.

Lemma rec_columns_diverge fuel :
  useful_inner rec_domain fuel rec_columns [Wildcard; Wildcard] [List; Flag] = OutOfFuel.
Proof.
  induction fuel as [|fuel IH]; [done|]. rewrite rec_columns_step.
  destruct (flag_rows_useful fuel) as [-> | ->]; cbn [mbind Outcome_bind]; [done|]. by rewrite IH.
Qed.

Lemma rec_rows_exhaustive v : has_type rec_domain [] Pair v → covered rec_rows [v] = true.
Proof.
  inversion 1 as [? id c fs _ Hc Hfs|? ? ? ? ? _ Hd|? _ Ho]; subst; [|done..].
  destruct (find_constructor_in _ _ _ Hc) as [(cs&[[= <-]|[=]]&Hin%list_elem_of_singleton) <-]. subst c.
  inversion Hfs as [|? ? v ? _ Hvs]; subst. inversion Hvs as [|? ? f ? Hf Hnil]; subst. inversion Hnil; subst.
  inversion Hf as [? id c fs _ Hc' Hfs'|? ? ? ? ? _ Hd|? _ Ho]; subst; [|done..].
  destruct (find_constructor_in _ _ _ Hc') as [(cs&[[= <-]|[=]]&Hin) <-].
  apply elem_of_cons in Hin as [Hin|Hin%list_elem_of_singleton]; subst; by inversion Hfs'.
Qed.

(** C36: on a type that contains itself the analysis may not terminate: for the
    exhaustive and well-typed rows [(_, On)] and [(_, Off)] over a pair of a list
    and a flag no amount of fuel gives an answer, because the first column is
    expanded again and again, no row being all wildcards. *)
Theorem missing_witness_diverges :
  LawfulDomain rec_domain ∧ Forall (Forall2 (pattern_ok rec_domain) [Pair]) rec_rows ∧
  (∀ v, has_type rec_domain [] Pair v → covered rec_rows [v] = true) ∧
  ∀ fuel, missing_witness rec_domain fuel rec_rows Pair = OutOfFuel.
Proof.
  split_and!; [| |apply rec_rows_exhaustive|].
  - intros ty. destruct ty; cbn; by apply (bool_decide_unpack _).
  - repeat constructor; (eapply ok_constructor; [reflexivity|]); repeat constructor;
      (eapply ok_constructor; [reflexivity|constructor]).
  - intros [|fuel]; [done|].
    assert (missing_witness rec_domain (S fuel) rec_rows Pair =
      (r ← (r ← useful_inner rec_domain fuel rec_columns [Wildcard; Wildcard] [List; Flag];
       match r with Some witness => Done (Some (rebuild PairC 2 witness)) | None => Done None end);
       Done (r ≫= last))) as -> by reflexivity.
    by rewrite rec_columns_diverge.
Qed.
