(* ===== verification/MatchCoverage.v ===== *)
(** * Coverage of a match

    The arm loop of the match checkers:
    [crates/nia-const-check/src/analyzer/match_patterns/coverage.rs],
    [check_resolved_const_match_coverage], and the same loop of the runtime
    checker, [crates/nia-body-check/src/patterns.rs] with
    [patterns/analysis.rs], [check_pattern_matrix_exhaustive].  Each pattern is
    asked whether it is useful after the rows before it and becomes a row only
    then; the rows are asked for a missing value at the end.  The normalization
    of the patterns is the part of the caller. *)

From S2P Require Import Prelude RustStd PatternAnalysis PatternScalars PatternSemantics PatternValidate PatternProps PatternDecides.

(** What the checker says of a pattern: nothing, the unreachable-pattern
    diagnostic, or the diagnostic of a failed analysis. *)
Inductive Verdict : Type :=
  | Useful
  | Unreachable
  | CoverageError (e : AnalysisError).

(** What it says of the whole match. *)
Inductive Conclusion (C : Type) : Type :=
  | Exhaustive
  | Missing (witness : Pattern C)
  | ExhaustivenessError (e : AnalysisError).
Arguments Exhaustive {C}.
Arguments Missing {C} witness.
Arguments ExhaustivenessError {C} e.

Section coverage.
Context {T C : Type} `{!EqDecision T} `{!EqDecision C}.
Context (domain : T → Domain T C).

(** The loop over the patterns of all arms; [None] when the fuel of an analysis
    is not enough. *)
Fixpoint coverage_rows (fuel : nat) (target_ty : T) (matrix : list (list (Pattern C)))
    (patterns : list (Pattern C)) : option (list Verdict * list (list (Pattern C))) :=
  match patterns with
  | [] => Some ([], matrix)
  | normalized :: patterns =>
    '(verdict, matrix) ←
      match useful_witness domain fuel matrix [normalized] [target_ty] with
      | Done (Some _) => Some (Useful, matrix ++ [[normalized]])
      | Done None => Some (Unreachable, matrix)
      | Fail error => Some (CoverageError error, matrix)
      | OutOfFuel => None
      end;
    '(verdicts, matrix) ← coverage_rows fuel target_ty matrix patterns;
    Some (verdict :: verdicts, matrix)
  end.

Definition check_exhaustive (fuel : nat) (target_ty : T) (matrix : list (list (Pattern C))) :
    option (Conclusion C) :=
  match missing_witness domain fuel matrix target_ty with
  | Done None => Some Exhaustive
  | Done (Some witness) => Some (Missing witness)
  | Fail error => Some (ExhaustivenessError error)
  | OutOfFuel => None
  end.

Definition check_match_coverage (fuel : nat) (target_ty : T) (patterns : list (Pattern C)) :
    option (list Verdict * Conclusion C) :=
  '(verdicts, matrix) ← coverage_rows fuel target_ty [] patterns;
  conclusion ← check_exhaustive fuel target_ty matrix;
  Some (verdicts, conclusion).
End coverage.

(** ** Well-typed queries *)

Section typed.
Context {T C : Type} `{!EqDecision T} `{!EqDecision C}.
Context (domain : T → Domain T C).
Notation row_ok := (Forall2 (pattern_ok domain)).

(** A pattern that may match a value of a type is a pattern of the type. *)
Lemma matching_pattern_ok A ty v p : has_type domain A ty v → matches true p v = true → pattern_ok domain ty p.
Proof.
  intros Hv. revert p. apply (has_type_mut domain A
    (λ ty v _, ∀ p, matches true p v = true → pattern_ok domain ty p)
    (λ ts vs _, ∀ ps, matches_row true ps vs = true → row_ok ts ps)); [..|exact Hv]; clear.
  - intros ty id c fs _ Hc _ IH [|id' ps| |] Hm; try done; [constructor| |constructor].
    rewrite matches_constructor in Hm. apply andb_true_iff in Hm as [Hid%bool_decide_eq_true Hm]. subst id'.
    eapply ok_constructor; [exact Hc|by apply IH].
  - intros ty min max cm z _ Hd _ [| | |] Hm; try done; [constructor| |constructor]. by eapply ok_scalar.
  - intros ty _ Ho [| | |] Hm; try done; constructor.
  - intros [|] Hm; [constructor|done].
  - intros ty ts v vs _ IHv _ IHvs [|p ps] Hm; [done|]. cbn in Hm. apply andb_true_iff in Hm as [Hp Hm].
    constructor; [by apply IHv|by apply IHvs].
Qed.

Lemma find_row_ok ty id c ps :
  find_constructor (domain ty) id = Done c → row_ok (ctor_fields c) ps → pattern_ok domain ty (PConstructor id ps).
Proof. intros. by eapply ok_constructor. Qed.

Lemma validate_row_ok fuel q ts A :
  length q = length ts → validate_empty_query_inner domain fuel q ts A = Done true → row_ok ts q.
Proof.
  revert q ts A. induction fuel as [|fuel IH]; intros q ts A Hlen Hval; [done|].
  destruct q as [|p q], ts as [|ty ts]; try done. injection Hlen as Hlen.
  cbn [validate_empty_query_inner] in Hval. apply mbind_Done in Hval as (ok&Hhd&Hval). destruct ok; [|done].
  constructor; [|by eapply IH]. destruct p as [|id ps|s e|]; [constructor| | |constructor].
  - apply mbind_Done in Hhd as (c&Hc&Hhd). apply mbind_Done in Hhd as (u&Har%check_arity_Done&Hhd).
    eapply find_row_ok; [exact Hc|by eapply IH].
  - destruct (domain ty) eqn:Hd; try done. by eapply ok_scalar.
Qed.

(** A useful query is well-typed. *)
Lemma useful_row_ok fuel matrix q ts w :
  length q = length ts → useful_inner domain fuel matrix q ts = Done (Some w) → row_ok ts q.
Proof.
  revert matrix q ts w. induction fuel as [|fuel IH]; intros matrix q ts w Hlen Hu; [done|].
  cbn [useful_inner] in Hu. destruct matrix as [|row matrix].
  { apply mbind_Done in Hu as (ok&Hval&Hu). destruct ok; [|done]. by eapply validate_row_ok. }
  destruct q as [|p q], ts as [|ty ts]; try done. injection Hlen as Hlen. destruct (existsb _ _); [done|].
  assert (∀ cs, first_constructor (useful_inner domain fuel) (row :: matrix) q ts cs = Done (Some w) → row_ok ts q)
    as Hfirst.
  { intros cs (c&spec&w'&_&_&Hu'&_)%first_constructor_Some. apply IH in Hu'.
    - apply Forall2_app_inv_l in Hu' as (q1&q2&H1&H2&Heq). apply Forall2_length in H1.
      apply app_inj_1 in Heq as [_ ->]; [done|]. by rewrite length_replicate.
    - rewrite !length_app, length_replicate. lia. }
  assert (∀ head, useful_default (useful_inner domain fuel) (row :: matrix) q ts head = Done (Some w) → row_ok ts q)
    as Hdef.
  { intros head (w'&Hu'&_)%map_witness_Some. by eapply IH. }
  assert (∀ bounds parts,
    first_part (useful_inner domain fuel) (row :: matrix) q ts bounds parts = Done (Some w) → row_ok ts q) as Hpart.
  { intros bounds parts (part&w'&_&_&Hu'&_)%first_part_Some. by eapply IH. }
  destruct p as [|id ps|s e|].
  - constructor; [constructor|]. unfold useful_wildcard in Hu.
    destruct (domain ty); [by eapply Hfirst| | |by eapply Hdef];
      apply mbind_Done in Hu as ([w'|]&Hr&Hu).
    + injection Hu as <-. by eapply Hfirst.
    + by eapply Hdef.
    + injection Hu as <-. by eapply Hpart.
    + case_match; [done|]. by eapply Hdef.
  - apply mbind_Done in Hu as (c&Hc&Hu). apply mbind_Done in Hu as (u&Har%check_arity_Done&Hu).
    apply mbind_Done in Hu as (spec&Hs&Hu). apply map_witness_Some in Hu as (w'&Hu&->).
    apply IH in Hu; [|rewrite !length_app; lia].
    apply Forall2_app_inv_l in Hu as (q1&q2&H1&H2&Heq). pose proof (Forall2_length _ _ _ H1).
    apply app_inj_1 in Heq as [-> ->]; [|lia]. constructor; [by eapply find_row_ok|done].
  - destruct (domain ty) eqn:Hd; try done. destruct (clip_range _ _ _ _) as [[lo hi]|]; [|done].
    constructor; [by eapply ok_scalar|by eapply Hpart].
  - constructor; [constructor|by eapply Hdef].
Qed.
End typed.

(** ** Enough fuel for any query *)

Definition fueled {A} (o : Outcome A) : Prop := o ≠ OutOfFuel.

Lemma bind_fueled {A B} (o : Outcome A) (f : A → Outcome B) :
  fueled o → (∀ a, o = Done a → fueled (f a)) → fueled (o ≫= f).
Proof. intros Ho Hf. destruct o; [by apply Hf|done|done]. Qed.

Lemma map_witness_fueled {A} (f : A → A) o : fueled o → fueled (map_witness f o).
Proof. by destruct o as [[a|]| |]. Qed.

Section fuel.
Context {T C : Type} `{!EqDecision T} `{!EqDecision C}.
Context (domain : T → Domain T C) (weight : T → nat).
Context (Hweight : ∀ ty c, c ∈ constructors (domain ty) → (weights weight (ctor_fields c) ≤ weight ty)%nat).

Lemma find_constructor_fueled (d : Domain T C) id : fueled (find_constructor d id).
Proof. destruct d; cbn; try done; by destruct (list_find _ _) as [[? ?]|]. Qed.

Lemma check_arity_fueled n m : fueled (check_arity n m).
Proof. unfold check_arity. by case_match. Qed.

Lemma specialize_constructor_fueled (matrix : list (list (Pattern C))) id n :
  fueled (specialize_constructor matrix id n).
Proof.
  induction matrix as [|[|[|id' ps| |] tail] matrix IH]; cbn [specialize_constructor]; try done.
  - by destruct (specialize_constructor matrix id n).
  - destruct (decide _); [|done]. apply bind_fueled; [apply check_arity_fueled|]. intros _ _.
    by destruct (specialize_constructor matrix id n).
Qed.

Lemma validate_fueled fuel q ts A :
  (weights weight ts < fuel)%nat → length q = length ts →
  fueled (validate_empty_query_inner domain fuel q ts A).
Proof.
  revert q ts A. induction fuel as [|fuel IH]; intros q ts A Hf Hlen; [lia|].
  destruct q as [|p q], ts as [|ty ts]; try done. injection Hlen as Hlen. cbn in Hf. fold (weights weight ts) in Hf.
  cbn [validate_empty_query_inner].
  apply bind_fueled; [|intros [] _; [apply IH; [lia|done]|done]].
  assert (fueled (if bool_decide (ty ∈ A) then Done false else validate_wildcard_head
      (λ q ts, validate_empty_query_inner domain fuel q ts (A ++ [ty])) (domain ty))) as Hwild.
  { destruct (bool_decide _); [done|].
    assert (∀ c, c ∈ constructors (domain ty) →
      fueled (validate_empty_query_inner domain fuel (replicate (length (ctor_fields c)) Wildcard) (ctor_fields c) (A ++ [ty])))
      as Hc.
    { intros c Hc. apply IH; [|by rewrite length_replicate]. pose proof (Hweight ty c Hc). lia. }
    destruct (domain ty) as [cs| | |]; cbn in Hc |- *; try done. induction cs as [|c cs IHcs]; [done|].
    cbn [any_constructor]. apply bind_fueled; [apply Hc; left|]. intros [] _; [done|]. apply IHcs.
    intros c' Hc'. apply Hc. by right. }
  destruct p as [|id ps|s e|]; [done| | |done].
  - apply bind_fueled; [apply find_constructor_fueled|]. intros c Hc. apply bind_fueled; [apply check_arity_fueled|].
    intros u Har%check_arity_Done. apply IH; [|done]. pose proof (find_constructor_weight _ _ Hweight _ _ _ Hc). lia.
  - by destruct (domain ty).
Qed.

Definition fuels (useful : list (list (Pattern C)) → list (Pattern C) → list T → Outcome (option (list (Pattern C))))
    (n : nat) : Prop :=
  ∀ matrix q ts, (weights weight ts < n)%nat → length q = length ts → fueled (useful matrix q ts).

Lemma useful_wildcard_fueled useful n matrix tail ty tys :
  fuels useful n → (weight ty + weights weight tys < n)%nat → length tail = length tys →
  fueled (useful_wildcard useful matrix tail tys (domain ty)) ∧
  (∀ head, fueled (useful_default useful matrix tail tys head)) ∧
  (∀ bounds parts, fueled (first_part useful matrix tail tys bounds parts)).
Proof.
  intros IH Hn Hlen.
  assert (∀ cs, (∀ c, c ∈ cs → c ∈ constructors (domain ty)) →
    fueled (first_constructor useful matrix tail tys cs)) as Hfirst.
  { induction cs as [|c cs IHcs]; intros Hcs; [done|]. cbn [first_constructor].
    apply bind_fueled; [apply specialize_constructor_fueled|]. intros spec _.
    apply bind_fueled; [|intros [] _; [done|]; apply IHcs; intros c' Hc'; apply Hcs; by right].
    apply IH; [|rewrite !length_app, length_replicate; lia].
    rewrite weights_app. pose proof (Hweight ty c ltac:(apply Hcs; left)). lia. }
  assert (∀ head, fueled (useful_default useful matrix tail tys head)) as Hdef.
  { intros head. apply map_witness_fueled, IH; [lia|done]. }
  assert (∀ bounds parts, fueled (first_part useful matrix tail tys bounds parts)) as Hpart.
  { intros bounds. induction parts as [|[s e] parts IHp]; [done|]. cbn [first_part].
    destruct (match bounds with Some _ => _ | None => _ end); [done|].
    apply bind_fueled; [apply IH; [lia|done]|]. by intros [] _. }
  split_and!; [|done..]. unfold useful_wildcard.
  destruct (domain ty) as [cs|cs|min max cm|]; [by apply Hfirst| | |done].
  - apply bind_fueled; [by apply Hfirst|]. by intros [] _.
  - apply bind_fueled; [done|]. intros [] _; [done|]. by destruct cm.
Qed.

Lemma useful_inner_fueled fuel matrix q ts :
  (weights weight ts + 1 < fuel)%nat → length q = length ts → fueled (useful_inner domain fuel matrix q ts).
Proof.
  revert matrix q ts. induction fuel as [|fuel IH]; intros matrix q ts Hf Hlen; [lia|].
  assert (fuels (useful_inner domain fuel) (fuel - 1)) as IH' by (intros ????; apply IH; lia).
  cbn [useful_inner]. destruct matrix as [|row matrix].
  { apply bind_fueled; [|by intros [] _]. apply validate_fueled; [lia|done]. }
  destruct q as [|p q], ts as [|ty ts]; try done. injection Hlen as Hlen. cbn in Hf. fold (weights weight ts) in Hf.
  destruct (existsb _ _); [done|].
  destruct (useful_wildcard_fueled _ _ (row :: matrix) q ty ts IH' ltac:(lia) Hlen) as (Hwild&Hdef&Hpart).
  destruct p as [|id ps|s e|]; [done| | |done].
  - apply bind_fueled; [apply find_constructor_fueled|]. intros c Hc. apply bind_fueled; [apply check_arity_fueled|].
    intros u Har%check_arity_Done. apply bind_fueled; [apply specialize_constructor_fueled|]. intros spec _.
    apply map_witness_fueled, IH; [|rewrite !length_app; lia].
    rewrite weights_app. pose proof (find_constructor_weight _ _ Hweight _ _ _ Hc). lia.
  - destruct (domain ty); try done. destruct (clip_range _ _ _ _) as [[lo hi]|]; [done|done].
Qed.
End fuel.

(** ** Correctness of the loop *)

Section correct.
Context {T C : Type} `{!EqDecision T} `{!EqDecision C}.
Context (domain : T → Domain T C) (ty : T).
Implicit Types (earlier ps : list (Pattern C)) (p : Pattern C) (v : value C).

(** What a verdict promises, for a pattern after the [earlier] ones. *)
Definition verdict_ok earlier p (verdict : Verdict) : Prop :=
  match verdict with
  | Useful =>
    opaque_free p = true →
    ∃ v, has_type domain [] ty v ∧ matches false p v = true ∧ ∀ p', p' ∈ earlier → matches false p' v = false
  | Unreachable =>
    ∀ v, has_type domain [] ty v → matches true p v = true → ∃ p', p' ∈ earlier ∧ matches false p' v = true
  | CoverageError _ => ¬ pattern_ok domain ty p ∧ ∀ v, has_type domain [] ty v → matches true p v = false
  end.

(** What the conclusion promises of all the patterns. *)
Definition conclusion_ok ps (conclusion : Conclusion C) : Prop :=
  match conclusion with
  | Exhaustive => ∀ v, has_type domain [] ty v → ∃ p, p ∈ ps ∧ matches false p v = true
  | Missing w =>
    ∃ v, has_type domain [] ty v ∧ matches false w v = true ∧ ∀ p, p ∈ ps → matches false p v = false
  | ExhaustivenessError _ => False
  end.

Lemma matches_sure_may A t v p : has_type domain A t v → matches false p v = true → matches true p v = true.
Proof.
  intros Hv. revert p. eapply (has_type_mut domain A
    (λ ty v _, ∀ p, matches false p v = true → matches true p v = true)
    (λ ts vs _, ∀ ps, matches_row false ps vs = true → matches_row true ps vs = true)); [..|exact Hv]; clear.
  - intros t id c fs _ Hc _ IH [|id' ps| |] Hm; try done.
    rewrite matches_constructor in *. apply andb_true_iff in Hm as [-> Hm]. by apply IH.
  - by intros t min max cm z _ Hd _ [| | |] Hm.
  - by intros t _ Ho [| | |] Hm.
  - by intros [|] Hm.
  - intros t ts v vs _ IHv _ IHvs [|p ps] Hm; [done|]. cbn in *. apply andb_true_iff in Hm as [Hp Hm].
    by rewrite IHv, IHvs.
Qed.

Lemma covered_app (m1 m2 : list (list (Pattern C))) vs : covered (m1 ++ m2) vs = covered m1 vs || covered m2 vs.
Proof. apply existsb_app. Qed.

Lemma covered_singleton p v : covered [[p]] [v] = matches false p v.
Proof. unfold covered. cbn. by rewrite orb_false_r, andb_true_r. Qed.

Notation matrix_ok := (Forall (Forall2 (pattern_ok domain) [ty])).

(** The rows are well-typed and match what the earlier patterns match. *)
Definition rows_inv earlier (matrix : list (list (Pattern C))) : Prop :=
  matrix_ok matrix ∧
  ∀ v, has_type domain [] ty v → covered matrix [v] = true ↔ ∃ p, p ∈ earlier ∧ matches false p v = true.

Lemma rows_inv_uncovered earlier matrix v p' :
  rows_inv earlier matrix → has_type domain [] ty v → covered matrix [v] = false → p' ∈ earlier →
  matches false p' v = false.
Proof.
  intros [_ Hinv] Hv Hc Hp. destruct (matches false p' v) eqn:Hm; [|done].
  rewrite (proj2 (Hinv v Hv)) in Hc; [done|]. by exists p'.
Qed.

(** A pattern whose sure matches are covered already adds nothing. *)
Lemma rows_inv_skip earlier matrix p :
  rows_inv earlier matrix →
  (∀ v, has_type domain [] ty v → matches false p v = true → covered matrix [v] = true) →
  rows_inv (earlier ++ [p]) matrix.
Proof.
  intros [Hok Hinv] Hp. split; [done|]. intros v Hv. rewrite (Hinv v Hv). split.
  - intros (p'&Hp'&Hm). exists p'. split; [|done]. apply elem_of_app. by left.
  - intros (p'&[Hp'|Hp'%list_elem_of_singleton]%elem_of_app&Hm); [by exists p'|]. subst p'. by apply (Hinv v Hv), Hp.
Qed.

Lemma rows_inv_push earlier matrix p :
  rows_inv earlier matrix → pattern_ok domain ty p → rows_inv (earlier ++ [p]) (matrix ++ [[p]]).
Proof.
  intros [Hok Hinv] Hp. split.
  { apply Forall_app. split; [done|]. by repeat constructor. }
  intros v Hv. rewrite covered_app, covered_singleton, orb_true_iff, (Hinv v Hv). split.
  - intros [(p'&Hp'&Hm)|Hm]; [exists p'|exists p]; (split; [|done]); apply elem_of_app;
      [by left|right; by left].
  - intros (p'&[Hp'|Hp'%list_elem_of_singleton]%elem_of_app&Hm); [left; by exists p'|subst; by right].
Qed.

Context (Hok : LawfulDomain domain) (weight : T → nat).
Context (Hweight : ∀ ty c, c ∈ constructors (domain ty) → (weights weight (ctor_fields c) ≤ weight ty)%nat).
Context (fuel : nat) (Hfuel : (weight ty + 2 < fuel)%nat).

Lemma useful_witness_rows matrix p :
  matrix_ok matrix → useful_witness domain fuel matrix [p] [ty] = useful_inner domain fuel matrix [p] [ty].
Proof.
  intros Hm. unfold useful_witness, validate_widths. cbn.
  destruct (list_find _ matrix) as [[i row]|] eqn:Hf; [|done].
  apply list_find_Some in Hf as (Hi&Hne&_). exfalso. apply Hne. symmetry.
  apply (Forall2_length (pattern_ok domain) [ty] row). eapply Forall_lookup_1; [exact Hm|exact Hi].
Qed.

Lemma coverage_step earlier matrix p :
  rows_inv earlier matrix →
  ∃ verdict matrix',
    match useful_witness domain fuel matrix [p] [ty] with
    | Done (Some _) => Some (Useful, matrix ++ [[p]])
    | Done None => Some (Unreachable, matrix)
    | Fail error => Some (CoverageError error, matrix)
    | OutOfFuel => None
    end = Some (verdict, matrix') ∧
    verdict_ok earlier p verdict ∧ rows_inv (earlier ++ [p]) matrix'.
Proof.
  intros Hinv. pose proof Hinv as [Hm Hcov]. rewrite useful_witness_rows by done.
  assert (width_ok (length [ty]) matrix) as Hw by (by eapply matrix_ok_width).
  assert (weights weight [ty] + 1 < fuel)%nat as Hf by (cbn; lia).
  pose proof (useful_inner_fueled domain weight Hweight fuel matrix [p] [ty] Hf eq_refl) as Hfueled.
  destruct (useful_inner domain fuel matrix [p] [ty]) as [[w|]|e|] eqn:Hu; [| | |done]; do 2 eexists;
    (split; [done|]); cbn.
  - split.
    + intros Hfree. apply useful_inner_some_uncovered in Hu as (vs&Hvs&Hq&_&Hc); [|done|done|done|cbn; by rewrite Hfree].
      inversion Hvs as [|? ? v ? Hv Hnil]; subst. inversion Hnil; subst. exists v.
      cbn in Hq. rewrite andb_true_r in Hq. split_and!; [done..|]. intros p' Hp'. by eapply rows_inv_uncovered.
    + apply rows_inv_push; [done|]. apply useful_row_ok in Hu; [|done]. by inversion Hu.
  - assert (∀ v, has_type domain [] ty v → matches true p v = true → covered matrix [v] = true) as Hall.
    { intros v Hv Hpv. eapply useful_inner_none_covers; [done|exact Hw|exact Hu| |].
      - by repeat constructor.
      - cbn. by rewrite Hpv. }
    split.
    + intros v Hv Hpv. apply (Hcov v Hv). by apply Hall.
    + apply rows_inv_skip; [done|]. intros v Hv Hpv. apply Hall; [done|]. by eapply matches_sure_may.
  - assert (¬ pattern_ok domain ty p) as Hill.
    { intros Hp. destruct (useful_inner_total domain weight Hweight Hok fuel matrix [p] [ty] Hf Hm) as [r Hr];
        [by repeat constructor|by rewrite Hr in Hu]. }
    assert (∀ v, has_type domain [] ty v → matches true p v = false) as Hnone.
    { intros v Hv. destruct (matches true p v) eqn:Hpv; [|done]. destruct Hill. by eapply matching_pattern_ok. }
    split; [done|]. apply rows_inv_skip; [done|]. intros v Hv Hpv.
    apply (matches_sure_may _ _ _ _ Hv) in Hpv. by rewrite Hnone in Hpv.
Qed.

Lemma coverage_rows_correct earlier matrix ps :
  rows_inv earlier matrix →
  ∃ verdicts matrix', coverage_rows domain fuel ty matrix ps = Some (verdicts, matrix') ∧
    length verdicts = length ps ∧ rows_inv (earlier ++ ps) matrix' ∧
    ∀ i p verdict, ps !! i = Some p → verdicts !! i = Some verdict → verdict_ok (earlier ++ take i ps) p verdict.
Proof.
  revert earlier matrix. induction ps as [|p ps IH]; intros earlier matrix Hinv.
  { exists [], matrix. rewrite app_nil_r. split_and!; [done..|]. by intros i. }
  destruct (coverage_step earlier matrix p Hinv) as (vd&m&Hstep&Hvd&Hinv').
  destruct (IH _ _ Hinv') as (vds&m'&Hrows&Hlen&Hinv''&Hall).
  exists (vd :: vds), m'. cbn [coverage_rows]. rewrite Hstep. cbn [mbind option_bind]. rewrite Hrows.
  rewrite <-app_assoc in Hinv''. split_and!; [done|by cbn; rewrite Hlen|done|].
  intros [|i] p' vd' Hp Hvd'; cbn in *; [simplify_eq; by rewrite app_nil_r|].
  rewrite cons_middle, app_assoc. by apply Hall.
Qed.

Lemma check_exhaustive_correct ps matrix :
  rows_inv ps matrix →
  ∃ conclusion, check_exhaustive domain fuel ty matrix = Some conclusion ∧ conclusion_ok ps conclusion.
Proof.
  intros Hinv. pose proof Hinv as [Hm Hcov]. unfold check_exhaustive, missing_witness.
  rewrite useful_witness_rows by done.
  assert (width_ok (length [ty]) matrix) as Hw by (by eapply matrix_ok_width).
  destruct (useful_inner_total domain weight Hweight Hok fuel matrix [Wildcard] [ty]) as [r Hr];
    [cbn; lia|done|by repeat constructor|]. rewrite Hr. cbn. destruct r as [w|]; cbn.
  - apply useful_inner_some_uncovered in Hr as (vs&Hvs&_&Hwm&Hc); [|done..].
    inversion Hvs as [|? ? v ? Hv Hnil]; subst. inversion Hnil; subst.
    destruct w as [|p [|p' w]]; try done; [|by cbn in Hwm; rewrite andb_false_r in Hwm].
    exists (Missing p). split; [done|]. exists v. cbn in Hwm. rewrite andb_true_r in Hwm.
    split_and!; [done..|]. intros p' Hp'. by eapply rows_inv_uncovered.
  - exists Exhaustive. split; [done|]. intros v Hv. apply (Hcov v Hv).
    eapply useful_inner_none_covers; [done|exact Hw|exact Hr| |done]. by repeat constructor.
Qed.
End correct.

Lemma match_coverage_correct {T C} `{!EqDecision T, !EqDecision C} (domain : T → Domain T C)
    `{!LawfulDomain domain, !FoundedDomain domain} (fuel : nat) (ty : T) (patterns : list (Pattern C)) :
  (weight ty + 2 < fuel)%nat →
  ∃ verdicts conclusion, check_match_coverage domain fuel ty patterns = Some (verdicts, conclusion) ∧
    length verdicts = length patterns ∧
    (∀ i p verdict, patterns !! i = Some p → verdicts !! i = Some verdict →
       verdict_ok domain ty (take i patterns) p verdict) ∧
    conclusion_ok domain ty patterns conclusion.
Proof.
  intros Hf.
  assert (rows_inv domain ty ([] : list (Pattern C)) []) as Hinv.
  { split; [constructor|]. intros v Hv. split; [done|]. by intros (p&?%not_elem_of_nil&_). }
  destruct (coverage_rows_correct domain ty _ weight weight_fields fuel Hf [] [] patterns Hinv)
    as (vds&m&Hrows&Hlen&Hinv'&Hall).
  destruct (check_exhaustive_correct domain ty _ weight weight_fields fuel Hf patterns m Hinv') as (c&Hc&Hcok).
  exists vds, c. unfold check_match_coverage. rewrite Hrows. cbn. by rewrite Hc.
Qed.

(** C22: the match checker is correct: over a type that does not contain itself it
    always finishes, whatever the patterns; a pattern it accepts (one without
    opaque parts) matches a value that no earlier pattern matches, a pattern it
    calls unreachable may only match values that an earlier pattern matches, a
    pattern whose analysis fails is ill-typed and matches no value of the type; and the match is
    accepted exactly when its patterns match every value of the type, a value
    they all miss being described otherwise. *)
Theorem check_match_coverage_correct {T C} `{!EqDecision T, !EqDecision C} (domain : T → Domain T C)
    `{!LawfulDomain domain, !FoundedDomain domain} (fuel : nat) (ty : T) (patterns : list (Pattern C)) :
  (weight ty + 2 < fuel)%nat →
  ∃ verdicts conclusion, check_match_coverage domain fuel ty patterns = Some (verdicts, conclusion) ∧
    length verdicts = length patterns ∧
    (∀ i p verdict, patterns !! i = Some p → verdicts !! i = Some verdict →
       verdict_ok domain ty (take i patterns) p verdict) ∧
    conclusion_ok domain ty patterns conclusion.
Proof. apply match_coverage_correct; assumption. Qed.

(** [None], [Some(_)], then an unreachable [Some(3)]. *)
Lemma check_match_coverage_correct_witness :
  ∃ verdicts conclusion,
    check_match_coverage demo_domain 10 OptionU8
      [PConstructor NoneC []; PConstructor SomeC [Wildcard]; PConstructor SomeC [ScalarRange 3 3]]
      = Some (verdicts, conclusion) ∧
    length verdicts = 3%nat ∧
    (∀ i p verdict,
       [PConstructor NoneC []; PConstructor SomeC [Wildcard]; PConstructor SomeC [ScalarRange 3 3]] !! i = Some p →
       verdicts !! i = Some verdict →
       verdict_ok demo_domain OptionU8
         (take i [PConstructor NoneC []; PConstructor SomeC [Wildcard]; PConstructor SomeC [ScalarRange 3 3]])
         p verdict) ∧
    conclusion_ok demo_domain OptionU8
      [PConstructor NoneC []; PConstructor SomeC [Wildcard]; PConstructor SomeC [ScalarRange 3 3]] conclusion.
Proof.
  apply (check_match_coverage_correct demo_domain). cbn. lia.
Defined.

(** The same arms and an ill-typed one. *)
Example check_match_coverage_demo :
  check_match_coverage demo_domain 10 OptionU8
    [PConstructor NoneC []; PConstructor SomeC [Wildcard]; PConstructor SomeC [ScalarRange 3 3]; ScalarRange 0 0]
  = Some ([Useful; Useful; Unreachable; CoverageError ScalarPatternOutsideScalarDomain], Exhaustive).
Proof. vm_compute. reflexivity. Qed.
