(* ===== verification/PatternAdapter.v ===== *)
(** * nia-body-check: patterns and types for the analysis

    [crates/nia-body-check/src/patterns/analysis.rs]: the domain of a checked
    type ([analysis_domain]) and the normalization of source patterns
    ([analysis_pattern], [analysis_nominal_pattern]); the part of [check_match] of
    [patterns.rs] that asks the analysis, with its guards for recovery types
    ([body_match_coverage], [is_error_recovery_ty]).  The semantic stores they
    read (the type store and its normalization, the signatures, the definition
    tables and the evaluated pattern constants) are the record [PatternStore];
    what the adapter relies on of them is the class [StoreLaws]. *)

From S2P Require Import Prelude RustStd Target Ty PatternAnalysis PatternScalars PatternSemantics PatternValidate.
From S2P Require Import PatternProps PatternDecides MatchCoverage.

(** ** Data *)

Record GlobalDefId := mkDef { module_id : Z; gdef_id : Z }.

#[global] Instance GlobalDefId_eq_dec : EqDecision GlobalDefId.
Proof. solve_decision. Defined.

(** Kinds of types, without the fields that hold no types (identities, names, values of
    const arguments, mutability, calling conventions).  The kinds the checker tells apart
    are the constructors of [TyKind]; the rest of the source's are those of
    [OtherKind]. *)

(** The type arguments, and the types of the const arguments. *)
Record GenericArgs (T : Type) := mkArgs { type_args : list T; const_args : list T }.
Arguments mkArgs {T} _ _.
Arguments type_args {T} _.
Arguments const_args {T} _.

(** An associated type binding of a trait object. *)
Record AssociatedTypeBindingTy (T : Type) := mkBinding { bind_trait_args : GenericArgs T; bind_ty : T }.
Arguments mkBinding {T} _ _.
Arguments bind_trait_args {T} _.
Arguments bind_ty {T} _.

Inductive OtherKind (T : Type) : Type :=
  | OConstOnly | OOpaque | OVector | OBuiltinType | OGenericParam | OSelfParam
  | OVolatilePointer (elem : T)
  | OSlice (elem : T)
  | OSlicePointee (elem : T)
  (** [layout] is the operand of a layout query used as the length. *)
  | OArray (layout : option T) (elem : T)
  | ORange (bound : option T)
  | OFunctionPointer (params : list T) (return_type : T)
  | OFunctionItem (self_arg : option T) (args : GenericArgs T) (params : list T) (return_type : T)
  | OCallable (params : list T) (return_type : T)
  | OCallablePointee (params : list T) (return_type : T)
  (** [owner] is the receiver and the arguments of the owner's instance. *)
  | OClosureState (owner : option (option T * GenericArgs T)) (captures params : list T) (return_type : T)
  | OBuiltinTrait (args : list T)
  | OTraitObject (trait_args : GenericArgs T) (bindings : list (AssociatedTypeBindingTy T))
  | OTraitObjectPointee (trait_args : GenericArgs T) (bindings : list (AssociatedTypeBindingTy T))
  | OProjection (self_ty : T) (trait_args : GenericArgs T).
Arguments OConstOnly {T}.
Arguments OOpaque {T}.
Arguments OVector {T}.
Arguments OBuiltinType {T}.
Arguments OGenericParam {T}.
Arguments OSelfParam {T}.
Arguments OVolatilePointer {T} elem.
Arguments OSlice {T} elem.
Arguments OSlicePointee {T} elem.
Arguments OArray {T} layout elem.
Arguments ORange {T} bound.
Arguments OFunctionPointer {T} params return_type.
Arguments OFunctionItem {T} self_arg args params return_type.
Arguments OCallable {T} params return_type.
Arguments OCallablePointee {T} params return_type.
Arguments OClosureState {T} owner captures params return_type.
Arguments OBuiltinTrait {T} args.
Arguments OTraitObject {T} trait_args bindings.
Arguments OTraitObjectPointee {T} trait_args bindings.
Arguments OProjection {T} self_ty trait_args.

Inductive TyKind (T : Type) : Type :=
  | KPrimitive (p : PrimitiveTy)
  | KTuple (elems : list T)
  | KPointer (is_readonly : bool) (elem : T)
  | KOptional (elem : T)
  | KErrorUnion (error value : T)
  | KNominal (def_id : GlobalDefId) (args : GenericArgs T)
  | KError
  | KOther (kind : OtherKind T).
Arguments KPrimitive {T} p.
Arguments KTuple {T} elems.
Arguments KPointer {T} is_readonly elem.
Arguments KOptional {T} elem.
Arguments KErrorUnion {T} error value.
Arguments KNominal {T} def_id args.
Arguments KError {T}.
Arguments KOther {T} kind.

Definition visit_args {T} (args : GenericArgs T) : list T := type_args args ++ const_args args.

Definition visit_bindings {T} (bindings : list (AssociatedTypeBindingTy T)) : list T :=
  bindings ≫= λ binding, visit_args (bind_trait_args binding) ++ [bind_ty binding].

(** The types in the order in which the source visits them. *)
Definition visit_other_types {T} (kind : OtherKind T) : list T :=
  match kind with
  | OConstOnly | OOpaque | OVector | OBuiltinType | OGenericParam | OSelfParam => []
  | OVolatilePointer elem | OSlice elem | OSlicePointee elem => [elem]
  | OArray layout elem => option_list layout ++ [elem]
  | ORange bound => option_list bound
  | OFunctionPointer params return_type | OCallable params return_type
  | OCallablePointee params return_type => params ++ [return_type]
  | OFunctionItem self_arg args params return_type =>
    option_list self_arg ++ visit_args args ++ params ++ [return_type]
  | OClosureState owner captures params return_type =>
    match owner with
    | Some (self_arg, args) => option_list self_arg ++ visit_args args
    | None => []
    end ++ captures ++ params ++ [return_type]
  | OBuiltinTrait args => args
  | OTraitObject trait_args bindings | OTraitObjectPointee trait_args bindings =>
    visit_args trait_args ++ visit_bindings bindings
  | OProjection self_ty trait_args => self_ty :: visit_args trait_args
  end.

Definition visit_referenced_types {T} (kind : TyKind T) : list T :=
  match kind with
  | KPrimitive _ | KError => []
  | KTuple elems => elems
  | KPointer _ elem | KOptional elem => [elem]
  | KErrorUnion error value => [error; value]
  | KNominal _ args => visit_args args
  | KOther kind => visit_other_types kind
  end.

(** Signatures, without the parts the adapter does not read (definition identities
    of fields, generics, the backing type, names of variants, spans). *)
Record FieldSignature (T : Type) := mkFieldSig { fs_name : Z; fs_ty : T }.
Arguments mkFieldSig {T} fs_name fs_ty.
Arguments fs_name {T} _.
Arguments fs_ty {T} _.

Inductive EnumVariantPayloadSignature (T : Type) : Type :=
  | PayloadUnit
  | PayloadTuple (fields : list T)
  | PayloadNamed (fields : list (FieldSignature T)).
Arguments PayloadUnit {T}.
Arguments PayloadTuple {T} fields.
Arguments PayloadNamed {T} fields.

Record EnumVariantSignature (T : Type) := mkVariantSig {
  vs_def_id : Z;
  vs_payload : EnumVariantPayloadSignature T;
}.
Arguments mkVariantSig {T} vs_def_id vs_payload.
Arguments vs_def_id {T} _.
Arguments vs_payload {T} _.

Record EnumSignature (T : Type) := mkEnumSig {
  is_open : bool;
  variants : list (EnumVariantSignature T);
}.
Arguments mkEnumSig {T} is_open variants.
Arguments is_open {T} _.
Arguments variants {T} _.

Record StructSignature (T : Type) := mkStructSig {
  ss_fields : list (FieldSignature T);
  is_tuple : bool;
}.
Arguments mkStructSig {T} ss_fields is_tuple.
Arguments ss_fields {T} _.
Arguments is_tuple {T} _.

Inductive PatternConstructor : Type :=
  | CTuple
  | CPointer (is_readonly : bool)
  | COptionalSome
  | COptionalNull
  | CErrorOk
  | CErrorErr
  | CStruct (def_id : GlobalDefId)
  | CEnumVariant (def_id : GlobalDefId).

#[global] Instance PatternConstructor_eq_dec : EqDecision PatternConstructor.
Proof. solve_decision. Defined.

(** Source patterns over expressions [E], without the names, node keys and spans
    that the adapter does not read; [P] is what stands for a sub-pattern. *)
Record NamedPatternField (P : Type) := mkNamedField { npf_name : Z; npf_pattern : P }.
Arguments mkNamedField {P} npf_name npf_pattern.
Arguments npf_name {P} _.
Arguments npf_pattern {P} _.

Inductive NominalPatternFields (P : Type) : Type :=
  | FTuple (fields : list P)
  | FNamed (fields : list (NamedPatternField P)) (rest : bool).
Arguments FTuple {P} fields.
Arguments FNamed {P} fields rest.

Inductive PatternKind (E : Type) : Type :=
  | AWildcard
  | ABind
  | APointer (inner : PatternKind E)
  | AMutPointer (inner : PatternKind E)
  | AOptionalSome (inner : PatternKind E)
  | AOptionalNull
  | AErrorOk (inner : PatternKind E)
  | AErrorErr (inner : PatternKind E)
  | ATuple (patterns : list (PatternKind E))
  | ANominal (constructor : E) (fields : NominalPatternFields (PatternKind E))
  | AExpr (expr : E)
  | ARange (start end_ : E) (inclusive : bool).
Arguments AWildcard {E}.
Arguments ABind {E}.
Arguments APointer {E} inner.
Arguments AMutPointer {E} inner.
Arguments AOptionalSome {E} inner.
Arguments AOptionalNull {E}.
Arguments AErrorOk {E} inner.
Arguments AErrorErr {E} inner.
Arguments ATuple {E} patterns.
Arguments ANominal {E} constructor fields.
Arguments AExpr {E} expr.
Arguments ARange {E} start end_ inclusive.

(** The stores of the body checker. *)
Record PatternStore (T E : Type) := mkStore {
  normalize : T → T;
  (** The ids of the interner, and the kind of each. *)
  interned : list T;
  interner_get : T → option (TyKind T);
  target : TargetConfig;
  resolved_enum_signature : GlobalDefId → option (EnumSignature T);
  resolved_struct_signature : GlobalDefId → option (StructSignature T);
  is_enum_def : GlobalDefId → bool;
  (** The parent of a definition. *)
  def_parent : GlobalDefId → option Z;
  field_ty_for_aggregate_ty : T → Z → option T;
  enum_variant_info : E → option (GlobalDefId * Z);
  omitted_enum_variant_info : E → T → option (GlobalDefId * Z);
  (** The nominal type a constructor expression names. *)
  type_prefix_instance : E → option GlobalDefId;
  node_pattern_values : E → option Z;
}.
Arguments normalize {T E} _ _.
Arguments interned {T E} _.
Arguments interner_get {T E} _ _.
Arguments target {T E} _.
Arguments resolved_enum_signature {T E} _ _.
Arguments resolved_struct_signature {T E} _ _.
Arguments is_enum_def {T E} _ _.
Arguments def_parent {T E} _ _.
Arguments field_ty_for_aggregate_ty {T E} _ _ _.
Arguments enum_variant_info {T E} _ _.
Arguments omitted_enum_variant_info {T E} _ _ _.
Arguments type_prefix_instance {T E} _ _.
Arguments node_pattern_values {T E} _ _.

Section adapter.
Context {T E : Type}.
Context (store : PatternStore T E).
Notation APattern := (Pattern PatternConstructor).
Notation ADomain := (Domain T PatternConstructor).

Definition ty_kind (ty : T) : option (TyKind T) := interner_get store (normalize store ty).

Definition enum_global_def_id (ty : T) : option GlobalDefId :=
  match ty_kind ty with
  | Some (KNominal def_id _) => if is_enum_def store def_id then Some def_id else None
  | _ => None
  end.

Definition resolved_enum_variant (variant_id : GlobalDefId) :
    option (GlobalDefId * EnumVariantSignature T) :=
  enum_def ← def_parent store variant_id;
  let enum_id := mkDef (module_id variant_id) enum_def in
  signature ← resolved_enum_signature store enum_id;
  '(_, variant) ← list_find (λ variant, vs_def_id variant = gdef_id variant_id) (variants signature);
  Some (enum_id, variant).

(** ** The domain of a type *)

Definition payload_types (payload : EnumVariantPayloadSignature T) : list T :=
  match payload with
  | PayloadUnit => []
  | PayloadTuple fields => fields
  | PayloadNamed fields => fs_ty <$> fields
  end.

Definition variant_constructor (def_id : GlobalDefId) (variant : EnumVariantSignature T) :
    Constructor T PatternConstructor :=
  mkConstructor (CEnumVariant (mkDef (module_id def_id) (vs_def_id variant))) (payload_types (vs_payload variant)).

(** The interval of an integer type, and whether [i128] represents all of it. *)
Definition integer_domain (p : PrimitiveTy) : ADomain :=
  let bits := default 128 (integer_bits p (pointer_width (target store))) in
  if is_signed_integer p && (128 <=? bits) then Scalar i128_min i128_max true
  else if is_signed_integer p then
    let magnitude := Z.shiftl 1 (bits - 1) in Scalar (- magnitude) (magnitude - 1) true
  else if 128 <=? bits then Scalar 0 i128_max false
  else Scalar 0 (Z.shiftl 1 bits - 1) true.

Definition analysis_domain (target_ty : T) : ADomain :=
  match ty_kind target_ty with
  | Some (KTuple fields) => Finite [mkConstructor CTuple fields]
  | Some (KPointer is_readonly elem) => Finite [mkConstructor (CPointer is_readonly) [elem]]
  | Some (KOptional elem) => Finite [mkConstructor COptionalNull []; mkConstructor COptionalSome [elem]]
  | Some (KErrorUnion error value) => Finite [mkConstructor CErrorOk [value]; mkConstructor CErrorErr [error]]
  | Some (KPrimitive Bool) => Scalar 0 1 true
  | Some (KPrimitive primitive) =>
    if is_integer primitive then integer_domain primitive
    else match primitive with Never => Finite [] | _ => DOpaque end
  | Some (KNominal def_id _) =>
    match resolved_enum_signature store def_id with
    | Some signature =>
      let constructors := variant_constructor def_id <$> variants signature in
      if is_open signature then Open constructors else Finite constructors
    | None =>
      match resolved_struct_signature store def_id with
      | Some signature =>
        match mapM (λ field, field_ty_for_aggregate_ty store target_ty (fs_name field)) (ss_fields signature) with
        | Some fields => Finite [mkConstructor (CStruct def_id) fields]
        | None => DOpaque
        end
      | None => DOpaque
      end
    end
  | Some KError | Some (KOther _) | None => DOpaque
  end.

(** ** Normalization of patterns *)

(** A sub-pattern waits for the type of its position. *)
Notation thunk := (T → APattern).

Definition apply_thunks (patterns : list thunk) (types : list T) : list APattern :=
  zip_with (λ pattern ty, pattern ty) patterns types.

(** The named fields are declared, each is named once, and without [..] none of
    the declared ones is left out. *)
Definition named_fields_ok {P} (expected : list Z) (actual : list (NamedPatternField P)) (rest : bool) : bool :=
  forallb (λ a, existsb (λ name, npf_name a =? name) expected) actual
  && forallb (λ a, length (filter (λ other, npf_name other = npf_name a) actual) =? 1)%nat actual
  && (rest || forallb (λ name, existsb (λ a, npf_name a =? name) actual) expected).

(** The pattern of a declared field, a wildcard when it is left out. *)
Definition named_field_pattern (actual : list (NamedPatternField thunk)) (name : Z) (ty : T) : APattern :=
  match list_find (λ a, npf_name a = name) actual with
  | Some (_, a) => npf_pattern a ty
  | None => Wildcard
  end.

Definition payload_patterns (payload : EnumVariantPayloadSignature T) (fields : NominalPatternFields thunk) :
    option (list APattern) :=
  match payload, fields with
  | PayloadTuple expected, FTuple actual =>
    if (length expected =? length actual)%nat then Some (apply_thunks actual expected) else None
  | PayloadNamed expected, FNamed actual rest =>
    if named_fields_ok (fs_name <$> expected) actual rest
    then Some ((λ field, named_field_pattern actual (fs_name field) (fs_ty field)) <$> expected)
    else None
  | _, _ => None
  end.

(** The variant an expression names, in full or with the enum left out. *)
Definition variant_info (expr : E) (target_ty : T) : option (GlobalDefId * Z) :=
  match enum_variant_info store expr with
  | Some info => Some info
  | None => omitted_enum_variant_info store expr target_ty
  end.

Definition struct_patterns (target_ty : T) (signature : StructSignature T)
    (fields : NominalPatternFields thunk) : option (list APattern) :=
  match fields with
  | FTuple actual =>
    if negb (is_tuple signature) then None
    else if negb (length actual =? length (ss_fields signature))%nat then None
    else
      types ← mapM (λ field, field_ty_for_aggregate_ty store target_ty (fs_name field)) (ss_fields signature);
      Some (apply_thunks actual types)
  | FNamed actual rest =>
    if is_tuple signature then None
    else if negb (named_fields_ok (fs_name <$> ss_fields signature) actual rest) then None
    else
      mapM (λ field,
        ty ← field_ty_for_aggregate_ty store target_ty (fs_name field);
        Some (named_field_pattern actual (fs_name field) ty)) (ss_fields signature)
  end.

Definition analysis_nominal_pattern (constructor : E) (fields : NominalPatternFields thunk)
    (target_ty : T) : APattern :=
  match variant_info constructor target_ty with
  | Some (enum_id, variant_def) =>
    if bool_decide (enum_global_def_id target_ty = Some enum_id) then
      let variant_id := mkDef (module_id enum_id) variant_def in
      match resolved_enum_variant variant_id with
      | Some (_, variant) =>
        match payload_patterns (vs_payload variant) fields with
        | Some normalized_fields => PConstructor (CEnumVariant variant_id) normalized_fields
        | None => POpaque
        end
      | None => POpaque
      end
    else POpaque
  | None =>
    match type_prefix_instance store constructor, ty_kind target_ty with
    | Some constructor_def, Some (KNominal def_id _) =>
      if bool_decide (def_id = constructor_def) then
        match resolved_struct_signature store def_id with
        | Some signature =>
          match struct_patterns target_ty signature fields with
          | Some normalized_fields => PConstructor (CStruct def_id) normalized_fields
          | None => POpaque
          end
        | None => POpaque
        end
      else POpaque
    | _, _ => POpaque
    end
  end.

(** The unit of a variant that an expression pattern names. *)
Definition expr_variant_pattern (expr : E) (target_ty : T) : option APattern :=
  '(enum_id, variant_def) ← variant_info expr target_ty;
  if bool_decide (enum_global_def_id target_ty = Some enum_id) then
    '(_, variant) ← resolved_enum_variant (mkDef (module_id enum_id) variant_def);
    Some (PConstructor (CEnumVariant (mkDef (module_id enum_id) variant_def))
      (replicate (length (payload_types (vs_payload variant))) Wildcard))
  else None.

Definition scalar_pattern (target_ty : T) (start end_ : Z) : APattern :=
  match analysis_domain target_ty with
  | Scalar min max _ => if (min <=? start) && (end_ <=? max) then ScalarRange start end_ else POpaque
  | _ => POpaque
  end.

Definition range_pattern (start end_ : E) (inclusive : bool) (target_ty : T) : APattern :=
  match ty_kind target_ty with
  | Some (KPrimitive primitive) =>
    if is_integer primitive then
      match node_pattern_values store start, node_pattern_values store end_ with
      | Some start, Some end_ =>
        match (if inclusive then Some end_ else checked i128_min i128_max (end_ - 1)) with
        | Some end_ => if end_ <? start then POpaque else scalar_pattern target_ty start end_
        | None => POpaque
        end
      | _, _ => POpaque
      end
    else POpaque
  | _ => POpaque
  end.

Fixpoint analysis_pattern (pattern : PatternKind E) (target_ty : T) {struct pattern} : APattern :=
  match pattern with
  | AWildcard | ABind => Wildcard
  | APointer inner =>
    match ty_kind target_ty with
    | Some (KPointer true elem) => PConstructor (CPointer true) [analysis_pattern inner elem]
    | _ => POpaque
    end
  | AMutPointer inner =>
    match ty_kind target_ty with
    | Some (KPointer false elem) => PConstructor (CPointer false) [analysis_pattern inner elem]
    | _ => POpaque
    end
  | AOptionalSome inner =>
    match ty_kind target_ty with
    | Some (KOptional elem) => PConstructor COptionalSome [analysis_pattern inner elem]
    | _ => POpaque
    end
  | AOptionalNull => PConstructor COptionalNull []
  | AErrorOk inner =>
    match ty_kind target_ty with
    | Some (KErrorUnion _ value) => PConstructor CErrorOk [analysis_pattern inner value]
    | _ => POpaque
    end
  | AErrorErr inner =>
    match ty_kind target_ty with
    | Some (KErrorUnion error _) => PConstructor CErrorErr [analysis_pattern inner error]
    | _ => POpaque
    end
  | ATuple patterns =>
    match ty_kind target_ty with
    | Some (KTuple elems) =>
      if (length patterns =? length elems)%nat
      then PConstructor CTuple (apply_thunks (map analysis_pattern patterns) elems)
      else POpaque
    | _ => POpaque
    end
  | ANominal constructor fields =>
    analysis_nominal_pattern constructor
      match fields with
      | FTuple ps => FTuple (map analysis_pattern ps)
      | FNamed fs rest =>
        FNamed (map (λ fld, mkNamedField (npf_name fld) (analysis_pattern (npf_pattern fld))) fs) rest
      end target_ty
  | AExpr expr =>
    match expr_variant_pattern expr target_ty with
    | Some pattern => pattern
    | None =>
      match node_pattern_values store expr with
      | Some value => scalar_pattern target_ty value value
      | None => POpaque
      end
    end
  | ARange start end_ inclusive => range_pattern start end_ inclusive target_ty
  end.

(** ** Recovery types *)

Definition is_error_ty (ty : T) : bool :=
  match interner_get store ty with Some KError => true | _ => false end.

Definition referenced_types (ty : T) : list T :=
  match interner_get store ty with Some kind => visit_referenced_types kind | None => [] end.

Context `{!EqDecision T}.

(** The loop of [is_error_recovery_ty], with the top of [pending] first. *)
Fixpoint recovery_loop (fuel : nat) (seen pending : list T) : option bool :=
  match pending with
  | [] => Some false
  | current :: pending =>
    match fuel with
    | O => None
    | S fuel =>
      let current := normalize store current in
      if bool_decide (current ∈ seen) then recovery_loop fuel seen pending
      else if is_error_ty current then Some true
      else recovery_loop fuel (current :: seen) (rev (referenced_types current) ++ pending)
    end
  end.

(** Every interned type pushes its references once. *)
Definition recovery_fuel : nat := S (sum_list_with (λ ty, length (referenced_types ty)) (interned store)).

Definition is_error_recovery_ty (ty : T) : bool :=
  default true (recovery_loop recovery_fuel [] [ty]).

(** ** The checker *)

(** What [check_match] says of the coverage of a match: nothing for a recovery type,
    else a verdict per pattern and a conclusion. *)
Inductive MatchCheck : Type :=
  | Skipped
  | Checked (verdicts : list Verdict) (conclusion : Conclusion PatternConstructor).

Definition body_match_coverage (fuel : nat) (target_ty : T) (arms : list (list (PatternKind E))) :
    option MatchCheck :=
  if is_error_recovery_ty target_ty then Some Skipped
  else
    '(verdicts, conclusion) ← check_match_coverage analysis_domain fuel target_ty
      ((λ pattern, analysis_pattern pattern target_ty) <$> concat arms);
    Some (Checked verdicts conclusion).
End adapter.
