(* ===== verification/PatternAdapterProps.v ===== *)
(** * nia-body-check: the adapter keeps the promises of the analysis

    The domains of checked types are lawful and have exactly the values that the
    stores give the types, the normalized patterns are patterns of their types and
    match exactly the values that the source patterns match, the guard for recovery
    types is exact, and the match checker is therefore correct on source patterns. *)

From stdpp Require Import sets relations.
From S2P Require Import Prelude RustStd Target Ty PatternAnalysis PatternScalars PatternSemantics PatternValidate.
From S2P Require Import PatternProps PatternDecides MatchCoverage PatternAdapter.

(** What the adapter relies on of the stores: the definition of an enum has an enum
    signature, and what has one has no struct signature; the variants of an enum are distinct
    definitions; the variants found by name are children of their enum; the interner
    knows the types it has a kind for; and pattern constants are [i128]s. *)
Class StoreLaws {T E} (store : PatternStore T E) : Prop := {
  enum_def_signature d :
    is_enum_def store d = true → is_Some (resolved_enum_signature store d);
  enum_variants_distinct d signature :
    resolved_enum_signature store d = Some signature → NoDup (vs_def_id <$> variants signature);
  enum_not_struct d :
    is_Some (resolved_enum_signature store d) → resolved_struct_signature store d = None;
  variant_info_parent e enum_id v :
    enum_variant_info store e = Some (enum_id, v) → def_parent store (mkDef (module_id enum_id) v) = Some (gdef_id enum_id);
  omitted_info_parent e ty enum_id v :
    omitted_enum_variant_info store e ty = Some (enum_id, v) →
    def_parent store (mkDef (module_id enum_id) v) = Some (gdef_id enum_id);
  interner_domain ty kind : interner_get store ty = Some kind → ty ∈ interned store;
  pattern_value_range e z : node_pattern_values store e = Some z → i128_min ≤ z ≤ i128_max;
}.

Section laws.
Context {T E : Type} (store : PatternStore T E) `{!StoreLaws store}.
Implicit Types (ty : T).

(** ** Domains *)

Lemma pointer_width_cases : pointer_width (target store) = 32 ∨ pointer_width (target store) = 64.
Proof. unfold pointer_width. destruct (arch (target store)); [by left|by right..]. Qed.

(** The domain of an integer type is the range of its values; the values of an
    unsigned 128-bit type above [i128::MAX] are left to the wildcard. *)
Lemma integer_domain_range p b :
  is_integer p = true → integer_bits p (pointer_width (target store)) = Some b →
  1 ≤ b ≤ 128 ∧
  integer_domain store p =
    if (b =? 128) && negb (is_signed_integer p) then Scalar 0 i128_max false
    else Scalar (if is_signed_integer p then - 2 ^ (b - 1) else 0)
      (if is_signed_integer p then 2 ^ (b - 1) - 1 else 2 ^ b - 1) true.
Proof.
  intros Hp Hb. unfold integer_domain. rewrite Hb.
  destruct pointer_width_cases as [Hw|Hw]; rewrite Hw in Hb;
    destruct p; try done; injection Hb as <-; (split; [lia|]); reflexivity.
Qed.

Lemma integer_bits_Some p w : is_integer p = true → is_Some (integer_bits p w).
Proof. destruct p; try done; cbn; by eexists. Qed.

Lemma integer_domain_ok p : is_integer p = true → domain_ok (integer_domain store p).
Proof.
  intros Hp. destruct (integer_bits_Some p (pointer_width (target store)) Hp) as [b Hb].
  unfold integer_domain. rewrite Hb.
  destruct pointer_width_cases as [Hw|Hw]; rewrite Hw in Hb;
    destruct p; try done; injection Hb as <-; vm_compute; (split; [done|by intros]).
Qed.

#[global] Instance analysis_domain_lawful : LawfulDomain (analysis_domain store).
Proof.
  intros ty. unfold analysis_domain. destruct (ty_kind store ty) as [[p|elems|ro elem|elem|er va|d args| |refs]|]; try done.
  - destruct (is_integer p) eqn:Hp; [|by destruct p; try done; try (cbn; constructor)].
    destruct p; try done; by apply integer_domain_ok.
  - apply NoDup_singleton.
  - apply NoDup_singleton.
  - by apply (bool_decide_unpack _).
  - by apply (bool_decide_unpack _).
  - destruct (resolved_enum_signature store d) as [signature|] eqn:Hs.
    + assert (NoDup (ctor_id <$> (variant_constructor d <$> variants signature))) as Hnd.
      { assert (ctor_id <$> (variant_constructor d <$> variants signature) =
          (λ i, CEnumVariant (mkDef (module_id d) i)) <$> (vs_def_id <$> variants signature)) as ->
          by (by rewrite <-!list_fmap_compose).
        apply NoDup_fmap_2; [by intros ?? [=]|by eapply enum_variants_distinct]. }
      by destruct (is_open signature).
    + destruct (resolved_struct_signature store d); [|done]. case_match; [apply NoDup_singleton|done].
Qed.

(** ** Patterns *)

Notation pattern_ok := (pattern_ok (analysis_domain store)).
Notation row_ok := (Forall2 pattern_ok).

(** A sub-pattern that is a pattern of whatever type its position has. *)
Definition thunk_ok (f : T → Pattern PatternConstructor) : Prop := ∀ ty, pattern_ok ty (f ty).

Lemma apply_thunks_ok thunks ts : Forall thunk_ok thunks → length thunks = length ts → row_ok ts (apply_thunks thunks ts).
Proof.
  intros H. revert ts. induction H as [|f thunks Hf H IH]; intros [|ty ts] Hlen; try done.
  injection Hlen as Hlen. constructor; [apply Hf|by apply IH].
Qed.

Lemma named_field_ok actual name ty :
  Forall (λ a, thunk_ok (npf_pattern a)) actual → pattern_ok ty (named_field_pattern actual name ty).
Proof.
  intros H. unfold named_field_pattern. destruct (list_find _ actual) as [[i a]|] eqn:Hf; [|constructor].
  apply list_find_Some in Hf as (Hi&_&_). by eapply (Forall_lookup_1 _ _ _ _ H Hi).
Qed.

Definition fields_ok (fields : NominalPatternFields (T → Pattern PatternConstructor)) : Prop :=
  match fields with
  | FTuple thunks => Forall thunk_ok thunks
  | FNamed actual _ => Forall (λ a, thunk_ok (npf_pattern a)) actual
  end.

Lemma payload_patterns_ok payload fields ps :
  fields_ok fields → payload_patterns payload fields = Some ps → row_ok (payload_types payload) ps.
Proof.
  intros Hok. destruct payload as [|ts|fs], fields as [thunks|actual rest]; try done; cbn.
  - destruct (length ts =? length thunks)%nat eqn:Hl; [|done]. apply Nat.eqb_eq in Hl. intros [= <-].
    by apply apply_thunks_ok.
  - destruct (named_fields_ok _ _ _); [|done]. intros [= <-]. apply Forall2_fmap, Forall_Forall2_diag.
    apply Forall_forall. intros f _. by apply named_field_ok.
Qed.

Lemma struct_patterns_ok ty signature fields ps :
  fields_ok fields → struct_patterns store ty signature fields = Some ps →
  ∃ ts, mapM (λ field, field_ty_for_aggregate_ty store ty (fs_name field)) (ss_fields signature) = Some ts ∧
    row_ok ts ps.
Proof.
  intros Hok. destruct fields as [thunks|actual rest]; cbn.
  - destruct (is_tuple signature); [|done]. cbn.
    destruct (length thunks =? length (ss_fields signature))%nat eqn:Hl; [|done]. apply Nat.eqb_eq in Hl. cbn.
    destruct (mapM _ _) as [ts|] eqn:Hts; [|done]. cbn. intros [= <-]. exists ts. split; [done|].
    apply apply_thunks_ok; [done|]. by rewrite Hl, (length_mapM _ _ _ Hts).
  - destruct (is_tuple signature); [done|]. destruct (named_fields_ok _ _ _); [|done]. cbn.
    generalize (ss_fields signature). intros fs. revert ps. induction fs as [|f fs IH]; intros ps; cbn.
    { intros [= <-]. exists []. split; [done|constructor]. }
    destruct (field_ty_for_aggregate_ty store ty (fs_name f)) as [t|]; [|done]. cbn.
    destruct (mapM _ fs) as [ps'|] eqn:Hps; [|done]. cbn. intros [= <-].
    destruct (IH ps' eq_refl) as (ts&Hts&Hrow). exists (t :: ts). rewrite Hts. split; [done|].
    constructor; [by apply named_field_ok|done].
Qed.

Lemma variant_info_def_parent e ty enum_id v :
  variant_info store e ty = Some (enum_id, v) → def_parent store (mkDef (module_id enum_id) v) = Some (gdef_id enum_id).
Proof.
  unfold variant_info. destruct (enum_variant_info store e) as [i|] eqn:He.
  - intros [= ->]. by eapply variant_info_parent.
  - apply omitted_info_parent.
Qed.

(** A resolved variant is a constructor of the domain of its enum. *)
Lemma variant_constructor_found e ty enum_id v eid variant :
  variant_info store e ty = Some (enum_id, v) → enum_global_def_id store ty = Some enum_id →
  resolved_enum_variant store (mkDef (module_id enum_id) v) = Some (eid, variant) →
  find_constructor (analysis_domain store ty) (CEnumVariant (mkDef (module_id enum_id) v)) =
    Done (variant_constructor enum_id variant).
Proof.
  intros Hinfo Henum Hvar. apply variant_info_def_parent in Hinfo.
  unfold resolved_enum_variant in Hvar. rewrite Hinfo in Hvar. cbn in Hvar.
  unfold enum_global_def_id in Henum. destruct (ty_kind store ty) as [[| | | | |d args| |]|] eqn:Hk; try done.
  destruct (is_enum_def store d) eqn:Hd; [|done]. injection Henum as ->.
  destruct enum_id as [m g]; cbn in *.
  destruct (resolved_enum_signature store (mkDef m g)) as [signature|] eqn:Hs; [|done]. cbn in Hvar.
  destruct (list_find _ _) as [[i vr]|] eqn:Hf; [|done]. injection Hvar as _ ->.
  apply list_find_Some in Hf as (Hi&Hid&_).
  pose proof (lawful (LawfulDomain:=analysis_domain_lawful) ty) as Hok.
  assert (analysis_domain store ty = if is_open signature
    then Open (variant_constructor (mkDef m g) <$> variants signature)
    else Finite (variant_constructor (mkDef m g) <$> variants signature)) as Hdom.
  { unfold analysis_domain. by rewrite Hk, Hs. }
  rewrite Hdom in Hok |- *. rewrite <-Hid.
  change (CEnumVariant _) with (ctor_id (variant_constructor (mkDef m g) variant)).
  eapply find_constructor_self with (cs := variant_constructor (mkDef m g) <$> variants signature).
  - destruct (is_open signature); [by right|by left].
  - by destruct (is_open signature).
  - apply list_elem_of_fmap. exists variant. split; [done|]. by eapply list_elem_of_lookup_2.
Qed.

Lemma analysis_nominal_ok e fields ty :
  fields_ok fields → pattern_ok ty (analysis_nominal_pattern store e fields ty).
Proof.
  intros Hok. unfold analysis_nominal_pattern.
  destruct (variant_info store e ty) as [[enum_id v]|] eqn:Hinfo.
  - case_bool_decide as Henum; [|constructor].
    destruct (resolved_enum_variant store _) as [[eid variant]|] eqn:Hvar; [|constructor].
    destruct (payload_patterns _ _) as [ps|] eqn:Hps; [|constructor].
    eapply ok_constructor; [by eapply variant_constructor_found|]. by eapply payload_patterns_ok.
  - destruct (type_prefix_instance store e) as [cd|]; [|constructor].
    destruct (ty_kind store ty) as [[| | | | |d args| |]|] eqn:Hk; try constructor.
    case_bool_decide; [|constructor].
    destruct (resolved_struct_signature store d) as [signature|] eqn:Hs; [|constructor].
    destruct (struct_patterns _ _ _ _) as [ps|] eqn:Hps; [|constructor].
    destruct (struct_patterns_ok _ _ _ _ Hok Hps) as (ts&Hts&Hrow).
    eapply ok_constructor with (c := mkConstructor (CStruct d) ts); [|done].
    assert (resolved_enum_signature store d = None) as Hnone.
    { destruct (resolved_enum_signature store d) eqn:He; [|done].
      rewrite (enum_not_struct d) in Hs; [done|]. rewrite He. by eexists. }
    unfold analysis_domain. rewrite Hk, Hnone, Hs, Hts. cbn. by rewrite decide_True.
Qed.

Lemma expr_variant_ok e ty p : expr_variant_pattern store e ty = Some p → pattern_ok ty p.
Proof.
  unfold expr_variant_pattern. destruct (variant_info store e ty) as [[enum_id v]|] eqn:Hinfo; [|done]. cbn.
  case_bool_decide as Henum; [|done].
  destruct (resolved_enum_variant store _) as [[eid variant]|] eqn:Hvar; [|done]. cbn. intros [= <-].
  eapply ok_constructor; [by eapply variant_constructor_found|]. apply wildcards_ok.
Qed.

Lemma scalar_pattern_ok ty s e : pattern_ok ty (scalar_pattern store ty s e).
Proof.
  unfold scalar_pattern. destruct (analysis_domain store ty) eqn:Hd; try constructor.
  destruct (_ && _); [|constructor]. by eapply ok_scalar.
Qed.
End laws.

(** ** Induction on source patterns *)

Section pattern_ind.
Context {E : Type} (P : PatternKind E → Prop).

Definition all_fields (fields : NominalPatternFields (PatternKind E)) : Prop :=
  match fields with
  | FTuple ps => Forall P ps
  | FNamed fs _ => Forall (λ f, P (npf_pattern f)) fs
  end.

Context (Hleaf : ∀ p, match p with
  | AWildcard | ABind | AOptionalNull | AExpr _ | ARange _ _ _ => P p | _ => True end).
Context (Hinner : ∀ p, match p with
  | APointer q | AMutPointer q | AOptionalSome q | AErrorOk q | AErrorErr q => P q → P p | _ => True end).
Context (Htuple : ∀ ps, Forall P ps → P (ATuple ps)).
Context (Hnominal : ∀ c fields, all_fields fields → P (ANominal c fields)).

Fixpoint pattern_kind_ind (p : PatternKind E) : P p :=
  let list_ind := fix go (ps : list (PatternKind E)) : Forall P ps :=
    match ps with [] => Forall_nil_2 P | p :: ps => Forall_cons_2 P p ps (pattern_kind_ind p) (go ps) end in
  match p with
  | AWildcard => Hleaf AWildcard
  | ABind => Hleaf ABind
  | APointer q => Hinner (APointer q) (pattern_kind_ind q)
  | AMutPointer q => Hinner (AMutPointer q) (pattern_kind_ind q)
  | AOptionalSome q => Hinner (AOptionalSome q) (pattern_kind_ind q)
  | AOptionalNull => Hleaf AOptionalNull
  | AErrorOk q => Hinner (AErrorOk q) (pattern_kind_ind q)
  | AErrorErr q => Hinner (AErrorErr q) (pattern_kind_ind q)
  | ATuple ps => Htuple ps (list_ind ps)
  | ANominal c fields =>
    Hnominal c fields
      match fields with
      | FTuple ps => list_ind ps
      | FNamed fs _ =>
        (fix go (fs : list (NamedPatternField (PatternKind E))) : Forall (λ f, P (npf_pattern f)) fs :=
           match fs with
           | [] => Forall_nil_2 _
           | f :: fs => Forall_cons_2 _ f fs (pattern_kind_ind (npf_pattern f)) (go fs)
           end) fs
      end
  | AExpr e => Hleaf (AExpr e)
  | ARange s e i => Hleaf (ARange s e i)
  end.
End pattern_ind.

(** A pattern without [null]. *)
Fixpoint null_free {E} (p : PatternKind E) : bool :=
  match p with
  | APointer q | AMutPointer q | AOptionalSome q | AErrorOk q | AErrorErr q => null_free q
  | AOptionalNull => false
  | ATuple ps => forallb null_free ps
  | ANominal _ (FTuple ps) => forallb null_free ps
  | ANominal _ (FNamed fs _) => forallb (λ f, null_free (npf_pattern f)) fs
  | _ => true
  end.

Section patterns.
Context {T E : Type} (store : PatternStore T E) `{!StoreLaws store}.

Lemma Forall_null_free {A} (f : A → PatternKind E) (Q : A → Prop) (l : list A) :
  Forall (λ a, null_free (f a) = true → Q a) l → forallb (λ a, null_free (f a)) l = true → Forall Q l.
Proof.
  induction 1 as [|a l Ha Hl IH]; [constructor|]. cbn. intros [H1 H2]%andb_true_iff. constructor; auto.
Qed.

Lemma null_free_pattern_ok p :
  null_free p = true → thunk_ok store (analysis_pattern store p).
Proof.
  refine (pattern_kind_ind (λ p, null_free p = true → thunk_ok store (analysis_pattern store p)) _ _ _ _ p); clear p;
    [intros p|intros p|intros ps IH|intros c fields IH].
  - destruct p as [| | | | | | | | | |e|s e i]; try done; intros Hn ty; cbn; try done; try constructor.
    + destruct (expr_variant_pattern store e ty) eqn:He; [by eapply expr_variant_ok|].
      destruct (node_pattern_values store e); [apply scalar_pattern_ok|constructor].
    + unfold range_pattern. destruct (ty_kind store ty) as [[p| | | | | | |]|]; try constructor.
      destruct (is_integer p); [|constructor].
      destruct (node_pattern_values store s), (node_pattern_values store e); try constructor.
      destruct (if i then _ else _) as [hi|]; [|constructor].
      destruct (_ <? _); [constructor|apply scalar_pattern_ok].
  - destruct p as [| |q|q|q| |q|q| | | |]; try done; intros IH Hn ty; cbn; specialize (IH Hn);
      (destruct (ty_kind store ty) as [[| |ro t|t|er va| | |]|] eqn:Hk; try constructor);
      try (destruct ro; try constructor);
      (eapply ok_constructor; [unfold analysis_domain; by rewrite Hk|]); repeat constructor; apply IH.
  - intros Hn ty. cbn in Hn |- *. destruct (ty_kind store ty) as [[|ts| | | | | |]|] eqn:Hk; try constructor.
    destruct (length ps =? length ts)%nat eqn:Hl; [|constructor]. apply Nat.eqb_eq in Hl.
    eapply ok_constructor; [unfold analysis_domain; by rewrite Hk|]. apply apply_thunks_ok.
    + apply Forall_fmap. by apply (Forall_null_free id).
    + by rewrite length_map.
  - intros Hn ty. cbn. apply analysis_nominal_ok; [done|]. destruct fields as [ps|fs rest]; cbn in *; apply Forall_fmap.
    + by apply (Forall_null_free id).
    + by apply (Forall_null_free npf_pattern).
Qed.
End patterns.

(** ** Recovery types *)

Lemma elem_of_rev {A} (x : A) l : x ∈ rev l ↔ x ∈ l.
Proof. by rewrite !list_elem_of_In, <-in_rev. Qed.

Section recovery.
Context {T E : Type} `{!EqDecision T} (store : PatternStore T E) `{!StoreLaws store}.
Implicit Types (ty : T).

(** The types that a kind of type is built from, a rule per position. *)
Inductive argument (args : GenericArgs T) : T → Prop :=
  | type_argument ty : ty ∈ type_args args → argument args ty
  | const_argument ty : ty ∈ const_args args → argument args ty.

Inductive bound_in (bindings : list (AssociatedTypeBindingTy T)) : T → Prop :=
  | binding_argument b ty : b ∈ bindings → argument (bind_trait_args b) ty → bound_in bindings ty
  | binding_type b : b ∈ bindings → bound_in bindings (bind_ty b).

Inductive other_component : OtherKind T → T → Prop :=
  | volatile_pointed_to ty : other_component (OVolatilePointer ty) ty
  | slice_element ty : other_component (OSlice ty) ty
  | slice_pointee_element ty : other_component (OSlicePointee ty) ty
  | array_length ty elem : other_component (OArray (Some ty) elem) ty
  | array_element layout ty : other_component (OArray layout ty) ty
  | range_bound ty : other_component (ORange (Some ty)) ty
  | pointer_parameter params res ty : ty ∈ params → other_component (OFunctionPointer params res) ty
  | pointer_result params res : other_component (OFunctionPointer params res) res
  | item_receiver ty args params res : other_component (OFunctionItem (Some ty) args params res) ty
  | item_argument self args params res ty : argument args ty → other_component (OFunctionItem self args params res) ty
  | item_parameter self args params res ty : ty ∈ params → other_component (OFunctionItem self args params res) ty
  | item_result self args params res : other_component (OFunctionItem self args params res) res
  | callable_parameter params res ty : ty ∈ params → other_component (OCallable params res) ty
  | callable_result params res : other_component (OCallable params res) res
  | callable_pointee_parameter params res ty : ty ∈ params → other_component (OCallablePointee params res) ty
  | callable_pointee_result params res : other_component (OCallablePointee params res) res
  | closure_owner_receiver ty args captures params res :
      other_component (OClosureState (Some (Some ty, args)) captures params res) ty
  | closure_owner_argument self args captures params res ty :
      argument args ty → other_component (OClosureState (Some (self, args)) captures params res) ty
  | closure_captured owner captures params res ty :
      ty ∈ captures → other_component (OClosureState owner captures params res) ty
  | closure_takes owner captures params res ty :
      ty ∈ params → other_component (OClosureState owner captures params res) ty
  | closure_returns owner captures params res : other_component (OClosureState owner captures params res) res
  | builtin_trait_argument args ty : ty ∈ args → other_component (OBuiltinTrait args) ty
  | object_argument args bindings ty : argument args ty → other_component (OTraitObject args bindings) ty
  | object_binding args bindings ty : bound_in bindings ty → other_component (OTraitObject args bindings) ty
  | object_pointee_argument args bindings ty : argument args ty → other_component (OTraitObjectPointee args bindings) ty
  | object_pointee_binding args bindings ty : bound_in bindings ty → other_component (OTraitObjectPointee args bindings) ty
  | projected_type ty args : other_component (OProjection ty args) ty
  | projection_trait_argument self args ty : argument args ty → other_component (OProjection self args) ty.

Inductive component : TyKind T → T → Prop :=
  | tuple_element elems ty : ty ∈ elems → component (KTuple elems) ty
  | pointed_to ro ty : component (KPointer ro ty) ty
  | optional_element ty : component (KOptional ty) ty
  | union_error error value : component (KErrorUnion error value) error
  | union_value error value : component (KErrorUnion error value) value
  | nominal_argument d args ty : argument args ty → component (KNominal d args) ty
  | component_of_other kind ty : other_component kind ty → component (KOther kind) ty.

Definition refers_to ty ty' : Prop := ∃ kind, ty_kind store ty = Some kind ∧ component kind ty'.

(** Some type that a type is built from, at any depth, is the error type. *)
Definition contains_error ty : Prop :=
  ∃ ty', rtc refers_to ty ty' ∧ ty_kind store ty' = Some KError.

Lemma argument_visited args ty : argument args ty ↔ ty ∈ visit_args args.
Proof. unfold visit_args. rewrite elem_of_app. split; [intros []; tauto|intros []; by constructor]. Qed.

Lemma bound_in_visited bindings ty : bound_in bindings ty ↔ ty ∈ visit_bindings bindings.
Proof.
  unfold visit_bindings. rewrite list_elem_of_bind. split.
  - intros [b ty' Hb Ha|b Hb]; exists b; (split; [|done]); rewrite elem_of_app, <-argument_visited; [by left|].
    right. by left.
  - intros (b&Hty&Hb). rewrite elem_of_app, <-argument_visited, list_elem_of_singleton in Hty.
    destruct Hty as [Hty| ->]; [by eapply binding_argument|by apply binding_type].
Qed.

Lemma elem_of_option_list {A} (x : A) o : x ∈ option_list o ↔ o = Some x.
Proof.
  destruct o; cbn; [rewrite list_elem_of_singleton|]; split; try done; [congruence..|].
  by intros ?%not_elem_of_nil.
Qed.

Ltac split_visited H :=
  repeat match type of H with
  | _ ∈ visit_args _ => apply argument_visited in H
  | _ ∈ visit_bindings _ => apply bound_in_visited in H
  | _ ∈ option_list _ => apply elem_of_option_list in H
  | _ ∈ [] => by apply not_elem_of_nil in H
  | _ ∈ _ ++ _ => apply elem_of_app in H as [H|H]
  | _ ∈ _ :: _ => apply elem_of_cons in H as [H|H]
  end; subst.

Ltac join_visited :=
  match goal with
  | |- _ ∈ _ ++ _ => apply elem_of_app; solve [left; join_visited | right; join_visited]
  | |- _ ∈ _ :: _ => apply elem_of_cons; solve [by left | right; join_visited]
  | |- _ ∈ option_list _ => by apply elem_of_option_list
  | |- _ => assumption
  end.

Lemma other_component_visited kind ty : other_component kind ty ↔ ty ∈ visit_other_types kind.
Proof.
  split.
  - intros H. destruct H; cbn [visit_other_types];
      repeat match goal with
      | H : argument _ _ |- _ => apply argument_visited in H
      | H : bound_in _ _ |- _ => apply bound_in_visited in H
      end; join_visited.
  - intros H. destruct kind as [| | | | | | | | | | | | | | |owner| | | |]; cbn [visit_other_types] in H;
      [..|destruct owner as [[self args]|]| | | |]; split_visited H; solve [by constructor].
Qed.

Lemma refers_to_visited ty ty' : refers_to ty ty' ↔ ty' ∈ referenced_types store (normalize store ty).
Proof.
  unfold refers_to, referenced_types. fold (ty_kind store ty).
  assert (∀ kind, component kind ty' ↔ ty' ∈ visit_referenced_types kind) as Hvisit.
  { intros kind. split.
    - intros []; cbn [visit_referenced_types]; first [by apply argument_visited|by apply other_component_visited|join_visited].
    - destruct kind; cbn [visit_referenced_types]; intros H; split_visited H.
      all: try (by constructor).
      by apply component_of_other, other_component_visited. }
  destruct (ty_kind store ty) as [kind|]; [rewrite <-Hvisit; naive_solver|].
  split; [naive_solver|by intros ?%not_elem_of_nil].
Qed.

Lemma is_error_kind ty : is_error_ty store (normalize store ty) = true ↔ ty_kind store ty = Some KError.
Proof. unfold is_error_ty. fold (ty_kind store ty). destruct (ty_kind store ty) as [[]|]; by split. Qed.

Lemma contains_error_step ty :
  contains_error ty ↔
  is_error_ty store (normalize store ty) = true ∨ ∃ ty', refers_to ty ty' ∧ contains_error ty'.
Proof.
  split.
  - intros (ty'&Hr&He). inversion Hr as [|? y ? Hs Hr']; subst; [left; by apply is_error_kind|]. right. exists y.
    split; [done|]. by exists ty'.
  - intros [He%is_error_kind|(y&Hs&ty'&Hr&He)]; [by exists ty|]. exists ty'. split; [by eapply rtc_l|done].
Qed.

Lemma recovery_loop_true fuel seen pending :
  recovery_loop store fuel seen pending = Some true → ∃ ty, ty ∈ pending ∧ contains_error ty.
Proof.
  revert seen pending. induction fuel as [|fuel IH]; intros seen [|ty pending]; try done. cbn [recovery_loop].
  case_bool_decide.
  - intros (x&Hx&He)%IH. exists x. split; [by right|done].
  - destruct (is_error_ty store _) eqn:Herr.
    + intros _. exists ty. split; [by left|]. rewrite contains_error_step. by left.
    + intros (x&Hx&He)%IH. apply elem_of_app in Hx as [Hx|Hx]; [|exists x; split; [by right|done]].
      exists ty. split; [by left|]. rewrite contains_error_step. right. exists x. split; [|done].
      by apply refers_to_visited, elem_of_rev.
Qed.

(** What has been seen is no error, and what it references is seen or pending. *)
Definition recovery_inv (seen pending : list T) : Prop :=
  ∀ ty, ty ∈ seen → is_error_ty store ty = false ∧
    ∀ ty', ty' ∈ referenced_types store ty → normalize store ty' ∈ seen ∨ ty' ∈ pending.

Lemma recovery_loop_false fuel seen pending ty :
  recovery_loop store fuel seen pending = Some false → recovery_inv seen pending →
  normalize store ty ∈ seen ∨ ty ∈ pending → ¬ contains_error ty.
Proof.
  revert seen pending ty. induction fuel as [|fuel IH]; intros seen [|x pending] ty; try done; cbn [recovery_loop].
  1,2: intros _ Hinv Hty (ty'&Hr&He%is_error_kind);
    (assert (normalize store ty ∈ seen) as Hseen by (destruct Hty as [?|?%not_elem_of_nil]; done)); clear Hty;
    (induction Hr as [ty|ty y ty' Hs _ IHr]; [by destruct (Hinv _ Hseen); congruence|]);
    (apply refers_to_visited in Hs; destruct (Hinv _ Hseen) as [_ Href]; destruct (Href y Hs) as [?|?%not_elem_of_nil]; [by apply IHr|done]).
  case_bool_decide as Hin.
  - intros Hloop Hinv Hty. apply (IH _ _ _ Hloop).
    + intros y Hy. destruct (Hinv y Hy) as [He Href]. split; [done|]. intros z Hz.
      destruct (Href z Hz) as [?|[->|?]%elem_of_cons]; [by left..|by right].
    + destruct Hty as [?|[->|?]%elem_of_cons]; [by left..|by right].
  - destruct (is_error_ty store _) eqn:Herr; [done|]. intros Hloop Hinv Hty. apply (IH _ _ _ Hloop).
    + intros y [->|Hy]%elem_of_cons.
      * split; [done|]. intros z Hz. right. apply elem_of_app. left.
        by apply (elem_of_rev z).
      * destruct (Hinv y Hy) as [He Href]. split; [done|]. intros z Hz. rewrite elem_of_cons, elem_of_app.
        destruct (Href z Hz) as [?|[->|?]%elem_of_cons]; tauto.
    + rewrite elem_of_cons, elem_of_app. destruct Hty as [?|[->|?]%elem_of_cons]; tauto.
Qed.

(** The references of the interned types that have not been seen. *)
Definition unseen (seen : list T) : nat :=
  sum_list_with (λ ty, length (referenced_types store ty)) (filter (λ ty, ty ∉ seen) (interned store)).

Lemma unseen_cons ty seen :
  ty ∉ seen → (length (referenced_types store ty) + unseen (ty :: seen) ≤ unseen seen)%nat.
Proof.
  intros Hty. unfold unseen.
  assert (ty ∈ interned store ∨ referenced_types store ty = []) as Hin.
  { unfold referenced_types. destruct (interner_get store ty) eqn:Hk; [|by right]. left. by eapply interner_domain. }
  assert (∀ l, (sum_list_with (λ ty, length (referenced_types store ty)) (filter (λ x, x ∉ ty :: seen) l) +
    (if bool_decide (ty ∈ l) then length (referenced_types store ty) else 0) ≤
    sum_list_with (λ ty, length (referenced_types store ty)) (filter (λ x, x ∉ seen) l))%nat) as Hsum.
  { induction l as [|x l IH]; [done|]. rewrite !filter_cons.
    destruct (decide (x = ty)) as [->|Hne].
    - rewrite (decide_False (P := ty ∉ ty :: seen)), decide_True, bool_decide_true by set_solver. cbn.
      destruct (bool_decide (ty ∈ l)); lia.
    - assert (bool_decide (ty ∈ x :: l) = bool_decide (ty ∈ l)) as -> by (apply bool_decide_ext; set_solver).
      destruct (decide (x ∉ seen)) as [Hs|Hs].
      + rewrite decide_True by set_solver. cbn. lia.
      + rewrite decide_False by set_solver. lia. }
  specialize (Hsum (interned store)). destruct Hin as [Hin|Hnil].
  - rewrite bool_decide_true in Hsum by done. lia.
  - rewrite Hnil in *. cbn. destruct (bool_decide _); lia.
Qed.

Lemma recovery_loop_ends fuel seen pending :
  (length pending + unseen seen ≤ fuel)%nat → is_Some (recovery_loop store fuel seen pending).
Proof.
  revert seen pending. induction fuel as [|fuel IH]; intros seen [|ty pending] Hf; cbn [recovery_loop];
    [by eexists|cbn in Hf; lia|by eexists|]. cbn in Hf. case_bool_decide as Hin; [apply IH; lia|].
  destruct (is_error_ty store _); [by eexists|]. apply IH.
  pose proof (unseen_cons _ _ Hin). rewrite length_app, length_rev. lia.
Qed.

(** The guard of the checker is exact. *)
Lemma is_error_recovery_exact ty : is_error_recovery_ty store ty = true ↔ contains_error ty.
Proof.
  unfold is_error_recovery_ty.
  destruct (recovery_loop_ends (recovery_fuel store) [] [ty]) as [r Hr].
  { assert (∀ l : list T, filter (λ ty, ty ∉ []) l = l) as Hall.
    { induction l as [|x l IH]; [done|]. rewrite filter_cons, decide_True by apply not_elem_of_nil. by f_equal. }
    unfold unseen, recovery_fuel. rewrite Hall. cbn. lia. }
  rewrite Hr. cbn. destruct r; split; try done.
  - intros _. by apply recovery_loop_true in Hr as (x&->%list_elem_of_singleton&Hx).
  - intros He. exfalso. eapply (recovery_loop_false _ _ _ ty Hr); [|right; by left|done].
    intros x Hx. by apply not_elem_of_nil in Hx.
Qed.
End recovery.

(** ** Values of types and the source patterns that match them

    What the language says of the values of a type and of source patterns, from the
    stores alone: it does not look at domains nor at normalized patterns.  Fields are
    matched by position or by name, a range by its ends. *)

Section source.
Context {T E : Type} (store : PatternStore T E).
Notation val := (value PatternConstructor).
Notation meaning := (T → val → Prop).
Notation typed := (has_type (analysis_domain store) []).
Notation typeds := (has_types (analysis_domain store) []).
Implicit Types (ty : T) (v : val).

Inductive payload_fields : EnumVariantPayloadSignature T → list T → Prop :=
  | unit_payload : payload_fields PayloadUnit []
  | tuple_payload ts : payload_fields (PayloadTuple ts) ts
  | named_payload declared : payload_fields (PayloadNamed declared) (fs_ty <$> declared).

(** What a value of a type can be made with, and the types of its parts. *)
Inductive constructor_of ty : PatternConstructor → list T → Prop :=
  | of_tuple ts : ty_kind store ty = Some (KTuple ts) → constructor_of ty CTuple ts
  | of_pointer ro elem : ty_kind store ty = Some (KPointer ro elem) → constructor_of ty (CPointer ro) [elem]
  | of_null elem : ty_kind store ty = Some (KOptional elem) → constructor_of ty COptionalNull []
  | of_some elem : ty_kind store ty = Some (KOptional elem) → constructor_of ty COptionalSome [elem]
  | of_ok error value : ty_kind store ty = Some (KErrorUnion error value) → constructor_of ty CErrorOk [value]
  | of_err error value : ty_kind store ty = Some (KErrorUnion error value) → constructor_of ty CErrorErr [error]
  | of_variant d args signature variant ts :
      ty_kind store ty = Some (KNominal d args) → resolved_enum_signature store d = Some signature →
      variant ∈ variants signature → payload_fields (vs_payload variant) ts →
      constructor_of ty (CEnumVariant (mkDef (module_id d) (vs_def_id variant))) ts
  | of_struct d args signature ts :
      ty_kind store ty = Some (KNominal d args) → resolved_struct_signature store d = Some signature →
      Forall2 (λ field t, field_ty_for_aggregate_ty store ty (fs_name field) = Some t) (ss_fields signature) ts →
      constructor_of ty (CStruct d) ts.

(** The scalars of a type: the two bools, and the integers of its range that pattern
    constants, which are [i128]s, can name. *)
Inductive scalar_of ty : Z → Prop :=
  | of_bool z : ty_kind store ty = Some (KPrimitive Bool) → z = 0 ∨ z = 1 → scalar_of ty z
  | of_integer p b z : ty_kind store ty = Some (KPrimitive p) →
      integer_bits p (pointer_width (target store)) = Some b →
      in_range (is_signed_integer p) b z → z ≤ i128_max → scalar_of ty z.

(** A type with values that no pattern but a wildcard names: integers above the
    constants, the unlisted variants of an open enum, and the values of types that
    patterns do not look into. *)
Inductive unnamed_of ty : Prop :=
  | of_large p b z : ty_kind store ty = Some (KPrimitive p) →
      integer_bits p (pointer_width (target store)) = Some b →
      in_range (is_signed_integer p) b z → i128_max < z → unnamed_of ty
  | of_open d args signature : ty_kind store ty = Some (KNominal d args) →
      resolved_enum_signature store d = Some signature → is_open signature = true → unnamed_of ty
  | of_primitive p : ty_kind store ty = Some (KPrimitive p) → p ∈ [Ty.F32; Ty.F64; Ty.Char] → unnamed_of ty
  | of_no_signature d args : ty_kind store ty = Some (KNominal d args) →
      resolved_enum_signature store d = None → resolved_struct_signature store d = None → unnamed_of ty
  | of_no_field d args signature field : ty_kind store ty = Some (KNominal d args) →
      resolved_struct_signature store d = Some signature → field ∈ ss_fields signature →
      field_ty_for_aggregate_ty store ty (fs_name field) = None → unnamed_of ty
  | of_error : ty_kind store ty = Some KError → unnamed_of ty
  | of_other refs : ty_kind store ty = Some (KOther refs) → unnamed_of ty
  | of_unknown : ty_kind store ty = None → unnamed_of ty.

Inductive source_value : T → val → Prop :=
  | value_constructor ty id ts vs :
      constructor_of ty id ts → source_values ts vs → source_value ty (VConstructor id vs)
  | value_scalar ty z : scalar_of ty z → source_value ty (VScalar z)
  | value_unnamed ty : unnamed_of ty → source_value ty VOther
with source_values : list T → list val → Prop :=
  | values_nil : source_values [] []
  | values_cons ty ts v vs : source_value ty v → source_values ts vs → source_values (ty :: ts) (v :: vs).

Definition positions_match (ms : list meaning) (ts : list T) (vs : list val) : Prop :=
  length ms = length ts ∧
  ∀ i m t v, ms !! i = Some m → ts !! i = Some t → vs !! i = Some v → m t v.

Definition names_match (fields : list (NamedPatternField meaning)) (rest : bool) (names : list Z)
    (ts : list T) (vs : list val) : Prop :=
  NoDup (npf_name <$> fields) ∧ (∀ f, f ∈ fields → npf_name f ∈ names) ∧
  (rest = false → ∀ name, name ∈ names → name ∈ npf_name <$> fields) ∧
  ∀ i f t v, f ∈ fields → names !! i = Some (npf_name f) → ts !! i = Some t → vs !! i = Some v →
    npf_pattern f t v.

(** An expression names a variant of the enum that a type is, in full or without the
    enum. *)
Definition names_variant (e : E) ty (id : GlobalDefId) (variant : EnumVariantSignature T) : Prop :=
  ∃ enum_id def args signature,
    (enum_variant_info store e = Some (enum_id, def) ∨
     enum_variant_info store e = None ∧ omitted_enum_variant_info store e ty = Some (enum_id, def)) ∧
    ty_kind store ty = Some (KNominal enum_id args) ∧ is_enum_def store enum_id = true ∧
    resolved_enum_signature store enum_id = Some signature ∧
    variant ∈ variants signature ∧ vs_def_id variant = def ∧ id = mkDef (module_id enum_id) def.

(** An expression that names no variant names the struct that a type is, with fields of
    types [ts]. *)
Definition names_struct (e : E) ty (d : GlobalDefId) (signature : StructSignature T) (ts : list T) : Prop :=
  enum_variant_info store e = None ∧ omitted_enum_variant_info store e ty = None ∧
  type_prefix_instance store e = Some d ∧ (∃ args, ty_kind store ty = Some (KNominal d args)) ∧
  resolved_struct_signature store d = Some signature ∧
  Forall2 (λ field t, field_ty_for_aggregate_ty store ty (fs_name field) = Some t) (ss_fields signature) ts.

Definition payload_match (payload : EnumVariantPayloadSignature T) (fields : NominalPatternFields meaning)
    (vs : list val) : Prop :=
  match payload, fields with
  | PayloadTuple ts, FTuple ms => positions_match ms ts vs
  | PayloadNamed declared, FNamed named rest => names_match named rest (fs_name <$> declared) (fs_ty <$> declared) vs
  | _, _ => False
  end.

Definition struct_match (signature : StructSignature T) (ts : list T) (fields : NominalPatternFields meaning)
    (vs : list val) : Prop :=
  match fields with
  | FTuple ms => is_tuple signature = true ∧ positions_match ms ts vs
  | FNamed named rest => is_tuple signature = false ∧ names_match named rest (fs_name <$> ss_fields signature) ts vs
  end.

Definition range_contains (first last : Z) (inclusive : bool) (z : Z) : Prop :=
  first ≤ z ∧ if inclusive then z ≤ last else z < last.

Fixpoint source_matches (p : PatternKind E) ty v {struct p} : Prop :=
  match p with
  | AWildcard | ABind => True
  | APointer q => ∃ elem w, ty_kind store ty = Some (KPointer true elem) ∧
      v = VConstructor (CPointer true) [w] ∧ source_matches q elem w
  | AMutPointer q => ∃ elem w, ty_kind store ty = Some (KPointer false elem) ∧
      v = VConstructor (CPointer false) [w] ∧ source_matches q elem w
  | AOptionalSome q => ∃ elem w, ty_kind store ty = Some (KOptional elem) ∧
      v = VConstructor COptionalSome [w] ∧ source_matches q elem w
  | AOptionalNull => v = VConstructor COptionalNull []
  | AErrorOk q => ∃ error value w, ty_kind store ty = Some (KErrorUnion error value) ∧
      v = VConstructor CErrorOk [w] ∧ source_matches q value w
  | AErrorErr q => ∃ error value w, ty_kind store ty = Some (KErrorUnion error value) ∧
      v = VConstructor CErrorErr [w] ∧ source_matches q error w
  | ATuple ps => ∃ ts vs, ty_kind store ty = Some (KTuple ts) ∧ v = VConstructor CTuple vs ∧
      positions_match (map source_matches ps) ts vs
  | ANominal c fields =>
      let fields := match fields with
        | FTuple ps => FTuple (map source_matches ps)
        | FNamed fs rest => FNamed (map (λ f, mkNamedField (npf_name f) (source_matches (npf_pattern f))) fs) rest
        end in
      (∃ id variant vs, names_variant c ty id variant ∧ v = VConstructor (CEnumVariant id) vs ∧
         payload_match (vs_payload variant) fields vs) ∨
      (∃ d signature ts vs, names_struct c ty d signature ts ∧ v = VConstructor (CStruct d) vs ∧
         struct_match signature ts fields vs)
  | AExpr e =>
      (∃ id variant vs, names_variant e ty id variant ∧ v = VConstructor (CEnumVariant id) vs) ∨
      (∃ z, node_pattern_values store e = Some z ∧ v = VScalar z)
  | ARange s e inclusive => ∃ first last primitive z,
      node_pattern_values store s = Some first ∧ node_pattern_values store e = Some last ∧
      ty_kind store ty = Some (KPrimitive primitive) ∧ is_integer primitive = true ∧
      v = VScalar z ∧ range_contains first last inclusive z ∧
      ∀ y, range_contains first last inclusive y → source_value ty (VScalar y)
  end.

(** *** Rows *)

Lemma matches_row_lookup o (ps : list (Pattern PatternConstructor)) (vs : list val) :
  matches_row o ps vs = true ↔
  length ps = length vs ∧ ∀ i p v, ps !! i = Some p → vs !! i = Some v → matches o p v = true.
Proof.
  revert vs. induction ps as [|p ps IH]; intros [|v vs]; cbn; [by split; [intros _; split|]|by split; intros H; [|destruct H]..|].
  rewrite andb_true_iff, IH. split.
  - intros [Hp [Hlen Hall]]. split; [by f_equal|]. intros [|i] p' v'; cbn; [by intros [= <-] [= <-]|by apply Hall].
  - intros [[= Hlen] Hall]. split; [by apply (Hall 0%nat)|]. split; [done|]. intros i. apply (Hall (S i)).
Qed.

Lemma has_types_lookup ts vs i t v : typeds ts vs → ts !! i = Some t → vs !! i = Some v → typed t v.
Proof.
  intros H. revert i. induction H as [|t' ts v' vs Hv _ IH]; intros [|i]; cbn; try done.
  - by intros [= <-] [= <-].
  - apply IH.
Qed.

(** A sub-pattern matches what it says wherever a value has the type of its place. *)
Definition agrees (f : T → Pattern PatternConstructor) (m : meaning) : Prop :=
  ∀ ty v, typed ty v → matches false (f ty) v = true ↔ m ty v.

Lemma positions_agree fs ms ts vs :
  Forall2 agrees fs ms → length fs = length ts → typeds ts vs →
  matches_row false (apply_thunks fs ts) vs = true ↔ positions_match ms ts vs.
Proof.
  intros Hag Hlen Hts. pose proof (has_types_length _ _ _ _ Hts) as Hlv. pose proof (Forall2_length _ _ _ Hag) as Hlm.
  rewrite matches_row_lookup. unfold apply_thunks, positions_match. rewrite length_zip_with. split.
  - intros [_ Hall]. split; [lia|]. intros i m t v Hm Ht Hv.
    destruct (Forall2_lookup_r _ _ _ _ _ Hag Hm) as (f&Hf&Hfm). apply Hfm; [by eapply has_types_lookup|].
    eapply Hall; [|exact Hv]. by rewrite lookup_zip_with, Hf, Ht.
  - intros [_ Hall]. split; [lia|]. intros i p v Hp Hv.
    apply lookup_zip_with_Some in Hp as (f&t&->&Hf&Ht).
    destruct (Forall2_lookup_l _ _ _ _ _ Hag Hf) as (m&Hm&Hfm).
    apply Hfm; [by eapply has_types_lookup|by eapply Hall].
Qed.

Definition field_agrees (a : NamedPatternField (T → Pattern PatternConstructor)) (f : NamedPatternField meaning) : Prop :=
  npf_name a = npf_name f ∧ agrees (npf_pattern a) (npf_pattern f).

Lemma count_once {P} (actual : list (NamedPatternField P)) :
  forallb (λ a, length (filter (λ other, npf_name other = npf_name a) actual) =? 1)%nat actual = true ↔
  NoDup (npf_name <$> actual).
Proof.
  assert (∀ a l, length (filter (λ other : NamedPatternField P, npf_name other = a) l) = 0%nat ↔ a ∉ npf_name <$> l) as Hzero.
  { intros a l. induction l as [|b l IH]; cbn.
    - split; [intros _; apply not_elem_of_nil|done].
    - rewrite not_elem_of_cons. case_decide; cbn; [split; [done|naive_solver]|rewrite IH; naive_solver]. }
  rewrite forallb_forall. setoid_rewrite Nat.eqb_eq. split.
  - induction actual as [|a actual IH]; intros Hall; [constructor|]. constructor.
    + specialize (Hall a (or_introl eq_refl)). rewrite filter_cons, decide_True in Hall by done.
      injection Hall as Hall. by apply Hzero.
    + apply IH. intros b Hb. specialize (Hall b (or_intror Hb)). rewrite filter_cons in Hall.
      case_decide as Hab; [|done]. exfalso. cbn in Hall. injection Hall as Hall%Hzero. apply Hall.
      apply list_elem_of_fmap_2, list_elem_of_In, Hb.
  - induction actual as [|a actual IH]; [done|]. rewrite fmap_cons. intros [Ha Hnd]%NoDup_cons b [->|Hb].
    + rewrite filter_cons, decide_True by done. cbn. f_equal. by apply Hzero.
    + rewrite filter_cons. case_decide as Hab; [|by apply IH]. destruct Ha. rewrite Hab.
      apply list_elem_of_fmap_2, list_elem_of_In, Hb.
Qed.

Lemma named_fields_exact {P} names (actual : list (NamedPatternField P)) rest :
  named_fields_ok names actual rest = true ↔
  NoDup (npf_name <$> actual) ∧ (∀ f, f ∈ actual → npf_name f ∈ names) ∧
  (rest = false → ∀ name, name ∈ names → name ∈ npf_name <$> actual).
Proof.
  unfold named_fields_ok. rewrite !andb_true_iff, count_once, orb_true_iff, !forallb_forall.
  setoid_rewrite existsb_exists. setoid_rewrite Z.eqb_eq. setoid_rewrite <-list_elem_of_In.
  setoid_rewrite list_elem_of_fmap. split.
  - intros [[Hd Hn] Hr]. split_and!; [done| |].
    + intros f Hf. by destruct (Hd f Hf) as (?&?&->).
    + intros -> name Hname. destruct Hr as [|Hr]; [done|]. destruct (Hr name Hname) as (a&?&?). by exists a.
  - intros (Hn&Hd&Hr). split_and!; [|done|].
    + intros f Hf. exists (npf_name f). by split; [apply Hd|].
    + destruct rest; [by left|]. right. intros name Hname. destruct (Hr eq_refl name Hname) as (a&?&?). by exists a.
Qed.

Lemma find_named {P} (actual : list (NamedPatternField P)) a :
  NoDup (npf_name <$> actual) → a ∈ actual →
  ∃ i, list_find (λ b, npf_name b = npf_name a) actual = Some (i, a).
Proof.
  induction actual as [|b actual IH]; cbn; intros Hnd Ha; [by apply not_elem_of_nil in Ha|].
  apply NoDup_cons in Hnd as [Hb Hnd]. case_decide as Hab.
  - exists 0%nat. apply elem_of_cons in Ha as [->|Ha]; [done|]. destruct Hb. rewrite Hab. by apply list_elem_of_fmap_2.
  - apply elem_of_cons in Ha as [->|Ha]; [done|]. destruct (IH Hnd Ha) as [i ->]. by exists (S i).
Qed.

Lemma names_agree actual fields rest names ts vs :
  Forall2 field_agrees actual fields → length names = length ts → typeds ts vs →
  named_fields_ok names actual rest = true ∧
  matches_row false (zip_with (named_field_pattern actual) names ts) vs = true ↔
  names_match fields rest names ts vs.
Proof.
  intros Hag Hlen Hts. pose proof (has_types_length _ _ _ _ Hts) as Hlv.
  assert (npf_name <$> actual = npf_name <$> fields) as Hnames.
  { induction Hag as [|a f actual fields [Ha _] _ IH]; [done|]. cbn. by rewrite Ha, IH. }
  assert (∀ f, f ∈ fields → ∃ a, a ∈ actual ∧ field_agrees a f) as Hback.
  { intros f [i Hi]%list_elem_of_lookup. destruct (Forall2_lookup_r _ _ _ _ _ Hag Hi) as (a&Ha&?).
    exists a. split; [by eapply list_elem_of_lookup_2|done]. }
  assert (∀ a, a ∈ actual → ∃ f, f ∈ fields ∧ field_agrees a f) as Hforth.
  { intros a [i Hi]%list_elem_of_lookup. destruct (Forall2_lookup_l _ _ _ _ _ Hag Hi) as (f&Hf&?).
    exists f. split; [by eapply list_elem_of_lookup_2|done]. }
  rewrite named_fields_exact, matches_row_lookup, Hnames, length_zip_with. unfold names_match. split.
  - intros [(Hnd&Hd&Hr) [_ Hall]]. split_and!; [done| |done|].
    + intros f Hf. destruct (Hback f Hf) as (a&Ha&<-&_). by apply Hd.
    + intros i f t v Hf Hn Ht Hv. destruct (Hback f Hf) as (a&Ha&Hna&Hfa).
      apply Hfa; [by eapply has_types_lookup|].
      assert (matches false (named_field_pattern actual (npf_name f) t) v = true) as Hm.
      { eapply Hall; [|exact Hv]. by rewrite lookup_zip_with, Hn, Ht. }
      unfold named_field_pattern in Hm. rewrite <-Hna in Hm.
      destruct (find_named actual a ltac:(by rewrite Hnames) Ha) as [j Hj]. by rewrite Hj in Hm.
  - intros (Hnd&Hd&Hr&Hall). split_and!; [done| |done|lia|].
    + intros a Ha. destruct (Hforth a Ha) as (f&Hf& ->&_). by apply Hd.
    + intros i p v Hp Hv. apply lookup_zip_with_Some in Hp as (name&t&->&Hn&Ht).
      unfold named_field_pattern. destruct (list_find _ actual) as [[j a]|] eqn:Hfind; [|done].
      apply list_find_Some in Hfind as (Ha&Hna&_). apply list_elem_of_lookup_2 in Ha.
      destruct (Hforth a Ha) as (f&Hf&Hnf&Hfa). apply Hfa; [by eapply has_types_lookup|].
      eapply Hall; [done| |done|done]. by rewrite Hn, <-Hna, Hnf.
Qed.

Scheme source_value_mut := Induction for source_value Sort Prop
  with source_values_mut := Induction for source_values Sort Prop.

Lemma constructor_types ty id c vs :
  typed ty (VConstructor id vs) → find_constructor (analysis_domain store ty) id = Done c → typeds (ctor_fields c) vs.
Proof. intros Hv Hc. inversion Hv; subst. congruence. Qed.
End source.

(** ** The adapter is exact *)

Lemma Forall2_map_diag {A B C} (R : B → C → Prop) (f : A → B) (g : A → C) l :
  Forall (λ x, R (f x) (g x)) l → Forall2 R (map f l) (map g l).
Proof. induction 1; cbn; by constructor. Qed.

Section exact.
Context {T E : Type} (store : PatternStore T E) `{!StoreLaws store}.
Notation val := (value PatternConstructor).
Notation typed := (has_type (analysis_domain store) []).
Notation typeds := (has_types (analysis_domain store) []).
Notation agrees := (agrees store).
Implicit Types (ty : T) (v : val).

Lemma payload_fields_types (payload : EnumVariantPayloadSignature T) ts : payload_fields payload ts ↔ ts = payload_types payload.
Proof. split; [by intros []|intros ->; destruct payload; constructor]. Qed.

Lemma constructor_of_domain ty id ts :
  constructor_of store ty id ts ↔ find_constructor (analysis_domain store ty) id = Done (mkConstructor id ts).
Proof.
  split.
  - intros Hof. destruct Hof as [ts Hk|ro elem Hk|elem Hk|elem Hk|er va Hk|er va Hk|d args signature variant ts Hk Hs Hv Hts
      |d args signature ts Hk Hs Hts]; [unfold analysis_domain; rewrite Hk; (done || (cbn; by rewrite decide_True))..| |].
    + apply payload_fields_types in Hts as ->.
      pose proof (analysis_domain_lawful store ty) as Hlaw. unfold analysis_domain in *. rewrite Hk, Hs in *.
      eapply (find_constructor_self _ (variant_constructor d <$> variants signature) (variant_constructor d variant));
        [destruct (is_open signature); by (left + right)|by destruct (is_open signature)|by apply list_elem_of_fmap_2].
    + unfold analysis_domain. rewrite Hk.
      destruct (resolved_enum_signature store d) eqn:He.
      { rewrite (enum_not_struct d) in Hs; [done|]. rewrite He. by eexists. }
      rewrite Hs. apply mapM_Some in Hts. rewrite Hts. cbn. by rewrite decide_True.
  - intros Hf. pose proof (find_constructor_in _ _ _ Hf) as [(cs&Hcs&Hin) _]. clear Hf. unfold analysis_domain in Hcs.
    destruct (ty_kind store ty) as [[p|elems|ro elem|elem|er va|d args| |refs]|] eqn:Hk; try (by destruct Hcs).
    + exfalso. destruct Hcs as [Hcs|Hcs], p; cbn in Hcs; unfold integer_domain in Hcs; repeat case_match; simplify_eq/=;
        by apply not_elem_of_nil in Hin.
    + destruct Hcs as [[= <-]|]; [|done]. apply list_elem_of_singleton in Hin as [= -> ->]. by constructor.
    + destruct Hcs as [[= <-]|]; [|done]. apply list_elem_of_singleton in Hin as [= -> ->]. by constructor.
    + destruct Hcs as [[= <-]|]; [|done]. apply elem_of_cons in Hin as [[= -> ->]|[= -> ->]%list_elem_of_singleton]; by econstructor.
    + destruct Hcs as [[= <-]|]; [|done]. apply elem_of_cons in Hin as [[= -> ->]|[= -> ->]%list_elem_of_singleton]; by econstructor.
    + destruct (resolved_enum_signature store d) as [signature|] eqn:Hs.
      * assert (cs = variant_constructor d <$> variants signature) as -> by (destruct (is_open signature), Hcs; by simplify_eq).
        apply list_elem_of_fmap in Hin as (variant&[= -> ->]&Hv). eapply of_variant; [done..|]. by apply payload_fields_types.
      * destruct (resolved_struct_signature store d) as [signature|] eqn:Hst; [|by destruct Hcs].
        destruct (mapM _ _) as [fields|] eqn:Hm; [|by destruct Hcs]. destruct Hcs as [[= <-]|]; [|done].
        apply list_elem_of_singleton in Hin as [= -> ->]. eapply of_struct; [done..|]. by apply mapM_Some.
Qed.

Lemma integer_domain_at ty p :
  ty_kind store ty = Some (KPrimitive p) → is_integer p = true → analysis_domain store ty = integer_domain store p.
Proof. intros Hk Hp. unfold analysis_domain. rewrite Hk. by destruct p. Qed.

Lemma scalar_of_domain ty z :
  scalar_of store ty z ↔ ∃ min max c, analysis_domain store ty = Scalar min max c ∧ min ≤ z ≤ max.
Proof.
  split.
  - intros [z' Hk Hz|p b z' Hk Hb Hz Hle].
    + unfold analysis_domain. rewrite Hk. exists 0, 1, true. split; [done|lia].
    + assert (is_integer p = true) as Hp by (by destruct p). rewrite (integer_domain_at ty p Hk Hp).
      destruct (integer_domain_range store p b Hp Hb) as [Hb1 ->]. unfold in_range in Hz.
      destruct (Z.eqb_spec b 128) as [->|], (is_signed_integer p); cbn; do 3 eexists; (split; [reflexivity|]);
        unfold i128_max in *; lia.
  - intros (min&max&c&Hd&Hz). unfold analysis_domain in Hd.
    destruct (ty_kind store ty) as [[p| | | | |d args| |]|] eqn:Hk; try done; [|repeat case_match; done].
    destruct (is_integer p) eqn:Hp; [|destruct p; try done; simplify_eq; eapply of_bool; [done|lia]].
    destruct (integer_bits_Some p (pointer_width (target store)) Hp) as [b Hb].
    assert (integer_domain store p = Scalar min max c) as Hi by (by destruct p).
    destruct (integer_domain_range store p b Hp Hb) as [Hb1 Hr]. rewrite Hi in Hr.
    assert (2 ^ (b - 1) ≤ 2 ^ 127) by (apply Z.pow_le_mono_r; lia).
    assert (b ≠ 128 → 2 ^ b ≤ 2 ^ 127) by (intros ?; apply Z.pow_le_mono_r; lia).
    eapply of_integer; [done..| |]; unfold in_range, i128_max in *; destruct (Z.eqb_spec b 128), (is_signed_integer p);
      cbn in Hr; simplify_eq; lia.
Qed.

Lemma unnamed_of_domain ty : unnamed_of store ty ↔ has_other (analysis_domain store ty) = true.
Proof.
  split.
  - intros [p b z Hk Hb Hz Hlt|d args signature Hk Hs Ho|p Hk Hp|d args Hk He Hs|d args signature field Hk Hs Hf Hno|Hk|refs Hk|Hk];
      [|unfold analysis_domain; rewrite Hk..]; try done.
    + assert (is_integer p = true) as Hp by (by destruct p). rewrite (integer_domain_at ty p Hk Hp).
      destruct (integer_domain_range store p b Hp Hb) as [Hb1 ->].
      assert (2 ^ (b - 1) ≤ 2 ^ 127) by (apply Z.pow_le_mono_r; lia).
      assert (b ≠ 128 → 2 ^ b ≤ 2 ^ 127) by (intros ?; apply Z.pow_le_mono_r; lia).
      unfold in_range, i128_max in *. destruct (Z.eqb_spec b 128), (is_signed_integer p); cbn; try done; lia.
    + by rewrite Hs, Ho.
    + repeat (apply elem_of_cons in Hp as [->|Hp]; [done|]). by apply not_elem_of_nil in Hp.
    + by rewrite He, Hs.
    + destruct (resolved_enum_signature store d) eqn:He.
      { rewrite (enum_not_struct d) in Hs; [done|]. rewrite He. by eexists. }
      rewrite Hs. destruct (mapM _ _) as [ts|] eqn:Hm; [|done]. apply mapM_Some in Hm.
      apply list_elem_of_lookup in Hf as [i Hi]. destruct (Forall2_lookup_l _ _ _ _ _ Hm Hi) as (t&_&?). congruence.
  - unfold analysis_domain. destruct (ty_kind store ty) as [[p| | | | |d args| |refs]|] eqn:Hk; try done;
      [| |by intros _; apply of_error|by intros _; eapply of_other|by intros _; apply of_unknown].
    + destruct (is_integer p) eqn:Hp.
      * destruct (integer_bits_Some p (pointer_width (target store)) Hp) as [b Hb].
        destruct (integer_domain_range store p b Hp Hb) as [Hb1 Hr]. intros Ho.
        assert (has_other (integer_domain store p) = true) as Ho' by (by destruct p). rewrite Hr in Ho'.
        destruct (Z.eqb_spec b 128) as [->|]; [|by destruct (is_signed_integer p)].
        destruct (is_signed_integer p) eqn:Hsg; [done|].
        eapply (of_large _ _ p 128 (2 ^ 127)); [done..| |done]. by rewrite Hsg.
      * intros Ho. eapply of_primitive; [done|]. destruct p; try done; set_solver.
    + destruct (resolved_enum_signature store d) as [signature|] eqn:He.
      * intros Ho. eapply of_open; [done..|]. by destruct (is_open signature).
      * destruct (resolved_struct_signature store d) as [signature|] eqn:Hs; [|intros _; by eapply of_no_signature].
        destruct (mapM _ _) as [ts|] eqn:Hm; [done|]. intros _. apply mapM_None, Exists_exists in Hm as (field&Hf&Hno).
        by eapply of_no_field.
Qed.

(** The domains have exactly the values that the stores say. *)
Lemma typed_source_value ty v : typed ty v ↔ source_value store ty v.
Proof.
  split.
  - intros Hv. eapply (has_type_mut (analysis_domain store) [] (λ ty v _, source_value store ty v)
      (λ ts vs _, source_values store ts vs)); [..|exact Hv]; clear ty v Hv.
    + intros ty id [id' ts] vs _ Hc _ IH. pose proof (find_constructor_in _ _ _ Hc) as [_ Hid]. cbn in Hid. subst id'.
      eapply value_constructor; [by apply constructor_of_domain|done].
    + intros ty min max c z _ Hd Hz. apply value_scalar, scalar_of_domain. eauto.
    + intros ty _ Ho. by apply value_unnamed, unnamed_of_domain.
    + constructor.
    + by constructor.
  - intros Hv. eapply (source_value_mut store (λ ty v _, typed ty v) (λ ts vs _, typeds ts vs)); [..|exact Hv]; clear ty v Hv.
    + intros ty id ts vs Hc%constructor_of_domain _ IH. eapply ty_constructor; [apply not_elem_of_nil|exact Hc|done].
    + intros ty z (min&max&c&Hd&Hz)%scalar_of_domain. eapply ty_scalar; [apply not_elem_of_nil|done..].
    + intros ty Ho%unnamed_of_domain. apply ty_other; [apply not_elem_of_nil|done].
    + constructor.
    + by constructor.
Qed.

Lemma constructor_matches o id (ps : list (Pattern PatternConstructor)) v :
  matches o (PConstructor id ps) v = true ↔ ∃ vs, v = VConstructor id vs ∧ matches_row o ps vs = true.
Proof.
  split.
  - destruct v as [id' vs|z|]; [|done..]. rewrite matches_constructor.
    intros [->%bool_decide_eq_true Hm]%andb_true_iff. by exists vs.
  - intros (vs&->&Hm). by rewrite matches_constructor, bool_decide_true.
Qed.

Lemma names_variant_resolved e ty id variant :
  names_variant store e ty id variant ↔
  ∃ enum_id def eid, variant_info store e ty = Some (enum_id, def) ∧ enum_global_def_id store ty = Some enum_id ∧
    resolved_enum_variant store (mkDef (module_id enum_id) def) = Some (eid, variant) ∧
    id = mkDef (module_id enum_id) def.
Proof.
  split.
  - intros ([m g]&def&args&signature&Hinfo&Hk&Henum&Hs&Hv&Hdef&->). exists (mkDef m g), def, (mkDef m g).
    assert (variant_info store e ty = Some (mkDef m g, def)) as Hi
      by (unfold variant_info; by destruct Hinfo as [->|[-> ->]]).
    split_and!; [done|unfold enum_global_def_id; by rewrite Hk, Henum| |done].
    unfold resolved_enum_variant. rewrite (variant_info_def_parent _ _ _ _ _ Hi). cbn. rewrite Hs. cbn.
    apply list_elem_of_lookup in Hv as [i Hi']. pose proof (enum_variants_distinct _ _ Hs) as Hnd.
    assert (list_find (λ variant, vs_def_id variant = def) (variants signature) = Some (i, variant)) as ->; [|done].
    apply list_find_Some. split_and!; [done|done|]. intros j y Hj Hlt Hy.
    assert (j = i); [|lia]. eapply (NoDup_lookup _ _ _ _ Hnd); rewrite list_lookup_fmap; [by rewrite Hj|].
    rewrite Hi'. cbn in *. congruence.
  - intros (enum_id&def&eid&Hinfo&Henum&Hvar&->). pose proof (variant_info_def_parent _ _ _ _ _ Hinfo) as Hp.
    unfold resolved_enum_variant in Hvar. rewrite Hp in Hvar. destruct enum_id as [m g]. cbn in *.
    destruct (resolved_enum_signature store (mkDef m g)) as [signature|] eqn:Hs; [|done]. cbn in Hvar.
    destruct (list_find _ _) as [[i vr]|] eqn:Hf; [|done]. injection Hvar as _ ->.
    apply list_find_Some in Hf as (Hi&Hid&_). unfold enum_global_def_id in Henum.
    destruct (ty_kind store ty) as [[| | | | |d args| |]|] eqn:Hk; try done.
    destruct (is_enum_def store d) eqn:Hd; [|done]. injection Henum as ->.
    exists (mkDef m g), def, args, signature. split_and!; try done; [|by eapply list_elem_of_lookup_2].
    unfold variant_info in Hinfo. destruct (enum_variant_info store e); [by left; f_equal; congruence|by right].
Qed.

(** The value of a named variant has a payload of its types. *)
Lemma variant_types e ty id variant vs :
  names_variant store e ty id variant → typed ty (VConstructor (CEnumVariant id) vs) →
  typeds (payload_types (vs_payload variant)) vs.
Proof.
  intros (enum_id&def&eid&Hinfo&Henum&Hvar&->)%names_variant_resolved Hv.
  exact (constructor_types _ _ _ _ _ Hv (variant_constructor_found _ _ _ _ _ _ _ Hinfo Henum Hvar)).
Qed.

Lemma payload_agrees payload fields fields' vs :
  match fields, fields' with
  | FTuple fs, FTuple ms => Forall2 agrees fs ms
  | FNamed actual r, FNamed named r' => Forall2 (field_agrees store) actual named ∧ r = r'
  | _, _ => False
  end → typeds (payload_types payload) vs →
  (∃ ps, payload_patterns payload fields = Some ps ∧ matches_row false ps vs = true) ↔ payload_match payload fields' vs.
Proof.
  intros Hag Hts. destruct payload as [|ts|declared], fields as [fs|actual r], fields' as [ms|named r']; try done; cbn.
  1,2,4,5: by (split; [intros (?&?&_)|]).
  - destruct (length ts =? length fs)%nat eqn:Hl.
    + apply Nat.eqb_eq in Hl. rewrite <-(positions_agree store fs ms ts vs) by done. naive_solver.
    + split; [naive_solver|]. intros [Hlen _]. apply Nat.eqb_neq in Hl. apply Forall2_length in Hag. lia.
  - destruct Hag as [Hag ->].
    rewrite <-(names_agree store actual named r' (fs_name <$> declared) (fs_ty <$> declared) vs) by (done || by rewrite !length_fmap).
    assert (zip_with (named_field_pattern actual) (fs_name <$> declared) (fs_ty <$> declared) =
      (λ field, named_field_pattern actual (fs_name field) (fs_ty field)) <$> declared) as ->.
    { clear. induction declared as [|f declared IH]; [done|]. cbn. by rewrite IH. }
    destruct (named_fields_ok _ _ _); naive_solver.
Qed.

Lemma struct_fields_mapM ty (signature : StructSignature T) ts :
  mapM (λ field, field_ty_for_aggregate_ty store ty (fs_name field)) (ss_fields signature) = Some ts ↔
  Forall2 (λ field t, field_ty_for_aggregate_ty store ty (fs_name field) = Some t) (ss_fields signature) ts.
Proof. apply mapM_Some. Qed.

Lemma struct_agrees ty signature ts fields fields' vs :
  match fields, fields' with
  | FTuple fs, FTuple ms => Forall2 agrees fs ms
  | FNamed actual r, FNamed named r' => Forall2 (field_agrees store) actual named ∧ r = r'
  | _, _ => False
  end → mapM (λ field, field_ty_for_aggregate_ty store ty (fs_name field)) (ss_fields signature) = Some ts → typeds ts vs →
  (∃ ps, struct_patterns store ty signature fields = Some ps ∧ matches_row false ps vs = true) ↔
  struct_match signature ts fields' vs.
Proof.
  intros Hag Hts Hvs. pose proof (length_mapM _ _ _ Hts) as Hlen.
  destruct fields as [fs|actual r], fields' as [ms|named r']; try done; cbn; destruct (is_tuple signature); cbn;
    try (by split; [intros (?&?&_)|intros [? _]]).
  - destruct (length fs =? length (ss_fields signature))%nat eqn:Hl; cbn.
    + apply Nat.eqb_eq in Hl. rewrite Hts, <-(positions_agree store fs ms ts vs) by (done || lia). cbn. naive_solver.
    + split; [naive_solver|]. intros [_ [Hms _]]. apply Nat.eqb_neq in Hl. apply Forall2_length in Hag. lia.
  - destruct Hag as [Hag ->].
    rewrite <-(names_agree store actual named r' (fs_name <$> ss_fields signature) ts vs) by (done || rewrite length_fmap; lia).
    assert (mapM (λ field, ty ← field_ty_for_aggregate_ty store ty (fs_name field);
        Some (named_field_pattern actual (fs_name field) ty)) (ss_fields signature) =
      Some (zip_with (named_field_pattern actual) (fs_name <$> ss_fields signature) ts)) as ->.
    { apply mapM_Some. apply mapM_Some in Hts. clear -Hts. induction Hts as [|f t fs ts Hf _ IH]; [constructor|].
      cbn. constructor; [by rewrite Hf|done]. }
    destruct (named_fields_ok _ _ _); cbn; naive_solver.
Qed.

Lemma struct_domain ty d args signature vs :
  ty_kind store ty = Some (KNominal d args) → resolved_struct_signature store d = Some signature →
  typed ty (VConstructor (CStruct d) vs) →
  ∃ ts, mapM (λ field, field_ty_for_aggregate_ty store ty (fs_name field)) (ss_fields signature) = Some ts ∧ typeds ts vs.
Proof.
  intros Hk Hs Hv. assert (resolved_enum_signature store d = None) as Hnone.
  { destruct (resolved_enum_signature store d) eqn:He; [|done].
    rewrite (enum_not_struct d) in Hs; [done|]. rewrite He. by eexists. }
  inversion Hv as [? ? c ? _ Hc Hts| |]; subst. unfold analysis_domain in Hc. rewrite Hk, Hnone, Hs in Hc.
  destruct (mapM _ _) as [ts|]; [|done]. exists ts. split; [done|]. cbn in Hc. rewrite decide_True in Hc by done.
  injection Hc as <-. exact Hts.
Qed.

Lemma nominal_agrees c fields fields' ty v :
  match fields, fields' with
  | FTuple fs, FTuple ms => Forall2 agrees fs ms
  | FNamed actual r, FNamed named r' => Forall2 (field_agrees store) actual named ∧ r = r'
  | _, _ => False
  end → typed ty v →
  matches false (analysis_nominal_pattern store c fields ty) v = true ↔
  (∃ id variant vs, names_variant store c ty id variant ∧ v = VConstructor (CEnumVariant id) vs ∧
     payload_match (vs_payload variant) fields' vs) ∨
  (∃ d signature ts vs, names_struct store c ty d signature ts ∧ v = VConstructor (CStruct d) vs ∧
     struct_match signature ts fields' vs).
Proof.
  intros Hag Hv. unfold analysis_nominal_pattern. destruct (variant_info store c ty) as [[enum_id def]|] eqn:Hinfo.
  - assert (∀ d signature ts, ¬ names_struct store c ty d signature ts) as Hno.
    { intros d signature ts (H1&H2&_). unfold variant_info in Hinfo. by rewrite H1, H2 in Hinfo. }
    split.
    + case_bool_decide as Henum; [|done].
      destruct (resolved_enum_variant store _) as [[eid variant]|] eqn:Hvar; [|done].
      destruct (payload_patterns _ _) as [ps|] eqn:Hps; [|done].
      intros (vs&->&Hm)%constructor_matches. left. eexists _, variant, vs.
      assert (names_variant store c ty (mkDef (module_id enum_id) def) variant) as Hn
        by (apply names_variant_resolved; by exists enum_id, def, eid).
      split_and!; [done|done|]. apply (payload_agrees _ fields); [done|by eapply variant_types|]. by exists ps.
    + intros [(id&variant&vs&Hn&->&Hp)|(d&signature&ts&vs&Hn&_)]; [|by apply Hno in Hn].
      apply (payload_agrees _ fields) in Hp as (ps&Hps&Hm); [|done|by eapply variant_types].
      apply names_variant_resolved in Hn as (enum_id'&def'&eid&Hinfo'&Henum&Hvar&->).
      rewrite Hinfo in Hinfo'. injection Hinfo' as <- <-. rewrite bool_decide_true by done. rewrite Hvar, Hps.
      apply constructor_matches. by exists vs.
  - assert (∀ id variant, ¬ names_variant store c ty id variant) as Hno.
    { intros id variant (enum_id&def&eid&Hi&_)%names_variant_resolved. congruence. }
    assert (enum_variant_info store c = None ∧ omitted_enum_variant_info store c ty = None) as [He Ho]
      by (unfold variant_info in Hinfo; by destruct (enum_variant_info store c)).
    split.
    + destruct (type_prefix_instance store c) as [cd|] eqn:Hc; [|done].
      destruct (ty_kind store ty) as [[| | | | |d args| |]|] eqn:Hk; try done. case_bool_decide as Hd; [|done]. subst cd.
      destruct (resolved_struct_signature store d) as [signature|] eqn:Hs; [|done].
      destruct (struct_patterns store ty signature fields) as [ps|] eqn:Hps; [|done].
      intros (vs&->&Hm)%constructor_matches. right.
      destruct (struct_domain _ _ _ _ _ Hk Hs Hv) as (ts&Hts&Htys). exists d, signature, ts, vs.
      split_and!; [|done|by apply (struct_agrees ty _ ts fields); [..|by exists ps]].
      split_and!; [done..|by eexists|done|by apply struct_fields_mapM].
    + intros [(id&variant&vs&Hn&_)|(d&signature&ts&vs&(_&_&Hc&[args Hk]&Hs&Hts)&->&Hp)]; [by apply Hno in Hn|].
      apply struct_fields_mapM in Hts. destruct (struct_domain _ _ _ _ _ Hk Hs Hv) as (ts'&Hts'&Htys).
      rewrite Hts in Hts'. injection Hts' as <-.
      apply (struct_agrees ty _ ts fields) in Hp as (ps&Hps&Hm); [|done..].
      rewrite Hc, Hk, bool_decide_true by done. rewrite Hs, Hps. apply constructor_matches. by exists vs.
Qed.
Lemma one_field_agrees q id ty elem vs :
  agrees (analysis_pattern store q) (source_matches store q) → typed ty (VConstructor id vs) →
  find_constructor (analysis_domain store ty) id = Done (mkConstructor id [elem]) →
  matches_row false [analysis_pattern store q elem] vs = true ↔
  ∃ w, vs = [w] ∧ source_matches store q elem w.
Proof.
  intros IH Hv Hc. pose proof (constructor_types _ _ _ _ _ Hv Hc) as Hts. cbn in Hts.
  inversion Hts as [|? ? w ? Hw Hnil]; subst. inversion Hnil; subst. cbn. rewrite andb_true_r, (IH elem w Hw).
  split; [intros ?; by exists w|]. by intros (w'&[= ->]&?).
Qed.

(** A scalar pattern of constants of the type matches exactly the scalars between them. *)
Lemma scalar_matches ty first last v :
  first ≤ last → typed ty v →
  matches false (scalar_pattern store ty first last) v = true ↔
  ∃ z, v = VScalar z ∧ first ≤ z ≤ last ∧ ∀ y, first ≤ y ≤ last → typed ty (VScalar y).
Proof.
  intros Hle Hv. unfold scalar_pattern. split.
  - destruct (analysis_domain store ty) eqn:Hd; try done. destruct (_ && _) eqn:Hin; [|done]. bool_to_prop.
    destruct v as [|z|]; try done. cbn. intros Hz. bool_to_prop. exists z. split_and!; [done|lia|lia|].
    intros y Hy. eapply ty_scalar; [apply not_elem_of_nil|exact Hd|lia].
  - intros (z&->&Hz&Hall). assert (∀ y, first ≤ y ≤ last →
      ∃ min max c, analysis_domain store ty = Scalar min max c ∧ min ≤ y ≤ max) as Hdom.
    { intros y Hy. specialize (Hall y Hy). inversion Hall; subst. eauto 8. }
    destruct (Hdom first ltac:(lia)) as (min&max&c&Hd&Hf). destruct (Hdom last ltac:(lia)) as (?&?&?&Hd'&Hl).
    rewrite Hd in Hd'. injection Hd' as <- <- <-. rewrite Hd.
    replace ((min <=? first) && (last <=? max)) with true by lia. cbn. lia.
Qed.

Lemma expr_agrees e : agrees (analysis_pattern store (AExpr e)) (source_matches store (AExpr e)).
Proof.
  intros ty v Hv. cbn. destruct (expr_variant_pattern store e ty) as [p|] eqn:Hp.
  - unfold expr_variant_pattern in Hp. destruct (variant_info store e ty) as [[enum_id def]|] eqn:Hinfo; [|done].
    cbn in Hp. case_bool_decide as Henum; [|done].
    destruct (resolved_enum_variant store _) as [[eid variant]|] eqn:Hvar; [|done]. cbn in Hp. injection Hp as <-.
    assert (names_variant store e ty (mkDef (module_id enum_id) def) variant) as Hn
      by (apply names_variant_resolved; by exists enum_id, def, eid).
    rewrite constructor_matches. split.
    + intros (vs&->&_). left. by eexists _, variant, vs.
    + intros [(id&variant'&vs&Hn'&->)|(z&_&->)].
      * apply names_variant_resolved in Hn' as (enum_id'&def'&eid'&Hinfo'&_&_&->).
        rewrite Hinfo in Hinfo'. injection Hinfo' as <- <-. exists vs. split; [done|].
        apply matches_row_wildcards; [apply forallb_forall; intros x Hx|].
        { apply list_elem_of_In, elem_of_replicate in Hx. by destruct Hx as [-> _]. }
        rewrite length_replicate. eapply has_types_length. by eapply variant_types.
      * exfalso. pose proof (variant_constructor_found _ _ _ _ _ _ _ Hinfo Henum Hvar) as Hc.
        inversion Hv as [|? ? ? ? ? _ Hd _|]; subst. by rewrite Hd in Hc.
  - assert (∀ id variant, ¬ names_variant store e ty id variant) as Hno.
    { intros id variant (enum_id&def&eid&Hi&Hen&Hvar&->)%names_variant_resolved.
      unfold expr_variant_pattern in Hp. rewrite Hi in Hp. cbn in Hp. rewrite bool_decide_true in Hp by done.
      by rewrite Hvar in Hp. }
    destruct (node_pattern_values store e) as [z|] eqn:Hz; cbn.
    + rewrite scalar_matches by done. split.
      * intros (y&->&Hy&_). right. exists z. split; [done|]. f_equal. lia.
      * intros [(id&variant&vs&Hn&_)|(y&[= <-]&->)]; [by apply Hno in Hn|]. exists z. split_and!; [done|lia|lia|].
        intros y Hy. by replace y with z by lia.
    + split; [done|]. intros [(id&variant&vs&Hn&_)|(y&?&_)]; [by apply Hno in Hn|done].
Qed.

Lemma range_agrees s e i : agrees (analysis_pattern store (ARange s e i)) (source_matches store (ARange s e i)).
Proof.
  intros ty v Hv. cbn. unfold range_pattern. split.
  - destruct (ty_kind store ty) as [[p| | | | | | |]|] eqn:Hk; try done. destruct (is_integer p) eqn:Hp; [|done].
    destruct (node_pattern_values store s) as [first|] eqn:Hs; [|done].
    destruct (node_pattern_values store e) as [last|] eqn:He; [|done].
    destruct (if i then _ else _) as [hi|] eqn:Hhi; [|done]. destruct (hi <? first) eqn:Hlt; [done|]. bool_to_prop.
    assert (∀ y, range_contains first last i y ↔ first ≤ y ≤ hi) as Hr.
    { intros y. unfold range_contains. destruct i; [by injection Hhi as ->|].
      unfold checked in Hhi. destruct (_ && _); [|done]. injection Hhi as <-. lia. }
    rewrite scalar_matches by done. intros (z&->&Hz&Hall). exists first, last, p, z. rewrite Hr.
    split_and!; [done..|lia|lia|]. intros y Hy%Hr. by apply typed_source_value, Hall.
  - intros (first&last&p&z&Hs&He&Hk&Hp&->&Hz&Hall). rewrite Hk, Hp, Hs, He.
    pose proof (pattern_value_range s first Hs). pose proof (pattern_value_range e last He).
    set (hi := if i then last else last - 1).
    assert ((if i then Some last else checked i128_min i128_max (last - 1)) = Some hi) as ->.
    { subst hi. destruct i; [done|]. unfold range_contains in Hz. unfold checked.
      by replace ((i128_min <=? last - 1) && (last - 1 <=? i128_max)) with true by lia. }
    assert (∀ y, range_contains first last i y ↔ first ≤ y ≤ hi) as Hr
      by (intros y; unfold range_contains; subst hi; destruct i; lia).
    apply Hr in Hz. replace (hi <? first) with false by lia. rewrite scalar_matches by (done || lia).
    exists z. split_and!; [done|lia|lia|]. intros y Hy. by apply typed_source_value, Hall, Hr.
Qed.

(** A normalized pattern is sure to match exactly the values the source pattern matches. *)
Lemma analysis_pattern_exact p : agrees (analysis_pattern store p) (source_matches store p).
Proof.
  refine (pattern_kind_ind (λ p, agrees (analysis_pattern store p) (source_matches store p)) _ _ _ _ p); clear p;
    [intros p|intros p|intros ps IH|intros c fields IH].
  - destruct p as [| | | | | | | | | |e|s e i]; try done.
    + intros ty v Hv. cbn [analysis_pattern source_matches]. rewrite constructor_matches. split.
      * intros (vs&->&Hm%matches_row_length). by destruct vs.
      * intros ->. by exists [].
    + apply expr_agrees.
    + apply range_agrees.
  - destruct p as [| |q|q|q| |q|q| | | |]; try done; intros IH ty v Hv; cbn [analysis_pattern source_matches];
      (split;
       [(destruct (ty_kind store ty) as [[| |ro t|t|er va| | |]|] eqn:Hk; try done); (try (destruct ro; try done));
        intros (vs&->&Hm)%constructor_matches;
        (eapply one_field_agrees in Hm as (w&->&Hw); [|done|exact Hv|unfold analysis_domain; by rewrite Hk]); eauto 8
       |intros Hs; repeat match goal with H : ∃ _, _ |- _ => destruct H as [? H] end;
        destruct Hs as (Hk&->&Hs); rewrite Hk; apply constructor_matches; eexists; (split; [reflexivity|]);
        (eapply one_field_agrees; [done|exact Hv|unfold analysis_domain; by rewrite Hk|]); eauto]).
  - intros ty v Hv. cbn [analysis_pattern source_matches]. split.
    + destruct (ty_kind store ty) as [[|ts| | | | | |]|] eqn:Hk; try done.
      destruct (length ps =? length ts)%nat eqn:Hl; [|done]. apply Nat.eqb_eq in Hl.
      intros (vs&->&Hm)%constructor_matches. exists ts, vs. split_and!; [done|done|].
      eapply positions_agree; [|by rewrite length_map| |exact Hm]; [by apply Forall2_map_diag|].
      refine (constructor_types _ _ _ (mkConstructor CTuple ts) _ Hv _). unfold analysis_domain. by rewrite Hk.
    + intros (ts&vs&Hk&->&Hm). rewrite Hk. pose proof (proj1 Hm) as Hl. rewrite length_map in Hl.
      rewrite (proj2 (Nat.eqb_eq _ _) Hl). apply constructor_matches. exists vs. split; [done|].
      eapply positions_agree; [|by rewrite length_map| |exact Hm]; [by apply Forall2_map_diag|].
      refine (constructor_types _ _ _ (mkConstructor CTuple ts) _ Hv _). unfold analysis_domain. by rewrite Hk.
  - intros ty v Hv. cbn [analysis_pattern source_matches]. apply nominal_agrees; [|done].
    destruct fields as [ps|fs rest]; cbn in IH.
    + by apply Forall2_map_diag.
    + split; [|done]. apply Forall2_map_diag.
      eapply Forall_impl; [exact IH|]. by split.
Qed.

(** A pattern that is sure to match some value has no opaque part. *)
Lemma sure_match_opaque_free (p : Pattern PatternConstructor) ty v :
  typed ty v → matches false p v = true → opaque_free p = true.
Proof.
  intros Hv. revert p. eapply (has_type_mut (analysis_domain store) []
    (λ ty v _, ∀ p, matches false p v = true → opaque_free p = true)
    (λ ts vs _, ∀ ps, matches_row false ps vs = true → forallb opaque_free ps = true)); [..|exact Hv]; clear.
  - intros ty id c fs _ _ _ IH [|id' ps| |] Hm; try done. rewrite matches_constructor in Hm.
    apply andb_true_iff in Hm as [_ Hm]. by apply IH.
  - by intros ty min max cm z _ _ _ [| | |].
  - by intros ty _ _ [| | |].
  - by intros [|].
  - intros ty ts v vs _ IHv _ IHvs [|p ps]; [done|]. cbn. intros [Hp Hm]%andb_true_iff. by rewrite IHv, IHvs.
Qed.
End exact.

(** ** The theorems *)

(** A byte, an optional byte, and an enum of a unit variant 2 and a variant 3 with
    a byte; expressions are numbers, those from 10 on are the constants from 0 on. *)
Inductive store_ty : Set := SByte | SMaybe | SShape.

#[global] Instance store_ty_eq_dec : EqDecision store_ty.
Proof. solve_decision. Defined.

Definition demo_enum : GlobalDefId := mkDef 0 1.

Definition demo_store : PatternStore store_ty Z := {|
  normalize ty := ty;
  interned := [SByte; SMaybe; SShape];
  interner_get ty := Some
    match ty with SByte => KPrimitive Ty.U8 | SMaybe => KOptional SByte | SShape => KNominal demo_enum (mkArgs [] []) end;
  target := mkTarget X86_64 Linux;
  resolved_enum_signature d :=
    if bool_decide (d = demo_enum)
    then Some (mkEnumSig false [mkVariantSig 2 PayloadUnit; mkVariantSig 3 (PayloadTuple [SByte])]) else None;
  resolved_struct_signature d := None;
  is_enum_def d := bool_decide (d = demo_enum);
  def_parent d := if bool_decide (d ∈ [mkDef 0 2; mkDef 0 3]) then Some 1 else None;
  field_ty_for_aggregate_ty _ _ := None;
  enum_variant_info e := if bool_decide (e ∈ [2; 3]) then Some (demo_enum, e) else None;
  omitted_enum_variant_info _ _ := None;
  type_prefix_instance _ := None;
  node_pattern_values e := if (10 <=? e) && (e <=? 300) then Some (e - 10) else None;
|}.

#[global] Instance demo_store_laws : StoreLaws demo_store.
Proof.
  split; cbn.
  - intros d Hd. rewrite Hd. by eexists.
  - intros d signature. case_bool_decide; [|done]. intros [= <-]. by apply (bool_decide_unpack _).
  - done.
  - intros e enum_id v. case_bool_decide as He; [|done]. intros [= <- <-].
    apply elem_of_cons in He as [He|He%list_elem_of_singleton]; subst; reflexivity.
  - done.
  - intros ty kind _. destruct ty; by apply (bool_decide_unpack _).
  - intros e z. destruct (_ && _) eqn:He; [|done]. intros [= <-]. bool_to_prop.
    unfold i128_min, i128_max. lia.
Qed.

#[global] Instance demo_store_founded : FoundedDomain (analysis_domain demo_store).
Proof.
  refine {| weight := λ ty, match ty with SByte => 0%nat | SMaybe | SShape => 1%nat end |}.
  intros ty c Hc.
  assert (Forall (λ c, (sum_list_with (λ t, S match t with SByte => 0 | SMaybe | SShape => 1 end) (ctor_fields c) ≤
    match ty with SByte => 0 | SMaybe | SShape => 1 end)%nat) (constructors (analysis_domain demo_store ty))) as Hall
    by (apply (bool_decide_unpack _); by destruct ty).
  exact (proj1 (Forall_forall _ _) Hall c Hc).
Defined.

(** The domain of an integer type, on every maintained target, is the part of
    its value range that [i128] represents, and is marked complete exactly when
    that is the whole range. *)
Theorem integer_domain_exact {T E} (store : PatternStore T E) (ty : T) (p : PrimitiveTy) (b : Z)
    (Hty : ty_kind store ty = Some (KPrimitive p))
    (Hb : integer_bits p (pointer_width (target store)) = Some b) :
  ∃ min max complete, analysis_domain store ty = Scalar min max complete ∧
    (∀ z, min ≤ z ≤ max ↔ in_range (is_signed_integer p) b z ∧ z ≤ i128_max) ∧
    (complete = true ↔ ∀ z, in_range (is_signed_integer p) b z → z ≤ i128_max).
Proof.
  assert (∃ min max complete, 1 ≤ b ∧ analysis_domain store ty = Scalar min max complete ∧
    min = (if is_signed_integer p then - 2 ^ (b - 1) else 0) ∧
    max = Z.min i128_max (if is_signed_integer p then 2 ^ (b - 1) - 1 else 2 ^ b - 1) ∧
    complete = bool_decide (max = (if is_signed_integer p then 2 ^ (b - 1) - 1 else 2 ^ b - 1)))
    as (min&max&complete&Hb1&Hd&Hmin&Hmax&Hcomplete).
  { assert (is_integer p = true) as Hp by (by destruct p).
    destruct (pointer_width_cases store) as [Hw|Hw]; rewrite Hw in Hb; destruct p; try done; injection Hb as <-;
      unfold analysis_domain; rewrite Hty; cbn [is_integer]; unfold integer_domain; cbn [integer_bits]; rewrite ?Hw;
      do 3 eexists; (split; [lia|]); (split; [reflexivity|]); by vm_compute. }
  exists min, max, complete. split; [done|]. unfold in_range. split.
  - intros z. destruct (is_signed_integer p); lia.
  - rewrite Hcomplete, bool_decide_eq_true. split.
    + intros Hall z. destruct (is_signed_integer p); lia.
    + intros Hall. destruct (is_signed_integer p).
      * specialize (Hall (2 ^ (b - 1) - 1)). pose proof (Z.pow_pos_nonneg 2 (b - 1)). lia.
      * specialize (Hall (2 ^ b - 1)). pose proof (Z.pow_pos_nonneg 2 b). lia.
Qed.

Lemma integer_domain_exact_witness :
  ∃ min max complete, analysis_domain demo_store SByte = Scalar min max complete ∧
    (∀ z, min ≤ z ≤ max ↔ in_range (is_signed_integer Ty.U8) 8 z ∧ z ≤ i128_max) ∧
    (complete = true ↔ ∀ z, in_range (is_signed_integer Ty.U8) 8 z → z ≤ i128_max).
Proof. apply (integer_domain_exact demo_store SByte Ty.U8 8); reflexivity. Defined.

(** What a verdict says of a source pattern after the patterns before it: a useful one
    that matches anything matches something new; an unreachable one matches nothing
    new; one whose analysis failed matches no value of the type, and has a [null]. *)
Definition source_verdict {T E} (store : PatternStore T E) (ty : T) (earlier : list (PatternKind E))
    (p : PatternKind E) (verdict : Verdict) : Prop :=
  match verdict with
  | Useful =>
    (∃ v, source_value store ty v ∧ source_matches store p ty v) →
    ∃ v, source_value store ty v ∧ source_matches store p ty v ∧ ∀ p', p' ∈ earlier → ¬ source_matches store p' ty v
  | Unreachable =>
    ∀ v, source_value store ty v → source_matches store p ty v → ∃ p', p' ∈ earlier ∧ source_matches store p' ty v
  | CoverageError _ => null_free p = false ∧ ∀ v, source_value store ty v → ¬ source_matches store p ty v
  end.

Definition source_conclusion {T E} (store : PatternStore T E) (ty : T) (ps : list (PatternKind E))
    (conclusion : Conclusion PatternConstructor) : Prop :=
  match conclusion with
  | Exhaustive => ∀ v, source_value store ty v → ∃ p, p ∈ ps ∧ source_matches store p ty v
  | Missing w => ∃ v, source_value store ty v ∧ matches false w v = true ∧ ∀ p, p ∈ ps → ¬ source_matches store p ty v
  | ExhaustivenessError _ => False
  end.

Section checked.
Context {T E : Type} `{!EqDecision T} (store : PatternStore T E) `{!StoreLaws store}.
Implicit Types (ps earlier : list (PatternKind E)).

Lemma unmatched_sources ty earlier v :
  has_type (analysis_domain store) [] ty v →
  (∀ p', p' ∈ (λ p, analysis_pattern store p ty) <$> earlier → matches false p' v = false) →
  ∀ p', p' ∈ earlier → ¬ source_matches store p' ty v.
Proof.
  intros Hv Hall p' Hp' Hs. apply (analysis_pattern_exact store p' ty v Hv) in Hs.
  rewrite Hall in Hs; [done|]. by apply (list_elem_of_fmap_2 (λ p, analysis_pattern store p ty)).
Qed.

Lemma matched_source ty earlier v p' :
  has_type (analysis_domain store) [] ty v →
  p' ∈ (λ p, analysis_pattern store p ty) <$> earlier → matches false p' v = true →
  ∃ p, p ∈ earlier ∧ source_matches store p ty v.
Proof.
  intros Hv (p&->&Hp)%list_elem_of_fmap Hm. exists p. split; [done|]. by apply analysis_pattern_exact.
Qed.

Lemma source_verdict_ok ty earlier p verdict :
  verdict_ok (analysis_domain store) ty ((λ p, analysis_pattern store p ty) <$> earlier)
    (analysis_pattern store p ty) verdict →
  source_verdict store ty earlier p verdict.
Proof.
  destruct verdict as [| |e]; cbn; setoid_rewrite <-(typed_source_value store).
  - intros Hok (v0&Hv0&Hs0). destruct Hok as (v&Hv&Hm&Hnew).
    { eapply sure_match_opaque_free; [exact Hv0|]. by apply analysis_pattern_exact. }
    exists v. split_and!; [done|by apply analysis_pattern_exact|by apply unmatched_sources].
  - intros Hok v Hv Hs. destruct (Hok v Hv) as (p'&Hp'&Hm).
    { eapply matches_sure_may; [exact Hv|]. by apply analysis_pattern_exact. }
    by eapply matched_source.
  - intros [Hill Hno]. split.
    + destruct (null_free p) eqn:Hn; [|done]. destruct Hill. by apply null_free_pattern_ok.
    + intros v Hv Hs. apply (analysis_pattern_exact store p ty v Hv) in Hs. eapply matches_sure_may in Hs; [|exact Hv].
      by rewrite (Hno v Hv) in Hs.
Qed.

Lemma source_conclusion_ok ty ps conclusion :
  conclusion_ok (analysis_domain store) ty ((λ p, analysis_pattern store p ty) <$> ps) conclusion →
  source_conclusion store ty ps conclusion.
Proof.
  destruct conclusion as [|w|e]; cbn; [setoid_rewrite <-(typed_source_value store)..|done].
  - intros Hall v Hv. destruct (Hall v Hv) as (p'&Hp'&Hm). by eapply matched_source.
  - intros (v&Hv&Hw&Hnew). exists v. split_and!; [done|done|by apply unmatched_sources].
Qed.
End checked.

(** C23: the runtime match checker is correct on source patterns.  It says nothing
    exactly when the matched type contains the error type; else, for a type that does
    not contain itself, it finishes, an accepted match has for every value of the type
    a pattern that matches it, a reported missing pattern stands for a value that none
    matches, and every pattern is called useful or unreachable as the values it and
    the patterns before it match require.  The values of a type ([source_value]) and the
    matching of source patterns ([source_matches]) are defined from the stores alone. *)
Theorem body_match_coverage_correct {T E} `{!EqDecision T} (store : PatternStore T E)
    `{!StoreLaws store, !FoundedDomain (analysis_domain store)} (fuel : nat) (ty : T)
    (arms : list (list (PatternKind E))) (Hfuel : (weight ty + 2 < fuel)%nat) :
  ∃ check, body_match_coverage store fuel ty arms = Some check ∧
  match check with
  | Skipped => contains_error store ty
  | Checked verdicts conclusion =>
    ¬ contains_error store ty ∧ length verdicts = length (concat arms) ∧
    (∀ i p verdict, concat arms !! i = Some p → verdicts !! i = Some verdict →
       source_verdict store ty (take i (concat arms)) p verdict) ∧
    source_conclusion store ty (concat arms) conclusion
  end.
Proof.
  unfold body_match_coverage. destruct (is_error_recovery_ty store ty) eqn:Herr.
  { exists Skipped. split; [done|]. by apply (is_error_recovery_exact store). }
  set (ps := concat arms). set (patterns := (λ p, analysis_pattern store p ty) <$> ps).
  destruct (match_coverage_correct (analysis_domain store) fuel ty patterns Hfuel) as (vds&c&Hc&Hlen&Hall&Hconc).
  rewrite Hc. exists (Checked vds c). split_and!; [done| | | |by apply (source_conclusion_ok store)].
  - intros He. apply (is_error_recovery_exact store) in He. congruence.
  - rewrite Hlen. apply length_fmap.
  - intros i p vd Hp Hvd. apply (source_verdict_ok store). rewrite fmap_take. eapply Hall; [|done].
    unfold patterns. by rewrite list_lookup_fmap, Hp.
Qed.

(** The arms [Shape::Unit, Shape::Byte(0..10)] and [Shape::Byte(_)]. *)
Definition demo_arms : list (list (PatternKind Z)) :=
  [[AExpr 2; ANominal 3 (FTuple [ARange 10 20 false])]; [ANominal 3 (FTuple [AWildcard])]].

Lemma body_match_coverage_correct_witness :
  body_match_coverage demo_store 4 SShape demo_arms = Some (Checked [Useful; Useful; Useful] Exhaustive) ∧
  ∀ v, source_value demo_store SShape v →
    ∃ p, p ∈ concat demo_arms ∧ source_matches demo_store p SShape v.
Proof.
  split; [vm_compute; reflexivity|].
  destruct (body_match_coverage_correct demo_store 4 SShape demo_arms) as (check&Hc&Hok); [cbn; lia|].
  vm_compute in Hc. injection Hc as <-. exact (proj2 (proj2 (proj2 Hok))).
Defined.

(** A [null] against a type that is not optional is a failed analysis, and without the
    wildcard [Shape::Byte(10)] is missing. *)
Example demo_arms_checked :
  body_match_coverage demo_store 4 SShape [[AExpr 2; AOptionalNull]; [ANominal 3 (FTuple [ARange 10 20 false])]]
  = Some (Checked [Useful; CoverageError UnknownConstructor; Useful]
      (Missing (PConstructor (CEnumVariant (mkDef 0 3)) [ScalarRange 10 10]))).
Proof. vm_compute. reflexivity. Qed.
