(* ===== verification/SyntaxKind.v ===== *)
(** * nia-syntax: the kinds of tree elements ([crates/nia-syntax/src/kind.rs])

    Every grammar production has one node kind; tokens keep their lexical kind and
    trivia its own.  The constructors of the source's enum carry the prefix [K].
    The file also gives token kinds and node kinds their decidable equality,
    which the grammar uses through [==], [contains] and [matches!]. *)

From S2P Require Import Prelude RustStd Lexer.

(** ** Equality of token kinds *)

Definition token_code (k : TokenKind) : nat * option LexError :=
  match k with
  | TIdent => (0%nat, None)
  | TInteger => (1%nat, None)
  | TFloat => (2%nat, None)
  | TString => (3%nat, None)
  | TByteString => (4%nat, None)
  | TChar => (5%nat, None)
  | TByteChar => (6%nat, None)
  | TAnd => (7%nat, None)
  | TAs => (8%nat, None)
  | TBool => (9%nat, None)
  | TBreak => (10%nat, None)
  | TConst => (11%nat, None)
  | TContinue => (12%nat, None)
  | TDefer => (13%nat, None)
  | TElse => (14%nat, None)
  | TEnum => (15%nat, None)
  | TExtern => (16%nat, None)
  | TExtend => (17%nat, None)
  | TFalse => (18%nat, None)
  | TFun => (19%nat, None)
  | TFor => (20%nat, None)
  | TIf => (21%nat, None)
  | TIn => (22%nat, None)
  | TIs => (23%nat, None)
  | TLet => (24%nat, None)
  | TLoop => (25%nat, None)
  | TModule => (26%nat, None)
  | TMut => (27%nat, None)
  | TNever => (28%nat, None)
  | TNot => (29%nat, None)
  | TNull => (30%nat, None)
  | TOpaque => (31%nat, None)
  | TOr => (32%nat, None)
  | TPub => (33%nat, None)
  | TRoot => (34%nat, None)
  | TReturn => (35%nat, None)
  | TSelfValue => (36%nat, None)
  | TStruct => (37%nat, None)
  | TSelfType => (38%nat, None)
  | TStatic => (39%nat, None)
  | TSuper => (40%nat, None)
  | TMatch => (41%nat, None)
  | TTrue => (42%nat, None)
  | TTrait => (43%nat, None)
  | TType => (44%nat, None)
  | TUnion => (45%nat, None)
  | TUsing => (46%nat, None)
  | TVar => (47%nat, None)
  | TWhere => (48%nat, None)
  | TWhile => (49%nat, None)
  | TLParen => (50%nat, None)
  | TRParen => (51%nat, None)
  | TLBrace => (52%nat, None)
  | TRBrace => (53%nat, None)
  | TLBracket => (54%nat, None)
  | TRBracket => (55%nat, None)
  | TComma => (56%nat, None)
  | TDot => (57%nat, None)
  | TDotDot => (58%nat, None)
  | TDotDotEq => (59%nat, None)
  | TEllipsis => (60%nat, None)
  | TColon => (61%nat, None)
  | TColonColon => (62%nat, None)
  | TSemicolon => (63%nat, None)
  | TAt => (64%nat, None)
  | TBackslash => (65%nat, None)
  | TQuestion => (66%nat, None)
  | TUnderscore => (67%nat, None)
  | TPlus => (68%nat, None)
  | TMinus => (69%nat, None)
  | TStar => (70%nat, None)
  | TSlash => (71%nat, None)
  | TPercent => (72%nat, None)
  | TAmp => (73%nat, None)
  | TPipe => (74%nat, None)
  | TCaret => (75%nat, None)
  | TTilde => (76%nat, None)
  | TBang => (77%nat, None)
  | TEq => (78%nat, None)
  | TLt => (79%nat, None)
  | TGt => (80%nat, None)
  | TLtLt => (81%nat, None)
  | TGtGt => (82%nat, None)
  | TPlusEq => (83%nat, None)
  | TMinusEq => (84%nat, None)
  | TStarEq => (85%nat, None)
  | TSlashEq => (86%nat, None)
  | TPercentEq => (87%nat, None)
  | TAmpEq => (88%nat, None)
  | TPipeEq => (89%nat, None)
  | TCaretEq => (90%nat, None)
  | TEqEq => (91%nat, None)
  | TBangEq => (92%nat, None)
  | TLtEq => (93%nat, None)
  | TGtEq => (94%nat, None)
  | TLtLtEq => (95%nat, None)
  | TGtGtEq => (96%nat, None)
  | TFatArrow => (97%nat, None)
  | TThinArrow => (98%nat, None)
  | TEof => (99%nat, None)
  | TError e => (100%nat, Some e)
  end.

Definition token_decode (c : nat * option LexError) : TokenKind :=
  match c with
  | (0%nat, _) => TIdent
  | (1%nat, _) => TInteger
  | (2%nat, _) => TFloat
  | (3%nat, _) => TString
  | (4%nat, _) => TByteString
  | (5%nat, _) => TChar
  | (6%nat, _) => TByteChar
  | (7%nat, _) => TAnd
  | (8%nat, _) => TAs
  | (9%nat, _) => TBool
  | (10%nat, _) => TBreak
  | (11%nat, _) => TConst
  | (12%nat, _) => TContinue
  | (13%nat, _) => TDefer
  | (14%nat, _) => TElse
  | (15%nat, _) => TEnum
  | (16%nat, _) => TExtern
  | (17%nat, _) => TExtend
  | (18%nat, _) => TFalse
  | (19%nat, _) => TFun
  | (20%nat, _) => TFor
  | (21%nat, _) => TIf
  | (22%nat, _) => TIn
  | (23%nat, _) => TIs
  | (24%nat, _) => TLet
  | (25%nat, _) => TLoop
  | (26%nat, _) => TModule
  | (27%nat, _) => TMut
  | (28%nat, _) => TNever
  | (29%nat, _) => TNot
  | (30%nat, _) => TNull
  | (31%nat, _) => TOpaque
  | (32%nat, _) => TOr
  | (33%nat, _) => TPub
  | (34%nat, _) => TRoot
  | (35%nat, _) => TReturn
  | (36%nat, _) => TSelfValue
  | (37%nat, _) => TStruct
  | (38%nat, _) => TSelfType
  | (39%nat, _) => TStatic
  | (40%nat, _) => TSuper
  | (41%nat, _) => TMatch
  | (42%nat, _) => TTrue
  | (43%nat, _) => TTrait
  | (44%nat, _) => TType
  | (45%nat, _) => TUnion
  | (46%nat, _) => TUsing
  | (47%nat, _) => TVar
  | (48%nat, _) => TWhere
  | (49%nat, _) => TWhile
  | (50%nat, _) => TLParen
  | (51%nat, _) => TRParen
  | (52%nat, _) => TLBrace
  | (53%nat, _) => TRBrace
  | (54%nat, _) => TLBracket
  | (55%nat, _) => TRBracket
  | (56%nat, _) => TComma
  | (57%nat, _) => TDot
  | (58%nat, _) => TDotDot
  | (59%nat, _) => TDotDotEq
  | (60%nat, _) => TEllipsis
  | (61%nat, _) => TColon
  | (62%nat, _) => TColonColon
  | (63%nat, _) => TSemicolon
  | (64%nat, _) => TAt
  | (65%nat, _) => TBackslash
  | (66%nat, _) => TQuestion
  | (67%nat, _) => TUnderscore
  | (68%nat, _) => TPlus
  | (69%nat, _) => TMinus
  | (70%nat, _) => TStar
  | (71%nat, _) => TSlash
  | (72%nat, _) => TPercent
  | (73%nat, _) => TAmp
  | (74%nat, _) => TPipe
  | (75%nat, _) => TCaret
  | (76%nat, _) => TTilde
  | (77%nat, _) => TBang
  | (78%nat, _) => TEq
  | (79%nat, _) => TLt
  | (80%nat, _) => TGt
  | (81%nat, _) => TLtLt
  | (82%nat, _) => TGtGt
  | (83%nat, _) => TPlusEq
  | (84%nat, _) => TMinusEq
  | (85%nat, _) => TStarEq
  | (86%nat, _) => TSlashEq
  | (87%nat, _) => TPercentEq
  | (88%nat, _) => TAmpEq
  | (89%nat, _) => TPipeEq
  | (90%nat, _) => TCaretEq
  | (91%nat, _) => TEqEq
  | (92%nat, _) => TBangEq
  | (93%nat, _) => TLtEq
  | (94%nat, _) => TGtEq
  | (95%nat, _) => TLtLtEq
  | (96%nat, _) => TGtGtEq
  | (97%nat, _) => TFatArrow
  | (98%nat, _) => TThinArrow
  | (99%nat, _) => TEof
  | (_, Some e) => TError e
  | (_, None) => TEof
  end.

Lemma token_decode_code k : token_decode (token_code k) = k.
Proof. by destruct k. Qed.

#[global] Instance TokenKind_eq_dec : EqDecision TokenKind.
Proof.
  refine (λ k1 k2, cast_if (decide (token_code k1 = token_code k2))).
  - abstract (rewrite <-(token_decode_code k1), <-(token_decode_code k2); by f_equal).
  - abstract congruence.
Defined.

(** ** Node kinds *)

Inductive SyntaxKind : Type :=
  | KSourceFile | KMissing | KError | KItem | KAttribute | KAttributeArgList | KConditionBinary
  | KConditionNot | KConditionParen | KConditionAtom | KVisibility | KModuleDecl | KUsingDecl
  | KUsingTree | KUsingGroup | KUsingName | KStructDecl | KUnionDecl | KEnumDecl | KTraitDecl
  | KExtendDecl | KTypeAliasDecl | KFunctionDecl | KBindingDecl | KFieldList | KField
  | KTupleFieldList | KTupleField | KVariantList | KVariant | KOpenVariant | KSupertraitList
  | KMemberList | KMember | KAssocTypeDecl | KAssocConstDecl | KGenericParamList | KGenericParam
  | KWhereClause | KWherePredicate | KParamList | KParam | KPathType | KPathSegment | KTypeArgList
  | KTypeArg | KConstArg | KTypeOrConstArg | KAssocBindingArg | KProjectionType | KPointerType
  | KVolatilePointerType | KSliceType | KSlicePointeeType | KArrayType | KTupleType | KParenType
  | KRangeType | KFnPointerType | KCallableType | KOptionalType | KErrorUnionType | KSelfType
  | KOpaqueType | KNeverType | KInferType | KErrorType | KLiteralExpr | KStringExpr | KNameExpr
  | KTupleExpr | KParenExpr | KBlock | KIfExpr | KIsClause | KMatchExpr | KMatchArm | KClosureExpr
  | KCaptureList | KCapture | KClosureParamList | KArrayExpr | KTypeTargetExpr | KTraitTargetExpr
  | KTypedStructLiteral | KQualifiedStructLiteral | KOmittedAggregateLiteral
  | KOmittedMemberExpr | KFieldInitList | KFieldInit | KPrefixExpr | KNotExpr | KCastExpr
  | KBinaryExpr | KAssignExpr | KRangeExpr | KCallExpr | KArgList | KFieldExpr | KTupleFieldExpr
  | KTryExpr | KDerefExpr | KErrorErrExpr | KQualifiedExpr | KBracketExpr | KBracketArgList
  | KBracketArg | KSliceRange | KRawExpr | KLetStmt | KStaticStmt | KUsingStmt | KReturnStmt
  | KBreakStmt | KContinueStmt | KDeferStmt | KForStmt | KWhileStmt | KLoopStmt | KExprStmt
  | KWildcardPattern | KBindPattern | KMutPattern | KPointerPattern | KOptionalPattern
  | KNullPattern | KErrorOkPattern | KErrorErrPattern | KTuplePattern | KParenPattern
  | KNominalPattern | KNominalTupleFields | KNominalNamedFields | KNamedPatternField
  | KExprPattern | KRangePattern
  | KToken (k : TokenKind) | KWhitespace | KLineComment.

Definition kind_code (k : SyntaxKind) : nat * option TokenKind :=
  match k with
  | KSourceFile => (0%nat, None)
  | KMissing => (1%nat, None)
  | KError => (2%nat, None)
  | KItem => (3%nat, None)
  | KAttribute => (4%nat, None)
  | KAttributeArgList => (5%nat, None)
  | KConditionBinary => (6%nat, None)
  | KConditionNot => (7%nat, None)
  | KConditionParen => (8%nat, None)
  | KConditionAtom => (9%nat, None)
  | KVisibility => (10%nat, None)
  | KModuleDecl => (11%nat, None)
  | KUsingDecl => (12%nat, None)
  | KUsingTree => (13%nat, None)
  | KUsingGroup => (14%nat, None)
  | KUsingName => (15%nat, None)
  | KStructDecl => (16%nat, None)
  | KUnionDecl => (17%nat, None)
  | KEnumDecl => (18%nat, None)
  | KTraitDecl => (19%nat, None)
  | KExtendDecl => (20%nat, None)
  | KTypeAliasDecl => (21%nat, None)
  | KFunctionDecl => (22%nat, None)
  | KBindingDecl => (23%nat, None)
  | KFieldList => (24%nat, None)
  | KField => (25%nat, None)
  | KTupleFieldList => (26%nat, None)
  | KTupleField => (27%nat, None)
  | KVariantList => (28%nat, None)
  | KVariant => (29%nat, None)
  | KOpenVariant => (30%nat, None)
  | KSupertraitList => (31%nat, None)
  | KMemberList => (32%nat, None)
  | KMember => (33%nat, None)
  | KAssocTypeDecl => (34%nat, None)
  | KAssocConstDecl => (35%nat, None)
  | KGenericParamList => (36%nat, None)
  | KGenericParam => (37%nat, None)
  | KWhereClause => (38%nat, None)
  | KWherePredicate => (39%nat, None)
  | KParamList => (40%nat, None)
  | KParam => (41%nat, None)
  | KPathType => (42%nat, None)
  | KPathSegment => (43%nat, None)
  | KTypeArgList => (44%nat, None)
  | KTypeArg => (45%nat, None)
  | KConstArg => (46%nat, None)
  | KTypeOrConstArg => (47%nat, None)
  | KAssocBindingArg => (48%nat, None)
  | KProjectionType => (49%nat, None)
  | KPointerType => (50%nat, None)
  | KVolatilePointerType => (51%nat, None)
  | KSliceType => (52%nat, None)
  | KSlicePointeeType => (53%nat, None)
  | KArrayType => (54%nat, None)
  | KTupleType => (55%nat, None)
  | KParenType => (56%nat, None)
  | KRangeType => (57%nat, None)
  | KFnPointerType => (58%nat, None)
  | KCallableType => (59%nat, None)
  | KOptionalType => (60%nat, None)
  | KErrorUnionType => (61%nat, None)
  | KSelfType => (62%nat, None)
  | KOpaqueType => (63%nat, None)
  | KNeverType => (64%nat, None)
  | KInferType => (65%nat, None)
  | KErrorType => (66%nat, None)
  | KLiteralExpr => (67%nat, None)
  | KStringExpr => (68%nat, None)
  | KNameExpr => (69%nat, None)
  | KTupleExpr => (70%nat, None)
  | KParenExpr => (71%nat, None)
  | KBlock => (72%nat, None)
  | KIfExpr => (73%nat, None)
  | KIsClause => (74%nat, None)
  | KMatchExpr => (75%nat, None)
  | KMatchArm => (76%nat, None)
  | KClosureExpr => (77%nat, None)
  | KCaptureList => (78%nat, None)
  | KCapture => (79%nat, None)
  | KClosureParamList => (80%nat, None)
  | KArrayExpr => (81%nat, None)
  | KTypeTargetExpr => (82%nat, None)
  | KTraitTargetExpr => (83%nat, None)
  | KTypedStructLiteral => (84%nat, None)
  | KQualifiedStructLiteral => (85%nat, None)
  | KOmittedAggregateLiteral => (86%nat, None)
  | KOmittedMemberExpr => (87%nat, None)
  | KFieldInitList => (88%nat, None)
  | KFieldInit => (89%nat, None)
  | KPrefixExpr => (90%nat, None)
  | KNotExpr => (91%nat, None)
  | KCastExpr => (92%nat, None)
  | KBinaryExpr => (93%nat, None)
  | KAssignExpr => (94%nat, None)
  | KRangeExpr => (95%nat, None)
  | KCallExpr => (96%nat, None)
  | KArgList => (97%nat, None)
  | KFieldExpr => (98%nat, None)
  | KTupleFieldExpr => (99%nat, None)
  | KTryExpr => (100%nat, None)
  | KDerefExpr => (101%nat, None)
  | KErrorErrExpr => (102%nat, None)
  | KQualifiedExpr => (103%nat, None)
  | KBracketExpr => (104%nat, None)
  | KBracketArgList => (105%nat, None)
  | KBracketArg => (106%nat, None)
  | KSliceRange => (107%nat, None)
  | KRawExpr => (108%nat, None)
  | KLetStmt => (109%nat, None)
  | KStaticStmt => (110%nat, None)
  | KUsingStmt => (111%nat, None)
  | KReturnStmt => (112%nat, None)
  | KBreakStmt => (113%nat, None)
  | KContinueStmt => (114%nat, None)
  | KDeferStmt => (115%nat, None)
  | KForStmt => (116%nat, None)
  | KWhileStmt => (117%nat, None)
  | KLoopStmt => (118%nat, None)
  | KExprStmt => (119%nat, None)
  | KWildcardPattern => (120%nat, None)
  | KBindPattern => (121%nat, None)
  | KMutPattern => (122%nat, None)
  | KPointerPattern => (123%nat, None)
  | KOptionalPattern => (124%nat, None)
  | KNullPattern => (125%nat, None)
  | KErrorOkPattern => (126%nat, None)
  | KErrorErrPattern => (127%nat, None)
  | KTuplePattern => (128%nat, None)
  | KParenPattern => (129%nat, None)
  | KNominalPattern => (130%nat, None)
  | KNominalTupleFields => (131%nat, None)
  | KNominalNamedFields => (132%nat, None)
  | KNamedPatternField => (133%nat, None)
  | KExprPattern => (134%nat, None)
  | KRangePattern => (135%nat, None)
  | KWhitespace => (136%nat, None)
  | KLineComment => (137%nat, None)
  | KToken k => (138%nat, Some k)
  end.

Definition kind_decode (c : nat * option TokenKind) : SyntaxKind :=
  match c with
  | (0%nat, _) => KSourceFile
  | (1%nat, _) => KMissing
  | (2%nat, _) => KError
  | (3%nat, _) => KItem
  | (4%nat, _) => KAttribute
  | (5%nat, _) => KAttributeArgList
  | (6%nat, _) => KConditionBinary
  | (7%nat, _) => KConditionNot
  | (8%nat, _) => KConditionParen
  | (9%nat, _) => KConditionAtom
  | (10%nat, _) => KVisibility
  | (11%nat, _) => KModuleDecl
  | (12%nat, _) => KUsingDecl
  | (13%nat, _) => KUsingTree
  | (14%nat, _) => KUsingGroup
  | (15%nat, _) => KUsingName
  | (16%nat, _) => KStructDecl
  | (17%nat, _) => KUnionDecl
  | (18%nat, _) => KEnumDecl
  | (19%nat, _) => KTraitDecl
  | (20%nat, _) => KExtendDecl
  | (21%nat, _) => KTypeAliasDecl
  | (22%nat, _) => KFunctionDecl
  | (23%nat, _) => KBindingDecl
  | (24%nat, _) => KFieldList
  | (25%nat, _) => KField
  | (26%nat, _) => KTupleFieldList
  | (27%nat, _) => KTupleField
  | (28%nat, _) => KVariantList
  | (29%nat, _) => KVariant
  | (30%nat, _) => KOpenVariant
  | (31%nat, _) => KSupertraitList
  | (32%nat, _) => KMemberList
  | (33%nat, _) => KMember
  | (34%nat, _) => KAssocTypeDecl
  | (35%nat, _) => KAssocConstDecl
  | (36%nat, _) => KGenericParamList
  | (37%nat, _) => KGenericParam
  | (38%nat, _) => KWhereClause
  | (39%nat, _) => KWherePredicate
  | (40%nat, _) => KParamList
  | (41%nat, _) => KParam
  | (42%nat, _) => KPathType
  | (43%nat, _) => KPathSegment
  | (44%nat, _) => KTypeArgList
  | (45%nat, _) => KTypeArg
  | (46%nat, _) => KConstArg
  | (47%nat, _) => KTypeOrConstArg
  | (48%nat, _) => KAssocBindingArg
  | (49%nat, _) => KProjectionType
  | (50%nat, _) => KPointerType
  | (51%nat, _) => KVolatilePointerType
  | (52%nat, _) => KSliceType
  | (53%nat, _) => KSlicePointeeType
  | (54%nat, _) => KArrayType
  | (55%nat, _) => KTupleType
  | (56%nat, _) => KParenType
  | (57%nat, _) => KRangeType
  | (58%nat, _) => KFnPointerType
  | (59%nat, _) => KCallableType
  | (60%nat, _) => KOptionalType
  | (61%nat, _) => KErrorUnionType
  | (62%nat, _) => KSelfType
  | (63%nat, _) => KOpaqueType
  | (64%nat, _) => KNeverType
  | (65%nat, _) => KInferType
  | (66%nat, _) => KErrorType
  | (67%nat, _) => KLiteralExpr
  | (68%nat, _) => KStringExpr
  | (69%nat, _) => KNameExpr
  | (70%nat, _) => KTupleExpr
  | (71%nat, _) => KParenExpr
  | (72%nat, _) => KBlock
  | (73%nat, _) => KIfExpr
  | (74%nat, _) => KIsClause
  | (75%nat, _) => KMatchExpr
  | (76%nat, _) => KMatchArm
  | (77%nat, _) => KClosureExpr
  | (78%nat, _) => KCaptureList
  | (79%nat, _) => KCapture
  | (80%nat, _) => KClosureParamList
  | (81%nat, _) => KArrayExpr
  | (82%nat, _) => KTypeTargetExpr
  | (83%nat, _) => KTraitTargetExpr
  | (84%nat, _) => KTypedStructLiteral
  | (85%nat, _) => KQualifiedStructLiteral
  | (86%nat, _) => KOmittedAggregateLiteral
  | (87%nat, _) => KOmittedMemberExpr
  | (88%nat, _) => KFieldInitList
  | (89%nat, _) => KFieldInit
  | (90%nat, _) => KPrefixExpr
  | (91%nat, _) => KNotExpr
  | (92%nat, _) => KCastExpr
  | (93%nat, _) => KBinaryExpr
  | (94%nat, _) => KAssignExpr
  | (95%nat, _) => KRangeExpr
  | (96%nat, _) => KCallExpr
  | (97%nat, _) => KArgList
  | (98%nat, _) => KFieldExpr
  | (99%nat, _) => KTupleFieldExpr
  | (100%nat, _) => KTryExpr
  | (101%nat, _) => KDerefExpr
  | (102%nat, _) => KErrorErrExpr
  | (103%nat, _) => KQualifiedExpr
  | (104%nat, _) => KBracketExpr
  | (105%nat, _) => KBracketArgList
  | (106%nat, _) => KBracketArg
  | (107%nat, _) => KSliceRange
  | (108%nat, _) => KRawExpr
  | (109%nat, _) => KLetStmt
  | (110%nat, _) => KStaticStmt
  | (111%nat, _) => KUsingStmt
  | (112%nat, _) => KReturnStmt
  | (113%nat, _) => KBreakStmt
  | (114%nat, _) => KContinueStmt
  | (115%nat, _) => KDeferStmt
  | (116%nat, _) => KForStmt
  | (117%nat, _) => KWhileStmt
  | (118%nat, _) => KLoopStmt
  | (119%nat, _) => KExprStmt
  | (120%nat, _) => KWildcardPattern
  | (121%nat, _) => KBindPattern
  | (122%nat, _) => KMutPattern
  | (123%nat, _) => KPointerPattern
  | (124%nat, _) => KOptionalPattern
  | (125%nat, _) => KNullPattern
  | (126%nat, _) => KErrorOkPattern
  | (127%nat, _) => KErrorErrPattern
  | (128%nat, _) => KTuplePattern
  | (129%nat, _) => KParenPattern
  | (130%nat, _) => KNominalPattern
  | (131%nat, _) => KNominalTupleFields
  | (132%nat, _) => KNominalNamedFields
  | (133%nat, _) => KNamedPatternField
  | (134%nat, _) => KExprPattern
  | (135%nat, _) => KRangePattern
  | (136%nat, _) => KWhitespace
  | (137%nat, _) => KLineComment
  | (_, Some k) => KToken k
  | (_, None) => KSourceFile
  end.

Lemma kind_decode_code k : kind_decode (kind_code k) = k.
Proof. by destruct k. Qed.

#[global] Instance SyntaxKind_eq_dec : EqDecision SyntaxKind.
Proof.
  refine (λ k1 k2, cast_if (decide (kind_code k1 = kind_code k2))).
  - abstract (rewrite <-(kind_decode_code k1), <-(kind_decode_code k2); by f_equal).
  - abstract congruence.
Defined.

(** ** Categories *)

(** Whether a node is a type production. *)
Definition is_type (k : SyntaxKind) : bool :=
  match k with
  | KPathType | KProjectionType | KPointerType | KVolatilePointerType | KSliceType
  | KSlicePointeeType | KArrayType | KTupleType | KParenType | KRangeType | KFnPointerType
  | KCallableType | KOptionalType | KErrorUnionType | KSelfType | KOpaqueType | KNeverType
  | KInferType | KErrorType => true
  | _ => false
  end.

(** Whether a node is an expression production. *)
Definition is_expr (k : SyntaxKind) : bool :=
  match k with
  | KLiteralExpr | KStringExpr | KNameExpr | KTupleExpr | KParenExpr | KBlock | KIfExpr
  | KMatchExpr | KClosureExpr | KArrayExpr | KTypeTargetExpr | KTraitTargetExpr
  | KTypedStructLiteral | KQualifiedStructLiteral | KOmittedAggregateLiteral
  | KOmittedMemberExpr | KPrefixExpr | KNotExpr | KCastExpr | KBinaryExpr | KAssignExpr
  | KRangeExpr | KCallExpr | KFieldExpr | KTupleFieldExpr | KTryExpr | KDerefExpr | KErrorErrExpr
  | KQualifiedExpr | KBracketExpr | KRawExpr => true
  | _ => false
  end.

(** Whether a node is a statement production. *)
Definition is_stmt (k : SyntaxKind) : bool :=
  match k with
  | KLetStmt | KStaticStmt | KUsingStmt | KReturnStmt | KBreakStmt | KContinueStmt | KDeferStmt
  | KForStmt | KWhileStmt | KLoopStmt | KExprStmt => true
  | _ => false
  end.

(** Whether a node is a pattern production. *)
Definition is_pattern (k : SyntaxKind) : bool :=
  match k with
  | KWildcardPattern | KBindPattern | KMutPattern | KPointerPattern | KOptionalPattern
  | KNullPattern | KErrorOkPattern | KErrorErrPattern | KTuplePattern | KParenPattern
  | KNominalPattern | KExprPattern | KRangePattern => true
  | _ => false
  end.

(** Whether a node is an item declaration production. *)
Definition is_declaration (k : SyntaxKind) : bool :=
  match k with
  | KModuleDecl | KUsingDecl | KStructDecl | KUnionDecl | KEnumDecl | KTraitDecl | KExtendDecl
  | KTypeAliasDecl | KFunctionDecl | KBindingDecl => true
  | _ => false
  end.

(** The lexical kind of a significant token element. *)
Definition token_kind (k : SyntaxKind) : option TokenKind :=
  match k with KToken k => Some k | _ => None end.

Definition is_trivia (k : SyntaxKind) : bool :=
  match k with KWhitespace | KLineComment => true | _ => false end.

(** The coarse categories of node identities ([crates/nia-node-id/src/lib.rs]). *)
Inductive NodeSyntaxKind : Type :=
  | NModule | NItem | NStmt | NExpr | NType | NPattern | NParam | NSyntax | NToken.

Definition node_key_kind (k : SyntaxKind) : NodeSyntaxKind :=
  if is_type k then NType
  else if is_expr k then NExpr
  else if is_stmt k then NStmt
  else if is_pattern k then NPattern
  else if is_declaration k || match k with KItem | KAttribute => true | _ => false end
  then NItem
  else
    match k with
    | KSourceFile => NModule
    | KParam => NParam
    | KToken _ | KWhitespace | KLineComment => NToken
    | _ => NSyntax
    end.

(** The kinds a node of the tree can have: neither a token nor trivia. *)
Definition is_node_kind (k : SyntaxKind) : bool :=
  match token_kind k with Some _ => false | None => negb (is_trivia k) end.
