(* ===== verification/GreenTree.v ===== *)
(** * nia-syntax: the lossless syntax tree ([crates/nia-syntax/src/tree.rs])

    Green nodes store their children relative to their own start; a positioned
    handle adds the start.  [Arc] sharing and the lazily filled cache of positioned
    children are not visible in values, so a [GreenNode] is the shared data and
    the start.  Source texts are their UTF-8 bytes.  Offsets are [nat]; the
    conversions to [isize] and the saturating shifts are written out, and agree
    with addition below [isize_max], which bounds every Rust allocation. *)

From S2P Require Import Prelude RustStd Lexer SyntaxKind.

(** ** Machine offsets *)

Definition isize_max : Z := 2 ^ 63 - 1.

(** [n as isize], with wrap-around. *)
Definition as_isize (n : nat) : Z :=
  if Z.of_nat n <=? isize_max then Z.of_nat n else Z.of_nat n - 2 ^ 64.

(** [u32::try_from(n).ok()]. *)
Definition u32_try_from (n : nat) : option nat :=
  if Z.of_nat n <=? u32_max then Some n else None.

(** [offset.saturating_sub] and [offset.saturating_add]. *)
Definition shift_offset (offset : nat) (delta : Z) : nat :=
  if delta <? 0 then offset - Z.to_nat (- delta)
  else Z.to_nat (Z.min usize_max (Z.of_nat offset + delta)).

(** ** Tree data *)

Record SourceId := mkSourceId { store_id : Z; source_index : Z }.
Record SourceVersion := mkSourceVersion { sv_id : SourceId; sv_revision : Z }.

Record GreenToken := mkGreenToken {
  gt_kind : SyntaxKind;
  gt_span : Span;
  gt_text : list Z;
}.

Inductive GreenNode : Type :=
  mkGreenNode (kind : SyntaxKind) (width : nat) (data_children : list GreenElement) (start : nat)
with GreenElement : Type :=
  | GNode (node : GreenNode)
  | GToken (token : GreenToken).

Definition gn_kind (n : GreenNode) : SyntaxKind := let 'mkGreenNode k _ _ _ := n in k.
Definition gn_width (n : GreenNode) : nat := let 'mkGreenNode _ w _ _ := n in w.
Definition gn_data (n : GreenNode) : list GreenElement := let 'mkGreenNode _ _ cs _ := n in cs.
Definition gn_start (n : GreenNode) : nat := let 'mkGreenNode _ _ _ st := n in st.

Record SyntaxTree := mkSyntaxTree {
  st_source : list Z;
  st_version : option SourceVersion;
  st_root : GreenNode;
}.

Inductive GreenEvent : Type :=
  | GStart (kind : SyntaxKind)
  | GTok (token : LosslessToken)
  | GFinish.

Inductive GreenBuildError : Type := InvalidStructure | InvalidSource.

(** ** Edits *)

Record TextEdit := mkTextEdit { edit_span : Span; replacement : list Z }.

Definition edit_replace (sp : Span) (text : list Z) : TextEdit := mkTextEdit sp text.
Definition edit_insert (offset : nat) (text : list Z) : TextEdit :=
  edit_replace (mkSpan offset offset) text.
Definition edit_delete (sp : Span) : TextEdit := edit_replace sp [].

Definition edit_apply (e : TextEdit) (source : list Z) : option (list Z) :=
  let sp := edit_span e in
  if (end_ sp <? start sp)%nat || (length source <? end_ sp)%nat
     || negb (is_char_boundary source (start sp))
     || negb (is_char_boundary source (end_ sp))
  then None
  else Some (take (start sp) source ++ replacement e ++ drop (end_ sp) source).

Definition edit_delta (e : TextEdit) : Z :=
  as_isize (length (replacement e)) - as_isize (span_len (edit_span e)).

(** ** Positions *)

(** A node handle moved by [delta]; the data is shared. *)
Definition relocated (n : GreenNode) (delta : Z) : GreenNode :=
  if delta =? 0 then n
  else let 'mkGreenNode k w cs st := n in mkGreenNode k w cs (shift_offset st delta).

Definition relocate_token (t : GreenToken) (delta : Z) : GreenToken :=
  mkGreenToken (gt_kind t)
    (mkSpan (shift_offset (start (gt_span t)) delta) (shift_offset (end_ (gt_span t)) delta))
    (gt_text t).

Definition relocate_element (e : GreenElement) (delta : Z) : GreenElement :=
  match e with
  | GNode n => GNode (relocated n delta)
  | GToken t => GToken (relocate_token t delta)
  end.

(** [GreenNode::new]: children given with absolute positions are stored relative
    to the start of the node. *)
Definition green_new (k : SyntaxKind) (sp : Span) (children : list GreenElement) : GreenNode :=
  mkGreenNode k (span_len sp)
    ((λ child, relocate_element child (- as_isize (start sp))) <$> children) (start sp).

(** [GreenNode::span]. *)
Definition gn_span (n : GreenNode) : Span := mkSpan (gn_start n) (gn_start n + gn_width n).

(** A stored child as a node that starts at [st] gives it out. *)
Definition positioned (st : nat) (e : GreenElement) : GreenElement :=
  if (st =? 0)%nat then e else relocate_element e (as_isize st).

Definition children (n : GreenNode) : list GreenElement := positioned (gn_start n) <$> gn_data n.

Definition element_span (e : GreenElement) : Span :=
  match e with GNode n => gn_span n | GToken t => gt_span t end.

Definition element_width (e : GreenElement) : nat := span_len (element_span e).

(** Moves a span that lies at or after the end of an edit. *)
Definition shift_span (sp : Span) (e : TextEdit) : Span :=
  if (start sp <? end_ (edit_span e))%nat then sp
  else mkSpan (shift_offset (start sp) (edit_delta e)) (shift_offset (end_ sp) (edit_delta e)).

Definition shifted (n : GreenNode) (e : TextEdit) : GreenNode :=
  relocated n (if (end_ (edit_span e) <=? gn_start n)%nat then edit_delta e else 0).

Definition shift_token (t : GreenToken) (e : TextEdit) : GreenToken :=
  mkGreenToken (gt_kind t) (shift_span (gt_span t) e) (gt_text t).

Definition shift_element (el : GreenElement) (e : TextEdit) : GreenElement :=
  match el with
  | GNode n => GNode (shifted n e)
  | GToken t => GToken (shift_token t e)
  end.

(** ** Reading a tree *)

(** [GreenNode::push_text]: the texts of the tokens; positions play no role. *)
Fixpoint push_text (n : GreenNode) : list Z :=
  let 'mkGreenNode _ _ cs _ := n in
  (fix go (cs : list GreenElement) : list Z :=
    match cs with
    | [] => []
    | GNode c :: cs => push_text c ++ go cs
    | GToken t :: cs => gt_text t ++ go cs
    end) cs.

Definition full_text (t : SyntaxTree) : list Z := push_text (st_root t).

(** [collect_tokens]: every token with its absolute span, trivia included.  The
    start a node has in its parent's positioned children is passed down. *)
Fixpoint collect_tokens_at (st : nat) (n : GreenNode) : list GreenToken :=
  let 'mkGreenNode _ _ cs _ := n in
  (fix go (cs : list GreenElement) : list GreenToken :=
    match cs with
    | [] => []
    | GNode c :: cs =>
      collect_tokens_at (if (st =? 0)%nat then gn_start c
                         else gn_start (relocated c (as_isize st))) c ++ go cs
    | GToken t :: cs =>
      (if (st =? 0)%nat then t else relocate_token t (as_isize st)) :: go cs
    end) cs.

Definition collect_tokens (n : GreenNode) : list GreenToken := collect_tokens_at (gn_start n) n.

(** A significant token with its child path from the root. *)
Record SyntaxToken := mkSyntaxToken {
  stok_kind : TokenKind;
  stok_span : Span;
  stok_text : list Z;
  stok_path : list nat;
  stok_version : option SourceVersion;
}.

Fixpoint push_tokens_at (version : option SourceVersion) (st : nat) (n : GreenNode)
    (path : list nat) : list SyntaxToken :=
  let 'mkGreenNode _ _ cs _ := n in
  (fix go (index : nat) (cs : list GreenElement) : list SyntaxToken :=
    match cs with
    | [] => []
    | c :: cs =>
      match u32_try_from index with
      | None => []
      | Some i =>
        match c with
        | GNode c =>
          push_tokens_at version
            (if (st =? 0)%nat then gn_start c else gn_start (relocated c (as_isize st)))
            c (path ++ [i])
        | GToken t =>
          let t := if (st =? 0)%nat then t else relocate_token t (as_isize st) in
          match token_kind (gt_kind t) with
          | Some k => [mkSyntaxToken k (gt_span t) (gt_text t) (path ++ [i]) version]
          | None => []
          end
        end
      end ++ go (S index) cs
    end) 0%nat cs.

(** [SyntaxTree::tokens]. *)
Definition tree_tokens (t : SyntaxTree) : list SyntaxToken :=
  push_tokens_at (st_version t) (gn_start (st_root t)) (st_root t) [].

(** [VersionedNodeKey::child_path]. *)
Record NodeKey := mkNodeKey {
  nk_source : SourceId;
  nk_kind : NodeSyntaxKind;
  nk_path : list nat;
  nk_revision : Z;
}.

Definition token_node_key (t : SyntaxToken) : option NodeKey :=
  version ← stok_version t;
  Some (mkNodeKey (sv_id version) NToken (stok_path t) (sv_revision version)).

(** ** The builder *)

Record NodeBuilder := mkNodeBuilder {
  nb_kind : SyntaxKind;
  nb_span : Span;
  nb_children : list GreenElement;
}.

Definition nb_finish (b : NodeBuilder) (offset : nat) : GreenNode :=
  let sp := match nb_children b with [] => mkSpan offset offset | _ => nb_span b end in
  green_new (nb_kind b) sp (nb_children b).

(** Zero-width children do not move the boundaries of a parent that has width. *)
Definition push_element (e : GreenElement) (b : NodeBuilder) : NodeBuilder :=
  let es := element_span e in
  let sp := nb_span b in
  let has_width := negb (start sp =? end_ sp)%nat in
  let sp' :=
    if negb (start es =? end_ es)%nat then
      mkSpan (if has_width then start sp else start es) (end_ es)
    else if negb has_width then es
    else sp in
  mkNodeBuilder (nb_kind b) sp' (nb_children b ++ [e]).

Record GreenNodeBuilder := mkGreenNodeBuilder {
  gb_stack : list NodeBuilder;      (* innermost first *)
  gb_finished : option GreenNode;
  gb_offset : nat;
}.

(** [str::get]: [None] off the ends or off character boundaries. *)
Definition str_get (source : list Z) (a b : nat) : option (list Z) :=
  if (a <=? b)%nat && (b <=? length source)%nat
     && is_char_boundary source a && is_char_boundary source b
  then Some (slice source a b) else None.

Definition syntax_kind (k : LosslessTokenKind) : SyntaxKind :=
  match k with
  | LToken k => KToken k
  | LWhitespace => KWhitespace
  | LLineComment => KLineComment
  end.

Definition builder_start (k : SyntaxKind) (b : GreenNodeBuilder) :
    Result GreenBuildError GreenNodeBuilder :=
  if bool_decide (is_Some (gb_finished b)) || bool_decide (is_Some (token_kind k)) || is_trivia k
  then Err InvalidStructure
  else Ok (mkGreenNodeBuilder
    (mkNodeBuilder k (mkSpan (gb_offset b) (gb_offset b)) [] :: gb_stack b)
    (gb_finished b) (gb_offset b)).

Definition builder_token (source : list Z) (t : LosslessToken) (b : GreenNodeBuilder) :
    Result GreenBuildError GreenNodeBuilder :=
  match gb_stack b with
  | [] => Err InvalidStructure
  | node :: stack =>
    let sp := lspan t in
    if negb (start sp =? gb_offset b)%nat || (length source <? end_ sp)%nat
    then Err InvalidSource
    else
      match str_get source (start sp) (end_ sp) with
      | None => Err InvalidSource
      | Some text =>
        let green := mkGreenToken (syntax_kind (lkind t)) sp text in
        Ok (mkGreenNodeBuilder (push_element (GToken green) node :: stack)
              (gb_finished b) (end_ sp))
      end
  end.

Definition builder_finish (b : GreenNodeBuilder) : Result GreenBuildError GreenNodeBuilder :=
  match gb_stack b with
  | [] => Err InvalidStructure
  | node :: stack =>
    let node := nb_finish node (gb_offset b) in
    match stack with
    | parent :: stack =>
      Ok (mkGreenNodeBuilder (push_element (GNode node) parent :: stack)
            (gb_finished b) (gb_offset b))
    | [] => Ok (mkGreenNodeBuilder [] (Some node) (gb_offset b))
    end
  end.

Definition builder_event (source : list Z) (b : GreenNodeBuilder) (ev : GreenEvent) :
    Result GreenBuildError GreenNodeBuilder :=
  match ev with
  | GStart k => builder_start k b
  | GTok t => builder_token source t b
  | GFinish => builder_finish b
  end.

Fixpoint builder_events (source : list Z) (b : GreenNodeBuilder) (evs : list GreenEvent) :
    Result GreenBuildError GreenNodeBuilder :=
  match evs with
  | [] => Ok b
  | ev :: evs => b ← builder_event source b ev; builder_events source b evs
  end.

(** [build_green]; also [GreenNode::from_events]. *)
Definition build_green (source : list Z) (st : nat) (evs : list GreenEvent) :
    Result GreenBuildError GreenNode :=
  b ← builder_events source (mkGreenNodeBuilder [] None st) evs;
  match gb_stack b with
  | _ :: _ => Err InvalidStructure
  | [] => ok_or (gb_finished b) InvalidStructure
  end.

(** ** Trees *)

Definition from_root_children (source : list Z) (version : option SourceVersion)
    (cs : list GreenElement) : Result GreenBuildError SyntaxTree :=
  let root := green_new KSourceFile (mkSpan 0 (length source)) cs in
  let tree := mkSyntaxTree source version root in
  if bool_decide (full_text tree = st_source tree) then Ok tree else Err InvalidSource.

Definition from_green_events (source : list Z) (version : option SourceVersion)
    (evs : list GreenEvent) : Result GreenBuildError SyntaxTree :=
  root ← build_green source 0 evs;
  if negb (bool_decide (gn_kind root = KSourceFile))
     || negb (bool_decide (gn_span root = mkSpan 0 (length source)))
  then Err InvalidStructure
  else
    let tree := mkSyntaxTree source version root in
    if bool_decide (full_text tree = source) then Ok tree else Err InvalidSource.

(** ** Splicing *)

(** The span of a rebuilt node: from its first to its last child with width. *)
Definition rebuilt_span (node : GreenNode) (cs : list GreenElement) (e : TextEdit) : Span :=
  let widths := element_span <$> filter (λ c, element_width c ≠ 0%nat) cs in
  match widths with
  | first :: rest => mkSpan (start first) (end_ (default first (last rest)))
  | [] => shift_span (gn_span node) e
  end.

(** Replaces the node at [path]; the children before it are kept and the ones
    after it move with the edit. *)
Fixpoint splice_green (node : GreenNode) (path : list nat) (replacement : GreenNode)
    (e : TextEdit) (source_len : nat) {struct path} : option GreenNode :=
  match path with
  | [] => None
  | index :: rest =>
    let fix go (position : nat) (cs : list GreenElement) : option (list GreenElement) :=
      match cs with
      | [] => Some []
      | child :: cs =>
        child ←
          (if (position <? index)%nat then Some child
           else if (position =? index)%nat then
             match child with
             | GNode child =>
               GNode <$> match rest with
                         | [] => Some replacement
                         | _ => splice_green child rest replacement e source_len
                         end
             | GToken _ => None
             end
           else Some (shift_element child e));
        cons child <$> go (S position) cs
      end in
    cs ← go 0%nat (children node);
    if (index <? length (children node))%nat then
      let sp :=
        if bool_decide (gn_kind node = KSourceFile) then mkSpan 0 source_len
        else rebuilt_span node cs e in
      Some (green_new (gn_kind node) sp cs)
    else None
  end.

Definition splice_node (t : SyntaxTree) (path : list nat) (replacement : GreenNode)
    (e : TextEdit) (version : option SourceVersion) : option SyntaxTree :=
  source ← edit_apply e (st_source t);
  root ← splice_green (st_root t) path replacement e (length source);
  let tree := mkSyntaxTree source version root in
  if bool_decide (full_text tree = st_source tree) then Some tree else None.
