(* ===== verification/GreenTreeProps.v ===== *)
(** * nia-syntax: the tree builder keeps every token

    Events that nest around contiguous tokens build exactly one node, whose
    positioned tokens are the tokens of the events and whose span and text are
    those of the covered source. *)

From S2P Require Import Prelude RustStd Lexer SyntaxKind GreenTree.

(** ** Relocation *)

(** Offsets of a source that fits an allocation. *)
Definition small (n : nat) : Prop := Z.of_nat n ≤ isize_max.

Lemma as_isize_small n : small n → as_isize n = Z.of_nat n.
Proof. unfold small, as_isize. intros H. case_match; bool_to_prop; lia. Qed.

Lemma shift_offset_add o n : small (o + n) → shift_offset o (Z.of_nat n) = (o + n)%nat.
Proof.
  unfold small, shift_offset, isize_max, usize_max, u64_max. intros H.
  case_match; bool_to_prop; lia.
Qed.

Lemma shift_offset_sub o n : (n ≤ o)%nat → small o → shift_offset o (- Z.of_nat n) = (o - n)%nat.
Proof.
  unfold small, shift_offset, isize_max, usize_max, u64_max. intros ? H.
  case_match; bool_to_prop; lia.
Qed.

Lemma shift_offset_back o n :
  (n ≤ o)%nat → small o → shift_offset (shift_offset o (- Z.of_nat n)) (Z.of_nat n) = o.
Proof.
  intros Hle Ho. rewrite shift_offset_sub by done.
  rewrite shift_offset_add; [lia|]. by replace (o - n + n)%nat with o by lia.
Qed.

(** Elements that start at or after [st]. *)
Definition after (st : nat) (e : GreenElement) : Prop :=
  match e with
  | GNode n => (st ≤ gn_start n)%nat ∧ small (gn_start n)
  | GToken t => (st ≤ start (gt_span t))%nat ∧ (st ≤ end_ (gt_span t))%nat ∧
                small (start (gt_span t)) ∧ small (end_ (gt_span t))
  end.

Lemma relocate_zero e : after 0 e → relocate_element e 0 = e.
Proof.
  destruct e as [n|[k [a b] txt]]; [done|]. unfold relocate_element, relocate_token. simpl.
  intros (_&_&Ha&Hb). rewrite !(shift_offset_add _ 0) by (by rewrite Nat.add_0_r).
  by rewrite !Nat.add_0_r.
Qed.

Lemma positioned_relocate st e :
  after st e → small st → positioned st (relocate_element e (- as_isize st)) = e.
Proof.
  intros He Hst. unfold positioned. rewrite as_isize_small by done.
  destruct (Nat.eqb_spec st 0) as [->|Hn].
  { apply relocate_zero. destruct e; simpl in *; naive_solver lia. }
  destruct e as [[k w cs s]|[k [a b] txt]]; simpl in *.
  - destruct He as [Hle Hs]. unfold relocated. rewrite !(proj2 (Z.eqb_neq _ _)) by lia.
    by rewrite shift_offset_back.
  - destruct He as (Ha&Hb&Hsa&Hsb). unfold relocate_token. simpl.
    by rewrite !shift_offset_back.
Qed.

(** The children of a new node are the ones it was given. *)
Lemma children_green_new k sp cs :
  Forall (after (start sp)) cs → small (start sp) → children (green_new k sp cs) = cs.
Proof.
  intros Hcs Hst. unfold children, green_new. simpl. rewrite <-list_fmap_compose.
  induction Hcs as [|e cs He Hcs IH]; [done|]. csimpl. rewrite IH. f_equal.
  by apply positioned_relocate.
Qed.

(** ** Text and tokens by children *)

Definition element_text (e : GreenElement) : list Z :=
  match e with GNode n => push_text n | GToken t => gt_text t end.

Definition element_tokens (e : GreenElement) : list GreenToken :=
  match e with GNode n => collect_tokens n | GToken t => [t] end.

Lemma push_text_relocated n d : push_text (relocated n d) = push_text n.
Proof. destruct n as [k w cs st]. unfold relocated. by case_match. Qed.

Lemma push_text_children n : push_text n = concat (element_text <$> children n).
Proof.
  destruct n as [k w cs st]. unfold children. simpl.
  induction cs as [|[c|t] cs IH]; simpl; [done| |].
  - rewrite IH. unfold positioned. f_equal. case_match; simpl; [done|].
    by rewrite push_text_relocated.
  - rewrite IH. unfold positioned. by case_match.
Qed.

Lemma collect_tokens_at_data st st' k w cs s s' :
  st = st' → collect_tokens_at st (mkGreenNode k w cs s) = collect_tokens_at st' (mkGreenNode k w cs s').
Proof. by intros ->. Qed.

Lemma collect_tokens_children n : collect_tokens n = concat (element_tokens <$> children n).
Proof.
  destruct n as [k w cs st]. unfold collect_tokens, children. simpl.
  induction cs as [|[c|t] cs IH]; simpl; [done| |].
  - rewrite IH. unfold positioned. f_equal. case_match; simpl; [done|].
    destruct c as [k' w' cs' s']. unfold relocated. by case_match.
  - rewrite IH. unfold positioned. by case_match.
Qed.

(** ** Well-formed trees *)

(** The elements of a node with width [w], by their stored relative offsets: each
    begins where the one before it ended, the last one ends at [w]. *)
Definition wf_elements (wf : GreenNode → bool) (w : nat) : nat → list GreenElement → bool :=
  fix go (p : nat) (cs : list GreenElement) : bool :=
    match cs with
    | [] => (p =? w)%nat
    | GNode c :: cs => (gn_start c =? p)%nat && wf c && go (p + gn_width c)%nat cs
    | GToken t :: cs =>
      (start (gt_span t) =? p)%nat && (p <=? end_ (gt_span t))%nat && negb (is_node_kind (gt_kind t))
      && (length (gt_text t) =? span_len (gt_span t))%nat && go (end_ (gt_span t)) cs
    end.

(** Nodes have node kinds and tokens do not, the children of a node tile it, and the
    text of a token is as long as its span. *)
Fixpoint green_wf (n : GreenNode) : bool :=
  let 'mkGreenNode k w cs _ := n in is_node_kind k && wf_elements green_wf w 0 cs.

Definition element_wf (e : GreenElement) : bool :=
  match e with
  | GNode n => green_wf n
  | GToken t => negb (is_node_kind (gt_kind t)) && (length (gt_text t) =? span_len (gt_span t))%nat
  end.

(** The stored offsets are relative, so moving a node keeps it well-formed. *)
Lemma green_wf_relocated n d : green_wf (relocated n d) = green_wf n.
Proof. destruct n as [k w cs st]. unfold relocated. by case_match. Qed.

Lemma wf_elements_snoc w p cs e q r :
  wf_elements green_wf q p cs = true → element_wf e = true → element_span e = mkSpan q r → (q ≤ r)%nat →
  r = w → wf_elements green_wf w p (cs ++ [e]) = true.
Proof.
  revert p. induction cs as [|[c|t] cs IH]; intros p Hcs He Hsp Hqr Hw; simpl in *.
  - apply Nat.eqb_eq in Hcs as ->. destruct e as [c|t]; simpl in *.
    + unfold gn_span in Hsp. simplify_eq. by rewrite Nat.eqb_refl, He, Nat.eqb_refl.
    + apply andb_true_iff in He as [He1 He2]. rewrite He1, He2, Hsp. simpl. subst w.
      by rewrite !Nat.eqb_refl, (proj2 (Nat.leb_le _ _)).
  - apply andb_true_iff in Hcs as [Hc Hcs]. rewrite Hc. simpl. by apply IH.
  - apply andb_true_iff in Hcs as [Hc Hcs]. rewrite Hc. simpl. by apply IH.
Qed.

(** ** Nesting of events *)

(** Every finish closes a start of the list, and every start is closed. *)
Fixpoint nested (d : nat) (evs : list GreenEvent) : bool :=
  match evs with
  | [] => (d =? 0)%nat
  | GStart _ :: evs => nested (S d) evs
  | GTok _ :: evs => nested d evs
  | GFinish :: evs => match d with O => false | S d => nested d evs end
  end.

Definition event_token (ev : GreenEvent) : option LosslessToken :=
  match ev with GTok t => Some t | _ => None end.

Definition event_tokens (evs : list GreenEvent) : list LosslessToken := omap event_token evs.

Definition event_kind_ok (ev : GreenEvent) : bool :=
  match ev with GStart k => is_node_kind k | _ => true end.

(** The green token of a lossless token. *)
Definition green_token (source : list Z) (t : LosslessToken) : GreenToken :=
  mkGreenToken (syntax_kind (lkind t)) (lspan t) (span_text source (lspan t)).

(** Contiguous tokens on character boundaries of the source. *)
Inductive contiguous (source : list Z) : nat → list LosslessToken → nat → Prop :=
  | contiguous_nil p : contiguous source p [] p
  | contiguous_cons p t toks q :
      start (lspan t) = p → (p ≤ end_ (lspan t))%nat →
      is_char_boundary source p = true → is_char_boundary source (end_ (lspan t)) = true →
      (end_ (lspan t) ≤ length source)%nat →
      contiguous source (end_ (lspan t)) toks q →
      contiguous source p (t :: toks) q.

Lemma contiguous_le source p toks q : contiguous source p toks q → (p ≤ q)%nat.
Proof. induction 1; lia. Qed.

Lemma contiguous_app source p l1 q l2 r :
  contiguous source p l1 q → contiguous source q l2 r → contiguous source p (l1 ++ l2) r.
Proof. induction 1; [done|]. intros. simpl. constructor; auto. Qed.

Lemma contiguous_app_inv source p l1 l2 r :
  contiguous source p (l1 ++ l2) r → ∃ q, contiguous source p l1 q ∧ contiguous source q l2 r.
Proof.
  revert p. induction l1 as [|t l1 IH]; intros p; simpl.
  - intros. exists p. split; [constructor|done].
  - inversion 1; subst. destruct (IH _ ltac:(eassumption)) as (q&?&?).
    exists q. split; [by constructor|done].
Qed.

Lemma contiguous_text source p toks q :
  contiguous source p toks q →
  concat (gt_text <$> (green_token source <$> toks)) = slice source p q.
Proof.
  induction 1; csimpl; [by rewrite slice_nil|]. subst p.
  rewrite IHcontiguous. unfold span_text. apply slice_app; [lia|].
  by eapply contiguous_le.
Qed.

(** ** The invariant of the builder *)

Section Builder.
Context (source : list Z) (Hsmall : small (length source)).

(** An element whose tokens are the contiguous tokens from [p] to [q]. *)
Definition element_ok (e : GreenElement) (p q : nat) (toks : list LosslessToken) : Prop :=
  element_span e = mkSpan p q ∧ element_tokens e = green_token source <$> toks ∧
  element_text e = concat (gt_text <$> (green_token source <$> toks)) ∧ element_wf e = true.

Inductive elements_ok : list GreenElement → nat → nat → list LosslessToken → Prop :=
  | elements_nil p : elements_ok [] p p []
  | elements_snoc cs p q r e toks toks' :
      elements_ok cs p q toks → (q ≤ r)%nat → (r ≤ length source)%nat →
      element_ok e q r toks' → elements_ok (cs ++ [e]) p r (toks ++ toks').

Definition node_ok (b : NodeBuilder) (p q : nat) (toks : list LosslessToken) : Prop :=
  nb_span b = mkSpan p q ∧ (q ≤ length source)%nat ∧ is_node_kind (nb_kind b) = true ∧
  elements_ok (nb_children b) p q toks.

Lemma elements_ok_le cs p q toks : elements_ok cs p q toks → (p ≤ q)%nat.
Proof. induction 1; lia. Qed.

Lemma elements_ok_after cs p q toks :
  elements_ok cs p q toks → Forall (after p) cs.
Proof.
  induction 1 as [|cs p q r e toks toks' Hcs IH Hqr Hr He]; [done|].
  apply Forall_app. split; [done|]. apply Forall_singleton.
  pose proof (elements_ok_le _ _ _ _ Hcs). destruct He as [Hsp _].
  destruct e as [n|t]; simpl in *; unfold small in *.
  - unfold gn_span in Hsp. simplify_eq. lia.
  - rewrite Hsp. simpl. lia.
Qed.

Lemma elements_ok_tokens cs p q toks :
  elements_ok cs p q toks →
  concat (element_tokens <$> cs) = green_token source <$> toks ∧
  concat (element_text <$> cs) = concat (gt_text <$> (green_token source <$> toks)).
Proof.
  induction 1 as [|cs p q r e toks toks' Hcs [IH1 IH2] Hqr Hr (Hsp&Ht&Hx&_)]; [done|].
  rewrite !fmap_app, !concat_app. csimpl. rewrite !app_nil_r, IH1, IH2, Ht, Hx. done.
Qed.

Lemma green_token_wf t :
  (start (lspan t) ≤ end_ (lspan t))%nat → (end_ (lspan t) ≤ length source)%nat →
  element_wf (GToken (green_token source t)) = true.
Proof.
  intros Hse He. simpl. unfold span_text, slice, span_len.
  rewrite length_take, length_drop, Nat.min_l by lia. rewrite Nat.eqb_refl, andb_true_r.
  by destruct (lkind t).
Qed.

(** The relocated elements of a new node tile it. *)
Lemma elements_ok_wf cs p q toks :
  elements_ok cs p q toks → small p →
  wf_elements green_wf (q - p) 0 ((λ c, relocate_element c (- as_isize p)) <$> cs) = true.
Proof.
  induction 1 as [p|cs p q r e toks toks' Hcs IH Hqr Hr (Hsp&_&_&Hwf)]; intros Hp.
  { simpl. by rewrite Nat.sub_diag. }
  pose proof (elements_ok_le _ _ _ _ Hcs) as Hpq. rewrite fmap_app. csimpl.
  rewrite as_isize_small in * by done. assert (small q ∧ small r) as [Hsq Hsr] by (unfold small in *; lia).
  eapply (wf_elements_snoc _ _ _ _ (q - p) (r - p)); [by apply IH| | |lia|done].
  - destruct e as [n|t]; simpl in *; [by rewrite green_wf_relocated|].
    apply andb_true_iff in Hwf as [Hk Hl]. rewrite Hk, Hsp in *. simpl in *.
    rewrite !shift_offset_sub by (done || lia). unfold span_len in *. simpl in *.
    by replace (r - p - (q - p))%nat with (r - q)%nat by lia.
  - destruct e as [[k w cs' st]|t]; simpl in *.
    + unfold gn_span in *. simpl in *. injection Hsp as -> Hw. unfold relocated. case_match eqn:Hz.
      * apply Z.eqb_eq in Hz. simpl. f_equal; lia.
      * simpl. rewrite shift_offset_sub by (done || lia). f_equal. lia.
    + rewrite Hsp. simpl. by rewrite !shift_offset_sub by (done || lia).
Qed.

(** Pushing the element that continues the node. *)
Lemma push_element_ok b e p q r toks toks' :
  node_ok b p q toks → (q ≤ r)%nat → (r ≤ length source)%nat → element_ok e q r toks' →
  node_ok (push_element e b) p r (toks ++ toks').
Proof.
  intros (Hsp&Hq&Hk&Hcs) Hqr Hr He. pose proof (elements_ok_le _ _ _ _ Hcs) as Hpq.
  split_and!; [|done|done|by eapply elements_snoc].
  unfold push_element. simpl. destruct He as [He _]. rewrite He, Hsp. simpl.
  destruct (Nat.eqb_spec q r), (Nat.eqb_spec p q); simpl; by subst.
Qed.

(** A finished node is an element that covers what the builder has read. *)
Lemma nb_finish_ok b p q toks :
  node_ok b p q toks → element_ok (GNode (nb_finish b q)) p q toks ∧ gn_kind (nb_finish b q) = nb_kind b.
Proof.
  intros (Hsp&Hq&Hk&Hcs). pose proof (elements_ok_le _ _ _ _ Hcs) as Hpq.
  set (sp := match nb_children b with [] => mkSpan q q | _ => nb_span b end).
  assert (sp = mkSpan p q) as Esp.
  { unfold sp. destruct (nb_children b) eqn:E; [|done]. inversion Hcs; subst; [done|].
    by destruct cs. }
  unfold nb_finish. fold sp. rewrite Esp. split; [|done].
  assert (children (green_new (nb_kind b) (mkSpan p q) (nb_children b)) = nb_children b) as Ech.
  { apply children_green_new; [by eapply elements_ok_after|]. unfold small in *. simpl. lia. }
  destruct (elements_ok_tokens _ _ _ _ Hcs) as [Ht Hx]. split_and!.
  - unfold element_span, gn_span. simpl. unfold span_len. simpl. f_equal. lia.
  - cbn [element_tokens]. by rewrite collect_tokens_children, Ech.
  - cbn [element_text]. by rewrite push_text_children, Ech.
  - simpl. rewrite Hk. apply (elements_ok_wf _ _ _ _ Hcs). unfold small in *. lia.
Qed.

(** The open nodes, innermost first, lie end to end. *)
Inductive stack_ok : list NodeBuilder → nat → nat → list LosslessToken → Prop :=
  | stack_nil p : stack_ok [] p p []
  | stack_cons b stack p q r toks toks' :
      stack_ok stack p q toks → node_ok b q r toks' → stack_ok (b :: stack) p r (toks ++ toks').

(** Events that nest in [length stack] open nodes leave a single finished node. *)
Lemma builder_events_ok evs d stack p q r toks :
  stack_ok stack p q toks → length stack = S d → nested d evs = true →
  forallb event_kind_ok evs = true → contiguous source q (event_tokens evs) r → (q ≤ length source)%nat →
  ∃ b, builder_events source (mkGreenNodeBuilder stack None q) evs
         = Ok (mkGreenNodeBuilder [b] None r) ∧
    node_ok b p r (toks ++ event_tokens evs) ∧
    nb_kind <$> last stack = Some (nb_kind b).
Proof.
  revert d stack q toks. induction evs as [|ev evs IH]; intros d stack q toks Hst Hlen Hn Hk Hc Hq.
  { simpl in *. apply Nat.eqb_eq in Hn as ->. inversion Hc; subst.
    destruct stack as [|b [|]]; try done. inversion Hst as [|? ? ? ? ? ? ? Hs Hb]; subst.
    inversion Hs; subst. exists b. rewrite app_nil_r. done. }
  destruct ev as [k|t|]; simpl in Hn, Hk.
  - apply andb_true_iff in Hk as [Hkk Hk].
    assert (builder_start k (mkGreenNodeBuilder stack None q)
      = Ok (mkGreenNodeBuilder (mkNodeBuilder k (mkSpan q q) [] :: stack) None q)) as E.
    { unfold builder_start. simpl. unfold is_node_kind in Hkk.
      destruct (token_kind k); [done|]. apply negb_true_iff in Hkk. by rewrite Hkk. }
    simpl. rewrite E. simpl.
    destruct (IH (S d) (mkNodeBuilder k (mkSpan q q) [] :: stack) q toks) as (b&?&?&Hl);
      [|simpl; lia|done|done|done|done|].
    { rewrite <-(app_nil_r toks). econstructor; [done|]. split_and!; simpl; [done|done|done|constructor]. }
    exists b. split_and!; [done|done|]. rewrite <-Hl. by destruct stack.
  - unfold event_tokens in *. csimpl in Hc. inversion Hc as [|? ? ? ? Hs He Hb1 Hb2 Hle Hrest]; subst.
    inversion Hst as [|node stack' ? m ? toks0 toks1 Hst' Hnode]; subst; [done|].
    pose proof (push_element_ok node
      (GToken (green_token source t)) _ _ _ _ [t] Hnode He Hle) as Hpush.
    destruct (IH d (push_element (GToken (green_token source t)) node :: stack')
      (end_ (lspan t)) (toks0 ++ toks1 ++ [t])) as (b&Hb&?&Hl); [|simpl in *; lia|done|done|done|done|].
    { econstructor; [done|]. apply Hpush. split_and!; simpl; [by destruct (lspan t)|done|by rewrite app_nil_r|].
      by apply green_token_wf. }
    exists b. split_and!.
    + simpl. unfold builder_token. simpl. rewrite Nat.eqb_refl. simpl.
      rewrite (proj2 (Nat.ltb_ge _ _)) by lia. unfold str_get.
      rewrite !(proj2 (Nat.leb_le _ _)) by lia. rewrite Hb1, Hb2. simpl. exact Hb.
    + csimpl. by rewrite <-!app_assoc in *.
    + rewrite <-Hl. by destruct stack'.
  - inversion Hst as [|node stack' ? m ? toks0 toks1 Hst' Hnode]; subst; [done|].
    destruct d as [|d]; [done|].
    destruct (nb_finish_ok _ _ _ _ Hnode) as [Hel _].
    inversion Hst' as [|parent stack'' ? m' ? toks2 toks3 Hst'' Hpar]; subst; [done|].
    assert (m ≤ q)%nat by (destruct Hnode as (_&_&_&Hcs); by eapply elements_ok_le).
    pose proof (push_element_ok parent _ _ _ _ _ _ Hpar ltac:(done) ltac:(done) Hel) as Hpush.
    destruct (IH d (push_element (GNode (nb_finish node q)) parent :: stack'') q
      (toks2 ++ toks3 ++ toks1)) as (b&Hb&?&Hl); [|simpl in *; lia|done|done|done|done|].
    { by econstructor. }
    exists b. split_and!; [done| |].
    + unfold event_tokens in *. csimpl. by rewrite <-!app_assoc in *.
    + rewrite <-Hl. by destruct stack''.
Qed.

Lemma builder_events_app b evs1 evs2 :
  builder_events source b (evs1 ++ evs2) = (b ← builder_events source b evs1; builder_events source b evs2).
Proof.
  revert b. induction evs1 as [|ev evs1 IH]; intros b; [done|]. simpl.
  destruct (builder_event source b ev); simpl; [apply IH|done].
Qed.

(** One root around events that nest and tokens that are contiguous. *)
Lemma build_green_ok k mid p q :
  is_node_kind k = true → nested 0 mid = true → forallb event_kind_ok mid = true →
  contiguous source p (event_tokens mid) q → (p ≤ length source)%nat →
  ∃ n, build_green source p (GStart k :: mid ++ [GFinish]) = Ok n ∧
    gn_kind n = k ∧ gn_span n = mkSpan p q ∧
    collect_tokens n = green_token source <$> event_tokens mid ∧
    push_text n = slice source p q ∧ green_wf n = true.
Proof.
  intros Hk Hn Hks Hc Hp. unfold build_green. simpl. unfold builder_start. simpl.
  unfold is_node_kind in Hk. destruct (token_kind k) eqn:Htk; [done|].
  pose proof Hk as Ht. apply negb_true_iff in Ht. rewrite Ht. simpl.
  rewrite builder_events_app.
  destruct (builder_events_ok mid 0 [mkNodeBuilder k (mkSpan p p) []] p p q []) as (b&Eb&Hb&Hl);
    [|done..|].
  { apply (stack_cons _ [] p p p [] []); [constructor|]. split_and!; simpl; [done|done| |constructor].
    unfold is_node_kind. by rewrite Htk. }
  rewrite Eb. simpl. destruct (nb_finish_ok _ _ _ _ Hb) as [(Hsp&Ht1&Ht2&Hwf) Hkind].
  eexists. split; [done|]. split_and!; [|done|done| |done].
  - rewrite Hkind. simpl in Hl. congruence.
  - rewrite <-(contiguous_text _ _ _ _ Hc). done.
Qed.
End Builder.
