(* ===== verification/GrammarParser.v ===== *)
(** * nia-syntax: the parser state ([crates/nia-syntax/src/grammar/parser.rs])

    Token cursor, event stream, speculation and errors.  A method of [Parser] is a
    computation [M A]: from the parser state it returns a value and the next
    state, or it panics (an index or a slice out of range), or the fuel of a loop
    or of the recursion ran out.  [Option<A>] results keep the state of a failing
    production, as in the source, so they are values and not failures of the
    monad; [let?] is the source's [?].  [max_read] is a [Cell] that every read of
    a token moves, so reads are computations too.  Messages are UTF-8 bytes. *)

From S2P Require Import Prelude RustStd Lexer SyntaxKind GreenTree.

(** ** Data *)

(** One grammar event before forward parents are resolved. *)
Inductive Event : Type :=
  | EStart (kind : option SyntaxKind) (forward_parent : option nat)
  | EFinish
  | EToken (index : nat).

(** [ParseErrorKind] ([crates/nia-syntax/src/lib.rs]). *)
Inductive ParseErrorKind : Type :=
  | Lexical | MissingSemicolon | MissingClosingDelimiter | ExpectedName
  | ExpectedExpression | ExpectedType | ExpectedBindingPattern | GrammarRule.

#[global] Instance ParseErrorKind_eq_dec : EqDecision ParseErrorKind.
Proof. solve_decision. Defined.

Definition for_expected_token (k : TokenKind) : ParseErrorKind :=
  match k with
  | TSemicolon => MissingSemicolon
  | TRParen | TRBracket | TRBrace => MissingClosingDelimiter
  | TIdent => ExpectedName
  | _ => GrammarRule
  end.

Inductive AlternateKind : Type := AltConstArg | AltBracketType.

#[global] Instance AlternateKind_eq_dec : EqDecision AlternateKind.
Proof. solve_decision. Defined.

Record Alternate := mkAlternate { alt_kind : AlternateKind; alt_span : Span; alt_root : GreenNode }.

Record RawError := mkRawError {
  re_span : Span;
  re_kind : ParseErrorKind;
  re_message : list Z;
  re_token : option Span;
}.

Record Iteration := mkIteration {
  it_start : nat;
  it_read_end : nat;
  it_errors_end : nat;
  it_alternates_end : nat;
}.

Record BlockRegion := mkBlockRegion { block_span : Span; prefix_read_end : nat }.

(** Grammar facts about a completed production, a set of bits. *)
Definition Shape : Type := Z.
Definition SHAPE_DEFAULT : Shape := 0.
Definition PATH_WITHOUT_ARGS : Shape := 1.
Definition SINGLE_NAME_PATH : Shape := Z.shiftl 1 1.
Definition VALUE_PATH : Shape := Z.shiftl 1 2.
Definition RANGE_START : Shape := Z.shiftl 1 3.
Definition RANGE_END : Shape := Z.shiftl 1 4.

Definition shape_contains (s other : Shape) : bool := Z.land s other =? other.
Definition shape_with (s other : Shape) : Shape := Z.lor s other.

(** Result of a successful production. *)
Record Parsed := mkParsed {
  pr_class : SyntaxKind;
  pr_span : Span;
  pr_shape : Shape;
  pr_start_event : nat;
  pr_first_event : nat;
}.

(** Completion request returned by a production body. *)
Record Done := mkDone {
  dn_kind : SyntaxKind;
  dn_class : SyntaxKind;
  dn_span : Span;
  dn_shape : Shape;
}.

Definition done_shaped (k : SyntaxKind) (sp : Span) (shape : Shape) : Done := mkDone k k sp shape.
Definition done_new (k : SyntaxKind) (sp : Span) : Done := done_shaped k sp SHAPE_DEFAULT.
Definition done_wrapping (k : SyntaxKind) (inner : Parsed) (sp : Span) : Done :=
  mkDone k (pr_class inner) sp (pr_shape inner).

Record Checkpoint := mkCheckpoint {
  cp_pos : nat;
  cp_emitted : nat;
  cp_events : nat;
  cp_forward_log : nat;
  cp_alternates : nat;
  cp_blocks : nat;
}.

Record RawAlternate := mkRawAlternate {
  ra_kind : AlternateKind;
  ra_span : Span;
  ra_events : list Event;
}.

Record Snapshot := mkSnapshot {
  sn_events : list Event;
  sn_alternates : list RawAlternate;
}.

Record Parser := mkParser {
  p_source : list Z;
  p_tokens : list LosslessToken;
  p_significant : list nat;
  p_pos : nat;
  p_emitted : nat;
  p_max_read : nat;
  p_events : list Event;
  p_errors : list RawError;
  p_forward_log : list nat;
  p_alternates : list RawAlternate;
  p_blocks : list BlockRegion;
}.

Record GrammarOutput := mkGrammarOutput {
  go_events : list GreenEvent;
  go_errors : list RawError;
  go_alternates : list Alternate;
  go_blocks : list BlockRegion;
}.

(** ** Computations *)

Inductive outcome (A : Type) : Type :=
  | Ret (a : A) (p : Parser)
  | Panic
  | OutOfFuel.
Arguments Ret {A} a p.
Arguments Panic {A}.
Arguments OutOfFuel {A}.

Definition M (A : Type) : Type := Parser → outcome A.

Definition ret {A} (a : A) : M A := λ p, Ret a p.
Definition panic {A} : M A := λ _, Panic.
Definition out_of_fuel {A} : M A := λ _, OutOfFuel.

Definition bind {A B} (m : M A) (k : A → M B) : M B := λ p,
  match m p with
  | Ret a p => k a p
  | Panic => Panic
  | OutOfFuel => OutOfFuel
  end.

(** The source's [?] on [Option]. *)
Definition bind_opt {A B} (m : M (option A)) (k : A → M (option B)) : M (option B) :=
  bind m (λ o, match o with Some a => k a | None => ret None end).

Declare Scope grammar_scope.
Delimit Scope grammar_scope with grammar.
Open Scope grammar_scope.

Notation "'let*' x ':=' m 'in' k" := (bind m (λ x, k))
  (at level 10, x binder, m at level 100, k at level 200) : grammar_scope.
Notation "'let?' x ':=' m 'in' k" := (bind_opt m (λ x, k))
  (at level 10, x binder, m at level 100, k at level 200) : grammar_scope.
Notation "m ;;; k" := (bind m (λ _, k))
  (at level 199, right associativity) : grammar_scope.

(** Conditions of the source that read tokens, with the short circuit of [&&],
    [||] and [!]. *)
Definition andM (a b : M bool) : M bool := let* x := a in if x then b else ret false.
Definition orM (a b : M bool) : M bool := let* x := a in if x then ret true else b.
Definition notM (a : M bool) : M bool := let* x := a in ret (negb x).
Notation "'if*' c 'then' a 'else' b" := (bind c (λ x : bool, if x then a else b))
  (at level 10, c at level 100, b at level 200) : grammar_scope.

(** [while]/[loop] with state: the body continues or breaks with a result. *)
Inductive step (St R : Type) : Type :=
  | Continue (st : St)
  | Break (r : R).
Arguments Continue {St R} st.
Arguments Break {St R} r.

Fixpoint loop {St R} (fuel : nat) (body : St → M (step St R)) (st : St) : M R :=
  match fuel with
  | O => out_of_fuel
  | S fuel =>
    let* r := body st in
    match r with
    | Continue st => loop fuel body st
    | Break r => ret r
    end
  end.

(** [while cond { body }] without other state. *)
Definition while (fuel : nat) (cond : M bool) (body : M (step unit unit)) : M unit :=
  loop fuel (λ _, if* cond then body else ret (Break tt)) tt.

(** State access. *)
Definition gets {A} (f : Parser → A) : M A := λ p, Ret (f p) p.
Definition modify (f : Parser → Parser) : M unit := λ p, Ret tt (f p).

Definition set_pos (n : nat) (p : Parser) : Parser :=
  mkParser (p_source p) (p_tokens p) (p_significant p) n (p_emitted p) (p_max_read p)
    (p_events p) (p_errors p) (p_forward_log p) (p_alternates p) (p_blocks p).
Definition set_emitted (n : nat) (p : Parser) : Parser :=
  mkParser (p_source p) (p_tokens p) (p_significant p) (p_pos p) n (p_max_read p)
    (p_events p) (p_errors p) (p_forward_log p) (p_alternates p) (p_blocks p).
Definition set_max_read (n : nat) (p : Parser) : Parser :=
  mkParser (p_source p) (p_tokens p) (p_significant p) (p_pos p) (p_emitted p) n
    (p_events p) (p_errors p) (p_forward_log p) (p_alternates p) (p_blocks p).
Definition set_events (l : list Event) (p : Parser) : Parser :=
  mkParser (p_source p) (p_tokens p) (p_significant p) (p_pos p) (p_emitted p) (p_max_read p)
    l (p_errors p) (p_forward_log p) (p_alternates p) (p_blocks p).
Definition set_errors (l : list RawError) (p : Parser) : Parser :=
  mkParser (p_source p) (p_tokens p) (p_significant p) (p_pos p) (p_emitted p) (p_max_read p)
    (p_events p) l (p_forward_log p) (p_alternates p) (p_blocks p).
Definition set_forward_log (l : list nat) (p : Parser) : Parser :=
  mkParser (p_source p) (p_tokens p) (p_significant p) (p_pos p) (p_emitted p) (p_max_read p)
    (p_events p) (p_errors p) l (p_alternates p) (p_blocks p).
Definition set_alternates (l : list RawAlternate) (p : Parser) : Parser :=
  mkParser (p_source p) (p_tokens p) (p_significant p) (p_pos p) (p_emitted p) (p_max_read p)
    (p_events p) (p_errors p) (p_forward_log p) l (p_blocks p).
Definition set_blocks (l : list BlockRegion) (p : Parser) : Parser :=
  mkParser (p_source p) (p_tokens p) (p_significant p) (p_pos p) (p_emitted p) (p_max_read p)
    (p_events p) (p_errors p) (p_forward_log p) (p_alternates p) l.

Definition push_event (e : Event) : M unit := modify (λ p, set_events (p_events p ++ [e]) p).

(** ** Construction *)

(** The indices of the tokens that are not trivia, from index [i] on. *)
Fixpoint significant_from (i : nat) (tokens : list LosslessToken) : list nat :=
  match tokens with
  | [] => []
  | t :: tokens =>
    match lkind t with
    | LToken _ => i :: significant_from (S i) tokens
    | LWhitespace | LLineComment => significant_from (S i) tokens
    end
  end.

(** [Parser::new]. *)
Definition parser_new (source : list Z) (tokens : list LosslessToken) : Parser :=
  mkParser source tokens (significant_from 0 tokens) 0 0 0 [] [] [] [] [].

(** [slice::partition_point]: the length of the prefix that satisfies [f]. *)
Fixpoint partition_point {A} (f : A → bool) (l : list A) : nat :=
  match l with
  | [] => 0
  | x :: l => if f x then S (partition_point f l) else 0
  end.

Definition seek (st : nat) : M unit := modify (λ p,
  let emitted := partition_point (λ t, (start (lspan t) <? st)%nat) (p_tokens p) in
  let pos := partition_point (λ index, (index <? emitted)%nat) (p_significant p) in
  set_max_read pos (set_pos pos (set_emitted emitted p))).

(** ** Token cursor *)

(** Moves [max_read] to [pos] when that is farther. *)
Definition read_to (pos : nat) (p : Parser) : Parser :=
  if (p_max_read p <? pos)%nat then set_max_read pos p else p.

Definition token (pos : nat) : M LosslessToken := λ p,
  match length (p_significant p) with
  | O => Panic
  | S last =>
    let pos := Nat.min pos last in
    let p := read_to pos p in
    match p_significant p !! pos with
    | None => Panic
    | Some index =>
      match p_tokens p !! index with
      | None => Panic
      | Some t => Ret t p
      end
    end
  end.

Definition nth_kind (offset : nat) : M (option TokenKind) := λ p,
  let pos := (p_pos p + offset)%nat in
  match p_significant p !! pos with
  | None => Ret None p
  | Some index =>
    let p := read_to pos p in
    match p_tokens p !! index with
    | None => Panic
    | Some t =>
      match lkind t with
      | LToken k => Ret (Some k) p
      | LWhitespace | LLineComment => Ret None p
      end
    end
  end.

(** [Parser::kind]. *)
Definition cur : M TokenKind := let* k := nth_kind 0 in ret (default TEof k).

Definition at_ (k : TokenKind) : M bool := let* c := cur in ret (bool_decide (c = k)).

(** [kinds.contains(k)], also [matches!(k, ..)]. *)
Definition kind_in (k : TokenKind) (kinds : list TokenKind) : bool := bool_decide (k ∈ kinds).

Definition at_any (kinds : list TokenKind) : M bool := let* c := cur in ret (kind_in c kinds).

(** [matches!(self.nth_kind(offset), Some(k))]. *)
Definition nth_is (offset : nat) (k : TokenKind) : M bool :=
  let* n := nth_kind offset in ret (bool_decide (n = Some k)).

Definition cur_span : M Span :=
  let* pos := gets p_pos in let* t := token pos in ret (lspan t).

Definition current_start : M nat := let* sp := cur_span in ret (start sp).

(** [&self.source[start..end]]. *)
Definition cur_text : M (list Z) :=
  let* sp := cur_span in
  let* source := gets p_source in
  match str_get source (start sp) (end_ sp) with
  | None => panic
  | Some text => ret text
  end.

Definition previous_end : M nat :=
  let* pos := gets p_pos in
  match pos with
  | O => ret 0%nat
  | S pos => let* t := token pos in ret (end_ (lspan t))
  end.

(** [emit_until]: an [EToken] for every lossless token before index [en]. *)
Definition emit_until (en : nat) : M unit := modify (λ p,
  set_emitted (Nat.max (p_emitted p) en)
    (set_events (p_events p ++ (EToken <$> seq (p_emitted p) (en - p_emitted p))) p)).

Definition flush_trivia : M unit :=
  let* p := gets id in
  match p_significant p !! p_pos p with
  | Some index => emit_until index
  | None => ret tt
  end.

(** Consumes the current token, stopping at EOF. *)
Definition bump : M Span :=
  let* sp := cur_span in
  if* at_ TEof then ret sp
  else
    let* p := gets id in
    match p_significant p !! p_pos p with
    | None => panic
    | Some index =>
      emit_until (index + 1);;;
      modify (set_pos (p_pos p + 1));;;
      ret sp
    end.

Definition eat (k : TokenKind) : M (option Span) :=
  if* at_ k then let* sp := bump in ret (Some sp) else ret None.

(** [self.eat(k).is_some()]. *)
Definition ate (k : TokenKind) : M bool :=
  let* r := eat k in ret (match r with Some _ => true | None => false end).

Definition has_line_break_between (st en : nat) : M bool :=
  let* source := gets p_source in
  ret match str_get source st en with
      | Some text => existsb is_newline text
      | None => false
      end.

(** ** Iterations and the root *)

Definition begin_iteration : M unit := modify (λ p, set_max_read (p_pos p) p).

Definition read_end : M nat := λ p,
  match p_significant p !! p_max_read p with
  | None => Panic
  | Some index =>
    match p_tokens p !! index with
    | None => Panic
    | Some t => Ret (end_ (lspan t)) p
    end
  end.

Definition record_block (sp : Span) (prefix : nat) : M unit :=
  modify (λ p, set_blocks (p_blocks p ++ [mkBlockRegion sp prefix]) p).

Definition iteration (st : nat) : M Iteration :=
  let* first := token st in
  let* p := gets id in
  let* farthest := token (p_max_read p) in
  ret (mkIteration (start (lspan first)) (end_ (lspan farthest))
         (length (p_errors p)) (length (p_alternates p))).

Definition start_root : M unit := push_event (EStart (Some KSourceFile) None).

Definition finish_fragment : M unit := push_event EFinish.

Definition finish_root : M unit :=
  let* p := gets id in
  emit_until (length (p_tokens p));;;
  finish_fragment.

(** ** Node construction *)

(** Gives the start event at [i] its kind and finishes the node. *)
Definition complete (i : nat) (k : SyntaxKind) : M unit :=
  let* p := gets id in
  match p_events p !! i with
  | None => panic
  | Some e =>
    (match e with
     | EStart _ fp => modify (set_events (<[i := EStart (Some k) fp]> (p_events p)))
     | _ => ret tt
     end);;;
    push_event EFinish
  end.

(** [Parser::node]; the body may also return a value that the source assigns to a
    captured variable. *)
Definition node_with {X} (body : M (option Done * X)) : M (option Parsed * X) :=
  flush_trivia;;;
  let* p := gets id in
  let start_pos := p_pos p in
  let start_event := length (p_events p) in
  push_event (EStart None None);;;
  let* r := body in
  match r with
  | (Some d, x) =>
    complete start_event (dn_kind d);;;
    ret (Some (mkParsed (dn_class d) (dn_span d) (dn_shape d) start_event start_event), x)
  | (None, x) =>
    let* pos := gets p_pos in
    (if (pos =? start_pos)%nat then ret tt else complete start_event KError);;;
    ret (None, x)
  end.

Definition node (body : M (option Done)) : M (option Parsed) :=
  let* r := node_with (let* d := body in ret (d, tt)) in ret (fst r).

(** [Parser::node_preceding]: the new node becomes the forward parent of [lhs]. *)
Definition node_preceding (lhs : Parsed) (body : M (option Done)) : M (option Parsed) :=
  let* start_event := gets (λ p, length (p_events p)) in
  push_event (EStart None None);;;
  let* p := gets id in
  match p_events p !! pr_start_event lhs with
  | None => panic
  | Some e =>
    (match e with
     | EStart k _ =>
       modify (λ p,
         set_forward_log (p_forward_log p ++ [pr_start_event lhs])
           (set_events (<[pr_start_event lhs :=
              EStart k (Some (start_event - pr_start_event lhs)%nat)]> (p_events p)) p))
     | _ => ret tt
     end);;;
    let* r := body in
    match r with
    | Some d =>
      complete start_event (dn_kind d);;;
      ret (Some (mkParsed (dn_class d) (dn_span d) (dn_shape d) start_event
                   (pr_first_event lhs)))
    | None => complete start_event KError;;; ret None
    end
  end.

(** Wraps the tokens [recover] consumes in an error node. *)
Definition recover_in_error {X} (recover : M X) : M X :=
  let* start_pos := gets p_pos in
  flush_trivia;;;
  let* start_event := gets (λ p, length (p_events p)) in
  push_event (EStart None None);;;
  let* x := recover in
  let* pos := gets p_pos in
  (if (pos =? start_pos)%nat then ret tt else complete start_event KError);;;
  ret x.

Definition missing : M unit :=
  push_event (EStart (Some KMissing) None);;; push_event EFinish.

(** Drops forward-parent links that leave the slice. *)
Definition detach_event (len index : nat) (e : Event) : Event :=
  match e with
  | EStart k fp =>
    EStart k (match fp with
              | Some offset => if (index + offset <? len)%nat then Some offset else None
              | None => None
              end)
  | other => other
  end.

Definition detach_events (events : list Event) : list Event :=
  imap (detach_event (length events)) events.

Definition snapshot (parsed : Parsed) (c : Checkpoint) : M Snapshot :=
  let* p := gets id in
  if (length (p_events p) <? pr_first_event parsed)%nat
     || (length (p_alternates p) <? cp_alternates c)%nat
  then panic
  else ret (mkSnapshot (detach_events (drop (pr_first_event parsed) (p_events p)))
              (drop (cp_alternates c) (p_alternates p))).

(** Restores the alternates of a snapshot that have no reading yet. *)
Definition restore_alternates (saved current : list RawAlternate) : list RawAlternate :=
  foldl (λ current alternate,
    if existsb (λ existing,
         bool_decide (ra_kind existing = ra_kind alternate)
         && bool_decide (ra_span existing = ra_span alternate)) current
    then current else current ++ [alternate]) current saved.

Definition push_alternate (k : AlternateKind) (sp : Span) (s : Snapshot) : M unit :=
  modify (λ p,
    set_alternates
      (restore_alternates (sn_alternates s) (p_alternates p) ++ [mkRawAlternate k sp (sn_events s)])
      p).

(** ** Speculation *)

Definition checkpoint : M Checkpoint := gets (λ p,
  mkCheckpoint (p_pos p) (p_emitted p) (length (p_events p)) (length (p_forward_log p))
    (length (p_alternates p)) (length (p_blocks p))).

(** Clears the links that were made after a checkpoint on events before it. *)
Fixpoint clear_links (limit : nat) (log : list nat) (events : list Event) : option (list Event) :=
  match log with
  | [] => Some events
  | event :: log =>
    if (event <? limit)%nat then
      match events !! event with
      | None => None
      | Some (EStart k _) => clear_links limit log (<[event := EStart k None]> events)
      | Some _ => clear_links limit log events
      end
    else clear_links limit log events
  end.

Definition rewind (c : Checkpoint) : M unit := λ p,
  if (length (p_forward_log p) <? cp_forward_log c)%nat then Panic
  else
    match clear_links (cp_events c) (drop (cp_forward_log c) (p_forward_log p)) (p_events p) with
    | None => Panic
    | Some events =>
      Ret tt (mkParser (p_source p) (p_tokens p) (p_significant p)
        (cp_pos c) (cp_emitted c) (p_max_read p)
        (take (cp_events c) events) (p_errors p)
        (take (cp_forward_log c) (p_forward_log p))
        (take (cp_alternates c) (p_alternates p))
        (take (cp_blocks c) (p_blocks p)))
    end.

Definition errors_len : M nat := gets (λ p, length (p_errors p)).

Definition truncate_errors (len : nat) : M unit :=
  modify (λ p, set_errors (take len (p_errors p)) p).

Definition ensure_progress (c : Checkpoint) : M unit :=
  let* pos := gets p_pos in
  if (pos =? cp_pos c)%nat then
    if* at_ TEof then ret tt else (bump;;; ret tt)
  else ret tt.

(** ** Errors *)

Definition at_lexical_error : M bool :=
  let* k := cur in ret match k with TError _ => true | _ => false end.

Definition push_error (e : RawError) : M unit :=
  modify (λ p, set_errors (p_errors p ++ [e]) p).

Definition error_here_as (k : ParseErrorKind) (message : list Z) : M unit :=
  if* at_lexical_error then ret tt
  else
    let* sp := cur_span in
    push_error (mkRawError sp k message (Some sp)).

Definition error_here (message : string) : M unit :=
  error_here_as GrammarRule (bytes_of_string message).

(** [char::is_whitespace]: the Unicode property White_Space. *)
Definition char_is_whitespace (c : Z) : bool :=
  ((9 <=? c) && (c <=? 13)) || (c =? 32) || (c =? 133) || (c =? 160) || (c =? 5760)
  || ((8192 <=? c) && (c <=? 8202)) || (c =? 8232) || (c =? 8233) || (c =? 8239)
  || (c =? 8287) || (c =? 12288).

Fixpoint trim_start (s : list Z) : list Z :=
  match s with
  | [] => []
  | c :: rest => if char_is_whitespace c then trim_start rest else s
  end.

Definition trim (s : list Z) : list Z := reverse (trim_start (reverse (trim_start s))).

Definition found_token_description : M (list Z) :=
  if* at_ TEof then ret (bytes_of_string "end of file")
  else
    let* text := cur_text in
    let chars := trim (default [] (utf8_decode text)) in
    ret match chars with
        | [] => bytes_of_string "an unexpected token"
        | _ =>
          bytes_of_string "`" ++ as_bytes (take 32 chars)
          ++ (match drop 32 chars with
              | [] => bytes_of_string "`"
              | _ => bytes_of_string "...`"
              end)
        end.

(** [format!("{message}; found {}", self.found_token_description())]. *)
Definition found_message (message : string) : M (list Z) :=
  let* found := found_token_description in
  ret (bytes_of_string message ++ bytes_of_string "; found " ++ found).

Definition expected_here (k : ParseErrorKind) (message : string) : M unit :=
  let* message := found_message message in
  error_here_as k message;;;
  missing.

Definition error_at_as (k : ParseErrorKind) (sp : Span) (message : list Z) : M unit :=
  if* andM (andM at_lexical_error (let* here := cur_span in ret (bool_decide (sp = here))))
        (ret (negb (bool_decide (k = Lexical))))
  then ret tt
  else push_error (mkRawError sp k message None).

Definition error_at (sp : Span) (message : string) : M unit :=
  error_at_as GrammarRule sp (bytes_of_string message).

Definition error_at_end_as (k : ParseErrorKind) (sp : Span) (message : list Z) : M unit :=
  if* andM at_lexical_error (ret (negb (bool_decide (k = Lexical))))
  then ret tt
  else error_at_as k (mkSpan (Nat.max (end_ sp - 1) (start sp)) (end_ sp)) message.

Definition expect (k : TokenKind) (message : string) : M (option Span) :=
  if* at_ k then let* sp := bump in ret (Some sp)
  else (expected_here (for_expected_token k) message;;; ret None).

Definition expect_semicolon_after (anchor : Span) (message : string) : M (option Span) :=
  if* at_ TSemicolon then let* sp := bump in ret (Some sp)
  else
    let* message := found_message message in
    error_at_end_as MissingSemicolon anchor message;;;
    missing;;;
    ret None.

Definition expect_name (message : string) : M (option Span) :=
  if* at_ TIdent then let* sp := bump in ret (Some sp)
  else (expected_here ExpectedName message;;; ret None).

(** ** Resolution of forward parents *)

(** Follows the forward parents of a start event; every visited start is taken
    out of the list.  [None] is an index out of range. *)
Fixpoint forward_chain (fuel : nat) (events : list Event) (cursor : nat) (next : option nat)
    (chain : list (option SyntaxKind)) : option (list (option SyntaxKind) * list Event) :=
  match next with
  | None => Some (chain, events)
  | Some offset =>
    match fuel with
    | O => None
    | S fuel =>
      let cursor := (cursor + offset)%nat in
      match events !! cursor with
      | None => None
      | Some ev =>
        let events := <[cursor := EStart None None]> events in
        match ev with
        | EStart k fp => forward_chain fuel events cursor fp (chain ++ [k])
        | _ => Some (chain, events)
        end
      end
    end
  end.

(** The outermost start first, abandoned starts dropped. *)
Definition chain_starts (chain : list (option SyntaxKind)) : list GreenEvent :=
  GStart <$> omap id (reverse chain).

Fixpoint resolve_from (n index : nat) (tokens : list LosslessToken) (events : list Event) :
    option (list GreenEvent) :=
  match n with
  | O => Some []
  | S n =>
    match events !! index with
    | None => None
    | Some ev =>
      let events := <[index := EFinish]> events in
      match ev with
      | EStart k fp =>
        '(chain, events) ← forward_chain (S (length events)) events index fp [k];
        rest ← resolve_from n (S index) tokens events;
        Some (chain_starts chain ++ rest)
      | EFinish =>
        rest ← resolve_from n (S index) tokens events;
        Some (GFinish :: rest)
      | EToken i =>
        t ← tokens !! i;
        rest ← resolve_from n (S index) tokens events;
        Some (GTok t :: rest)
      end
    end
  end.

Definition resolve_events (tokens : list LosslessToken) (events : list Event) :
    option (list GreenEvent) :=
  resolve_from (length events) 0 tokens events.

(** The tree of one alternate; the outer [option] is a panic. *)
Definition resolve_alternate (source : list Z) (tokens : list LosslessToken) (a : RawAlternate) :
    option (Result GreenBuildError Alternate) :=
  events ← resolve_events tokens (ra_events a);
  Some match head (omap (λ ev, match ev with GTok t => Some (start (lspan t)) | _ => None end) events) with
       | None => Err InvalidStructure
       | Some st =>
         root ← build_green source st events;
         Ok (mkAlternate (ra_kind a) (ra_span a) root)
       end.

Fixpoint resolve_alternates (source : list Z) (tokens : list LosslessToken)
    (alternates : list RawAlternate) : option (Result GreenBuildError (list Alternate)) :=
  match alternates with
  | [] => Some (Ok [])
  | a :: alternates =>
    r ← resolve_alternate source tokens a;
    match r with
    | Err e => Some (Err e)
    | Ok a =>
      rest ← resolve_alternates source tokens alternates;
      Some (match rest with Ok rest => Ok (a :: rest) | Err e => Err e end)
    end
  end.

Definition into_parts (p : Parser) : option (Result GreenBuildError GrammarOutput) :=
  events ← resolve_events (p_tokens p) (p_events p);
  alternates ← resolve_alternates (p_source p) (p_tokens p) (p_alternates p);
  Some match alternates with
       | Ok alternates => Ok (mkGrammarOutput events (p_errors p) alternates (p_blocks p))
       | Err e => Err e
       end.
