(* ===== verification/GrammarLogic.v ===== *)
(** * nia-syntax: a program logic for the grammar

    The grammar is about a hundred productions over one mutable parser.  Their
    properties are proved with weakest preconditions of the computations [M A].
    A precondition speaks of the [core] of the parser state: cursor, events,
    links, alternates and blocks.  The farthest read and the errors are left out,
    since no decision of the grammar depends on them in a way the properties see.

    - [wp E m c Q]: from core [c], [m] does not panic and its results satisfy [Q];
      with [total E] it also does not run out of fuel.
    - [Ext c c']: [c'] continues [c]: its events are those of [c] followed by
      events that nest, link forward and emit the next tokens in order.
    - [Made c c' r]: [r] is a production that was parsed from [c] on and is
      still open for a parent at [c'].
    - [Spec E m pre post]: the contract of a computation, a class, so that the
      proof of a caller finds the contracts of the productions it calls. *)

From S2P Require Import Prelude RustStd Lexer LexerProps SyntaxKind GreenTree GreenTreeProps GrammarParser.

(** ** The token stream *)

(** A source with its tokens, and whether termination is claimed too. *)
Record Env := mkEnv { src : list Z; toks : list LosslessToken; total : bool }.

Definition sigs (E : Env) : list nat := significant_from 0 (toks E).
Definition len (E : Env) : nat := length (sigs E).

(** The kind of the [i]th significant token, EOF past the end. *)
Definition kind_at (E : Env) (i : nat) : TokenKind :=
  match sigs E !! i with
  | Some j =>
    match toks E !! j with
    | Some t => match lkind t with LToken k => k | _ => TEof end
    | None => TEof
    end
  | None => TEof
  end.

(** What the parser relies on of its tokens: they are the lossless tokens of the
    source. *)
Class EnvOk (E : Env) : Prop := {
  env_tiles : tiles (src E) 0 (toks E);
  env_boundaries : Forall (λ t, is_char_boundary (src E) (start (lspan t)) = true ∧
                                is_char_boundary (src E) (end_ (lspan t)) = true) (toks E);
}.

Lemma significant_from_lookup i tokens j x :
  significant_from i tokens !! j = Some x →
  (i ≤ x)%nat ∧ ∃ t k, tokens !! (x - i)%nat = Some t ∧ lkind t = LToken k.
Proof.
  revert i j. induction tokens as [|t tokens IH]; intros i j Hj; [done|]. simpl in Hj.
  assert (∀ j, significant_from (S i) tokens !! j = Some x →
    (i ≤ x)%nat ∧ ∃ t' k, (t :: tokens) !! (x - i)%nat = Some t' ∧ lkind t' = LToken k) as Hrec.
  { intros j' Hj'. destruct (IH _ _ Hj') as (Hle&t'&k&Ht&Hk). split; [lia|].
    exists t', k. split; [|done]. by replace (x - i)%nat with (S (x - S i)) by lia. }
  destruct (lkind t) eqn:Hk; [destruct j as [|j]|..]; simpl in Hj; [|by eauto..].
  simplify_eq. split; [done|]. rewrite Nat.sub_diag. eauto.
Qed.

Lemma significant_from_lt i tokens j1 j2 x1 x2 :
  significant_from i tokens !! j1 = Some x1 → significant_from i tokens !! j2 = Some x2 →
  (j1 < j2)%nat → (x1 < x2)%nat.
Proof.
  revert i j1 j2. induction tokens as [|t tokens IH]; intros i j1 j2 H1 H2 Hlt; [done|].
  simpl in *. destruct (lkind t); [|by eauto..].
  destruct j1 as [|j1], j2 as [|j2]; simpl in *; [lia| |lia|].
  - simplify_eq. apply significant_from_lookup in H2 as [? _]. lia.
  - eapply (IH (S i) j1 j2); [done|done|lia].
Qed.

(** The last significant token is the EOF at the end, and the only one. *)
Lemma significant_from_eof bs p i tokens :
  tiles bs p tokens →
  ∃ l, significant_from i tokens = l ++ [(i + length tokens - 1)%nat] ∧
    (∀ j x, l !! j = Some x → ∃ t, tokens !! (x - i)%nat = Some t ∧ lkind t ≠ LToken TEof) ∧
    ∃ t, tokens !! (length tokens - 1)%nat = Some t ∧ lkind t = LToken TEof.
Proof.
  intros Ht. revert i. induction Ht as [|p q k toks Hpq Hk Ht IH]; intros i.
  { exists []. split_and!; simpl; [f_equal; f_equal; lia|done|by eauto]. }
  destruct (IH (S i)) as (l&El&Hl&t&Hte&Hke).
  assert (length toks ≠ 0%nat) as Hn by (destruct Ht; done).
  assert (∃ t, (lossless_token k p q :: toks) !! (S (length toks) - 1)%nat = Some t
    ∧ lkind t = LToken TEof) as Heof.
  { exists t. split; [|done]. by replace (S (length toks) - 1)%nat with (S (length toks - 1)) by lia. }
  assert (∀ j x, l !! j = Some x → ∃ t0, (lossless_token k p q :: toks) !! (x - i)%nat = Some t0
    ∧ lkind t0 ≠ LToken TEof) as Hl'.
  { intros j x Hj. destruct (Hl _ _ Hj) as (t0&?&?). exists t0. split; [|done].
    assert (S i ≤ x)%nat.
    { assert (significant_from (S i) toks !! j = Some x) as Hsig.
      { rewrite El. by apply lookup_app_l_Some. }
      by apply significant_from_lookup in Hsig as [? _]. }
    by replace (x - i)%nat with (S (x - S i)) by lia. }
  simpl. destruct k as [k| |]; simpl.
  - exists (i :: l). split_and!; [rewrite El; simpl; f_equal; f_equal; f_equal; lia| |done].
    intros [|j] x Hj; simpl in Hj; [|by eauto]. simplify_eq. rewrite Nat.sub_diag. by eauto.
  - exists l. split_and!; [rewrite El; f_equal; f_equal; lia|done|done].
  - exists l. split_and!; [rewrite El; f_equal; f_equal; lia|done|done].
Qed.

Section Stream.
Context (E : Env) {HE : EnvOk E}.

Lemma sig_token i : (i < len E)%nat →
  ∃ j t, sigs E !! i = Some j ∧ toks E !! j = Some t ∧ lkind t = LToken (kind_at E i).
Proof.
  intros Hi. destruct (lookup_lt_is_Some_2 (sigs E) i Hi) as [j Hj].
  pose proof Hj as Hj'. apply significant_from_lookup in Hj' as (_&t&k&Ht&Hk).
  rewrite Nat.sub_0_r in Ht. exists j, t. unfold kind_at. rewrite Hj, Ht, Hk. done.
Qed.

Lemma kind_at_past i : (len E ≤ i)%nat → kind_at E i = TEof.
Proof. intros Hi. unfold kind_at. by rewrite (lookup_ge_None_2 (sigs E)). Qed.

Lemma sigs_shape :
  ∃ l, sigs E = l ++ [(length (toks E) - 1)%nat] ∧
    (∀ j x, l !! j = Some x → ∃ t, toks E !! x = Some t ∧ lkind t ≠ LToken TEof) ∧
    ∃ t, toks E !! (length (toks E) - 1)%nat = Some t ∧ lkind t = LToken TEof.
Proof.
  destruct (significant_from_eof (src E) 0 0 (toks E) env_tiles) as (l&El&Hl&Ht).
  exists l. split_and!; [done| |done]. intros j x Hj. destruct (Hl j x Hj) as (t&Ht'&?).
  rewrite Nat.sub_0_r in Ht'. eauto.
Qed.

Lemma len_pos : (0 < len E)%nat.
Proof. destruct sigs_shape as (l&El&_). unfold len. rewrite El, length_app. simpl. lia. Qed.

(** Before EOF there is a next significant token. *)
Lemma kind_at_next i : kind_at E i ≠ TEof → (S i < len E)%nat.
Proof.
  intros Hk. destruct sigs_shape as (l&El&Hl&t&Ht&Hke). unfold len. rewrite El, length_app. simpl.
  destruct (decide (i < length l)%nat) as [|Hge]; [lia|]. exfalso. apply Hk.
  unfold kind_at. rewrite El. destruct (decide (i = length l)) as [->|Hne].
  - rewrite lookup_app_r, Nat.sub_diag by done. simpl. rewrite Ht, Hke. done.
  - rewrite lookup_ge_None_2; [done|]. rewrite length_app. simpl. lia.
Qed.

Lemma sigs_lt i j x y : sigs E !! i = Some x → sigs E !! j = Some y → (i < j)%nat → (x < y)%nat.
Proof. apply significant_from_lt. Qed.

Lemma sigs_bound i x : sigs E !! i = Some x → (x < length (toks E))%nat.
Proof.
  intros Hi. apply significant_from_lookup in Hi as (_&t&k&Ht&_).
  rewrite Nat.sub_0_r in Ht. by eapply lookup_lt_Some.
Qed.

(** The text of a token is a slice on character boundaries. *)
Lemma token_str_get j t : toks E !! j = Some t →
  is_Some (str_get (src E) (start (lspan t)) (end_ (lspan t))).
Proof.
  intros Ht. pose proof env_boundaries as Hb. rewrite Forall_lookup in Hb.
  destruct (Hb _ _ Ht) as [H1 H2]. unfold str_get. rewrite H1, H2.
  assert (start (lspan t) ≤ end_ (lspan t) ≤ length (src E))%nat as [Hse Hle].
  { clear -HE Ht. pose proof env_tiles as Hti. revert j Ht.
    assert (∀ p toks, tiles (src E) p toks → (p ≤ length (src E))%nat) as Hple.
    { induction 1; lia. }
    induction Hti as [|p q k ts Hpq Hk Hti IH]; intros [|j] Hj; simpl in Hj; simplify_eq; simpl; [lia|..].
    - specialize (Hple _ _ Hti). lia.
    - by eapply IH. }
  rewrite !(proj2 (Nat.leb_le _ _)) by lia. simpl. by eauto.
Qed.
End Stream.

(** ** Cores *)

Record Core := mkCore {
  c_pos : nat;
  c_emitted : nat;
  c_events : list Event;
  c_log : list nat;
  c_alternates : list RawAlternate;
  c_blocks : list BlockRegion;
}.

Definition core (p : Parser) : Core :=
  mkCore (p_pos p) (p_emitted p) (p_events p) (p_forward_log p) (p_alternates p) (p_blocks p).

(** The parts of the state that no grammar operation changes, and the bound of the
    farthest read. *)
Definition framed (E : Env) (p : Parser) : Prop :=
  p_source p = src E ∧ p_tokens p = toks E ∧ p_significant p = sigs E ∧
  (p_max_read p < len E)%nat.

Definition wp (E : Env) {A} (m : M A) (c : Core) (Q : A → Core → Prop) : Prop :=
  ∀ p, framed E p → core p = c →
    match m p with
    | Ret a p' => framed E p' ∧ Q a (core p')
    | Panic => False
    | OutOfFuel => total E = false
    end.

(** ** Events *)

(** Starts that were given a kind and finishes nest; abandoned starts and tokens
    do not count. *)
Fixpoint bal (d : nat) (l : list Event) : bool :=
  match l with
  | [] => (d =? 0)%nat
  | EStart (Some _) _ :: l => bal (S d) l
  | EStart None _ :: l => bal d l
  | EToken _ :: l => bal d l
  | EFinish :: l => match d with O => false | S d => bal d l end
  end.

Definition is_start (e : Event) : Prop := match e with EStart _ _ => True | _ => False end.

(** Forward parents lie ahead, inside the list, and are starts. *)
Definition links_ok (l : list Event) : Prop :=
  ∀ i k off, l !! i = Some (EStart k (Some off)) →
    (0 < off)%nat ∧ ∃ e, l !! (i + off)%nat = Some e ∧ is_start e.

Definition kind_ok (e : Event) : bool :=
  match e with EStart (Some k) _ => is_node_kind k | _ => true end.

Definition token_index (e : Event) : option nat :=
  match e with EToken i => Some i | _ => None end.
Definition token_indices (l : list Event) : list nat := omap token_index l.

Definition good (l : list Event) : Prop :=
  bal 0 l = true ∧ links_ok l ∧ forallb kind_ok l = true.

(** Following forward parents. *)
Inductive reaches (l : list Event) : nat → nat → Prop :=
  | reaches_refl i : reaches l i i
  | reaches_step i off k j :
      l !! i = Some (EStart k (Some off)) → reaches l (i + off)%nat j → reaches l i j.

(** The events of one production, innermost first node first: [pre] holds the
    nodes that came before their parent, the start of the outermost node follows,
    then its other children, its finish, and what came after it. *)
Record production (l : list Event) (o : nat) (rest : list Event) : Prop := {
  pd_split : ∃ pre k body, l = pre ++ EStart (Some k) None :: body ++ EFinish :: rest ∧
    length pre = o ∧ bal 0 pre = true ∧ bal 0 body = true;
  pd_rest : bal 0 rest = true;
  pd_links : links_ok l;
  pd_kinds : forallb kind_ok l = true;
  pd_reaches : reaches l 0 o;
}.

(** An alternate reading that builds a tree: a production over consecutive tokens,
    at least one. *)
Definition fragment (E : Env) (l : list Event) : Prop :=
  (∃ o, production l o []) ∧
  ∃ a n, token_indices l = seq a n ∧ (0 < n)%nat ∧ (a + n ≤ length (toks E))%nat.

Definition alternates_ok (E : Env) (l : list RawAlternate) : Prop :=
  Forall (λ a, fragment E (ra_events a)) l.

(** ** Invariant and extension *)

(** The cursor is on a token, and everything before it is emitted, with at most
    its trivia. *)
Record Inv (E : Env) (c : Core) : Prop := {
  inv_pos : (c_pos c < len E)%nat;
  inv_before : ∀ i j, (i < c_pos c)%nat → sigs E !! i = Some j → (j < c_emitted c)%nat;
  inv_here : ∀ j, sigs E !! c_pos c = Some j → (c_emitted c ≤ j)%nat;
}.

Record Ext (E : Env) (c c' : Core) : Prop := {
  ext_inv : Inv E c';
  ext_pos : (c_pos c ≤ c_pos c')%nat;
  ext_emitted : (c_emitted c ≤ c_emitted c')%nat;
  ext_events : ∃ new, c_events c' = c_events c ++ new ∧ good new ∧
    token_indices new = seq (c_emitted c) (c_emitted c' - c_emitted c);
  ext_log : ∃ new, c_log c' = c_log c ++ new ∧ Forall (λ i, (length (c_events c) ≤ i)%nat) new;
  ext_alternates : ∃ new, c_alternates c' = c_alternates c ++ new ∧ alternates_ok E new;
  ext_blocks : ∃ new, c_blocks c' = c_blocks c ++ new;
}.

(** [r] was parsed from [c] on; [rest] are the events after it. *)
Record MadeWith (E : Env) (rest : list Event) (c c' : Core) (r : Parsed) : Prop := {
  made_first : (length (c_events c) ≤ pr_first_event r ≤ length (c_events c'))%nat;
  made_start : (pr_first_event r ≤ pr_start_event r)%nat;
  made_production : production (drop (pr_first_event r) (c_events c'))
    (pr_start_event r - pr_first_event r) rest;
  made_tokens : ∃ a n, token_indices (drop (pr_first_event r) (c_events c')) = seq a n ∧
    (a + n = c_emitted c')%nat ∧ ((c_pos c < c_pos c')%nat → (0 < n)%nat);
}.

(** Open for a parent, and just completed. *)
Definition Made (E : Env) (c c' : Core) (r : Parsed) : Prop := ∃ rest, MadeWith E rest c c' r.
Definition Fresh (E : Env) (c c' : Core) (r : Parsed) : Prop := MadeWith E [] c c' r.

(** ** Lists of events *)

Lemma bal_app a d l1 l2 : bal a l1 = true → bal (a + d) (l1 ++ l2) = bal d l2.
Proof.
  revert a. induction l1 as [|e l1 IH]; intros a Ha; simpl in *.
  { by apply Nat.eqb_eq in Ha as ->. }
  destruct e as [[k|] fp| |i]; simpl; [by apply (IH (S a))|by apply IH| |by apply IH].
  destruct a as [|a]; [done|]. by apply (IH a).
Qed.

Lemma bal_app_0 l1 l2 d : bal 0 l1 = true → bal d (l1 ++ l2) = bal d l2.
Proof. apply (bal_app 0 d). Qed.

Lemma bal_node k fp body l d :
  bal 0 body = true → bal d (EStart (Some k) fp :: body ++ EFinish :: l) = bal d l.
Proof. intros Hb. simpl. rewrite bal_app_0 by done. done. Qed.

(** Giving a start another link does not change the nesting. *)
Lemma bal_relink d l1 k fp fp' l2 : bal d (l1 ++ EStart k fp :: l2) = bal d (l1 ++ EStart k fp' :: l2).
Proof.
  revert d. induction l1 as [|e l1 IH]; intros d; simpl; [by destruct k|].
  destruct e as [[]| |]; auto. by destruct d.
Qed.

Lemma links_ok_app l1 l2 : links_ok l1 → links_ok l2 → links_ok (l1 ++ l2).
Proof.
  intros H1 H2 i k off Hi. apply lookup_app_Some in Hi as [Hi|[Hle Hi]].
  - destruct (H1 _ _ _ Hi) as (Ho&e&He&Hs). split; [done|]. exists e. split; [|done].
    by apply lookup_app_l_Some.
  - destruct (H2 _ _ _ Hi) as (Ho&e&He&Hs). split; [done|]. exists e. split; [|done].
    rewrite lookup_app_r by lia. by replace (i + off - length l1)%nat with (i - length l1 + off)%nat by lia.
Qed.

Lemma links_ok_single e : (∀ k off, e ≠ EStart k (Some off)) → links_ok [e].
Proof. intros He i k off Hi. apply list_lookup_singleton_Some in Hi as [_ ->]. by destruct (He k off). Qed.

Lemma links_ok_cons e l : (∀ k off, e ≠ EStart k (Some off)) → links_ok l → links_ok (e :: l).
Proof. intros He Hl. apply (links_ok_app [e]); [by apply links_ok_single|done]. Qed.

(** The first start may be given a kind: only being a start matters to links. *)
Lemma links_ok_kind l1 k k' fp l2 :
  links_ok (l1 ++ EStart k fp :: l2) → links_ok (l1 ++ EStart k' fp :: l2).
Proof.
  intros H i k0 off Hi.
  assert (∃ k1, (l1 ++ EStart k fp :: l2) !! i = Some (EStart k1 (Some off))) as [k1 Hi'].
  { apply lookup_app_Some in Hi as [Hi|[Hle Hi]]; [exists k0; by apply lookup_app_l_Some|].
    rewrite lookup_app_r by done. destruct (i - length l1)%nat; simpl in *; [|by eauto].
    simplify_eq. eauto. }
  destruct (H _ _ _ Hi') as (Ho&e&He&Hs). split; [done|].
  apply lookup_app_Some in He as [He|[Hle He]].
  - exists e. split; [by apply lookup_app_l_Some|done].
  - rewrite lookup_app_r by done. destruct (i + off - length l1)%nat; simpl in *; [|by eauto].
    eexists. split; [done|done].
Qed.

(** Linking a start to a start further on. *)
Lemma links_ok_link l1 k mid e l2 :
  links_ok (l1 ++ EStart k None :: mid) → is_start e → links_ok (e :: l2) →
  links_ok (l1 ++ EStart k (Some (S (length mid))) :: mid ++ e :: l2).
Proof.
  intros H1 He H2 i k0 off Hi.
  set (l := l1 ++ EStart k None :: mid).
  assert (l1 ++ EStart k (Some (S (length mid))) :: mid ++ e :: l2
    = <[length l1 := EStart k (Some (S (length mid)))]> (l ++ e :: l2)) as El.
  { unfold l. rewrite <-app_assoc. by rewrite <-(Nat.add_0_r (length l1)), insert_app_r. }
  assert (length l = (length l1 + S (length mid))%nat) as Hlen by (unfold l; rewrite length_app; done).
  assert (∀ j e', (l ++ e :: l2) !! j = Some e' → is_start e' →
    ∃ e'', (l1 ++ EStart k (Some (S (length mid))) :: mid ++ e :: l2) !! j = Some e'' ∧ is_start e'') as Hkeep.
  { intros j e' Hj Hs. rewrite El. destruct (decide (j = length l1)) as [->|Hne].
    - rewrite list_lookup_insert_eq by (rewrite length_app; lia). by eexists.
    - rewrite list_lookup_insert_ne by done. by eexists. }
  destruct (decide (i = length l1)) as [->|Hne].
  - rewrite El, list_lookup_insert_eq in Hi by (rewrite length_app; lia).
    injection Hi as <- <-. split; [lia|]. apply (Hkeep _ e); [|done].
    rewrite lookup_app_r by lia. by rewrite Hlen, Nat.sub_diag.
  - rewrite El, list_lookup_insert_ne in Hi by done.
    destruct (links_ok_app l (e :: l2) H1 H2 _ _ _ Hi) as (Ho&e'&He'&Hs). split; [done|].
    by eapply Hkeep.
Qed.

Lemma reaches_app l1 l2 i j : reaches l1 i j → reaches (l1 ++ l2) i j.
Proof.
  induction 1; [constructor|]. econstructor; [|done]. by apply lookup_app_l_Some.
Qed.

Lemma token_indices_app l1 l2 : token_indices (l1 ++ l2) = token_indices l1 ++ token_indices l2.
Proof. apply omap_app. Qed.

Lemma token_indices_relink l1 k fp fp' l2 :
  token_indices (l1 ++ EStart k fp :: l2) = token_indices (l1 ++ EStart k fp' :: l2).
Proof. by rewrite !token_indices_app. Qed.

Lemma token_indices_tokens l : token_indices (EToken <$> l) = l.
Proof. induction l; csimpl; [done|]. unfold token_indices in *. csimpl. by f_equal. Qed.

Lemma good_nil : good [].
Proof. split_and!; [done| |done]. by intros ???. Qed.

Lemma good_app l1 l2 : good l1 → good l2 → good (l1 ++ l2).
Proof.
  intros (B1&L1&K1) (B2&L2&K2). split_and!.
  - by rewrite bal_app_0.
  - by apply links_ok_app.
  - rewrite forallb_app. by rewrite K1, K2.
Qed.

Lemma good_tokens l : good (EToken <$> l).
Proof.
  induction l as [|i l IH]; csimpl; [apply good_nil|]. apply (good_app [EToken i]); [|done].
  split_and!; [done|by apply links_ok_single|done].
Qed.

Lemma good_node k body : is_node_kind k = true → good body →
  good (EStart (Some k) None :: body ++ [EFinish]).
Proof.
  intros Hk (B&L&K). split_and!.
  - by rewrite bal_node.
  - apply links_ok_cons; [done|]. apply links_ok_app; [done|]. by apply links_ok_single.
  - simpl. by rewrite Hk, forallb_app, K.
Qed.

Lemma good_abandoned body : good body → good (EStart None None :: body).
Proof. intros (B&L&K). split_and!; [done|by apply links_ok_cons|done]. Qed.

(** ** Productions *)

Lemma production_node k body : is_node_kind k = true → good body →
  production (EStart (Some k) None :: body ++ [EFinish]) 0 [].
Proof.
  intros Hk Hb. pose proof (good_node k body Hk Hb) as (_&L&K). destruct Hb as (B&_&_). split.
  - exists [], k, body. done.
  - done.
  - done.
  - done.
  - constructor.
Qed.

Lemma production_good l o rest : production l o rest → good l.
Proof.
  intros [(pre&k&body&->&_&Bp&Bb) Br L K _]. split_and!; [|done|done].
  rewrite bal_app_0 by done. by rewrite bal_node.
Qed.

Lemma production_app l o rest l' :
  production l o rest → good l' → production (l ++ l') o (rest ++ l').
Proof.
  intros [(pre&k&body&->&Ho&Bp&Bb) Br L K R] (B'&L'&K'). split.
  - exists pre, k, body. split_and!; [|done..]. by rewrite <-!app_assoc, <-app_comm_cons, <-app_assoc.
  - by rewrite bal_app_0.
  - by apply links_ok_app.
  - rewrite forallb_app. by rewrite K, K'.
  - by apply reaches_app.
Qed.

(** A parent attached in front of a production. *)
Lemma production_preceding l o rest k body :
  production l o rest → is_node_kind k = true → good body →
  ∃ k0, l !! o = Some (EStart (Some k0) None) ∧
    production (<[o := EStart (Some k0) (Some (length l - o)%nat)]> l
                ++ EStart (Some k) None :: body ++ [EFinish]) (length l) [].
Proof.
  intros [(pre&k0&mid&El&Ho&Bp&Bb) Br L K R] Hk Hb.
  pose proof (good_node k body Hk Hb) as (_&Ln&Kn). destruct Hb as (B&_&_).
  assert (l !! o = Some (EStart (Some k0) None)) as Hlo.
  { by rewrite El, lookup_app_r, Ho, Nat.sub_diag by lia. }
  exists k0. split; [done|].
  assert (∀ fp, <[o := EStart (Some k0) fp]> l = pre ++ EStart (Some k0) fp :: mid ++ EFinish :: rest) as Ei.
  { intros fp. rewrite El, <-Ho, <-(Nat.add_0_r (length pre)), insert_app_r. done. }
  assert (length l - o = S (length (mid ++ EFinish :: rest)))%nat as Elen.
  { rewrite El, length_app. simpl. lia. }
  assert (length l = length (<[o:=EStart (Some k0) (Some (length l - o)%nat)]> l)) as Elen'
    by (by rewrite length_insert).
  split.
  - exists (<[o := EStart (Some k0) (Some (length l - o)%nat)]> l), k, body.
    split_and!; [done|by symmetry| |done].
    rewrite Ei, (bal_relink _ _ _ _ None), bal_app_0 by done. by rewrite bal_node.
  - done.
  - rewrite Ei, Elen, <-app_assoc, <-app_comm_cons. apply links_ok_link; [|done|done].
    rewrite El in L. done.
  - rewrite forallb_app, Ei. rewrite El, forallb_app in K. apply andb_true_iff in K as [K1 K2].
    rewrite forallb_app, K1. simpl in *. rewrite K2. by rewrite Kn.
  - clear Elen'. remember (length l - o)%nat as off eqn:Eoff.
    assert (∀ a, reaches l a o → reaches (<[o:=EStart (Some k0) (Some off)]> l
      ++ EStart (Some k) None :: body ++ [EFinish]) a (length l)) as H; [|by apply H].
    induction 1 as [i|i off' k' j Hi Hr IH].
    + eapply reaches_step; [apply lookup_app_l_Some, list_lookup_insert_eq; by eapply lookup_lt_Some|].
      replace (i + off)%nat with (length l) by (apply lookup_lt_Some in Hlo; lia). constructor.
    + eapply reaches_step; [|by apply IH]. apply lookup_app_l_Some.
      rewrite list_lookup_insert_ne; [done|]. intros <-. rewrite Hlo in Hi. congruence.
Qed.
