(* ===== verification/GrammarRules.v ===== *)
(** * nia-syntax: proof rules of the parser operations

    One rule per method of the parser, in the form that symbolic execution of a
    production uses: what must hold before, and what the rest may assume. *)

From S2P Require Import Prelude RustStd Lexer LexerProps SyntaxKind GreenTree GreenTreeProps GrammarParser GrammarLogic.

(** ** Extension *)

Section Extension.
Context (E : Env) {HE : EnvOk E}.

Lemma seq_join a b c : (a ≤ b)%nat → (b ≤ c)%nat → seq a (b - a) ++ seq b (c - b) = seq a (c - a).
Proof.
  intros. replace (c - a)%nat with ((b - a) + (c - b))%nat by lia. rewrite seq_app.
  by replace (a + (b - a))%nat with b by lia.
Qed.

Lemma Ext_refl c : Inv E c → Ext E c c.
Proof.
  intros Hc. split; [done|lia|lia|..].
  - exists []. rewrite app_nil_r, Nat.sub_diag. split_and!; [done|apply good_nil|done].
  - exists []. by rewrite app_nil_r.
  - exists []. rewrite app_nil_r. split; [done|constructor].
  - exists []. by rewrite app_nil_r.
Qed.

Lemma Ext_trans c1 c2 c3 : Ext E c1 c2 → Ext E c2 c3 → Ext E c1 c3.
Proof.
  intros [I1 P1 M1 (n1&E1&G1&T1) (l1&L1&F1) (a1&A1&O1) (b1&B1)]
    [I2 P2 M2 (n2&E2&G2&T2) (l2&L2&F2) (a2&A2&O2) (b2&B2)].
  split; [done|lia|lia|..].
  - exists (n1 ++ n2). rewrite E2, E1, app_assoc. split_and!; [done|by apply good_app|].
    rewrite token_indices_app, T1, T2. by apply seq_join.
  - exists (l1 ++ l2). rewrite L2, L1, app_assoc. split; [done|]. apply Forall_app. split; [done|].
    eapply Forall_impl; [exact F2|]. simpl. intros i. rewrite E1, length_app. lia.
  - exists (a1 ++ a2). rewrite A2, A1, app_assoc. split; [done|]. apply Forall_app. done.
  - exists (b1 ++ b2). by rewrite B2, B1, app_assoc.
Qed.

(** Appending events that emit no token. *)
Lemma Ext_append c new :
  Inv E c → good new → token_indices new = [] →
  Ext E c (mkCore (c_pos c) (c_emitted c) (c_events c ++ new) (c_log c) (c_alternates c) (c_blocks c)).
Proof.
  intros Hc Hn Ht. destruct Hc as [Hp Hb Hh]. split; simpl; [by split|lia|lia|..].
  - exists new. by rewrite Nat.sub_diag.
  - exists []. by rewrite app_nil_r.
  - exists []. rewrite app_nil_r. split; [done|constructor].
  - exists []. by rewrite app_nil_r.
Qed.

(** Emitting tokens up to [en], with the cursor moving to [pos]. *)
Lemma Ext_emit c pos en :
  Inv E c → (c_pos c ≤ pos)%nat → (pos < len E)%nat → (c_emitted c ≤ en)%nat →
  (∀ i j, (i < pos)%nat → sigs E !! i = Some j → (j < en)%nat) →
  (∀ j, sigs E !! pos = Some j → (en ≤ j)%nat) →
  Ext E c (mkCore pos en (c_events c ++ (EToken <$> seq (c_emitted c) (en - c_emitted c)))
             (c_log c) (c_alternates c) (c_blocks c)).
Proof.
  intros Hc Hp Hl He Hb Hh. split; simpl; [by split|lia|lia|..].
  - eexists. split_and!; [done|apply good_tokens|apply token_indices_tokens].
  - exists []. by rewrite app_nil_r.
  - exists []. rewrite app_nil_r. split; [done|constructor].
  - exists []. by rewrite app_nil_r.
Qed.

(** Progress of the cursor emits a token. *)
Lemma Ext_progress c c' : Inv E c → Ext E c c' → (c_pos c < c_pos c')%nat → (c_emitted c < c_emitted c')%nat.
Proof.
  intros [Hp _ Hh] Hx Hlt. destruct (sig_token E (c_pos c) Hp) as (j&t&Hj&_&_).
  specialize (Hh _ Hj). pose proof (inv_before _ _ (ext_inv _ _ _ Hx) _ _ Hlt Hj). lia.
Qed.

Lemma emitted_bound c : Inv E c → (c_emitted c ≤ length (toks E))%nat.
Proof.
  intros [Hp _ Hh]. destruct (sig_token E (c_pos c) Hp) as (j&t&Hj&Ht&_).
  specialize (Hh _ Hj). apply lookup_lt_Some in Ht. lia.
Qed.

(** ** Nodes *)

(** A node whose start was pushed and which has no kind yet. *)
Definition opened (c : Core) : Core :=
  mkCore (c_pos c) (c_emitted c) (c_events c ++ [EStart None None]) (c_log c) (c_alternates c) (c_blocks c).

(** [Parser::complete] on the start event at [i]. *)
Definition completed (i : nat) (k : SyntaxKind) (c : Core) : Core :=
  mkCore (c_pos c) (c_emitted c)
    ((match c_events c !! i with
      | Some (EStart _ fp) => <[i := EStart (Some k) fp]> (c_events c)
      | _ => c_events c
      end) ++ [EFinish]) (c_log c) (c_alternates c) (c_blocks c).

Lemma opened_inv c : Inv E c → Inv E (opened c).
Proof. intros []. by split. Qed.

Lemma completed_events c c' k new :
  c_events c' = c_events (opened c) ++ new →
  c_events (completed (length (c_events c)) k c') = c_events c ++ EStart (Some k) None :: new ++ [EFinish].
Proof.
  intros Hn. unfold completed. simpl. rewrite Hn. simpl. rewrite <-app_assoc. simpl.
  rewrite lookup_app_r, Nat.sub_diag by done. simpl.
  rewrite <-(Nat.add_0_r (length (c_events c))), insert_app_r. simpl. by rewrite <-app_assoc.
Qed.

Lemma opened_log (c : Core) n :
  Forall (λ i, (length (c_events (opened c)) ≤ i)%nat) n → Forall (λ i, (length (c_events c) ≤ i)%nat) n.
Proof. intros H. eapply Forall_impl; [exact H|]. simpl. intros i. rewrite length_app. lia. Qed.

(** A completed node is a fresh production. *)
Lemma complete_node c c' k d sp sh :
  Inv E c → is_node_kind k = true → Ext E (opened c) c' →
  let c'' := completed (length (c_events c)) k c' in
  Ext E c c'' ∧ Fresh E c c'' (mkParsed d sp sh (length (c_events c)) (length (c_events c))).
Proof.
  intros Hc Hk Hx c''. pose proof Hx as [I P M (new&En&G&T) (l&L&F) (a&A&O) (b&B)].
  pose proof (completed_events c c' k new En) as Ec.
  assert (token_indices (EStart (Some k) None :: new ++ [EFinish]) = token_indices new) as Et.
  { change (EStart (Some k) None :: new ++ [EFinish]) with ([EStart (Some k) None] ++ new ++ [EFinish]).
    rewrite !token_indices_app. simpl. by rewrite app_nil_r. }
  split.
  - split; [destruct I; by split|done|done|..].
    + eexists. split_and!; [exact Ec|by apply good_node|]. by rewrite Et.
    + exists l. split; [done|]. by apply opened_log.
    + by exists a.
    + by exists b.
  - unfold Fresh. assert (drop (length (c_events c)) (c_events c'') = EStart (Some k) None :: new ++ [EFinish]) as Ed.
    { unfold c''. rewrite Ec. by rewrite drop_app_length. }
    split; cbn [pr_first_event pr_start_event].
    + split; [done|]. unfold c''. rewrite Ec, length_app. lia.
    + done.
    + rewrite Ed, Nat.sub_diag. by apply production_node.
    + rewrite Ed, Et, T. simpl in *. exists (c_emitted c), (c_emitted c' - c_emitted c)%nat.
      split_and!; [done|lia|]. intros Hlt.
      pose proof (Ext_progress (opened c) c' (opened_inv c Hc) Hx Hlt) as Hp. simpl in Hp. lia.
Qed.

(** A node that failed before any token is left open, which has no effect. *)
Lemma abandon_node c c' : Ext E (opened c) c' → Ext E c c'.
Proof.
  intros [I P M (new&En&G&T) (l&L&F) (a&A&O) (b&B)]. split; [done|done|done|..].
  - exists (EStart None None :: new). split_and!; [|by apply good_abandoned|done].
    rewrite En. simpl. by rewrite <-app_assoc.
  - exists l. split; [done|]. by apply opened_log.
  - by exists a.
  - by exists b.
Qed.

(** ** Productions under extension *)

Lemma Made_fresh c c' r : Fresh E c c' r → Made E c c' r.
Proof. intros H. by exists []. Qed.

Lemma Made_ext c c' c'' r : Inv E c' → Made E c c' r → Ext E c' c'' → Made E c c'' r.
Proof.
  intros Hc' (rest&[[H1 H1'] H2 H3 (a&n&Ha&Hn&Hp)]) Hx.
  pose proof Hx as [I P M (new&En&G&T) _ _ _]. exists (rest ++ new).
  assert (drop (pr_first_event r) (c_events c'') = drop (pr_first_event r) (c_events c') ++ new) as Ed.
  { rewrite En. by rewrite drop_app_le. }
  split.
  - split; [done|]. rewrite En, length_app. lia.
  - done.
  - rewrite Ed. by apply production_app.
  - rewrite Ed, token_indices_app, Ha, T. exists a, (n + (c_emitted c'' - c_emitted c'))%nat.
    split_and!; [|lia|].
    + rewrite seq_app. by rewrite Hn.
    + intros Hlt. destruct (decide (c_pos c < c_pos c')%nat) as [Hlt'|]; [specialize (Hp Hlt'); lia|].
      assert (c_emitted c' < c_emitted c'')%nat; [|lia]. eapply Ext_progress; [done|done|lia].
Qed.

(** A production can be weakened to an earlier start. *)
Lemma Made_weaken c0 c c' r : Inv E c → Ext E c0 c → Ext E c c' → (c_pos c < c_pos c')%nat → Made E c c' r → Made E c0 c' r.
Proof.
  intros Hc H0 H1 Hlt (rest&[[M1 M1'] M2 M3 (a&n&Ha&Hn&Hp)]). exists rest.
  destruct H0 as [_ _ _ (new&En&_) _ _ _]. split; [|done|done|].
  - split; [|done]. rewrite En, length_app in M1. lia.
  - exists a, n. split_and!; [done|done|]. intros _. by apply Hp.
Qed.

Lemma Fresh_weaken c0 c c' r : Ext E c0 c → Ext E c c' → (c_pos c < c_pos c')%nat → Fresh E c c' r → Fresh E c0 c' r.
Proof.
  intros H0 H1 Hlt [[M1 M1'] M2 M3 (a&n&Ha&Hn&Hp)].
  destruct H0 as [_ _ _ (new&En&_) _ _ _]. split; [|done|done|].
  - split; [|done]. rewrite En, length_app in M1. lia.
  - exists a, n. split_and!; [done|done|]. intros _. by apply Hp.
Qed.

(** ** Parents that precede *)

(** The state in which the body of a preceding parent runs. *)
Definition linked (lhs : Parsed) (c : Core) : Core :=
  mkCore (c_pos c) (c_emitted c)
    (match c_events (opened c) !! pr_start_event lhs with
     | Some (EStart k _) =>
       <[pr_start_event lhs := EStart k (Some (length (c_events c) - pr_start_event lhs)%nat)]>
         (c_events (opened c))
     | _ => c_events (opened c)
     end)
    (c_log c ++ [pr_start_event lhs]) (c_alternates c) (c_blocks c).

Lemma linked_inv lhs c : Inv E c → Inv E (linked lhs c).
Proof. intros []. by split. Qed.

Lemma bal_inj l d d' : bal d l = true → bal d' l = true → d = d'.
Proof.
  revert d d'. induction l as [|e l IH]; intros d d'; simpl.
  { rewrite !Nat.eqb_eq. lia. }
  destruct e as [[k|] fp| |i]; [intros H1 H2; specialize (IH _ _ H1 H2); lia|apply IH| |apply IH].
  destruct d, d'; try done. intros H1 H2. by rewrite (IH _ _ H1 H2).
Qed.

Lemma bal_app_inv d l1 l2 : bal d (l1 ++ l2) = true → bal 0 l2 = true → bal d l1 = true.
Proof.
  revert d. induction l1 as [|e l1 IH]; intros d H1 H2; simpl in *.
  { apply Nat.eqb_eq. by eapply bal_inj. }
  destruct e as [[k|] fp| |i]; [by apply IH..| |by apply IH]. destruct d; [done|]. by apply IH.
Qed.

(** The events of a production with its open start. *)
Lemma Made_split b c lhs :
  Ext E b c → Made E b c lhs →
  ∃ n1 pre k0 mid rest,
    c_events c = c_events b ++ n1 ++ pre ++ EStart (Some k0) None :: mid ++ EFinish :: rest ∧
    pr_first_event lhs = length (c_events b ++ n1) ∧
    pr_start_event lhs = length (c_events b ++ n1 ++ pre) ∧
    production (pre ++ EStart (Some k0) None :: mid ++ EFinish :: rest) (length pre) rest ∧
    good (n1 ++ pre ++ EStart (Some k0) None :: mid ++ EFinish :: rest) ∧ bal 0 n1 = true.
Proof.
  intros [_ _ _ (new&En&G&T) _ _ _] (rest&[[M1 M1'] M2 M3 _]).
  pose proof M3 as [(pre&k0&mid&Ed&Ho&Bp&Bm) _ _ _ _].
  set (n1 := drop (length (c_events b)) (take (pr_first_event lhs) (c_events c))).
  assert (c_events c = take (pr_first_event lhs) (c_events c) ++ drop (pr_first_event lhs) (c_events c)) as Ec
    by (by rewrite take_drop).
  assert (take (pr_first_event lhs) (c_events c) = c_events b ++ n1) as Et.
  { rewrite <-(take_drop (length (c_events b)) (take (pr_first_event lhs) (c_events c))). unfold n1. f_equal.
    rewrite take_take, Nat.min_l by lia. rewrite En. by rewrite take_app_length. }
  exists n1, pre, k0, mid, rest. rewrite Et in Ec.
  assert (pr_first_event lhs = length (c_events b ++ n1)) as Hf.
  { rewrite <-Et, length_take. lia. }
  rewrite Ed in Ec. rewrite <-app_assoc in Ec.
  assert (new = n1 ++ pre ++ EStart (Some k0) None :: mid ++ EFinish :: rest) as En'.
  { rewrite Ec in En. by apply app_inv_head in En. }
  assert (production (pre ++ EStart (Some k0) None :: mid ++ EFinish :: rest) (length pre) rest) as Hprod.
  { by rewrite Ho, <-Ed. }
  rewrite <-En'. split_and!; [by rewrite En'|done| |done|done|].
  - rewrite !length_app in *. lia.
  - destruct G as (B&_&_). rewrite En' in B. eapply bal_app_inv; [exact B|].
    by destruct (production_good _ _ _ Hprod).
Qed.

Lemma linked_events b c lhs n1 pre k0 mid rest :
  c_events c = c_events b ++ n1 ++ pre ++ EStart (Some k0) None :: mid ++ EFinish :: rest →
  pr_start_event lhs = length (c_events b ++ n1 ++ pre) →
  c_events (linked lhs c) = c_events b ++ n1 ++ pre
    ++ EStart (Some k0) (Some (S (length (mid ++ EFinish :: rest)))) :: (mid ++ EFinish :: rest)
    ++ [EStart None None].
Proof.
  intros Ec Hs. unfold linked. simpl. rewrite Ec, Hs.
  set (suf := mid ++ EFinish :: rest).
  replace ((c_events b ++ n1 ++ pre ++ EStart (Some k0) None :: suf) ++ [EStart None None])
    with ((c_events b ++ n1 ++ pre) ++ EStart (Some k0) None :: suf ++ [EStart None None])
    by (by rewrite <-!app_assoc).
  rewrite lookup_app_r, Nat.sub_diag by done. simpl.
  rewrite <-(Nat.add_0_r (length (c_events b ++ n1 ++ pre))) at 1. rewrite insert_app_r. simpl.
  rewrite <-!app_assoc. do 6 f_equal. rewrite !length_app. simpl. lia.
Qed.

(** A completed parent: with what it contains it is a production from where its
    first child was parsed. *)
Lemma complete_preceding b c lhs c' k d sp sh :
  Inv E c → Ext E b c → Made E b c lhs → is_node_kind k = true → Ext E (linked lhs c) c' →
  let c'' := completed (length (c_events c)) k c' in
  Ext E b c'' ∧ Fresh E b c'' (mkParsed d sp sh (length (c_events c)) (pr_first_event lhs)).
Proof.
  intros Hc Hbc Hm Hk Hx c''.
  destruct (Made_split b c lhs Hbc Hm) as (n1&pre&k0&mid&rest&Ec&Hf&Hs&Hprod&G&Bn1).
  pose proof (linked_events b c lhs n1 pre k0 mid rest Ec Hs) as El.
  set (suf := mid ++ EFinish :: rest) in *.
  pose proof Hx as [I P M (new&En&Gn&T) (l&L&F) (a&A&O) (bl&B)].
  pose proof Hbc as [_ Pb Mb (newb&Enb&Gb&Tb) (lb&Lb&Fb) (ab&Ab&Ob) (blb&Bb)].
  assert (newb = n1 ++ pre ++ EStart (Some k0) None :: suf) as ->.
  { rewrite Ec in Enb. by apply app_inv_head in Enb. }
  destruct (production_preceding _ _ _ k new Hprod Hk Gn) as (k1&Hk1&Hprod').
  rewrite lookup_app_r, Nat.sub_diag in Hk1 by done. simpl in Hk1. injection Hk1 as <-.
  replace (length (pre ++ EStart (Some k0) None :: suf) - length pre)%nat with (S (length suf)) in Hprod'
    by (rewrite length_app; simpl; lia).
  rewrite <-(Nat.add_0_r (length pre)), insert_app_r in Hprod'. cbn [insert list_insert] in Hprod'.
  assert (length (c_events c) = length (c_events b ++ n1 ++ pre ++ EStart (Some k0) None :: suf)) as Hlen
    by (by rewrite Ec).
  assert (c_events c'' = c_events b ++ n1 ++ (pre ++ EStart (Some k0) (Some (S (length suf))) :: suf)
    ++ EStart (Some k) None :: new ++ [EFinish]) as Ec''.
  { unfold c'', completed. simpl. rewrite En, El.
    replace ((c_events b ++ n1 ++ pre ++ EStart (Some k0) (Some (S (length suf))) :: suf ++ [EStart None None]) ++ new)
      with ((c_events b ++ n1 ++ pre ++ EStart (Some k0) (Some (S (length suf))) :: suf) ++ EStart None None :: new)
      by (by rewrite <-!app_assoc; simpl; rewrite <-!app_assoc).
    assert (length (c_events b ++ n1 ++ pre ++ EStart (Some k0) (Some (S (length suf))) :: suf)
      = length (c_events c)) as Hl2 by (rewrite Hlen, !length_app; done).
    rewrite <-Hl2, lookup_app_r, Nat.sub_diag by done. simpl.
    rewrite <-(Nat.add_0_r (length _)), insert_app_r. simpl. by rewrite <-!app_assoc. }
  assert (token_indices (EStart (Some k) None :: new ++ [EFinish]) = token_indices new) as Et.
  { change (EStart (Some k) None :: new ++ [EFinish]) with ([EStart (Some k) None] ++ new ++ [EFinish]).
    rewrite !token_indices_app. simpl. by rewrite app_nil_r. }
  assert (token_indices (n1 ++ pre ++ EStart (Some k0) (Some (S (length suf))) :: suf)
    = seq (c_emitted b) (c_emitted c - c_emitted b)) as Et2.
  { rewrite app_assoc, (token_indices_relink _ _ _ None), <-app_assoc. done. }
  simpl in P, M, T, L, A, B. pose proof (production_good _ _ _ Hprod') as (Bp'&Lp'&Kp').
  split.
  - split; [destruct I; by split|simpl; lia|simpl; lia|..].
    + eexists. split_and!; [exact Ec''|..].
      * split_and!.
        -- rewrite bal_app_0 by done. done.
        -- rewrite <-app_assoc, app_assoc, <-app_comm_cons. destruct G as (_&LG&_).
           apply links_ok_link; [by rewrite <-app_assoc|done|].
           by destruct (good_node k new Hk Gn) as (_&?&_).
        -- destruct G as (_&_&KG). rewrite forallb_app in KG. apply andb_true_iff in KG as [K1 _].
           by rewrite forallb_app, K1.
      * rewrite (app_assoc n1), token_indices_app, Et, T, Et2. simpl. by apply seq_join.
    + simpl. exists (lb ++ [pr_start_event lhs] ++ l). rewrite L, Lb. rewrite <-!app_assoc.
      split; [done|]. apply Forall_app; split; [done|]. constructor.
      * rewrite Hs, !length_app. lia.
      * eapply Forall_impl; [exact F|]. intros i. rewrite El, !length_app. simpl. lia.
    + simpl. exists (ab ++ a). rewrite A, Ab. rewrite <-app_assoc. split; [done|].
      by apply Forall_app.
    + simpl. exists (blb ++ bl). rewrite B, Bb. by rewrite <-app_assoc.
  - unfold Fresh. assert (drop (pr_first_event lhs) (c_events c'')
      = (pre ++ EStart (Some k0) (Some (S (length suf))) :: suf) ++ EStart (Some k) None :: new ++ [EFinish]) as Ed.
    { rewrite Ec'', Hf, app_assoc. by rewrite drop_app_length. }
    split; cbn [pr_first_event pr_start_event].
    + rewrite Hf, Ec'', !length_app. lia.
    + rewrite Hf, Hlen, !length_app. lia.
    + rewrite Ed. replace (length (c_events c) - pr_first_event lhs)%nat
        with (length (pre ++ EStart (Some k0) None :: suf)); [done|].
      rewrite Hf, Hlen, !length_app. lia.
    + destruct Hm as (rest'&[[M1 M1'] M2 M3 (a0&n0&Ha0&Hn0&Hp0)]).
      rewrite Ed, token_indices_app, Et, T, (token_indices_relink _ _ _ None).
      assert (drop (pr_first_event lhs) (c_events c) = pre ++ EStart (Some k0) None :: suf) as Ed0.
      { rewrite Ec, Hf, app_assoc. by rewrite drop_app_length. }
      rewrite Ed0 in Ha0. rewrite Ha0. simpl.
      exists a0, (n0 + (c_emitted c' - c_emitted c))%nat. split_and!; [|lia|].
      * rewrite seq_app. by rewrite Hn0.
      * intros Hlt. destruct (decide (c_pos b < c_pos c)%nat) as [Hlt'|]; [specialize (Hp0 Hlt'); lia|].
        assert (c_emitted (linked lhs c) < c_emitted c')%nat; [|simpl in *; lia].
        apply Ext_progress; [by apply linked_inv|done|simpl; lia].
Qed.
End Extension.
