(* ===== verification/GrammarWp.v ===== *)
(** * nia-syntax: weakest preconditions of the parser operations

    One rule per operation of [GrammarParser], in the form symbolic execution of a
    production uses. *)

From S2P Require Import Prelude RustStd Lexer LexerProps SyntaxKind GreenTree GreenTreeProps GrammarParser GrammarLogic GrammarRules.

Section Rules.
Context (E : Env) {HE : EnvOk E}.

(** ** Structure *)

Lemma wp_ret {A} (a : A) c (Q : A → Core → Prop) : Q a c → wp E (ret a) c Q.
Proof. intros HQ p Hf <-. done. Qed.

Lemma wp_bind {A B} (m : M A) (k : A → M B) c Q :
  wp E m c (λ a c', wp E (k a) c' Q) → wp E (bind m k) c Q.
Proof.
  intros Hm p Hf Hc. specialize (Hm p Hf Hc). unfold bind. destruct (m p) as [a p'| |]; [|done..].
  destruct Hm as [Hf' Hk]. by apply Hk.
Qed.

Lemma wp_bind_opt {A B} (m : M (option A)) (k : A → M (option B)) c Q :
  wp E m c (λ o c', match o with Some a => wp E (k a) c' Q | None => Q None c' end) →
  wp E (bind_opt m k) c Q.
Proof.
  intros Hm. apply wp_bind. intros p Hf Hc. specialize (Hm p Hf Hc).
  destruct (m p) as [[a|] p'| |]; [done| |done..]. destruct Hm as [Hf' HQ]. split; [done|]. by apply wp_ret.
Qed.

Lemma wp_mono {A} (m : M A) c (Q Q' : A → Core → Prop) :
  wp E m c Q → (∀ a c', Q a c' → Q' a c') → wp E m c Q'.
Proof.
  intros Hm HQ p Hf Hc. specialize (Hm p Hf Hc). destruct (m p); [|done..].
  destruct Hm. split; auto.
Qed.

Lemma wp_out_of_fuel {A} c (Q : A → Core → Prop) : total E = false → wp E out_of_fuel c Q.
Proof. by intros Ht p Hf Hc. Qed.

(** A loop whose iterations advance the cursor ends within the tokens left. *)
Lemma wp_loop {St R} (I : St → Core → Prop) fuel (body : St → M (step St R)) st c Q :
  I st c → (total E = true → (len E - c_pos c ≤ fuel)%nat) →
  (∀ st c, I st c → (c_pos c < len E)%nat) →
  (∀ st c, I st c → wp E (body st) c (λ r c',
    match r with
    | Continue st' => I st' c' ∧ (total E = true → (c_pos c < c_pos c')%nat)
    | Break r => Q r c'
    end)) →
  wp E (loop fuel body st) c Q.
Proof.
  intros HI Hfuel Hlt Hbody. revert st c HI Hfuel. induction fuel as [|fuel IH]; intros st c HI Hfuel.
  { specialize (Hlt _ _ HI). apply wp_out_of_fuel. destruct (total E); [|done].
    specialize (Hfuel eq_refl). lia. }
  simpl. apply wp_bind. eapply wp_mono; [by apply Hbody|]. intros [st'|r] c' Hr.
  - destruct Hr as [HI' Hprog]. apply IH; [done|]. intros Ht. specialize (Hfuel Ht).
    specialize (Hprog Ht). lia.
  - by apply wp_ret.
Qed.

(** ** Reads *)

Lemma wp_gets {A} (f : Parser → A) (g : Core → A) c (Q : A → Core → Prop) :
  (∀ p, framed E p → core p = c → f p = g c) → Q (g c) c → wp E (gets f) c Q.
Proof. intros Hg HQ p Hf Hc. split; [done|]. rewrite (Hg p Hf Hc), Hc. done. Qed.

Lemma wp_gets_pos c (Q : nat → Core → Prop) : Q (c_pos c) c → wp E (gets p_pos) c Q.
Proof. apply (wp_gets _ c_pos). by intros p _ <-. Qed.

Lemma framed_read_to p i : framed E p → (i < len E)%nat → framed E (read_to i p).
Proof.
  intros (?&?&?&?) Hi. unfold read_to. case_match; [|by split_and!]. by split_and!.
Qed.

Lemma core_read_to p i : core (read_to i p) = core p.
Proof. unfold read_to. by case_match. Qed.

Lemma wp_token i c (Q : LosslessToken → Core → Prop) :
  (∀ j t, toks E !! j = Some t → Q t c) → wp E (token i) c Q.
Proof.
  intros HQ p Hf Hc. pose proof Hf as (Hs&Ht&Hg&_). unfold token. rewrite Hg.
  pose proof (len_pos E) as Hpos. fold (len E).
  destruct (len E) as [|last] eqn:Hlen; [lia|].
  assert (Nat.min i last < len E)%nat as Hi by lia.
  destruct (sig_token E _ Hi) as (j&t&Hj&Hjt&_).
  pose proof (framed_read_to _ _ Hf Hi) as Hf'. pose proof Hf' as (Hs'&Ht'&Hg'&_).
  rewrite Hg', Hj, Ht', Hjt. rewrite core_read_to, Hc. split; [done|]. by eapply HQ.
Qed.

Lemma wp_nth_kind off c (Q : option TokenKind → Core → Prop) :
  Q (if decide (c_pos c + off < len E)%nat then Some (kind_at E (c_pos c + off)) else None) c →
  wp E (nth_kind off) c Q.
Proof.
  intros HQ p Hf Hc. pose proof Hf as (Hs&Ht&Hg&_). unfold nth_kind.
  assert (p_pos p = c_pos c) as -> by (by rewrite <-Hc). rewrite Hg.
  destruct (decide (c_pos c + off < len E)%nat) as [Hi|Hi].
  - destruct (sig_token E _ Hi) as (j&t&Hj&Hjt&Hk). rewrite Hj.
    pose proof (framed_read_to _ _ Hf Hi) as Hf'. pose proof Hf' as (_&Ht'&_&_).
    rewrite Ht', Hjt, Hk. rewrite core_read_to, Hc. done.
  - rewrite (lookup_ge_None_2 (sigs E)) by (unfold len in Hi; lia). by rewrite Hc.
Qed.

Lemma wp_cur c (Q : TokenKind → Core → Prop) : Q (kind_at E (c_pos c)) c → wp E cur c Q.
Proof.
  intros HQ. apply wp_bind, wp_nth_kind, wp_ret. rewrite Nat.add_0_r. case_decide as Hd; [done|].
  simpl. by rewrite kind_at_past in HQ by lia.
Qed.

Lemma wp_at k c (Q : bool → Core → Prop) :
  Q (bool_decide (kind_at E (c_pos c) = k)) c → wp E (at_ k) c Q.
Proof. intros HQ. by apply wp_bind, wp_cur, wp_ret. Qed.

Lemma wp_at_any ks c (Q : bool → Core → Prop) :
  Q (kind_in (kind_at E (c_pos c)) ks) c → wp E (at_any ks) c Q.
Proof. intros HQ. by apply wp_bind, wp_cur, wp_ret. Qed.

Lemma wp_nth_is off k c (Q : bool → Core → Prop) :
  Q (bool_decide ((c_pos c + off < len E)%nat ∧ kind_at E (c_pos c + off) = k)) c →
  wp E (nth_is off k) c Q.
Proof.
  intros HQ. apply wp_bind, wp_nth_kind, wp_ret.
  erewrite bool_decide_ext; [exact HQ|]. case_decide; naive_solver.
Qed.

Lemma wp_cur_span c (Q : Span → Core → Prop) : (∀ sp, Q sp c) → wp E cur_span c Q.
Proof. intros HQ. apply wp_bind, wp_gets_pos, wp_bind, wp_token. intros. by apply wp_ret. Qed.

Lemma wp_current_start c (Q : nat → Core → Prop) : (∀ n, Q n c) → wp E current_start c Q.
Proof. intros HQ. apply wp_bind, wp_cur_span. intros. by apply wp_ret. Qed.

Lemma wp_gets_source c (Q : list Z → Core → Prop) : Q (src E) c → wp E (gets p_source) c Q.
Proof. intros HQ. apply (wp_gets _ (λ _, src E)); [|done]. by intros p (->&_) _. Qed.

Lemma wp_cur_text c (Q : list Z → Core → Prop) : (∀ text, Q text c) → wp E cur_text c Q.
Proof.
  intros HQ. apply wp_bind, wp_bind, wp_gets_pos, wp_bind, wp_token. intros j t Ht.
  apply wp_ret, wp_bind, wp_gets_source. destruct (token_str_get E j t Ht) as [text ->]. by apply wp_ret.
Qed.

Lemma wp_previous_end c (Q : nat → Core → Prop) : (∀ n, Q n c) → wp E previous_end c Q.
Proof.
  intros HQ. apply wp_bind, wp_gets_pos. destruct (c_pos c); [by apply wp_ret|].
  apply wp_bind, wp_token. intros. by apply wp_ret.
Qed.

Lemma wp_has_line_break st en c (Q : bool → Core → Prop) :
  (∀ b, Q b c) → wp E (has_line_break_between st en) c Q.
Proof. intros HQ. apply wp_bind, wp_gets_source. by apply wp_ret. Qed.

Lemma wp_read_end c (Q : nat → Core → Prop) : (∀ n, Q n c) → wp E read_end c Q.
Proof.
  intros HQ p Hf Hc. pose proof Hf as (_&Ht&Hg&Hm). unfold read_end.
  destruct (sig_token E _ Hm) as (j&t&Hj&Hjt&_). rewrite Hg, Hj, Ht, Hjt. by rewrite Hc.
Qed.

Lemma wp_begin_iteration c (Q : unit → Core → Prop) :
  Inv E c → Q tt c → wp E begin_iteration c Q.
Proof.
  intros [Hp _ _] HQ p (?&?&?&?) Hc. split; [|by rewrite <-Hc in HQ].
  split_and!; [done..|]. simpl. by rewrite <-Hc in Hp.
Qed.

Lemma wp_iteration st c (Q : Iteration → Core → Prop) : (∀ it, Q it c) → wp E (iteration st) c Q.
Proof.
  intros HQ. apply wp_bind, wp_token. intros. apply wp_bind. intros p Hf Hc. split; [done|].
  rewrite Hc. apply wp_bind, wp_token. intros. by apply wp_ret.
Qed.

(** ** Errors *)

Lemma wp_errors {A} (m : M A) (f : list RawError → list RawError) (a : A) c (Q : A → Core → Prop) :
  (∀ p, m p = Ret a (set_errors (f (p_errors p)) p)) → Q a c → wp E m c Q.
Proof. intros Hm HQ p Hf Hc. rewrite Hm. split; [done|]. by rewrite <-Hc in HQ. Qed.

Lemma wp_push_error e c (Q : unit → Core → Prop) : Q tt c → wp E (push_error e) c Q.
Proof. by apply (wp_errors _ (λ l, l ++ [e])). Qed.

Lemma wp_truncate_errors n c (Q : unit → Core → Prop) : Q tt c → wp E (truncate_errors n) c Q.
Proof. by apply (wp_errors _ (take n)). Qed.

Lemma wp_errors_len c (Q : nat → Core → Prop) : (∀ n, Q n c) → wp E errors_len c Q.
Proof. intros HQ p Hf <-. by split. Qed.

Lemma wp_at_lexical_error c (Q : bool → Core → Prop) : (∀ b, Q b c) → wp E at_lexical_error c Q.
Proof. intros HQ. by apply wp_bind, wp_cur, wp_ret. Qed.

Lemma wp_error_here_as k m c (Q : unit → Core → Prop) : Q tt c → wp E (error_here_as k m) c Q.
Proof.
  intros HQ. apply wp_bind, wp_at_lexical_error. intros [].
  - by apply wp_ret.
  - apply wp_bind, wp_cur_span. intros sp. by apply wp_push_error.
Qed.

Lemma wp_error_here m c (Q : unit → Core → Prop) : Q tt c → wp E (error_here m) c Q.
Proof. apply wp_error_here_as. Qed.

Lemma wp_found_message m c (Q : list Z → Core → Prop) : (∀ b, Q b c) → wp E (found_message m) c Q.
Proof.
  intros HQ. apply wp_bind, wp_bind, wp_at. case_bool_decide; [by apply wp_ret, wp_ret|].
  apply wp_bind, wp_cur_text. intros text. by apply wp_ret, wp_ret.
Qed.

Lemma wp_error_at_as k sp m c (Q : unit → Core → Prop) : Q tt c → wp E (error_at_as k sp m) c Q.
Proof.
  intros HQ. apply wp_bind, wp_bind, wp_bind, wp_at_lexical_error. intros [].
  - apply wp_bind, wp_cur_span. intros here. apply wp_ret. case_bool_decide; apply wp_ret; [|by apply wp_push_error].
    case_match; [by apply wp_ret|by apply wp_push_error].
  - by apply wp_ret, wp_ret, wp_push_error.
Qed.

Lemma wp_error_at sp m c (Q : unit → Core → Prop) : Q tt c → wp E (error_at sp m) c Q.
Proof. apply wp_error_at_as. Qed.

Lemma wp_error_at_end_as k sp m c (Q : unit → Core → Prop) : Q tt c → wp E (error_at_end_as k sp m) c Q.
Proof.
  intros HQ. apply wp_bind, wp_bind, wp_at_lexical_error. intros [].
  - apply wp_ret. case_match; [by apply wp_ret|by apply wp_error_at_as].
  - by apply wp_ret, wp_error_at_as.
Qed.

(** ** Emission *)

Lemma wp_push_event e c (Q : unit → Core → Prop) :
  Q tt (mkCore (c_pos c) (c_emitted c) (c_events c ++ [e]) (c_log c) (c_alternates c) (c_blocks c)) →
  wp E (push_event e) c Q.
Proof. intros HQ p Hf <-. done. Qed.

Lemma wp_missing c (Q : unit → Core → Prop) :
  Inv E c → (∀ c', Ext E c c' → c_pos c' = c_pos c → Q tt c') → wp E missing c Q.
Proof.
  intros Hc HQ. apply wp_bind, wp_push_event, wp_push_event. simpl. rewrite <-app_assoc.
  apply HQ; [|done]. apply Ext_append; [done| |done]. by apply (good_node KMissing []), good_nil.
Qed.

Lemma wp_expected_here k m c (Q : unit → Core → Prop) :
  Inv E c → (∀ c', Ext E c c' → c_pos c' = c_pos c → Q tt c') → wp E (expected_here k m) c Q.
Proof.
  intros Hc HQ. apply wp_bind, wp_found_message. intros b. apply wp_bind, wp_error_here_as. by apply wp_missing.
Qed.

Lemma wp_flush_trivia c (Q : unit → Core → Prop) :
  Inv E c → (∀ c', Ext E c c' → c_pos c' = c_pos c → Q tt c') → wp E flush_trivia c Q.
Proof.
  intros Hc HQ p Hf Hp. pose proof Hf as (Hs&Ht&Hg&Hm). unfold flush_trivia, bind, gets, id.
  pose proof Hc as [Hpos Hb Hh]. destruct (sig_token E _ Hpos) as (j&t&Hj&_).
  assert (p_pos p = c_pos c) as -> by (by rewrite <-Hp). rewrite Hg, Hj.
  specialize (Hh _ Hj). unfold emit_until, modify. split; [by split_and!|].
  assert (p_emitted p = c_emitted c) as Ee by (by rewrite <-Hp).
  replace (core _) with (mkCore (c_pos c) j
    (c_events c ++ (EToken <$> seq (c_emitted c) (j - c_emitted c))) (c_log c) (c_alternates c) (c_blocks c)).
  - apply HQ; [|done]. apply Ext_emit; [done|lia|done|done| |].
    + intros i x Hi Hx. by eapply sigs_lt.
    + intros x Hx. rewrite Hj in Hx. by simplify_eq.
  - rewrite <-Hp. unfold core. simpl. f_equal. rewrite <-Hp in Hh. simpl in *. lia.
Qed.

Lemma wp_bump c (Q : Span → Core → Prop) :
  Inv E c →
  (∀ sp c', Ext E c c' → kind_at E (c_pos c) ≠ TEof → c_pos c' = S (c_pos c) → Q sp c') →
  (∀ sp, kind_at E (c_pos c) = TEof → Q sp c) →
  wp E bump c Q.
Proof.
  intros Hc HQ HQe. apply wp_bind, wp_cur_span. intros sp. apply wp_bind, wp_at.
  case_bool_decide as Hk; [by apply wp_ret, HQe|].
  intros p Hf Hp. pose proof Hf as (Hs&Ht&Hg&Hm). unfold bind, gets, id.
  pose proof Hc as [Hpos Hb Hh]. destruct (sig_token E _ Hpos) as (j&t&Hj&_).
  pose proof (kind_at_next E _ Hk) as Hnext.
  assert (p_pos p = c_pos c) as Epos by (by rewrite <-Hp). rewrite Epos, Hg, Hj.
  specialize (Hh _ Hj). unfold emit_until, modify, ret. split; [by split_and!|].
  replace (core _) with (mkCore (S (c_pos c)) (S j)
    (c_events c ++ (EToken <$> seq (c_emitted c) (S j - c_emitted c))) (c_log c) (c_alternates c) (c_blocks c)).
  - apply HQ; [|done|done]. apply Ext_emit; [done|lia|lia|lia| |].
    + intros i x Hi Hx. destruct (decide (i = c_pos c)) as [->|]; [rewrite Hj in Hx; simplify_eq; lia|].
      assert (x < j)%nat by (eapply sigs_lt; [exact Hx|exact Hj|lia]). lia.
    + intros x Hx. apply Nat.le_succ_l. eapply sigs_lt; [exact Hj|exact Hx|lia].
  - rewrite <-Hp. unfold core. simpl. rewrite <-Hp in Hh. simpl in *.
    f_equal; [lia|lia|]. do 3 f_equal. lia.
Qed.

(** On a known token. *)
Lemma wp_bump_ne c (Q : Span → Core → Prop) :
  Inv E c → kind_at E (c_pos c) ≠ TEof →
  (∀ sp c', Ext E c c' → c_pos c' = S (c_pos c) → Q sp c') → wp E bump c Q.
Proof. intros Hc Hk HQ. apply wp_bump; [done|by auto|done]. Qed.

Lemma wp_eat k c (Q : option Span → Core → Prop) :
  Inv E c → k ≠ TEof →
  (∀ sp c', kind_at E (c_pos c) = k → Ext E c c' → c_pos c' = S (c_pos c) → Q (Some sp) c') →
  (kind_at E (c_pos c) ≠ k → Q None c) →
  wp E (eat k) c Q.
Proof.
  intros Hc Hk HS HN. apply wp_bind, wp_at. case_bool_decide as Hd; [|by apply wp_ret, HN].
  apply wp_bind, wp_bump_ne; [done|congruence|]. intros sp c' Hx Hp. by apply wp_ret, HS.
Qed.

Lemma wp_ate k c (Q : bool → Core → Prop) :
  Inv E c → k ≠ TEof →
  (∀ c', kind_at E (c_pos c) = k → Ext E c c' → c_pos c' = S (c_pos c) → Q true c') →
  (kind_at E (c_pos c) ≠ k → Q false c) →
  wp E (ate k) c Q.
Proof.
  intros Hc Hk HS HN. apply wp_bind, wp_eat; [done|done|..].
  - intros sp c' Hd Hx Hp. by apply wp_ret, HS.
  - intros Hd. by apply wp_ret, HN.
Qed.

Lemma wp_expect k m c (Q : option Span → Core → Prop) :
  Inv E c → k ≠ TEof →
  (∀ sp c', kind_at E (c_pos c) = k → Ext E c c' → c_pos c' = S (c_pos c) → Q (Some sp) c') →
  (∀ c', kind_at E (c_pos c) ≠ k → Ext E c c' → c_pos c' = c_pos c → Q None c') →
  wp E (expect k m) c Q.
Proof.
  intros Hc Hk HS HN. apply wp_bind, wp_at. case_bool_decide as Hd.
  - apply wp_bind, wp_bump_ne; [done|congruence|]. intros sp c' Hx Hp. by apply wp_ret, HS.
  - apply wp_bind, wp_expected_here; [done|]. intros c' Hx Hp. by apply wp_ret, HN.
Qed.

Lemma wp_expect_name m c (Q : option Span → Core → Prop) :
  Inv E c →
  (∀ sp c', kind_at E (c_pos c) = TIdent → Ext E c c' → c_pos c' = S (c_pos c) → Q (Some sp) c') →
  (∀ c', kind_at E (c_pos c) ≠ TIdent → Ext E c c' → c_pos c' = c_pos c → Q None c') →
  wp E (expect_name m) c Q.
Proof.
  intros Hc HS HN. apply wp_bind, wp_at. case_bool_decide as Hd.
  - apply wp_bind, wp_bump_ne; [done|congruence|]. intros sp c' Hx Hp. by apply wp_ret, HS.
  - apply wp_bind, wp_expected_here; [done|]. intros c' Hx Hp. by apply wp_ret, HN.
Qed.

Lemma wp_expect_semicolon_after sp0 m c (Q : option Span → Core → Prop) :
  Inv E c →
  (∀ sp c', kind_at E (c_pos c) = TSemicolon → Ext E c c' → c_pos c' = S (c_pos c) → Q (Some sp) c') →
  (∀ c', kind_at E (c_pos c) ≠ TSemicolon → Ext E c c' → c_pos c' = c_pos c → Q None c') →
  wp E (expect_semicolon_after sp0 m) c Q.
Proof.
  intros Hc HS HN. apply wp_bind, wp_at. case_bool_decide as Hd.
  - apply wp_bind, wp_bump_ne; [done|congruence|]. intros sp c' Hx Hp. by apply wp_ret, HS.
  - apply wp_bind, wp_found_message. intros b. apply wp_bind, wp_error_at_end_as, wp_bind, wp_missing; [done|].
    intros c' Hx Hp. by apply wp_ret, HN.
Qed.

Lemma wp_record_block sp n c (Q : unit → Core → Prop) :
  Inv E c →
  (∀ c', Ext E c c' → c_pos c' = c_pos c → (∀ b r, Fresh E b c r → Fresh E b c' r) → Q tt c') →
  wp E (record_block sp n) c Q.
Proof.
  intros Hc HQ p Hf <-. split; [done|]. apply HQ; [|done|by intros b r [? ? ? ?]]. destruct Hc as [H1 H2 H3].
  split; simpl; [by split|lia|lia|..].
  - exists []. rewrite app_nil_r, Nat.sub_diag. split_and!; [done|apply good_nil|done].
  - exists []. by rewrite app_nil_r.
  - exists []. rewrite app_nil_r. split; [done|constructor].
  - eauto.
Qed.

(** ** Nodes *)

Lemma wp_complete i k c (Q : unit → Core → Prop) :
  (i < length (c_events c))%nat → Q tt (completed i k c) → wp E (complete i k) c Q.
Proof.
  intros Hi HQ p Hf <-. unfold complete, bind, gets, id.
  destruct (lookup_lt_is_Some_2 _ _ Hi) as [e He]. unfold completed in HQ. simpl in *.
  rewrite He in *. by destruct e as [k0 fp| |].
Qed.

Lemma opened_lt c c' : Ext E (opened c) c' → (length (c_events c) < length (c_events c'))%nat.
Proof. intros [_ _ _ (new&->&_) _ _ _]. simpl. rewrite !length_app. simpl. lia. Qed.

Lemma flushed_fresh c c0 c' r :
  Ext E c c0 → c_pos c0 = c_pos c → Fresh E c0 c' r → Fresh E c c' r.
Proof.
  intros [_ _ _ (new&En&_) _ _ _] Hp [[M1 M1'] M2 M3 M4]. split; [|done|done|by rewrite <-Hp].
  rewrite En, length_app in M1. lia.
Qed.

Lemma wp_node_with {X} (body : M (option Done * X)) c (Q : option Parsed * X → Core → Prop) :
  Inv E c →
  (∀ c1, Inv E c1 → c_pos c1 = c_pos c → wp E body c1 (λ r c2, Ext E c1 c2 ∧
    match fst r with
    | Some d => is_node_kind (dn_kind d) = true ∧
      ∀ pr c', Ext E c c' → Fresh E c c' pr → c_pos c' = c_pos c2 →
        pr_class pr = dn_class d → Q (Some pr, snd r) c'
    | None => ∀ c', Ext E c c' → c_pos c' = c_pos c2 → Q (None, snd r) c'
    end)) →
  wp E (node_with body) c Q.
Proof.
  intros Hc Hbody. apply wp_bind, wp_flush_trivia; [done|]. intros c0 Hx0 Hp0.
  pose proof (ext_inv _ _ _ Hx0) as Hc0. apply wp_bind. intros p Hf Hp. split; [done|].
  rewrite Hp. unfold id. assert (p_pos p = c_pos c0) as -> by (by rewrite <-Hp).
  assert (p_events p = c_events c0) as -> by (by rewrite <-Hp). clear p Hf Hp.
  apply wp_bind, wp_push_event. fold (opened c0). apply wp_bind.
  eapply wp_mono; [apply Hbody; [by apply opened_inv|done]|].
  intros [[d|] x] c2 [Hx2 HQ]; cbn [fst snd] in HQ.
  - destruct HQ as [Hk HQ]. apply wp_bind, wp_complete; [by eapply opened_lt|]. apply wp_ret.
    destruct (complete_node E c0 c2 (dn_kind d) (dn_class d) (dn_span d) (dn_shape d) Hc0 Hk Hx2) as [He Hfr].
    apply HQ; [by eapply Ext_trans|by eapply flushed_fresh|done|done].
  - apply wp_bind, wp_gets_pos, wp_bind. destruct (Nat.eqb_spec (c_pos c2) (c_pos c0)).
    + apply wp_ret, wp_ret, HQ; [|done]. eapply Ext_trans; [done|]. by apply abandon_node.
    + apply wp_complete; [by eapply opened_lt|]. apply wp_ret, HQ; [|done].
      destruct (complete_node E c0 c2 KError KError (mkSpan 0 0) 0 Hc0 eq_refl Hx2) as [He _].
      by eapply Ext_trans.
Qed.

Lemma wp_node (body : M (option Done)) c (Q : option Parsed → Core → Prop) :
  Inv E c →
  (∀ c1, Inv E c1 → c_pos c1 = c_pos c → wp E body c1 (λ r c2, Ext E c1 c2 ∧
    match r with
    | Some d => is_node_kind (dn_kind d) = true ∧
      ∀ pr c', Ext E c c' → Fresh E c c' pr → c_pos c' = c_pos c2 →
        pr_class pr = dn_class d → Q (Some pr) c'
    | None => ∀ c', Ext E c c' → c_pos c' = c_pos c2 → Q None c'
    end)) →
  wp E (node body) c Q.
Proof.
  intros Hc Hbody. apply wp_bind, wp_node_with; [done|]. intros c1 Hc1 Hp1. apply wp_bind.
  eapply wp_mono; [by apply Hbody|]. intros [d|] c2 [Hx HQ]; apply wp_ret; cbn [fst snd]; (split; [done|]).
  - destruct HQ as [Hk HQ]. split; [done|]. intros. by apply wp_ret, HQ.
  - intros. by apply wp_ret, HQ.
Qed.

Lemma wp_recover {X} (body : M X) c (Q : X → Core → Prop) :
  Inv E c →
  (∀ c1, Inv E c1 → c_pos c1 = c_pos c → wp E body c1 (λ x c2, Ext E c1 c2 ∧
    ∀ c', Ext E c c' → c_pos c' = c_pos c2 → Q x c')) →
  wp E (recover_in_error body) c Q.
Proof.
  intros Hc Hbody. apply wp_bind, wp_gets_pos, wp_bind, wp_flush_trivia; [done|]. intros c0 Hx0 Hp0.
  pose proof (ext_inv _ _ _ Hx0) as Hc0. apply wp_bind.
  apply (wp_gets _ (λ c, length (c_events c))); [by intros p _ <-|].
  apply wp_bind, wp_push_event. fold (opened c0). apply wp_bind.
  eapply wp_mono; [apply Hbody; [by apply opened_inv|done]|]. intros x c2 [Hx2 HQ].
  apply wp_bind, wp_gets_pos, wp_bind. destruct (Nat.eqb_spec (c_pos c2) (c_pos c)).
  - apply wp_ret, wp_ret, HQ; [|done]. eapply Ext_trans; [done|]. by apply abandon_node.
  - apply wp_complete; [by eapply opened_lt|]. apply wp_ret, HQ; [|done].
    destruct (complete_node E c0 c2 KError KError (mkSpan 0 0) 0 Hc0 eq_refl Hx2) as [He _].
    by eapply Ext_trans.
Qed.

Lemma linked_lt b c lhs c' :
  Ext E b c → Made E b c lhs → Ext E (linked lhs c) c' → (length (c_events c) < length (c_events c'))%nat.
Proof.
  intros Hbc Hm [_ _ _ (new&->&_) _ _ _].
  destruct (Made_split E b c lhs Hbc Hm) as (n1&pre&k0&mid&rest&Ec&Hf&Hs&_).
  rewrite (linked_events b c lhs n1 pre k0 mid rest Ec Hs), Ec, !length_app. simpl.
  rewrite !length_app. simpl. lia.
Qed.

Lemma wp_node_preceding b lhs (body : M (option Done)) c (Q : option Parsed → Core → Prop) :
  Inv E c → Ext E b c → Made E b c lhs →
  (∀ c1, Inv E c1 → c_pos c1 = c_pos c → wp E body c1 (λ r c2, Ext E c1 c2 ∧
    match r with
    | Some d => is_node_kind (dn_kind d) = true ∧
      ∀ pr c', Ext E b c' → Fresh E b c' pr → c_pos c' = c_pos c2 →
        pr_class pr = dn_class d → Q (Some pr) c'
    | None => ∀ c', Ext E b c' → c_pos c' = c_pos c2 → Q None c'
    end)) →
  wp E (node_preceding lhs body) c Q.
Proof.
  intros Hc Hbc Hm Hbody. apply wp_bind, (wp_gets _ (λ c, length (c_events c))); [by intros p _ <-|].
  apply wp_bind, wp_push_event. fold (opened c). apply wp_bind.
  intros p Hf Hp. split; [done|]. rewrite Hp. unfold id.
  assert (p_events p = c_events (opened c)) as -> by (by rewrite <-Hp). clear p Hf Hp.
  destruct (Made_split E b c lhs Hbc Hm) as (n1&pre&k0&mid&rest&Ec&_&Hs&_).
  assert (c_events (opened c) !! pr_start_event lhs = Some (EStart (Some k0) None)) as Hl.
  { simpl. apply lookup_app_l_Some. rewrite Ec, Hs.
    replace (c_events b ++ n1 ++ pre ++ EStart (Some k0) None :: mid ++ EFinish :: rest)
      with ((c_events b ++ n1 ++ pre) ++ EStart (Some k0) None :: mid ++ EFinish :: rest)
      by (by rewrite <-!app_assoc).
    by rewrite lookup_app_r, Nat.sub_diag. }
  rewrite Hl. apply wp_bind. intros p Hf Hp. split; [exact Hf|].
  replace (core _) with (linked lhs c).
  2:{ unfold linked. rewrite Hl. unfold core. simpl.
      assert (p_events p = c_events (opened c)) as -> by (by rewrite <-Hp).
      assert (p_forward_log p = c_log (opened c)) as -> by (by rewrite <-Hp).
      assert (p_pos p = c_pos (opened c)) as -> by (by rewrite <-Hp).
      assert (p_emitted p = c_emitted (opened c)) as -> by (by rewrite <-Hp).
      assert (p_alternates p = c_alternates (opened c)) as -> by (by rewrite <-Hp).
      assert (p_blocks p = c_blocks (opened c)) as -> by (by rewrite <-Hp). done. }
  apply wp_bind. eapply wp_mono; [apply Hbody; [by apply linked_inv|done]|].
  intros [d|] c2 [Hx HQ].
  - destruct HQ as [Hk HQ]. apply wp_bind, wp_complete; [by eapply linked_lt|]. apply wp_ret.
    destruct (complete_preceding E b c lhs c2 (dn_kind d) (dn_class d) (dn_span d) (dn_shape d) Hc Hbc Hm Hk Hx)
      as [He Hfr]. by apply HQ.
  - apply wp_bind, wp_complete; [by eapply linked_lt|]. apply wp_ret, HQ; [|done].
    by destruct (complete_preceding E b c lhs c2 KError KError (mkSpan 0 0) 0 Hc Hbc Hm eq_refl Hx) as [He _].
Qed.

(** ** Speculation *)

Definition cp_of (c : Core) : Checkpoint :=
  mkCheckpoint (c_pos c) (c_emitted c) (length (c_events c)) (length (c_log c))
    (length (c_alternates c)) (length (c_blocks c)).

Lemma wp_checkpoint c (Q : Checkpoint → Core → Prop) : Q (cp_of c) c → wp E checkpoint c Q.
Proof. apply (wp_gets _ cp_of). by intros p _ <-. Qed.

Lemma clear_links_none limit log events :
  Forall (λ i, (limit ≤ i)%nat) log → clear_links limit log events = Some events.
Proof.
  induction 1 as [|i log Hi _ IH]; [done|]. simpl. by rewrite (proj2 (Nat.ltb_ge _ _)).
Qed.

(** Rewinding to a checkpoint restores its core exactly. *)
Lemma wp_rewind c0 c (Q : unit → Core → Prop) :
  Ext E c0 c → Q tt c0 → wp E (rewind (cp_of c0)) c Q.
Proof.
  intros [_ _ _ (n&En&_) (l&Hl&Fl) (a&Ha&_) (b&Hb)] HQ p Hf Hc. unfold rewind. simpl.
  assert (p_forward_log p = c_log c0 ++ l) as -> by (by rewrite <-Hl, <-Hc).
  assert (p_events p = c_events c0 ++ n) as -> by (by rewrite <-En, <-Hc).
  assert (p_alternates p = c_alternates c0 ++ a) as -> by (by rewrite <-Ha, <-Hc).
  assert (p_blocks p = c_blocks c0 ++ b) as -> by (by rewrite <-Hb, <-Hc).
  rewrite (proj2 (Nat.ltb_ge _ _)) by (rewrite length_app; lia).
  rewrite drop_app_length, clear_links_none by done. split; [exact Hf|].
  unfold core. simpl. rewrite !take_app_length. by destruct c0.
Qed.

Lemma wp_ensure_progress c0 c (Q : unit → Core → Prop) :
  Inv E c → (c_pos c0 ≤ c_pos c)%nat →
  (∀ c', Ext E c c' → (kind_at E (c_pos c0) ≠ TEof → (c_pos c0 < c_pos c')%nat) → Q tt c') →
  wp E (ensure_progress (cp_of c0)) c Q.
Proof.
  intros Hc Hle HQ. apply wp_bind, wp_gets_pos. simpl. destruct (Nat.eqb_spec (c_pos c) (c_pos c0)) as [Heq|].
  - apply wp_bind, wp_at. case_bool_decide as Hk.
    + apply wp_ret, HQ; [by apply Ext_refl|]. by rewrite <-Heq, Hk.
    + apply wp_bind, wp_bump_ne; [done|done|]. intros sp c' Hx Hp. apply wp_ret, HQ; [done|lia].
  - apply wp_ret, HQ; [by apply Ext_refl|lia].
Qed.

(** ** Alternates *)

Definition snapshot_ok (s : Snapshot) : Prop :=
  fragment E (sn_events s) ∧ alternates_ok E (sn_alternates s).

Lemma detach_good l : links_ok l → detach_events l = l.
Proof.
  intros Hl. apply list_eq. intros i. unfold detach_events. rewrite list_lookup_imap.
  destruct (l !! i) as [e|] eqn:Hi; [|done]. simpl. f_equal.
  destruct e as [k [off|]| |]; [|done..]. simpl. destruct (Hl _ _ _ Hi) as (_&e&He&_).
  apply lookup_lt_Some in He. by rewrite (proj2 (Nat.ltb_lt _ _)).
Qed.

Lemma wp_snapshot b r c0 c (Q : Snapshot → Core → Prop) :
  Inv E c → Fresh E b c r → (c_pos b < c_pos c)%nat → Ext E c0 c →
  (∀ s, snapshot_ok s → Q s c) → wp E (snapshot r (cp_of c0)) c Q.
Proof.
  intros Hc [[M1 M1'] M2 M3 (a&n&Ha&Hn&Hp)] Hlt [_ _ _ _ _ (al&Hal&Oal) _] HQ p Hf Hpc.
  unfold snapshot, bind, gets, id. simpl.
  assert (p_events p = c_events c) as -> by (by rewrite <-Hpc).
  assert (p_alternates p = c_alternates c0 ++ al) as -> by (by rewrite <-Hal, <-Hpc).
  rewrite !(proj2 (Nat.ltb_ge _ _)) by (try rewrite length_app; lia). simpl.
  split; [done|]. rewrite Hpc. apply HQ. split; simpl.
  - rewrite detach_good by (by destruct M3). split; [by eexists|].
    exists a, n. split_and!; [done|by apply Hp|]. rewrite Hn. by apply emitted_bound.
  - by rewrite drop_app_length.
Qed.

Lemma restore_alternates_ok saved current :
  alternates_ok E saved →
  ∃ new, restore_alternates saved current = current ++ new ∧ alternates_ok E new.
Proof.
  unfold restore_alternates. intros Hs. revert current.
  induction Hs as [|a saved Ha Hs IH]; intros current; simpl.
  { exists []. rewrite app_nil_r. split; [done|constructor]. }
  case_match; [by apply IH|]. destruct (IH (current ++ [a])) as (new&->&Hn).
  exists (a :: new). rewrite <-app_assoc. split; [done|]. by constructor.
Qed.

Lemma wp_push_alternate k sp s c (Q : unit → Core → Prop) :
  Inv E c → snapshot_ok s →
  (∀ c', Ext E c c' → c_pos c' = c_pos c → c_events c' = c_events c → Q tt c') →
  wp E (push_alternate k sp s) c Q.
Proof.
  intros Hc [Hs1 Hs2] HQ p Hf Hp. split; [exact Hf|]. unfold core. simpl.
  destruct (restore_alternates_ok (sn_alternates s) (p_alternates p) Hs2) as (new&->&Hn).
  subst c. destruct Hc as [H1 H2 H3]. apply HQ; [|done|done]. split; simpl; [by split|lia|lia|..].
  - exists []. rewrite app_nil_r, Nat.sub_diag. split_and!; [done|apply good_nil|done].
  - exists []. by rewrite app_nil_r.
  - eexists. rewrite <-app_assoc. split; [done|]. apply Forall_app. split; [done|]. by constructor.
  - exists []. by rewrite app_nil_r.
Qed.
End Rules.
