(* ===== verification/GrammarRecover.v ===== *)
(** * nia-syntax: recovery ([crates/nia-syntax/src/grammar/mod.rs])

    The helpers shared by all productions: lookahead predicates, the loops that
    skip to a recovery boundary inside an error node, and list separators.  Every
    loop consumes a token per iteration, so the number of tokens left is fuel
    enough; the fuel [n] is the one of the calling production. *)

From S2P Require Import Prelude RustStd Lexer SyntaxKind GreenTree GrammarParser.

(** Token kinds that begin a top-level declaration ([crates/nia-syntax/src/lib.rs]). *)
Definition is_item_keyword (k : TokenKind) : bool :=
  kind_in k [TModule; TUsing; TExtern; TStruct; TUnion; TTrait; TExtend; TEnum; TType; TFun;
             TConst; TStatic; TPub].

Definition at_attribute_start : M bool := andM (at_ TAt) (nth_is 1 TLBracket).

Definition at_const_fn : M bool := andM (at_ TConst) (nth_is 1 TFun).

Definition at_top_level_item_keyword : M bool := let* k := cur in ret (is_item_keyword k).

Definition at_top_level_item_start : M bool := orM at_attribute_start at_top_level_item_keyword.

Definition at_top_level_item_boundary_except_fn : M bool :=
  andM at_top_level_item_keyword (notM (at_ TFun)).

Definition at_namespace_segment : M bool :=
  let* k := cur in ret (kind_in k [TIdent; TRoot; TSuper; TSelfValue]).

(** Consumes tokens up to a top-level stop and returns their span; one shared
    depth tracks all delimiters. *)
Definition collect_until (n : nat) (stops : list TokenKind) : M (option Span) :=
  let* st := current_start in
  loop n (λ depth : nat,
    if* at_ TEof then ret (Break tt)
    else
      if* (if (depth =? 0)%nat then at_any stops else ret false) then ret (Break tt)
      else
        let* k := cur in
        let depth :=
          if kind_in k [TLParen; TLBracket; TLBrace] then S depth
          else if kind_in k [TRParen; TRBracket; TRBrace] then (depth - 1)%nat
          else depth in
        bump;;;
        ret (Continue depth)) 0%nat;;;
  let* en := previous_end in
  if (en <=? st)%nat then (error_here "expected syntax";;; ret None)
  else ret (Some (mkSpan st en)).

(** Skips tokens in an error node until one of [stops] or EOF. *)
Definition skip_until (n : nat) (stops : list TokenKind) : M unit :=
  recover_in_error
    (while n (andM (notM (at_ TEof)) (notM (at_any stops))) (bump;;; ret (Continue tt))).

(** ** Delimiter depth *)

Record Depth := mkDepth { paren : nat; bracket : nat; brace : nat }.

Definition depth_default : Depth := mkDepth 0 0 0.

Definition depth_top (d : Depth) : bool :=
  (paren d =? 0)%nat && (bracket d =? 0)%nat && (brace d =? 0)%nat.

(** Tracks an opening or matched closing delimiter; [None] when it is neither. *)
Definition depth_track (d : Depth) (k : TokenKind) : option Depth :=
  match k with
  | TLParen => Some (mkDepth (S (paren d)) (bracket d) (brace d))
  | TLBracket => Some (mkDepth (paren d) (S (bracket d)) (brace d))
  | TLBrace => Some (mkDepth (paren d) (bracket d) (S (brace d)))
  | TRParen => if (0 <? paren d)%nat then Some (mkDepth (paren d - 1) (bracket d) (brace d)) else None
  | TRBracket => if (0 <? bracket d)%nat then Some (mkDepth (paren d) (bracket d - 1) (brace d)) else None
  | TRBrace => if (0 <? brace d)%nat then Some (mkDepth (paren d) (bracket d) (brace d - 1)) else None
  | _ => None
  end.

(** [depth.track(&kind);] with the answer ignored. *)
Definition depth_tracked (d : Depth) (k : TokenKind) : Depth := default d (depth_track d k).

(** [depth.brace -= 1]. *)
Definition close_brace (d : Depth) : Depth := mkDepth (paren d) (bracket d) (brace d - 1).

(** [while !p.at(TokenKind::Eof) { body }] over a delimiter depth. *)
Definition until_eof (n : nat) (body : Depth → M (step Depth unit)) : M unit :=
  loop n (λ d, if* at_ TEof then ret (Break tt) else body d) depth_default.

(** Consumes the current token and goes on. *)
Definition skip_token (d : Depth) : M (step Depth unit) := bump;;; ret (Continue d).

(** ** Boundaries *)

Definition recover_to_item_boundary (n : nat) (c : Checkpoint) : M unit :=
  recover_in_error (
    until_eof n (λ d,
      let* stop :=
        (if depth_top d then
           if* ate TSemicolon then ret true
           else orM at_attribute_start at_top_level_item_keyword
         else ret false) in
      if (stop : bool) then ret (Break tt)
      else
        if* andM (at_ TRBrace) (ret (0 <? brace d)%nat) then
          let d := close_brace d in
          bump;;;
          ret (if depth_top d then Break tt else Continue d)
        else
          let* k := cur in
          skip_token (depth_tracked d k));;;
    ensure_progress c).

Definition recover_to_attribute_boundary (n : nat) (c : Checkpoint) : M unit :=
  recover_in_error (
    until_eof n (λ d,
      let* stop :=
        (if depth_top d then
           orM (at_ TRBracket) (orM at_attribute_start
             (at_any [TModule; TUsing; TExtern; TStruct; TUnion; TTrait; TExtend; TEnum; TType;
                      TFun; TConst; TStatic; TPub; TLet; TReturn; TBreak; TContinue; TDefer;
                      TFor; TWhile; TLoop; TIf; TMatch]))
         else ret false) in
      if (stop : bool) then ret (Break tt)
      else
        let* k := cur in
        skip_token (depth_tracked d k));;;
    ensure_progress c;;;
    eat TRBracket;;;
    ret tt).

Definition recover_to_member_boundary (n : nat) (c : option Checkpoint) : M unit :=
  recover_in_error (
    until_eof n (λ d,
      let* k := cur in
      match depth_track d k with
      | Some d => skip_token d
      | None =>
        if depth_top d then
          if kind_in k [TComma; TSemicolon] then (bump;;; ret (Break tt))
          else if bool_decide (k = TRBrace) then ret (Break tt)
          else
            if* (if bool_decide (k = TAt) then at_attribute_start else ret false)
            then ret (Break tt)
            else skip_token d
        else skip_token d
      end);;;
    match c with Some c => ensure_progress c | None => ret tt end).

Definition recover_to_stmt_boundary (n : nat) (c : Checkpoint) : M unit :=
  recover_in_error (
    until_eof n (λ d,
      let* k := cur in
      if bool_decide (k = TRBrace) && (0 <? brace d)%nat then
        let d := close_brace d in
        bump;;;
        if depth_top d then (eat TSemicolon;;; ret (Break tt)) else ret (Continue d)
      else
        match depth_track d k with
        | Some d => skip_token d
        | None =>
          if depth_top d then
            if bool_decide (k = TRBrace) then ret (Break tt)
            else if bool_decide (k = TSemicolon) then (bump;;; ret (Break tt))
            else skip_token d
          else skip_token d
        end);;;
    ensure_progress c).

(** Recovers to the end of a comma-delimited entry closed by [close]; the comma is
    consumed, the closing delimiter is left for the list owner. *)
Definition recover_to_list_boundary (n : nat) (c : Checkpoint) (close : TokenKind) : M unit :=
  recover_in_error (
    until_eof n (λ d,
      let* k := cur in
      if bool_decide (k = close) && depth_top d then ret (Break tt)
      else
        match depth_track d k with
        | Some d => skip_token d
        | None =>
          if bool_decide (k = TComma) && depth_top d then (bump;;; ret (Break tt))
          else skip_token d
        end);;;
    ensure_progress c).

Definition recover_to_using_boundary (n : nat) (c : Checkpoint) : M unit :=
  recover_in_error (
    until_eof n (λ d,
      let* stop :=
        (if depth_top d then
           orM (orM (at_ TComma) (at_ TRBrace)) at_top_level_item_start
         else ret false) in
      if (stop : bool) then ret (Break tt)
      else
        let* k := cur in
        skip_token (depth_tracked d k));;;
    if* at_ TComma then (bump;;; ret tt)
    else
      if* andM (notM (at_ TRBrace)) (notM at_top_level_item_start) then ensure_progress c
      else ret tt).

(** Consumes a comma after a list entry, or reports a missing separator; [true]
    when the list goes on with another entry. *)
Definition list_separator (next_entry_starts : bool) (message : string) : M bool :=
  if* ate TComma then ret true
  else if next_entry_starts then (expected_here GrammarRule message;;; ret true)
  else ret false.

(** Contracts are found by the name of the operation. *)
#[global] Typeclasses Opaque at_attribute_start at_const_fn at_top_level_item_keyword
  at_top_level_item_start at_top_level_item_boundary_except_fn at_namespace_segment collect_until
  skip_until until_eof skip_token recover_to_item_boundary recover_to_attribute_boundary
  recover_to_member_boundary recover_to_stmt_boundary recover_to_list_boundary
  recover_to_using_boundary list_separator.
