(* ===== verification/GrammarTactics.v ===== *)
(** * nia-syntax: symbolic execution of productions

    Contracts of computations as a class, and the tactics that run a production
    against them.  [wp_step] executes one operation and normalizes what it learned;
    [wp_run] goes on until a choice, a contract's postcondition or the end. *)

From S2P Require Import Prelude RustStd Lexer LexerProps SyntaxKind GreenTree GreenTreeProps GrammarParser GrammarLogic GrammarRules GrammarWp GrammarRecover.

(** ** Contracts *)

Class Spec (E : Env) {A} (m : M A) (pre : Core → Prop) (post : Core → A → Core → Prop) : Prop :=
  spec : ∀ c, Inv E c → pre c → wp E m c (post c).

(** Conditions that only look at tokens. *)
Class Cond (E : Env) (m : M bool) (f : nat → bool) : Prop :=
  cond : ∀ c, Inv E c → wp E m c (λ b c', b = f (c_pos c) ∧ c' = c).

(** The tokens left are within the fuel, when termination is claimed. *)
Definition Within (E : Env) (n : nat) (c : Core) : Prop :=
  total E = true → (len E - c_pos c ≤ n)%nat.

(** A production: it extends the state; a result is fresh and took a token; on a
    token that [starts] it a token is taken in any case. *)
Definition Prod (E : Env) (starts : nat → Prop) (c : Core) (o : option Parsed) (c' : Core) : Prop :=
  Ext E c c' ∧
  match o with Some r => Fresh E c c' r ∧ (c_pos c < c_pos c')%nat | None => True end ∧
  (starts (c_pos c) → (c_pos c < c_pos c')%nat).

Definition never (i : nat) : Prop := False.

Lemma wp_spec E {A} (m : M A) pre post c (Q : A → Core → Prop) :
  Spec E m pre post → Inv E c → pre c → (∀ a c', post c a c' → Q a c') → wp E m c Q.
Proof. intros Hm Hc Hp HQ. eapply wp_mono; [by apply Hm|done]. Qed.

Lemma wp_cond E m f c (Q : bool → Core → Prop) :
  Cond E m f → Inv E c → Q (f (c_pos c)) c → wp E m c Q.
Proof. intros Hm Hc HQ. eapply wp_mono; [by apply Hm|]. by intros b c' [-> ->]. Qed.

(** ** Kinds *)

Lemma kind_in_ne k l k' : kind_in k l = true → kind_in k' l = false → k ≠ k'.
Proof. by intros H1 H2 ->; rewrite H1 in H2. Qed.

Lemma kind_in_single k k' : kind_in k [k'] = bool_decide (k = k').
Proof. unfold kind_in. apply bool_decide_ext. by rewrite list_elem_of_singleton. Qed.

(** [k ∈ l] by its cases; [kind_in k l = false] from the cases that are excluded. *)
Ltac kind_cases H tac :=
  unfold kind_in in H; try apply (bool_decide_eq_true_1 _) in H;
  repeat (apply elem_of_cons in H as [H|H]; [tac|]); by apply not_elem_of_nil in H.

Ltac kind_out :=
  let H := fresh "Hin" in
  unfold kind_in; apply (bool_decide_eq_false_2 _); intros H; kind_cases H ltac:(congruence).

Section Conditions.
Context (E : Env) {HE : EnvOk E}.

#[global] Instance at_cond k : Cond E (at_ k) (λ i, bool_decide (kind_at E i = k)).
Proof. intros c Hc. by apply wp_at. Qed.

#[global] Instance at_any_cond ks : Cond E (at_any ks) (λ i, kind_in (kind_at E i) ks).
Proof. intros c Hc. by apply wp_at_any. Qed.

#[global] Instance nth_is_cond off k :
  Cond E (nth_is off k) (λ i, bool_decide ((i + off < len E)%nat ∧ kind_at E (i + off) = k)).
Proof. intros c Hc. by apply wp_nth_is. Qed.

#[global] Instance and_cond m1 m2 f1 f2 :
  Cond E m1 f1 → Cond E m2 f2 → Cond E (andM m1 m2) (λ i, f1 i && f2 i).
Proof.
  intros H1 H2 c Hc. apply wp_bind. eapply wp_cond; [done|done|]. destruct (f1 (c_pos c)).
  - by eapply wp_cond.
  - by apply wp_ret.
Qed.

#[global] Instance or_cond m1 m2 f1 f2 :
  Cond E m1 f1 → Cond E m2 f2 → Cond E (orM m1 m2) (λ i, f1 i || f2 i).
Proof.
  intros H1 H2 c Hc. apply wp_bind. eapply wp_cond; [done|done|]. destruct (f1 (c_pos c)).
  - by apply wp_ret.
  - by eapply wp_cond.
Qed.

#[global] Instance not_cond m f : Cond E m f → Cond E (notM m) (λ i, negb (f i)).
Proof. intros H c Hc. apply wp_bind. eapply wp_cond; [done|done|]. by apply wp_ret. Qed.

#[global] Instance ret_cond b : Cond E (ret b) (λ _, b).
Proof. intros c Hc. by apply wp_ret. Qed.

#[global] Instance if_cond (b : bool) m1 m2 f1 f2 :
  Cond E m1 f1 → Cond E m2 f2 → Cond E (if b then m1 else m2) (λ i, if b then f1 i else f2 i).
Proof. by destruct b. Qed.

#[global] Instance cur_cond (f : TokenKind → bool) :
  Cond E (let* k := cur in ret (f k)) (λ i, f (kind_at E i)).
Proof. intros c Hc. by apply wp_bind, wp_cur, wp_ret. Qed.

Definition attribute_at (i : nat) : bool :=
  bool_decide (kind_at E i = TAt) && bool_decide ((i + 1 < len E)%nat ∧ kind_at E (i + 1) = TLBracket).

Definition item_start_at (i : nat) : bool := attribute_at i || is_item_keyword (kind_at E i).

#[global] Instance at_attribute_start_cond : Cond E at_attribute_start attribute_at.
Proof. apply and_cond; apply _. Qed.

#[global] Instance at_top_level_item_keyword_cond :
  Cond E at_top_level_item_keyword (λ i, is_item_keyword (kind_at E i)).
Proof. apply cur_cond. Qed.

#[global] Instance at_top_level_item_start_cond : Cond E at_top_level_item_start item_start_at.
Proof. apply or_cond; apply _. Qed.

#[global] Instance at_namespace_segment_cond :
  Cond E at_namespace_segment (λ i, kind_in (kind_at E i) [TIdent; TRoot; TSuper; TSelfValue]).
Proof. apply (cur_cond (λ k, kind_in k _)). Qed.

#[global] Instance at_const_fn_cond : Cond E at_const_fn
  (λ i, bool_decide (kind_at E i = TConst) && bool_decide ((i + 1 < len E)%nat ∧ kind_at E (i + 1) = TFun)).
Proof. apply and_cond; apply _. Qed.

#[global] Instance at_top_level_item_boundary_except_fn_cond :
  Cond E at_top_level_item_boundary_except_fn
    (λ i, is_item_keyword (kind_at E i) && negb (bool_decide (kind_at E i = TFun))).
Proof. apply and_cond; apply _. Qed.
End Conditions.

(** ** Tactics *)

(** Extensions by transitivity through the states in the context. *)
Ltac solve_ext :=
  first
  [ eassumption
  | apply Ext_refl; eassumption
  | match goal with
    | H : Ext ?E ?x ?b |- Ext ?E ?a ?b => apply (Ext_trans E a x b); [solve_ext|exact H]
    end ].

(** Facts the arithmetic needs: cursor bounds, and what termination promises. *)
Ltac pose_bounds :=
  repeat match goal with
  | H : Inv ?E ?c |- _ =>
    lazymatch goal with
    | _ : (c_pos c < len E)%nat |- _ => fail
    | _ => pose proof (inv_pos E c H)
    end
  end.

Ltac use_total :=
  repeat match goal with
  | Ht : total ?E = true, H : total ?E = true → _ |- _ => specialize (H Ht)
  | Ht : total ?E = true, H : Within ?E _ _ |- _ => specialize (H Ht)
  end.


(** [kind ≠ TEof] from what is known of the current token. *)
Ltac kind_ne :=
  repeat match goal with
  | H : (_ || _)%bool = true |- _ => apply orb_true_iff in H as [H|H]
  | H : kind_at _ _ = _ ∨ _ |- _ => destruct H as [H|H]
  end;
  repeat match goal with
  | H : (_ && _)%bool = true |- _ => apply andb_true_iff in H as [H ?]
  end;
  repeat match goal with
  | H : bool_decide _ = true |- _ => apply (bool_decide_eq_true_1 _) in H
  end;
  first
  [ assumption
  | congruence
  | match goal with
    | H : kind_in ?k _ = true |- ?k ≠ _ => apply (kind_in_ne _ _ _ H); reflexivity
    | H : is_item_keyword ?k = true |- ?k ≠ _ => apply (kind_in_ne _ _ _ H); reflexivity
    end
  | match goal with H : _ ∧ _ |- _ => destruct H; kind_ne end ].

(** Positions in terms of the earliest state they are known from. *)
Ltac norm_pos :=
  repeat match goal with
  | H : c_pos ?c' = _ |- context [kind_at _ (c_pos ?c')] => rewrite H
  end.

(** Unfolds the postconditions that have a name. *)
Ltac open_post H := fail.

(** Uses the facts that are promised on a token other than EOF. *)
Ltac use_kinds :=
  repeat match goal with
  | H : kind_at ?E ?i ≠ TEof → _ |- _ =>
    let K := fresh "K" in
    assert (kind_at E i ≠ TEof) as K by (norm_pos; solve [kind_ne]); specialize (H K); clear K
  end.

Ltac pos_lia :=
  unfold Within in *; intros; use_total; pose_bounds; use_kinds; simpl in *; lia.

(** New facts: invariants and positions of extensions, conjunctions split. *)
Ltac learn :=
  repeat match goal with
  | H : _ ∧ _ |- _ => destruct H
  | H : ?x = _ |- _ => is_var x; subst x
  | H : _ |- _ => progress (open_post H)
  | H : ∃ _, _ |- _ => destruct H
  | H : Prod _ _ _ _ _ |- _ => unfold Prod in H
  | H : Ext ?E ?c ?c' |- _ =>
    lazymatch goal with
    | _ : Inv E c' |- _ => fail
    | _ => pose proof (ext_inv _ _ _ H); pose proof (ext_pos _ _ _ H)
    end
  | H : is_Some (Some ?x) → _ |- _ => specialize (H (ex_intro _ x eq_refl))
  | H : is_Some None → _ |- _ => clear H
  | H : context [fst (_, _)] |- _ => cbn [fst] in H
  | H : context [snd (_, _)] |- _ => cbn [snd] in H
  | H : true = true → _ |- _ => specialize (H eq_refl)
  | H : false = true → _ |- _ => clear H
  | H : false = false → _ |- _ => specialize (H eq_refl)
  | H : true = false → _ |- _ => clear H
  | H : True → _ |- _ => specialize (H I)
  | H : match ?o with Some _ => _ | None => _ end |- _ => is_var o; destruct o
  | H : match ?o with Continue _ => _ | Break _ => _ end |- _ => is_var o; destruct o
  end.

(** Case analysis on a decided condition. *)
Ltac split_cond b :=
  let H := fresh "Hb" in
  destruct b eqn:H;
  repeat match goal with
  | H : (_ && _)%bool = true |- _ => apply andb_true_iff in H as [H ?]
  | H : (_ || _)%bool = false |- _ => apply orb_false_iff in H as [H ?]
  | H : (if ?b then _ else false) = true |- _ => let Hc := fresh "Hc" in destruct b eqn:Hc; [|discriminate H]
  | H : negb _ = true |- _ => apply negb_true_iff in H
  | H : negb _ = false |- _ => apply negb_false_iff in H
  | H : bool_decide _ = true |- _ => apply (bool_decide_eq_true_1 _) in H
  | H : bool_decide _ = false |- _ => apply (bool_decide_eq_false_1 _) in H
  | H : (bool_decide (kind_at _ _ = _) || bool_decide (kind_at _ _ = _))%bool = true |- _ =>
    apply orb_true_iff in H; rewrite 2(bool_decide_eq_true _) in H
  end;
  try congruence.

(** Rules take the environment of the goal first. *)
Tactic Notation "use" uconstr(lem) :=
  lazymatch goal with |- wp ?E _ _ _ => apply (lem E) end;
  lazymatch goal with |- EnvOk _ => exact _ | |- _ => idtac end.
Tactic Notation "euse" uconstr(lem) :=
  lazymatch goal with |- wp ?E _ _ _ => eapply (lem E) end;
  lazymatch goal with |- EnvOk _ => exact _ | |- _ => idtac end.

(** Unfolds the abbreviations of the grammar files. *)
Ltac wp_unfold := fail.

Ltac wp_prim :=
  lazymatch goal with
  | |- wp _ (bind _ _) _ _ => use wp_bind
  | |- wp _ (bind_opt _ _) _ _ => use wp_bind_opt
  | |- wp _ (ret _) _ _ => use wp_ret
  | |- wp _ cur _ _ => use wp_cur; norm_pos
  | |- wp _ (nth_kind _) _ _ => use wp_nth_kind; norm_pos
  | |- wp _ cur_span _ _ => use wp_cur_span; intros ?
  | |- wp _ current_start _ _ => use wp_current_start; intros ?
  | |- wp _ cur_text _ _ => use wp_cur_text; intros ?
  | |- wp _ previous_end _ _ => use wp_previous_end; intros ?
  | |- wp _ read_end _ _ => use wp_read_end; intros ?
  | |- wp _ (has_line_break_between _ _) _ _ => use wp_has_line_break; intros ?
  | |- wp _ (error_here_as _ _) _ _ => use wp_error_here_as
  | |- wp _ (error_here _) _ _ => use wp_error_here
  | |- wp _ (error_at _ _) _ _ => use wp_error_at
  | |- wp _ (error_at_end_as _ _ _) _ _ => use wp_error_at_end_as
  | |- wp _ errors_len _ _ => use wp_errors_len; intros ?
  | |- wp _ (truncate_errors _) _ _ => use wp_truncate_errors
  | |- wp _ checkpoint _ _ => use wp_checkpoint
  | |- wp _ (rewind (cp_of ?c0)) _ _ => use wp_rewind; [solve_ext|]
  | |- wp _ missing _ _ => use wp_missing; [eassumption|intros ? ? ?]
  | |- wp _ (expected_here _ _) _ _ => use wp_expected_here; [eassumption|intros ? ? ?]
  | |- wp _ (record_block _ _) _ _ => use wp_record_block; [eassumption|intros ? ? ? ?]
  | |- wp _ bump _ _ =>
    first [ use wp_bump_ne; [eassumption|norm_pos; solve [kind_ne]|intros ? ? ? ?]
          | use wp_bump; [eassumption|intros ? ? ? ? ?|intros ? ?] ]
  | |- wp _ (eat _) _ _ => use wp_eat; [eassumption|done|norm_pos; intros ? ? ? ? ?|norm_pos; intros ?]
  | |- wp _ (ate _) _ _ => use wp_ate; [eassumption|done|norm_pos; intros ? ? ? ?|norm_pos; intros ?]
  | |- wp _ (expect _ _) _ _ => use wp_expect; [eassumption|done|norm_pos; intros ? ? ? ? ?|norm_pos; intros ? ? ? ?]
  | |- wp _ (expect_name _) _ _ => use wp_expect_name; [eassumption|norm_pos; intros ? ? ? ? ?|norm_pos; intros ? ? ? ?]
  | |- wp _ (expect_semicolon_after _ _) _ _ =>
    use wp_expect_semicolon_after; [eassumption|norm_pos; intros ? ? ? ? ?|norm_pos; intros ? ? ? ?]
  | |- wp _ (ensure_progress (cp_of ?c0)) _ _ =>
    use wp_ensure_progress; [eassumption|pos_lia|norm_pos; intros ? ? ?]
  | |- wp _ (node _) _ _ => use wp_node; [eassumption|intros ? ? ?]
  | |- wp _ (node_with _) _ _ => use wp_node_with; [eassumption|intros ? ? ?]
  | |- wp _ (recover_in_error _) _ _ => use wp_recover; [eassumption|intros ? ? ?]
  | |- wp ?E (node_preceding ?lhs _) ?c _ =>
    match goal with
    | H : Fresh E ?b ?c1 lhs |- _ =>
      apply (wp_node_preceding E b); [eassumption|solve_ext| |intros ? ? ?];
      [apply (Made_ext E b c1 c lhs); [eassumption|by exists []|solve_ext]|]
    end
  | |- wp _ (snapshot _ (cp_of _)) _ _ =>
    euse wp_snapshot; [eassumption|eassumption|pos_lia|solve_ext|intros ? ?]
  | |- wp _ (push_alternate _ _ _) _ _ =>
    use wp_push_alternate; [eassumption|eassumption|intros ? ? ? ?]
  | |- wp _ (if ?b then _ else _) _ _ => norm_pos; lazymatch goal with |- wp _ (if ?b then _ else _) _ _ => split_cond b end
  | |- wp _ (match ?o with Some _ => _ | None => _ end) _ _ =>
    let H := fresh "Ho" in destruct o eqn:H
  | |- wp _ (match ?x with (_, _) => _ end) _ _ => destruct x
  | |- match ?o with Some _ => wp _ _ _ _ | None => _ end => destruct o
  | |- wp _ _ _ _ =>
    first
    [ wp_unfold
    | euse wp_cond; [apply _|eassumption|norm_pos]
    | euse wp_spec; [apply _|eassumption| |let H := fresh "Hpost" in intros ? ? H; cbv beta in H]
    | progress unfold andM, orM, notM ]
  end.

Ltac wp_step := cbv beta iota zeta; wp_prim; cbv beta iota zeta; learn.

(** Preconditions of contracts. *)
Ltac wp_pre :=
  lazymatch goal with
  | |- wp _ _ _ _ => idtac
  | |- _ => try solve [split_and?; first [eassumption|done|pos_lia|norm_pos; first [eassumption|kind_ne]]]
  end.

Ltac wp_run := repeat (wp_step; wp_pre).
