(* ===== verification/GrammarRecoverFacts.v ===== *)
(** * nia-syntax: contracts of recovery

    Every recovery helper ends, extends the event stream, and makes progress past
    its checkpoint unless the input is at its end. *)

From S2P Require Import Prelude RustStd Lexer LexerProps SyntaxKind GreenTree GreenTreeProps GrammarParser GrammarLogic GrammarRules GrammarWp GrammarRecover GrammarTactics.

(** ** Positions of tokens *)

Section Positions.
Context (E : Env) {HE : EnvOk E}.

Definition sig_span (i : nat) : Span :=
  match sigs E !! Nat.min i (len E - 1) with
  | Some j => match toks E !! j with Some t => lspan t | None => mkSpan 0 0 end
  | None => mkSpan 0 0
  end.

Definition prev_end (i : nat) : nat := match i with O => 0%nat | S i => end_ (sig_span i) end.

Lemma wp_token_at i c (Q : LosslessToken → Core → Prop) :
  (∀ t, lspan t = sig_span i → Q t c) → wp E (token i) c Q.
Proof.
  intros HQ p Hf Hc. pose proof Hf as (Hs&Ht&Hg&_). unfold token. rewrite Hg.
  pose proof (len_pos E) as Hpos. fold (len E).
  destruct (len E) as [|last] eqn:Hlen; [lia|].
  assert (Nat.min i last < len E)%nat as Hi by lia.
  destruct (sig_token E _ Hi) as (j&t&Hj&Hjt&_).
  pose proof (framed_read_to E _ _ Hf Hi) as Hf'. pose proof Hf' as (Hs'&Ht'&Hg'&_).
  rewrite Hg', Hj, Ht', Hjt. rewrite core_read_to, Hc. split; [done|]. apply HQ.
  unfold sig_span. rewrite Hlen. simpl. rewrite Nat.sub_0_r, Hj, Hjt. done.
Qed.

Lemma wp_current_start_at c (Q : nat → Core → Prop) :
  Q (start (sig_span (c_pos c))) c → wp E current_start c Q.
Proof.
  intros HQ. apply wp_bind, wp_bind, wp_gets_pos, wp_bind, wp_token_at. intros t Ht.
  apply wp_ret, wp_ret. by rewrite Ht.
Qed.

Lemma wp_previous_end_at c (Q : nat → Core → Prop) :
  Q (prev_end (c_pos c)) c → wp E previous_end c Q.
Proof.
  intros HQ. apply wp_bind, wp_gets_pos. destruct (c_pos c) as [|i]; [by apply wp_ret|].
  apply wp_bind, wp_token_at. intros t Ht. apply wp_ret. by rewrite Ht.
Qed.

Lemma tiles_ordered bs p ts i j t u :
  tiles bs p ts → ts !! i = Some t → ts !! j = Some u → (i < j)%nat →
  (end_ (lspan t) ≤ start (lspan u))%nat.
Proof.
  intros Ht. revert i j. induction Ht as [|p q k ts Hpq Hk Ht IH]; intros i j Hi Hj Hlt.
  { destruct j as [|[|]]; [lia|done..]. }
  destruct j as [|j]; [lia|]. simpl in Hj. destruct i as [|i]; simpl in Hi.
  - simplify_eq. simpl. clear -Ht Hj. revert j Hj.
    induction Ht as [|p' q' k' ts Hpq Hk Ht IH]; intros [|j] Hj; simpl in *; simplify_eq; simpl; [lia|lia|].
    specialize (IH _ Hj). lia.
  - eapply IH; [done|done|lia].
Qed.

(** Nothing is left of the current token before the end of the previous one. *)
Lemma prev_end_le i : (i < len E)%nat → (prev_end i ≤ start (sig_span i))%nat.
Proof.
  intros Hi. destruct i as [|i]; simpl; [lia|]. unfold sig_span.
  rewrite !Nat.min_l by lia.
  destruct (sig_token E i) as (j&t&Hj&Ht&_); [lia|].
  destruct (sig_token E (S i)) as (j'&t'&Hj'&Ht'&_); [lia|].
  rewrite Hj, Hj', Ht, Ht'. eapply tiles_ordered; [apply env_tiles|done|done|].
  eapply sigs_lt; [done|done|lia].
Qed.
End Positions.

(** ** Skipping loops *)

Section Recover.
Context (E : Env) {HE : EnvOk E}.

(** A loop over the tokens up to EOF: it went on at least once, or it stopped at
    the first token for the reason [stop], or there was none. *)
Lemma wp_until_eof n body c (stop : Prop) :
  Inv E c → Within E n c →
  (∀ d c1, Ext E c c1 → kind_at E (c_pos c1) ≠ TEof → c1 = c ∨ (c_pos c < c_pos c1)%nat →
    wp E (body d) c1 (λ r c2, Ext E c1 c2 ∧
      match r with
      | Continue _ => (c_pos c1 < c_pos c2)%nat
      | Break _ => (c_pos c < c_pos c2)%nat ∨ stop
      end)) →
  wp E (until_eof n body) c (λ _ c', Ext E c c' ∧
    ((c_pos c < c_pos c')%nat ∨ stop ∨ kind_at E (c_pos c) = TEof)).
Proof.
  intros Hc Hn Hbody. eapply (wp_loop E (λ _ c1, Ext E c c1 ∧ (c1 = c ∨ (c_pos c < c_pos c1)%nat))).
  - split; [by apply Ext_refl|by left].
  - done.
  - intros d c1 [Hx _]. apply inv_pos, Hx.
  - intros d c1 [Hx Hor]. pose proof (ext_inv _ _ _ Hx). apply (wp_bind E), (wp_at E).
    case_bool_decide as Hk.
    + apply (wp_ret E). split; [done|]. destruct Hor as [Heq|]; [subst c1|]; auto.
    + eapply wp_mono; [by apply Hbody|]. intros [d'|[]] c2 [Hx2 Hr].
      * split; [|done]. split; [by eapply Ext_trans|]. right. apply ext_pos in Hx. lia.
      * split; [by eapply Ext_trans|]. naive_solver.
Qed.

(** What a recovery to a boundary past a checkpoint promises: progress, unless
    the checkpoint was at the end of the input. *)
Definition recovered (c0 : nat) (c : Core) (_ : unit) (c' : Core) : Prop :=
  Ext E c c' ∧ (kind_at E c0 ≠ TEof → (c0 < c_pos c')%nat).

Ltac open_post H ::= unfold recovered in H.

Lemma wp_skip_token d c (Q : step Depth unit → Core → Prop) :
  Inv E c → kind_at E (c_pos c) ≠ TEof →
  (∀ c', Ext E c c' → c_pos c' = S (c_pos c) → Q (Continue d) c') → wp E (skip_token d) c Q.
Proof. intros Hc Hk HQ. apply (wp_bind E), (wp_bump_ne E); [done..|]. intros. by apply (wp_ret E), HQ. Qed.

(** The loop of a boundary search with the progress guard after it. *)
Lemma wp_boundary n body c0 c :
  Inv E c → Within E n c → (c_pos c0 ≤ c_pos c)%nat →
  (∀ d c1, Inv E c1 → kind_at E (c_pos c1) ≠ TEof →
    wp E (body d) c1 (λ r c2, Ext E c1 c2 ∧
      match r with Continue _ => (c_pos c1 < c_pos c2)%nat | Break _ => True end)) →
  wp E (until_eof n body) c (λ _ c', Ext E c c') ∧
  wp E (until_eof n body;;; ensure_progress (cp_of c0)) c (recovered (c_pos c0) c).
Proof.
  intros Hc Hn Hle Hbody.
  assert (wp E (until_eof n body) c (λ _ c', Ext E c c')) as Hloop.
  { eapply wp_mono; [apply (wp_until_eof n body c True); [done|done|]|by intros ? ? [? _]].
    intros d c1 Hx Hk _. eapply wp_mono; [apply Hbody; [by eapply ext_inv|done]|].
    intros [d'|[]] c2 [Hx2 Hr]; split; auto. }
  split; [done|]. apply (wp_bind E). eapply wp_mono; [exact Hloop|]. intros [] c' Hx.
  apply (wp_ensure_progress E); [by eapply ext_inv|apply ext_pos in Hx; lia|].
  intros c2 Hx2 Hor. split; [by eapply Ext_trans|done].
Qed.

Lemma wp_recovered n body c0 c :
  Inv E c → Within E n c → (c_pos c0 ≤ c_pos c)%nat →
  (∀ d c1, Inv E c1 → kind_at E (c_pos c1) ≠ TEof →
    wp E (body d) c1 (λ r c2, Ext E c1 c2 ∧
      match r with Continue _ => (c_pos c1 < c_pos c2)%nat | Break _ => True end)) →
  wp E (recover_in_error (until_eof n body;;; ensure_progress (cp_of c0))) c (recovered (c_pos c0) c).
Proof.
  intros Hc Hn Hle Hbody. apply (wp_recover E); [done|]. intros c1 Hc1 Hp1.
  destruct (wp_boundary n body c0 c1) as [_ H]; [done|unfold Within in *; by rewrite Hp1|lia|done|].
  eapply wp_mono; [exact H|]. intros [] c2 [Hx Hor]. split; [done|]. intros c' Hx' Hp.
  split; [done|]. by rewrite Hp.
Qed.

#[global] Instance skip_token_spec d :
  Spec E (skip_token d) (λ c, kind_at E (c_pos c) ≠ TEof)
    (λ c r c', r = Continue d ∧ Ext E c c' ∧ c_pos c' = S (c_pos c)).
Proof. intros c Hc Hk. by apply wp_skip_token. Qed.

(** One iteration of a boundary search. *)
Ltac boundary :=
  intros c Hc [Hn Hle]; apply wp_recovered; [done..|]; intros d c1 Hc1 Hk1;
  wp_run; repeat case_match; (split; [solve_ext|first [done|pos_lia]]).

#[global] Instance recover_to_item_boundary_spec n c0 :
  Spec E (recover_to_item_boundary n (cp_of c0))
    (λ c, Within E n c ∧ (c_pos c0 ≤ c_pos c)%nat) (recovered (c_pos c0)).
Proof. boundary. Qed.

#[global] Instance recover_to_stmt_boundary_spec n c0 :
  Spec E (recover_to_stmt_boundary n (cp_of c0))
    (λ c, Within E n c ∧ (c_pos c0 ≤ c_pos c)%nat) (recovered (c_pos c0)).
Proof. boundary. Qed.

#[global] Instance recover_to_list_boundary_spec n c0 close :
  Spec E (recover_to_list_boundary n (cp_of c0) close)
    (λ c, Within E n c ∧ (c_pos c0 ≤ c_pos c)%nat) (recovered (c_pos c0)).
Proof. boundary. Qed.

#[global] Instance recover_to_member_boundary_spec n c0 :
  Spec E (recover_to_member_boundary n (Some (cp_of c0)))
    (λ c, Within E n c ∧ (c_pos c0 ≤ c_pos c)%nat) (recovered (c_pos c0)).
Proof. boundary. Qed.

(** Without a checkpoint there is progress only off the tokens that stop it. *)
#[global] Instance recover_to_member_boundary_none_spec n :
  Spec E (recover_to_member_boundary n None) (Within E n)
    (λ c _ c', Ext E c c' ∧
      ((c_pos c < c_pos c')%nat ∨ kind_at E (c_pos c) = TRBrace ∨ attribute_at E (c_pos c) = true ∨
       kind_at E (c_pos c) = TEof)).
Proof.
  intros c Hc Hn. unfold recover_to_member_boundary. apply (wp_recover E); [done|].
  intros c1 Hc1 Hp1. wp_step.
  eapply wp_mono; [apply (wp_until_eof n _ _ (kind_at E (c_pos c1) = TRBrace ∨ attribute_at E (c_pos c1) = true))|].
  - done.
  - pos_lia.
  - intros d ca Hx Hk Hor. learn. wp_run.
    all: split; [solve_ext|]; first [pos_lia|destruct Hor as [Heq|?]; [subst|left; pos_lia]].
    all: rewrite Hp1 in *; right; by auto.
  - intros [] cb [Hx Hor]. wp_step. split; [solve_ext|]. intros c' Hx' Hp'. split; [done|].
    rewrite <-Hp1, Hp'. naive_solver.
Qed.

#[global] Instance recover_to_attribute_boundary_spec n c0 :
  Spec E (recover_to_attribute_boundary n (cp_of c0))
    (λ c, Within E n c ∧ (c_pos c0 ≤ c_pos c)%nat) (recovered (c_pos c0)).
Proof.
  intros c Hc [Hn Hle]. unfold recover_to_attribute_boundary. wp_step. wp_step.
  eapply wp_mono; [apply (wp_until_eof n _ _ True)|].
  - done.
  - pos_lia.
  - intros d ca Hx Hk Hor. learn. wp_run; (split; [solve_ext|first [by right|pos_lia]]).
  - intros [] cb [Hx _]. learn. wp_run; (split; [solve_ext|]); intros cz Hz Hpz;
      (split; [done|rewrite Hpz; intros Hk; pos_lia]).
Qed.

#[global] Instance recover_to_using_boundary_spec n c0 :
  Spec E (recover_to_using_boundary n (cp_of c0))
    (λ c, Within E n c ∧ (c_pos c0 ≤ c_pos c)%nat)
    (λ c _ c', Ext E c c' ∧ (kind_at E (c_pos c0) ≠ TEof → kind_at E (c_pos c0) ≠ TRBrace →
       item_start_at E (c_pos c0) = false → (c_pos c0 < c_pos c')%nat)).
Proof.
  intros c Hc [Hn Hle]. unfold recover_to_using_boundary. wp_step. wp_step.
  eapply wp_mono; [apply (wp_until_eof n _ _ True)|].
  - done.
  - pos_lia.
  - intros d ca Hx Hk Hor. learn. wp_run; (split; [solve_ext|first [by right|pos_lia]]).
  - intros [] cb [Hx _]. learn. wp_run; (split; [solve_ext|]); intros cz Hz Hpz; (split; [done|]);
      rewrite Hpz; intros Hk1 Hk2 Hi; first [pos_lia|idtac].
    destruct (decide (c_pos cb = c_pos c0)) as [Heq|]; [|pos_lia].
    rewrite Heq in *. rewrite Hi, (bool_decide_eq_false_2 _) in Hb0 by done. done.
Qed.

#[global] Instance skip_until_spec n stops :
  Spec E (skip_until n stops) (Within E n) (λ c _ c', Ext E c c').
Proof.
  intros c Hc Hn. unfold skip_until, while. wp_step.
  apply (wp_loop E (λ _ c', Ext E c1 c')); [by apply Ext_refl|pos_lia| |].
  - intros [] c2 Hx. apply inv_pos, Hx.
  - intros [] c2 Hx. learn. wp_run. all: split; [solve_ext|first [pos_lia|by intros]].
Qed.

#[global] Instance collect_until_spec n stops :
  Spec E (collect_until n stops) (Within E n)
    (λ c o c', Ext E c c' ∧ (is_Some o → (c_pos c < c_pos c')%nat)).
Proof.
  intros c Hc Hn. unfold collect_until. apply wp_bind, (wp_current_start_at E), wp_bind.
  eapply (wp_mono E _ _ (λ _ c', Ext E c c')).
  - apply (wp_loop E (λ _ c', Ext E c c')); [by apply Ext_refl|done| |].
    + intros d c2 Hx. apply inv_pos, Hx.
    + intros d c2 Hx. learn. wp_run; (split; [solve_ext|pos_lia]).
  - intros [] c2 Hx. learn. apply wp_bind, (wp_previous_end_at E). wp_run.
    split; [done|]. intros _. apply Nat.leb_gt in Hb.
    destruct (decide (c_pos c2 = c_pos c)) as [Heq|]; [|pos_lia].
    rewrite Heq in *. pose proof (prev_end_le E (c_pos c) (inv_pos _ _ Hc)). lia.
Qed.

#[global] Instance list_separator_spec next message :
  Spec E (list_separator next message) (λ _, True) (λ c _ c', Ext E c c').
Proof. intros c Hc _. unfold list_separator. wp_run; solve_ext. Qed.
End Recover.
