(* ===== verification/GrammarTypes.v ===== *)
(** * nia-syntax: the type grammar ([crates/nia-syntax/src/grammar/types.rs])

    Types, type arguments, generic parameters and [where] clauses.  The source's
    productions are mutually recursive through all grammar files; here every
    recursive call that comes after a consumed token goes through the record
    [Grammar] of entry points, which [GrammarItems.grammar] ties with fuel, and all
    other calls are direct.  The fuel of the loops is [g_fuel]. *)

From S2P Require Import Prelude RustStd Lexer SyntaxKind GreenTree GrammarParser GrammarRecover.

(** Whether a type is parsed where [Type {] begins a struct literal. *)
Inductive TypeMode : Type := NormalType | BeforeAggregateLiteral.

#[global] Instance TypeMode_eq_dec : EqDecision TypeMode.
Proof. solve_decision. Defined.

(** The contexts of patterns ([grammar/patterns.rs]). *)
Inductive Context : Type := BindingContext | MatchContext.

#[global] Instance Context_eq_dec : EqDecision Context.
Proof. solve_decision. Defined.

(** The entry points of recursive calls. *)
Record Grammar := mkGrammar {
  g_fuel : nat;
  g_type_with_mode : TypeMode → M (option Parsed);
  g_optional_type : TypeMode → M (option Parsed);
  g_assignment_until : list TokenKind → M (option Parsed);
  g_binary_until : nat → list TokenKind → M (option Parsed);
  g_unary_until : list TokenKind → M (option Parsed);
  g_if_expr : M (option Parsed);
  g_condition_until : list TokenKind → M (option Parsed);
  g_condition_unary : list TokenKind → M (option Parsed);
  g_irrefutable_pattern_until : list TokenKind → M (option Parsed);
  g_pattern_until : list TokenKind → M (option Parsed);
  g_atom : list TokenKind → Context → M (option Parsed);
  g_stmt : M (option Parsed);
  g_using_group : M (option Parsed);
}.

(** [Done::new(kind, Span::new(start, p.previous_end()))]. *)
Definition done_here (k : SyntaxKind) (st : nat) : M (option Done) :=
  let* en := previous_end in ret (Some (done_new k (mkSpan st en))).

(** [p.bump().start]. *)
Definition bump_start : M nat := let* sp := bump in ret (start sp).

(** [is_some()] of a production. *)
Definition okM {A} (m : M (option A)) : M bool :=
  let* r := m in ret (match r with Some _ => true | None => false end).

(** Parses an expression that stops at one of [stops] ([exprs::expr_until_tokens]):
    an assignment that does not end at a stop is reparsed as a binary expression. *)
Definition expr_until_tokens_with (assignment : list TokenKind → M (option Parsed))
    (binary : nat → list TokenKind → M (option Parsed)) (stops : list TokenKind) :
    M (option Parsed) :=
  let* c := checkpoint in
  let* errors := errors_len in
  let? e := assignment stops in
  if* at_any stops then ret (Some e)
  else
    rewind c;;;
    truncate_errors errors;;;
    binary 0%nat stops.

Section Types.
Context (G : Grammar).
Let n : nat := g_fuel G.

(** Calls of the expression grammar after a consumed token. *)
Definition g_expr : M (option Parsed) := g_assignment_until G [].
Definition g_expr_until_tokens : list TokenKind → M (option Parsed) :=
  expr_until_tokens_with (g_assignment_until G) (g_binary_until G).

Definition type_can_start (k : TokenKind) : bool :=
  kind_in k [TAmp; TLBracket; TIdent; TRoot; TSuper; TSelfValue; TDotDot; TDotDotEq; TLParen;
             TBool; TSelfType; TOpaque; TNever; TQuestion; TCaret; TUnderscore].

Definition expr_can_start (k : TokenKind) : bool :=
  kind_in k [TInteger; TFloat; TString; TByteString; TChar; TByteChar; TTrue; TFalse; TNull;
             TIdent; TSelfValue; TRoot; TSuper; TUnderscore; TBackslash; TLBracket; TLParen;
             TLBrace; TIf; TMatch; TNot; TMinus; TTilde; TBang; TQuestion; TAmp].

(** [pattern_can_start] of [grammar/patterns.rs]. *)
Definition pattern_can_start (k : TokenKind) : bool :=
  kind_in k [TInteger; TFloat; TString; TByteString; TChar; TByteChar; TTrue; TFalse; TNull;
             TIdent; TSelfValue; TRoot; TSuper; TUnderscore; TLParen; TQuestion; TBang; TAmp;
             TMut; TMinus].

Definition at_type_start : M bool := let* k := cur in ret (type_can_start k).
Definition at_expr_start : M bool := let* k := cur in ret (expr_can_start k).

Definition at_ident_colon : M bool := andM (at_ TIdent) (nth_is 1 TColon).

(** ** Types *)

Definition range_type_tail (mode : TypeMode) : M (option unit) :=
  if* ate TDotDotEq then
    let? _ := g_type_with_mode G mode in ret (Some tt)
  else
    bump;;;
    if* at_type_start then
      let? _ := g_type_with_mode G mode in ret (Some tt)
    else ret (Some tt).

Definition type_parameter_delimiter : M bool :=
  if* ate TComma then ret true
  else
    if* orM (at_ TRParen) (at_ TEof) then ret false
    else
      expected_here GrammarRule "expected `,` or `)` after type parameter";;;
      if* at_type_start then ret true
      else (skip_until n [TRParen];;; ret false).

(** The parameter types of a function pointer; an ellipsis ends them. *)
Definition fn_pointer_params (mode : TypeMode) : M unit :=
  while n (andM (notM (at_ TRParen)) (notM (at_ TEof)))
    (if* ate TEllipsis then ret (Break tt)
     else
       let* c := checkpoint in
       if* okM (g_type_with_mode G mode) then
         if* type_parameter_delimiter then ret (Continue tt) else ret (Break tt)
       else (recover_to_list_boundary n c TRParen;;; ret (Continue tt))).

Definition type_after_amp (mode : TypeMode) : M (option SyntaxKind) :=
  let* is_mut := ate TMut in
  let* is_extern := ate TExtern in
  if* at_ TFun then
    (if (is_mut : bool) then error_here "function pointer types must use a read-only `&` pointer"
     else ret tt);;;
    bump;;;
    let? _ := expect TLParen "expected `(` in function pointer type" in
    fn_pointer_params mode;;;
    let? _ := expect TRParen "expected `)` in function pointer type" in
    if* at_type_start then
      let? _ := g_type_with_mode G mode in ret (Some KFnPointerType)
    else ret (Some KFnPointerType)
  else if (is_extern : bool) then
    error_here "`extern` is only valid in `&extern fun(...)` types";;;
    ret None
  else
    let* c := checkpoint in
    let* errors := errors_len in
    if* andM (andM (andM (ate TLBracket) (okM (g_type_with_mode G mode))) (ate TRBracket))
          (notM at_type_start)
    then ret (Some KSliceType)
    else
      rewind c;;;
      truncate_errors errors;;;
      let? _ := g_type_with_mode G mode in
      ret (Some KPointerType).

(** Further elements of a tuple type. *)
Definition tuple_type_elements (mode : TypeMode) : M unit :=
  while n (andM (notM (at_ TRParen)) (notM (at_ TEof)))
    (let* c := checkpoint in
     if* okM (g_type_with_mode G mode) then
       if* ate TComma then ret (Continue tt)
       else
         if* orM (at_ TRParen) (at_ TEof) then ret (Break tt)
         else
           if* at_type_start then
             expected_here GrammarRule "expected `,` or `)` after type parameter";;;
             ret (Continue tt)
           else (recover_to_list_boundary n c TRParen;;; ret (Continue tt))
     else
       if* ate TComma then ret (Continue tt)
       else
         if* orM (at_ TRParen) (at_ TEof) then ret (Break tt)
         else (recover_to_list_boundary n c TRParen;;; ret (Continue tt))).

(** The contents after [(]: the inner type of a parenthesized type, or [Some None]
    for a tuple type. *)
Definition paren_type (mode : TypeMode) : M (option (option Parsed)) :=
  if* ate TRParen then ret (Some None)
  else
    let* first_checkpoint := checkpoint in
    let* first := g_type_with_mode G mode in
    (match first with
     | None =>
       if* notM (at_ TRParen) then recover_to_list_boundary n first_checkpoint TRParen else ret tt
     | Some _ => ret tt
     end);;;
    let* failed_at_end := (match first with None => at_ TRParen | Some _ => ret false end) in
    if (failed_at_end : bool) then
      let? _ := expect TRParen "expected `)` after tuple type" in
      ret (Some None)
    else
      let* inner :=
        (match first with
         | Some first =>
           if* ate TComma then ret None
           else
             if* notM at_type_start then
               let* close := expect TRParen "expected `)` after parenthesized type" in
               ret (Some (match close with Some _ => Some (Some first) | None => None end))
             else
               expected_here GrammarRule "expected `,` or `)` after type parameter";;;
               ret None
         | None => ret None
         end) in
      match inner with
      | Some r => ret r
      | None =>
        tuple_type_elements mode;;;
        let? _ := expect TRParen "expected `)` after tuple type" in
        ret (Some None)
      end.

(** [type_] and [type_before_aggregate_literal] after a consumed token. *)
Definition g_type : M (option Parsed) := g_type_with_mode G NormalType.

Definition projection_after_open : M bool :=
  let* c := checkpoint in
  let* errors := errors_len in
  let* parsed :=
    andM (andM (andM (andM (andM (okM g_type) (ate TAs)) (okM g_type))
      (okM (expect TRBracket "expected `]` after projection trait")))
      (okM (expect TColonColon "expected `::` after projection type")))
      (okM (expect_name "expected associated type name")) in
  if (parsed : bool) then ret true
  else
    rewind c;;;
    truncate_errors errors;;;
    ret false.

Definition at_callable_type : M bool :=
  andM (andM (at_ TIdent) (let* text := cur_text in ret (bool_decide (text = bytes_of_string "Fun"))))
    (nth_is 1 TLParen).

Definition callable_type (mode : TypeMode) : M (option unit) :=
  bump;;;
  let? _ := expect TLParen "expected `(` in callable type" in
  while n (andM (notM (at_ TRParen)) (notM (at_ TEof)))
    (if* at_ TEllipsis then
       recover_in_error (bump;;; ret tt);;;
       error_here "callable interface types cannot be variadic";;;
       ret (Break tt)
     else
       let* c := checkpoint in
       if* okM (g_type_with_mode G mode) then
         if* type_parameter_delimiter then ret (Continue tt) else ret (Break tt)
       else (recover_to_list_boundary n c TRParen;;; ret (Continue tt)));;;
  let? _ := expect TRParen "expected `)` in callable type" in
  if* at_type_start then
    let? _ := g_type_with_mode G mode in ret (Some tt)
  else ret (Some tt).

(** ** Type arguments *)

Definition at_type_arg_boundary : M bool := orM (orM (at_ TComma) (at_ TRBracket)) (at_ TEof).

Definition at_type_arg_recovery_boundary : M bool :=
  orM (at_any [TRParen; TRBrace; TSemicolon]) at_top_level_item_start.

Definition ARG_STOPS : list TokenKind := [TComma; TRBracket].

Definition const_arg : M (option Parsed) :=
  node (let? e := g_expr_until_tokens ARG_STOPS in ret (Some (done_new KConstArg (pr_span e)))).

Definition type_arg (k : SyntaxKind) : M (option Parsed) :=
  node (let? ty := g_type in ret (Some (done_new k (pr_span ty)))).

Definition skip_to_type_arg_boundary : M unit :=
  recover_in_error (
    until_eof n (λ d,
      let* k := cur in
      match depth_track d k with
      | Some d => skip_token d
      | None =>
        if* (if depth_top d then
               orM (ret (kind_in k [TComma; TRBracket])) at_type_arg_recovery_boundary
             else ret false)
        then ret (Break tt)
        else skip_token d
      end)).

Definition type_arg_delimiter : M bool :=
  if* ate TComma then ret true
  else
    if* orM (orM (at_ TRBracket) (at_ TEof)) at_type_arg_recovery_boundary then ret false
    else
      expected_here GrammarRule "expected `,` or `]` after type argument";;;
      if* orM at_type_start at_expr_start then ret true
      else
        skip_to_type_arg_boundary;;;
        ate TComma.

(** Runs a production speculatively and returns its facts after rewinding. *)
Definition speculate (production : M (option Parsed)) : M (option Parsed) :=
  let* c := checkpoint in
  let* errors := errors_len in
  let* parsed := production in
  rewind c;;;
  truncate_errors errors;;;
  ret parsed.

(** [production.filter(|_| cond)]. *)
Definition filterM {A} (production : M (option A)) (cond : M bool) : M (option A) :=
  let? r := production in
  if* cond then ret (Some r) else ret None.

Inductive AssocBinding : Type := BindingParsed | BindingFailedValue | NotBinding.

Definition assoc_binding_arg : M AssocBinding :=
  let* c := checkpoint in
  let* errors := errors_len in
  let* r := node_with (
    let* key := g_type in
    match key with
    | None => ret (None, false)
    | Some key =>
      if* ate TEq then
        let* value_errors := errors_len in
        let* value := g_type in
        match value with
        | None =>
          truncate_errors value_errors;;;
          error_here "expected associated type binding value";;;
          ret (None, true)
        | Some value =>
          let key_is_valid :=
            (bool_decide (pr_class key = KPathType) && shape_contains (pr_shape key) SINGLE_NAME_PATH)
            || bool_decide (pr_class key = KProjectionType) in
          (if key_is_valid then ret tt
           else error_at (pr_span key) "associated type binding key must be a name or projection");;;
          ret (Some (done_new KAssocBindingArg (mkSpan (start (pr_span key)) (end_ (pr_span value)))),
               true)
        end
      else ret (None, false)
    end) in
  match r with
  | (Some _, true) => ret BindingParsed
  | (None, true) => ret BindingFailedValue
  | (_, false) =>
    rewind c;;;
    truncate_errors errors;;;
    ret NotBinding
  end.

(** One iteration of the type-argument loop for [..] and [..=]. *)
Definition range_type_arg (count : nat) : M nat :=
  let* c := checkpoint in
  let* errors := errors_len in
  if* okM (type_arg KTypeArg) then ret (S count)
  else
    rewind c;;;
    truncate_errors errors;;;
    if* okM const_arg then ret (S count) else ret count.

(** The step after an argument: the delimiter decides whether the loop goes on. *)
Definition delimited (count : nat) : M (step nat nat) :=
  if* type_arg_delimiter then ret (Continue count) else ret (Break count).

(** An argument that both readings accept: the type is kept, and the const
    expression becomes an alternate. *)
Definition ambiguous_arg (count : nat) : M (step nat nat) :=
  let* alternate := checkpoint in
  let* alternate_errors := errors_len in
  let* e := const_arg in
  let* saved :=
    (match e with
     | Some e => let* s := snapshot e alternate in ret (Some (pr_span e, s))
     | None => ret None
     end) in
  rewind alternate;;;
  truncate_errors alternate_errors;;;
  (match saved with
   | Some (sp, s) => push_alternate AltConstArg sp s
   | None => ret tt
   end);;;
  if* okM (type_arg KTypeOrConstArg) then delimited (S count)
  else
    error_here_as ExpectedType (bytes_of_string "expected type argument");;;
    skip_to_type_arg_boundary;;;
    ret (Continue count).

Definition decided_arg (count : nat) : M (step nat nat) :=
  let* c := checkpoint in
  let* errors := errors_len in
  let* ty := speculate (filterM g_type at_type_arg_boundary) in
  let* e := speculate (filterM (g_expr_until_tokens ARG_STOPS) at_type_arg_boundary) in
  match ty, e with
  | Some ty, Some e =>
    if bool_decide (pr_span ty = pr_span e) && bool_decide (pr_class ty = KPathType)
       && shape_contains (pr_shape ty) PATH_WITHOUT_ARGS && shape_contains (pr_shape e) VALUE_PATH
    then ambiguous_arg count
    else
      if* okM (type_arg KTypeArg) then delimited (S count)
      else
        error_here_as ExpectedType (bytes_of_string "expected type argument");;;
        skip_to_type_arg_boundary;;;
        delimited count
  | Some _, None =>
    if* okM (type_arg KTypeArg) then delimited (S count)
    else
      error_here_as ExpectedType (bytes_of_string "expected type argument");;;
      skip_to_type_arg_boundary;;;
      delimited count
  | None, Some _ =>
    if* okM const_arg then delimited (S count)
    else
      error_here "expected const generic argument";;;
      skip_to_type_arg_boundary;;;
      delimited count
  | None, None =>
    rewind c;;;
    truncate_errors errors;;;
    let* before := errors_len in
    if* okM const_arg then delimited (S count)
    else
      let* now := errors_len in
      (if (now =? before)%nat
       then error_here_as ExpectedExpression (bytes_of_string "expected expression")
       else ret tt);;;
      skip_to_type_arg_boundary;;;
      if* ate TComma then ret (Continue count) else ret (Break count)
  end.

Definition type_args_after_open : M nat :=
  let* count := loop n (λ count : nat,
    if* andM (andM (notM (at_ TRBracket)) (notM (at_ TEof))) (notM at_type_arg_recovery_boundary)
    then
      if* orM (at_ TDotDot) (at_ TDotDotEq) then
        let* count := range_type_arg count in
        delimited count
      else
        if* at_type_start then
          let* binding := assoc_binding_arg in
          match binding with
          | BindingParsed => delimited (S count)
          | BindingFailedValue =>
            if* ate TComma then ret (Continue count) else ret (Break count)
          | NotBinding => decided_arg count
          end
        else decided_arg count
    else ret (Break count)) 0%nat in
  expect TRBracket "expected `]` after type arguments";;;
  ret count.

(** [[...]] type arguments directly after a path segment; returns their count. *)
Definition type_args : M nat :=
  let* st := current_start in
  let* en := previous_end in
  let* open := at_ TLBracket in
  if negb (st =? en)%nat || negb open then ret 0%nat
  else
    let* r := node_with (
      let* st := bump_start in
      let* count := type_args_after_open in
      let* d := done_here KTypeArgList st in
      ret (d, count)) in
    ret (snd r).

Definition SEGMENT_KINDS : list TokenKind := [TIdent; TBool; TRoot; TSuper; TSelfValue].

(** One path segment; the flag is whether it kept type arguments. *)
Definition path_segment (mode : TypeMode) : M (option Parsed * bool) :=
  node_with (
    let* st := current_start in
    if* notM (at_any SEGMENT_KINDS) then
      expected_here ExpectedName "expected type path segment";;;
      ret (None, false)
    else
      bump;;;
      let* c := checkpoint in
      let* errors := errors_len in
      let* args := type_args in
      let* drop_args :=
        (if bool_decide (mode = BeforeAggregateLiteral) && (0 <? args)%nat
         then andM (notM (at_ TLBrace)) (notM (at_ TLBracket)) else ret false) in
      (if (drop_args : bool) then (rewind c;;; truncate_errors errors) else ret tt);;;
      let* d := done_here KPathSegment st in
      ret (d, negb drop_args && (0 <? args)%nat)).

Definition path_segments (mode : TypeMode) : M (option Shape) :=
  let? r := loop n (λ st : nat * bool * bool,
    let '(segments, first_is_name, kept_args) := st in
    let* is_name := at_any [TIdent; TBool] in
    let* r := path_segment mode in
    match r with
    | (None, _) => ret (Break None)
    | (Some _, kept) =>
      let first_is_name := if (segments =? 0)%nat then is_name else first_is_name in
      let st := (S segments, first_is_name, kept_args || kept) in
      if* ate TColonColon then ret (Continue st) else ret (Break (Some st))
    end) (0%nat, false, false) in
  let '(segments, first_is_name, kept_args) := r in
  let shape := if kept_args : bool then SHAPE_DEFAULT else shape_with SHAPE_DEFAULT PATH_WITHOUT_ARGS in
  let shape :=
    if (segments =? 1)%nat && first_is_name then shape_with shape SINGLE_NAME_PATH else shape in
  ret (Some shape).

Definition type_atom (mode : TypeMode) : M (option Parsed) :=
  node (
    let* st := current_start in
    if* ate TAmp then
      let? k := type_after_amp mode in
      done_here k st
    else if* ate TCaret then
      eat TMut;;;
      let? _ := g_type_with_mode G mode in
      done_here KVolatilePointerType st
    else if* ate TLBracket then
      if* projection_after_open then done_here KProjectionType st
      else
        let? _ := g_type_with_mode G mode in
        if* ate TSemicolon then
          let* sized :=
            (if* ate TUnderscore then ret (Some tt)
             else let? _ := g_expr in ret (Some tt)) in
          match sized with
          | None => ret None
          | Some _ =>
            let? _ := expect TRBracket "expected `]` after array type" in
            done_here KArrayType st
          end
        else
          let? _ := expect TRBracket "expected `;` or `]` in bracket type" in
          done_here KSlicePointeeType st
    else if* ate TLParen then
      let? inner := paren_type mode in
      match inner with
      | Some inner =>
        let* en := previous_end in
        ret (Some (done_wrapping KParenType inner (mkSpan st en)))
      | None => done_here KTupleType st
      end
    else if* at_callable_type then
      let? _ := callable_type mode in
      done_here KCallableType st
    else if* ate TUnderscore then done_here KInferType st
    else if* at_ TFun then
      error_here "function pointer types must be written as `&fun(...)`";;;
      ret None
    else if* ate TSelfType then done_here KSelfType st
    else if* ate TOpaque then done_here KOpaqueType st
    else if* ate TNever then done_here KNeverType st
    else if* andM (at_any SEGMENT_KINDS) (orM (notM (at_ TSelfValue)) (nth_is 1 TColonColon)) then
      let? shape := path_segments mode in
      let* en := previous_end in
      ret (Some (done_shaped KPathType (mkSpan st en) shape))
    else
      error_here_as ExpectedType (bytes_of_string "expected type");;;
      missing;;;
      ret None).

Definition range_type (mode : TypeMode) : M (option Parsed) :=
  let* st := current_start in
  if* orM (at_ TDotDot) (at_ TDotDotEq) then
    node (let? _ := range_type_tail mode in done_here KRangeType st)
  else
    let? bound := type_atom mode in
    if* orM (at_ TDotDot) (at_ TDotDotEq) then
      node_preceding bound (let? _ := range_type_tail mode in done_here KRangeType st)
    else ret (Some bound).

Definition optional_type (mode : TypeMode) : M (option Parsed) :=
  if* notM (at_ TQuestion) then range_type mode
  else
    node (
      let* st := bump_start in
      let? elem := g_optional_type G mode in
      ret (Some (done_new KOptionalType (mkSpan st (end_ (pr_span elem)))))).

Definition type_with_mode (mode : TypeMode) : M (option Parsed) :=
  let? error := optional_type mode in
  if* at_ TBang then
    node_preceding error (
      bump;;;
      let? value := g_type_with_mode G mode in
      ret (Some (done_new KErrorUnionType
        (mkSpan (start (pr_span error)) (end_ (pr_span value))))))
  else ret (Some error).

Definition type_ : M (option Parsed) := type_with_mode NormalType.
Definition type_before_aggregate_literal : M (option Parsed) :=
  type_with_mode BeforeAggregateLiteral.

(** ** Types up to a boundary *)

(** Parses a type that must end at one of [stops], or an error type. *)
Definition type_until (stops : list TokenKind) : M (option Parsed) :=
  let* c := checkpoint in
  let* errors := errors_len in
  let* bare_fn_type := at_ TFun in
  let* ty := filterM type_ (at_any stops) in
  match ty with
  | Some ty => ret (Some ty)
  | None =>
    rewind c;;;
    truncate_errors errors;;;
    if* at_any stops then
      expected_here ExpectedType "expected type";;;
      ret None
    else
      node (
        let? sp := collect_until n stops in
        (if (bare_fn_type : bool)
         then error_at sp "function pointer types must be written as `&fun(...)`"
         else error_at sp "invalid type syntax");;;
        ret (Some (done_new KErrorType sp)))
  end.

(** Speculatively parses a type that ends at an accepted follow token. *)
Definition type_followed_by (follows : M bool) (stops : list TokenKind) : M (option Parsed) :=
  let* c := checkpoint in
  let* errors := errors_len in
  let* ty := filterM type_ follows in
  match ty with
  | Some ty => ret (Some ty)
  | None =>
    rewind c;;;
    truncate_errors errors;;;
    type_until stops
  end.

Definition field_type : M (option Parsed) :=
  type_followed_by (orM (orM (at_ TComma) (at_ TRBrace)) at_ident_colon) [TComma; TRBrace].

Definition param_type : M (option Parsed) :=
  type_followed_by (orM (orM (orM (at_ TComma) (at_ TRParen)) (at_ TLBrace)) at_ident_colon)
    [TComma; TRParen; TLBrace].

Definition closure_param_type : M (option Parsed) :=
  type_followed_by (orM (orM (at_ TComma) (at_ TThinArrow)) at_ident_colon) [TComma; TThinArrow].

Definition type_list_element (closing : TokenKind) : M (option Parsed) :=
  type_followed_by (orM (orM (at_ TComma) (at_ closing)) at_type_start) [TComma; closing].

(** ** Generic parameters *)

Definition generic_param : M (option Parsed) :=
  node (
    let* name := bump in
    let* typed :=
      (if* ate TColon then
         let* c := checkpoint in
         let* errors := errors_len in
         if* okM type_ then ret true
         else
           let* now := errors_len in
           (if (now =? errors)%nat
            then error_here_as ExpectedType (bytes_of_string "expected type") else ret tt);;;
           (if* andM (andM (notM (at_ TComma)) (notM (at_ TRBracket))) (notM (at_ TEof))
            then recover_to_list_boundary n c TRBracket else ret tt);;;
           ret false
       else ret true) in
    if (typed : bool) then ret (Some (done_new KGenericParam name)) else ret None).

(** [[T, N: usize]]; returns the number of accepted parameters. *)
Definition generic_params : M nat :=
  if* notM (at_ TLBracket) then ret 0%nat
  else
    let* r := node_with (
      let* st := bump_start in
      let* count := loop n (λ count : nat,
        if* andM (notM (at_ TRBracket)) (notM (at_ TEof)) then
          if* at_ TIdent then
            let* ok := okM generic_param in
            let count := if ok : bool then S count else count in
            if* ate TComma then ret (Continue count)
            else
              if* at_ TIdent then
                expected_here GrammarRule "expected `,` or `]` after generic parameter";;;
                ret (Continue count)
              else ret (Break count)
          else
            error_here_as ExpectedName (bytes_of_string "expected generic parameter");;;
            skip_until n [TComma; TRBracket];;;
            if* ate TComma then ret (Continue count) else ret (Break count)
        else ret (Break count)) 0%nat in
      expect TRBracket "expected `]` after generic parameters";;;
      let* d := done_here KGenericParamList st in
      ret (d, count)) in
    ret (snd r).

(** ** Where clauses *)

Definition WHERE_STOPS : list TokenKind :=
  [TStruct; TUnion; TEnum; TTrait; TFun; TExtern; TPub; TUsing; TModule; TStatic; TType].

Definition where_bound : M (option Parsed) :=
  type_followed_by
    (orM (orM (orM (orM (orM (at_ TComma) (at_ TPlus)) (at_ TLBrace)) (at_ TSemicolon))
       (at_any WHERE_STOPS)) at_ident_colon)
    ([TComma; TPlus; TLBrace; TSemicolon] ++ WHERE_STOPS).

(** The predicate, and whether the clause should skip to its next separator. *)
Definition where_predicate : M (option Parsed * bool) :=
  node_with (
    let* st := current_start in
    if* notM (okM (type_until [TColon])) then ret (None, true)
    else
      if* notM (okM (expect TColon "expected `:` in where predicate")) then ret (None, true)
      else
        let* bounds := loop n (λ _ : unit,
          let* bound := where_bound in
          match bound with
          | None => ret (Break None)
          | Some bound =>
            if* ate TPlus then ret (Continue tt)
            else ret (Break (Some (done_new KWherePredicate (mkSpan st (end_ (pr_span bound))))))
          end) tt in
        ret (bounds, false)).

Definition where_clause : M unit :=
  if* notM (at_ TWhere) then ret tt
  else
    node (
      let* st := bump_start in
      while n (andM (andM (andM (notM (at_ TLBrace)) (notM (at_ TSemicolon))) (notM (at_ TEof)))
                 (notM (at_any WHERE_STOPS)))
        (let* r := where_predicate in
         if snd r : bool then
           skip_until n [TComma; TLBrace; TSemicolon];;;
           if* ate TComma then ret (Continue tt) else ret (Break tt)
         else
           if* ate TComma then ret (Continue tt)
           else
             if* at_ident_colon then
               expected_here GrammarRule "expected `,` after where predicate";;;
               ret (Continue tt)
             else ret (Break tt));;;
      done_here KWhereClause st);;;
    ret tt.
End Types.

(** Contracts are found by the name of the operation. *)
#[global] Typeclasses Opaque expr_until_tokens_with g_expr_until_tokens at_type_start at_expr_start
  at_ident_colon range_type_tail type_parameter_delimiter fn_pointer_params type_after_amp
  tuple_type_elements paren_type projection_after_open at_callable_type callable_type
  at_type_arg_boundary at_type_arg_recovery_boundary const_arg type_arg skip_to_type_arg_boundary
  type_arg_delimiter speculate assoc_binding_arg range_type_arg ambiguous_arg decided_arg
  type_args_after_open type_args path_segment path_segments type_atom range_type optional_type
  type_with_mode type_ type_before_aggregate_literal type_until type_followed_by field_type
  param_type closure_param_type type_list_element generic_param generic_params where_bound
  where_predicate where_clause.
