(* ===== verification/GrammarContracts.v ===== *)
(** * nia-syntax: what the productions promise each other

    The contracts of the entry points of the grammar, the loop rules and the
    tactics that prove a production's contract by running it. *)

From S2P Require Import Prelude RustStd Lexer LexerProps SyntaxKind GreenTree GreenTreeProps GrammarParser GrammarLogic GrammarRules GrammarWp GrammarRecover GrammarTactics GrammarRecoverFacts GrammarTypes.

(** ** What the entry points promise *)

(** A type starts here; [self] starts one only as the head of a path. *)
Definition type_start_at (E : Env) (i : nat) : bool :=
  type_can_start (kind_at E i) &&
  (negb (bool_decide (kind_at E i = TSelfValue))
   || bool_decide ((i + 1 < len E)%nat ∧ kind_at E (i + 1) = TColonColon)).

Definition expr_start_at (E : Env) (i : nat) : Prop := expr_can_start (kind_at E i) = true.
Definition pattern_start_at (E : Env) (i : nat) : Prop := pattern_can_start (kind_at E i) = true.

Definition TypeProd (E : Env) (c : Core) (o : option Parsed) (c' : Core) : Prop :=
  Prod E (λ i, type_start_at E i = true) c o c' ∧ (is_Some o → type_start_at E (c_pos c) = true).

(** Contracts of the recursive calls, for inputs of [n] tokens. *)
Class GrammarOk (E : Env) (n : nat) (G : Grammar) : Prop := {
  gok_fuel : g_fuel G = S n;
  #[global] gok_type mode :: Spec E (g_type_with_mode G mode) (Within E n) (TypeProd E);
  #[global] gok_optional mode :: Spec E (g_optional_type G mode) (Within E n) (TypeProd E);
  #[global] gok_assignment stops ::
    Spec E (g_assignment_until G stops) (Within E n) (Prod E (expr_start_at E));
  #[global] gok_binary prec stops ::
    Spec E (g_binary_until G prec stops) (Within E n) (Prod E (expr_start_at E));
  #[global] gok_unary stops ::
    Spec E (g_unary_until G stops) (Within E n) (Prod E (λ i, expr_start_at E i ∧ kind_at E i ≠ TNot));
  #[global] gok_if :: Spec E (g_if_expr G) (λ c, Within E n c ∧ kind_at E (c_pos c) = TIf) (Prod E (λ _, True));
  #[global] gok_condition stops :: Spec E (g_condition_until G stops) (Within E n) (Prod E never);
  #[global] gok_condition_unary stops :: Spec E (g_condition_unary G stops) (Within E n) (Prod E never);
  #[global] gok_irrefutable stops ::
    Spec E (g_irrefutable_pattern_until G stops) (Within E n)
      (λ c o c', Ext E c c' ∧ (is_Some o → (c_pos c < c_pos c')%nat));
  #[global] gok_pattern stops ::
    Spec E (g_pattern_until G stops) (Within E n) (Prod E (pattern_start_at E));
  #[global] gok_atom stops ctx ::
    Spec E (g_atom G stops ctx) (Within E n)
      (Prod E (λ i, ctx = MatchContext ∧ pattern_start_at E i));
  #[global] gok_stmt :: Spec E (g_stmt G) (Within E n) (Prod E never);
  #[global] gok_using_group ::
    Spec E (g_using_group G) (λ c, Within E n c ∧ kind_at E (c_pos c) = TLBrace) (Prod E never);
}.

(** Where the loops of the grammar are known to make progress: no attribute after
    a [{] and no range operator after a [[].  Needed only for termination. *)
Class Tame (E : Env) : Prop := {
  tame_attribute i j : total E = true → (j < i)%nat → kind_at E j = TLBrace → attribute_at E i = false;
  tame_range i j : total E = true → (j < i)%nat → kind_at E j = TLBracket →
    kind_at E i ≠ TDotDot ∧ kind_at E i ≠ TDotDotEq;
}.

Ltac open_post H ::= first [progress unfold recovered in H | progress unfold TypeProd in H].

Ltac wp_unfold ::=
  progress unfold okM, done_here, bump_start, filterM, g_expr, g_type, delimited.

(** ** Loops *)

Section Loops.
Context (E : Env) {HE : EnvOk E}.

(** A loop that only extends the state. *)
Lemma wp_loop_ext {St R} (P : R → Core → Prop) n (body : St → M (step St R)) st c (Q : R → Core → Prop) :
  Inv E c → Within E n c →
  (∀ st c1, Ext E c c1 → Inv E c1 → wp E (body st) c1 (λ r c2, Ext E c c2 ∧
    match r with
    | Continue _ => total E = true → (c_pos c1 < c_pos c2)%nat
    | Break r => P r c2
    end)) →
  (∀ r c', Ext E c c' → P r c' → Q r c') →
  wp E (loop n body st) c Q.
Proof.
  intros Hc Hn Hbody HQ.
  eapply (wp_mono E _ _ (λ r c', Ext E c c' ∧ P r c')); [|intros r c' [? ?]; by apply HQ].
  apply (wp_loop E (λ _ c1, Ext E c c1)); [by apply Ext_refl|done|by intros ? ? ?%ext_inv%inv_pos|].
  intros st' c1 Hx. eapply wp_mono; [apply Hbody; [done|by eapply ext_inv]|].
  intros [st''|r] c2 [Hx2 Hr]; done.
Qed.

Lemma wp_while_ext n cond body c (Q : unit → Core → Prop) :
  Inv E c → Within E n c →
  (∀ c1, Ext E c c1 → Inv E c1 → wp E (if* cond then body else ret (Break tt)) c1 (λ r c2, Ext E c c2 ∧
    match r with
    | Continue _ => total E = true → (c_pos c1 < c_pos c2)%nat
    | Break _ => True
    end)) →
  (∀ c', Ext E c c' → Q tt c') →
  wp E (while n cond body) c Q.
Proof.
  intros Hc Hn Hbody HQ. apply (wp_loop_ext (λ _ _, True)); [done|done| |].
  - intros _ c1 Hx Hc1. by apply Hbody.
  - intros [] c' Hx _. by apply HQ.
Qed.

(** A loop over operands: the operand so far is fresh since [c]; the loop ends with
    a result, or fails, past a token. *)
Lemma wp_operands {St} (get : St → Parsed) c fuel (body : St → M (step St (option Parsed))) st c0
    (Q : option Parsed → Core → Prop) :
  Within E fuel c → Ext E c c0 → Fresh E c c0 (get st) → (c_pos c < c_pos c0)%nat →
  (∀ st c1, Ext E c c1 → Fresh E c c1 (get st) → (c_pos c < c_pos c1)%nat → wp E (body st) c1 (λ r c2,
    Ext E c c2 ∧
    match r with
    | Continue st => Fresh E c c2 (get st) ∧ (c_pos c1 < c_pos c2)%nat
    | Break (Some e) => Fresh E c c2 e ∧ (c_pos c < c_pos c2)%nat
    | Break None => (c_pos c < c_pos c2)%nat
    end)) →
  (∀ o c2, Ext E c c2 → match o with Some e => Fresh E c c2 e | None => True end →
     (c_pos c < c_pos c2)%nat → Q o c2) →
  wp E (loop fuel body st) c0 Q.
Proof.
  intros Hn Hx Hf Hlt Hbody HQ.
  apply (wp_loop E (λ st c1, Ext E c c1 ∧ Fresh E c c1 (get st) ∧ (c_pos c < c_pos c1)%nat)).
  - done.
  - intros Ht. specialize (Hn Ht). lia.
  - intros e c1 (Hx1&_). by apply inv_pos, Hx1.
  - intros e c1 (Hx1&Hf1&Hlt1). eapply wp_mono; [by apply Hbody|].
    intros [e'|[e'|]] c2 [Hx2 Hr]; [|apply HQ; tauto..].
    split; [|tauto]. destruct Hr. split_and!; [done|done|lia].
Qed.
End Loops.

(** ** Starting tokens *)

Lemma kind_in_sub l l' k : forallb (λ k, kind_in k l') l = true → kind_in k l = true → kind_in k l' = true.
Proof.
  intros Hs Hk. unfold kind_in in Hk. apply bool_decide_eq_true_1 in Hk.
  rewrite forallb_forall in Hs. by apply Hs, list_elem_of_In.
Qed.

Ltac norm_starts :=
  repeat match goal with
  | H : c_pos ?c' = _ |- context [c_pos ?c'] => rewrite H
  end.

Ltac norm_type_starts :=
  repeat match goal with
  | H : c_pos ?c' = _, K : type_start_at _ (c_pos ?c') = true |- _ => rewrite H in K
  end.

(** A token starts a production, from what is known of its kind. *)
Ltac kind_starts :=
  first
  [ eassumption
  | unfold expr_start_at, pattern_start_at, expr_can_start, pattern_can_start, is_item_keyword in *;
    first
    [ eassumption
    | match goal with
      | H : ?k = _ |- kind_in ?k _ = true => rewrite H; reflexivity
      | H : kind_in ?k _ = true |- kind_in ?k _ = true =>
        refine (kind_in_sub _ _ _ _ H); reflexivity
      end ] ].

(** Uses the progress that is promised on a starting token. *)
Ltac use_starts :=
  repeat match goal with
  | H : expr_start_at ?E ?i → _ |- _ =>
    let K := fresh "K" in
    assert (expr_start_at E i) as K by (first [eassumption|norm_starts; kind_starts]); specialize (H K); clear K
  | H : pattern_start_at ?E ?i → _ |- _ =>
    let K := fresh "K" in
    assert (pattern_start_at E i) as K by (first [eassumption|norm_starts; kind_starts]); specialize (H K); clear K
  | H : type_start_at ?E ?i = true → _ |- _ =>
    let K := fresh "K" in
    assert (type_start_at E i = true) as K by (first [eassumption|norm_starts; kind_starts]); specialize (H K); clear K
  | H : kind_in (kind_at ?E ?i) ?l = true → _ |- _ =>
    let K := fresh "K" in
    assert (kind_in (kind_at E i) l = true) as K by (first [eassumption|norm_starts; kind_starts]); specialize (H K); clear K
  | H : ?c = ?c ∧ _ → _ |- _ => specialize (λ K, H (conj eq_refl K))
  end.

Ltac solve_pos := intros; first [use_starts; pos_lia|exfalso; congruence].

(** Ends of runs: extensions, fresh results, node kinds and positions. *)
Ltac solve_fresh :=
  first
  [ eassumption
  | match goal with H : ∀ b r, Fresh _ b _ r → Fresh _ b ?c r |- Fresh _ _ ?c _ => apply H; eassumption end
  | match goal with
    | H : Fresh ?E ?b ?c ?r |- Fresh ?E ?a ?c ?r =>
      apply (Fresh_weaken E a b c r); [solve_ext|solve_ext|pos_lia|exact H]
    end ].

Ltac fin_ext := split; [solve_ext|first [done|pos_lia]].

Ltac go :=
  cbv beta iota zeta; cbn [fst snd];
  lazymatch goal with
  | |- wp _ _ _ _ => idtac
  | |- Ext _ _ _ => try solve_ext
  | |- Inv _ _ => try eassumption
  | |- Fresh _ _ _ _ => try solve_fresh
  | |- is_node_kind _ = true => try first [done|eassumption]
  | |- _ ∧ _ => split; go
  | |- TypeProd _ _ _ _ => unfold TypeProd; go
  | |- Prod _ _ _ _ _ => unfold Prod; go
  | |- True => exact I
  | |- never _ → _ => intros []
  | |- Within _ _ _ => try solve [solve_pos]
  | |- (_ < _)%nat => try solve [solve_pos]
  | |- (_ ≤ _)%nat => try solve [solve_pos]
  | |- is_Some None → _ => by intros [? ?]
  | |- is_Some (Some _) → _ => intros _; go
  | |- total _ = true → _ => try solve [solve_pos]
  | |- type_start_at _ _ = true => norm_starts; norm_type_starts; try eassumption
  | |- ∀ _, _ => first [done|try solve [solve_pos]; intros; learn; go]
  | |- _ => try solve [norm_pos; kind_ne]
  end.

(** A loop that only extends the state. *)
Ltac open_while :=
  lazymatch goal with
  | |- wp ?E (while _ _ _) _ _ =>
    apply (wp_while_ext E); [eassumption|try solve [solve_pos]|intros ? ?; learn; intros _|intros ? ?; learn]
  | |- _ => idtac
  end.

Ltac run := repeat (progress (wp_run; go; open_while)).

(** Opens a loop over operands. *)
Ltac operands get :=
  lazymatch goal with
  | |- wp ?E (loop _ _ ?st) ?c0 _ =>
    match goal with
    | H : Fresh E ?c c0 _ |- _ =>
      apply (wp_operands E get c); [solve [pos_lia]|solve_ext|exact H|solve [pos_lia]|intros; learn|intros; learn; run]
    end
  end.

(** ** Conditions *)

Section Contracts.
Context (E : Env) {HE : EnvOk E} (n : nat) (G : Grammar) {HG : GrammarOk E n G}.

#[global] Instance at_type_start_cond : Cond E at_type_start (λ i, type_can_start (kind_at E i)).
Proof. apply (cur_cond E type_can_start). Qed.

#[global] Instance at_expr_start_cond : Cond E at_expr_start (λ i, expr_can_start (kind_at E i)).
Proof. apply (cur_cond E expr_can_start). Qed.

#[global] Instance at_ident_colon_cond : Cond E at_ident_colon
  (λ i, bool_decide (kind_at E i = TIdent) && bool_decide ((i + 1 < len E)%nat ∧ kind_at E (i + 1) = TColon)).
Proof. apply and_cond; apply _. Qed.

Lemma fuel_eq : g_fuel G = S n.
Proof. apply gok_fuel. Qed.

End Contracts.
