(* ===== verification/GrammarTypesFacts.v ===== *)
(** * nia-syntax: contracts of the type grammar *)

From S2P Require Import Prelude RustStd Lexer LexerProps SyntaxKind GreenTree GreenTreeProps GrammarParser GrammarLogic GrammarRules GrammarWp GrammarRecover GrammarTactics GrammarRecoverFacts GrammarTypes GrammarContracts.

Section TypeContracts.
Context (E : Env) {HE : EnvOk E} (n : nat) (G : Grammar) {HG : GrammarOk E n G}.

#[global] Instance range_type_tail_spec mode :
  Spec E (range_type_tail G mode)
    (λ c, Within E (S n) c ∧ (kind_at E (c_pos c) = TDotDot ∨ kind_at E (c_pos c) = TDotDotEq))
    (λ c o c', Ext E c c' ∧ (c_pos c < c_pos c')%nat).
Proof. intros c Hc [Hn Hk]. unfold range_type_tail. run. Qed.

#[global] Instance type_parameter_delimiter_spec :
  Spec E (type_parameter_delimiter G) (Within E (S n)) (λ c _ c', Ext E c c').
Proof. intros c Hc Hn. pose proof (fuel_eq E n G). unfold type_parameter_delimiter. run. Qed.

#[global] Instance fn_pointer_params_spec mode :
  Spec E (fn_pointer_params G mode) (Within E n) (λ c _ c', Ext E c c').
Proof. intros c Hc Hn. pose proof (fuel_eq E n G). unfold fn_pointer_params. run.
Qed.
#[global] Instance type_after_amp_spec mode :
  Spec E (type_after_amp G mode) (Within E n)
    (λ c o c', Ext E c c' ∧ match o with Some k => is_node_kind k = true | None => True end).
Proof. intros c Hc Hn. pose proof (fuel_eq E n G). unfold type_after_amp. run. Qed.

#[global] Instance tuple_type_elements_spec mode :
  Spec E (tuple_type_elements G mode) (Within E n) (λ c _ c', Ext E c c').
Proof. intros c Hc Hn. pose proof (fuel_eq E n G). unfold tuple_type_elements. run. Qed.

#[global] Instance paren_type_spec mode :
  Spec E (paren_type G mode) (Within E n) (λ c _ c', Ext E c c').
Proof. intros c Hc Hn. pose proof (fuel_eq E n G). unfold paren_type. run. Qed.

#[global] Instance projection_after_open_spec :
  Spec E (projection_after_open G) (Within E n) (λ c _ c', Ext E c c').
Proof. intros c Hc Hn. pose proof (fuel_eq E n G). unfold projection_after_open. run. Qed.

#[global] Instance callable_type_spec mode :
  Spec E (callable_type G mode) (λ c, Within E (S n) c ∧ kind_at E (c_pos c) = TIdent)
   (λ c _ c', Ext E c c' ∧ (c_pos c < c_pos c')%nat).
Proof. intros c Hc [Hn Hk]. pose proof (fuel_eq E n G). unfold callable_type. run. Qed.
End TypeContracts.

(** ** Contracts of type arguments *)

Section TypeArgContracts.
Context (E : Env) {HE : EnvOk E} {HT : Tame E} (n : nat) (G : Grammar) {HG : GrammarOk E n G}.

#[global] Instance expr_until_tokens_spec stops :
  Spec E (g_expr_until_tokens G stops) (Within E n) (Prod E (expr_start_at E)).
Proof. intros c Hc Hn. unfold g_expr_until_tokens, expr_until_tokens_with. run. Qed.

#[global] Instance const_arg_spec :
  Spec E (const_arg G) (Within E n) (Prod E (expr_start_at E)).
Proof. intros c Hc Hn. unfold const_arg. run. Qed.

#[global] Instance type_arg_spec k :
  Spec E (type_arg G k) (λ c, Within E n c ∧ is_node_kind k = true) (TypeProd E).
Proof. intros c Hc [Hn Hk]. unfold type_arg. run. Qed.

(** Where the search for the next type argument stops. *)
Definition arg_boundary_at (i : nat) : bool :=
  kind_in (kind_at E i) [TComma; TRBracket] ||
  (kind_in (kind_at E i) [TRParen; TRBrace; TSemicolon] || item_start_at E i).

#[global] Instance at_type_arg_recovery_boundary_cond : Cond E at_type_arg_recovery_boundary
  (λ i, kind_in (kind_at E i) [TRParen; TRBrace; TSemicolon] || item_start_at E i).
Proof. apply or_cond; apply _. Qed.

#[global] Instance skip_to_type_arg_boundary_spec :
  Spec E (skip_to_type_arg_boundary G) (Within E n)
    (λ c _ c', Ext E c c' ∧ (kind_at E (c_pos c') = TEof ∨ arg_boundary_at (c_pos c') = true)).
Proof.
  intros c Hc Hn. pose proof (fuel_eq E n G). unfold skip_to_type_arg_boundary, until_eof. run.
  apply (wp_loop_ext E (λ _ c', kind_at E (c_pos c') = TEof ∨ arg_boundary_at (c_pos c') = true)); [done|pos_lia| |].
  - intros d c2 Hx. learn. intros _. run; first [by left|right].
    all: apply orb_true_iff; auto.
  - intros [] c2 Hx Hb. learn. run. by norm_starts.
Qed.

Lemma arg_boundary_stop i :
  kind_at E i ≠ TComma → kind_at E i ≠ TRBracket →
  kind_in (kind_at E i) [TRParen; TRBrace; TSemicolon] = false → item_start_at E i = false →
  arg_boundary_at i = false.
Proof.
  intros H1 H2 H3 H4. unfold arg_boundary_at. rewrite H3, H4, orb_false_r. kind_out.
Qed.

#[global] Instance type_arg_delimiter_spec :
  Spec E (type_arg_delimiter G) (Within E n)
    (λ c b c', Ext E c c' ∧ (b = true → kind_at E (c_pos c) = TEof ∨ arg_boundary_at (c_pos c) = true →
       (c_pos c < c_pos c')%nat)).
Proof.
  intros c Hc Hn. pose proof (fuel_eq E n G). unfold type_arg_delimiter. run.
  match goal with H : _ ∨ arg_boundary_at _ = true |- _ => destruct H as [|H]; [done|by rewrite arg_boundary_stop in H] end.
Qed.

(** One step of the argument loop: it goes on only past a token. *)
Definition ArgStep (c : Core) (r : step nat nat) (c' : Core) : Prop :=
  Ext E c c' ∧ match r with Continue _ => (c_pos c < c_pos c')%nat | Break _ => True end.

Ltac open_post H ::=
  first [progress unfold recovered in H | progress unfold TypeProd in H | progress unfold ArgStep in H].

#[global] Instance speculate_type_spec :
  Spec E (speculate (filterM (g_type G) at_type_arg_boundary)) (Within E n)
    (λ c o c', c' = c ∧ (is_Some o → type_start_at E (c_pos c) = true)).
Proof. intros c Hc Hn. unfold speculate, at_type_arg_boundary. run. Qed.

#[global] Instance speculate_expr_spec stops :
  Spec E (speculate (filterM (g_expr_until_tokens G stops) at_type_arg_boundary)) (Within E n)
    (λ c o c', c' = c).
Proof. intros c Hc Hn. unfold speculate, at_type_arg_boundary. run. Qed.

#[global] Instance assoc_binding_arg_spec :
  Spec E (assoc_binding_arg G) (Within E n)
    (λ c r c', Ext E c c' ∧ match r with NotBinding => c' = c | _ => (c_pos c < c_pos c')%nat end).
Proof. intros c Hc Hn. unfold assoc_binding_arg. run. Qed.

#[global] Instance range_type_arg_spec count :
  Spec E (range_type_arg G count) (Within E n) (λ c _ c', Ext E c c').
Proof. intros c Hc Hn. unfold range_type_arg. run. Qed.

(** The argument took a token, or the boundary did. *)
Ltac arg_progress :=
  unfold ArgStep; go;
  try match goal with H : ?P, H' : ?P → (_ < _)%nat |- _ => specialize (H' H); pos_lia end.

#[global] Instance ambiguous_arg_spec count :
  Spec E (ambiguous_arg G count) (λ c, Within E n c ∧ type_start_at E (c_pos c) = true) ArgStep.
Proof.
  intros c Hc [Hn Ht]. unfold ambiguous_arg. wp_run; arg_progress.
Qed.

#[global] Instance decided_arg_spec count :
  Spec E (decided_arg G count)
    (λ c, Within E n c ∧ kind_at E (c_pos c) ≠ TRBracket ∧ kind_at E (c_pos c) ≠ TEof ∧
       kind_in (kind_at E (c_pos c)) [TRParen; TRBrace; TSemicolon] = false ∧
       item_start_at E (c_pos c) = false)
    ArgStep.
Proof.
  intros c Hc (Hn&?&?&?&?). unfold decided_arg. wp_run; arg_progress.
Qed.

#[global] Instance type_args_after_open_spec :
  Spec E (type_args_after_open G)
    (λ c, Within E n c ∧ ∃ j, (j < c_pos c)%nat ∧ kind_at E j = TLBracket)
    (λ c _ c', Ext E c c').
Proof.
  intros c Hc (Hn&j&Hj&Hb). unfold type_args_after_open. pose proof (fuel_eq E n G). wp_step.
  apply (wp_loop_ext E (λ _ _, True)); [done|pos_lia| |intros; learn; run].
  intros count c1 Hx. learn. intros _. run.
  - intros Ht. destruct (tame_range (E := E) (c_pos c1) j) as [H1' H2']; [done|pos_lia|done|]. kind_ne.
  - destruct a; run.
Qed.

#[global] Instance type_args_spec :
  Spec E (type_args G) (Within E (S n)) (λ c _ c', Ext E c c').
Proof. intros c Hc Hn. unfold type_args. run. exists (c_pos c). split; [pos_lia|done]. Qed.
End TypeArgContracts.

(** ** Contracts of types, generic parameters and [where] clauses *)

Section TypeProductions.
Context (E : Env) {HE : EnvOk E} {HT : Tame E} (n : nat) (G : Grammar) {HG : GrammarOk E n G}.

#[global] Instance path_segment_spec mode :
  Spec E (path_segment G mode) (Within E (S n))
    (λ c r c', Ext E c c' ∧ (is_Some (fst r) → (c_pos c < c_pos c')%nat) ∧
       (kind_in (kind_at E (c_pos c)) SEGMENT_KINDS = true → (c_pos c < c_pos c')%nat)).
Proof. intros c Hc Hn. unfold path_segment. run. Qed.

#[global] Instance path_segments_spec mode :
  Spec E (path_segments G mode) (Within E (S n))
    (λ c _ c', Ext E c c' ∧
       (kind_in (kind_at E (c_pos c)) SEGMENT_KINDS = true → (c_pos c < c_pos c')%nat)).
Proof.
  intros c Hc Hn. pose proof (fuel_eq E n G). unfold path_segments. wp_step.
  apply (wp_loop_ext E (λ _ c', kind_in (kind_at E (c_pos c)) SEGMENT_KINDS = true → (c_pos c < c_pos c')%nat));
    [done|pos_lia| |intros; learn; run].
  intros [[seg fst_] kept] c1 Hx. learn. intros _. wp_run; go.
  all: destruct (decide (c_pos c1 = c_pos c)) as [Heq|]; [rewrite Heq in *; auto|solve_pos].
Qed.

Lemma segment_starts_type i :
  kind_in (kind_at E i) SEGMENT_KINDS = true →
  negb (bool_decide (kind_at E i = TSelfValue))
    || bool_decide ((i + 1 < len E)%nat ∧ kind_at E (i + 1) = TColonColon) = true →
  type_start_at E i = true.
Proof.
  intros Hk Hs. apply andb_true_iff. split; [|done].
  by refine (kind_in_sub _ _ _ _ Hk).
Qed.

Ltac starts_type :=
  repeat match goal with
  | H : c_pos ?c' = _, K : context [kind_at _ (c_pos ?c')] |- _ => rewrite H in K
  | H : kind_at _ _ = _ ∨ _ |- _ => destruct H
  end;
  first [ apply segment_starts_type; done | unfold type_start_at;
    match goal with H : kind_at ?E ?i = _ |- context [kind_at ?E ?i] => rewrite H; reflexivity end ].

#[global] Instance at_callable_type_spec :
  Spec E at_callable_type (λ _, True)
   (λ c b c', c' = c ∧ (b = true → kind_at E (c_pos c) = TIdent)).
Proof. intros c Hc _. unfold at_callable_type. run. Qed.

(** A type other than a range or an optional starts here. *)
Definition atom_start_at (i : nat) : Prop :=
  type_start_at E i = true ∧ kind_in (kind_at E i) [TDotDot; TDotDotEq; TQuestion] = false.

(** On a token that starts a type, one of the cases of [type_atom] applies. *)
Lemma atom_start_cases i :
  atom_start_at i →
  kind_in (kind_at E i) [TAmp; TCaret; TLBracket; TLParen; TUnderscore; TSelfType; TOpaque; TNever] = true ∨
  kind_in (kind_at E i) SEGMENT_KINDS
    && (negb (bool_decide (kind_at E i = TSelfValue))
        || bool_decide ((i + 1 < len E)%nat ∧ kind_at E (i + 1) = TColonColon)) = true.
Proof.
  intros [Ht Hk]. apply andb_true_iff in Ht as [Ht Hs]. rewrite Hs, andb_true_r. clear Hs.
  unfold type_can_start in Ht. kind_cases Ht ltac:(rewrite Ht in *; first [by left|by right|done]).
Qed.

(** No case of [type_atom] applied: the token starts no type. *)
Ltac no_atom :=
  exfalso;
  match goal with
  | H : atom_start_at _ |- _ => apply atom_start_cases in H as [H|H]
  end;
  [ match goal with
    | H : kind_in _ [_; _; _; _; _; _; _; _] = true |- _ => kind_cases H ltac:(congruence)
    end
  | first [congruence|match goal with K : kind_at _ _ = TFun |- _ => by rewrite K in * end] ].

#[global] Instance type_atom_spec mode :
  Spec E (type_atom G mode) (Within E (S n))
    (λ c o c', Prod E atom_start_at c o c' ∧ (is_Some o → type_start_at E (c_pos c) = true)).
Proof.
  intros c Hc Hn. pose proof (fuel_eq E n G). unfold type_atom. run; first [starts_type|no_atom]. Qed.

(** Prefix and postfix operators only add cases. *)
#[global] Instance range_type_spec mode :
  Spec E (range_type G mode) (Within E (S n))
    (λ c o c', Prod E (λ i, type_start_at E i = true ∧ kind_at E i ≠ TQuestion) c o c' ∧
       (is_Some o → type_start_at E (c_pos c) = true)).
Proof.
  intros c Hc Hn. unfold range_type. run; [starts_type|].
  match goal with H : atom_start_at _ → _ |- _ => apply H; split; [done|kind_out] end.
Qed.

#[global] Instance optional_type_spec mode :
  Spec E (optional_type G mode) (Within E (S n)) (TypeProd E).
Proof. intros c Hc Hn. unfold optional_type. run; [auto|starts_type]. Qed.

#[global] Instance type_with_mode_spec mode :
  Spec E (type_with_mode G mode) (Within E (S n)) (TypeProd E).
Proof. intros c Hc Hn. unfold type_with_mode. run. Qed.

#[global] Instance type_until_spec stops :
  Spec E (type_until G stops) (Within E (S n)) (Prod E never).
Proof. intros c Hc Hn. pose proof (fuel_eq E n G). unfold type_until, type_. run. Qed.

#[global] Instance type_followed_by_spec follows f stops :
  Cond E follows f → Spec E (type_followed_by G follows stops) (Within E (S n)) (Prod E never).
Proof. intros Hf c Hc Hn. pose proof (fuel_eq E n G). unfold type_followed_by, type_. run. Qed.

#[global] Instance field_type_spec : Spec E (field_type G) (Within E (S n)) (Prod E never).
Proof. eapply type_followed_by_spec. apply _. Qed.

#[global] Instance param_type_spec : Spec E (param_type G) (Within E (S n)) (Prod E never).
Proof. eapply type_followed_by_spec. apply _. Qed.

#[global] Instance closure_param_type_spec : Spec E (closure_param_type G) (Within E (S n)) (Prod E never).
Proof. eapply type_followed_by_spec. apply _. Qed.

#[global] Instance type_list_element_spec closing :
  Spec E (type_list_element G closing) (Within E (S n)) (Prod E never).
Proof. eapply type_followed_by_spec. apply _. Qed.

#[global] Instance where_bound_spec : Spec E (where_bound G) (Within E (S n)) (Prod E never).
Proof. eapply type_followed_by_spec. apply _. Qed.

(** ** Generic parameters and where clauses *)

#[global] Instance generic_param_spec :
  Spec E (generic_param G) (λ c, Within E (S n) c ∧ kind_at E (c_pos c) = TIdent)
    (Prod E (λ _, True)).
Proof. intros c Hc [Hn Hk]. pose proof (fuel_eq E n G). unfold generic_param, type_. run. Qed.

#[global] Instance generic_params_spec :
  Spec E (generic_params G) (Within E (S n))
    (λ c _ c', Ext E c c' ∧ (kind_at E (c_pos c) = TLBracket → (c_pos c < c_pos c')%nat)).
Proof.
  intros c Hc Hn. pose proof (fuel_eq E n G). unfold generic_params. run.
  apply (wp_loop_ext E (λ _ _, True)); [done|solve_pos| |intros; learn; run].
  intros count cl Hx. learn. intros _. run.
Qed.

#[global] Instance where_predicate_spec :
  Spec E (where_predicate G) (Within E (S n))
    (λ c r c', Ext E c c' ∧ (snd r = false → (c_pos c < c_pos c')%nat)).
Proof.
  intros c Hc Hn. pose proof (fuel_eq E n G). unfold where_predicate. run.
  apply (wp_loop_ext E (λ d _, match d with Some d => is_node_kind (dn_kind d) = true | None => True end)); [done|solve_pos| |intros; learn; run].
  intros count cl Hx. learn. intros _. run.
Qed.

#[global] Instance where_clause_spec :
  Spec E (where_clause G) (Within E (S n)) (λ c _ c', Ext E c c').
Proof. intros c Hc Hn. pose proof (fuel_eq E n G). unfold where_clause. run. Qed.
End TypeProductions.
