(* ===== verification/GrammarExprs.v ===== *)
(** * nia-syntax: the expression grammar ([crates/nia-syntax/src/grammar/exprs.rs])

    Expressions from assignments down to primaries, the blocks and [match]
    expressions they contain ([grammar/stmts.rs]), and the conditions of
    conditional compilation. *)

From S2P Require Import Prelude RustStd Lexer SyntaxKind GreenTree GrammarParser GrammarRecover GrammarTypes.

(** Expressions that end a statement without [;] at a line break. *)
Definition can_terminate_statement (e : Parsed) : bool :=
  match pr_class e with KBlock | KIfExpr | KMatchExpr => true | _ => false end.

Definition binary_precedence (k : TokenKind) : option nat :=
  match k with
  | TOr => Some 1%nat
  | TAnd => Some 2%nat
  | TPipe => Some 3%nat
  | TCaret => Some 4%nat
  | TAmp => Some 5%nat
  | TEqEq | TBangEq => Some 6%nat
  | TLt | TLtEq | TGt | TGtEq => Some 7%nat
  | TLtLt | TGtGt => Some 8%nat
  | TPlus | TMinus => Some 9%nat
  | TStar | TSlash | TPercent => Some 10%nat
  | _ => None
  end.

Definition is_assignment_op (k : TokenKind) : bool :=
  kind_in k [TEq; TPlusEq; TMinusEq; TLtLtEq; TGtGtEq; TStarEq; TSlashEq; TPercentEq; TAmpEq;
             TCaretEq; TPipeEq].

Definition starts_stmt : M bool :=
  at_any [TLet; TReturn; TBreak; TContinue; TDefer; TFor; TWhile; TLoop; TUsing; TStatic; TConst].

(** The statement may end before an operator or a suffix of the next line. *)
Definition ends_statement (e : Parsed) : M bool :=
  if can_terminate_statement e then
    let* st := current_start in has_line_break_between (end_ (pr_span e)) st
  else ret false.

(** [stops] extended with the kinds it lacks. *)
Definition with_stops (stops extra : list TokenKind) : list TokenKind :=
  fold_left (λ acc k, if kind_in k acc then acc else acc ++ [k]) extra stops.

(** The continuation of a loop that replaces its left operand. *)
Definition next_operand (m : M (option Parsed)) : M (step Parsed (option Parsed)) :=
  let* r := m in
  match r with
  | Some e => ret (Continue e)
  | None => ret (Break None)
  end.

Section Exprs.
Context (G : Grammar).
Let n : nat := g_fuel G.

(** A node of one token. *)
Definition token_node (k : SyntaxKind) (shape : Shape) : M (option Parsed) :=
  node (let* sp := bump in ret (Some (done_shaped k sp shape))).

(** [expr_until] after a consumed token. *)
Definition g_expr_until (stops : list TokenKind) : M (option Parsed) :=
  let* e := g_expr_until_tokens G stops in
  match e with
  | Some e => ret (Some e)
  | None => node (let? sp := collect_until n stops in ret (Some (done_new KRawExpr sp)))
  end.

(** ** Struct literals *)

(** One field of a struct literal; the flag is [failed]. *)
Definition field_init : M bool :=
  let* r := node_with (
    let* st := current_start in
    let* name := expect_name "expected field name" in
    match name with
    | None => ret (None, true)
    | Some _ =>
      let* bad := andM (ate TColon) (notM (okM (g_expr G))) in
      if (bad : bool) then ret (None, true)
      else
        let* d := done_here KFieldInit st in
        ret (d, false)
    end) in
  ret (snd r).

Definition field_init_list (open_message close_message : string) : M (option Parsed) :=
  node (
    let? open := expect TLBrace open_message in
    while n (andM (notM (at_ TRBrace)) (notM (at_ TEof)))
      (if* field_init then
         if* ate TComma then ret (Continue tt)
         else (recover_to_member_boundary n None;;; ret (Continue tt))
       else
         if* ate TComma then ret (Continue tt)
         else
           if* at_ TIdent then
             expected_here GrammarRule "expected `,` or `}` after struct field";;;
             ret (Continue tt)
           else ret (Break tt));;;
    let? _ := expect TRBrace close_message in
    done_here KFieldInitList (start open)).

(** [.{ fields }] or [.name]; rewinds when [.] is followed by neither. *)
Definition omitted_constructor : M (option Parsed) :=
  if* notM (at_ TDot) then ret None
  else
    let* c := checkpoint in
    let* errors := errors_len in
    let* r := node_with (
      let* st := bump_start in
      if* at_ TLBrace then
        let* fields := field_init_list "expected `{` before omitted aggregate literal"
                         "expected `}` after omitted aggregate literal" in
        match fields with
        | None => ret (None, false)
        | Some _ => let* d := done_here KOmittedAggregateLiteral st in ret (d, false)
        end
      else
        let* name := expect_name "expected name after omitted `.`" in
        match name with
        | None => ret (None, true)
        | Some _ => let* d := done_here KOmittedMemberExpr st in ret (d, false)
        end) in
    if (snd r : bool) then
      rewind c;;;
      truncate_errors errors;;;
      ret None
    else ret (fst r).

(** [name::name...] with at least one [::]; callers rewind when it fails. *)
Definition qualified_value_path : M (option Parsed) :=
  if* notM (at_any [TIdent; TRoot; TSuper]) then ret None
  else
    let* is_name := at_ TIdent in
    let? first := token_node KNameExpr (if is_name : bool then VALUE_PATH else SHAPE_DEFAULT) in
    loop n (λ st : Parsed * bool,
      let '(lhs, qualified) := st in
      if* at_ TColonColon then
        let* r := node_preceding lhs (
          bump;;;
          let? _ := expect_name "expected name after `::`" in
          let* en := previous_end in
          ret (Some (done_shaped KQualifiedExpr (mkSpan (start (pr_span lhs)) en) (pr_shape lhs)))) in
        match r with
        | Some e => ret (Continue (e, true))
        | None => ret (Break None)
        end
      else ret (Break (if qualified : bool then Some lhs else None))) (first, false).

Definition qualified_struct_literal : M (option Parsed) :=
  let* c := checkpoint in
  let* errors := errors_len in
  let* target := filterM qualified_value_path (at_ TLBrace) in
  match target with
  | None =>
    rewind c;;;
    truncate_errors errors;;;
    ret None
  | Some target =>
    node_preceding target (
      let? _ := field_init_list "expected `{` before qualified literal"
                  "expected `}` after qualified literal" in
      done_here KQualifiedStructLiteral (start (pr_span target)))
  end.

Definition typed_aggregate_literal (stops : list TokenKind) : M (option Parsed) :=
  if* notM at_type_start then ret None
  else
    let* c := checkpoint in
    let* errors := errors_len in
    let* st := current_start in
    let* ty := filterM (type_before_aggregate_literal G) (andM (at_ TLBrace) (notM (at_any stops))) in
    match ty with
    | None =>
      rewind c;;;
      truncate_errors errors;;;
      ret None
    | Some ty =>
      node_preceding ty (
        let? _ := field_init_list "expected `{` before struct literal"
                    "expected `}` after struct literal" in
        done_here KTypedStructLiteral st)
    end.

(** ** Closures *)

Definition capture : M (option Parsed) :=
  node (
    let* st := current_start in
    (if* ate TAmp then (eat TMut;;; ret tt) else ret tt);;;
    let? _ := expect_name "expected capture name" in
    done_here KCapture st).

Definition capture_list : M (option Parsed) :=
  node (
    let* open := bump in
    let* captures := loop n (λ captures : nat,
      if* andM (notM (at_ TRBracket)) (notM (at_ TEof)) then
        let* c := checkpoint in
        if* okM capture then
          let captures := S captures in
          if* ate TComma then ret (Continue captures)
          else
            if* orM (at_ TRBracket) (at_ TEof) then ret (Break captures)
            else
              if* orM (at_ TIdent) (at_ TAmp) then
                expected_here GrammarRule "expected `,` or `]` after closure capture";;;
                ret (Continue captures)
              else ret (Break captures)
        else (recover_to_list_boundary n c TRBracket;;; ret (Continue captures))
      else ret (Break captures)) 0%nat in
    let? close := expect TRBracket "expected `]` after closure captures" in
    (if (captures =? 0)%nat
     then error_at (mkSpan (start open) (end_ close)) "empty closure capture list must be omitted"
     else ret tt);;;
    ret (Some (done_new KCaptureList (mkSpan (start open) (end_ close))))).

Definition closure_param : M (option Parsed) :=
  node (
    let* st := bump_start in
    let* en := previous_end in
    let* en :=
      (if* ate TColon then
         let* ty := closure_param_type G in
         ret (match ty with Some ty => end_ (pr_span ty) | None => en end)
       else ret en) in
    ret (Some (done_new KParam (mkSpan st en)))).

Definition closure_params : M unit :=
  node (
    let* st := current_start in
    while n (andM (notM (at_ TThinArrow)) (notM (at_ TEof)))
      (if* notM (at_ TIdent) then
         expected_here ExpectedName "expected closure parameter name";;;
         skip_until n [TComma; TThinArrow; TRBrace];;;
         if* ate TComma then ret (Continue tt) else ret (Break tt)
       else
         closure_param;;;
         if* ate TComma then ret (Continue tt)
         else
           if* orM (at_ TThinArrow) (at_ TEof) then ret (Break tt)
           else
             let* next := at_ TIdent in
             expected_here GrammarRule "expected `,` or `->` after closure parameter";;;
             if (next : bool) then ret (Continue tt)
             else (skip_until n [TThinArrow];;; ret (Break tt)));;;
    done_here KClosureParamList st);;;
  ret tt.

Definition closure : M (option Parsed) :=
  node (
    let* st := bump_start in
    let* captured :=
      (if* at_ TLBracket then okM capture_list else ret true) in
    if (captured : bool) then
      closure_params;;;
      let? _ := expect TThinArrow "expected `->` after closure parameters" in
      let? body := g_assignment_until G [] in
      ret (Some (done_new KClosureExpr (mkSpan st (end_ (pr_span body)))))
    else ret None).

(** ** Parentheses and brackets *)

Definition COMMA_RPAREN : list TokenKind := [TComma; TRParen].

(** Elements of a tuple after the first. *)
Definition tuple_elements : M unit :=
  while n (andM (notM (at_ TRParen)) (notM (at_ TEof)))
    (let* c := checkpoint in
     if* okM (g_expr_until_tokens G COMMA_RPAREN) then
       if* ate TComma then ret (Continue tt) else ret (Break tt)
     else (recover_to_list_boundary n c TRParen;;; ret (Continue tt))).

Definition tuple_or_paren : M (option Parsed) :=
  node (
    let* st := bump_start in
    if* ate TRParen then done_here KTupleExpr st
    else
      let* first_checkpoint := checkpoint in
      let* first := g_expr_until_tokens G COMMA_RPAREN in
      (match first with
       | None => recover_to_list_boundary n first_checkpoint TRParen
       | Some _ => ret tt
       end);;;
      let* paren :=
        (match first with
         | Some first =>
           if* notM (ate TComma) then
             if* at_expr_start then
               expected_here GrammarRule "expected `,` or `)` after tuple element";;;
               ret None
             else
               let* close := expect TRParen "expected `)`" in
               ret (Some (match close with
                          | Some _ => Some (done_wrapping KParenExpr first (pr_span first))
                          | None => None
                          end))
           else ret None
         | None => ret None
         end) in
      match paren with
      | Some r => ret r
      | None =>
        tuple_elements;;;
        let? close := expect TRParen "expected `)` after tuple" in
        ret (Some (done_new KTupleExpr (mkSpan st (end_ close))))
      end).

(** Elements of an array after the first. *)
Definition more_array_elements : M unit :=
  while n (andM (notM (at_ TRBracket)) (notM (at_ TEof)))
    (let* c := checkpoint in
     if* okM (g_expr G) then
       if* ate TComma then ret (Continue tt)
       else
         if* at_expr_start then
           expected_here GrammarRule "expected `,` or `]` after array element";;;
           ret (Continue tt)
         else ret (Break tt)
     else (recover_to_list_boundary n c TRBracket;;; ret (Continue tt))).

Definition array_elements : M (option unit) :=
  if* at_ TRBracket then ret (Some tt)
  else
    let* first_checkpoint := checkpoint in
    let* had_first := okM (g_expr G) in
    if* at_ TSemicolon then
      bump;;;
      if (had_first : bool) then let? _ := g_expr G in ret (Some tt) else ret None
    else
      (if (had_first : bool) then ret tt
       else recover_to_list_boundary n first_checkpoint TRBracket);;;
      let* no_comma := (if (had_first : bool) then notM (ate TComma) else ret false) in
      if (no_comma : bool) then
        if* notM at_expr_start then ret (Some tt)
        else
          expected_here GrammarRule "expected `,` or `]` after array element";;;
          more_array_elements;;;
          ret (Some tt)
      else
        more_array_elements;;;
        ret (Some tt).

Definition array_literal : M (option Parsed) :=
  node (
    let* st := bump_start in
    let? _ := array_elements in
    let? close := expect TRBracket "expected `]` after array literal" in
    ret (Some (done_new KArrayExpr (mkSpan st (end_ close))))).

Definition trait_target : M (option Parsed) :=
  node (
    let* st := bump_start in
    if* notM at_type_start then ret None
    else
      let? _ := g_type G in
      let? _ := expect TAs "expected `as` in trait target" in
      let? _ := g_type G in
      let? _ := expect TRBracket "expected `]` after trait target" in
      if* notM (at_ TColonColon) then ret None
      else done_here KTraitTargetExpr st).

Definition type_target : M (option Parsed) :=
  node (
    let* st := bump_start in
    if* notM at_type_start then
      let* sp := cur_span in
      error_at sp "expected type target";;;
      ret None
    else
      let? _ := g_type G in
      let? _ := expect TRBracket "expected `]` after type target" in
      if* notM (at_ TColonColon) then ret None
      else done_here KTypeTargetExpr st).

Definition bracket_primary : M (option Parsed) :=
  let* c := checkpoint in
  let* errors := errors_len in
  let* t := trait_target in
  match t with
  | Some t => ret (Some t)
  | None =>
    rewind c;;;
    truncate_errors errors;;;
    let* t := type_target in
    match t with
    | Some t => ret (Some t)
    | None =>
      rewind c;;;
      truncate_errors errors;;;
      array_literal
    end
  end.

(** ** Suffixes *)

Definition tuple_field_index : M (option unit) :=
  let* text := cur_text in
  let* sp := bump in
  if negb (forallb is_ascii_digit text) then
    error_at sp "tuple field must be a decimal integer";;;
    ret None
  else if (1 <? length text)%nat && bool_decide (head text = Some "0"%B) then
    error_at sp "tuple field must not contain leading zeroes";;;
    ret None
  else
    match from_str_radix usize_max 10 text with
    | None =>
      error_at sp "tuple field index is too large";;;
      ret None
    | Some _ => ret (Some tt)
    end.

Definition arg_list : M (option Parsed) :=
  node (
    let* st := bump_start in
    while n (andM (notM (at_ TRParen)) (notM (at_ TEof)))
      (let* c := checkpoint in
       if* okM (g_expr_until_tokens G COMMA_RPAREN) then
         if* ate TComma then ret (Continue tt)
         else
           if* at_expr_start then
             expected_here GrammarRule "expected `,` or `)` after call argument";;;
             ret (Continue tt)
           else ret (Break tt)
       else
         if* ate TComma then ret (Continue tt)
         else
           if* orM (at_ TRParen) (at_ TEof) then ret (Break tt)
           else (recover_to_list_boundary n c TRParen;;; ret (Continue tt)));;;
    let? _ := expect TRParen "expected `)` after call" in
    done_here KArgList st).

Definition bracket_arg_expr_skipped (k : TokenKind) : bool :=
  negb (kind_in k
    [TInteger; TFloat; TString; TChar; TByteChar; TTrue; TFalse; TNull; TIdent; TUnderscore; TAt;
     TSelfValue; TRoot; TSuper; TLBracket; TLParen; TLBrace; TIf; TNot; TMinus; TBang; TQuestion;
     TAmp; TStar]).

(** The type reading of a bracket argument: its end and its events. *)
Definition bracket_type (c : Checkpoint) : M (option (nat * Snapshot)) :=
  let* ty := g_type G in
  match ty with
  | Some ty =>
    let* s := snapshot ty c in
    let* en := previous_end in
    ret (Some (en, s))
  | None => ret None
  end.

(** The expression reading and its end; rewound when it fails or is shorter than
    the type reading. *)
Definition bracket_expr (c : Checkpoint) (type_end : option nat) : M (option nat) :=
  let* errors := errors_len in
  let* k := cur in
  let* e :=
    (if (match type_end with Some _ => true | None => false end) && bracket_arg_expr_skipped k
     then ret None else g_expr_until_tokens G ARG_STOPS) in
  match e with
  | None =>
    rewind c;;;
    truncate_errors errors;;;
    ret None
  | Some _ =>
    let* expr_end := previous_end in
    if (match type_end with Some type_end => (expr_end <? type_end)%nat | None => false end) then
      rewind c;;;
      truncate_errors errors;;;
      ret None
    else ret (Some expr_end)
  end.

Definition bracket_arg : M (option Parsed) :=
  node (
    let* st := current_start in
    let* type_checkpoint := checkpoint in
    let* type_errors := errors_len in
    let* ty := bracket_type type_checkpoint in
    rewind type_checkpoint;;;
    truncate_errors type_errors;;;
    let* e := bracket_expr type_checkpoint (option_map fst ty) in
    match ty, e with
    | None, None =>
      error_here "expected bracket argument";;;
      recover_to_list_boundary n type_checkpoint TRBracket;;;
      ret None
    | Some (type_end, events), Some expr_end =>
      let en := Nat.max type_end expr_end in
      (if (type_end =? en)%nat then push_alternate AltBracketType (mkSpan st en) events
       else ret tt);;;
      ret (Some (done_new KBracketArg (mkSpan st en)))
    | None, Some expr_end => ret (Some (done_new KBracketArg (mkSpan st expr_end)))
    | Some (type_end, _), None =>
      let* errors := errors_len in
      g_type G;;;
      truncate_errors errors;;;
      ret (Some (done_new KBracketArg (mkSpan st type_end)))
    end).

Definition bracket_args : M unit :=
  node (
    let* st := current_start in
    while n (andM (notM (at_ TRBracket)) (notM (at_ TEof)))
      (if* okM bracket_arg then
         if* ate TComma then ret (Continue tt)
         else
           if* at_expr_start then
             expected_here GrammarRule "expected `,` or `]` after bracket argument";;;
             ret (Continue tt)
           else ret (Break tt)
       else ret (Continue tt));;;
    done_here KBracketArgList st);;;
  ret tt.

(** The end of a slice range, after its operator. *)
Definition slice_range_tail (st : nat) : M (option Done) :=
  let* inclusive := at_ TDotDotEq in
  bump;;;
  let* has_end := orM (ret inclusive) (notM (at_ TRBracket)) in
  if (has_end : bool) then
    let? _ := g_binary_until G 0 [TRBracket] in
    done_here KSliceRange st
  else done_here KSliceRange st.

Definition bracket_suffix_after_open : M (option unit) :=
  if* orM (at_ TDotDot) (at_ TDotDotEq) then
    let? _ := node (let* st := current_start in slice_range_tail st) in
    ret (Some tt)
  else
    let* c := checkpoint in
    let* errors := errors_len in
    let* first := g_binary_until G 0 [TComma; TRBracket; TDotDot; TDotDotEq] in
    if* orM (at_ TDotDot) (at_ TDotDotEq) then
      match first with
      | None =>
        recover_in_error (bump;;; ret tt);;;
        ret None
      | Some first =>
        let? _ := node_preceding first (slice_range_tail (start (pr_span first))) in
        ret (Some tt)
      end
    else
      rewind c;;;
      truncate_errors errors;;;
      bracket_args;;;
      ret (Some tt).

(** ** Blocks and matches ([grammar/stmts.rs]) *)

(** An expression statement or the tail of a block; [false] after the tail. *)
Definition expr_stmt_or_tail (c : Checkpoint) : M bool :=
  let* e := g_expr G in
  match e with
  | None =>
    recover_to_stmt_boundary n c;;;
    ret true
  | Some e =>
    if* andM (notM (at_ TSemicolon)) (at_ TRBrace) then ret false
    else
      node_preceding e (
        let* missing_semicolon := notM (ate TSemicolon) in
        (if missing_semicolon && negb (can_terminate_statement e)
         then error_at_end_as MissingSemicolon (pr_span e)
                (bytes_of_string "expected `;` after expression")
         else ret tt);;;
        ret (Some (done_new KExprStmt (pr_span e))));;;
      ret true
  end.

Definition block : M (option Parsed) :=
  let* prefix_read_end := read_end in
  let? parsed := node (
    let? open := expect TLBrace "expected `{`" in
    while n (andM (notM (at_ TRBrace)) (notM (at_ TEof)))
      (if* orM starts_stmt at_attribute_start then
         let* c := checkpoint in
         if* okM (g_stmt G) then ret (Continue tt)
         else (recover_to_stmt_boundary n c;;; ret (Continue tt))
       else
         let* c := checkpoint in
         if* expr_stmt_or_tail c then ret (Continue tt) else ret (Break tt));;;
    let? close := expect TRBrace "expected `}` after block" in
    ret (Some (done_new KBlock (mkSpan (start open) (end_ close))))) in
  record_block (pr_span parsed) prefix_read_end;;;
  ret (Some parsed).

Definition recover_match_arm_boundary : M unit :=
  recover_in_error (
    until_eof n (λ d,
      let* k := cur in
      match depth_track d k with
      | Some d => skip_token d
      | None =>
        if depth_top d && bool_decide (k = TComma) then (bump;;; ret (Break tt))
        else if depth_top d && bool_decide (k = TRBrace) then ret (Break tt)
        else skip_token d
      end)).

(** Whether the pattern list goes on after the recovery. *)
Definition recover_match_pattern_boundary (c : Checkpoint) : M bool :=
  recover_in_error (
    let* r := loop n (λ d : Depth,
      if* at_ TEof then ret (Break None)
      else
        let* k := cur in
        match depth_track d k with
        | Some d => (bump;;; ret (Continue d))
        | None =>
          if depth_top d && bool_decide (k = TComma) then (bump;;; ret (Break (Some true)))
          else if depth_top d && kind_in k [TFatArrow; TRBrace] then ret (Break (Some false))
          else (bump;;; ret (Continue d))
        end) depth_default in
    match r with
    | Some continue_list => ret continue_list
    | None => (ensure_progress c;;; ret false)
    end).

Definition match_arm_patterns : M (option unit) :=
  loop n (λ patterns : nat,
    let* c := checkpoint in
    if* notM (okM (g_pattern_until G [TComma; TFatArrow])) then
      if* recover_match_pattern_boundary c then ret (Continue patterns)
      else ret (Break (if (patterns =? 0)%nat then Some tt else None))
    else
      let patterns := S patterns in
      if* at_ TFatArrow then ret (Break (Some tt))
      else
        let* next :=
          (if* notM (ate TComma) then
             let* k := cur in
             if pattern_can_start k then
               expected_here GrammarRule "expected `,` or `=>` after match pattern";;;
               ret (Some (Continue patterns))
             else
               let* comma := expect TComma "expected `,` or `=>` after match pattern" in
               ret (match comma with Some _ => None | None => Some (Break None) end)
           else ret None) in
        match next with
        | Some r => ret r
        | None =>
          if* at_ TFatArrow then
            error_here "trailing comma is not allowed in match pattern list";;;
            ret (Break (Some tt))
          else ret (Continue patterns)
        end) 0%nat.

Definition match_arm_stmt : M (option Parsed) :=
  let terminators := [TComma; TRBrace] in
  if* at_ TReturn then
    node (
      let* st := bump_start in
      let* en := previous_end in
      if* notM (at_any terminators) then
        let? e := g_expr_until terminators in
        ret (Some (done_new KReturnStmt (mkSpan st (end_ (pr_span e)))))
      else ret (Some (done_new KReturnStmt (mkSpan st en))))
  else if* at_ TBreak then token_node KBreakStmt SHAPE_DEFAULT
  else if* at_ TContinue then token_node KContinueStmt SHAPE_DEFAULT
  else if* at_ TDefer then
    node (
      let* st := bump_start in
      let? e := g_expr_until terminators in
      ret (Some (done_new KDeferStmt (mkSpan st (end_ (pr_span e))))))
  else g_stmt G.

Definition match_arm_body : M (option Parsed) :=
  if* at_ TLBrace then block
  else if* starts_stmt then match_arm_stmt
  else g_expr G.

Definition match_arm : M (option Parsed) :=
  node (
    let* st := current_start in
    let? _ := match_arm_patterns in
    let? _ := expect TFatArrow "expected `=>` in match arm" in
    let? body := match_arm_body in
    ret (Some (done_new KMatchArm (mkSpan st (end_ (pr_span body)))))).

Definition match_expr : M (option Parsed) :=
  node (
    let* st := bump_start in
    let? _ := g_expr_until_tokens G [TLBrace] in
    let? _ := expect TLBrace "expected `{` after match target" in
    while n (andM (notM (at_ TRBrace)) (notM (at_ TEof)))
      (if* okM match_arm then (eat TComma;;; ret (Continue tt))
       else (recover_match_arm_boundary;;; ret (Continue tt)));;;
    let? _ := expect TRBrace "expected `}` after match" in
    done_here KMatchExpr st).

(** ** Conditionals *)

Definition OR_MESSAGE : string :=
  "pattern conditions do not support `or`; use `match` for alternatives".

Definition is_clause (target : Parsed) : M (option Parsed) :=
  node_preceding target (
    bump;;;
    if bool_decide (pr_class target = KNotExpr) then
      error_at (pr_span target) "`not value is pattern` is not a valid pattern condition";;;
      ret None
    else
      let? pattern := g_pattern_until G [TAnd; TOr; TLBrace] in
      ret (Some (done_new KIsClause (mkSpan (start (pr_span target)) (end_ (pr_span pattern)))))).

Definition if_branches (st : nat) : M (option Done) :=
  let? body := block in
  let? en :=
    (if* ate TElse then
       if* at_ TIf then let? e := g_if_expr G in ret (Some (end_ (pr_span e)))
       else let? e := block in ret (Some (end_ (pr_span e)))
     else ret (Some (end_ (pr_span body)))) in
  ret (Some (done_new KIfExpr (mkSpan st en))).

Definition CLAUSE_STOPS : list TokenKind := [TIs; TAnd; TOr; TLBrace].

Definition if_chain_tail (st : nat) : M (option Done) :=
  let? _ := loop n (λ _ : unit,
    if* ate TAnd then
      if* at_ TOr then
        error_here OR_MESSAGE;;;
        ret (Break None)
      else
        let* target := g_expr_until_tokens G CLAUSE_STOPS in
        match target with
        | None => ret (Break None)
        | Some target =>
          if* at_ TIs then
            if* okM (is_clause target) then ret (Continue tt) else ret (Break None)
          else ret (Continue tt)
        end
    else ret (Break (Some tt))) tt in
  if* at_ TOr then
    error_here OR_MESSAGE;;;
    ret None
  else if_branches st.

(** [Some None] when no pattern clause follows the leading conditions. *)
Definition condition_first_chain (st : nat) : M (option (option Done)) :=
  let* r := loop n (λ _ : unit,
    if* ate TAnd then
      if* at_ TOr then ret (Break (Some None))
      else
        let* target := g_expr_until_tokens G CLAUSE_STOPS in
        match target with
        | None => ret (Break None)
        | Some target =>
          if* at_ TIs then
            if* okM (is_clause target) then ret (Break (Some (Some tt))) else ret (Break None)
          else ret (Continue tt)
        end
    else ret (Break (Some None))) tt in
  match r with
  | None => ret None
  | Some None => ret (Some None)
  | Some (Some _) => let? d := if_chain_tail st in ret (Some (Some d))
  end.

Definition if_expr : M (option Parsed) :=
  node (
    let* st := bump_start in
    let* condition := checkpoint in
    let* errors := errors_len in
    let? target := g_expr_until_tokens G [TIs; TAnd; TLBrace] in
    if* at_ TIs then
      let? _ := is_clause target in
      if_chain_tail st
    else
      if* at_ TAnd then
        let? chain := condition_first_chain st in
        match chain with
        | Some d => ret (Some d)
        | None =>
          rewind condition;;;
          truncate_errors errors;;;
          let? _ := g_expr_until_tokens G [TIs; TLBrace] in
          if* at_ TIs then
            error_here OR_MESSAGE;;;
            ret None
          else if_branches st
        end
      else if_branches st).

(** ** Primaries *)

Definition string_expr : M (option Parsed) :=
  let* st := current_start in
  node (
    let* k := cur in
    while n (at_ k) (bump;;; ret (Continue tt));;;
    (if* at_any [TString; TByteString]
     then error_here "adjacent string literals must use the same literal prefix" else ret tt);;;
    done_here KStringExpr st).

(** The cases of [primary_until] on the current token. *)
Definition primary_token : M (option Parsed) :=
  if* at_any [TInteger; TFloat; TChar; TByteChar; TTrue; TFalse; TNull]
  then token_node KLiteralExpr SHAPE_DEFAULT
  else if* at_any [TString; TByteString] then string_expr
  else if* at_ TIdent then token_node KNameExpr VALUE_PATH
  else if* at_any [TSelfValue; TRoot; TSuper; TUnderscore] then token_node KNameExpr SHAPE_DEFAULT
  else if* at_ TBackslash then closure
  else if* at_ TLBracket then bracket_primary
  else if* at_ TLParen then tuple_or_paren
  else if* at_ TLBrace then block
  else if* at_ TIf then if_expr
  else if* at_ TMatch then match_expr
  else
    error_here_as ExpectedExpression (bytes_of_string "expected expression");;;
    missing;;;
    ret None.

Definition primary_until (stops : list TokenKind) : M (option Parsed) :=
  let* omitted := omitted_constructor in
  match omitted with
  | Some e =>
    let* payload :=
      (if bool_decide (pr_class e = KOmittedMemberExpr)
       then andM (at_ TLBrace) (ret (negb (kind_in TLBrace stops))) else ret false) in
    if (payload : bool) then
      node_preceding e (
        let? _ := field_init_list "expected `{` before omitted named payload"
                    "expected `}` after omitted named payload" in
        done_here KQualifiedStructLiteral (start (pr_span e)))
    else ret (Some e)
  | None =>
    let* literal :=
      (if negb (kind_in TLBrace stops) then qualified_struct_literal else ret None) in
    match literal with
    | Some e => ret (Some e)
    | None =>
      let* typed := typed_aggregate_literal stops in
      match typed with
      | Some e => ret (Some e)
      | None => primary_token
      end
    end
  end.

(** One suffix of an expression; [Break] when the token is none. *)
Definition postfix_suffix (lhs : Parsed) : M (step Parsed (option Parsed)) :=
  let st := start (pr_span lhs) in
  if* at_ TLParen then
    next_operand (node_preceding lhs (let? _ := arg_list in done_here KCallExpr st))
  else if* at_ TDot then
    next_operand (node_preceding lhs (
      bump;;;
      if* ate TQuestion then done_here KTryExpr st
      else if* ate TStar then done_here KDerefExpr st
      else if* at_ TInteger then
        let? _ := tuple_field_index in done_here KTupleFieldExpr st
      else
        let? _ := expect_name "expected field name" in done_here KFieldExpr st))
  else if* at_ TBang then
    next_operand (node_preceding lhs (bump;;; done_here KErrorErrExpr st))
  else if* at_ TColonColon then
    next_operand (node_preceding lhs (
      bump;;;
      let? _ := expect_name "expected name after `::`" in
      let shape := if shape_contains (pr_shape lhs) VALUE_PATH then VALUE_PATH else SHAPE_DEFAULT in
      let* en := previous_end in
      ret (Some (done_shaped KQualifiedExpr (mkSpan st en) shape))))
  else if* at_ TLBracket then
    next_operand (node_preceding lhs (
      bump;;;
      let? _ := bracket_suffix_after_open in
      let? _ := expect TRBracket "expected `]` after bracket suffix" in
      done_here KBracketExpr st))
  else ret (Break (Some lhs)).

Definition postfix_until (stops : list TokenKind) : M (option Parsed) :=
  let? first := primary_until stops in
  loop n (λ lhs : Parsed,
    if* at_any stops then ret (Break (Some lhs))
    else
      if* ends_statement lhs then ret (Break (Some lhs))
      else postfix_suffix lhs) first.

(** ** Operators *)

Definition unary_until (stops : list TokenKind) : M (option Parsed) :=
  if* notM (at_any [TMinus; TTilde; TAmp; TQuestion; TBang]) then postfix_until stops
  else
    node (
      let* is_amp := at_ TAmp in
      let* st := bump_start in
      (if (is_amp : bool) then (eat TMut;;; ret tt) else ret tt);;;
      let? e := g_unary_until G stops in
      ret (Some (done_new KPrefixExpr (mkSpan st (end_ (pr_span e)))))).

Definition cast_until (stops : list TokenKind) : M (option Parsed) :=
  let? first := unary_until stops in
  loop n (λ inner : Parsed,
    if* at_ TAs then
      next_operand (node_preceding inner (
        bump;;;
        let? ty := g_type G in
        ret (Some (done_new KCastExpr (mkSpan (start (pr_span inner)) (end_ (pr_span ty)))))))
    else ret (Break (Some inner))) first.

Definition not_until (stops : list TokenKind) : M (option Parsed) :=
  if* notM (at_ TNot) then cast_until stops
  else
    node (
      let* st := bump_start in
      let? e := g_binary_until G 6 stops in
      ret (Some (done_new KNotExpr (mkSpan st (end_ (pr_span e)))))).

Definition binary_until (min_prec : nat) (stops : list TokenKind) : M (option Parsed) :=
  let? first := not_until stops in
  loop n (λ lhs : Parsed,
    let* k := cur in
    match binary_precedence k with
    | None => ret (Break (Some lhs))
    | Some prec =>
      if* at_any stops then ret (Break (Some lhs))
      else
        if* ends_statement lhs then ret (Break (Some lhs))
        else
          if (prec <? min_prec)%nat then ret (Break (Some lhs))
          else
            next_operand (node_preceding lhs (
              bump;;;
              let? rhs := g_binary_until G (S prec) stops in
              ret (Some (done_new KBinaryExpr
                (mkSpan (start (pr_span lhs)) (end_ (pr_span rhs)))))))
    end) first.

Definition range_end_absent (stops : list TokenKind) : M bool :=
  orM (at_any stops) (at_any [TComma; TRParen; TRBracket; TRBrace; TSemicolon; TEof]).

(** The end of a range after its operator. *)
Definition range_end (st : nat) (shape : Shape) (stops : list TokenKind) (absent : M bool) :
    M (option Done) :=
  if* absent then
    let* en := previous_end in
    ret (Some (done_shaped KRangeExpr (mkSpan st en) shape))
  else
    let? e := g_binary_until G 0 stops in
    ret (Some (done_shaped KRangeExpr (mkSpan st (end_ (pr_span e))) (shape_with shape RANGE_END))).

Definition range_until (stops : list TokenKind) : M (option Parsed) :=
  if* orM (at_ TDotDot) (at_ TDotDotEq) then
    node (
      let* st := current_start in
      let* inclusive := at_ TDotDotEq in
      bump;;;
      range_end st SHAPE_DEFAULT stops
        (if (inclusive : bool) then ret false else range_end_absent stops))
  else
    let range_stops :=
      with_stops stops [TDotDot; TDotDotEq; TComma; TRParen; TRBracket; TRBrace; TSemicolon] in
    let? first := binary_until 0 range_stops in
    if* at_any stops then ret (Some first)
    else if* at_ TDotDot then
      node_preceding first (
        bump;;;
        range_end (start (pr_span first)) RANGE_START stops (range_end_absent stops))
    else if* at_ TDotDotEq then
      node_preceding first (
        bump;;;
        range_end (start (pr_span first)) RANGE_START stops (ret false))
    else ret (Some first).

Definition assignment_until (stops : list TokenKind) : M (option Parsed) :=
  let? lhs := range_until stops in
  let* k := cur in
  if negb (is_assignment_op k) then ret (Some lhs)
  else
    node_preceding lhs (
      bump;;;
      let? rhs := g_assignment_until G stops in
      ret (Some (done_new KAssignExpr (mkSpan (start (pr_span lhs)) (end_ (pr_span rhs)))))).

Definition expr_until_tokens : list TokenKind → M (option Parsed) :=
  expr_until_tokens_with assignment_until binary_until.

(** ** Conditions *)

Definition condition_level (k : TokenKind) : option nat :=
  match k with
  | TOr => Some 0%nat
  | TAnd => Some 1%nat
  | TEqEq | TBangEq => Some 2%nat
  | _ => None
  end.

Definition condition_expected : M (option Parsed) :=
  error_here_as ExpectedExpression (bytes_of_string "expected condition expression");;;
  missing;;;
  ret None.

Definition condition_unary (stops : list TokenKind) : M (option Parsed) :=
  if* at_ TNot then
    node (
      let* st := bump_start in
      let? e := g_condition_unary G stops in
      ret (Some (done_new KConditionNot (mkSpan st (end_ (pr_span e))))))
  else if* at_any stops then condition_expected
  else if* at_any [TTrue; TFalse; TInteger; TString; TIdent]
  then token_node KConditionAtom SHAPE_DEFAULT
  else if* at_ TLParen then
    node (
      let* st := bump_start in
      let? inner := g_condition_until G [TRParen] in
      let? close := expect TRParen "expected `)` after condition expression" in
      ret (Some (done_wrapping KConditionParen inner (mkSpan st (end_ close)))))
  else condition_expected.

(** [condition_binary] at level [3 - levels]. *)
Fixpoint condition_binary (stops : list TokenKind) (levels : nat) : M (option Parsed) :=
  match levels with
  | O => condition_unary stops
  | S levels =>
    let? first := condition_binary stops levels in
    loop n (λ lhs : Parsed,
      if* andM (notM (at_any stops))
            (let* k := cur in ret (bool_decide (condition_level k = Some (2 - levels)%nat)))
      then
        next_operand (node_preceding lhs (
          bump;;;
          let? rhs := condition_binary stops levels in
          ret (Some (done_new KConditionBinary (mkSpan (start (pr_span lhs)) (end_ (pr_span rhs)))))))
      else ret (Break (Some lhs))) first
  end.

Definition condition_until (stops : list TokenKind) : M (option Parsed) := condition_binary stops 3.
End Exprs.

(** Contracts are found by the name of the operation. *)
#[global] Typeclasses Opaque starts_stmt ends_statement token_node g_expr_until field_init
  field_init_list omitted_constructor qualified_value_path qualified_struct_literal
  typed_aggregate_literal capture capture_list closure_param closure_params closure tuple_elements
  tuple_or_paren more_array_elements array_elements array_literal trait_target type_target
  bracket_primary tuple_field_index arg_list bracket_type bracket_expr bracket_arg bracket_args
  slice_range_tail bracket_suffix_after_open expr_stmt_or_tail block recover_match_arm_boundary
  recover_match_pattern_boundary match_arm_patterns match_arm_stmt match_arm_body match_arm
  match_expr if_branches if_chain_tail condition_first_chain if_expr string_expr primary_token
  primary_until postfix_suffix postfix_until unary_until cast_until not_until binary_until
  range_end_absent range_end range_until assignment_until expr_until_tokens condition_expected
  condition_unary condition_binary condition_until.
