(* ===== verification/GrammarExprsFacts.v ===== *)
(** * nia-syntax: contracts of expressions and conditions *)

From S2P Require Import Prelude RustStd Lexer LexerProps SyntaxKind GreenTree GreenTreeProps GrammarParser GrammarLogic GrammarRules GrammarWp GrammarRecover GrammarTactics GrammarRecoverFacts GrammarTypes GrammarContracts GrammarTypesFacts GrammarExprs.

(** ** Contracts of literals, closures and bracketed expressions *)

Section LiteralContracts.
Context (E : Env) {HE : EnvOk E} {HT : Tame E} (n : nat) (G : Grammar) {HG : GrammarOk E n G}.

#[global] Instance token_node_spec k shape :
  Spec E (token_node k shape) (λ c, kind_at E (c_pos c) ≠ TEof ∧ is_node_kind k = true)
    (Prod E (λ _, True)).
Proof. intros c Hc [Hk Hn]. unfold token_node. run. Qed.

#[global] Instance g_expr_until_spec stops :
  Spec E (g_expr_until G stops) (Within E n) (Prod E never).
Proof. intros c Hc Hn. pose proof (fuel_eq E n G). unfold g_expr_until. run. Qed.

#[global] Instance field_init_spec :
  Spec E (field_init G) (Within E n)
    (λ c failed c', Ext E c c' ∧ (failed = false → (c_pos c < c_pos c')%nat)).
Proof. intros c Hc Hn. unfold field_init. run. Qed.

(** A struct literal ends although its recovery has no progress guard: no
    attribute follows its brace. *)
#[global] Instance field_init_list_spec o cl :
  Spec E (field_init_list G o cl) (Within E (S n)) (Prod E (λ i, kind_at E i = TLBrace)).
Proof.
  intros c Hc Hn. pose proof (fuel_eq E n G). unfold field_init_list. run. intros Ht.
  match goal with H : _ ∨ kind_at E (c_pos ?c1) = TRBrace ∨ _, _ : Ext E ?c0 ?c1 |- (c_pos ?c0 < _)%nat =>
    destruct H as [|H]; [pos_lia|]; destruct (decide (c_pos c1 = c_pos c0)) as [Heq|]; [|pos_lia];
    rewrite Heq, (tame_attribute (E := E) (c_pos c0) (c_pos c)) in H by (done || pos_lia)
  end.
  naive_solver.
Qed.

#[global] Instance omitted_constructor_spec :
  Spec E (omitted_constructor G) (Within E (S n)) (Prod E never).
Proof. intros c Hc Hn. unfold omitted_constructor. run. Qed.

#[global] Instance qualified_value_path_spec :
  Spec E (qualified_value_path G) (Within E (S n)) (Prod E never).
Proof.
  intros c Hc Hn. pose proof (fuel_eq E n G). unfold qualified_value_path. run.
  operands (@fst Parsed bool).
  destruct st as [lhs q]; cbn [fst] in *. run. by destruct q.
Qed.

#[global] Instance qualified_struct_literal_spec :
  Spec E (qualified_struct_literal G) (Within E (S n)) (Prod E never).
Proof. intros c Hc Hn. unfold qualified_struct_literal. run. Qed.

#[global] Instance typed_aggregate_literal_spec stops :
  Spec E (typed_aggregate_literal G stops) (Within E (S n)) (Prod E never).
Proof. intros c Hc Hn. unfold typed_aggregate_literal, type_before_aggregate_literal. run. Qed.

(** ** Closures *)

#[global] Instance capture_spec : Spec E capture (λ _, True) (Prod E never).
Proof. intros c Hc _. unfold capture. run. Qed.

#[global] Instance capture_list_spec :
  Spec E (capture_list G) (λ c, Within E (S n) c ∧ kind_at E (c_pos c) = TLBracket) (Prod E never).
Proof.
  intros c Hc [Hn Hk]. pose proof (fuel_eq E n G). unfold capture_list. run.
  apply (wp_loop_ext E (λ _ _, True)); [done|solve_pos| |intros; learn; run].
  intros count cl Hx. learn. intros _. run.
Qed.

#[global] Instance closure_param_spec :
  Spec E (closure_param G) (λ c, Within E (S n) c ∧ kind_at E (c_pos c) = TIdent) (Prod E (λ _, True)).
Proof. intros c Hc [Hn Hk]. pose proof (fuel_eq E n G). unfold closure_param. run. Qed.

#[global] Instance closure_params_spec :
  Spec E (closure_params G) (Within E (S n)) (λ c _ c', Ext E c c').
Proof. intros c Hc Hn. pose proof (fuel_eq E n G). unfold closure_params. run. Qed.

#[global] Instance closure_spec :
  Spec E (closure G) (λ c, Within E (S n) c ∧ kind_at E (c_pos c) = TBackslash) (Prod E (λ _, True)).
Proof. intros c Hc [Hn Hk]. unfold closure. run. Qed.

(** ** Parentheses and brackets *)

#[global] Instance tuple_elements_spec :
  Spec E (tuple_elements G) (Within E n) (λ c _ c', Ext E c c').
Proof. intros c Hc Hn. pose proof (fuel_eq E n G). unfold tuple_elements. run. Qed.

#[global] Instance tuple_or_paren_spec :
  Spec E (tuple_or_paren G) (λ c, Within E (S n) c ∧ kind_at E (c_pos c) = TLParen) (Prod E (λ _, True)).
Proof. intros c Hc [Hn Hk]. pose proof (fuel_eq E n G). unfold tuple_or_paren. run. Qed.

#[global] Instance more_array_elements_spec :
  Spec E (more_array_elements G) (Within E n) (λ c _ c', Ext E c c').
Proof. intros c Hc Hn. pose proof (fuel_eq E n G). unfold more_array_elements. run. Qed.

#[global] Instance array_elements_spec :
  Spec E (array_elements G) (Within E n) (λ c _ c', Ext E c c').
Proof. intros c Hc Hn. pose proof (fuel_eq E n G). unfold array_elements. run. Qed.

#[global] Instance array_literal_spec :
  Spec E (array_literal G) (λ c, Within E (S n) c ∧ kind_at E (c_pos c) = TLBracket) (Prod E (λ _, True)).
Proof. intros c Hc [Hn Hk]. unfold array_literal. run. Qed.

#[global] Instance trait_target_spec :
  Spec E (trait_target G) (λ c, Within E (S n) c ∧ kind_at E (c_pos c) = TLBracket) (Prod E (λ _, True)).
Proof. intros c Hc [Hn Hk]. unfold trait_target. run. Qed.

#[global] Instance type_target_spec :
  Spec E (type_target G) (λ c, Within E (S n) c ∧ kind_at E (c_pos c) = TLBracket) (Prod E (λ _, True)).
Proof. intros c Hc [Hn Hk]. unfold type_target. run. Qed.

#[global] Instance bracket_primary_spec :
  Spec E (bracket_primary G) (λ c, Within E (S n) c ∧ kind_at E (c_pos c) = TLBracket) (Prod E (λ _, True)).
Proof. intros c Hc [Hn Hk]. unfold bracket_primary. run. Qed.
End LiteralContracts.

(** ** Contracts of suffixes, blocks, matches and conditionals *)

Section BlockContracts.
Context (E : Env) {HE : EnvOk E} {HT : Tame E} (n : nat) (G : Grammar) {HG : GrammarOk E n G}.

#[global] Instance tuple_field_index_spec :
  Spec E tuple_field_index (λ c, kind_at E (c_pos c) = TInteger) (λ c _ c', Ext E c c').
Proof. intros c Hc Hk. unfold tuple_field_index. run. Qed.

#[global] Instance arg_list_spec :
  Spec E (arg_list G) (λ c, Within E (S n) c ∧ kind_at E (c_pos c) = TLParen) (Prod E (λ _, True)).
Proof. intros c Hc [Hn Hk]. pose proof (fuel_eq E n G). unfold arg_list. run. Qed.

(** ** Bracket arguments *)

#[global] Instance bracket_type_spec c0 :
  Spec E (bracket_type G (cp_of c0)) (λ c, c = c0 ∧ Within E n c)
    (λ c o c', Ext E c c' ∧
       match o with Some (_, s) => snapshot_ok E s ∧ type_start_at E (c_pos c) = true | None => True end).
Proof. intros c Hc [-> Hn]. unfold bracket_type. run. Qed.

#[global] Instance bracket_expr_spec c0 type_end :
  Spec E (bracket_expr G (cp_of c0) type_end) (λ c, c = c0 ∧ Within E n c)
    (λ c o c', Ext E c c' ∧ match o with Some _ => (c_pos c < c_pos c')%nat | None => c' = c end).
Proof. intros c Hc [-> Hn]. unfold bracket_expr. run. Qed.

(** An argument, or the recovery past it, takes a token. *)
#[global] Instance bracket_arg_spec :
  Spec E (bracket_arg G) (λ c, Within E n c ∧ kind_at E (c_pos c) ≠ TEof) (Prod E (λ _, True)).
Proof. intros c Hc [Hn Hk]. pose proof (fuel_eq E n G). unfold bracket_arg. run. Qed.

#[global] Instance bracket_args_spec :
  Spec E (bracket_args G) (Within E n) (λ c _ c', Ext E c c').
Proof. intros c Hc Hn. pose proof (fuel_eq E n G). unfold bracket_args. run. Qed.

#[global] Instance slice_range_tail_spec st :
  Spec E (slice_range_tail G st) (λ c, Within E n c ∧ kind_at E (c_pos c) ≠ TEof)
    (λ c o c', Ext E c c' ∧ match o with Some d => is_node_kind (dn_kind d) = true | None => True end).
Proof. intros c Hc [Hn Hk]. unfold slice_range_tail. run. Qed.

#[global] Instance bracket_suffix_after_open_spec :
  Spec E (bracket_suffix_after_open G) (Within E n) (λ c _ c', Ext E c c').
Proof. intros c Hc Hn. unfold bracket_suffix_after_open. run. Qed.

(** ** Blocks *)

#[global] Instance expr_stmt_or_tail_spec c0 :
  Spec E (expr_stmt_or_tail G (cp_of c0)) (λ c, c = c0 ∧ Within E n c ∧ kind_at E (c_pos c) ≠ TEof)
    (λ c more c', Ext E c c' ∧ (c_pos c < c_pos c')%nat).
Proof.
  intros c Hc (->&Hn&Hk). pose proof (fuel_eq E n G). unfold expr_stmt_or_tail. run.
Qed.

#[global] Instance starts_stmt_cond : Cond E starts_stmt
  (λ i, kind_in (kind_at E i) [TLet; TReturn; TBreak; TContinue; TDefer; TFor; TWhile; TLoop; TUsing; TStatic; TConst]).
Proof. apply (at_any_cond E). Qed.

#[global] Instance block_spec :
  Spec E (block G) (Within E (S n)) (Prod E (λ i, kind_at E i = TLBrace)).
Proof. intros c Hc Hn. pose proof (fuel_eq E n G). unfold block. run. Qed.

(** ** Matches *)

#[global] Instance recover_match_arm_boundary_spec :
  Spec E (recover_match_arm_boundary G) (Within E (S n))
    (λ c _ c', Ext E c c' ∧ (kind_at E (c_pos c) ≠ TEof → kind_at E (c_pos c) ≠ TRBrace → (c_pos c < c_pos c')%nat)).
Proof.
  intros c Hc Hn. pose proof (fuel_eq E n G). unfold recover_match_arm_boundary. run.
  eapply wp_mono; [apply (wp_until_eof E _ _ _ (kind_at E (c_pos c) = TRBrace)); [done|pos_lia|]|].
  - intros d ca Hx Hk Hor. learn. run. destruct Hor as [->|]; [right; congruence|by left].
  - intros [] cb [Hx Hor]. learn. run. destruct Hor as [|[|]]; [pos_lia|congruence..].
Qed.

#[global] Instance recover_match_pattern_boundary_spec c0 :
  Spec E (recover_match_pattern_boundary G (cp_of c0)) (λ c, Within E (S n) c ∧ (c_pos c0 ≤ c_pos c)%nat)
    (λ c more c', Ext E c c' ∧ (more = true → (c_pos c < c_pos c')%nat)).
Proof.
  intros c Hc [Hn Hle]. pose proof (fuel_eq E n G). unfold recover_match_pattern_boundary. run.
  apply (wp_loop_ext E (λ r c', r = Some true → (c_pos c < c_pos c')%nat)); [done|pos_lia| |].
  - intros d ca Hx. learn. intros _. run.
  - intros r cb Hx Hr. learn. run. specialize (Hr eq_refl). pos_lia.
Qed.

#[global] Instance match_arm_patterns_spec :
  Spec E (match_arm_patterns G) (Within E n) (λ c _ c', Ext E c c').
Proof.
  intros c Hc Hn. pose proof (fuel_eq E n G). unfold match_arm_patterns.
  apply (wp_loop_ext E (λ _ _, True)); [done|pos_lia| |intros; learn; run].
  intros count cl Hx. learn. intros _. run.
Qed.

#[global] Instance match_arm_stmt_spec :
  Spec E (match_arm_stmt G) (Within E n) (Prod E never).
Proof. intros c Hc Hn. unfold match_arm_stmt. run. Qed.

#[global] Instance match_arm_body_spec :
  Spec E (match_arm_body G) (Within E n) (Prod E never).
Proof. intros c Hc Hn. unfold match_arm_body. run. Qed.

#[global] Instance match_arm_spec : Spec E (match_arm G) (Within E n) (Prod E never).
Proof. intros c Hc Hn. unfold match_arm. run. Qed.

#[global] Instance match_expr_spec :
  Spec E (match_expr G) (λ c, Within E (S n) c ∧ kind_at E (c_pos c) = TMatch) (Prod E (λ _, True)).
Proof. intros c Hc [Hn Hk]. pose proof (fuel_eq E n G). unfold match_expr. run. intros _.
  match goal with
  | H : kind_at E (c_pos ?c2) ≠ TEof → _ → _, _ : Ext E ?c1 ?c2 |- (c_pos ?c1 < _)%nat =>
    destruct (decide (c_pos c2 = c_pos c1)) as [Heq|]; [|pos_lia]; rewrite Heq in H; auto
  end.
Qed.

(** ** Conditionals *)

(** The end of a node body: an extension with a node kind. *)
Definition Body (c : Core) (o : option Done) (c' : Core) : Prop :=
  Ext E c c' ∧ match o with Some d => is_node_kind (dn_kind d) = true | None => True end.

Ltac open_post H ::=
  first [progress unfold recovered in H | progress unfold TypeProd in H | progress unfold Body in H].

Ltac wp_unfold ::=
  progress unfold okM, done_here, bump_start, filterM, g_expr, g_type, delimited, is_clause.

#[global] Instance if_branches_spec st : Spec E (if_branches G st) (Within E n) Body.
Proof. intros c Hc Hn. unfold if_branches, Body. run. Qed.

#[global] Instance if_chain_tail_spec st : Spec E (if_chain_tail G st) (Within E n) Body.
Proof.
  intros c Hc Hn. pose proof (fuel_eq E n G). unfold if_chain_tail, Body. wp_step.
  apply (wp_loop_ext E (λ _ _, True)); [done|pos_lia| |intros; learn; run; unfold Body in *; learn; go].
  intros [] cl Hx. learn. intros _. run.
Qed.

#[global] Instance condition_first_chain_spec st :
  Spec E (condition_first_chain G st) (Within E n)
    (λ c o c', Ext E c c' ∧ match o with Some (Some d) => is_node_kind (dn_kind d) = true | _ => True end).
Proof.
  intros c Hc Hn. pose proof (fuel_eq E n G). unfold condition_first_chain. wp_step.
  apply (wp_loop_ext E (λ _ _, True)); [done|pos_lia| |intros; learn; run].
  intros [] cl Hx. learn. intros _. run.
Qed.

#[global] Instance if_expr_spec :
  Spec E (if_expr G) (λ c, Within E (S n) c ∧ kind_at E (c_pos c) = TIf) (Prod E (λ _, True)).
Proof. intros c Hc [Hn Hk]. unfold if_expr. run. Qed.
End BlockContracts.

(** ** Contracts of expressions and conditions *)

Ltac wp_unfold ::=
  progress unfold okM, done_here, bump_start, filterM, g_expr, g_type, delimited, is_clause, next_operand.

(** Progress from a later state on the same token. *)
Ltac later_start :=
  match goal with
  | H : ?S (c_pos ?c1) → (c_pos ?c1 < _)%nat, Hs : ?S (c_pos ?c) |- (c_pos ?c < _)%nat =>
    destruct (decide (c_pos c1 = c_pos c)) as [Heq|]; [rewrite Heq in H; specialize (H Hs)|]; pos_lia
  end.

Section ExprContracts.
Context (E : Env) {HE : EnvOk E} {HT : Tame E} (n : nat) (G : Grammar) {HG : GrammarOk E n G}.

#[global] Instance ends_statement_spec e : Spec E (ends_statement e) (λ _, True) (λ c _ c', c' = c).
Proof. intros c Hc _. unfold ends_statement. run. Qed.

(** ** Primaries *)

#[global] Instance string_expr_spec :
  Spec E (string_expr G) (λ c, Within E (S n) c ∧ kind_in (kind_at E (c_pos c)) [TString; TByteString] = true)
    (Prod E (λ _, True)).
Proof.
  intros c Hc [Hn Hk]. pose proof (fuel_eq E n G). unfold string_expr. wp_run.
  apply (wp_loop_ext E (λ _ c', (c_pos c < c_pos c')%nat)); [done|pos_lia| |intros; learn; run].
  assert (kind_at E (c_pos c) ≠ TEof) as Hne by kind_ne.
  intros [] cl Hx. learn. intros _. run.
  destruct (decide (c_pos cl = c_pos c)); [congruence|pos_lia].
Qed.

(** The tokens that start an expression without a prefix operator. *)
Definition primary_start_at (i : nat) : Prop :=
  expr_start_at E i ∧ kind_in (kind_at E i) [TMinus; TTilde; TAmp; TQuestion; TBang; TNot] = false.

#[global] Instance primary_token_spec :
  Spec E (primary_token G) (Within E (S n)) (Prod E primary_start_at).
Proof.
  intros c Hc Hn. unfold primary_token. run; [auto|].
  match goal with H : primary_start_at _ |- _ => destruct H as [Hs Ho] end.
  unfold expr_start_at, expr_can_start in Hs. kind_cases Hs ltac:(rewrite Hs in *; done).
Qed.

#[global] Instance primary_until_spec stops :
  Spec E (primary_until G stops) (Within E (S n)) (Prod E primary_start_at).
Proof. intros c Hc Hn. unfold primary_until. run; later_start. Qed.

#[global] Instance postfix_until_spec stops :
  Spec E (postfix_until G stops) (Within E (S n)) (Prod E primary_start_at).
Proof.
  intros c Hc Hn. pose proof (fuel_eq E n G). unfold postfix_until. run.
  operands (@id Parsed). unfold id, postfix_suffix in *. run.
Qed.

(** ** Operators *)

Lemma primary_start i :
  expr_start_at E i → kind_in (kind_at E i) [TMinus; TTilde; TAmp; TQuestion; TBang] = false →
  kind_at E i ≠ TNot → primary_start_at i.
Proof.
  intros Hs H1 H2. split; [done|]. unfold kind_in in *.
  apply (bool_decide_eq_false_1 _) in H1. apply (bool_decide_eq_false_2 _). intros Hin.
  apply H1. apply elem_of_app with (l1 := [TMinus; TTilde; TAmp; TQuestion; TBang]) (l2 := [TNot]) in Hin as [|Hin]; [done|].
  by apply list_elem_of_singleton in Hin.
Qed.

#[global] Instance unary_until_spec stops :
  Spec E (unary_until G stops) (Within E (S n))
    (Prod E (λ i, expr_start_at E i ∧ kind_at E i ≠ TNot)).
Proof.
  intros c Hc Hn. unfold unary_until. run.
  match goal with H : primary_start_at _ → _ |- _ => by apply H, primary_start end.
Qed.

#[global] Instance cast_until_spec stops :
  Spec E (cast_until G stops) (Within E (S n))
    (Prod E (λ i, expr_start_at E i ∧ kind_at E i ≠ TNot)).
Proof.
  intros c Hc Hn. pose proof (fuel_eq E n G). unfold cast_until. run.
  operands (@id Parsed). unfold id in *. run.
Qed.

#[global] Instance not_until_spec stops :
  Spec E (not_until G stops) (Within E (S n)) (Prod E (expr_start_at E)).
Proof. intros c Hc Hn. unfold not_until. run. auto. Qed.

#[global] Instance binary_until_spec prec stops :
  Spec E (binary_until G prec stops) (Within E (S n)) (Prod E (expr_start_at E)).
Proof.
  intros c Hc Hn. pose proof (fuel_eq E n G). unfold binary_until. run.
  operands (@id Parsed). unfold id in *. run.
Qed.

#[global] Instance range_end_absent_cond stops : Cond E (range_end_absent stops)
  (λ i, kind_in (kind_at E i) stops || kind_in (kind_at E i) [TComma; TRParen; TRBracket; TRBrace; TSemicolon; TEof]).
Proof. apply or_cond; apply _. Qed.

#[global] Instance range_end_spec st shape stops absent f :
  Cond E absent f → Spec E (range_end G st shape stops absent) (Within E n) (Body E).
Proof. intros Hf c Hc Hn. unfold range_end, Body. run. Qed.

Ltac open_post H ::=
  first [progress unfold recovered in H | progress unfold TypeProd in H | progress unfold Body in H].

#[global] Instance range_until_spec stops :
  Spec E (range_until G stops) (Within E (S n)) (Prod E (expr_start_at E)).
Proof.
  intros c Hc Hn. unfold range_until. run.
Qed.

#[global] Instance assignment_until_spec stops :
  Spec E (assignment_until G stops) (Within E (S n)) (Prod E (expr_start_at E)).
Proof. intros c Hc Hn. unfold assignment_until. run. Qed.

#[global] Instance expr_until_tokens_direct_spec stops :
  Spec E (expr_until_tokens G stops) (Within E (S n)) (Prod E (expr_start_at E)).
Proof. intros c Hc Hn. unfold expr_until_tokens, expr_until_tokens_with. run. Qed.

(** ** Conditions *)

#[global] Instance condition_expected_spec : Spec E condition_expected (λ _, True) (Prod E never).
Proof. intros c Hc _. unfold condition_expected. run. Qed.

#[global] Instance condition_unary_spec stops :
  Spec E (condition_unary G stops) (Within E (S n)) (Prod E never).
Proof. intros c Hc Hn. unfold condition_unary. run. Qed.

#[global] Instance condition_binary_spec stops levels :
  Spec E (condition_binary G stops levels) (Within E (S n)) (Prod E never).
Proof.
  pose proof (fuel_eq E n G). induction levels as [|levels IH]; intros c Hc Hn.
  { simpl. by apply condition_unary_spec. }
  cbn [condition_binary]. run. operands (@id Parsed). unfold id in *. run.
Qed.

#[global] Instance condition_until_spec stops :
  Spec E (condition_until G stops) (Within E (S n)) (Prod E never).
Proof. apply condition_binary_spec. Qed.
End ExprContracts.
