(* ===== verification/GrammarPatterns.v ===== *)
(** * nia-syntax: the pattern grammar ([crates/nia-syntax/src/grammar/patterns.rs])

    Binding contexts accept the irrefutable subset; [match] arms, [is] conditions
    and nominal payloads accept every pattern. *)

From S2P Require Import Prelude RustStd Lexer SyntaxKind GreenTree GrammarParser GrammarRecover GrammarTypes GrammarExprs.

Definition starts_binding_pattern : M bool := at_any [TIdent; TUnderscore; TAmp; TMut; TLParen].

Section Patterns.
Context (G : Grammar).
Let n : nat := g_fuel G.

(** A pattern nested in parentheses. *)
Definition g_nested (stops : list TokenKind) (context : Context) : M (option Parsed) :=
  match context with
  | BindingContext => g_irrefutable_pattern_until G stops
  | MatchContext => g_pattern_until G stops
  end.

(** Elements of a tuple pattern after the first. *)
Definition tuple_pattern_elements (context : Context) : M unit :=
  while n (andM (notM (at_ TRParen)) (notM (at_ TEof)))
    (let* c := checkpoint in
     let* ok := okM (g_nested COMMA_RPAREN context) in
     if bool_decide (context = BindingContext) && negb ok then
       if* ate TComma then ret (Continue tt)
       else
         if* orM (at_ TRParen) (at_ TEof) then ret (Break tt)
         else (recover_to_list_boundary n c TRParen;;; ret (Continue tt))
     else
       if* ate TComma then ret (Continue tt)
       else
         if* orM (at_ TRParen) (at_ TEof) then ret (Break tt)
         else
           let* k := cur in
           if pattern_can_start k then
             expected_here GrammarRule "expected `,` or `)` after tuple pattern";;;
             ret (Continue tt)
           else (recover_to_list_boundary n c TRParen;;; ret (Continue tt))).

(** [tuple_or_paren] of [grammar/patterns.rs]. *)
Definition pattern_tuple_or_paren (context : Context) : M (option Parsed) :=
  node (
    let* st := bump_start in
    if* ate TRParen then done_here KTuplePattern st
    else
      let* first_checkpoint := checkpoint in
      let* first := g_nested COMMA_RPAREN context in
      (match first with
       | None =>
         if* notM (at_ TRParen) then recover_to_list_boundary n first_checkpoint TRParen else ret tt
       | Some _ => ret tt
       end);;;
      let* early :=
        (match first with
         | None =>
           if* at_ TRParen then
             let* close := expect TRParen "expected `)` after tuple pattern" in
             match close with
             | Some _ => let* d := done_here KTuplePattern st in ret (Some d)
             | None => ret (Some None)
             end
           else ret None
         | Some first =>
           if* notM (ate TComma) then
             let* k := cur in
             if pattern_can_start k then
               expected_here GrammarRule "expected `,` or `)` after tuple pattern";;;
               ret None
             else
               let* close := expect TRParen "expected `)` after parenthesized pattern" in
               match close with
               | Some _ =>
                 let* en := previous_end in
                 ret (Some (Some (done_wrapping KParenPattern first (mkSpan st en))))
               | None => ret (Some None)
               end
           else ret None
         end) in
      match early with
      | Some r => ret r
      | None =>
        tuple_pattern_elements context;;;
        let? close := expect TRParen "expected `)` after tuple pattern" in
        ret (Some (done_new KTuplePattern (mkSpan st (end_ close))))
      end).

(** ** Nominal patterns *)

Definition tuple_fields : M (option Parsed) :=
  node (
    let* st := bump_start in
    while n (andM (notM (at_ TRParen)) (notM (at_ TEof)))
      (let* c := checkpoint in
       if* notM (okM (g_pattern_until G COMMA_RPAREN)) then
         if* ate TComma then ret (Continue tt)
         else
           if* at_ TRParen then ret (Break tt)
           else (recover_to_list_boundary n c TRParen;;; ret (Continue tt))
       else
         if* ate TComma then ret (Continue tt)
         else
           let* k := cur in
           if pattern_can_start k then
             expected_here GrammarRule "expected `,` or `)` after tuple pattern";;;
             ret (Continue tt)
           else ret (Break tt));;;
    let? _ := expect TRParen "expected `)` after enum variant pattern" in
    done_here KNominalTupleFields st).

(** One named field; the flag is [failed]. *)
Definition named_field : M bool :=
  let* r := node_with (
    let* st := current_start in
    let* name := expect_name "expected payload field name" in
    match name with
    | None => ret (None, true)
    | Some _ =>
      let* bad := andM (ate TColon) (notM (okM (g_pattern_until G [TComma; TRBrace]))) in
      if (bad : bool) then ret (None, true)
      else
        let* d := done_here KNamedPatternField st in
        ret (d, false)
    end) in
  ret (snd r).

(** [..] among the named fields. *)
Definition rest_field (has_rest : bool) : M unit :=
  let* rest := bump in
  (if has_rest then error_at rest "nominal pattern may contain `..` only once" else ret tt);;;
  if* ate TComma then
    if* notM (at_ TRBrace) then
      let* sp := cur_span in
      error_at sp "`..` must be the final nominal pattern field"
    else ret tt
  else
    if* notM (at_ TRBrace) then
      let* sp := cur_span in
      error_at sp "expected `,` or `}` after nominal pattern `..`"
    else ret tt.

Definition named_fields : M (option Parsed) :=
  node (
    let* st := bump_start in
    loop n (λ has_rest : bool,
      if* andM (notM (at_ TRBrace)) (notM (at_ TEof)) then
        let* c := checkpoint in
        if* at_ TDotDot then
          rest_field has_rest;;;
          ret (Continue true)
        else
          if* named_field then
            if* ate TComma then ret (Continue has_rest)
            else
              if* at_ TRBrace then ret (Break tt)
              else (recover_to_list_boundary n c TRBrace;;; ret (Continue has_rest))
          else
            if* ate TComma then ret (Continue has_rest)
            else
              if* at_ TIdent then
                expected_here GrammarRule "expected `,` or `}` after nominal pattern field";;;
                ret (Continue has_rest)
              else ret (Break tt)
      else ret (Break tt)) false;;;
    let? _ := expect TRBrace "expected `}` after enum variant pattern" in
    done_here KNominalNamedFields st).

(** One token of the lookahead past the matching brace. *)
Definition brace_step (stops : list TokenKind) (st : nat * nat) : M (step (nat * nat) bool) :=
  let '(depth, offset) := st in
  let* k := nth_kind offset in
  match k with
  | Some TLBrace => ret (Continue (S depth, S offset))
  | Some TRBrace =>
    let depth := (depth - 1)%nat in
    if (depth =? 0)%nat then
      let* next := nth_kind (offset + 1) in
      match next with
      | Some TBang =>
        let* after := nth_kind (offset + 2) in
        ret (Break (match after with Some k => kind_in k stops | None => false end))
      | Some k => ret (Break (kind_in k stops))
      | None => ret (Break false)
      end
    else ret (Continue (depth, S offset))
  | Some TEof | None => ret (Break false)
  | _ => ret (Continue (depth, S offset))
  end.

(** Whether the matching brace is followed by a boundary of the pattern. *)
Definition brace_is_followed_by_pattern_boundary (stops : list TokenKind) : M bool :=
  loop n (brace_step stops) (0%nat, 0%nat).

(** The constructor of a nominal pattern. *)
Definition nominal_constructor (c : Checkpoint) (errors : nat) : M (option Parsed) :=
  let* omitted := omitted_constructor G in
  match omitted with
  | Some e => ret (Some e)
  | None =>
    let* path := qualified_value_path G in
    match path with
    | Some e => ret (Some e)
    | None =>
      rewind c;;;
      truncate_errors errors;;;
      if* notM (at_ TIdent) then ret None
      else token_node KNameExpr SHAPE_DEFAULT
    end
  end.

Definition nominal (stops : list TokenKind) : M (option Parsed) :=
  let* c := checkpoint in
  let* errors := errors_len in
  let? constructor := nominal_constructor c errors in
  let* accepted :=
    (if* at_ TLParen then ret true
     else if* at_ TLBrace then brace_is_followed_by_pattern_boundary stops
     else ret false) in
  if negb accepted then
    rewind c;;;
    truncate_errors errors;;;
    ret None
  else
    node_preceding constructor (
      let? _ := (if* at_ TLParen then tuple_fields else named_fields) in
      done_here KNominalPattern (start (pr_span constructor))).

(** ** Patterns *)

(** An expression read as a pattern. *)
Definition expr_pattern (stops : list TokenKind) : M (option Parsed) :=
  let? e := expr_until_tokens G (with_stops stops [TBang]) in
  let closed_range := shape_contains (pr_shape e) (shape_with RANGE_START RANGE_END) in
  let is_range := bool_decide (pr_class e = KRangeExpr) in
  (if is_range && negb closed_range
   then error_at (pr_span e)
          "open-ended match range patterns are not supported; use `_` for the default arm"
   else ret tt);;;
  node_preceding e (ret (Some (done_new
    (if is_range && closed_range then KRangePattern else KExprPattern) (pr_span e)))).

(** The patterns that are neither prefixed, parenthesized nor wildcards. *)
Definition plain_pattern (stops : list TokenKind) (context : Context) : M (option Parsed) :=
  let* r := nominal stops in
  match r with
  | Some e => ret (Some e)
  | None =>
    let* bare := andM (at_ TIdent) (
      let* next := nth_kind 1 in
      ret (match next with
           | Some next =>
             kind_in next stops || (bool_decide (context = MatchContext) && bool_decide (next = TBang))
           | None => false
           end)) in
    if (bare : bool) then token_node KBindPattern SHAPE_DEFAULT
    else
      match context with
      | BindingContext =>
        error_here_as ExpectedBindingPattern (bytes_of_string "expected binding pattern");;;
        missing;;;
        ret None
      | MatchContext => expr_pattern stops
      end
  end.

Definition atom (stops : list TokenKind) (context : Context) : M (option Parsed) :=
  let* st := current_start in
  if* at_ TAmp then
    node (
      bump;;;
      eat TMut;;;
      let? inner := g_atom G stops context in
      ret (Some (done_new KPointerPattern (mkSpan st (end_ (pr_span inner))))))
  else if* at_ TMut then
    node (
      bump;;;
      let? inner := g_atom G stops context in
      ret (Some (done_wrapping KMutPattern inner (mkSpan st (end_ (pr_span inner))))))
  else if* at_ TUnderscore then token_node KWildcardPattern SHAPE_DEFAULT
  else if* at_ TLParen then pattern_tuple_or_paren context
  else
    match context with
    | MatchContext =>
      if* at_any [TQuestion; TBang] then
        let* optional := at_ TQuestion in
        node (
          bump;;;
          let? inner := g_pattern_until G stops in
          ret (Some (done_new (if optional : bool then KOptionalPattern else KErrorOkPattern)
            (mkSpan st (end_ (pr_span inner))))))
      else if* at_ TNull then token_node KNullPattern SHAPE_DEFAULT
      else plain_pattern stops context
    | BindingContext => plain_pattern stops context
    end.

Definition irrefutable_pattern_until (stops : list TokenKind) : M (option Parsed) :=
  let? pattern := atom stops BindingContext in
  (if* at_ TBang then
     recover_in_error (bump;;; ret tt);;;
     error_here "binding patterns do not support error payload suffix `!`"
   else ret tt);;;
  ret (Some pattern).

Definition pattern_until (stops : list TokenKind) : M (option Parsed) :=
  let? first := atom stops MatchContext in
  loop n (λ inner : Parsed,
    if* at_ TBang then
      next_operand (node_preceding inner (
        bump;;;
        done_here KErrorErrPattern (start (pr_span inner))))
    else ret (Break (Some inner))) first.
End Patterns.

(** Contracts are found by the name of the operation. *)
#[global] Typeclasses Opaque starts_binding_pattern g_nested tuple_pattern_elements
  pattern_tuple_or_paren tuple_fields named_field rest_field named_fields brace_step
  brace_is_followed_by_pattern_boundary nominal_constructor nominal expr_pattern plain_pattern atom
  irrefutable_pattern_until pattern_until.
