(* ===== verification/GrammarStmts.v ===== *)
(** * nia-syntax: attributes, imports, bindings and statements

    The parts of [crates/nia-syntax/src/grammar/items.rs] that statements use, and
    the statements of [grammar/stmts.rs]. *)

From S2P Require Import Prelude RustStd Lexer SyntaxKind GreenTree GrammarParser GrammarRecover GrammarTypes GrammarExprs GrammarPatterns.

(** What later decisions depend on of a run of attributes. *)
Record Attributes := mkAttributes {
  at_start : option nat;
  at_count : nat;
  at_builtin : bool;
}.

Definition attributes_default : Attributes := mkAttributes None 0 false.

(** The summary after one more attribute. *)
Definition add_attribute (a : Attributes) (parsed : Parsed) (builtin : bool) : Attributes :=
  mkAttributes (Some (default (start (pr_span parsed)) (at_start a))) (S (at_count a))
    (at_builtin a || builtin).

(** [attributes.start.unwrap_or(p.span().start)]; the argument is evaluated first. *)
Definition item_start (a : Attributes) : M nat :=
  let* st := current_start in ret (default st (at_start a)).

Section Stmts.
Context (G : Grammar).
Let n : nat := g_fuel G.

(** ** Attributes *)

Definition attribute_args : M (option Parsed) :=
  node (
    let* st := bump_start in
    while n (andM (notM (at_ TRParen)) (notM (at_ TEof)))
      (let* c := checkpoint in
       if* notM (okM (g_expr_until_tokens G COMMA_RPAREN)) then
         recover_to_list_boundary n c TRParen;;;
         ret (Continue tt)
       else
         let* next := at_expr_start in
         if* list_separator next "expected `,` or `)` after attribute argument"
         then ret (Continue tt) else ret (Break tt));;;
    let? _ := expect TRParen "expected `)` after attribute arguments" in
    done_here KAttributeArgList st).

(** The path of an attribute after its first name: the number of segments. *)
Definition attribute_segments : M (option nat) :=
  loop n (λ segments : nat,
    if* ate TDot then
      let* name := expect_name "expected attribute path segment" in
      match name with
      | Some _ => ret (Continue (S segments))
      | None => ret (Break None)
      end
    else ret (Break (Some segments))) 1%nat.

(** The body of an attribute after [@[], for a name; the flag is [builtin]. *)
Definition named_attribute (st : nat) : M (option Done * bool) :=
  let* first := cur_text in
  let* name := expect_name "expected attribute name" in
  match name with
  | None => ret (None, false)
  | Some _ =>
    let* segments := attribute_segments in
    match segments with
    | None => ret (None, false)
    | Some segments =>
      let builtin := (segments =? 1)%nat && bool_decide (first = bytes_of_string "builtin") in
      let* args_ok := (if* at_ TLParen then okM attribute_args else ret true) in
      if (args_ok : bool) then
        let* close := expect TRBracket "expected `]` after attribute" in
        ret (match close with
             | Some close => Some (done_new KAttribute (mkSpan st (end_ close)))
             | None => None
             end, builtin)
      else ret (None, builtin)
    end
  end.

Definition conditional_attribute (st : nat) : M (option Done) :=
  bump;;;
  let? _ := g_condition_until G [TRBracket] in
  let? close := expect TRBracket "expected `]` after conditional attribute" in
  ret (Some (done_new KAttribute (mkSpan st (end_ close)))).

Definition attribute : M (option Parsed * bool) :=
  node_with (
    let* sign := expect TAt "expected `@` before attribute" in
    match sign with
    | None => ret (None, false)
    | Some sign =>
      let* open := expect TLBracket "expected `[` after `@` in attribute" in
      match open with
      | None => ret (None, false)
      | Some _ =>
        if* at_ TIf then
          let* d := conditional_attribute (start sign) in
          ret (d, false)
        else named_attribute (start sign)
      end
    end).

Definition attributes : M Attributes :=
  loop n (λ summary : Attributes,
    if* at_attribute_start then
      let* c := checkpoint in
      let* r := attribute in
      match r with
      | (Some parsed, builtin) => ret (Continue (add_attribute summary parsed builtin))
      | (None, _) =>
        recover_to_attribute_boundary n c;;;
        ret (Continue summary)
      end
    else ret (Break summary)) attributes_default.

(** ** Imports *)

Definition using_name : M (option Parsed) :=
  node (
    let* st := current_start in
    if* notM (ate TIdent) then
      error_here_as ExpectedName (bytes_of_string "expected name in `using`");;;
      ret None
    else
      if* andM (ate TAs) (notM (ate TIdent)) then
        error_here_as ExpectedName (bytes_of_string "expected alias after `as`");;;
        ret None
      else done_here KUsingName st).

(** The selector after a host path. *)
Definition using_selector : M (option Parsed) :=
  if* at_ TLBrace then g_using_group G else using_name.

(** [NAME ::] host segments; the result is whether there was one. *)
Definition host_segments : M bool :=
  loop n (λ has_host : bool,
    if* andM at_namespace_segment (nth_is 1 TColonColon) then
      bump;;;
      bump;;;
      ret (Continue true)
    else ret (Break has_host)) false.

(** A nested path of a group; the flag is [has_host]. *)
Definition nested_using : M (option Parsed * bool) :=
  node_with (
    let* st := current_start in
    let* has_host := host_segments in
    if negb has_host then ret (None, false)
    else
      let* selector :=
        andM (andM (notM (at_ TComma)) (notM (at_ TRBrace))) (notM (ate TStar)) in
      let* ok := (if (selector : bool) then okM using_selector else ret true) in
      if (ok : bool) then let* d := done_here KUsingTree st in ret (d, true)
      else ret (None, true)).

Definition using_group_item : M (option Parsed) :=
  let* c := checkpoint in
  let* errors := errors_len in
  let* r := nested_using in
  if (snd r : bool) then ret (fst r)
  else
    rewind c;;;
    truncate_errors errors;;;
    using_name.

Definition using_group : M (option Parsed) :=
  node (
    let* st := bump_start in
    while n (andM (andM (notM (at_ TRBrace)) (notM (at_ TEof))) (notM at_top_level_item_start))
      (let* c := checkpoint in
       if* notM (okM using_group_item) then
         recover_to_using_boundary n c;;;
         ret (Continue tt)
       else
         let* next := at_namespace_segment in
         if* list_separator next "expected `,` or `}` after using selector"
         then ret (Continue tt) else ret (Break tt));;;
    let? _ := expect TRBrace "expected `}` after using group" in
    done_here KUsingGroup st).

(** Host segments before [*], [{] or a single name. *)
Definition using_hosts : M (option unit) :=
  loop n (λ _ : unit,
    if* orM (at_ TStar) (at_ TLBrace) then ret (Break (Some tt))
    else
      if* notM at_namespace_segment then
        error_here_as ExpectedName (bytes_of_string "expected name in using selector");;;
        ret (Break None)
      else
        if* nth_is 1 TColonColon then
          bump;;;
          bump;;;
          ret (Continue tt)
        else ret (Break (Some tt))) tt.

(** Host path and selector after [using]. *)
Definition using_tree : M (option Parsed) :=
  node (
    let* st := current_start in
    if* at_ TLBrace then
      let? _ := using_group in
      done_here KUsingTree st
    else
      if* notM at_namespace_segment then
        expected_here ExpectedName "expected name after `using`";;;
        ret None
      else
        bump;;;
        if* notM (ate TColonColon) then done_here KUsingTree st
        else
          let? _ := using_hosts in
          if* ate TStar then done_here KUsingTree st
          else
            let? _ := using_selector in
            done_here KUsingTree st).

(** ** Bindings *)

(** The keyword of a binding: [Some is_const] when it was accepted. *)
Definition binding_keyword (is_extern : bool) : M (option bool) :=
  if* ate TConst then
    if is_extern then
      error_here "extern binding cannot be `const`";;;
      ret None
    else
      if* at_ TMut then
        error_here "const bindings cannot be mutable";;;
        ret None
      else ret (Some true)
  else if* ate TStatic then
    eat TMut;;;
    ret (Some false)
  else if* at_ TLet then
    error_here "top-level storage declarations use `static`; `let` is local-only";;;
    ret None
  else
    error_here "expected `static` binding";;;
    ret None.

(** The checks after the type and the initializer. *)
Definition binding_checks (is_extern is_const require_const_initializer has_type has_value : bool) :
    M (option unit) :=
  if is_const && negb has_value && require_const_initializer then
    error_here "const binding requires an initializer";;;
    ret None
  else if negb is_extern && negb has_value && negb has_type then
    error_here "binding declaration requires an explicit type";;;
    ret None
  else if is_extern && negb has_type then
    error_here "extern binding requires an explicit type";;;
    ret None
  else ret (Some tt).

(** The type after [:]: the span of the annotation, if there is one. *)
Definition binding_type : M (option (option Span)) :=
  if* ate TColon then
    let? ty := type_until G [TEq; TSemicolon] in ret (Some (Some (pr_span ty)))
  else ret (Some None).

Definition binding_value (is_extern : bool) : M (option (option Span)) :=
  if* ate TEq then
    if is_extern then
      error_here "extern binding cannot have an initializer";;;
      ret None
    else
      let? e := g_expr_until G [TSemicolon] in ret (Some (Some (pr_span e)))
  else ret (Some None).

(** The span a missing [;] is reported after. *)
Definition binding_anchor (ty value : option Span) : M Span :=
  match value, ty with
  | Some sp, _ | None, Some sp => ret sp
  | None, None => let* en := previous_end in ret (mkSpan en en)
  end.

Definition present {A} (o : option A) : bool := match o with Some _ => true | None => false end.

Definition binding_decl_with (is_extern require_const_initializer : bool) (associated : option bool) :
    M (option Parsed) :=
  node (
    let* st := current_start in
    let? is_const := binding_keyword is_extern in
    let? _ := expect_name "expected binding name" in
    let? ty := binding_type in
    let? value := binding_value is_extern in
    let? _ := binding_checks is_extern is_const require_const_initializer (present ty) (present value) in
    let* anchor := binding_anchor ty value in
    let? _ := expect_semicolon_after anchor "expected `;` after binding" in
    let* en := previous_end in
    let sp := mkSpan st en in
    match associated with
    | Some allow_bodyless =>
      if is_const && negb (present value) then
        if negb allow_bodyless then
          error_at sp "const binding requires an initializer";;;
          ret None
        else if negb (present ty) then
          error_at sp "bodyless associated const declaration requires an explicit type";;;
          ret None
        else ret (Some (done_new KBindingDecl sp))
      else ret (Some (done_new KBindingDecl sp))
    | None => ret (Some (done_new KBindingDecl sp))
    end).

Definition binding_decl (is_extern require_const_initializer : bool) : M (option Parsed) :=
  binding_decl_with is_extern require_const_initializer None.

(** ** Statements *)

(** The keyword of a local binding: [Some is_const] when it was accepted. *)
Definition let_keyword : M (option bool) :=
  if* ate TConst then
    if* notM starts_binding_pattern then
      error_here "expected const binding";;;
      ret None
    else
      if* at_ TMut then
        error_here "const bindings cannot be mutable; use `let mut` inside const evaluation";;;
        ret None
      else ret (Some true)
  else
    bump;;;
    ret (Some false).

Definition let_value : M (option (option Span)) :=
  if* ate TEq then
    let? e := g_expr_until_tokens G [TSemicolon] in ret (Some (Some (pr_span e)))
  else ret (Some None).

Definition let_stmt : M (option unit) :=
  let? is_const := let_keyword in
  eat TMut;;;
  let? _ := g_irrefutable_pattern_until G [TColon; TEq; TSemicolon] in
  let? ty := binding_type in
  let? value := let_value in
  if (is_const : bool) && negb (present value) then
    error_here "const binding requires an initializer";;;
    ret None
  else
    let* anchor := binding_anchor ty value in
    let? _ := expect_semicolon_after anchor "expected `;` after binding" in
    ret (Some tt).

Definition for_stmt : M (option unit) :=
  bump;;;
  let? _ := g_irrefutable_pattern_until G [TIn; TColon] in
  if* at_ TColon then
    error_here "for patterns do not support type annotations";;;
    let* collected := recover_in_error (okM (collect_until n [TLBrace])) in
    if (collected : bool) then let? _ := block G in ret (Some tt) else ret None
  else
    let? _ := expect TIn "expected `in` after for pattern" in
    let? _ := g_expr_until G [TLBrace] in
    let? _ := block G in
    ret (Some tt).

(** An expression statement that follows attributes. *)
Definition attributed_expr_stmt (st : nat) : M (option Done) :=
  let? e := g_expr G in
  let* has_semicolon := ate TSemicolon in
  (if negb has_semicolon && negb (can_terminate_statement e)
   then error_at_end_as MissingSemicolon (pr_span e) (bytes_of_string "expected `;` after expression")
   else ret tt);;;
  done_here KExprStmt st.

(** The cases of [stmt] after its attributes. *)
Definition stmt_body (st count : nat) : M (option Done) :=
  if* ate TUsing then
    let? _ := using_tree in
    let? _ := expect TSemicolon "expected `;` after using" in
    done_here KUsingStmt st
  else if* at_ TStatic then
    let? _ := binding_decl false true in
    done_here KStaticStmt st
  else if* orM (at_ TConst) (at_ TLet) then
    let? _ := let_stmt in
    done_here KLetStmt st
  else if* ate TReturn then
    let? _ := (if* notM (at_ TSemicolon) then let? _ := g_expr G in ret (Some tt) else ret (Some tt)) in
    let? _ := expect TSemicolon "expected `;` after return" in
    done_here KReturnStmt st
  else if* ate TBreak then
    let? _ := expect TSemicolon "expected `;` after break" in
    done_here KBreakStmt st
  else if* ate TContinue then
    let? _ := expect TSemicolon "expected `;` after continue" in
    done_here KContinueStmt st
  else if* ate TDefer then
    let? _ := g_expr_until_tokens G [TSemicolon; TRBrace] in
    let? _ := expect TSemicolon "expected `;` after defer" in
    done_here KDeferStmt st
  else if* at_ TFor then
    let? _ := for_stmt in
    done_here KForStmt st
  else if* at_ TWhile then
    bump;;;
    let? _ := g_expr_until G [TLBrace] in
    let? _ := block G in
    done_here KWhileStmt st
  else if* at_ TLoop then
    bump;;;
    let? _ := block G in
    done_here KLoopStmt st
  else if (count =? 0)%nat then ret None
  else attributed_expr_stmt st.

Definition stmt : M (option Parsed) :=
  node (
    let* attrs := attributes in
    let* st := item_start attrs in
    (if* at_ TPub then
       let* sp := cur_span in
       error_at sp "`pub` is not allowed on statements; only top-level `pub using` is permitted";;;
       recover_in_error (bump;;; ret tt)
     else ret tt);;;
    stmt_body st (at_count attrs)).
End Stmts.

(** Contracts are found by the name of the operation. *)
#[global] Typeclasses Opaque item_start attribute_args attribute_segments named_attribute
  conditional_attribute attribute attributes using_name using_selector host_segments nested_using
  using_group_item using_group using_hosts using_tree binding_keyword binding_checks binding_type
  binding_value binding_anchor binding_decl_with binding_decl let_keyword let_value let_stmt
  for_stmt attributed_expr_stmt stmt_body stmt.
