(* ===== verification/GrammarStmtsFacts.v ===== *)
(** * nia-syntax: contracts of attributes, imports, bindings and statements *)

From S2P Require Import Prelude RustStd Lexer LexerProps SyntaxKind GreenTree GreenTreeProps GrammarParser GrammarLogic GrammarRules GrammarWp GrammarRecover GrammarTactics GrammarRecoverFacts GrammarTypes GrammarContracts GrammarTypesFacts GrammarExprs GrammarExprsFacts GrammarPatterns GrammarStmts.

(** ** Contracts of patterns *)

Section PatternContracts.
Context (E : Env) {HE : EnvOk E} {HT : Tame E} (n : nat) (G : Grammar) {HG : GrammarOk E n G}.

#[global] Instance g_nested_spec stops context :
  Spec E (g_nested G stops context) (Within E n)
    (λ c o c', Ext E c c' ∧ (is_Some o → (c_pos c < c_pos c')%nat) ∧
       (context = MatchContext → pattern_start_at E (c_pos c) → (c_pos c < c_pos c')%nat)).
Proof. intros c Hc Hn. destruct context; unfold g_nested; run; naive_solver. Qed.

(** After an element that failed on its first token a starting token cannot
    follow, so the list goes on only past a token. *)
#[global] Instance tuple_pattern_elements_spec context :
  Spec E (tuple_pattern_elements G context) (Within E n) (λ c _ c', Ext E c c').
Proof. intros c Hc Hn. pose proof (fuel_eq E n G). unfold tuple_pattern_elements. run. intros _.
  match goal with
  | H : is_Some ?a → _, K : pattern_can_start (kind_at E (c_pos ?c1)) = true, _ : Ext E ?c0 ?c1 |- (c_pos ?c0 < _)%nat =>
    destruct a; [specialize (H (ex_intro _ _ eq_refl)); pos_lia|]; destruct context; [done|];
    destruct (decide (c_pos c1 = c_pos c0)) as [Heq|]; [|pos_lia]; rewrite Heq in K
  end.
  match goal with H : MatchContext = MatchContext → _ |- _ => specialize (H eq_refl ltac:(done)) end. pos_lia.
Qed.

#[global] Instance pattern_tuple_or_paren_spec context :
  Spec E (pattern_tuple_or_paren G context) (λ c, Within E (S n) c ∧ kind_at E (c_pos c) = TLParen)
    (Prod E (λ _, True)).
Proof. intros c Hc [Hn Hk]. pose proof (fuel_eq E n G). unfold pattern_tuple_or_paren. run. Qed.

(** ** Nominal patterns *)

#[global] Instance tuple_fields_spec :
  Spec E (tuple_fields G) (λ c, Within E (S n) c ∧ kind_at E (c_pos c) = TLParen) (Prod E (λ _, True)).
Proof. intros c Hc [Hn Hk]. pose proof (fuel_eq E n G). unfold tuple_fields. run. Qed.

#[global] Instance named_field_spec :
  Spec E (named_field G) (Within E n)
    (λ c failed c', Ext E c c' ∧ (failed = false → (c_pos c < c_pos c')%nat)).
Proof. intros c Hc Hn. unfold named_field. run. Qed.

#[global] Instance rest_field_spec has_rest :
  Spec E (rest_field has_rest) (λ c, kind_at E (c_pos c) = TDotDot)
    (λ c _ c', Ext E c c' ∧ (c_pos c < c_pos c')%nat).
Proof. intros c Hc Hk. unfold rest_field. run. Qed.

#[global] Instance named_fields_spec :
  Spec E (named_fields G) (λ c, Within E (S n) c ∧ kind_at E (c_pos c) = TLBrace) (Prod E (λ _, True)).
Proof.
  intros c Hc [Hn Hk]. pose proof (fuel_eq E n G). unfold named_fields. run.
  apply (wp_loop_ext E (λ _ _, True)); [done|solve_pos| |intros; learn; run].
  intros has_rest cl Hx. learn. intros _. run.
Qed.

(** The lookahead reads without consuming, and ends at EOF. *)
Lemma brace_step_spec stops c d o :
  (c_pos c + o < len E)%nat →
  wp E (brace_step stops (d, o)) c (λ r c', c' = c ∧
    match r with
    | Continue (_, o') => o' = S o ∧ kind_at E (c_pos c + o) ≠ TEof
    | Break _ => True
    end).
Proof.
  intros Hlt. unfold brace_step. apply (wp_bind E), (wp_nth_kind E). rewrite decide_True by done.
  destruct (kind_at E (c_pos c + o)) eqn:Hk; try (by apply (wp_ret E)).
  destruct (d - 1 =? 0)%nat; [|by apply (wp_ret E)]. apply (wp_bind E), (wp_nth_kind E).
  destruct (decide (c_pos c + (o + 1) < len E)%nat) as [Hd|Hd]; [|by apply (wp_ret E)].
  destruct (kind_at E (c_pos c + (o + 1))); try (by apply (wp_ret E)).
  by apply (wp_bind E), (wp_nth_kind E), (wp_ret E).
Qed.

#[global] Instance brace_boundary_spec stops :
  Spec E (brace_is_followed_by_pattern_boundary G stops) (Within E (S n)) (λ c _ c', c' = c).
Proof.
  intros c Hc Hn. unfold brace_is_followed_by_pattern_boundary. rewrite (fuel_eq E n G).
  assert (∀ fuel d o, (total E = true → (len E - (c_pos c + o) ≤ fuel)%nat) → (c_pos c + o < len E)%nat →
    wp E (loop fuel (brace_step stops) (d, o)) c (λ _ c', c' = c)) as Hgen; [|apply Hgen; pos_lia].
  induction fuel as [|fuel IH]; intros d o Hf Hlt.
  { apply (wp_out_of_fuel E). destruct (total E); [|done]. specialize (Hf eq_refl). lia. }
  apply (wp_bind E). eapply wp_mono; [by apply brace_step_spec|].
  intros [[d' o']|r] c' [-> Hr]; [|by apply (wp_ret E)]. destruct Hr as [-> Hk].
  apply (kind_at_next E) in Hk. apply IH; [|lia]. intros Ht. specialize (Hf Ht). lia.
Qed.

#[global] Instance nominal_constructor_spec c0 errors :
  Spec E (nominal_constructor G (cp_of c0) errors) (λ c, c = c0 ∧ Within E (S n) c) (Prod E never).
Proof. intros c Hc [-> Hn]. unfold nominal_constructor. run. Qed.

#[global] Instance nominal_spec stops :
  Spec E (nominal G stops) (Within E (S n)) (Prod E never).
Proof. intros c Hc Hn. unfold nominal. run. Qed.

(** ** Patterns *)

#[global] Instance expr_pattern_spec stops :
  Spec E (expr_pattern G stops) (Within E (S n)) (Prod E (expr_start_at E)).
Proof. intros c Hc Hn. unfold expr_pattern. run. all: by repeat case_match. Qed.

#[global] Instance plain_pattern_spec stops context :
  Spec E (plain_pattern G stops context) (Within E (S n))
    (Prod E (λ i, context = MatchContext ∧ expr_start_at E i)).
Proof. intros c Hc Hn. unfold plain_pattern. run; later_start. Qed.

(** A pattern starts here, and it is not an expression of its own. *)
Lemma pattern_starts i :
  pattern_start_at E i → kind_at E i ≠ TMut → kind_at E i ≠ TUnderscore → expr_start_at E i.
Proof.
  intros Hs H1 H2. unfold pattern_start_at, pattern_can_start in Hs.
  unfold expr_start_at. kind_cases Hs ltac:(rewrite Hs in *; done).
Qed.

#[global] Instance atom_spec stops context :
  Spec E (atom G stops context) (Within E (S n))
    (Prod E (λ i, context = MatchContext ∧ pattern_start_at E i)).
Proof.
  intros c Hc Hn. unfold atom. run.
  - by case_bool_decide.
  - match goal with H : _ ∧ expr_start_at _ _ → _ |- _ => apply H; split; [done|by apply pattern_starts] end.
Qed.

#[global] Instance irrefutable_pattern_until_spec stops :
  Spec E (irrefutable_pattern_until G stops) (Within E (S n))
    (λ c o c', Ext E c c' ∧ (is_Some o → (c_pos c < c_pos c')%nat)).
Proof. intros c Hc Hn. unfold irrefutable_pattern_until. run. Qed.

#[global] Instance pattern_until_spec stops :
  Spec E (pattern_until G stops) (Within E (S n)) (Prod E (pattern_start_at E)).
Proof.
  intros c Hc Hn. pose proof (fuel_eq E n G). unfold pattern_until. run.
  operands (@id Parsed). unfold id in *. run.
Qed.
End PatternContracts.

(** ** Contracts of attributes, imports, bindings and statements *)

Ltac open_post H ::=
  first
  [ progress unfold recovered in H
  | progress unfold TypeProd in H
  | progress unfold Body in H
  | match type of H with context [fst ?r] => is_var r; destruct r end ].

Section StmtContracts.
Context (E : Env) {HE : EnvOk E} {HT : Tame E} (n : nat) (G : Grammar) {HG : GrammarOk E n G}.

(** ** Attributes *)

#[global] Instance attribute_args_spec :
  Spec E (attribute_args G) (λ c, Within E (S n) c ∧ kind_at E (c_pos c) = TLParen) (Prod E (λ _, True)).
Proof. intros c Hc [Hn Hk]. pose proof (fuel_eq E n G). unfold attribute_args. run. Qed.

#[global] Instance attribute_segments_spec :
  Spec E (attribute_segments G) (Within E (S n)) (λ c _ c', Ext E c c').
Proof.
  intros c Hc Hn. pose proof (fuel_eq E n G). unfold attribute_segments.
  apply (wp_loop_ext E (λ _ _, True)); [done|solve_pos| |intros; learn; run].
  intros segments cl Hx. learn. intros _. run.
Qed.

#[global] Instance named_attribute_spec st :
  Spec E (named_attribute G st) (Within E (S n)) (λ c r c', Body E c (fst r) c').
Proof. intros c Hc Hn. unfold named_attribute, Body. run. Qed.

#[global] Instance conditional_attribute_spec st :
  Spec E (conditional_attribute G st) (λ c, Within E (S n) c ∧ kind_at E (c_pos c) = TIf) (Body E).
Proof. intros c Hc [Hn Hk]. unfold conditional_attribute, Body. run. Qed.

#[global] Instance attribute_spec :
  Spec E (attribute G) (Within E (S n))
    (λ c r c', Ext E c c' ∧ (is_Some (fst r) → (c_pos c < c_pos c')%nat)).
Proof. intros c Hc Hn. unfold attribute. run. Qed.

#[global] Instance attributes_spec :
  Spec E (attributes G) (Within E (S n))
    (λ c a c', Ext E c c' ∧ ((0 < at_count a)%nat → (c_pos c < c_pos c')%nat)).
Proof.
  intros c Hc Hn. pose proof (fuel_eq E n G). unfold attributes.
  apply (wp_loop E (λ a c1, Ext E c c1 ∧ ((0 < at_count a)%nat → (c_pos c < c_pos c1)%nat))).
  - split; [by apply Ext_refl|simpl; lia].
  - pos_lia.
  - intros a c1 [Hx _]. by apply inv_pos, Hx.
  - intros a c1 [Hx Ha]. learn. wp_run; go. intros _. unfold attribute_at in Hb. pos_lia.
Qed.

#[global] Instance item_start_spec a : Spec E (item_start a) (λ _, True) (λ c _ c', c' = c).
Proof. intros c Hc _. unfold item_start. run. Qed.

(** ** Imports *)

#[global] Instance using_name_spec : Spec E using_name (λ _, True) (Prod E never).
Proof. intros c Hc _. unfold using_name. run. Qed.

#[global] Instance using_selector_spec : Spec E (using_selector G) (Within E n) (Prod E never).
Proof. intros c Hc Hn. unfold using_selector. run. Qed.

#[global] Instance host_segments_spec :
  Spec E (host_segments G) (Within E (S n))
    (λ c has_host c', Ext E c c' ∧ (has_host = true → (c_pos c < c_pos c')%nat)).
Proof.
  intros c Hc Hn. pose proof (fuel_eq E n G). unfold host_segments.
  apply (wp_loop E (λ h c1, Ext E c c1 ∧ (h = true → (c_pos c < c_pos c1)%nat))).
  - split; [by apply Ext_refl|done].
  - pos_lia.
  - intros h c1 [Hx _]. by apply inv_pos, Hx.
  - intros h c1 [Hx Hh]. learn. wp_run; go.
Qed.

#[global] Instance nested_using_spec :
  Spec E (nested_using G) (Within E (S n))
    (λ c r c', Ext E c c' ∧ match fst r with Some p => Fresh E c c' p ∧ (c_pos c < c_pos c')%nat | None => True end).
Proof. intros c Hc Hn. unfold nested_using. run. Qed.

#[global] Instance using_group_item_spec :
  Spec E (using_group_item G) (Within E (S n)) (Prod E never).
Proof. intros c Hc Hn. unfold using_group_item. run. Qed.

#[global] Instance using_group_spec :
  Spec E (using_group G) (λ c, Within E (S n) c ∧ kind_at E (c_pos c) = TLBrace) (Prod E never).
Proof. intros c Hc [Hn Hk]. pose proof (fuel_eq E n G). unfold using_group. run. auto. Qed.

#[global] Instance using_hosts_spec :
  Spec E (using_hosts G) (Within E (S n)) (λ c _ c', Ext E c c').
Proof.
  intros c Hc Hn. pose proof (fuel_eq E n G). unfold using_hosts.
  apply (wp_loop_ext E (λ _ _, True)); [done|solve_pos| |intros; learn; run].
  intros [] cl Hx. learn. intros _. run.
Qed.

#[global] Instance using_tree_spec : Spec E (using_tree G) (Within E (S n)) (Prod E never).
Proof. intros c Hc Hn. unfold using_tree. run. Qed.

(** ** Bindings *)

#[global] Instance binding_keyword_spec is_extern :
  Spec E (binding_keyword is_extern) (λ _, True)
    (λ c o c', Ext E c c' ∧ (is_Some o → (c_pos c < c_pos c')%nat) ∧
       (kind_in (kind_at E (c_pos c)) [TConst; TStatic] = true → (c_pos c < c_pos c')%nat)).
Proof. intros c Hc _. unfold binding_keyword. run.
  all: match goal with H : kind_in _ _ = true |- _ => kind_cases H ltac:(congruence) end.
Qed.

#[global] Instance binding_checks_spec a b d e f :
  Spec E (binding_checks a b d e f) (λ _, True) (λ c _ c', c' = c).
Proof. intros c Hc _. unfold binding_checks. run. Qed.

#[global] Instance binding_type_spec : Spec E (binding_type G) (Within E (S n)) (λ c _ c', Ext E c c').
Proof. intros c Hc Hn. unfold binding_type. run. Qed.

#[global] Instance binding_value_spec is_extern :
  Spec E (binding_value G is_extern) (Within E (S n)) (λ c _ c', Ext E c c').
Proof. intros c Hc Hn. unfold binding_value. run. Qed.

#[global] Instance binding_anchor_spec ty v :
  Spec E (binding_anchor ty v) (λ _, True) (λ c _ c', c' = c).
Proof. intros c Hc _. unfold binding_anchor. run. Qed.

#[global] Instance binding_decl_with_spec is_extern require associated :
  Spec E (binding_decl_with G is_extern require associated) (Within E (S n))
    (Prod E (λ i, kind_in (kind_at E i) [TConst; TStatic] = true)).
Proof. intros c Hc Hn. unfold binding_decl_with. run. Qed.

#[global] Instance binding_decl_spec is_extern require :
  Spec E (binding_decl G is_extern require) (Within E (S n))
    (Prod E (λ i, kind_in (kind_at E i) [TConst; TStatic] = true)).
Proof. apply binding_decl_with_spec. Qed.

(** ** Statements *)

#[global] Instance let_keyword_spec :
  Spec E let_keyword (λ c, kind_at E (c_pos c) ≠ TEof) (λ c _ c', Ext E c c' ∧ (c_pos c < c_pos c')%nat).
Proof. intros c Hc Hk. unfold let_keyword, starts_binding_pattern. run. Qed.

#[global] Instance let_value_spec : Spec E (let_value G) (Within E (S n)) (λ c _ c', Ext E c c').
Proof. intros c Hc Hn. unfold let_value. run. Qed.

#[global] Instance let_stmt_spec :
  Spec E (let_stmt G) (λ c, Within E (S n) c ∧ kind_at E (c_pos c) ≠ TEof)
    (λ c _ c', Ext E c c' ∧ (c_pos c < c_pos c')%nat).
Proof. intros c Hc [Hn Hk]. unfold let_stmt. run. Qed.

#[global] Instance for_stmt_spec :
  Spec E (for_stmt G) (λ c, Within E (S n) c ∧ kind_at E (c_pos c) = TFor)
    (λ c _ c', Ext E c c' ∧ (c_pos c < c_pos c')%nat).
Proof. intros c Hc [Hn Hk]. pose proof (fuel_eq E n G). unfold for_stmt. run. Qed.

#[global] Instance attributed_expr_stmt_spec st :
  Spec E (attributed_expr_stmt G st) (Within E n)
    (λ c o c', Body E c o c' ∧ (is_Some o → (c_pos c < c_pos c')%nat)).
Proof. intros c Hc Hn. unfold attributed_expr_stmt, Body. run. Qed.

#[global] Instance stmt_body_spec st count :
  Spec E (stmt_body G st count) (λ c, Within E (S n) c ∧ ((0 < count)%nat → Within E n c))
    (λ c o c', Body E c o c' ∧ (is_Some o → (c_pos c < c_pos c')%nat)).
Proof.
  intros c Hc [Hn Hcount]. unfold stmt_body, Body. run.
  apply Hcount. by destruct count; [|lia].
Qed.

#[global] Instance stmt_spec : Spec E (stmt G) (Within E (S n)) (Prod E never).
Proof. intros c Hc Hn. unfold stmt. run. Qed.
End StmtContracts.
