(* ===== verification/GrammarItems.v ===== *)
(** * nia-syntax: items and source files ([crates/nia-syntax/src/grammar/items.rs])

    Declarations, their members, and the loop over the items of a source file.
    [grammar] ties the recursion of all productions: [grammar n] can enter
    recursive calls [n] deep, and its loops run [S n] times. *)

From S2P Require Import Prelude RustStd Lexer SyntaxKind GreenTree GrammarParser GrammarRecover GrammarTypes GrammarExprs GrammarPatterns GrammarStmts.

Inductive MemberOwner : Type := TraitOwner | ExtendOwner.

Section Items.
Context (G : Grammar).
Let n : nat := g_fuel G.

(** [pub], [pub(super)] or [pub(root)]; the flag is plain [pub]. *)
Definition visibility : M (option Parsed * bool) :=
  node_with (
    let* st := bump_start in
    if* ate TLParen then
      let* public :=
        (if* orM (at_ TSuper) (at_ TRoot) then (bump;;; ret false)
         else (error_here "expected `super` or `root` in visibility";;; ret true)) in
      let* close := expect TRParen "expected `)` after visibility" in
      match close with
      | Some _ => let* d := done_here KVisibility st in ret (d, public)
      | None => ret (None, public)
      end
    else
      let* d := done_here KVisibility st in ret (d, true)).

Definition module_decl : M (option Parsed) :=
  node (
    let* st := bump_start in
    let? _ := expect_name "expected module name" in
    let? _ := expect TSemicolon "expected `;` after module declaration" in
    done_here KModuleDecl st).

Definition using_decl : M (option Parsed) :=
  node (
    let* st := bump_start in
    let? _ := using_tree G in
    let? _ := expect TSemicolon "expected `;` after using" in
    done_here KUsingDecl st).

(** ** Fields *)

Definition tuple_field : M (option Parsed) :=
  node (
    let? ty := type_list_element G TRParen in
    ret (Some (done_new KTupleField (pr_span ty)))).

(** Positional fields of a tuple struct or a tuple variant. *)
Definition tuple_field_list (open_error : option string) (empty_message close_message : string) :
    M (option Parsed) :=
  node (
    let* st := bump_start in
    (match open_error with Some message => error_here message | None => ret tt end);;;
    let* fields := loop n (λ fields : nat,
      if* andM (notM (at_ TRParen)) (notM (at_ TEof)) then
        if* notM (okM tuple_field) then
          if* ate TComma then ret (Continue fields) else ret (Break fields)
        else
          let fields := S fields in
          let* next := at_type_start in
          if* list_separator next "expected `,` or `)` after tuple field"
          then ret (Continue fields) else ret (Break fields)
      else ret (Break fields)) 0%nat in
    (if (fields =? 0)%nat then error_here empty_message else ret tt);;;
    let? _ := expect TRParen close_message in
    done_here KTupleFieldList st).

Definition field : M (option Parsed) :=
  let? parsed := node (
    let* attrs := attributes G in
    let* st := item_start attrs in
    let? _ := expect_name "expected field name" in
    let? _ := expect TColon "expected `:` after field name" in
    let? ty := field_type G in
    ret (Some (done_new KField (mkSpan st (end_ (pr_span ty)))))) in
  (if* andM (notM (ate TComma)) at_ident_colon then
     expected_here GrammarRule "expected `,` or `}` after field"
   else ret tt);;;
  ret (Some parsed).

(** A method among the fields: the loop goes on, or the list ends before it. *)
Definition method_among_fields : M (step unit unit) :=
  let* c := checkpoint in
  let* errors := errors_len in
  error_here "methods must be declared in an `extend Type { ... }` block";;;
  recover_to_member_boundary n (Some c);;;
  if* orM at_top_level_item_start (at_ TEof) then
    rewind c;;;
    truncate_errors errors;;;
    ret (Break tt)
  else ret (Continue tt).

(** Named fields of a struct or a union. *)
Definition field_list (open_message close_message : string) : M (option Parsed) :=
  node (
    let? open := expect TLBrace open_message in
    while n (andM (andM (notM (at_ TRBrace)) (notM (at_ TEof)))
               (notM at_top_level_item_boundary_except_fn))
      (if* at_ TFun then method_among_fields
       else
         let* c := checkpoint in
         if* okM field then ret (Continue tt)
         else (recover_to_member_boundary n (Some c);;; ret (Continue tt)));;;
    let? _ := expect TRBrace close_message in
    done_here KFieldList (start open)).

Definition struct_decl (is_extern : bool) : M (option Parsed) :=
  node (
    let* st := bump_start in
    let? _ := expect_name "expected struct name" in
    generic_params G;;;
    if* at_ TLParen then
      let? _ := tuple_field_list
        (if is_extern then Some "extern tuple structs are not supported"%string else None)
        "tuple struct requires at least one field; use `{}` for an empty struct"
        "expected `)` after tuple struct fields" in
      where_clause G;;;
      done_here KStructDecl st
    else
      where_clause G;;;
      let? _ := field_list "expected `{` after struct name" "expected `}` after struct body" in
      done_here KStructDecl st).

Definition union_decl : M (option Parsed) :=
  node (
    let* st := bump_start in
    let? _ := expect_name "expected union name" in
    generic_params G;;;
    where_clause G;;;
    let? _ := field_list "expected `{` after union name" "expected `}` after union body" in
    done_here KUnionDecl st).

(** ** Functions *)

Definition parameter_can_start : M bool :=
  orM (orM (at_ TAmp) (at_ TSelfValue)) at_ident_colon.

Definition receiver : M (option Parsed) :=
  node (
    let* st := current_start in
    let? _ :=
      (if* ate TAmp then (eat TMut;;; eat TSelfValue) else eat TSelfValue) in
    done_here KParam st).

Definition param : M (option Parsed) :=
  let* c := checkpoint in
  let* r := receiver in
  match r with
  | Some r => ret (Some r)
  | None =>
    rewind c;;;
    node (
      let* st := current_start in
      let? _ :=
        (if* notM (at_ TAmp) then
           let? _ := expect_name "expected parameter name" in
           let? _ := expect TColon "expected `:` after parameter name" in
           ret (Some tt)
         else ret (Some tt)) in
      let? ty := param_type G in
      ret (Some (done_new KParam (mkSpan st (end_ (pr_span ty))))))
  end.

Definition param_list : M (option Parsed) :=
  node (
    let? open := expect TLParen "expected `(` after function name" in
    while n (andM (notM (at_ TRParen)) (notM (at_ TEof)))
      (if* ate TEllipsis then ret (Break tt)
       else
         let* c := checkpoint in
         if* notM (okM param) then
           if* ate TComma then ret (Continue tt)
           else
             if* orM (orM (at_ TRParen) (at_ TLBrace)) (at_ TEof) then ret (Break tt)
             else (recover_to_list_boundary n c TRParen;;; ret (Continue tt))
         else
           if* ate TComma then ret (Continue tt)
           else
             if* orM (orM (at_ TRParen) (at_ TLBrace)) (at_ TEof) then ret (Break tt)
             else
               let* next := parameter_can_start in
               expected_here GrammarRule "expected `,` or `)` after parameter";;;
               if (next : bool) then ret (Continue tt)
               else (skip_until n [TRParen; TLBrace];;; ret (Break tt)));;;
    let? _ := expect TRParen "expected `)` after parameters" in
    done_here KParamList (start open)).

Definition function_decl (is_extern is_const : bool) : M (option Parsed) :=
  node (
    let* st := current_start in
    let? _ :=
      (if is_const then
         let? _ := expect TConst "expected `const`" in
         (if is_extern then error_here "extern function cannot be `const`" else ret tt);;;
         ret (Some tt)
       else ret (Some tt)) in
    let? _ := expect TFun "expected `fun`" in
    let? _ := expect_name "expected function name" in
    generic_params G;;;
    let? _ := param_list in
    let? _ :=
      (if* andM (andM (notM (at_ TWhere)) (notM (at_ TLBrace))) (notM (at_ TSemicolon)) then
         let? _ := type_until G [TWhere; TLBrace; TSemicolon] in ret (Some tt)
       else ret (Some tt)) in
    where_clause G;;;
    if* at_ TLBrace then
      let? body := block G in
      ret (Some (done_new KFunctionDecl (mkSpan st (end_ (pr_span body)))))
    else
      let? _ := expect TSemicolon "expected function body or `;`" in
      done_here KFunctionDecl st).

(** ** Members *)

(** [p.recover_in_error] around [collect_until], and whether it collected. *)
Definition collected_until (stops : list TokenKind) : M bool :=
  recover_in_error (okM (collect_until n stops)).

Definition assoc_type_decl (owner : MemberOwner) : M (option Parsed) :=
  node (
    let? kw := expect TType "expected `type`" in
    let? _ := expect_name "expected associated type name" in
    let? _ :=
      (if* ate TLBracket then
         error_here "associated type generics are not supported";;;
         if* notM (collected_until [TRBracket]) then ret None
         else
           let? _ := expect TRBracket "expected `]` after associated type generics" in ret (Some tt)
       else ret (Some tt)) in
    match owner with
    | TraitOwner =>
      let? _ := expect TSemicolon "expected `;` after associated type declaration" in
      done_here KAssocTypeDecl (start kw)
    | ExtendOwner =>
      let? _ := expect TEq "expected `=` in associated type definition" in
      let? _ := type_until G [TSemicolon] in
      let? _ := expect TSemicolon "expected `;` after associated type definition" in
      done_here KAssocTypeDecl (start kw)
    end).

Definition assoc_const_decl : M (option Parsed) :=
  node (
    let? kw := expect TConst "expected `const`" in
    (if* ate TMut then error_here "trait associated const declarations cannot be mutable"
     else ret tt);;;
    let? _ := expect_name "expected associated const name" in
    let? _ := expect TColon "expected `:` after associated const name" in
    let? _ := type_until G [TEq; TSemicolon] in
    let? _ :=
      (if* at_ TEq then
         recover_in_error (bump;;; ret tt);;;
         error_here "trait associated const declarations cannot have initializers";;;
         if* notM (collected_until [TSemicolon]) then ret None else ret (Some tt)
       else ret (Some tt)) in
    let? _ := expect TSemicolon "expected `;` after associated const declaration" in
    done_here KAssocConstDecl (start kw)).

(** An unexpected member is skipped up to the next one. *)
Definition skip_member (message : string) : M unit :=
  error_here message;;;
  let* c := checkpoint in
  recover_to_member_boundary n (Some c).

Definition no_attributes (attrs : Attributes) (message : string) : M unit :=
  if (0 <? at_count attrs)%nat then error_here message else ret tt.

(** The declaration of a trait member, after its attributes. *)
Definition trait_member_decl (attrs : Attributes) : M unit :=
  if* at_ TType then
    no_attributes attrs "attributes on trait associated types are not supported";;;
    assoc_type_decl TraitOwner;;;
    ret tt
  else if* orM (at_ TFun) at_const_fn then
    let* is_const := at_const_fn in
    function_decl false is_const;;;
    ret tt
  else if* at_ TConst then
    no_attributes attrs "attributes on trait associated values are not supported";;;
    assoc_const_decl;;;
    ret tt
  else
    skip_member "expected associated type, associated const value, or method in trait body".

Definition trait_member : M unit :=
  node (
    let* st := current_start in
    let* attrs := attributes G in
    (if* at_ TPub then
       recover_in_error (bump;;; ret tt);;;
       error_here "trait members cannot be marked `pub`"
     else ret tt);;;
    trait_member_decl attrs;;;
    done_here KMember st);;;
  ret tt.

(** The declaration of an extension member, after its visibility. *)
Definition extend_member_decl (attrs : Attributes) (public builtin : bool) : M unit :=
  if* at_ TType then
    no_attributes attrs "attributes on extend associated types are not supported";;;
    (if public then error_here "trait associated type definitions cannot be marked `pub`" else ret tt);;;
    assoc_type_decl ExtendOwner;;;
    ret tt
  else if* orM (at_ TFun) at_const_fn then
    let* is_const := at_const_fn in
    function_decl false is_const;;;
    ret tt
  else if* at_ TConst then
    no_attributes attrs "attributes on extend associated values are not supported";;;
    binding_decl_with G false false (Some builtin);;;
    ret tt
  else if* at_ TLet then
    skip_member "extend value members must be declared as `const` values"
  else
    skip_member "expected associated type, associated const value, or method in extend block".

Definition extend_member (builtin : bool) : M (option Parsed) :=
  node (
    let* st := current_start in
    let* attrs := attributes G in
    if* at_ TPub then
      let* v := visibility in
      match v with
      | (None, _) => ret None
      | (Some _, public) =>
        extend_member_decl attrs public builtin;;;
        done_here KMember st
      end
    else
      extend_member_decl attrs false builtin;;;
      done_here KMember st).

(** The members of a body: a malformed visibility aborts an extension. *)
Definition members (owner : MemberOwner) (builtin : bool) : M (option unit) :=
  loop n (λ _ : unit,
    if* andM (notM (at_ TRBrace)) (notM (at_ TEof)) then
      match owner with
      | TraitOwner => (trait_member;;; ret (Continue tt))
      | ExtendOwner =>
        if* okM (extend_member builtin) then ret (Continue tt) else ret (Break None)
      end
    else ret (Break (Some tt))) tt.

Definition member_list (owner : MemberOwner) (builtin : bool) : M (option Parsed) :=
  node (
    let? open := expect TLBrace
      (match owner with
       | TraitOwner => "expected `{` after trait name"
       | ExtendOwner => "expected `{` after extend target"
       end) in
    let? _ := members owner builtin in
    let? _ := expect TRBrace
      (match owner with
       | TraitOwner => "expected `}` after trait body"
       | ExtendOwner => "expected `}` after extend body"
       end) in
    done_here KMemberList (start open)).

(** One supertrait that did not parse as a plain type. *)
Definition supertrait_until : M (step unit unit) :=
  if* notM (okM (type_until G [TPlus; TComma; TWhere; TLBrace])) then
    if* ate TComma then ret (Continue tt) else ret (Break tt)
  else
    if* ate TPlus then ret (Continue tt)
    else
      if* ate TComma then
        error_here_as GrammarRule (bytes_of_string "expected `+` after supertrait");;;
        ret (Continue tt)
      else ret (Break tt).

Definition supertraits : M unit :=
  if* notM (at_ TColon) then ret tt
  else
    node (
      let* st := bump_start in
      while n (andM (andM (notM (at_ TWhere)) (notM (at_ TLBrace))) (notM (at_ TEof)))
        (let* c := checkpoint in
         let* errors := errors_len in
         if* andM (okM (type_ G))
               (orM (orM (orM (orM (at_ TPlus) (at_ TComma)) (at_ TWhere)) (at_ TLBrace)) at_type_start)
         then
           if* ate TPlus then ret (Continue tt)
           else if* ate TComma then
             error_here_as GrammarRule (bytes_of_string "expected `+` after supertrait");;;
             ret (Continue tt)
           else if* at_type_start then
             expected_here GrammarRule "expected `+` after supertrait";;;
             ret (Continue tt)
           else ret (Break tt)
         else
           rewind c;;;
           truncate_errors errors;;;
           supertrait_until);;;
      done_here KSupertraitList st);;;
    ret tt.

Definition trait_decl : M (option Parsed) :=
  node (
    let* st := bump_start in
    let? _ := expect_name "expected trait name" in
    generic_params G;;;
    supertraits;;;
    where_clause G;;;
    let? _ := member_list TraitOwner false in
    done_here KTraitDecl st).

Definition extend_generic_params : M unit :=
  let* c := checkpoint in
  let* errors := errors_len in
  let* count := generic_params G in
  if* (if (0 <? count)%nat then at_type_start else ret false) then ret tt
  else
    rewind c;;;
    truncate_errors errors.

Definition extend_decl (builtin : bool) : M (option Parsed) :=
  node (
    let* st := bump_start in
    extend_generic_params;;;
    let? _ := type_until G [TColon; TWhere; TLBrace] in
    let? _ :=
      (if* ate TColon then let? _ := type_until G [TWhere; TLBrace] in ret (Some tt)
       else ret (Some tt)) in
    where_clause G;;;
    let? _ := member_list ExtendOwner builtin in
    done_here KExtendDecl st).

(** ** Enums and aliases *)

Definition open_variant (is_open : bool) : M unit :=
  node (
    let* marker := bump in
    (if is_open then error_at marker "duplicate open enum marker" else ret tt);;;
    (if* ate TEq then
       g_expr_until G [TComma; TRBrace];;;
       error_at marker "open enum marker cannot have a value"
     else ret tt);;;
    eat TComma;;;
    (if* notM (at_ TRBrace) then error_at marker "open enum marker must be last" else ret tt);;;
    ret (Some (done_new KOpenVariant marker)));;;
  ret tt.

Definition variant_named_fields : M (option Parsed) :=
  node (
    let* st := bump_start in
    let* fields := loop n (λ fields : nat,
      if* andM (notM (at_ TRBrace)) (notM (at_ TEof)) then
        let* c := checkpoint in
        if* okM field then ret (Continue (S fields))
        else (recover_to_member_boundary n (Some c);;; ret (Continue fields))
      else ret (Break fields)) 0%nat in
    (if (fields =? 0)%nat
     then error_here "named enum variant requires at least one payload field" else ret tt);;;
    let? _ := expect TRBrace "expected `}` after enum variant payload" in
    done_here KFieldList st).

Definition variant : M (option Parsed) :=
  node (
    let* st := bump_start in
    let? _ :=
      (if* at_ TLParen then
         let? _ := tuple_field_list None "tuple enum variant requires at least one payload type"
                     "expected `)` after enum variant payload" in ret (Some tt)
       else if* at_ TLBrace then
         let? _ := variant_named_fields in ret (Some tt)
       else ret (Some tt)) in
    let* en := previous_end in
    let? en :=
      (if* ate TEq then
         let? e := g_expr_until G [TComma; TRBrace] in ret (Some (end_ (pr_span e)))
       else ret (Some en)) in
    ret (Some (done_new KVariant (mkSpan st en)))).

(** The variants of an enum; the state is whether the open marker was seen. *)
Definition variants : M (option unit) :=
  loop n (λ is_open : bool,
    if* andM (andM (notM (at_ TRBrace)) (notM (at_ TEof))) (notM at_top_level_item_keyword) then
      if* at_ TUnderscore then
        open_variant is_open;;;
        ret (Continue true)
      else
        let* c := checkpoint in
        if* notM (at_ TIdent) then
          expected_here ExpectedName "expected enum variant";;;
          (if* notM (at_ TRBrace) then recover_to_list_boundary n c TRBrace else ret tt);;;
          ret (Continue is_open)
        else
          if* okM variant then
            (if* andM (notM (ate TComma)) (at_ TIdent)
             then expected_here GrammarRule "expected `,` or `}` after enum variant" else ret tt);;;
            ret (Continue is_open)
          else ret (Break None)
    else ret (Break (Some tt))) false.

Definition variant_list : M (option Parsed) :=
  node (
    let? open := expect TLBrace "expected `{` after enum name" in
    let? _ := variants in
    let? _ := expect TRBrace "expected `}` after enum body" in
    done_here KVariantList (start open)).

Definition enum_decl : M (option Parsed) :=
  node (
    let* st := bump_start in
    let? _ := expect_name "expected enum name" in
    let? _ :=
      (if* ate TColon then let? _ := type_until G [TLBrace] in ret (Some tt) else ret (Some tt)) in
    let? _ := variant_list in
    done_here KEnumDecl st).

Definition type_alias_decl (builtin : bool) : M (option Parsed) :=
  node (
    let* st := bump_start in
    let? _ :=
      (if* (if builtin then at_any [TBool; TChar; TNever] else ret false) then
         bump;;;
         ret (Some tt)
       else let? _ := expect_name "expected type alias name" in ret (Some tt)) in
    generic_params G;;;
    where_clause G;;;
    let? _ :=
      (if* ate TEq then let? _ := type_until G [TSemicolon] in ret (Some tt)
       else if negb builtin then
         let* en := previous_end in
         error_at (mkSpan st en) "expected `=` in type alias";;;
         ret None
       else ret (Some tt)) in
    let? _ := expect TSemicolon "expected `;` after type alias" in
    done_here KTypeAliasDecl st).

(** ** Items *)

Definition extern_item : M (option Parsed) :=
  bump;;;
  if* at_ TStruct then struct_decl true
  else if* at_ TUnion then union_decl
  else if* at_ TFun then function_decl true false
  else if* at_ TStatic then binding_decl G true true
  else
    error_here "expected `struct`, `union`, `fun`, or `static` after `extern`";;;
    ret None.

Definition item_decl (builtin has_visibility : bool) : M (option Parsed) :=
  if* at_ TModule then module_decl
  else if* at_ TUsing then using_decl
  else if* at_ TExtern then extern_item
  else if* at_ TStruct then struct_decl false
  else if* at_ TUnion then union_decl
  else if* at_ TTrait then trait_decl
  else if* at_ TExtend then
    (if has_visibility
     then error_here "`extend` blocks do not have visibility; mark members individually" else ret tt);;;
    extend_decl builtin
  else if* at_ TEnum then enum_decl
  else if* at_ TType then type_alias_decl builtin
  else if* orM (at_ TFun) at_const_fn then
    let* is_const := at_const_fn in
    function_decl false is_const
  else if* orM (at_ TConst) (at_ TStatic) then binding_decl G false (negb builtin)
  else if* at_ TLet then
    error_here "top-level storage declarations use `static`; `let` is local-only";;;
    ret None
  else
    error_here "expected item";;;
    ret None.

Definition item : M (option Parsed) :=
  node (
    let* attrs := attributes G in
    let* st := item_start attrs in
    let* has_visibility := at_ TPub in
    let* visible :=
      (if (has_visibility : bool) then
         let* v := visibility in ret (present (fst v))
       else ret true) in
    if (visible : bool) then
      let? _ := item_decl (at_builtin attrs) has_visibility in
      done_here KItem st
    else ret None).

(** Parses items until EOF or until [resync] accepts the start of the next one;
    returns whether it resynchronized, and the iterations. *)
Definition source_file (resync : nat → bool) (iterations : list Iteration) : M (bool * list Iteration) :=
  loop n (λ iterations : list Iteration,
    if* notM (at_ TEof) then
      let* here := current_start in
      if resync here then ret (Break (true, iterations))
      else
        let* st := gets p_pos in
        begin_iteration;;;
        let* c := checkpoint in
        (if* okM item then ret tt else recover_to_item_boundary n c);;;
        let* it := iteration st in
        ret (Continue (iterations ++ [it]))
    else ret (Break (false, iterations))) iterations.
End Items.

(** ** The recursive knot *)

Fixpoint grammar (n : nat) : Grammar :=
  match n with
  | O => mkGrammar 1 (λ _, out_of_fuel) (λ _, out_of_fuel) (λ _, out_of_fuel) (λ _ _, out_of_fuel)
           (λ _, out_of_fuel) out_of_fuel (λ _, out_of_fuel) (λ _, out_of_fuel) (λ _, out_of_fuel)
           (λ _, out_of_fuel) (λ _ _, out_of_fuel) out_of_fuel out_of_fuel
  | S n =>
    let G := grammar n in
    mkGrammar (S (S n)) (type_with_mode G) (optional_type G) (assignment_until G) (binary_until G)
      (unary_until G) (if_expr G) (condition_until G) (condition_unary G)
      (irrefutable_pattern_until G) (pattern_until G) (atom G) (stmt G) (using_group G)
  end.

(** Contracts are found by the name of the operation. *)
#[global] Typeclasses Opaque visibility module_decl using_decl tuple_field tuple_field_list field
  method_among_fields field_list struct_decl union_decl parameter_can_start receiver param
  param_list function_decl collected_until assoc_type_decl assoc_const_decl skip_member
  no_attributes trait_member_decl trait_member extend_member_decl extend_member members member_list
  supertrait_until supertraits trait_decl extend_generic_params extend_decl open_variant
  variant_named_fields variant variants variant_list enum_decl type_alias_decl extern_item
  item_decl item source_file.
