(* ===== verification/GrammarItemsFacts.v ===== *)
(** * nia-syntax: contracts of items and of the whole grammar *)

From S2P Require Import Prelude RustStd Lexer LexerProps SyntaxKind GreenTree GreenTreeProps GrammarParser GrammarLogic GrammarRules GrammarWp GrammarRecover GrammarTactics GrammarRecoverFacts GrammarTypes GrammarContracts GrammarTypesFacts GrammarExprs GrammarExprsFacts GrammarPatterns GrammarStmtsFacts GrammarStmts GrammarItems.

(** A loop that counts while it extends the state. *)
Ltac counting :=
  lazymatch goal with
  | |- wp ?E (loop _ _ _) _ _ =>
    apply (wp_loop_ext E (λ _ _, True));
      [eassumption|solve_pos|intros ? ? ?; learn; intros _; run|intros; learn; run]
  end.

Section ItemContracts.
Context (E : Env) {HE : EnvOk E} {HT : Tame E} (n : nat) (G : Grammar) {HG : GrammarOk E n G}.

#[global] Instance visibility_spec :
  Spec E visibility (λ c, kind_at E (c_pos c) = TPub) (λ c r c', Ext E c c' ∧ (c_pos c < c_pos c')%nat).
Proof. intros c Hc Hk. unfold visibility. run. Qed.

#[global] Instance module_decl_spec : Spec E module_decl (λ c, kind_at E (c_pos c) = TModule) (Prod E never).
Proof. intros c Hc Hk. unfold module_decl. run. Qed.

#[global] Instance using_decl_spec :
  Spec E (using_decl G) (λ c, Within E (S n) c ∧ kind_at E (c_pos c) = TUsing) (Prod E never).
Proof.
  intros c Hc [Hn Hk]. unfold using_decl. run.
Qed.

(** ** Fields *)

#[global] Instance tuple_field_spec :
  Spec E (tuple_field G) (Within E (S n)) (Prod E never).
Proof.
  intros c Hc Hn. unfold tuple_field. run.
Qed.

#[global] Instance tuple_field_list_spec o e cl :
  Spec E (tuple_field_list G o e cl) (λ c, Within E (S n) c ∧ kind_at E (c_pos c) = TLParen) (Prod E (λ _, True)).
Proof.
  intros c Hc [Hn Hk]. pose proof (fuel_eq E n G). unfold tuple_field_list. run; counting.
Qed.

#[global] Instance field_spec :
  Spec E (field G) (Within E (S n)) (λ c o c', Ext E c c' ∧ (is_Some o → (c_pos c < c_pos c')%nat)).
Proof.
  intros c Hc Hn. pose proof (fuel_eq E n G). unfold field. run.
Qed.

#[global] Instance method_among_fields_spec :
  Spec E (method_among_fields G) (λ c, Within E (S n) c ∧ kind_at E (c_pos c) = TFun)
    (λ c r c', Ext E c c' ∧ match r with Continue _ => (c_pos c < c_pos c')%nat | Break _ => True end).
Proof. intros c Hc [Hn Hk]. pose proof (fuel_eq E n G). unfold method_among_fields. run. Qed.

#[global] Instance field_list_spec o cl :
  Spec E (field_list G o cl) (Within E (S n)) (Prod E never).
Proof.
  intros c Hc Hn. pose proof (fuel_eq E n G). unfold field_list. run.
Qed.

#[global] Instance struct_decl_spec b :
  Spec E (struct_decl G b) (λ c, Within E (S n) c ∧ kind_at E (c_pos c) = TStruct) (Prod E never).
Proof.
  intros c Hc [Hn Hk]. unfold struct_decl. run.
Qed.

#[global] Instance union_decl_spec :
  Spec E (union_decl G) (λ c, Within E (S n) c ∧ kind_at E (c_pos c) = TUnion) (Prod E never).
Proof.
  intros c Hc [Hn Hk]. unfold union_decl. run.
Qed.

(** ** Functions *)

#[global] Instance parameter_can_start_spec : Spec E parameter_can_start (λ _, True) (λ c _ c', c' = c).
Proof. intros c Hc _. unfold parameter_can_start. run. Qed.

#[global] Instance receiver_spec : Spec E receiver (λ _, True) (Prod E never).
Proof. intros c Hc _. unfold receiver. run. Qed.

#[global] Instance param_spec :
  Spec E (param G) (Within E (S n)) (Prod E never).
Proof.
  intros c Hc Hn. unfold param. run.
Qed.

#[global] Instance param_list_spec :
  Spec E (param_list G) (Within E (S n)) (Prod E never).
Proof.
  intros c Hc Hn. pose proof (fuel_eq E n G). unfold param_list. run.
Qed.

#[global] Instance function_decl_spec is_extern is_const :
  Spec E (function_decl G is_extern is_const) (Within E (S n))
    (Prod E (λ i, kind_at E i = if is_const : bool then TConst else TFun)).
Proof. intros c Hc Hn. unfold function_decl. run. Qed.

(** ** Members *)

#[global] Instance collected_until_spec stops :
  Spec E (collected_until G stops) (Within E (S n))
    (λ c _ c', Ext E c c').
Proof. intros c Hc Hn. pose proof (fuel_eq E n G). unfold collected_until. run. Qed.

#[global] Instance assoc_type_decl_spec owner :
  Spec E (assoc_type_decl G owner) (Within E (S n))
    (Prod E (λ i, kind_at E i = TType)).
Proof. intros c Hc Hn. pose proof (fuel_eq E n G). unfold assoc_type_decl. run. Qed.

#[global] Instance assoc_const_decl_spec :
  Spec E (assoc_const_decl G) (Within E (S n))
    (Prod E (λ i, kind_at E i = TConst)).
Proof. intros c Hc Hn. pose proof (fuel_eq E n G). unfold assoc_const_decl. run. Qed.

#[global] Instance skip_member_spec m :
  Spec E (skip_member G m) (Within E (S n))
    (λ c _ c', Ext E c c' ∧ (kind_at E (c_pos c) ≠ TEof → (c_pos c < c_pos c')%nat)).
Proof. intros c Hc Hn. pose proof (fuel_eq E n G). unfold skip_member. run. Qed.

#[global] Instance no_attributes_spec a m :
  Spec E (no_attributes a m) (λ _, True)
    (λ c _ c', c' = c).
Proof. intros c Hc _. unfold no_attributes. run. Qed.

(** A declaration that starts on its keyword takes it. *)
Ltac keyword_progress :=
  match goal with
  | H : kind_at _ _ = _ → (_ < _)%nat |- (_ < _)%nat =>
    apply H; first [congruence|repeat case_bool_decide; simpl in *; congruence]
  end.

#[global] Instance trait_member_decl_spec a :
  Spec E (trait_member_decl G a) (Within E (S n))
    (λ c _ c', Ext E c c' ∧ (kind_at E (c_pos c) ≠ TEof → (c_pos c < c_pos c')%nat)).
Proof. intros c Hc Hn. pose proof (fuel_eq E n G). unfold trait_member_decl. run; keyword_progress. Qed.

(** Progress of a later step that takes a token off EOF. *)
Ltac later_token :=
  match goal with
  | H : kind_at ?E (c_pos ?c1) ≠ TEof → (c_pos ?c1 < _)%nat, K : kind_at ?E (c_pos ?c) ≠ TEof |- (c_pos ?c < _)%nat =>
    destruct (decide (c_pos c1 = c_pos c)) as [Heq|]; [rewrite Heq in H; specialize (H K)|]; pos_lia
  end.

#[global] Instance trait_member_spec :
  Spec E (trait_member G) (λ c, Within E (S n) c ∧ kind_at E (c_pos c) ≠ TEof)
    (λ c _ c', Ext E c c' ∧ (c_pos c < c_pos c')%nat).
Proof. intros c Hc [Hn Hk]. pose proof (fuel_eq E n G). unfold trait_member. run; later_token. Qed.

#[global] Instance extend_member_decl_spec a p b :
  Spec E (extend_member_decl G a p b) (Within E (S n))
    (λ c _ c', Ext E c c' ∧ (kind_at E (c_pos c) ≠ TEof → (c_pos c < c_pos c')%nat)).
Proof. intros c Hc Hn. pose proof (fuel_eq E n G). unfold extend_member_decl. run; keyword_progress. Qed.

#[global] Instance extend_member_spec b :
  Spec E (extend_member G b) (λ c, Within E (S n) c ∧ kind_at E (c_pos c) ≠ TEof)
    (Prod E never).
Proof. intros c Hc [Hn Hk]. pose proof (fuel_eq E n G). unfold extend_member. run; later_token. Qed.

#[global] Instance members_spec owner b :
  Spec E (members G owner b) (Within E (S n))
    (λ c _ c', Ext E c c').
Proof. intros c Hc Hn. pose proof (fuel_eq E n G). unfold members. destruct owner; counting. Qed.

#[global] Instance member_list_spec owner b :
  Spec E (member_list G owner b) (Within E (S n))
    (Prod E never).
Proof. intros c Hc Hn. pose proof (fuel_eq E n G). unfold member_list. run. Qed.

#[global] Instance supertrait_until_spec :
  Spec E (supertrait_until G) (Within E (S n))
    (λ c r c', Ext E c c' ∧ match r with Continue _ => (c_pos c < c_pos c')%nat | Break _ => True end).
Proof. intros c Hc Hn. unfold supertrait_until. run. Qed.

#[global] Instance supertraits_spec :
  Spec E (supertraits G) (Within E (S n))
    (λ c _ c', Ext E c c').
Proof. intros c Hc Hn. pose proof (fuel_eq E n G). unfold supertraits. unfold type_. run. Qed.

#[global] Instance trait_decl_spec :
  Spec E (trait_decl G) (λ c, Within E (S n) c ∧ kind_at E (c_pos c) = TTrait)
    (Prod E never).
Proof. intros c Hc [Hn Hk]. pose proof (fuel_eq E n G). unfold trait_decl. run. Qed.

#[global] Instance extend_generic_params_spec :
  Spec E (extend_generic_params G) (Within E (S n))
    (λ c _ c', Ext E c c').
Proof. intros c Hc Hn. pose proof (fuel_eq E n G). unfold extend_generic_params. run. Qed.

#[global] Instance extend_decl_spec b :
  Spec E (extend_decl G b) (λ c, Within E (S n) c ∧ kind_at E (c_pos c) = TExtend)
    (Prod E never).
Proof. intros c Hc [Hn Hk]. pose proof (fuel_eq E n G). unfold extend_decl. run. Qed.

(** ** Enums and aliases *)

#[global] Instance open_variant_spec b :
  Spec E (open_variant G b) (λ c, Within E (S n) c ∧ kind_at E (c_pos c) = TUnderscore)
    (λ c _ c', Ext E c c' ∧ (c_pos c < c_pos c')%nat).
Proof. intros c Hc [Hn Hk]. pose proof (fuel_eq E n G). unfold open_variant. run. Qed.

#[global] Instance variant_named_fields_spec :
  Spec E (variant_named_fields G) (λ c, Within E (S n) c ∧ kind_at E (c_pos c) = TLBrace)
    (Prod E (λ _, True)).
Proof. intros c Hc [Hn Hk]. pose proof (fuel_eq E n G). unfold variant_named_fields. run; counting. Qed.

#[global] Instance variant_spec :
  Spec E (variant G) (λ c, Within E (S n) c ∧ kind_at E (c_pos c) = TIdent)
    (Prod E (λ _, True)).
Proof. intros c Hc [Hn Hk]. pose proof (fuel_eq E n G). unfold variant. run. Qed.

#[global] Instance variants_spec :
  Spec E (variants G) (Within E (S n))
    (λ c _ c', Ext E c c').
Proof. intros c Hc Hn. pose proof (fuel_eq E n G). unfold variants. counting. Qed.

#[global] Instance variant_list_spec :
  Spec E (variant_list G) (Within E (S n))
    (Prod E never).
Proof. intros c Hc Hn. pose proof (fuel_eq E n G). unfold variant_list. run. Qed.

#[global] Instance enum_decl_spec :
  Spec E (enum_decl G) (λ c, Within E (S n) c ∧ kind_at E (c_pos c) = TEnum)
    (Prod E never).
Proof. intros c Hc [Hn Hk]. pose proof (fuel_eq E n G). unfold enum_decl. run. Qed.

#[global] Instance type_alias_decl_spec b :
  Spec E (type_alias_decl G b) (λ c, Within E (S n) c ∧ kind_at E (c_pos c) = TType)
    (Prod E never).
Proof. intros c Hc [Hn Hk]. pose proof (fuel_eq E n G). unfold type_alias_decl. run. Qed.

(** ** Items *)

#[global] Instance extern_item_spec :
  Spec E (extern_item G) (λ c, Within E (S n) c ∧ kind_at E (c_pos c) = TExtern)
    (λ c o c', Ext E c c' ∧ (is_Some o → (c_pos c < c_pos c')%nat)).
Proof. intros c Hc [Hn Hk]. pose proof (fuel_eq E n G). unfold extern_item. run. Qed.

#[global] Instance item_decl_spec b v :
  Spec E (item_decl G b v) (Within E (S n))
    (λ c o c', Ext E c c' ∧ (is_Some o → (c_pos c < c_pos c')%nat)).
Proof. intros c Hc Hn. pose proof (fuel_eq E n G). unfold item_decl. run. Qed.

#[global] Instance item_spec :
  Spec E (item G) (Within E (S n))
    (Prod E never).
Proof. intros c Hc Hn. pose proof (fuel_eq E n G). unfold item. run. Qed.

(** The items of a source file are read up to EOF, or up to a resynchronization. *)
#[global] Instance source_file_spec resync its :
  Spec E (source_file G resync its) (Within E (S n))
    (λ c r c', Ext E c c' ∧ (fst r = false → kind_at E (c_pos c') = TEof)).
Proof.
  intros c Hc Hn. pose proof (fuel_eq E n G). unfold source_file.
  apply (wp_loop_ext E (λ r c', fst r = false → kind_at E (c_pos c') = TEof)); [done|pos_lia| |intros; learn; go].
  intros l cl Hx. learn. intros _. run.
  apply (wp_gets_pos E). use wp_bind. use wp_begin_iteration; [done|]. run.
  all: use wp_iteration; intros it; run.
Qed.
End ItemContracts.

(** ** The whole grammar *)

Lemma out_of_fuel_ok E {A} (pre : Core → Prop) (post : Core → A → Core → Prop) :
  (∀ c, pre c → Within E 0 c) → Spec E out_of_fuel pre post.
Proof.
  intros Hpre c Hc Hn%Hpre. apply (wp_out_of_fuel E). destruct (total E) eqn:Ht; [|done].
  specialize (Hn Ht). pose proof (inv_pos _ _ Hc). lia.
Qed.

(** Enough fuel for the tokens that are left keeps every contract. *)
#[global] Instance grammar_ok E {HE : EnvOk E} {HT : Tame E} n : GrammarOk E n (grammar n).
Proof.
  induction n as [|n IH].
  - constructor; cbn [grammar g_fuel]; [done|intros; apply out_of_fuel_ok; tauto..].
  - constructor; cbn [grammar g_fuel g_type_with_mode g_optional_type g_assignment_until g_binary_until
      g_unary_until g_if_expr g_condition_until g_condition_unary g_irrefutable_pattern_until
      g_pattern_until g_atom g_stmt g_using_group]; [done|intros; apply _ ..].
Qed.
