(* ===== verification/GrammarResolve.v ===== *)
(** * nia-syntax: the resolution of forward parents

    A start event may name a parent that was pushed after it.  Resolution emits
    such parents first.  It keeps tokens and finishes in place and moves starts only
    to the front, so nesting events stay nesting, and a production gets exactly one
    root. *)

From S2P Require Import Prelude RustStd Lexer LexerProps SyntaxKind GreenTree GreenTreeProps GrammarParser GrammarLogic.

Notation ENone := (EStart None None).

(** ** Paths of forward parents *)

(** The positions visited from the start at [i] with link [next]. *)
Inductive path (l : list Event) : nat → option nat → list nat → Prop :=
  | path_nil i : path l i None []
  | path_cons i off k fp ps :
      (0 < off)%nat → l !! (i + off)%nat = Some (EStart k fp) → path l (i + off) fp ps →
      path l i (Some off) ((i + off)%nat :: ps).

Definition kind_of (l : list Event) (i : nat) : option SyntaxKind :=
  match l !! i with Some (EStart k _) => k | _ => None end.

(** The list after the starts at [ps] were taken out. *)
Definition erase (ps : list nat) (l : list Event) : list Event :=
  foldl (λ l p, <[p := ENone]> l) l ps.

Lemma erase_cons p ps l : erase (p :: ps) l = erase ps (<[p := ENone]> l).
Proof. done. Qed.

Lemma erase_length ps l : length (erase ps l) = length l.
Proof.
  revert l. induction ps as [|p ps IH]; intros l; simpl; [done|]. by rewrite IH, length_insert.
Qed.

Lemma erase_lookup ps l i :
  (i < length l)%nat → erase ps l !! i = if decide (i ∈ ps) then Some ENone else l !! i.
Proof.
  revert l. induction ps as [|p ps IH]; intros l Hi.
  { rewrite decide_False; [done|]. apply not_elem_of_nil. }
  rewrite erase_cons, IH by (by rewrite length_insert). destruct (decide (i ∈ ps)) as [Hin|Hin].
  { by rewrite decide_True by (by apply elem_of_cons; right). }
  destruct (decide (i = p)) as [->|Hne].
  - rewrite decide_True by (by apply elem_of_cons; left). by rewrite list_lookup_insert_eq.
  - rewrite decide_False by (by rewrite not_elem_of_cons). by rewrite list_lookup_insert_ne.
Qed.

Lemma path_bounds l i next ps : path l i next ps → Forall (λ p, (i < p)%nat ∧ (p < length l)%nat) ps.
Proof.
  induction 1 as [|i off k fp ps Ho Hl _ IH]; constructor.
  - split; [lia|]. by eapply lookup_lt_Some.
  - eapply Forall_impl; [done|]. simpl. lia.
Qed.

Lemma path_above l i next ps p : path l i next ps → p ∈ ps → (i < p)%nat.
Proof. intros Hp Hin. apply path_bounds in Hp. rewrite Forall_forall in Hp. by apply Hp. Qed.

Lemma path_nodup l i next ps : path l i next ps → NoDup ps.
Proof.
  induction 1 as [|i off k fp ps Ho Hl Hp IH]; constructor; [|done].
  intros Hin. eapply path_above in Hin; [|done]. lia.
Qed.

(** What lies before the path does not matter to it. *)
Lemma path_insert l i next ps j x : path l i next ps → (j ≤ i)%nat → path (<[j := x]> l) i next ps.
Proof.
  intros Hp. revert j x. induction Hp as [|i off k fp ps Ho Hl Hp IH]; intros j x Hj; [constructor|].
  econstructor; [done| |apply IH; lia]. rewrite list_lookup_insert_ne by lia. done.
Qed.

Lemma path_exists l i next :
  links_ok l → (∀ off, next = Some off → (0 < off)%nat ∧ ∃ e, l !! (i + off)%nat = Some e ∧ is_start e) →
  ∃ ps, path l i next ps.
Proof.
  intros Hl. remember (length l - i)%nat as m eqn:Hm. revert i next Hm.
  induction (lt_wf m) as [m _ IH]. intros i next Hm Hn.
  destruct next as [off|]; [|by eexists; constructor].
  destruct (Hn off eq_refl) as (Ho&e&He&Hs). destruct e as [k fp| |]; [|done..].
  pose proof (lookup_lt_Some _ _ _ He) as Hlt.
  destruct (IH (length l - (i + off))%nat ltac:(lia) (i + off)%nat fp eq_refl) as [ps Hps].
  { intros off' ->. by apply (Hl _ k off'). }
  eexists. by econstructor.
Qed.

Lemma kind_of_insert l p x (ps : list nat) : p ∉ ps → kind_of (<[p := x]> l) <$> ps = kind_of l <$> ps.
Proof.
  intros Hp. apply list_fmap_ext. intros j q Hq. unfold kind_of. rewrite list_lookup_insert_ne; [done|].
  intros <-. apply Hp. by eapply list_elem_of_lookup_2.
Qed.

(** [forward_chain] collects the kinds along the path and takes the starts out. *)
Lemma forward_chain_path fuel pre l l2 i next ps chain :
  path l i next ps → (length l ≤ i + fuel)%nat →
  forward_chain fuel (pre ++ l ++ l2) (length pre + i) next chain
    = Some (chain ++ (kind_of l <$> ps), pre ++ erase ps l ++ l2).
Proof.
  revert l i next fuel chain. induction ps as [|p ps IH]; intros l i next fuel chain Hp Hf.
  { inversion Hp; subst. destruct fuel; simpl; by rewrite app_nil_r. }
  inversion Hp as [|? off k fp ? Ho Hl Hp']; subst. pose proof (lookup_lt_Some _ _ _ Hl) as Hlt.
  destruct fuel as [|fuel]; [lia|]. cbn [forward_chain].
  replace (length pre + i + off)%nat with (length pre + (i + off))%nat by lia.
  rewrite lookup_app_r, Nat.add_comm, Nat.add_sub, lookup_app_l, Hl by lia. simpl.
  rewrite Nat.add_comm, insert_app_r, insert_app_l by done.
  rewrite IH; [|by apply path_insert|rewrite length_insert; lia].
  rewrite kind_of_insert, <-app_assoc; [|intros Hin; eapply path_above in Hin; [|done]; lia].
  simpl. unfold kind_of at 2. by rewrite Hl.
Qed.

(** ** Nesting *)

(** A start that is emitted earlier leaves one more level open before its place. *)
Lemma bal_erase d l p :
  bal d l = true → bal (d + length (omap id [kind_of l p])) (<[p := ENone]> l) = true ∨
  ∀ k fp, l !! p ≠ Some (EStart k fp).
Proof.
  destruct (l !! p) as [[k fp| |]|] eqn:Hp; [|right; congruence..]. intros Hb. left.
  unfold kind_of. rewrite Hp. assert (∃ l1 l2, l = l1 ++ EStart k fp :: l2 ∧ length l1 = p) as (l1&l2&->&Hlen).
  { exists (take p l), (drop (S p) l). split; [by rewrite take_drop_middle|].
    rewrite length_take. apply lookup_lt_Some in Hp. lia. }
  rewrite <-Hlen, <-(Nat.add_0_r (length l1)), insert_app_r. clear Hlen Hp. simpl.
  revert d Hb. induction l1 as [|e l1 IH]; intros d Hb; simpl in *.
  - destruct k; simpl; [by rewrite Nat.add_1_r|by rewrite Nat.add_0_r].
  - destruct e as [[]| |]; [by apply (IH (S d))|by apply IH| |by apply IH].
    destruct d as [|d]; [done|]. by apply IH.
Qed.

Lemma bal_erase_path d l i next ps :
  path l i next ps → bal d l = true → bal (d + length (omap id (kind_of l <$> ps))) (erase ps l) = true.
Proof.
  intros Hp. revert d l i next Hp. induction ps as [|p ps IH]; intros d l i next Hp Hb.
  { simpl. by rewrite Nat.add_0_r. }
  inversion Hp as [|? off k fp ? Ho Hl Hp']; subst. rewrite erase_cons.
  destruct (bal_erase d l (i + off) Hb) as [Hb'|Hn]; [|by destruct (Hn k fp)].
  eapply IH in Hb'; [|by apply path_insert]. rewrite kind_of_insert in Hb'.
  - rewrite <-Hb'. f_equal. csimpl. destruct (kind_of l (i + off)); simpl; lia.
  - intros Hin. eapply path_above in Hin; [|done]. lia.
Qed.

Lemma links_ok_erase l p k fp :
  links_ok l → l !! p = Some (EStart k fp) → links_ok (<[p := ENone]> l).
Proof.
  intros Hl Hp i k0 off Hi. pose proof (lookup_lt_Some _ _ _ Hp) as Hlt.
  destruct (decide (i = p)) as [->|Hne]; [by rewrite list_lookup_insert_eq in Hi|].
  rewrite list_lookup_insert_ne in Hi by done. destruct (Hl _ _ _ Hi) as (Ho&e&He&Hs). split; [done|].
  destruct (decide (i + off = p)%nat) as [->|Hne'].
  - rewrite list_lookup_insert_eq by done. by eexists.
  - rewrite list_lookup_insert_ne by done. by eexists.
Qed.

(** What else taking out the starts of a path keeps. *)
Lemma erase_path_keeps l i next ps :
  path l i next ps →
  (links_ok l → links_ok (erase ps l)) ∧
  token_indices (erase ps l) = token_indices l ∧
  (forallb kind_ok l = true → forallb kind_ok (erase ps l) = true ∧
     Forall (λ k, is_node_kind k = true) (omap id (kind_of l <$> ps))).
Proof.
  revert l i next. induction ps as [|p ps IH]; intros l i next Hp.
  { split_and!; [done|done|]. intros; split; [done|constructor]. }
  inversion Hp as [|? off k fp ? Ho Hl Hp']; subst. rewrite erase_cons.
  destruct (IH (<[(i + off)%nat := ENone]> l) (i + off)%nat fp) as (IH1&IH2&IH3); [by apply path_insert|].
  rewrite kind_of_insert in IH3 by (intros Hin; eapply path_above in Hin; [|done]; lia).
  assert (l = take (i + off) l ++ EStart k fp :: drop (S (i + off)) l) as El
    by (by rewrite take_drop_middle).
  assert (<[(i + off)%nat := ENone]> l = take (i + off) l ++ ENone :: drop (S (i + off)) l) as Ei.
  { apply lookup_lt_Some in Hl. by rewrite insert_take_drop. }
  split_and!.
  - intros Hlk. by eapply IH1, links_ok_erase.
  - rewrite IH2, Ei. rewrite El at 3. by rewrite !token_indices_app.
  - intros Hk. rewrite El, forallb_app in Hk. apply andb_true_iff in Hk as [Hk1 Hk2]. simpl in Hk2.
    apply andb_true_iff in Hk2 as [Hk2 Hk3]. destruct IH3 as [IH3 IH4].
    { by rewrite Ei, forallb_app, Hk1. }
    split; [done|]. csimpl. unfold kind_of at 1. rewrite Hl. destruct k; simpl; [by constructor|done].
Qed.

(** ** Segments *)

Lemma erase_head ps x l :
  Forall (λ p, (0 < p)%nat) ps → erase ps (x :: l) = x :: erase (pred <$> ps) l.
Proof.
  intros Hps. revert x l. induction Hps as [|p ps Hp _ IH]; intros x l; [done|].
  destruct p as [|p]; [lia|]. rewrite fmap_cons, !erase_cons. apply (IH x (<[p := ENone]> l)).
Qed.

Lemma links_ok_tail e l : links_ok (e :: l) → links_ok l.
Proof. intros H i k off Hi. apply (H (S i) k off Hi). Qed.

Lemma nested_starts d ks out :
  nested d (chain_starts ks ++ out) = nested (d + length (omap id ks)) out.
Proof.
  unfold chain_starts. assert (length (omap id (reverse ks)) = length (omap id ks)) as <-.
  { induction ks as [|k ks IH]; [done|]. rewrite reverse_cons, omap_app, length_app, IH.
    csimpl. destruct k; simpl; lia. }
  generalize (omap id (reverse ks)). clear. intros l. revert d.
  induction l as [|k l IH]; intros d; simpl; [by rewrite Nat.add_0_r|].
  rewrite IH. f_equal. lia.
Qed.

Lemma event_tokens_starts ks out : event_tokens (chain_starts ks ++ out) = event_tokens out.
Proof.
  unfold chain_starts, event_tokens. rewrite omap_app. generalize (omap id (reverse ks)).
  intros l. by induction l.
Qed.

Lemma starts_kind_ok ks out :
  Forall (λ k, is_node_kind k = true) (omap id ks) → forallb event_kind_ok out = true →
  forallb event_kind_ok (chain_starts ks ++ out) = true.
Proof.
  intros Hk Ho. rewrite forallb_app, Ho, andb_true_r. unfold chain_starts.
  assert (Forall (λ k, is_node_kind k = true) (omap id (reverse ks))) as Hr.
  { rewrite Forall_forall in *. intros k Hin. apply Hk. rewrite list_elem_of_omap in *.
    destruct Hin as (o&Ho'&?). exists o. split; [|done]. by rewrite elem_of_reverse in Ho'. }
  induction Hr as [|k l Hk' Hr IH]; [done|]. simpl. by rewrite Hk'.
Qed.

(** A segment whose links stay inside it resolves on its own: what it emits nests as
    the segment does, and the events after it are untouched. *)
Lemma resolve_segment tokens n l pre l2 d ts :
  length l = n → bal d l = true → links_ok l → forallb kind_ok l = true →
  mapM (λ i, tokens !! i) (token_indices l) = Some ts →
  ∃ out pre', length pre' = (length pre + n)%nat ∧ nested d out = true ∧ event_tokens out = ts ∧
    forallb event_kind_ok out = true ∧
    ∀ m, resolve_from (n + m) (length pre) tokens (pre ++ l ++ l2)
      = (rest ← resolve_from m (length pre') tokens (pre' ++ l2); Some (out ++ rest)).
Proof.
  revert l pre d ts. induction n as [|n IH]; intros l pre d ts Hn Hb Hl Hk Ht.
  { destruct l; [|done]. simpl in *. exists [], pre. split_and!; [lia|done|by injection Ht|done|].
    intros m. by destruct (resolve_from m _ _ _). }
  destruct l as [|e l]; [done|]. injection Hn as Hn. simpl in Hk. apply andb_true_iff in Hk as [Hk1 Hk2].
  assert (∀ m, resolve_from (S n + m) (length pre) tokens (pre ++ (e :: l) ++ l2)
    = match e with
      | EStart k fp =>
        '(chain, events) ← forward_chain (S (length (pre ++ (EFinish :: l) ++ l2)))
           (pre ++ (EFinish :: l) ++ l2) (length pre) fp [k];
        rest ← resolve_from (n + m) (S (length pre)) tokens events;
        Some (chain_starts chain ++ rest)
      | EFinish =>
        rest ← resolve_from (n + m) (S (length pre)) tokens (pre ++ (EFinish :: l) ++ l2);
        Some (GFinish :: rest)
      | EToken i =>
        t ← tokens !! i;
        rest ← resolve_from (n + m) (S (length pre)) tokens (pre ++ (EFinish :: l) ++ l2);
        Some (GTok t :: rest)
      end) as Hstep.
  { intros m. cbn [Nat.add resolve_from].
    assert (<[length pre := EFinish]> (pre ++ (e :: l) ++ l2) = pre ++ (EFinish :: l) ++ l2) as ->.
    { pose proof (insert_app_r pre ((e :: l) ++ l2) 0 EFinish) as Hi. by rewrite Nat.add_0_r in Hi. }
    by rewrite lookup_app_r, Nat.sub_diag by done. }
  assert (∀ l', pre ++ (EFinish :: l') ++ l2 = (pre ++ [EFinish]) ++ l' ++ l2) as Hsplit
    by (intros; by rewrite <-!app_assoc).
  assert (length (pre ++ [EFinish]) = S (length pre)) as Hlen by (rewrite length_app; simpl; lia).
  destruct e as [k fp| |i].
  - destruct (path_exists (EStart k fp :: l) 0 fp Hl) as [ps Hps].
    { intros off ->. by apply (Hl 0%nat k off). }
    assert (Forall (λ p, (0 < p)%nat) ps) as Hpos.
    { eapply Forall_impl; [by eapply path_bounds|]. simpl. lia. }
    destruct (erase_path_keeps _ _ _ _ Hps) as (K1&K2&K3). destruct K3 as [K3 K4].
    { cbn [forallb]. by rewrite Hk1, Hk2. }
    apply (bal_erase_path d _ _ _ _ Hps) in Hb. specialize (K1 Hl). rewrite erase_head in * by done.
    set (ks := kind_of (EStart k fp :: l) <$> ps) in *. set (l' := erase (pred <$> ps) l) in *.
    assert (length l' = n) as Hn' by (unfold l'; by rewrite erase_length).
    destruct (IH l' (pre ++ [EFinish]) (d + length (omap id (k :: ks)))%nat ts) as (out&pre'&P1&P2&P3&P4&P5).
    { done. }
    { rewrite <-Hb. csimpl. destruct k; simpl; f_equal; lia. }
    { by eapply links_ok_tail. }
    { simpl in K3. by apply andb_true_iff in K3 as [_ ?]. }
    { rewrite <-Ht. f_equal. exact K2. }
    exists (chain_starts (k :: ks) ++ out), pre'. split_and!.
    + rewrite P1, Hlen. lia.
    + by rewrite nested_starts.
    + by rewrite event_tokens_starts.
    + apply starts_kind_ok; [|done]. csimpl. destruct k; [by constructor|done].
    + intros m. rewrite Hstep.
      assert (path (EFinish :: l) 0 fp ps) as Hps' by (by apply (path_insert _ _ _ _ 0 EFinish) in Hps).
      pose proof (forward_chain_path (S (length (pre ++ (EFinish :: l) ++ l2))) pre (EFinish :: l) l2 0 fp ps [k] Hps') as Hf.
      rewrite Nat.add_0_r in Hf. rewrite Hf by (rewrite !length_app; simpl; lia). clear Hf. simpl.
      rewrite erase_head by done. fold l'. rewrite Hsplit, <-Hlen, P5.
      assert (kind_of (EFinish :: l) <$> ps = ks) as ->.
      { unfold ks. apply list_fmap_ext. intros j q Hq. rewrite Forall_lookup in Hpos.
        specialize (Hpos _ _ Hq). by destruct q; [lia|]. }
      destruct (resolve_from m _ _ _); simpl; [|done]. by rewrite app_assoc.
  - destruct d as [|d]; [done|]. destruct (IH l (pre ++ [EFinish]) d ts) as (out&pre'&P1&P2&P3&P4&P5).
    { done. } { done. } { by eapply links_ok_tail. } { done. } { done. }
    exists (GFinish :: out), pre'. split_and!; [rewrite P1, Hlen; lia|done|done|done|].
    intros m. rewrite Hstep, Hsplit, <-Hlen, P5. by destruct (resolve_from m _ _ _).
  - unfold token_indices in Ht. csimpl in Ht. destruct (tokens !! i) as [t|] eqn:Hi; [|done]. simpl in Ht.
    apply bind_Some in Ht as (ts'&Ht'&Ht). injection Ht as <-.
    destruct (IH l (pre ++ [EFinish]) d ts') as (out&pre'&P1&P2&P3&P4&P5).
    { done. } { done. } { by eapply links_ok_tail. } { done. } { done. }
    exists (GTok t :: out), pre'. split_and!; [rewrite P1, Hlen; lia|done| |done|].
    { unfold event_tokens in *. csimpl. by f_equal. }
    intros m. rewrite Hstep, Hsplit, <-Hlen. simpl. rewrite P5. by destruct (resolve_from m _ _ _).
Qed.

(** ** Productions *)

(** Following the links from the first event ends at the outermost start. *)
Lemma path_reaches l i k next ps o ko :
  l !! i = Some (EStart k next) → path l i next ps → reaches l i o → l !! o = Some (EStart ko None) →
  last (i :: ps) = Some o.
Proof.
  intros Hi Hp Hr Ho. revert k next ps Hi Hp.
  induction Hr as [i|i off k0 j Hi0 Hr IH]; intros k next ps Hi Hp.
  - rewrite Ho in Hi. injection Hi as <- <-. by inversion Hp.
  - rewrite Hi in Hi0. injection Hi0 as -> ->. inversion Hp as [|? ? k1 fp ps' Hoff Hl Hp']; subst.
    rewrite <-(IH Ho _ _ _ Hl Hp'). done.
Qed.

(** The root may be taken out before: the path is the same. *)
Lemma path_root l i next ps o k :
  path l i next ps → l !! o = Some (EStart k None) → path (<[o := ENone]> l) i next ps.
Proof.
  induction 1 as [|i off k' fp ps Hoff Hl Hp IH]; intros Ho; [constructor|].
  destruct (decide (i + off = o)%nat) as [Heq|Hne].
  - subst o. rewrite Hl in Ho. injection Ho as -> ->. inversion Hp; subst. econstructor; [done| |constructor].
    apply list_lookup_insert_eq. by eapply lookup_lt_Some.
  - apply (path_cons _ i off k' fp); [done| |by apply IH]. by rewrite list_lookup_insert_ne.
Qed.

Lemma path_prefix l e i next ps :
  path (l ++ [e]) i next ps → ¬ is_start e → path l i next ps.
Proof.
  intros Hp He. induction Hp as [|i off k fp ps Hoff Hl Hp IH]; [constructor|].
  apply lookup_app_Some in Hl as [Hl|[_ Hl]]; [by econstructor|].
  apply list_lookup_singleton_Some in Hl as [_ ->]. by destruct He.
Qed.

Lemma links_ok_prefix l e : links_ok (l ++ [e]) → ¬ is_start e → links_ok l.
Proof.
  intros H He i k off Hi. destruct (H i k off) as (Ho&e'&He'&Hs); [by apply lookup_app_l_Some|].
  split; [done|]. exists e'. split; [|done].
  apply lookup_app_Some in He' as [|[_ He']]; [done|].
  apply list_lookup_singleton_Some in He' as [_ <-]. by destruct He.
Qed.

(** Resolution of a first start, a segment and a last finish. *)
Lemma resolve_first tokens k0 fp t ps d ts :
  path (EStart k0 fp :: t) 0 fp ps →
  bal d (erase (pred <$> ps) t) = true → links_ok (erase (pred <$> ps) t) →
  forallb kind_ok (erase (pred <$> ps) t) = true →
  mapM (λ i, tokens !! i) (token_indices (erase (pred <$> ps) t)) = Some ts →
  ∃ out, resolve_events tokens (EStart k0 fp :: t ++ [EFinish])
      = Some (chain_starts (k0 :: (kind_of (EStart k0 fp :: t) <$> ps)) ++ out ++ [GFinish]) ∧
    nested d out = true ∧ event_tokens out = ts ∧ forallb event_kind_ok out = true.
Proof.
  intros Hps Hb Hl Hk Ht.
  assert (Forall (λ p, (0 < p)%nat) ps) as Hpos.
  { eapply Forall_impl; [by eapply path_bounds|]. simpl. lia. }
  destruct (resolve_segment tokens (length t) _ [EFinish] [EFinish] d ts (erase_length _ _) Hb Hl Hk Ht)
    as (out&pre'&P1&P2&P3&P4&P5).
  exists out. split_and!; [|done..]. unfold resolve_events. cbn [length resolve_from lookup list_lookup].
  pose proof (path_insert _ _ _ _ 0 EFinish Hps ltac:(lia)) as Hps'.
  pose proof (forward_chain_path (S (length (EFinish :: t ++ [EFinish]))) [] (EFinish :: t) [EFinish] 0 fp ps [k0] Hps') as Hf.
  cbn [app length Nat.add] in Hf |- *. cbn [insert list_insert length]. rewrite Hf by (rewrite length_app; simpl; lia). clear Hf. simpl.
  rewrite erase_head, length_app by done. specialize (P5 1%nat). simpl in P5 |- *. rewrite P5.
  assert (pre' !! length pre' = None) as Hno by (by apply lookup_ge_None).
  rewrite lookup_app_r, Nat.sub_diag by done. simpl.
  f_equal. f_equal. f_equal. f_equal. apply list_fmap_ext. intros j q Hq. rewrite Forall_lookup in Hpos.
  specialize (Hpos _ _ Hq). by destruct q; [lia|].
Qed.

(** A start that is taken out anyway may be taken out first. *)
Lemma erase_known ps l o : o ∈ ps → (o < length l)%nat → erase ps (<[o := ENone]> l) = erase ps l.
Proof.
  intros Hin Ho. apply list_eq_same_length with (length l); rewrite ?erase_length, ?length_insert; [done..|].
  intros i x y Hi. rewrite !erase_lookup by (by rewrite ?length_insert).
  destruct (decide (i ∈ ps)) as [|Hn]; [congruence|].
  rewrite list_lookup_insert_ne; [congruence|]. by intros ->.
Qed.

Lemma last_snoc_inv {A} (l : list A) x : last l = Some x → ∃ init, l = init ++ [x].
Proof. rewrite last_Some. done. Qed.

(** The first start links, over [ps], to the root at [o], the last of them. *)
Lemma resolve_linked tokens k0 off t o k ps init ts (L := EStart k0 (Some off) :: t) :
  L !! o = Some (EStart (Some k) None) → path L 0 (Some off) ps → ps = init ++ [o] →
  bal 0 (<[o := ENone]> L) = true → links_ok L → is_node_kind k = true →
  forallb kind_ok (<[o := ENone]> L) = true →
  mapM (λ i, tokens !! i) (token_indices L) = Some ts →
  ∃ mid, resolve_events tokens (L ++ [EFinish]) = Some (GStart k :: mid ++ [GFinish]) ∧
    nested 0 mid = true ∧ event_tokens mid = ts ∧ forallb event_kind_ok mid = true.
Proof.
  intros H0 Hps Einit Hb Hl Hkk Hk Ht. pose proof (lookup_lt_Some _ _ _ H0) as Hlt.
  assert (o ∈ ps) as Hin by (rewrite Einit, elem_of_app, list_elem_of_singleton; by right).
  assert (Forall (λ p, (0 < p)%nat) ps) as Hpos.
  { eapply Forall_impl; [by eapply path_bounds|]. simpl. lia. }
  assert (kind_of L <$> ps = (kind_of L <$> init) ++ [Some k]) as Hks.
  { rewrite Einit, fmap_app, list_fmap_singleton. do 2 f_equal. unfold kind_of. by rewrite H0. }
  pose proof (path_root _ _ _ _ _ _ Hps H0) as HpsM.
  destruct (erase_path_keeps _ _ _ _ HpsM) as (K1&K2&K3).
  specialize (K1 (links_ok_erase _ _ _ _ Hl H0)). destruct (K3 Hk) as [K4 K5].
  pose proof (bal_erase_path 0 _ _ _ _ HpsM Hb) as HbM.
  assert (kind_of (<[o := ENone]> L) <$> ps = (kind_of L <$> init) ++ [None]) as HkM.
  { apply path_nodup in Hps. rewrite Einit in Hps. apply NoDup_app in Hps as (_&Hno&_).
    rewrite Einit, fmap_app, kind_of_insert, list_fmap_singleton.
    - do 2 f_equal. unfold kind_of. by rewrite list_lookup_insert_eq.
    - intros Hi. apply (Hno _ Hi). by apply list_elem_of_singleton. }
  assert (token_indices (erase ps L) = token_indices L) as K2' by (by destruct (erase_path_keeps _ _ _ _ Hps) as (_&?&_)).
  rewrite HkM, omap_app in HbM, K5. rewrite erase_known in K1, K4, HbM by done.
  unfold L in K1, K4, HbM, K2'. rewrite erase_head in K1, K4, HbM, K2' by done. fold L in K1, K4, HbM, K2', K5.
  simpl in K4. apply andb_true_iff in K4 as [K0 K4].
  destruct (resolve_first tokens k0 (Some off) t ps (length (omap id (k0 :: (kind_of L <$> init)))) ts Hps)
      as (out&O1&O2&O3&O4).
  { rewrite <-HbM. simpl. rewrite app_nil_r. csimpl. by destruct k0. }
  { by eapply links_ok_tail. }
  { done. }
  { by rewrite <-Ht, <-K2'. }
  exists (chain_starts (k0 :: (kind_of L <$> init)) ++ out). split_and!.
  - fold L in O1. unfold L at 1. cbn [app]. rewrite O1, Hks, app_comm_cons. f_equal. rewrite <-app_assoc.
    unfold chain_starts at 1. by rewrite reverse_app.
  - by rewrite nested_starts.
  - by rewrite event_tokens_starts.
  - apply starts_kind_ok; [|done]. simpl in K5. rewrite app_nil_r in K5. csimpl.
    destruct k0; [by constructor|done].
Qed.

(** A production resolves to one tree: the outermost node opens first and closes
    last, what is between nests, and the tokens are the production's. *)
Lemma resolve_production tokens l o ts :
  production l o [] → mapM (λ i, tokens !! i) (token_indices l) = Some ts →
  ∃ k mid, resolve_events tokens l = Some (GStart k :: mid ++ [GFinish]) ∧
    nested 0 mid = true ∧ event_tokens mid = ts ∧ is_node_kind k = true ∧
    forallb event_kind_ok mid = true ∧ l !! o = Some (EStart (Some k) None).
Proof.
  intros [(pre&k&body&El&Ho&Hb1&Hb2) _ Hl Hk Hr] Ht. subst l o.
  rewrite (app_assoc pre (_ :: body) [EFinish] : pre ++ EStart (Some k) None :: body ++ [EFinish] = _) in *.
  set (l0 := pre ++ EStart (Some k) None :: body) in *.
  assert (l0 !! length pre = Some (EStart (Some k) None)) as H0 by (unfold l0; by rewrite list_lookup_middle).
  assert (is_node_kind k = true) as Hkk.
  { rewrite forallb_forall in Hk. apply (Hk (EStart (Some k) None)). apply list_elem_of_In, elem_of_app. left.
    by eapply list_elem_of_lookup_2. }
  apply links_ok_prefix in Hl as Hl0; [|by intros []].
  rewrite forallb_app in Hk. apply andb_true_iff in Hk as [Hk _].
  rewrite token_indices_app in Ht. simpl in Ht. rewrite app_nil_r in Ht.
  assert (<[length pre := ENone]> l0 = pre ++ ENone :: body) as HM.
  { unfold l0. pose proof (insert_app_r pre (EStart (Some k) None :: body) 0 ENone) as Hi.
    by rewrite Nat.add_0_r in Hi. }
  destruct pre as [|e0 pre].
  - simpl in *. destruct (resolve_first tokens (Some k) None body [] 0 ts) as (out&O1&O2&O3&O4).
    { constructor. } { done. } { by eapply links_ok_tail. } { simpl. by apply andb_true_iff in Hk as [_ ?]. } { done. }
    exists k, out. unfold l0. simpl in *. by rewrite O1.
  - inversion Hr as [|? off k0 ? He0 ? Hi Hj]. simpl in He0. injection He0 as ->.
    set (t := pre ++ EStart (Some k) None :: body) in *.
    assert (l0 = EStart k0 (Some off) :: t) as E0 by done. clearbody l0. subst l0.
    destruct (path_exists _ 0 (Some off) Hl) as [ps Hps].
    { intros off' [= <-]. by apply (Hl 0%nat k0). }
    destruct (last_snoc_inv ps (length (EStart k0 (Some off) :: pre))) as [init Einit].
    { pose proof (path_reaches ((EStart k0 (Some off) :: t) ++ [EFinish]) 0 k0 (Some off) ps _ (Some k) eq_refl Hps Hr (lookup_app_l_Some _ _ _ _ H0)) as Hlast.
      inversion Hps; subst. done. }
    apply (path_prefix (EStart k0 (Some off) :: t) EFinish) in Hps; [|by intros []].
    destruct (resolve_linked tokens k0 off t (length (EStart k0 (Some off) :: pre)) k ps init ts) as (out&?&?&?&?);
      [done|done|done| |done|done| |done|].
    { by rewrite HM, bal_app_0. }
    { rewrite HM. revert Hk. unfold t. rewrite app_comm_cons, !forallb_app. simpl. by rewrite Hkk. }
    exists k, out. split_and!; [done..|]. by apply lookup_app_l_Some.
Qed.

(** ** The trees of a parse *)

Section Trees.
Context (E : Env) {HE : EnvOk E} (Hsmall : small (length (src E))).

Lemma tiles_contiguous p ts :
  tiles (src E) p ts →
  Forall (λ t, is_char_boundary (src E) (start (lspan t)) = true ∧
               is_char_boundary (src E) (end_ (lspan t)) = true) ts →
  contiguous (src E) p ts (length (src E)) ∧ (p ≤ length (src E))%nat.
Proof.
  induction 1 as [|p q k toks Hpq Hk Ht IH]; intros Hf; apply Forall_cons in Hf as [[H1 H2] Hf].
  - split; [|done]. constructor; simpl; [done|done|done|done|done|constructor].
  - destruct (IH Hf) as [IH1 IH2]. split; [|lia]. constructor; simpl in *; [done|lia|done|done|done|done].
Qed.

Lemma env_contiguous : contiguous (src E) 0 (toks E) (length (src E)).
Proof. by apply tiles_contiguous; [apply env_tiles|apply env_boundaries]. Qed.

Lemma mapM_tokens a n : (a + n ≤ length (toks E))%nat →
  mapM (λ i, toks E !! i) (seq a n) = Some (take n (drop a (toks E))).
Proof.
  revert a. induction n as [|n IH]; intros a Ha; [done|]. simpl.
  destruct (lookup_lt_is_Some_2 (toks E) a ltac:(lia)) as [t Ht].
  rewrite Ht, IH by lia. simpl. by rewrite (drop_S _ _ _ Ht).
Qed.

Lemma tokens_contiguous a n : ∃ p q,
  contiguous (src E) p (take n (drop a (toks E))) q ∧ (p ≤ length (src E))%nat.
Proof.
  pose proof env_contiguous as Hc. rewrite <-(take_drop a (toks E)) in Hc.
  apply contiguous_app_inv in Hc as (p&Hc1&Hc2). pose proof (contiguous_le _ _ _ _ Hc2) as Hp.
  rewrite <-(take_drop n (drop a (toks E))) in Hc2. apply contiguous_app_inv in Hc2 as (q&Hc2&_).
  by exists p, q.
Qed.

(** The green tree of a production over consecutive tokens. *)
Definition tree_over (a n : nat) (root : GreenNode) : Prop :=
  collect_tokens root = green_token (src E) <$> take n (drop a (toks E)) ∧
  push_text root = slice (src E) (start (gn_span root)) (end_ (gn_span root)) ∧ green_wf root = true.

Lemma production_tree l o a n :
  production l o [] → token_indices l = seq a n → (0 < n)%nat → (a + n ≤ length (toks E))%nat →
  ∃ evs t root, resolve_events (toks E) l = Some evs ∧
    head (omap (λ ev, match ev with GTok t => Some (start (lspan t)) | _ => None end) evs)
      = Some (start (lspan t)) ∧
    toks E !! a = Some t ∧
    build_green (src E) (start (lspan t)) evs = Ok root ∧ tree_over a n root.
Proof.
  intros Hp Hi Hn Ha. pose proof (mapM_tokens a n Ha) as Hm. rewrite <-Hi in Hm.
  destruct (resolve_production _ _ _ _ Hp Hm) as (k&mid&R1&R2&R3&R4&R5&_).
  destruct (tokens_contiguous a n) as (p&q&Hc&Hple).
  destruct (lookup_lt_is_Some_2 (toks E) a ltac:(lia)) as [t Ht].
  assert (∃ ts, event_tokens mid = t :: ts) as [ts Hts].
  { rewrite R3, (drop_S _ _ _ Ht). destruct n; [lia|]. by eexists. }
  assert (start (lspan t) = p) as Hst.
  { rewrite R3 in Hts. rewrite Hts in Hc. by inversion Hc. }
  subst p. rewrite <-R3 in Hc.
  destruct (build_green_ok (src E) Hsmall k mid _ _ R4 R2 R5 Hc Hple) as (root&B1&B2&B3&B4&B5&B6).
  exists (GStart k :: mid ++ [GFinish]), t, root. split_and!; [done| |done|done|split_and!].
  - csimpl. rewrite omap_app, app_nil_r. revert Hts. unfold event_tokens. clear.
    induction mid as [|[| |] mid IH]; csimpl; [done|apply IH|intros; by simplify_eq|apply IH].
  - by rewrite B4, R3.
  - by rewrite B5, B3.
  - done.
Qed.

Lemma resolve_alternates_ok l : alternates_ok E l →
  ∃ l', resolve_alternates (src E) (toks E) l = Some (Ok l') ∧
    Forall2 (λ r a, alt_kind a = ra_kind r ∧ alt_span a = ra_span r ∧
      ∃ s n, token_indices (ra_events r) = seq s n ∧ tree_over s n (alt_root a)) l l'.
Proof.
  induction 1 as [|r l ((o&Hp)&a&n&Hi&Hn&Ha) _ IH]; [by eexists|].
  destruct (production_tree _ _ _ _ Hp Hi Hn Ha) as (evs&t&root&R1&R2&R3&R4&R5).
  destruct IH as (l'&IH1&IH2). exists (mkAlternate (ra_kind r) (ra_span r) root :: l'). split.
  - simpl. unfold resolve_alternate. rewrite R1. simpl. rewrite R2, R4. simpl. by rewrite IH1.
  - constructor; [|done]. split_and!; [done..|]. by exists a, n.
Qed.
End Trees.
