(* ===== verification/SyntaxParse.v ===== *)
(** * nia-syntax: parsing a source file ([crates/nia-syntax/src/lib.rs])

    Lexer, grammar, resolution of events and tree builder put together.  [parse]
    takes the fuel of the grammar's recursion and loops; a panic and exhausted fuel
    are outcomes of their own. *)

From S2P Require Import Prelude RustStd Lexer SyntaxKind GreenTree GrammarParser GrammarItems.

(** ** Errors *)

Record ParseError := mkParseError {
  pe_span : Span;
  pe_kind : ParseErrorKind;
  pe_message : list Z;
  pe_node_key : option NodeKey;
}.

(** [ParseErrorKind::help]. *)
Definition help (k : ParseErrorKind) : option string :=
  match k with
  | MissingSemicolon => Some "add the missing `;` to terminate this declaration or statement"
  | MissingClosingDelimiter => Some "check that the surrounding delimiters are balanced"
  | ExpectedName => Some "use an identifier in this position"
  | ExpectedExpression => Some "provide an expression here, such as a literal, name, or call"
  | ExpectedType => Some "provide a type name or type expression here"
  | ExpectedBindingPattern => Some "use a name, `_`, or a supported destructuring pattern"
  | Lexical | GrammarRule => None
  end%string.

(** A lower-case hexadecimal digit of [{:02x}]. *)
Definition hex_char (d : Z) : Z := if d <? 10 then "0"%B + d else "a"%B + (d - 10).

(** [Display for LexError]. *)
Definition display_lex_error (e : LexError) : list Z :=
  match e with
  | UnexpectedByte b => bytes_of_string "unexpected byte 0x" ++ [hex_char (b / 16); hex_char (b mod 16)]
  | UnterminatedString => bytes_of_string "unterminated string literal"
  | UnterminatedChar => bytes_of_string "unterminated character literal"
  | EmptyChar => bytes_of_string "empty character literal"
  | InvalidByteChar => bytes_of_string "character literal is not valid as a byte literal"
  | InvalidNumber => bytes_of_string "invalid numeric literal"
  | InvalidStringEscape => bytes_of_string "invalid escape in string literal"
  | InvalidCharEscape => bytes_of_string "invalid escape in character literal"
  end.

(** The search loop of [slice::binary_search_by_key]: [size] candidates from
    [base] on. *)
Fixpoint search_base {A} (key : A → nat) (b : nat) (l : list A) (fuel size base : nat) : nat :=
  match fuel with
  | O => base
  | S fuel =>
    if (size <=? 1)%nat then base
    else
      let half := (size / 2)%nat in
      let mid := (base + half)%nat in
      let above := match l !! mid with Some x => (b <? key x)%nat | None => true end in
      search_base key b l fuel (size - half) (if above then base else mid)
  end.

(** [slice::binary_search_by_key(&b, key).ok()]. *)
Definition binary_search_by_key {A} (b : nat) (key : A → nat) (l : list A) : option nat :=
  let base := search_base key b l (length l) (length l) 0 in
  x ← l !! base;
  if (key x =? b)%nat then Some base else None.

(** ** Parses *)

Record Parse := mkParse {
  ps_tree : SyntaxTree;
  ps_errors : list ParseError;
  ps_alternates : list Alternate;
  ps_iterations : list Iteration;
  ps_grammar_errors : list RawError;
  ps_blocks : list BlockRegion;
}.

(** [Parse::alternate]. *)
Definition parse_alternate (p : Parse) (k : AlternateKind) (sp : Span) : option GreenNode :=
  '(_, a) ← list_find (λ a, alt_kind a = k ∧ alt_span a = sp) (ps_alternates p);
  Some (alt_root a).

Definition lexical_error (t : SyntaxToken) : option ParseError :=
  match stok_kind t with
  | TError e =>
    Some (mkParseError (stok_span t) Lexical
            (bytes_of_string "lexical error: " ++ display_lex_error e) (token_node_key t))
  | _ => None
  end.

Definition grammar_error (tokens : list SyntaxToken) (e : RawError) : ParseError :=
  mkParseError (re_span e) (re_kind e) (re_message e)
    (sp ← re_token e;
     index ← binary_search_by_key (start sp) (λ t, start (stok_span t)) tokens;
     t ← tokens !! index;
     if bool_decide (stok_span t = sp) then token_node_key t else None).

Definition finish_parse (tree : SyntaxTree) (grammar_errors : list RawError)
    (alternates : list Alternate) (iterations : list Iteration) (blocks : list BlockRegion) : Parse :=
  let tokens := tree_tokens tree in
  mkParse tree (omap lexical_error tokens ++ (grammar_error tokens <$> grammar_errors))
    alternates iterations grammar_errors blocks.

(** How a run ends. *)
Inductive run (A : Type) : Type :=
  | Returned (a : A)
  | Panicked
  | Exhausted.
Arguments Returned {A} a.
Arguments Panicked {A}.
Arguments Exhausted {A}.

(** The grammar between [Parser::new] and [into_parts]. *)
Definition parse_file (n : nat) : M (list Iteration) :=
  start_root;;;
  let* r := source_file (grammar n) (λ _, false) [] in
  finish_root;;;
  ret (snd r).

Definition parse (n : nat) (text : list Z) (version : option SourceVersion) :
    run (Result GreenBuildError Parse) :=
  match tokenize_lossless text with
  | None => Exhausted
  | Some tokens =>
    match parse_file n (parser_new (as_bytes text) tokens) with
    | Panic => Panicked
    | OutOfFuel => Exhausted
    | Ret iterations p =>
      match into_parts p with
      | None => Panicked
      | Some (Err e) => Returned (Err e)
      | Some (Ok out) =>
        Returned (
          tree ← from_green_events (as_bytes text) version (go_events out);
          Ok (finish_parse tree (go_errors out) (go_alternates out) iterations (go_blocks out)))
      end
    end
  end.
