(* ===== verification/SyntaxParseFacts.v ===== *)
(** * nia-syntax: what a parse returns

    The contract of the grammar, the resolution of events and the tree builder
    meet here: every parse that ends returns a tree of exactly its source, and with
    enough fuel it ends. *)

From S2P Require Import Prelude RustStd Lexer LexerProps SyntaxKind GreenTree GreenTreeProps GrammarParser GrammarLogic GrammarTactics GrammarContracts GrammarItems GrammarItemsFacts GrammarResolve SyntaxParse.

(** ** The token stream of a source *)

Lemma tokenize_env text b : is_str text →
  ∃ toks, tokenize_lossless text = Some toks ∧ EnvOk (mkEnv (as_bytes text) toks b).
Proof.
  intros Ht. destruct (lossless_stream text Ht (new text) (S (length (as_bytes text))))
    as (toks&Hl&Hti&Hb); [by apply new_safe|rewrite new_remaining; lia|].
  exists toks. split; [done|]. by constructor.
Qed.

Lemma env_of text toks b : is_str text → tokenize_lossless text = Some toks →
  EnvOk (mkEnv (as_bytes text) toks b).
Proof. intros Hs Ht. destruct (tokenize_env text b Hs) as (toks'&Ht'&HE). congruence. Qed.

(** ** The grammar from the first to the last token *)

Section Run.
Context (E : Env) {HE : EnvOk E} {HT : Tame E}.

(** The events of a whole file: the root around nesting events over all tokens. *)
Lemma parse_file_spec n p :
  p = parser_new (src E) (toks E) → (total E = true → len E ≤ S n)%nat →
  match parse_file n p with
  | Ret _ p' => framed E p' ∧
      (∃ body, p_events p' = EStart (Some KSourceFile) None :: body ++ [EFinish] ∧ good body ∧
        token_indices body = seq 0 (length (toks E))) ∧
      alternates_ok E (p_alternates p')
  | Panic => False
  | OutOfFuel => total E = false
  end.
Proof.
  intros -> Hn. unfold parse_file, start_root, push_event, bind, modify. simpl.
  set (p0 := set_events _ _).
  assert (framed E p0) as Hf by (split_and!; try done; apply len_pos; apply _).
  assert (Inv E (core p0)) as Hi.
  { constructor; simpl; [apply len_pos; apply _|intros; lia|intros; lia]. }
  pose proof (source_file_spec E n (grammar n) (λ _, false) [] (core p0) Hi) as Hs.
  specialize (Hs ltac:(unfold Within; simpl; intros; specialize (Hn ltac:(done)); lia) p0 Hf eq_refl).
  destruct (source_file (grammar n) (λ _, false) [] p0) as [r p1| |]; [|done..].
  destruct Hs as (Hf1&[Hinv _ _ (new&Ev&Hg&Hti) _ (alt&Ea&Ha) _]&_).
  simpl. destruct Hf1 as (F1&F2&F3&F4).
  assert (p_emitted p1 ≤ length (toks E))%nat as Hem.
  { destruct Hinv as [Hp _ Hh]. destruct (lookup_lt_is_Some_2 (sigs E) _ Hp) as [j Hj].
    pose proof (sigs_bound E _ _ Hj). specialize (Hh _ Hj). simpl in Hh. lia. }
  split; [done|]. simpl in *. split; [|by rewrite Ea].
  exists (new ++ (EToken <$> seq (p_emitted p1) (length (toks E) - p_emitted p1))).
  rewrite F2. split_and!.
  - rewrite Ev. by rewrite <-!app_assoc.
  - apply good_app; [done|apply good_tokens].
  - rewrite token_indices_app, Hti, Nat.sub_0_r. rewrite token_indices_tokens.
    replace (length (toks E)) with (p_emitted p1 + (length (toks E) - p_emitted p1))%nat at 2 by lia.
    by rewrite seq_app.
Qed.
End Run.

(** ** Sources whose parse ends *)

Definition significant_kinds (toks : list LosslessToken) : list TokenKind :=
  omap (λ t, match lkind t with LToken k => Some k | _ => None end) toks.

(** No attribute after a [{], no range operator after a [[]. *)
Fixpoint tame_from (brace bracket : bool) (ks : list TokenKind) : bool :=
  match ks with
  | [] => true
  | k :: ks =>
    negb (brace && bool_decide (k = TAt) && bool_decide (head ks = Some TLBracket)) &&
    negb (bracket && bool_decide (k = TDotDot ∨ k = TDotDotEq)) &&
    tame_from (brace || bool_decide (k = TLBrace)) (bracket || bool_decide (k = TLBracket)) ks
  end.

Definition tame (toks : list LosslessToken) : bool := tame_from false false (significant_kinds toks).

Lemma significant_kinds_from i tokens j :
  significant_kinds tokens !! j =
    (x ← significant_from i tokens !! j; t ← tokens !! (x - i)%nat;
     match lkind t with LToken k => Some k | _ => None end).
Proof.
  revert i j. induction tokens as [|t tokens IH]; intros i j; [done|].
  assert (∀ j, (x ← significant_from (S i) tokens !! j; t0 ← (t :: tokens) !! (x - i)%nat;
      match lkind t0 with LToken k => Some k | _ => None end) = significant_kinds tokens !! j) as Hrec.
  { intros j'. rewrite (IH (S i)). destruct (significant_from (S i) tokens !! j') as [x|] eqn:Hx; [|done].
    simpl. apply significant_from_lookup in Hx as [Hx _]. by replace (x - i)%nat with (S (x - S i)) by lia. }
  unfold significant_kinds. csimpl. destruct (lkind t) eqn:Hk; [destruct j as [|j]|..]; simpl.
  - rewrite Nat.sub_diag. simpl. by rewrite Hk.
  - by rewrite Hrec.
  - by rewrite Hrec.
  - by rewrite Hrec.
Qed.

Lemma tame_from_sound ks br bk : tame_from br bk ks = true →
  ∀ i, (br = true ∨ (∃ j, (j < i)%nat ∧ ks !! j = Some TLBrace) →
          ¬ (ks !! i = Some TAt ∧ ks !! S i = Some TLBracket)) ∧
       (bk = true ∨ (∃ j, (j < i)%nat ∧ ks !! j = Some TLBracket) →
          ks !! i ≠ Some TDotDot ∧ ks !! i ≠ Some TDotDotEq).
Proof.
  revert br bk. induction ks as [|k ks IH]; intros br bk Ht i; [split; [intros _ [? _]|intros _; split]; done|].
  simpl in Ht. apply andb_true_iff in Ht as [[H1 H2]%andb_true_iff H3].
  destruct i as [|i].
  - split.
    + intros [->|(j&?&_)]; [|lia]. intros [Ha Hb]. simpl in Ha, Hb. simplify_eq.
      rewrite head_lookup, Hb in H1. done.
    + intros [->|(j&?&_)]; [|lia]. simpl in *. apply negb_true_iff, bool_decide_eq_false in H2.
      split; intros ?; simplify_eq; tauto.
  - destruct (IH _ _ H3 i) as [IH1 IH2]. split.
    + intros Hc. apply IH1. destruct Hc as [->|([|j]&Hj&Hk)]; [by left|..].
      * simpl in Hk. simplify_eq. left. apply orb_true_r.
      * right. exists j. split; [lia|done].
    + intros Hc. apply IH2. destruct Hc as [->|([|j]&Hj&Hk)]; [by left|..].
      * simpl in Hk. simplify_eq. left. apply orb_true_r.
      * right. exists j. split; [lia|done].
Qed.

Lemma kind_at_lookup E i k : k ≠ TEof → kind_at E i = k → significant_kinds (toks E) !! i = Some k.
Proof.
  intros Hk. rewrite (significant_kinds_from 0). unfold kind_at, sigs.
  destruct (significant_from 0 (toks E) !! i) as [x|]; simpl; [|congruence]. rewrite Nat.sub_0_r.
  destruct (toks E !! x) as [t|]; simpl; [|congruence]. destruct (lkind t); congruence.
Qed.

Lemma tame_Tame E : tame (toks E) = true → Tame E.
Proof.
  intros Ht. constructor; intros i j _ Hj Hb; destruct (tame_from_sound _ _ _ Ht i) as [H1 H2].
  - apply not_true_is_false. unfold attribute_at. intros [Ha [_ Hb']%bool_decide_eq_true]%andb_true_iff.
    apply bool_decide_eq_true in Ha. rewrite Nat.add_1_r in Hb'. apply H1.
    + right. exists j. split; [done|]. by apply kind_at_lookup.
    + split; by apply kind_at_lookup.
  - destruct H2 as [H2 H3].
    + right. exists j. split; [done|]. by apply kind_at_lookup.
    + split; intros Hk; apply kind_at_lookup in Hk; done.
Qed.

Lemma partial_Tame s ts : Tame (mkEnv s ts false).
Proof. by constructor. Qed.

(** ** Results *)

(** [toks] are the tokens of the text, and the parse is theirs: the root spans the
    source, its leaves are the tokens in order, and every alternate reading is a
    tree over consecutive ones of them. *)
Record parse_of (source : list Z) (toks : list LosslessToken) (version : option SourceVersion)
    (r : Parse) : Prop := {
  po_source : st_source (ps_tree r) = source;
  po_version : st_version (ps_tree r) = version;
  po_kind : gn_kind (st_root (ps_tree r)) = KSourceFile;
  po_span : gn_span (st_root (ps_tree r)) = mkSpan 0 (length source);
  po_text : full_text (ps_tree r) = source;
  po_tokens : collect_tokens (st_root (ps_tree r)) = green_token source <$> toks;
  po_alternates : Forall (λ a, ∃ i m,
    collect_tokens (alt_root a) = green_token source <$> take m (drop i toks) ∧
    push_text (alt_root a) = slice source (start (gn_span (alt_root a))) (end_ (gn_span (alt_root a))))
    (ps_alternates r);
}.

(** The tree and the alternates are well-formed. *)
Definition parse_wf (r : Parse) : Prop :=
  green_wf (st_root (ps_tree r)) = true ∧ Forall (λ a, green_wf (alt_root a) = true) (ps_alternates r).

Lemma parse_run text toks version n b :
  let E := mkEnv (as_bytes text) toks b in
  EnvOk E → Tame E → small (length (as_bytes text)) → tokenize_lossless text = Some toks →
  (b = true → length (significant_from 0 toks) ≤ S n)%nat →
  match parse n text version with
  | Returned (Ok r) => parse_of (as_bytes text) toks version r ∧ parse_wf r
  | Returned (Err _) | Panicked => False
  | Exhausted => b = false
  end.
Proof.
  intros E HE HT Hs Ht Hn. unfold parse. rewrite Ht.
  pose proof (parse_file_spec E n _ eq_refl Hn) as Hp. simpl in Hp.
  destruct (parse_file n _) as [its p'| |]; [|done..].
  destruct Hp as ((F1&F2&F3&F4)&(body&Ev&Hg&Hi)&Ha). simpl in F1, F2.
  assert (is_node_kind KSourceFile = true) as Hk by done.
  pose proof (production_node _ _ Hk Hg) as Hprod.
  assert (token_indices (EStart (Some KSourceFile) None :: body ++ [EFinish]) = seq 0 (length toks)) as Hti.
  { change (token_indices (body ++ [EFinish]) = seq 0 (length toks)).
    rewrite token_indices_app, Hi. simpl. by rewrite app_nil_r. }
  pose proof (mapM_tokens E 0 (length toks) ltac:(done)) as Hm. rewrite <-Hti in Hm. simpl in Hm.
  rewrite drop_0, firstn_all in Hm.
  destruct (resolve_production _ _ _ _ Hprod Hm) as (k&mid&R1&R2&R3&R4&R5&R6).
  simpl in R6. injection R6 as <-.
  destruct (resolve_alternates_ok E Hs _ Ha) as (alts&A1&A2).
  unfold into_parts. rewrite F1, F2, Ev, R1. simpl in A1 |- *. rewrite A1. simpl.
  pose proof (env_contiguous E) as Hc. simpl in Hc. rewrite <-R3 in Hc.
  destruct (build_green_ok (as_bytes text) Hs _ _ _ _ R4 R2 R5 Hc ltac:(lia)) as (root&B1&B2&B3&B4&B5&B6).
  assert (push_text root = as_bytes text) as Htext.
  { rewrite B5. apply slice_full. }
  unfold from_green_events. rewrite B1. simpl. rewrite !bool_decide_true by done. simpl.
  split; [constructor; simpl; [done|done|done|done|done|by rewrite B4, R3|]|split; [done|]]; simpl.
  - clear -A2. induction A2 as [|r a l l' (_&_&i&m&_&T1&T2&_) _ IH]; [constructor|].
    constructor; [|done]. by exists i, m.
  - clear -A2. by induction A2 as [|r a l l' (_&_&i&m&_&_&_&?) _ IH]; constructor.
Qed.

(** A file with a type alias, a generic function, a call and a match. *)
Definition sample_file : list Z := bytes_of_string
  "type Stored = Box[N]; fun f[T](x: T) T { let y = call[T](x); match y { ?v => v, null => x, } }".

(** C1: Parsing a source file never panics and never returns a [GreenBuildError],
    whatever the source and the fuel.  A parse that is returned is lossless: the tree
    is rooted in a source file node over the whole source, its text is the source, its
    leaves are exactly the tokens of the lexer in order, and every alternate reading is
    a tree over consecutive tokens.  The fuel runs out only when it is less than the
    number of significant tokens or an attribute follows a brace or a range operator a
    bracket: on every other source the parser ends. *)
Theorem parse_safe (n : nat) (text : list Z) (version : option SourceVersion)
    (Htext : is_str text) (Hsmall : small (length (as_bytes text))) :
  ∃ toks, tokenize_lossless text = Some toks ∧
    match parse n text version with
    | Returned (Ok r) => parse_of (as_bytes text) toks version r
    | Returned (Err _) | Panicked => False
    | Exhausted => tame toks = false ∨ (S n < length (significant_from 0 toks))%nat
    end.
Proof.
  destruct (tokenize_env text true Htext) as (toks&Ht&HE). exists toks. split; [done|].
  destruct (tame toks && (length (significant_from 0 toks) <=? S n)%nat) eqn:Hb.
  - apply andb_true_iff in Hb as [Htame Hn%Nat.leb_le].
    pose proof (parse_run text toks version n true HE (tame_Tame (mkEnv _ _ _) Htame) Hsmall Ht ltac:(done)) as Hr.
    by destruct (parse n text version) as [[? | ]| |]; [destruct Hr|..].
  - pose proof (parse_run text toks version n false (env_of _ _ _ Htext Ht) (partial_Tame _ _) Hsmall Ht ltac:(done)) as Hr.
    destruct (parse n text version) as [[? | ]| |]; [by destruct Hr|done..|].
    apply andb_false_iff in Hb as [|?%Nat.leb_gt]; [by left|right; lia].
Qed.

Lemma parse_safe_witness : ∃ toks, tokenize_lossless sample_file = Some toks ∧
  match parse 40 sample_file None with
  | Returned (Ok r) => parse_of (as_bytes sample_file) toks None r
  | Returned (Err _) | Panicked => False
  | Exhausted => tame toks = false ∨ (41 < length (significant_from 0 toks))%nat
  end.
Proof.
  apply (parse_safe 40 sample_file None); [apply is_str_b_spec; reflexivity|].
  unfold small. vm_compute. done.
Defined.

(** C2: The trees of the parser are well-formed, for every source and whatever
    errors it has: nodes have node kinds and leaves have token kinds, the children of
    every node lie end to end from its start to its end, and the text of a leaf is as
    long as its span.  The same holds for every alternate reading. *)
Theorem parse_trees_well_formed (n : nat) (text : list Z) (version : option SourceVersion) (r : Parse)
    (Htext : is_str text) (Hsmall : small (length (as_bytes text)))
    (Hparse : parse n text version = Returned (Ok r)) :
  green_wf (st_root (ps_tree r)) = true ∧ Forall (λ a, green_wf (alt_root a) = true) (ps_alternates r).
Proof.
  destruct (tokenize_env text false Htext) as (toks&Ht&HE).
  pose proof (parse_run text toks version n false HE (partial_Tame _ _) Hsmall Ht ltac:(done)) as Hr.
  rewrite Hparse in Hr. by destruct Hr.
Qed.

(** A file with errors: a missing argument, a missing type. *)
Definition broken_file : list Z := bytes_of_string
  "fun broken() { call(, value[T]); let x: = 1; } struct S { a: , b: i32 } module retained;".

Lemma parse_trees_well_formed_witness :
  match parse 60 broken_file None with
  | Returned (Ok r) =>
    green_wf (st_root (ps_tree r)) = true ∧ Forall (λ a, green_wf (alt_root a) = true) (ps_alternates r)
  | _ => False
  end.
Proof.
  destruct (parse 60 broken_file None) as [[r|e]| |] eqn:Hp; [|by vm_compute in Hp..].
  apply (parse_trees_well_formed 60 broken_file None r); [apply is_str_b_spec; reflexivity| |exact Hp].
  unfold small. vm_compute. done.
Defined.
