(* ===== verification/GrammarDivergence.v ===== *)
(** * nia-syntax: a loop that does not end

    [field_init_list] recovers with [recover_to_member_boundary(p, None)], which
    stops in front of an attribute without taking a token, and has no progress
    guard of its own.  An attribute inside a struct literal is therefore never
    passed. *)

From S2P Require Import Prelude RustStd Lexer LexerProps SyntaxKind GreenTree GreenTreeProps GrammarParser GrammarLogic GrammarRules GrammarWp GrammarRecover GrammarTactics GrammarRecoverFacts GrammarTypes GrammarContracts GrammarTypesFacts GrammarExprs GrammarItems SyntaxParse SyntaxParseFacts.

Section Stuck.
Context (E : Env) {HE : EnvOk E} (Htotal : total E = false).

(** The cursor stays. *)
Definition stays {A} (m : M A) (c : Core) (Q : A → Prop) : Prop :=
  wp E m c (λ a c', Q a ∧ Inv E c' ∧ c_pos c' = c_pos c).

Lemma attribute_kind i : attribute_at E i = true → kind_at E i = TAt.
Proof. unfold attribute_at. intros [H _]%andb_true_iff. by apply bool_decide_eq_true in H. Qed.

Lemma field_init_stays G c : Inv E c → attribute_at E (c_pos c) = true →
  stays (field_init G) c (λ failed, failed = true).
Proof.
  intros Hc Ha. pose proof (attribute_kind _ Ha) as Hk. unfold stays, field_init. wp_run.
  { congruence. }
  split; [solve_ext|]. intros c2 Hx Hp. wp_step. split_and!; [done|by eapply ext_inv|congruence].
Qed.

Lemma recover_stays n c : Inv E c → attribute_at E (c_pos c) = true →
  stays (recover_to_member_boundary n None) c (λ _, True).
Proof.
  intros Hc Ha. pose proof (attribute_kind _ Ha) as Hk. unfold stays, recover_to_member_boundary.
  wp_step. wp_step.
  apply (wp_loop E (λ d c', d = depth_default ∧ c' = c1)); [done|congruence|intros ? ? [_ ->]; by apply inv_pos|].
  intros d c' [-> ->]. wp_run.
  { by rewrite Hk in Ho. }
  { by rewrite Hk in Hb1. }
  split; [solve_ext|]. intros c2 Hx Hp. split_and!; [done|by eapply ext_inv|congruence].
Qed.

Lemma field_init_list_stays G o cl c :
  Inv E c → kind_at E (c_pos c) = TLBrace → attribute_at E (S (c_pos c)) = true →
  wp E (field_init_list G o cl) c (λ _ _, False).
Proof.
  intros Hc Hb Ha. unfold field_init_list. wp_step. wp_step. wp_step.
  - wp_step. apply (wp_loop E (λ _ c', Inv E c' ∧ c_pos c' = S (c_pos c))).
    { split; [done|congruence]. } { congruence. } { intros _ ca [Hi _]. by apply inv_pos. }
    intros _ ca [Hi Hp]. pose proof (attribute_kind _ Ha) as Hk. rewrite <-Hp in Ha.
    wp_step. wp_step. wp_step. wp_step; [|by rewrite Hk in *].
    wp_step. eapply wp_mono; [by apply field_init_stays|]. intros failed cb (->&Hib&Hpb).
    wp_step. wp_step; [congruence|]. wp_step. 
    eapply wp_mono; [apply recover_stays; [done|congruence]|].
    intros [] cd (_&Hid&Hpd). wp_step. split_and!; congruence.
  - congruence.
Qed.

Lemma field_init_list_exhausts G o cl p :
  framed E p → Inv E (core p) → kind_at E (p_pos p) = TLBrace → attribute_at E (S (p_pos p)) = true →
  field_init_list G o cl p = OutOfFuel.
Proof.
  intros Hf Hi Hb Ha. pose proof (field_init_list_stays G o cl (core p) Hi Hb Ha p Hf eq_refl) as Hw.
  by destruct (field_init_list G o cl p) as [? ? | |]; [destruct Hw|..].
Qed.
End Stuck.

(** A struct literal whose first field has an attribute. *)
Definition attributed_literal : list Z := bytes_of_string "S { @[a] b: 1 }".

Definition attributed_tokens : list LosslessToken :=
  Eval vm_compute in default [] (tokenize_lossless attributed_literal).

(** The parser on its brace. *)
Definition at_literal_brace : Parser :=
  match bump (parser_new (as_bytes attributed_literal) attributed_tokens) with
  | Ret _ p => p
  | _ => parser_new [] []
  end.

(** C6: A struct literal with an attribute in front of a field hangs the parser:
    from any reachable state on the brace, with an attribute next, [field_init_list]
    never returns, whatever the grammar below it does and however much fuel there is. *)
Theorem field_init_list_hangs (text : list Z) (toks : list LosslessToken) (G : Grammar)
    (open_message close_message : string) (p : Parser) (E := mkEnv (as_bytes text) toks false)
    (Htext : is_str text) (Htoks : tokenize_lossless text = Some toks)
    (Hframed : framed E p) (Hinv : Inv E (core p))
    (Hbrace : kind_at E (p_pos p) = TLBrace) (Hattr : attribute_at E (S (p_pos p)) = true) :
  field_init_list G open_message close_message p = OutOfFuel.
Proof.
  pose proof (env_of text toks false Htext Htoks) as HE.
  by apply (field_init_list_exhausts E eq_refl).
Qed.

Lemma field_init_list_hangs_witness :
  field_init_list (grammar 30) "expected `{`" "expected `}`" at_literal_brace = OutOfFuel.
Proof.
  apply (field_init_list_hangs attributed_literal attributed_tokens).
  - apply is_str_b_spec. reflexivity.
  - vm_compute. reflexivity.
  - split_and!; [reflexivity..|]. vm_compute. lia.
  - constructor; [vm_compute; lia| |].
    + intros i j Hi. assert (i = 0)%nat as -> by (change (i < 1)%nat in Hi; lia). vm_compute. intros [= <-]. lia.
    + intros j. vm_compute. intros [= <-]. lia.
  - reflexivity.
  - reflexivity.
Defined.

(** Whole files that keep the parser busy for ever: fuel well beyond the number of
    their tokens runs out. *)
Example attributed_field_exhausts :
  parse 200 (bytes_of_string "fun f() () { let s = S { @[a] b: 1 }; }") None = Exhausted.
Proof. vm_compute. reflexivity. Qed.

Example range_argument_exhausts : parse 200 (bytes_of_string "type A = B[..=1 1];") None = Exhausted.
Proof. vm_compute. reflexivity. Qed.
