(* ===== verification/PackageIds.v ===== *)
(** * nia-package-metadata: package identities ([crates/nia-package-metadata/src/lib.rs])

    Semantic versions are those of the [semver] crate, a parameter here.  Strings
    are lists of Unicode scalars, as everywhere. *)

From S2P Require Import Prelude RustStd.

(** ** The semver crate *)

(** What the package code uses of [semver]: parsing, precedence, whether a version
    is a release, and requirements. *)
Class Semver := {
  Version : Type;
  Version_eq_dec :: EqDecision Version;
  version_parse : list Z → option Version;
  cmp_precedence : Version → Version → comparison;
  pre_is_empty : Version → bool;
  VersionReq : Type;
  req_matches : VersionReq → Version → bool;
  req_text : VersionReq → list Z;
}.

Section PackageIds.
Context `{Semver}.

(** ** Packages *)

Record PackageVersion := mkPackageVersion { parsed : Version; version_text : list Z }.

(** [PackageVersion::parse]. *)
Definition package_version_parse (value : list Z) : option PackageVersion :=
  v ← version_parse value; Some (mkPackageVersion v value).

Record PackageId := mkPackageId {
  namespace : list Z;
  package_name : list Z;
  version : PackageVersion;
}.

#[global] Instance PackageVersion_eq_dec : EqDecision PackageVersion.
Proof. solve_decision. Defined.
#[global] Instance PackageId_eq_dec : EqDecision PackageId.
Proof. solve_decision. Defined.

(** An upper-case hexadecimal digit of [{:02X}]. *)
Definition upper_hex (d : Z) : Z := if d <? 10 then "0"%B + d else "A"%B + (d - 10).

Definition is_escaped (byte : Z) : bool :=
  (byte =? "%"%B) || (byte =? "/"%B) || (byte =? "@"%B) || (byte <=? 31) || (127 <=? byte).

Definition canonical_component (value : list Z) : list Z :=
  as_bytes value ≫= λ byte,
    if is_escaped byte then ["%"%B; upper_hex (byte / 16); upper_hex (byte mod 16)] else [byte].

(** [PackageId::canonical_text]. *)
Definition canonical_text (id : PackageId) : list Z :=
  canonical_component (namespace id) ++ ["/"%B] ++ canonical_component (package_name id)
    ++ ["@"%B] ++ canonical_component (version_text (version id)).

(** ** Types of the source

    A [PackageVersion] is only built by parsing; strings are Unicode. *)

Definition version_typed (v : PackageVersion) : Prop :=
  is_str (version_text v) ∧ version_parse (version_text v) = Some (parsed v).

Definition package_typed (id : PackageId) : Prop :=
  is_str (namespace id) ∧ is_str (package_name id) ∧ version_typed (version id).
End PackageIds.
