(* ===== verification/PackageIdsProps.v ===== *)
(** * nia-package-metadata: canonical texts identify packages *)

From S2P Require Import Prelude RustStd PackageIds.

Lemma encode_utf8_bytes c : is_scalar c = true → Forall (λ b, 0 ≤ b < 256) (encode_utf8 c).
Proof.
  intros Hc. apply is_scalar_spec in Hc. unfold encode_utf8.
  repeat case_match; repeat constructor; rewrite ?Z.ltb_lt, ?Z.ltb_ge in *; try lia; Z.to_euclidean_division_equations; lia.
Qed.

Lemma text_bytes_range s : is_str s → Forall (λ b, 0 ≤ b < 256) (as_bytes s).
Proof.
  induction 1 as [|c s Hc Hs IH]; [constructor|]. rewrite as_bytes_cons.
  apply Forall_app. split; [by apply encode_utf8_bytes|done].
Qed.

(** ** Escaped components *)

Definition escape (byte : Z) : list Z :=
  if is_escaped byte then ["%"%B; upper_hex (byte / 16); upper_hex (byte mod 16)] else [byte].

Lemma upper_hex_inj a b : 0 ≤ a < 16 → 0 ≤ b < 16 → upper_hex a = upper_hex b → a = b.
Proof. unfold upper_hex. repeat case_match; lia. Qed.

Lemma is_escaped_false b : is_escaped b = false →
  b ≠ "%"%B ∧ b ≠ "/"%B ∧ b ≠ "@"%B.
Proof. unfold is_escaped. rewrite !orb_false_iff. lia. Qed.

(** The code is uniquely decodable. *)
Lemma escape_inj b1 b2 r1 r2 : 0 ≤ b1 < 256 → 0 ≤ b2 < 256 →
  escape b1 ++ r1 = escape b2 ++ r2 → b1 = b2 ∧ r1 = r2.
Proof.
  intros H1 H2. unfold escape.
  destruct (is_escaped b1) eqn:E1, (is_escaped b2) eqn:E2; simpl; intros Heq; simplify_eq.
  { apply upper_hex_inj in H; [|div_lia..]. apply upper_hex_inj in H0; [|div_lia..].
    split; [|done]. rewrite (Z.div_mod b1 16), (Z.div_mod b2 16) by lia. congruence. }
  all: done.
Qed.

Lemma escapes_inj l1 l2 : Forall (λ b, 0 ≤ b < 256) l1 → Forall (λ b, 0 ≤ b < 256) l2 →
  (l1 ≫= escape) = (l2 ≫= escape) → l1 = l2.
Proof.
  intros H1. revert l2. induction H1 as [|b1 l1 Hb1 Hl1 IH]; intros l2 H2 Heq.
  - destruct H2 as [|b2 l2 Hb2 Hl2]; [done|]. csimpl in Heq. unfold escape in Heq. by case_match.
  - destruct H2 as [|b2 l2 Hb2 Hl2]; csimpl in Heq.
    + unfold escape in Heq. by case_match.
    + apply escape_inj in Heq as [-> Heq]; [|done..]. f_equal. by apply IH.
Qed.

Lemma canonical_component_inj s1 s2 : is_str s1 → is_str s2 →
  canonical_component s1 = canonical_component s2 → s1 = s2.
Proof.
  intros H1 H2 Heq. apply as_bytes_inj; [done..|].
  apply (escapes_inj (as_bytes s1) (as_bytes s2)); [by apply text_bytes_range..|done].
Qed.

(** A component has no separator. *)
Lemma canonical_component_separators s : is_str s →
  ("/"%B ∉ canonical_component s) ∧ ("@"%B ∉ canonical_component s).
Proof.
  intros Hs. assert (Forall (λ b, b ≠ "/"%B ∧ b ≠ "@"%B) (canonical_component s)) as Hf.
  { unfold canonical_component. apply Forall_bind. eapply Forall_impl; [by apply text_bytes_range|].
    simpl. intros b Hb. case_match eqn:E.
    - assert (∀ d, 0 ≤ d < 16 → upper_hex d ≠ "/"%B ∧ upper_hex d ≠ "@"%B) as Hh.
      { intros d Hd. unfold upper_hex. case_match; lia. }
      apply Forall_cons. split; [lia|]. apply Forall_cons. split; [apply Hh; div_lia|].
      apply Forall_singleton, Hh. div_lia.
    - apply is_escaped_false in E as (?&?&?). by apply Forall_singleton. }
  rewrite Forall_forall in Hf. split; intros Hin; by apply Hf in Hin as [??].
Qed.

Lemma app_separator {A} (x : A) l1 l2 r1 r2 : x ∉ l1 → x ∉ l2 →
  l1 ++ x :: r1 = l2 ++ x :: r2 → l1 = l2 ∧ r1 = r2.
Proof.
  revert l2. induction l1 as [|a l1 IH]; intros [|b l2] H1 H2 Heq; simplify_eq/=; [done| | |].
  - destruct H2. apply elem_of_cons. by left.
  - destruct H1. apply elem_of_cons. by left.
  - rewrite not_elem_of_cons in *. destruct (IH l2) as [-> ->]; naive_solver.
Qed.

Section Texts.
Context `{Semver}.

(** The canonical text identifies a package: two packages with the same text have
    the same namespace, name and version, for every Unicode namespace and name. *)
Theorem canonical_text_injective (p q : PackageId) (Hp : package_typed p) (Hq : package_typed q)
    (Htext : canonical_text p = canonical_text q) : p = q.
Proof.
  destruct p as [ns1 n1 [v1 t1]], q as [ns2 n2 [v2 t2]].
  destruct Hp as (P1&P2&P3&P4), Hq as (Q1&Q2&Q3&Q4). simpl in *.
  unfold canonical_text in Htext. simpl in Htext.
  apply app_separator in Htext as [E1 Htext]; [|by apply canonical_component_separators..].
  apply app_separator in Htext as [E2 E3]; [|by apply canonical_component_separators..].
  apply canonical_component_inj in E1, E2, E3; [|done..]. subst. congruence.
Qed.
End Texts.

(** Versions that are numbers separated by dots, for the examples: a text is its own
    parse when it consists of digits and dots. *)
Definition dotted (value : list Z) : option (list Z) :=
  if forallb (λ c, is_ascii_digit c || (c =? "."%B)) value then Some value else None.

Definition dotted_semver : Semver := {|
  Version := list Z;
  version_parse := dotted;
  cmp_precedence := λ a b, Z.of_nat (length a) ?= Z.of_nat (length b);
  pre_is_empty := λ _, true;
  VersionReq := unit;
  req_matches := λ _ _, true;
  req_text := λ _, ["*"%B];
|}.

Definition sample_package : @PackageId dotted_semver :=
  @mkPackageId dotted_semver (bytes_of_string "a/b") (bytes_of_string "c@d")
    (@mkPackageVersion dotted_semver (bytes_of_string "1.2.3") (bytes_of_string "1.2.3")).

Lemma canonical_text_injective_witness :
  @canonical_text dotted_semver sample_package = bytes_of_string "a%2Fb/c%40d@1.2.3" ∧
  ∀ q, @package_typed dotted_semver q → @canonical_text dotted_semver sample_package = canonical_text q →
    sample_package = q.
Proof.
  split; [reflexivity|]. intros q Hq Htext.
  apply (@canonical_text_injective dotted_semver sample_package q); [|exact Hq|exact Htext].
  unfold package_typed, version_typed. split_and!; [apply is_str_b_spec; reflexivity..|reflexivity].
Defined.
