(* ===== verification/PackageSolve.v ===== *)
(** * nia-package-metadata: selecting registry versions
      ([crates/nia-package-metadata/src/lib.rs], [solve_registry_versions])

    One version per registry package is chosen: the greatest release that satisfies
    every constraint on the package or, when there is none, the greatest prerelease. *)

From S2P Require Import Prelude RustStd RustOrd PackageIds.

(** [Iterator::max_by]: of equal elements the last. *)
Definition max_by {A} (cmp : A → A → comparison) (l : list A) : option A :=
  match l with
  | [] => None
  | x :: l => Some (foldl (λ x y, match cmp x y with Gt => x | Lt | Eq => y end) x l)
  end.

Section Solve.
Context `{Semver}.

Record RegistryPackageName := mkRegistryPackageName { reg_namespace : list Z; reg_name : list Z }.

#[global] Instance RegistryPackageName_eq_dec : EqDecision RegistryPackageName.
Proof. solve_decision. Defined.

(** The derived [Ord]. *)
Definition package_name_cmp (a b : RegistryPackageName) : comparison :=
  then_with (str_cmp (reg_namespace a) (reg_namespace b)) (str_cmp (reg_name a) (reg_name b)).

Record RegistryVersionConstraint := mkRegistryVersionConstraint {
  constrained : RegistryPackageName;
  requirement : VersionReq;
  requiring_package : PackageId;
  dependency_chain : list (list Z);
}.

(** [PackageVersionRequirement::matches]. *)
Definition requirement_matches (r : VersionReq) (v : PackageVersion) : bool := req_matches r (parsed v).

(** A [BTreeMap] from package names to their constraints, in key order. *)
Notation Groups := (list (RegistryPackageName * list RegistryVersionConstraint)).

(** [grouped.entry(constraint.package.clone()).or_default().push(constraint)]. *)
Fixpoint push_constraint (c : RegistryVersionConstraint) (grouped : Groups) : Groups :=
  match grouped with
  | [] => [(constrained c, [c])]
  | (package, cs) :: rest =>
      match package_name_cmp (constrained c) package with
      | Lt => (constrained c, [c]) :: grouped
      | Eq => (package, cs ++ [c]) :: rest
      | Gt => (package, cs) :: push_constraint c rest
      end
  end.

Definition group_constraints (constraints : list RegistryVersionConstraint) : Groups :=
  foldl (λ grouped c, push_constraint c grouped) [] constraints.

Definition matches_all (package : RegistryPackageName) (cs : list RegistryVersionConstraint)
    (candidate : PackageId) : bool :=
  bool_decide (namespace candidate = reg_namespace package)
  && bool_decide (package_name candidate = reg_name package)
  && forallb (λ c, requirement_matches (requirement c) (version candidate)) cs.

(** The order the two [max_by] calls use. *)
Definition candidate_cmp (left right : PackageId) : comparison :=
  then_with (cmp_precedence (parsed (version left)) (parsed (version right)))
    (str_cmp (version_text (version left)) (version_text (version right))).

Definition is_stable (candidate : PackageId) : bool := pre_is_empty (parsed (version candidate)).

Definition select_candidate (candidates : list PackageId) (package : RegistryPackageName)
    (cs : list RegistryVersionConstraint) : option PackageId :=
  let matching := List.filter (matches_all package cs) candidates in
  match max_by candidate_cmp (List.filter is_stable matching) with
  | Some candidate => Some candidate
  | None => max_by candidate_cmp matching
  end.

(** One line of the error message. *)
Definition constraint_detail (c : RegistryVersionConstraint) : list Z :=
  let requiring := canonical_text (requiring_package c) in
  let chain :=
    match dependency_chain c with
    | [] => requiring
    | chain => join_with (bytes_of_string " -> ") chain
    end in
  requiring ++ bytes_of_string " requires " ++ req_text (requirement c) ++ bytes_of_string " ("
    ++ chain ++ bytes_of_string ")".

Definition conflict_message (package : RegistryPackageName) (cs : list RegistryVersionConstraint) : list Z :=
  bytes_of_string "no single version of " ++ reg_namespace package ++ bytes_of_string "/"
    ++ reg_name package ++ bytes_of_string " satisfies all registry constraints: "
    ++ join_with (bytes_of_string "; ") (dedup (sort_by str_cmp (constraint_detail <$> cs))).

Fixpoint solve_groups (candidates : list PackageId) (grouped : Groups) :
    Result (list Z) (list (RegistryPackageName * PackageId)) :=
  match grouped with
  | [] => Ok []
  | (package, cs) :: grouped =>
      match select_candidate candidates package cs with
      | Some candidate =>
          selected ← solve_groups candidates grouped;
          Ok ((package, candidate) :: selected)
      | None => Err (conflict_message package cs)
      end
  end.

(** The result is the [BTreeMap] in key order; an error is its message. *)
Definition solve_registry_versions (constraints : list RegistryVersionConstraint)
    (candidates : list PackageId) : Result (list Z) (list (RegistryPackageName * PackageId)) :=
  solve_groups candidates (group_constraints constraints).
End Solve.
