(* ===== verification/PackageSolveProps.v ===== *)
(** * nia-package-metadata: the solver selects the best version or reports a conflict *)

From Stdlib Require Import Sorting.Sorted.
From S2P Require Import Prelude RustStd RustOrd PackageIds PackageSolve.

(** What the solver relies on of [semver]: [cmp_precedence] is a total preorder. *)
Class SemverOrder `{Semver} : Prop := {
  precedence_flip a b : cmp_precedence b a = CompOpp (cmp_precedence a b);
  precedence_trans a b c : cmp_precedence a b ≠ Gt → cmp_precedence b c ≠ Gt → cmp_precedence a c ≠ Gt;
}.

(** ** Comparisons *)

Lemma bytes_cmp_flip a b : bytes_cmp b a = CompOpp (bytes_cmp a b).
Proof. exact (@cmp_flip (list Z) list_ord list_ord_laws a b). Qed.

Lemma bytes_cmp_eq a b : bytes_cmp a b = Eq ↔ a = b.
Proof. exact (@cmp_eq (list Z) list_ord list_ord_laws a b). Qed.

Lemma bytes_cmp_trans a b c : bytes_cmp a b ≠ Gt → bytes_cmp b c ≠ Gt → bytes_cmp a c ≠ Gt.
Proof. exact (@cmp_trans (list Z) list_ord list_ord_laws a b c). Qed.

(** ** Greatest elements *)

Section Max.
Context {A} (cmp : A → A → comparison).
Context (Hflip : ∀ a b, cmp b a = CompOpp (cmp a b)).
Context (Htrans : ∀ a b c, cmp a b ≠ Gt → cmp b c ≠ Gt → cmp a c ≠ Gt).

Lemma max_by_spec l : match max_by cmp l with
  | Some m => m ∈ l ∧ ∀ x, x ∈ l → cmp x m ≠ Gt
  | None => l = []
  end.
Proof.
  destruct l as [|a l]; [done|]. simpl. revert a. induction l as [|b l IH]; intros a; simpl.
  - split; [apply elem_of_cons; by left|]. intros x ->%list_elem_of_singleton. pose proof (Hflip a a). by destruct (cmp a a).
  - set (m := match cmp a b with Gt => a | _ => b end).
    assert (cmp a m ≠ Gt ∧ cmp b m ≠ Gt ∧ (m = a ∨ m = b)) as (Ha&Hb&Hm).
    { pose proof (Hflip a b). pose proof (Hflip a a). pose proof (Hflip b b). subst m.
      destruct (cmp a b) eqn:E; rewrite ?E in *; simpl in *; split_and!; auto; try congruence;
        intros Hgt; rewrite Hgt in *; simpl in *; congruence. }
    destruct (IH m) as [Hin Hmax]. clear IH. revert Hin Hmax.
    generalize (foldl (λ x y, match cmp x y with Gt => x | _ => y end) m l) as r. intros r Hin Hmax.
    rewrite elem_of_cons in Hin. split.
    + rewrite !elem_of_cons. naive_solver.
    + assert (cmp m r ≠ Gt) by (apply Hmax, elem_of_cons; by left).
      intros x [->|[->|Hx]%elem_of_cons]%elem_of_cons; [by eapply Htrans..|].
      apply Hmax, elem_of_cons. by right.
Qed.
End Max.

Section Solve.
Context `{Semver} {Hord : SemverOrder}.

Lemma candidate_cmp_flip a b : candidate_cmp b a = CompOpp (candidate_cmp a b).
Proof. unfold candidate_cmp, str_cmp. by rewrite then_with_flip, <- precedence_flip, <- bytes_cmp_flip. Qed.

Lemma candidate_cmp_trans a b c :
  candidate_cmp a b ≠ Gt → candidate_cmp b c ≠ Gt → candidate_cmp a c ≠ Gt.
Proof.
  apply (then_with_trans (λ a b, cmp_precedence (parsed (version a)) (parsed (version b)))
           (λ a b, str_cmp (version_text (version a)) (version_text (version b)))).
  - intros. apply precedence_flip.
  - intros ???. apply precedence_trans.
  - apply bytes_cmp_trans.
Qed.

(** ** Groups *)

Definition name_typed (n : RegistryPackageName) : Prop := is_str (reg_namespace n) ∧ is_str (reg_name n).

Lemma str_cmp_eq a b : is_str a → is_str b → str_cmp a b = Eq ↔ a = b.
Proof. intros Ha Hb. unfold str_cmp. rewrite bytes_cmp_eq. split; [by apply as_bytes_inj|congruence]. Qed.

Lemma package_name_cmp_eq a b : name_typed a → name_typed b → package_name_cmp a b = Eq ↔ a = b.
Proof.
  destruct a as [x1 y1], b as [x2 y2]. intros [Hx1 Hy1] [Hx2 Hy2]. unfold package_name_cmp. simpl in *.
  pose proof (str_cmp_eq x1 x2 Hx1 Hx2) as Hx. pose proof (str_cmp_eq y1 y2 Hy1 Hy2) as Hy.
  destruct (str_cmp x1 x2); simpl; [|naive_solver..]. rewrite Hy. naive_solver.
Qed.

Definition name_lt (a b : RegistryPackageName) : Prop := package_name_cmp a b = Lt.

Lemma package_name_cmp_flip a b : package_name_cmp b a = CompOpp (package_name_cmp a b).
Proof. unfold package_name_cmp, str_cmp. by rewrite then_with_flip, <- !bytes_cmp_flip. Qed.

Lemma package_name_cmp_le_trans a b c :
  package_name_cmp a b ≠ Gt → package_name_cmp b c ≠ Gt → package_name_cmp a c ≠ Gt.
Proof.
  apply (then_with_trans (λ a b, str_cmp (reg_namespace a) (reg_namespace b))
           (λ a b, str_cmp (reg_name a) (reg_name b))).
  - intros. apply bytes_cmp_flip.
  - intros ???. apply bytes_cmp_trans.
  - apply bytes_cmp_trans.
Qed.

Lemma name_lt_trans a b c : name_lt a b → name_lt b c → name_lt a c.
Proof.
  unfold name_lt. intros H1 H2. pose proof (package_name_cmp_le_trans a b c) as H3.
  pose proof (package_name_cmp_le_trans b c a) as H4.
  rewrite (package_name_cmp_flip a c), (package_name_cmp_flip a b), H1, H2 in *.
  destruct (package_name_cmp a c); [|done|]; exfalso; [apply H4|apply H3]; done.
Qed.

Lemma name_lt_irrefl a : ¬ name_lt a a.
Proof. unfold name_lt. intros Ha. pose proof (package_name_cmp_flip a a) as Hf. by rewrite Ha in Hf. Qed.

(** The constraints of a package, when there are any. *)
Fixpoint assoc (p : RegistryPackageName) (g : list (RegistryPackageName * list RegistryVersionConstraint)) :
    option (list RegistryVersionConstraint) :=
  match g with
  | [] => None
  | (q, cs) :: g => if decide (p = q) then Some cs else assoc p g
  end.

Notation sorted g := (StronglySorted name_lt (fst <$> g)).

Lemma assoc_before p (g : list (RegistryPackageName * list RegistryVersionConstraint)) :
  Forall (name_lt p) (fst <$> g) → assoc p g = None.
Proof.
  induction g as [|[q cs] g IH]; [done|]. csimpl. intros [Hlt Hg]%Forall_cons.
  rewrite decide_False; [by apply IH|]. intros ->. by apply name_lt_irrefl in Hlt.
Qed.

Lemma assoc_elem p cs (g : list (RegistryPackageName * list RegistryVersionConstraint)) : sorted g →
  (p, cs) ∈ g ↔ assoc p g = Some cs.
Proof.
  induction g as [|[q cs'] g IH]; csimpl; [rewrite elem_of_nil; naive_solver|]. intros [Hs Hq]%StronglySorted_inv.
  rewrite elem_of_cons, IH by done. case_decide as Hd; [subst|naive_solver].
  rewrite (assoc_before q g) by done. naive_solver.
Qed.

Lemma push_constraint_spec c g :
  name_typed (constrained c) → Forall name_typed (fst <$> g) → sorted g →
  (∀ P : RegistryPackageName → Prop, P (constrained c) → Forall P (fst <$> g) →
     Forall P (fst <$> push_constraint c g)) ∧
  sorted (push_constraint c g) ∧
  ∀ p, assoc p (push_constraint c g) =
    if decide (p = constrained c) then Some (default [] (assoc p g) ++ [c]) else assoc p g.
Proof.
  intros Hc. induction g as [|[q cs] g IH]; csimpl; intros Hg Hs.
  { split_and!; [by constructor|repeat constructor|done]. }
  apply Forall_cons in Hg as [Hq Hg]. pose proof Hs as [Hs' Hlt]%StronglySorted_inv.
  destruct (IH Hg Hs') as (IH1&IH2&IH3).
  destruct (package_name_cmp (constrained c) q) eqn:E; csimpl.
  - apply package_name_cmp_eq in E as <-; [|done..]. split_and!; [done|done|]. intros p. by case_decide.
  - split_and!; [by constructor| |].
    + constructor; [done|]. constructor; [done|]. eapply Forall_impl; [done|]. intros x. by apply name_lt_trans.
    + intros p. case_decide as Hp; [|done]. subst p. rewrite decide_False.
      * rewrite assoc_before; [done|]. eapply Forall_impl; [done|]. intros x. by apply name_lt_trans.
      * intros Heq. rewrite <- Heq in E. by apply name_lt_irrefl in E.
  - assert (name_lt q (constrained c)) by (unfold name_lt; by rewrite package_name_cmp_flip, E).
    split_and!.
    + intros P HP [? ?]%Forall_cons. constructor; auto.
    + constructor; [done|]. by apply IH1.
    + intros p. rewrite IH3. case_decide as Hp; [|done]. subst p. rewrite decide_False; [done|].
      intros ->. by eapply name_lt_irrefl.
Qed.

Definition constraints_on (p : RegistryPackageName) (cs : list RegistryVersionConstraint) :=
  filter (λ c, constrained c = p) cs.

Lemma group_constraints_spec cs : Forall (λ c, name_typed (constrained c)) cs →
  sorted (group_constraints cs) ∧
  ∀ p, assoc p (group_constraints cs) =
    if decide (p ∈ constrained <$> cs) then Some (constraints_on p cs) else None.
Proof.
  intros Ht. cut (Forall name_typed (fst <$> group_constraints cs) ∧ sorted (group_constraints cs) ∧
    ∀ p, assoc p (group_constraints cs) =
      if decide (p ∈ constrained <$> cs) then Some (constraints_on p cs) else None); [naive_solver|].
  induction cs as [|c cs IH] using rev_ind.
  { split_and!; [constructor..|]. intros p. rewrite decide_False; [done|]. apply not_elem_of_nil. }
  apply Forall_app in Ht as [Ht [Hc _]%Forall_cons]. destruct (IH Ht) as (H1&H2&H3).
  unfold group_constraints in *. rewrite foldl_app. cbn [foldl].
  destruct (push_constraint_spec c _ Hc H1 H2) as (P1&P2&P3).
  split_and!; [by apply P1|done|]. intros p. rewrite P3, H3.
  unfold constraints_on. rewrite filter_app, fmap_app. csimpl.
  destruct (decide (p = constrained c)) as [->|Hp].
  - rewrite filter_singleton, (decide_True (P := _ = _)) by done.
    rewrite (decide_True (P := constrained c ∈ (constrained <$> cs) ++ _)) by (apply elem_of_app; right; by apply list_elem_of_singleton).
    case_decide as Hin; [done|]. rewrite (elem_of_nil_inv (filter _ cs)); [done|].
    intros x [Heq Hx]%list_elem_of_filter. apply Hin. rewrite <- Heq. by apply list_elem_of_fmap_2.
  - rewrite filter_singleton, (decide_False (P := constrained c = p)), app_nil_r by congruence.
    assert (p ∈ (constrained <$> cs) ++ [constrained c] ↔ p ∈ constrained <$> cs) as Hiff.
    { rewrite elem_of_app, list_elem_of_singleton. naive_solver. }
    case_decide; case_decide; naive_solver.
Qed.

(** ** Selection *)

(** A candidate of the package that satisfies every constraint on it. *)
Definition admissible (cs : list RegistryVersionConstraint) (p : RegistryPackageName) (id : PackageId) : Prop :=
  namespace id = reg_namespace p ∧ package_name id = reg_name p ∧
  ∀ c, c ∈ cs → constrained c = p → requirement_matches (requirement c) (version id) = true.

(** The greatest admissible release or, without one, the greatest admissible prerelease. *)
Definition best (cs : list RegistryVersionConstraint) (candidates : list PackageId)
    (p : RegistryPackageName) (id : PackageId) : Prop :=
  id ∈ candidates ∧ admissible cs p id ∧
  ∀ other, other ∈ candidates → admissible cs p other →
    (is_stable other = true → is_stable id = true) ∧
    (is_stable other = is_stable id → candidate_cmp other id ≠ Gt).

Lemma matches_all_spec cs p id : matches_all p (constraints_on p cs) id = true ↔ admissible cs p id.
Proof.
  unfold matches_all, admissible, constraints_on.
  rewrite !andb_true_iff, !bool_decide_eq_true, List.forallb_forall.
  setoid_rewrite <- list_elem_of_In. setoid_rewrite list_elem_of_filter. naive_solver.
Qed.

Lemma elem_of_list_filter_bool {A} (f : A → bool) l x : x ∈ List.filter f l ↔ f x = true ∧ x ∈ l.
Proof. rewrite !list_elem_of_In, List.filter_In. naive_solver. Qed.

Lemma select_candidate_spec cs candidates p :
  match select_candidate candidates p (constraints_on p cs) with
  | Some id => best cs candidates p id
  | None => ∀ id, id ∈ candidates → ¬ admissible cs p id
  end.
Proof.
  unfold select_candidate.
  pose proof (max_by_spec candidate_cmp candidate_cmp_flip candidate_cmp_trans) as Hmax.
  set (m := List.filter (matches_all p (constraints_on p cs)) candidates).
  assert (∀ id, id ∈ m ↔ admissible cs p id ∧ id ∈ candidates) as Hm.
  { intros id. subst m. by rewrite elem_of_list_filter_bool, matches_all_spec. }
  pose proof (Hmax (List.filter is_stable m)) as Hstable. pose proof (Hmax m) as Hall.
  destruct (max_by candidate_cmp (List.filter is_stable m)) as [id|].
  - destruct Hstable as [[Hst [??]%Hm]%elem_of_list_filter_bool Hgt]. split_and!; [done..|].
    intros other Ho Ha. split; [done|]. intros Heq. apply Hgt, elem_of_list_filter_bool.
    split; [congruence|by apply Hm].
  - assert (∀ id, id ∈ candidates → admissible cs p id → is_stable id = false) as Hno.
    { intros id Hid Ha. apply not_true_iff_false. intros Hst.
      assert (id ∈ List.filter is_stable m) as Hin by (apply elem_of_list_filter_bool; split; [done|by apply Hm]).
      rewrite Hstable in Hin. by apply not_elem_of_nil in Hin. }
    destruct (max_by candidate_cmp m) as [id|].
    + destruct Hall as [[??]%Hm Hgt]. split_and!; [done..|]. intros other Ho Ha.
      split; [by rewrite Hno|]. intros _. apply Hgt. by apply Hm.
    + intros id Hid Ha. assert (id ∈ m) as Hin by (by apply Hm). rewrite Hall in Hin.
      by apply not_elem_of_nil in Hin.
Qed.

Lemma solve_groups_spec cs candidates g :
  (∀ p l, (p, l) ∈ g → l = constraints_on p cs) →
  match solve_groups candidates g with
  | Ok selected => fst <$> selected = fst <$> g ∧ ∀ p id, (p, id) ∈ selected → best cs candidates p id
  | Err message => ∃ p, p ∈ fst <$> g ∧ message = conflict_message p (constraints_on p cs)
                   ∧ ∀ id, id ∈ candidates → ¬ admissible cs p id
  end.
Proof.
  induction g as [|[p l] g IH]; intros Hg; cbn [solve_groups].
  { split; [done|]. intros ?? []%not_elem_of_nil. }
  assert (l = constraints_on p cs) as -> by (apply Hg, elem_of_cons; by left).
  pose proof (select_candidate_spec cs candidates p) as Hsel.
  destruct (select_candidate candidates p (constraints_on p cs)) as [id|].
  - assert (∀ p l, (p, l) ∈ g → l = constraints_on p cs) as Hg' by (intros; apply Hg, elem_of_cons; by right).
    specialize (IH Hg'). destruct (solve_groups candidates g) as [selected|message]; csimpl.
    + destruct IH as [-> IH]. split; [done|]. intros p' id' [?|?]%elem_of_cons; simplify_eq; auto.
    + destruct IH as (p'&Hp'&?&?). exists p'. split; [by apply elem_of_cons; right|done].
  - exists p. split; [apply elem_of_cons; by left|done].
Qed.

(** C8: The solver gives every constrained package, in the order of their names, the
    greatest release that satisfies all the constraints on it, or the greatest prerelease
    when no release does; it fails only for a package without an admissible candidate,
    and names that package and its constraints. *)
Theorem solve_registry_versions_correct (constraints : list RegistryVersionConstraint)
    (candidates : list PackageId)
    (Htyped : Forall (λ c, name_typed (constrained c)) constraints) :
  match solve_registry_versions constraints candidates with
  | Ok selected =>
      StronglySorted name_lt (fst <$> selected) ∧
      (∀ p, p ∈ fst <$> selected ↔ p ∈ constrained <$> constraints) ∧
      ∀ p id, (p, id) ∈ selected → best constraints candidates p id
  | Err message =>
      ∃ p, p ∈ constrained <$> constraints ∧
           message = conflict_message p (constraints_on p constraints) ∧
           ∀ id, id ∈ candidates → ¬ admissible constraints p id
  end.
Proof.
  destruct (group_constraints_spec constraints Htyped) as [Hs Ha].
  assert (∀ p l, (p, l) ∈ group_constraints constraints ↔
            p ∈ constrained <$> constraints ∧ l = constraints_on p constraints) as Hg.
  { intros p l. rewrite assoc_elem, Ha by done. case_decide; naive_solver. }
  assert (∀ p, p ∈ fst <$> group_constraints constraints ↔ p ∈ constrained <$> constraints) as Hk.
  { intros p. rewrite list_elem_of_fmap. split; [intros ([p' l]&->&?%Hg); naive_solver|].
    intros Hp. exists (p, constraints_on p constraints). split; [done|]. by apply Hg. }
  pose proof (solve_groups_spec constraints candidates (group_constraints constraints)) as Hspec.
  unfold solve_registry_versions. destruct (solve_groups _ _) as [selected|message].
  - destruct Hspec as [-> Hbest]; [naive_solver|]. done.
  - destruct Hspec as (p&Hp&?&?); [naive_solver|]. exists p. split; [by apply Hk|done].
Qed.
End Solve.

(** ** An example

    Versions are numbers, a trailing dash marks a prerelease, and a requirement is a
    least version. *)

Fixpoint number (acc : Z) (text : list Z) : option (Z * bool) :=
  match text with
  | [] => Some (acc, true)
  | [45] => Some (acc, false)
  | c :: text => if is_ascii_digit c then number (acc * 10 + (c - "0"%B)) text else None
  end.

Definition counted_semver : Semver := {|
  Version := Z * bool;
  version_parse := number 0;
  cmp_precedence := λ a b, a.1 ?= b.1;
  pre_is_empty := snd;
  VersionReq := Z;
  req_matches := λ r v, r <=? v.1;
  req_text := λ _, bytes_of_string ">=";
|}.

#[global] Instance counted_order : @SemverOrder counted_semver.
Proof. split; simpl; [intros; apply Z.compare_antisym|intros ???; apply Z.le_trans]. Qed.

Definition counted_package (n : Z) (release : bool) (text : string) : @PackageId counted_semver :=
  @mkPackageId counted_semver (bytes_of_string "n") (bytes_of_string "p")
    (@mkPackageVersion counted_semver (n, release) (bytes_of_string text)).

Definition counted_constraint (least : Z) : @RegistryVersionConstraint counted_semver :=
  @mkRegistryVersionConstraint counted_semver
    (mkRegistryPackageName (bytes_of_string "n") (bytes_of_string "p")) least
    (counted_package 1 true "1") [].

(** The release 3 wins over the prerelease 4. *)
Lemma solve_registry_versions_correct_witness :
  let constraints := [counted_constraint 2; counted_constraint 3] in
  let candidates := [counted_package 3 true "3"; counted_package 4 false "4-"; counted_package 1 true "1"] in
  @best counted_semver constraints candidates
    (mkRegistryPackageName (bytes_of_string "n") (bytes_of_string "p")) (counted_package 3 true "3").
Proof.
  intros constraints candidates.
  assert (Forall (λ c, name_typed (@constrained counted_semver c)) constraints) as Ht.
  { repeat constructor; apply is_str_b_spec; reflexivity. }
  pose proof (@solve_registry_versions_correct counted_semver counted_order constraints candidates Ht) as Hs.
  assert (@solve_registry_versions counted_semver constraints candidates =
    Ok [(mkRegistryPackageName (bytes_of_string "n") (bytes_of_string "p"), counted_package 3 true "3")])
    as Hrun by (vm_compute; reflexivity).
  rewrite Hrun in Hs. destruct Hs as (_&_&Hbest). apply Hbest. apply elem_of_cons. left. reflexivity.
Defined.
