(* ===== verification/StableCodec.v ===== *)
(** * nia-package-metadata: writing and reading stable metadata
      ([crates/nia-package-metadata/src/lib.rs], the [put_*], [get_*] and [read_*]
      primitives)

    A writer appends to an output vector and may fail; a reader consumes a prefix of
    the slice under the cursor and may fail.  Both are written in the style of the
    source, with [?] as bind. *)

From S2P Require Import Prelude RustStd.

(** [MetadataError]. *)
Inductive MetadataError :=
  | BadMagic | Schema (schema : Z) | TooLarge | TooManyItems | Truncated
  | InvalidString | InvalidManifest | Io.

#[global] Instance MetadataError_eq_dec : EqDecision MetadataError.
Proof. solve_decision. Defined.

(** ** The protocol epoch ([crates/nia-compat/src/lib.rs]) *)

(** [decimal_component] on the bytes between two positions. *)
Definition decimal_component (bytes : list Z) (start end_ : nat) : Z :=
  foldl (λ value b, value * 10 + (b - "0"%B)) 0 (slice bytes start end_).

(** The first position from [i] on that holds a dot, or the length. *)
Fixpoint dot_from (bytes : list Z) (i : nat) : nat :=
  match bytes, i with
  | [], _ => 0
  | b :: bytes, O => if b =? "."%B then 0 else S (dot_from bytes 0)
  | _ :: bytes, S i => S (dot_from bytes i)
  end.

Definition release_compatibility (version : list Z) : Z :=
  let first_dot := dot_from version 0 in
  let second_dot := dot_from version (first_dot + 1) in
  let major := decimal_component version 0 first_dot in
  let minor := decimal_component version (first_dot + 1) second_dot in
  if major =? 0 then minor else major * 1000 + minor.

(** [CARGO_PKG_VERSION] of the workspace. *)
Definition COMPILER_VERSION : list Z := bytes_of_string "0.3.0-dev".

Definition PROTOCOL_EPOCH : Z := release_compatibility COMPILER_VERSION.

(** ** Limits *)

Definition MAX_STABLE_METADATA_BYTES : Z := 64 * 1024 * 1024.
Definition MAX_STRING_BYTES : Z := 16 * 1024 * 1024.
Definition MAX_ITEMS : Z := 1000000.
Definition MAX_DEFINITION_DEPTH : nat := 256.

(** The [len()] of a vector or a slice. *)
Definition len {A} (l : list A) : Z := Z.of_nat (length l).

(** The values of the unsigned types. *)
Definition is_u8 (v : Z) : Prop := 0 ≤ v < 2 ^ 8.
Definition is_u32 (v : Z) : Prop := 0 ≤ v < 2 ^ 32.
Definition is_u64 (v : Z) : Prop := 0 ≤ v < 2 ^ 64.
Definition is_u128 (v : Z) : Prop := 0 ≤ v < 2 ^ 128.

(** ** Little-endian integers *)

Fixpoint to_le_bytes (width : nat) (value : Z) : list Z :=
  match width with
  | O => []
  | S width => value mod 256 :: to_le_bytes width (value / 256)
  end.

Fixpoint from_le_bytes (bytes : list Z) : Z :=
  match bytes with
  | [] => 0
  | b :: bytes => b + 256 * from_le_bytes bytes
  end.

(** ** Writers *)

Definition Put : Type := list Z → Result MetadataError (list Z).

Definition put_nothing : Put := λ output, Ok output.
Definition put_fail (e : MetadataError) : Put := λ _, Err e.
Definition put_seq (p q : Put) : Put := λ output, output ← p output; q output.

Declare Scope put_scope.
Delimit Scope put_scope with put.
Infix ";>" := put_seq (at level 60, right associativity) : put_scope.
#[global] Open Scope put_scope.

(** A check before anything is written: the [?] on a [Result<(), MetadataError>]. *)
Definition put_check (r : Result MetadataError ()) : Put := λ output, _ ← r; Ok output.

Definition put_bytes (bytes : list Z) : Put := λ output, Ok (output ++ bytes).

(** [output.push(byte)]. *)
Definition put_u8 (byte : Z) : Put := put_bytes [byte].
Definition put_u32 (value : Z) : Put := put_bytes (to_le_bytes 4 value).
Definition put_u64 (value : Z) : Put := put_bytes (to_le_bytes 8 value).
Definition put_u128 (value : Z) : Put := put_bytes (to_le_bytes 16 value).

(** [u8::from(bool)]. *)
Definition put_bool (b : bool) : Put := put_u8 (if b then 1 else 0).

(** [for x in xs { put(output, x)?; }]. *)
Definition put_each {A} (put : A → Put) (xs : list A) : Put :=
  foldr (λ x p, put x ;> p) put_nothing xs.

(** [u32::try_from] of a length never fails below the limit of the check before it. *)
Definition put_list_len (count : Z) : Put :=
  if MAX_ITEMS <? count then put_fail TooManyItems
  else match checked 0 u32_max count with
       | Some v => put_u32 v
       | None => put_fail TooManyItems
       end.

Definition validate_string (value : list Z) : Result MetadataError () :=
  let bytes := as_bytes value in
  if (len bytes =? 0) || (MAX_STRING_BYTES <? len bytes) || existsb (Z.eqb 0) bytes
  then Err InvalidString else Ok ().

Definition put_string (value : list Z) : Put :=
  put_check (validate_string value) ;>
  match checked 0 u32_max (len (as_bytes value)) with
  | Some v => put_u32 v
  | None => put_fail TooLarge
  end ;>
  put_bytes (as_bytes value).

(** ** Readers *)

Definition Get (A : Type) : Type := list Z → Result MetadataError (A * list Z).

#[global] Instance Get_ret : MRet Get := λ A a bs, Ok (a, bs).
#[global] Instance Get_bind : MBind Get := λ A B f g bs,
  match g bs with Ok (a, rest) => f a rest | Err e => Err e end.

Definition get_fail {A} (e : MetadataError) : Get A := λ _, Err e.

(** A [Result] computed without reading. *)
Definition get_lift {A} (r : Result MetadataError A) : Get A := λ bs,
  match r with Ok a => Ok (a, bs) | Err e => Err e end.

(** [read_exact]: a cursor over a slice fails only at its end. *)
Definition read_exact (n : Z) : Get (list Z) := λ bs,
  if len bs <? n then Err Truncated else Ok (take (Z.to_nat n) bs, drop (Z.to_nat n) bs).

Definition read_u8 : Get Z := bytes ← read_exact 1; mret (default 0 (head bytes)).
Definition get_u32 : Get Z := bytes ← read_exact 4; mret (from_le_bytes bytes).
Definition get_u64 : Get Z := bytes ← read_exact 8; mret (from_le_bytes bytes).
Definition get_u128 : Get Z := bytes ← read_exact 16; mret (from_le_bytes bytes).

(** [match read_u8(cursor)? { 0 => false, 1 => true, _ => return Err(InvalidManifest) }]. *)
Definition read_bool : Get bool :=
  b ← read_u8;
  match b with
  | 0 => mret false
  | 1 => mret true
  | _ => get_fail InvalidManifest
  end.

(** The optional field behind a presence byte. *)
Definition read_option {A} (get : Get A) : Get (option A) :=
  b ← read_u8;
  match b with
  | 0 => mret None
  | 1 => a ← get; mret (Some a)
  | _ => get_fail InvalidManifest
  end.

Definition put_option {A} (put : A → Put) (o : option A) : Put :=
  match o with
  | Some a => put_u8 1 ;> put a
  | None => put_u8 0
  end.

(** [(0..count).map(|_| get(cursor)).collect()]. *)
Fixpoint get_many {A} (get : Get A) (count : nat) : Get (list A) :=
  match count with
  | O => mret []
  | S count => a ← get; l ← get_many get count; mret (a :: l)
  end.

(** [usize::try_from] of a [u32] cannot fail. *)
Definition bounded_len (value : Z) : Result MetadataError Z :=
  if value <=? MAX_STABLE_METADATA_BYTES then Ok value else Err TooLarge.
Definition bounded_count (value : Z) : Result MetadataError Z :=
  if value <=? MAX_ITEMS then Ok value else Err TooManyItems.

(** A length-prefixed list. *)
Definition get_list {A} (get : Get A) : Get (list A) :=
  n ← get_u32; count ← get_lift (bounded_count n); get_many get (Z.to_nat count).
Definition put_list {A} (put : A → Put) (xs : list A) : Put :=
  put_list_len (len xs) ;> put_each put xs.

Definition get_string : Get (list Z) :=
  n ← get_u32;
  length ← get_lift (bounded_len n);
  if length =? 0 then get_fail InvalidString
  else bytes ← read_exact length; get_lift (ok_or (utf8_decode bytes) InvalidString).

Definition put_refs : list Z → Put := put_list put_u32.
Definition read_refs : Get (list Z) := get_list get_u32.

(** ** Running a reader on a complete payload *)

(** [cursor.position() != bytes.len()] after the last read. *)
Definition at_end {A} (r : A * list Z) : Result MetadataError A :=
  match r with
  | (a, []) => Ok a
  | (_, _ :: _) => Err InvalidManifest
  end.
