(* ===== verification/StableCodecFacts.v ===== *)
(** * nia-package-metadata: writers and readers agree

    [writes p w]: the writer [p] succeeds on every output and appends [w].
    [reads g w a]: the reader [g] consumes exactly [w] and returns [a], whatever follows.
    [yields g Q]: whatever [g] returns, it consumed a prefix related to the result by [Q].
    A [Codec] packages a writer and a reader that are inverse of each other on the
    values of a type. *)

From S2P Require Import Prelude RustStd StableCodec.

Definition is_byte (b : Z) : Prop := 0 ≤ b < 256.
Notation are_bytes := (Forall is_byte).

Definition writes (p : Put) (w : list Z) : Prop := ∀ output, p output = Ok (output ++ w).
Definition fails (p : Put) : Prop := ∃ e, ∀ output, p output = Err e.

(** A writer appends the same bytes whatever was written before. *)
Definition appends (p : Put) : Prop := (∃ w, writes p w) ∨ fails p.

Definition reads {A} (g : Get A) (w : list Z) (a : A) : Prop :=
  ∀ rest, g (w ++ rest) = Ok (a, rest).

Definition yields {A} (g : Get A) (Q : A → list Z → Prop) : Prop :=
  ∀ bs a rest, are_bytes bs → g bs = Ok (a, rest) → ∃ w, bs = w ++ rest ∧ Q a w.

(** What a writer and a reader of the same data promise to each other, for the
    values that [typed] admits. *)
Class Codec {A} (put : A → Put) (get : Get A) (typed : A → Prop) : Prop := {
  codec_appends a : appends (put a);
  codec_reads a w : writes (put a) w → typed a → reads get w a;
  codec_yields : yields get (λ a w, typed a ∧ writes (put a) w);
}.

Lemma bind_ok {A B} (r : Result MetadataError A) (f : A → Result MetadataError B) b :
  (r ≫= f) = Ok b ↔ ∃ a, r = Ok a ∧ f a = Ok b.
Proof. destruct r; naive_solver. Qed.

(** ** Writers *)

Lemma writes_det p w1 w2 : writes p w1 → writes p w2 → w1 = w2.
Proof. intros H1 H2. specialize (H1 []). rewrite (H2 []) in H1. by simplify_eq/=. Qed.

Lemma writes_nothing : writes put_nothing [].
Proof. intros output. by rewrite app_nil_r. Qed.

Lemma writes_bytes w : writes (put_bytes w) w.
Proof. done. Qed.

Lemma writes_bytes_inv w w' : writes (put_bytes w) w' → w' = w.
Proof. intros H. by eapply writes_det. Qed.

Lemma writes_check r w : writes (put_check r) w ↔ r = Ok () ∧ w = [].
Proof.
  split.
  - intros Hw. assert (r = Ok ()) as ->. { specialize (Hw []). destruct r as [[]|]; [done|discriminate]. }
    split; [done|]. by apply (writes_det (put_check (Ok ()))), writes_nothing.
  - intros [-> ->]. apply writes_nothing.
Qed.

Lemma writes_seq p q w1 w2 : writes p w1 → writes q w2 → writes (p ;> q) (w1 ++ w2).
Proof.
  intros H1 H2 output. unfold put_seq. rewrite H1. csimpl. by rewrite H2, <- app_assoc.
Qed.

Lemma fails_not_writes p w : fails p → writes p w → False.
Proof. intros [e He] Hw. specialize (He []). rewrite (Hw []) in He. discriminate. Qed.

Lemma appends_bytes w : appends (put_bytes w).
Proof. left. by exists w. Qed.

Lemma appends_nothing : appends put_nothing.
Proof. left. exists []. apply writes_nothing. Qed.

Lemma appends_fail e : appends (put_fail e).
Proof. right. by exists e. Qed.

Lemma appends_check r : appends (put_check r).
Proof. destruct r as [[]|e]; [apply appends_nothing|right; by exists e]. Qed.

Lemma appends_seq p q : appends p → appends q → appends (p ;> q).
Proof.
  intros [[w1 H1]|[e He]].
  - intros [[w2 H2]|[e He]].
    + left. exists (w1 ++ w2). by apply writes_seq.
    + right. exists e. intros output. unfold put_seq. rewrite H1. csimpl. apply He.
  - intros _. right. exists e. intros output. unfold put_seq. by rewrite He.
Qed.

Lemma writes_seq_inv p q w : appends p → appends q → writes (p ;> q) w →
  ∃ w1 w2, w = w1 ++ w2 ∧ writes p w1 ∧ writes q w2.
Proof.
  intros [[w1 H1]|[e He]] Hq Hw.
  - destruct Hq as [[w2 H2]|[e He]].
    + exists w1, w2. split_and!; [|done..]. by eapply writes_det, writes_seq.
    + exfalso. specialize (Hw []). unfold put_seq in Hw. rewrite H1 in Hw. csimpl in Hw.
      rewrite He in Hw. discriminate.
  - exfalso. specialize (Hw []). unfold put_seq in Hw. rewrite He in Hw. discriminate.
Qed.

Lemma appends_each {A} (put : A → Put) xs : (∀ a, appends (put a)) → appends (put_each put xs).
Proof. intros H. induction xs; [apply appends_nothing|by apply appends_seq]. Qed.

Create HintDb codec discriminated.
#[export] Hint Resolve appends_bytes appends_nothing appends_fail appends_check appends_seq
  appends_each : codec.
#[export] Hint Extern 2 (appends (?put ?a)) => exact (codec_appends (put := put) a) : codec.
#[export] Hint Extern 1 (appends (put_u8 _)) => apply appends_bytes : codec.
#[export] Hint Extern 1 (appends (put_u32 _)) => apply appends_bytes : codec.
#[export] Hint Extern 1 (appends (put_u64 _)) => apply appends_bytes : codec.
#[export] Hint Extern 1 (appends (put_u128 _)) => apply appends_bytes : codec.
#[export] Hint Extern 1 (appends (put_bool _)) => apply appends_bytes : codec.

(** ** Readers *)

Lemma reads_ret {A} (a : A) : reads (mret a) [] a.
Proof. done. Qed.

Lemma reads_bind {A B} (g : Get A) (f : A → Get B) w1 w2 a b :
  reads g w1 a → reads (f a) w2 b → reads (g ≫= f) (w1 ++ w2) b.
Proof.
  intros H1 H2 rest. unfold mbind, Get_bind. rewrite <- app_assoc, H1. apply H2.
Qed.

Lemma reads_lift {A B} (r : Result MetadataError A) (f : A → Get B) w a b :
  r = Ok a → reads (f a) w b → reads (get_lift r ≫= f) w b.
Proof. intros -> H rest. apply H. Qed.

Lemma yields_ret {A} (a : A) (Q : A → list Z → Prop) : Q a [] → yields (mret a) Q.
Proof. intros HQ bs a' rest Hbs [= <- <-]. by exists []. Qed.

Lemma yields_fail {A} e (Q : A → list Z → Prop) : yields (get_fail e) Q.
Proof. intros bs a rest Hbs [=]. Qed.

Lemma yields_weaken {A} (g : Get A) (Q Q' : A → list Z → Prop) :
  yields g Q → (∀ a w, are_bytes w → Q a w → Q' a w) → yields g Q'.
Proof.
  intros H HQ bs a rest Hbs Hg. destruct (H bs a rest Hbs Hg) as (w&->&?).
  apply Forall_app in Hbs as [??]. eauto.
Qed.

Lemma yields_bind {A B} (g : Get A) (f : A → Get B) Q1 Q :
  yields g Q1 →
  (∀ a w1, are_bytes w1 → Q1 a w1 → yields (f a) (λ b w2, Q b (w1 ++ w2))) →
  yields (g ≫= f) Q.
Proof.
  intros Hg Hf bs b rest Hbs. unfold mbind, Get_bind. case_match eqn:E; [|discriminate].
  destruct a as [a mid]. intros Hb. destruct (Hg _ _ _ Hbs E) as (w1&->&H1).
  apply Forall_app in Hbs as [Hw1 Hmid].
  destruct (Hf a w1 Hw1 H1 _ _ _ Hmid Hb) as (w2&->&H2). exists (w1 ++ w2).
  by rewrite app_assoc.
Qed.

Lemma yields_lift {A B} (r : Result MetadataError A) (f : A → Get B) Q :
  (∀ a, r = Ok a → yields (f a) Q) → yields (get_lift r ≫= f) Q.
Proof.
  intros H bs b rest Hbs. unfold mbind, Get_bind, get_lift. destruct r as [a|e]; [|discriminate].
  intros Hb. by eapply H.
Qed.

(** A codec used as a step of a reader. *)
Lemma yields_codec {A B} (put : A → Put) (get : Get A) typed (f : A → Get B) Q :
  Codec put get typed →
  (∀ a w1, typed a → writes (put a) w1 → yields (f a) (λ b w2, Q b (w1 ++ w2))) →
  yields (get ≫= f) Q.
Proof.
  intros Hc Hf. eapply yields_bind; [apply codec_yields|]. intros a w1 _ [??]. by apply Hf.
Qed.

Lemma reads_codec {A B} (put : A → Put) (get : Get A) typed (f : A → Get B) a b w1 w2 :
  Codec put get typed → writes (put a) w1 → typed a → reads (f a) w2 b →
  reads (get ≫= f) (w1 ++ w2) b.
Proof. intros Hc Hw Ht Hf. eapply reads_bind; [by eapply codec_reads|done]. Qed.

(** ** Bytes and integers *)

Lemma to_le_bytes_length n v : length (to_le_bytes n v) = n.
Proof. revert v. induction n; intros; simpl; auto. Qed.

Lemma from_to_le_bytes n v : 0 ≤ v < 256 ^ Z.of_nat n → from_le_bytes (to_le_bytes n v) = v.
Proof.
  revert v. induction n as [|n IH]; intros v Hv; [simpl in *; lia|].
  cbn [to_le_bytes from_le_bytes]. rewrite Nat2Z.inj_succ, Z.pow_succ_r in Hv by lia.
  rewrite IH; [pose proof (Z.div_mod v 256); lia|]. split; [apply Z.div_pos; lia|].
  apply Z.div_lt_upper_bound; lia.
Qed.

Lemma from_le_bytes_range bs : are_bytes bs → 0 ≤ from_le_bytes bs < 256 ^ len bs.
Proof.
  unfold len. induction 1 as [|b bs Hb Hbs IH]; [simpl; lia|].
  cbn [from_le_bytes length]. unfold is_byte in Hb. rewrite Nat2Z.inj_succ, Z.pow_succ_r by lia. lia.
Qed.

Lemma to_from_le_bytes bs : are_bytes bs → to_le_bytes (length bs) (from_le_bytes bs) = bs.
Proof.
  induction 1 as [|b bs Hb Hbs IH]; [done|]. unfold is_byte in Hb. cbn [to_le_bytes from_le_bytes length].
  f_equal.
  - rewrite Z.mul_comm, Z.mod_add by lia. apply Z.mod_small. lia.
  - rewrite Z.mul_comm, Z.div_add by lia. rewrite Z.div_small by lia. by rewrite Z.add_0_l.
Qed.

Lemma read_exact_reads n w : len w = n → reads (read_exact n) w w.
Proof.
  intros <- rest. unfold read_exact, len. rewrite length_app, Nat2Z.id.
  case_match; bool_to_prop; [lia|]. by rewrite take_app_length, drop_app_length.
Qed.

Lemma read_exact_yields n : 0 ≤ n → yields (read_exact n) (λ a w, a = w ∧ len w = n).
Proof.
  intros Hn bs a rest Hbs. unfold read_exact, len. case_match; [discriminate|]. intros [= <- <-].
  bool_to_prop. exists (take (Z.to_nat n) bs). split_and!; [by rewrite take_drop|done|].
  rewrite length_take. lia.
Qed.

(** Unsigned integers of a given number of bytes. *)
Lemma le_codec (n : nat) (N := Z.of_nat n) :
  Codec (λ v, put_bytes (to_le_bytes n v)) (bytes ← read_exact N; mret (from_le_bytes bytes))
    (λ v, 0 ≤ v < 256 ^ N).
Proof.
  split.
  - intros a. apply appends_bytes.
  - intros v w Hw Hv. apply writes_bytes_inv in Hw as ->. rewrite <- (app_nil_r (to_le_bytes n v)).
    eapply reads_bind.
    + apply read_exact_reads. unfold len. by rewrite to_le_bytes_length.
    + rewrite from_to_le_bytes by done. apply reads_ret.
  - eapply yields_bind; [apply read_exact_yields; lia|]. intros a w Hw [-> Hlen].
    apply yields_ret. rewrite app_nil_r. split.
    + rewrite <- Hlen. by apply from_le_bytes_range.
    + replace n with (length w) by (unfold len in Hlen; lia). by rewrite to_from_le_bytes.
Qed.

#[global] Instance u32_codec : Codec put_u32 get_u32 is_u32 := le_codec 4.
#[global] Instance u64_codec : Codec put_u64 get_u64 is_u64 := le_codec 8.
#[global] Instance u128_codec : Codec put_u128 get_u128 is_u128 := le_codec 16.

#[global] Instance u8_codec : Codec put_u8 read_u8 is_u8.
Proof.
  split.
  - intros a. apply appends_bytes.
  - intros v w Hw Hv. apply writes_bytes_inv in Hw as ->. rewrite <- (app_nil_r [v]).
    eapply reads_bind; [by apply read_exact_reads|apply reads_ret].
  - eapply yields_bind; [apply read_exact_yields; lia|]. intros a w Hw [-> Hlen].
    apply yields_ret. rewrite app_nil_r. destruct w as [|b [|]]; [done| |unfold len in Hlen; simpl in Hlen; lia].
    rewrite Forall_singleton in Hw. split; [exact Hw|done].
Qed.

(** Splits what a sequence of writers wrote, and reads it back. *)
Ltac writes_inv :=
  repeat match goal with
  | H : writes (_ ;> _) _ |- _ =>
      apply writes_seq_inv in H as (?&?&->&?&?); [|solve [eauto 20 with codec]..]
  | H : writes (put_check _) _ |- _ => apply writes_check in H as [? ->]
  | H : writes put_nothing _ |- _ => apply (writes_det _ _ _ writes_nothing) in H as <-
  end.

(** The last step of a reader reads all that is left. *)
Ltac reads_last := match goal with |- reads _ ?w _ => rewrite <- (app_nil_r w) end.

#[global] Instance bool_codec : Codec put_bool read_bool (λ _, True).
Proof.
  split.
  - intros a. apply appends_bytes.
  - intros b w Hw _. rewrite <- (app_nil_r w).
    eapply (reads_codec put_u8 _ is_u8 _ (if b then 1 else 0)); [apply _|exact Hw|by destruct b|by destruct b].
  - eapply yields_codec; [apply _|]. intros [|p|p] w1 _ Hw;
      [apply yields_ret|destruct p; [apply yields_fail..|apply yields_ret]|apply yields_fail];
      by rewrite app_nil_r.
Qed.

Lemma put_option_appends {A} (put : A → Put) o : (∀ a, o = Some a → appends (put a)) →
  appends (put_option put o).
Proof. intros Ha. destruct o as [a|]; simpl; [|eauto with codec]. apply appends_seq; [eauto with codec|by apply Ha]. Qed.

Lemma read_option_reads {A} (put : A → Put) get o w :
  (∀ a, o = Some a → appends (put a)) →
  (∀ a w, o = Some a → writes (put a) w → reads get w a) →
  writes (put_option put o) w → reads (read_option get) w o.
Proof.
  intros Ha Hr Hw. destruct o as [a|]; simpl in Hw.
  - apply writes_seq_inv in Hw as (w1&w2&->&H1&H2); [|eauto with codec|by apply Ha].
    eapply (reads_codec put_u8 _ is_u8 _ 1); [apply _|done|done|]. cbn beta iota.
    reads_last. eapply reads_bind; [by apply Hr|apply reads_ret].
  - rewrite <- (app_nil_r w).
    eapply (reads_codec put_u8 _ is_u8 _ 0); [apply _|exact Hw|done|apply reads_ret].
Qed.

Lemma read_option_yields {A} (put : A → Put) get (typed : A → Prop) :
  yields get (λ a w, typed a ∧ writes (put a) w) →
  yields (read_option get) (λ o w, (∀ a, o = Some a → typed a) ∧ writes (put_option put o) w).
Proof.
  intros Hg. eapply yields_codec; [apply _|].
  intros [|p|p] w1 _ Hw; [|destruct p; [apply yields_fail..|]|apply yields_fail].
  - apply yields_ret. by rewrite app_nil_r.
  - eapply yields_bind; [done|]. intros a w2 _ [Ha Hw2]. apply yields_ret. rewrite app_nil_r.
    split; [by intros ? [= <-]|]. by apply writes_seq.
Qed.

#[global] Instance option_codec {A} (put : A → Put) get typed : Codec put get typed →
  Codec (put_option put) (read_option get) (λ o, ∀ a, o = Some a → typed a).
Proof.
  intros Hc. split.
  - intros o. apply put_option_appends. eauto with codec.
  - intros o w Hw Ht. revert Hw. apply read_option_reads; [eauto with codec|].
    intros a w' Ha Hw. apply codec_reads; [done|by apply Ht].
  - apply read_option_yields, codec_yields.
Qed.

Lemma codec_iff {A} (put : A → Put) get (typed typed' : A → Prop) :
  Codec put get typed → (∀ a, typed a ↔ typed' a) → Codec put get typed'.
Proof.
  intros Hc Hiff. split.
  - apply codec_appends.
  - intros a w Hw Ha. by apply codec_reads, Hiff.
  - eapply yields_weaken; [apply codec_yields|]. intros a w _ []. split; [by apply Hiff|done].
Qed.

(** ** Lists *)

Lemma get_many_reads {A} (put : A → Put) get typed xs w : Codec put get typed →
  Forall typed xs → writes (put_each put xs) w → reads (get_many get (length xs)) w xs.
Proof.
  intros Hc Hxs. revert w. induction Hxs as [|x xs Hx Hxs IH]; intros w Hw.
  - apply (writes_det _ _ _ writes_nothing) in Hw as <-. apply reads_ret.
  - change (writes (put x ;> put_each put xs) w) in Hw. writes_inv. cbn [get_many length].
    eapply reads_codec; [done..|]. reads_last.
    eapply reads_bind; [by apply IH|apply reads_ret].
Qed.

Lemma get_many_yields {A} (put : A → Put) get typed n : Codec put get typed →
  yields (get_many get n) (λ xs w, length xs = n ∧ Forall typed xs ∧ writes (put_each put xs) w).
Proof.
  intros Hc. induction n as [|n IH]; cbn [get_many].
  - apply yields_ret. split_and!; [done|constructor|apply writes_nothing].
  - eapply yields_codec; [done|]. intros a w1 Ha Hw1.
    eapply yields_bind; [apply IH|]. intros xs w2 _ (Hlen&Hxs&Hw2).
    apply yields_ret. rewrite app_nil_r. split_and!; [simpl; lia|by constructor|by apply writes_seq].
Qed.

Lemma put_list_len_appends n : appends (put_list_len n).
Proof. unfold put_list_len. repeat case_match; eauto with codec. Qed.
#[export] Hint Resolve put_list_len_appends : codec.

Lemma put_list_len_writes n w : 0 ≤ n →
  writes (put_list_len n) w ↔ n ≤ MAX_ITEMS ∧ writes (put_u32 n) w.
Proof.
  intros Hn. unfold put_list_len. assert (MAX_ITEMS < u32_max) by done. case_match; bool_to_prop.
  - split; [|lia]. intros Hw. by eapply fails_not_writes in Hw as []; [exists TooManyItems].
  - rewrite checked_in by lia. naive_solver.
Qed.

Lemma max_items_u32 n : 0 ≤ n ≤ MAX_ITEMS → is_u32 n.
Proof. unfold is_u32, MAX_ITEMS. lia. Qed.

#[global] Instance list_codec {A} (put : A → Put) get typed : Codec put get typed →
  Codec (put_list put) (get_list get) (Forall typed).
Proof.
  intros Hc. split.
  - intros xs. unfold put_list. eauto with codec.
  - intros xs w Hw Hxs. unfold put_list in Hw. writes_inv. rename H into Hn.
    apply put_list_len_writes in Hn as [Hn Hw1]; [|unfold len; lia].
    eapply (reads_codec put_u32 _ is_u32 _ (len xs)); [apply _|done|apply max_items_u32; unfold len in *; lia|].
    eapply reads_lift.
    { unfold bounded_count. by rewrite (proj2 (Z.leb_le _ _) Hn). }
    unfold len. rewrite Nat2Z.id. by eapply get_many_reads.
  - eapply yields_codec; [apply u32_codec|]. intros n w1 Hn Hw1. apply yields_lift. intros n' Hb.
    unfold bounded_count in Hb. case_match eqn:E; simplify_eq. apply Z.leb_le in E.
    eapply yields_weaken; [by apply get_many_yields|]. intros xs w2 _ (Hlen&Hxs&Hw2). split; [done|].
    apply writes_seq; [|done]. unfold len. rewrite Hlen, Z2Nat.id by apply Hn.
    apply put_list_len_writes; [apply Hn|done].
Qed.

#[global] Instance refs_codec : Codec put_refs read_refs (Forall is_u32) := list_codec _ _ _ _.

(** ** Strings *)

(** A string the writer accepts. *)
Definition is_valid_string (s : list Z) : Prop := is_str s ∧ validate_string s = Ok ().

Lemma put_string_appends s : appends (put_string s).
Proof. unfold put_string. case_match; eauto 10 with codec. Qed.
#[export] Hint Resolve put_string_appends : codec.

Lemma put_string_writes s w : writes (put_string s) w ↔
  validate_string s = Ok () ∧ 0 < len (as_bytes s) ≤ MAX_STRING_BYTES
  ∧ w = to_le_bytes 4 (len (as_bytes s)) ++ as_bytes s.
Proof.
  assert (MAX_STRING_BYTES < u32_max) as Hmax by done.
  assert (validate_string s = Ok () → 0 < len (as_bytes s) ≤ MAX_STRING_BYTES) as Hv.
  { unfold validate_string. case_match eqn:E; [done|]. bool_to_prop. unfold len in *. lia. }
  unfold put_string. split.
  - intros Hw. apply writes_seq_inv in Hw as (?&?&->&H1&Hw);
      [|apply appends_check|apply appends_seq; [case_match|]; eauto with codec].
    apply writes_check in H1 as [H1 ->]. split_and!; [done|by apply Hv..|].
    rewrite checked_in in Hw by (apply Hv in H1; lia).
    apply writes_seq_inv in Hw as (?&?&->&H2&H3); [|eauto with codec..].
    apply writes_bytes_inv in H2 as ->. by apply writes_bytes_inv in H3 as ->.
  - intros (H1&H2&->). rewrite checked_in by lia. rewrite <- (app_nil_l (_ ++ _)).
    apply writes_seq; [by apply writes_check|]. by apply writes_seq.
Qed.

Lemma get_string_reads s w : writes (put_string s) w → is_str s → reads get_string w s.
Proof.
  intros Hw Hs. apply put_string_writes in Hw as (_&Hlen&->).
  eapply (reads_codec put_u32 _ is_u32 _ (len (as_bytes s))); [apply _|done|unfold is_u32, MAX_STRING_BYTES in *; lia|].
  eapply reads_lift.
  { unfold bounded_len. rewrite (proj2 (Z.leb_le _ _)); [done|].
    unfold MAX_STRING_BYTES, MAX_STABLE_METADATA_BYTES in *. lia. }
  rewrite (proj2 (Z.eqb_neq _ _)) by lia. rewrite <- (app_nil_r (as_bytes s)) at 2.
  eapply reads_bind; [by apply read_exact_reads|]. rewrite utf8_decode_as_bytes by done. done.
Qed.

(** The reader accepts strings that the writer refuses: it does not look for NUL. *)
Lemma get_string_yields : yields get_string (λ s w, is_str s ∧ (validate_string s = Ok () → writes (put_string s) w)).
Proof.
  eapply yields_codec; [apply _|]. intros n w1 Hn Hw1. apply yields_lift. intros n' Hb.
  unfold bounded_len in Hb. case_match; simplify_eq. case_match; [apply yields_fail|].
  eapply yields_bind; [apply read_exact_yields; apply Hn|]. intros bs w2 Hw2 [-> Hlen].
  intros bs' s rest Hbs' Hs. unfold get_lift in Hs. destruct (utf8_decode w2) as [s'|] eqn:E; simplify_eq/=.
  exists []. split; [done|]. apply utf8_decode_sound in E as [Hs' <-]. split; [done|]. intros Hv.
  rewrite app_nil_r. apply put_string_writes. split_and!; [done|..].
  3: by apply writes_bytes_inv in Hw1 as ->.
  all: unfold validate_string in Hv; case_match eqn:E; [done|]; bool_to_prop; unfold len in *; lia.
Qed.
