(* ===== verification/StableIds.v ===== *)
(** * nia-package-metadata: module and definition identities
      ([crates/nia-package-metadata/src/lib.rs])

    A definition names its module and, for a nested member, its owner: owners form a
    chain, which validation and the reader bound by [MAX_DEFINITION_DEPTH]. *)

From S2P Require Import Prelude RustStd PackageIds StableCodec.

Section StableIds.
Context `{Semver}.

Record ModuleId := mkModuleId { package : PackageId; path : list Z }.

#[global] Instance ModuleId_eq_dec : EqDecision ModuleId.
Proof. solve_decision. Defined.

Inductive DefinitionId := mkDefinitionId {
  module : ModuleId;
  name : list Z;
  kind : Z;
  disambiguator : Z;
  owner : option DefinitionId;
}.

(** The derived [PartialEq]. *)
Fixpoint definition_eqb (a b : DefinitionId) {struct a} : bool :=
  bool_decide (module a = module b) && bool_decide (name a = name b)
  && (kind a =? kind b) && (disambiguator a =? disambiguator b)
  && match owner a, owner b with
     | Some a, Some b => definition_eqb a b
     | None, None => true
     | _, _ => false
     end.

(** ** Validation *)

Definition validate_id (id : PackageId) : Result MetadataError () :=
  _ ← validate_string (namespace id);
  _ ← validate_string (package_name id);
  _ ← validate_string (version_text (version id));
  if 128 <? len (as_bytes (version_text (version id))) then Err InvalidString else Ok ().

Definition validate_module_id (m : ModuleId) : Result MetadataError () :=
  _ ← validate_id (package m); validate_string (path m).

Fixpoint validate_definition_with_depth (definition : DefinitionId) (depth : nat)
    {struct definition} : Result MetadataError () :=
  if (MAX_DEFINITION_DEPTH <=? depth)%nat then Err TooManyItems
  else
    _ ← validate_id (package (module definition));
    _ ← validate_string (path (module definition));
    _ ← validate_string (name definition);
    _ ← match owner definition with
        | Some o =>
            if bool_decide (module o ≠ module definition) || definition_eqb o definition
            then Err InvalidManifest
            else validate_definition_with_depth o (depth + 1)
        | None => Ok ()
        end;
    if kind definition =? 0 then Err InvalidManifest else Ok ().

Definition validate_definition (definition : DefinitionId) : Result MetadataError () :=
  validate_definition_with_depth definition 0.

(** ** Writing *)

Definition put_id (id : PackageId) : Put :=
  put_string (namespace id) ;> put_string (package_name id)
  ;> put_string (version_text (version id)).

Definition put_module_id (m : ModuleId) : Put :=
  put_check (validate_module_id m) ;> put_id (package m) ;> put_string (path m).

Fixpoint put_definition (definition : DefinitionId) : Put :=
  put_check (validate_definition definition) ;>
  put_id (package (module definition)) ;>
  put_string (path (module definition)) ;>
  put_string (name definition) ;>
  put_u8 (kind definition) ;>
  put_u64 (disambiguator definition) ;>
  match owner definition with
  | Some o => put_u8 1 ;> put_definition o
  | None => put_u8 0
  end.

(** ** Reading *)

Definition get_id : Get PackageId :=
  ns ← get_string;
  n ← get_string;
  text ← get_string;
  v ← get_lift (ok_or (package_version_parse text) InvalidManifest);
  mret (mkPackageId ns n v).

Definition read_module_id : Get ModuleId :=
  p ← get_id;
  s ← get_string;
  _ ← get_lift (validate_module_id (mkModuleId p s));
  mret (mkModuleId p s).

(** [read_definition_with_depth], by the levels that are left: [depth] is
    [MAX_DEFINITION_DEPTH] less [room]. *)
Fixpoint read_definition_with_depth (room : nat) : Get DefinitionId :=
  match room with
  | O => get_fail TooManyItems
  | S room =>
      p ← get_id;
      s ← get_string;
      n ← get_string;
      k ← read_u8;
      d ← get_u64;
      o ← read_option (read_definition_with_depth room);
      let definition := mkDefinitionId (mkModuleId p s) n k d o in
      _ ← get_lift (validate_definition definition);
      mret definition
  end.

Definition read_definition : Get DefinitionId := read_definition_with_depth MAX_DEFINITION_DEPTH.

(** ** Complete payloads *)

Definition encode_module_id (m : ModuleId) : Result MetadataError (list Z) := put_module_id m [].

Definition decode_module_id (bytes : list Z) : Result MetadataError ModuleId :=
  if MAX_STABLE_METADATA_BYTES <? len bytes then Err TooLarge
  else r ← read_module_id bytes; at_end r.

Definition encode_definition_id (definition : DefinitionId) : Result MetadataError (list Z) :=
  _ ← validate_definition definition; put_definition definition [].

Definition decode_definition_id (bytes : list Z) : Result MetadataError DefinitionId :=
  if MAX_STABLE_METADATA_BYTES <? len bytes then Err TooLarge
  else
    r ← read_definition bytes;
    definition ← at_end r;
    _ ← validate_definition definition;
    Ok definition.

(** ** Types of the source *)

Definition module_typed (m : ModuleId) : Prop := package_typed (package m) ∧ is_str (path m).

Fixpoint definition_typed (d : DefinitionId) : Prop :=
  module_typed (module d) ∧ is_str (name d) ∧ is_u8 (kind d)
  ∧ is_u64 (disambiguator d)
  ∧ match owner d with Some o => definition_typed o | None => True end.
End StableIds.
