(* ===== verification/StableIdsFacts.v ===== *)
(** * nia-package-metadata: identities survive encoding *)

From S2P Require Import Prelude RustStd PackageIds StableCodec StableCodecFacts StableIds.

Section Facts.
Context `{Semver}.

(** The default principle says nothing of the owner. *)
Lemma DefinitionId_ind' (P : DefinitionId → Prop) :
  (∀ m n k d o, (∀ d', o = Some d' → P d') → P (mkDefinitionId m n k d o)) → ∀ d, P d.
Proof.
  intros HP. fix IH 1. intros [m n k d o]. apply HP. destruct o as [d'|]; [|discriminate].
  intros ? [= <-]. apply IH.
Qed.

Lemma definition_eqb_eq a b : definition_eqb a b = true ↔ a = b.
Proof.
  revert b. induction a as [m n k d o IH] using DefinitionId_ind'. intros [m' n' k' d' o'].
  cbn [definition_eqb module name kind disambiguator owner].
  rewrite !andb_true_iff, !bool_decide_eq_true, !Z.eqb_eq.
  destruct o as [a|], o' as [b|]; try naive_solver.
  rewrite IH by done. naive_solver.
Qed.

(** An owner is smaller than what it owns. *)
Lemma definition_not_own_owner d o : owner d = Some o → definition_eqb o d = false.
Proof.
  intros Ho. apply not_true_iff_false. rewrite definition_eqb_eq. intros ->.
  induction d as [m n k dis o IH] using DefinitionId_ind'. simpl in Ho. by apply (IH _ Ho).
Qed.

(** ** Packages *)

Lemma validate_id_ok p : validate_id p = Ok () ↔
  validate_string (namespace p) = Ok () ∧ validate_string (package_name p) = Ok ()
  ∧ validate_string (version_text (version p)) = Ok () ∧ len (as_bytes (version_text (version p))) ≤ 128.
Proof.
  unfold validate_id. rewrite bind_ok. setoid_rewrite bind_ok. setoid_rewrite bind_ok.
  split.
  - intros ([]&?&[]&?&[]&?&E). case_match; bool_to_prop; [done|]. done.
  - intros (?&?&?&?). exists (). split; [done|]. exists (). split; [done|]. exists (). split; [done|].
    case_match; bool_to_prop; [lia|done].
Qed.

Lemma put_id_appends p : appends (put_id p).
Proof. unfold put_id. eauto with codec. Qed.
#[local] Hint Resolve put_id_appends : codec.

Lemma get_id_reads p w : writes (put_id p) w → package_typed p → reads get_id w p.
Proof.
  intros Hw (H1&H2&H3&H4). unfold put_id in Hw. writes_inv. destruct p as [ns n [v t]]. simpl in *.
  unfold get_id. eapply reads_bind; [by apply get_string_reads|].
  eapply reads_bind; [by apply get_string_reads|]. reads_last.
  eapply reads_bind; [by apply get_string_reads|].
  eapply reads_lift; [|apply reads_ret]. unfold package_version_parse. by rewrite H4.
Qed.

Lemma get_id_yields : yields get_id
  (λ p w, package_typed p ∧ (validate_id p = Ok () → writes (put_id p) w)).
Proof.
  unfold get_id. eapply yields_bind; [apply get_string_yields|]. intros ns w1 _ [Hns Hw1].
  eapply yields_bind; [apply get_string_yields|]. intros n w2 _ [Hn Hw2].
  eapply yields_bind; [apply get_string_yields|]. intros t w3 _ [Ht Hw3].
  apply yields_lift. intros v Hv. apply yields_ret. rewrite app_nil_r.
  unfold package_version_parse in Hv. destruct (version_parse t) as [pv|] eqn:E; simplify_eq/=.
  split; [done|]. rewrite validate_id_ok. simpl. intros (?&?&?&_).
  repeat apply writes_seq; auto.
Qed.

(** ** Modules *)

Lemma validate_module_id_ok m : validate_module_id m = Ok () ↔
  validate_id (package m) = Ok () ∧ validate_string (path m) = Ok ().
Proof. unfold validate_module_id. rewrite bind_ok. split; [by intros ([]&?&?)|intros [??]; by exists ()]. Qed.

#[global] Instance module_codec : Codec put_module_id read_module_id module_typed.
Proof.
  split.
  - intros m. unfold put_module_id. eauto with codec.
  - intros [p s] w Hw [Hp Hs]. unfold put_module_id in Hw. writes_inv. simpl in *.
    unfold read_module_id. eapply reads_bind; [by apply get_id_reads|]. reads_last.
    eapply reads_bind; [by apply get_string_reads|]. eapply reads_lift; [done|apply reads_ret].
  - unfold read_module_id. eapply yields_bind; [apply get_id_yields|]. intros p w1 _ [Hp Hw1].
    eapply yields_bind; [apply get_string_yields|]. intros s w2 _ [Hs Hw2].
    apply yields_lift. intros [] Hv. apply yields_ret. rewrite app_nil_r. split; [done|].
    pose proof Hv as [H1 H2]%validate_module_id_ok. rewrite <- (app_nil_l (_ ++ _)).
    apply writes_seq; [by apply writes_check|]. apply writes_seq; auto.
Qed.

(** ** Definitions *)

Lemma validate_definition_ok d depth : validate_definition_with_depth d depth = Ok () ↔
  (depth < MAX_DEFINITION_DEPTH)%nat ∧ validate_module_id (module d) = Ok ()
  ∧ validate_string (name d) = Ok () ∧ kind d ≠ 0
  ∧ ∀ o, owner d = Some o → module o = module d ∧ validate_definition_with_depth o (depth + 1) = Ok ().
Proof.
  destruct d as [m n k dis o]. cbn [validate_definition_with_depth module name kind owner].
  destruct (MAX_DEFINITION_DEPTH <=? depth)%nat eqn:E.
  { apply Nat.leb_le in E. split; [done|lia]. }
  apply Nat.leb_gt in E. rewrite validate_module_id_ok, !bind_ok. setoid_rewrite bind_ok. setoid_rewrite bind_ok.
  setoid_rewrite bind_ok.
  split.
  - intros ([]&?&[]&?&[]&?&[]&Ho&Hk). destruct (k =? 0) eqn:Ek; [done|]. bool_to_prop.
    split_and!; [done..|]. intros x ->. case_match eqn:Ex; [done|]. apply orb_false_iff in Ex as [Ex _].
    by apply bool_decide_eq_false, dec_stable in Ex.
  - intros (?&[??]&?&?&Ho). exists (). split; [done|]. exists (). split; [done|]. exists (). split; [done|].
    exists (). split; [|by rewrite (proj2 (Z.eqb_neq k 0))]. destruct o as [x|]; [|done].
    destruct (Ho x eq_refl) as [Hm Hv]. rewrite bool_decide_eq_false_2 by tauto.
    by rewrite definition_not_own_owner.
Qed.

Lemma put_definition_appends d : appends (put_definition d).
Proof.
  induction d as [m n k dis o IH] using DefinitionId_ind'. cbn [put_definition owner].
  repeat (apply appends_seq; [eauto with codec|]). by apply (put_option_appends put_definition).
Qed.
#[local] Hint Resolve put_definition_appends : codec.

(** What is written determines the fields and that they are valid. *)
Lemma put_definition_writes m n k dis o w : writes (put_definition (mkDefinitionId m n k dis o)) w ↔
  validate_definition (mkDefinitionId m n k dis o) = Ok () ∧
  writes (put_id (package m) ;> put_string (path m) ;> put_string n ;> put_u8 k ;> put_u64 dis
    ;> put_option put_definition o) w.
Proof.
  cbn [put_definition owner module name kind disambiguator].
  change (match o with Some o => put_u8 1 ;> put_definition o | None => put_u8 0 end)
    with (put_option put_definition o).
  split.
  - intros Hw. apply writes_seq_inv in Hw as (?&?&->&[? ->]%writes_check&?);
      [done|eauto with codec|].
    repeat (apply appends_seq; [eauto with codec|]). apply put_option_appends. eauto with codec.
  - intros [Hv Hw]. rewrite <- (app_nil_l w). apply writes_seq; [by apply writes_check|done].
Qed.

Lemma read_definition_reads d depth room w :
  definition_typed d → validate_definition_with_depth d depth = Ok () →
  (depth + room = MAX_DEFINITION_DEPTH)%nat → writes (put_definition d) w →
  reads (read_definition_with_depth room) w d.
Proof.
  revert depth room w. induction d as [m n k dis o IH] using DefinitionId_ind'.
  intros depth room w ([Hp Hs]&Hn&Hk&Hdis&Ho) Hv Hroom [Hvalid Hw]%put_definition_writes.
  apply validate_definition_ok in Hv as (Hdepth&_&_&_&Hv). simpl in *.
  destruct room as [|room]; [lia|]. cbn [read_definition_with_depth].
  assert (appends (put_option put_definition o)) by (apply put_option_appends; eauto with codec).
  writes_inv. eapply reads_bind; [by apply get_id_reads|].
  eapply reads_bind; [by apply get_string_reads|]. eapply reads_bind; [by apply get_string_reads|].
  eapply (reads_codec put_u8); [apply _|done..|]. eapply (reads_codec put_u64); [apply _|done..|].
  reads_last. destruct m as [p s].
  eapply reads_bind; [|eapply reads_lift; [done|apply reads_ret]].
  apply (read_option_reads put_definition); [eauto with codec| |done].
  intros d w' -> Hw'. destruct (Hv d eq_refl) as [_ Hvd]. eapply IH; [done..| |done]. lia.
Qed.

Lemma read_definition_yields room : yields (read_definition_with_depth room)
  (λ d w, definition_typed d ∧ writes (put_definition d) w).
Proof.
  induction room as [|room IH]; cbn [read_definition_with_depth]; [apply yields_fail|].
  eapply yields_bind; [apply get_id_yields|]. intros p w1 _ [Hp Hw1].
  eapply yields_bind; [apply get_string_yields|]. intros s w2 _ [Hs Hw2].
  eapply yields_bind; [apply get_string_yields|]. intros n w3 _ [Hn Hw3].
  eapply yields_codec; [apply _|]. intros k w4 Hk Hw4.
  eapply yields_codec; [apply _|]. intros dis w5 Hdis Hw5.
  eapply yields_bind; [by apply read_option_yields|]. intros o w6 _ [Ho Hw6].
  apply yields_lift. intros [] Hv. apply yields_ret. rewrite app_nil_r. split.
  - cbn [definition_typed module name kind disambiguator owner].
    split_and!; [done..|]. destruct o as [d|]; [by apply Ho|done].
  - apply put_definition_writes. split; [done|].
    apply validate_definition_ok in Hv as (_&[]%validate_module_id_ok&?&_). simpl in *.
    repeat apply writes_seq; auto.
Qed.

Lemma writes_valid_definition d w : writes (put_definition d) w → validate_definition d = Ok ().
Proof. destruct d. by intros [??]%put_definition_writes. Qed.

#[global] Instance definition_codec : Codec put_definition read_definition definition_typed.
Proof.
  split.
  - apply put_definition_appends.
  - intros d w Hw Hd. eapply (read_definition_reads d 0); [done| |done..].
    by eapply writes_valid_definition.
  - apply read_definition_yields.
Qed.
End Facts.
