(* ===== verification/StableTypes.v ===== *)
(** * nia-package-metadata: stable type graphs
      ([crates/nia-package-metadata/src/lib.rs])

    A graph is a list of nodes that refer to earlier nodes by position, and a list of
    roots.  [validate] states what a graph must satisfy; [encode_type_graph] and
    [decode_type_graph] are its binary form. *)

From S2P Require Import Prelude RustStd PackageIds StableCodec StableIds.

Section StableTypes.
Context `{Semver}.

(** ** Data *)

Inductive StableConstValue :=
  | GenericParamValue (hash : Z)
  | IntegerValue (bits : Z) (signed : bool)
  | BoolValue (value : bool)
  | CharValue (value : Z).

Record StableConstArg := mkStableConstArg { const_ty : Z; const_value : StableConstValue }.

Inductive StableTraitId :=
  | SourceTrait (definition : DefinitionId)
  | Builtin (tag : Z).

Record StableAssociatedTypeBinding := mkStableAssociatedTypeBinding {
  binding_trait : option StableTraitId;
  binding_arguments : list Z;
  binding_const_arguments : list StableConstArg;
  binding_name : Z;
  binding_ty : Z;
}.

Record StableClosureOwnerInstance := mkStableClosureOwnerInstance {
  arg_module : ModuleId;
  self_arg : option Z;
  instance_args : list Z;
  instance_const_args : list StableConstArg;
}.

Inductive StableArrayLength :=
  | ConstLength (value : Z)
  | GenericLength (hash : Z).

Inductive StableTypeNode :=
  | Primitive (tag : Z)
  | Named (definition : DefinitionId)
  | NamedApplied (definition : DefinitionId) (arguments : list Z) (const_arguments : list StableConstArg)
  | UnitType
  | Never
  | Tuple (elements : list Z)
  | Array (element : Z) (length : StableArrayLength)
  | FunctionType (parameters : list Z) (result : Z) (is_extern : bool)
  | Reference (target : Z) (mutable : bool)
  | Pointer (target : Z) (readonly : bool)
  | GenericParam (index : Z)
  | ErrorType
  | ConstOnly
  | Opaque_
  | VolatilePointer (target : Z) (readonly : bool)
  | Slice (target : Z) (readonly : bool)
  | SlicePointee (target : Z)
  | Vector (element lanes : Z)
  | RangeType (kind : Z) (bound : option Z)
  | Optional (element : Z)
  | ErrorUnion (error value : Z)
  | Callable (parameters : list Z) (result : Z) (readonly : bool)
  | CallablePointee (parameters : list Z) (result : Z)
  | SelfParam
  | BuiltinType (tag : Z)
  | BuiltinTrait (trait_id : Z) (arguments : list Z)
  | TraitObject (readonly : bool) (trait_id : StableTraitId) (trait_arguments : list Z)
      (trait_const_arguments : list StableConstArg)
      (associated_type_bindings : list StableAssociatedTypeBinding)
  | TraitObjectPointee (trait_id : StableTraitId) (trait_arguments : list Z)
      (trait_const_arguments : list StableConstArg)
      (associated_type_bindings : list StableAssociatedTypeBinding)
  | Projection (self_ty : Z) (trait_id : StableTraitId) (trait_arguments : list Z)
      (trait_const_arguments : list StableConstArg) (projected : Z)
  | ClosureState (closure_owner : DefinitionId) (ordinal : Z)
      (owner_instance : option StableClosureOwnerInstance)
      (captures parameters : list Z) (result : Z).

Record StableTypeGraph := mkStableTypeGraph { nodes : list StableTypeNode; roots : list Z }.

(** ** Validation *)

(** [BuiltinTrait::from_stable_tag(tag).is_some()]: the tags of the 28 traits. *)
Definition is_stable_tag (tag : Z) : bool := (1 <=? tag) && (tag <=? 28).

Definition validate_stable_trait_id (trait_id : StableTraitId) : Result MetadataError () :=
  match trait_id with
  | SourceTrait definition => validate_definition definition
  | Builtin tag => if is_stable_tag tag then Ok () else Err InvalidManifest
  end.

Definition validate_stable_const_arguments (arguments : list StableConstArg) : Result MetadataError () :=
  if MAX_ITEMS <? len arguments then Err TooManyItems else Ok ().

(** What one binding adds to [references]. *)
Definition binding_references (binding : StableAssociatedTypeBinding) : Result MetadataError (list Z) :=
  _ ← match binding_trait binding with
      | Some trait_id => validate_stable_trait_id trait_id
      | None => Ok ()
      end;
  _ ← validate_stable_const_arguments (binding_const_arguments binding);
  Ok (binding_arguments binding ++ (const_ty <$> binding_const_arguments binding) ++ [binding_ty binding]).

Fixpoint bindings_references (bindings : list StableAssociatedTypeBinding) : Result MetadataError (list Z) :=
  match bindings with
  | [] => Ok []
  | binding :: bindings =>
      here ← binding_references binding;
      there ← bindings_references bindings;
      Ok (here ++ there)
  end.

(** The arm shared by [TraitObject] and [TraitObjectPointee]. *)
Definition trait_object_references (trait_id : StableTraitId) (trait_arguments : list Z)
    (trait_const_arguments : list StableConstArg) (bindings : list StableAssociatedTypeBinding) :
    Result MetadataError (list Z) :=
  _ ← validate_stable_trait_id trait_id;
  _ ← validate_stable_const_arguments trait_const_arguments;
  if MAX_ITEMS <? len bindings then Err TooManyItems
  else
    bound ← bindings_references bindings;
    Ok (trait_arguments ++ (const_ty <$> trait_const_arguments) ++ bound).

(** The [references] of a node, or the error its own fields give. *)
Definition node_references (node : StableTypeNode) : Result MetadataError (list Z) :=
  match node with
  | Primitive tag => if tag =? 0 then Err InvalidManifest else Ok []
  | UnitType | Never | ErrorType | ConstOnly | Opaque_ | SelfParam | BuiltinType _ => Ok []
  | Named definition => _ ← validate_definition definition; Ok []
  | NamedApplied definition arguments const_arguments =>
      _ ← validate_definition definition;
      _ ← validate_stable_const_arguments const_arguments;
      Ok (arguments ++ (const_ty <$> const_arguments))
  | Tuple elements => Ok elements
  | Array element _ => Ok [element]
  | FunctionType parameters result _ => Ok (parameters ++ [result])
  | Reference target _ | Pointer target _ | VolatilePointer target _ | Slice target _
  | SlicePointee target | Optional target => Ok [target]
  | ErrorUnion error value => Ok [error; value]
  | RangeType kind bound => if 5 <? kind then Err InvalidManifest else Ok (option_list bound)
  | Vector element lanes =>
      if negb ((1 <=? element) && (element <=? 16)) || (lanes =? 0) then Err InvalidManifest else Ok []
  | Callable parameters result _ | CallablePointee parameters result => Ok (parameters ++ [result])
  | BuiltinTrait trait_id arguments => if is_stable_tag trait_id then Ok arguments else Err InvalidManifest
  | TraitObject _ trait_id arguments const_arguments bindings
  | TraitObjectPointee trait_id arguments const_arguments bindings =>
      trait_object_references trait_id arguments const_arguments bindings
  | Projection self_ty trait_id arguments const_arguments _ =>
      _ ← validate_stable_trait_id trait_id;
      _ ← validate_stable_const_arguments const_arguments;
      Ok ([self_ty] ++ arguments ++ (const_ty <$> const_arguments))
  | ClosureState owner _ owner_instance captures parameters result =>
      _ ← validate_definition owner;
      here ← match owner_instance with
             | Some inst =>
                 _ ← validate_module_id (arg_module inst);
                 _ ← validate_stable_const_arguments (instance_const_args inst);
                 Ok (option_list (self_arg inst) ++ instance_args inst
                       ++ (const_ty <$> instance_const_args inst))
             | None => Ok []
             end;
      Ok (here ++ captures ++ parameters ++ [result])
  | GenericParam _ => Ok []
  end.

Definition validate_node (index : Z) (node : StableTypeNode) : Result MetadataError () :=
  references ← node_references node;
  if existsb (λ reference, index <=? reference) references then Err InvalidManifest
  else if MAX_ITEMS <? len references then Err TooManyItems
  else Ok ().

Fixpoint validate_nodes (index : Z) (nodes : list StableTypeNode) : Result MetadataError () :=
  match nodes with
  | [] => Ok ()
  | node :: nodes => _ ← validate_node index node; validate_nodes (index + 1) nodes
  end.

(** [roots.windows(2).any(|pair| pair[0] >= pair[1])]. *)
Fixpoint any_window_ge (roots : list Z) : bool :=
  match roots with
  | a :: (b :: _) as rest => (b <=? a) || any_window_ge rest
  | _ => false
  end.

Definition validate (graph : StableTypeGraph) : Result MetadataError () :=
  if (MAX_ITEMS <? len (nodes graph)) || (MAX_ITEMS <? len (roots graph)) then Err TooManyItems
  else if any_window_ge (roots graph) || existsb (λ root, len (nodes graph) <=? root) (roots graph)
  then Err InvalidManifest
  else validate_nodes 0 (nodes graph).

(** ** Writing *)

Definition put_const_value (value : StableConstValue) : Put :=
  match value with
  | GenericParamValue hash => put_u8 0 ;> put_u64 hash
  | IntegerValue bits signed => put_u8 1 ;> put_u128 bits ;> put_bool signed
  | BoolValue value => put_u8 2 ;> put_bool value
  | CharValue value => put_u8 3 ;> put_u32 value
  end.

Definition put_stable_const_arg (argument : StableConstArg) : Put :=
  put_u32 (const_ty argument) ;> put_const_value (const_value argument).

Definition put_stable_const_args : list StableConstArg → Put := put_list put_stable_const_arg.

Definition put_stable_trait_id (trait_id : StableTraitId) : Put :=
  match trait_id with
  | SourceTrait definition => put_u8 0 ;> put_definition definition
  | Builtin tag => put_u8 1 ;> put_u8 tag
  end.

Definition put_stable_associated_binding (binding : StableAssociatedTypeBinding) : Put :=
  put_option put_stable_trait_id (binding_trait binding) ;>
  put_refs (binding_arguments binding) ;>
  put_stable_const_args (binding_const_arguments binding) ;>
  put_u64 (binding_name binding) ;>
  put_u32 (binding_ty binding).

Definition put_stable_associated_bindings : list StableAssociatedTypeBinding → Put :=
  put_list put_stable_associated_binding.

Definition put_owner_instance (inst : StableClosureOwnerInstance) : Put :=
  put_module_id (arg_module inst) ;>
  put_option put_u32 (self_arg inst) ;>
  put_refs (instance_args inst) ;>
  put_stable_const_args (instance_const_args inst).

Definition put_array_length (length : StableArrayLength) : Put :=
  match length with
  | ConstLength value => put_u8 0 ;> put_u64 value
  | GenericLength hash => put_u8 1 ;> put_u64 hash
  end.

(** The body of the loop over the nodes in [encode_type_graph]. *)
Definition put_node (node : StableTypeNode) : Put :=
  match node with
  | Primitive tag => put_u8 1 ;> put_u8 tag
  | Named definition => put_u8 2 ;> put_definition definition
  | NamedApplied definition arguments const_arguments =>
      put_u8 11 ;> put_definition definition ;> put_refs arguments ;> put_stable_const_args const_arguments
  | UnitType => put_u8 3
  | Never => put_u8 4
  | Tuple elements => put_u8 5 ;> put_refs elements
  | Array element length => put_u8 6 ;> put_u32 element ;> put_array_length length
  | FunctionType parameters result is_extern =>
      put_u8 7 ;> put_refs parameters ;> put_u32 result ;> put_bool is_extern
  | Reference target mutable => put_u8 8 ;> put_u32 target ;> put_bool mutable
  | Pointer target readonly => put_u8 9 ;> put_u32 target ;> put_bool readonly
  | GenericParam index => put_u8 10 ;> put_u64 index
  | ErrorType => put_u8 12
  | ConstOnly => put_u8 13
  | Opaque_ => put_u8 14
  | VolatilePointer target readonly => put_u8 15 ;> put_u32 target ;> put_bool readonly
  | Slice target readonly => put_u8 16 ;> put_u32 target ;> put_bool readonly
  | SlicePointee target => put_u8 17 ;> put_u32 target
  | Vector element lanes => put_u8 18 ;> put_u8 element ;> put_u32 lanes
  | RangeType kind bound => put_u8 19 ;> put_u8 kind ;> put_option put_u32 bound
  | Optional element => put_u8 20 ;> put_u32 element
  | ErrorUnion error value => put_u8 21 ;> put_u32 error ;> put_u32 value
  | Callable parameters result readonly =>
      put_u8 22 ;> put_refs parameters ;> put_u32 result ;> put_bool readonly
  | CallablePointee parameters result => put_u8 23 ;> put_refs parameters ;> put_u32 result
  | SelfParam => put_u8 24
  | BuiltinType tag => put_u8 25 ;> put_u8 tag
  | BuiltinTrait trait_id arguments => put_u8 26 ;> put_u8 trait_id ;> put_refs arguments
  | TraitObject readonly trait_id arguments const_arguments bindings =>
      put_u8 27 ;> put_bool readonly ;> put_stable_trait_id trait_id ;> put_refs arguments
      ;> put_stable_const_args const_arguments ;> put_stable_associated_bindings bindings
  | TraitObjectPointee trait_id arguments const_arguments bindings =>
      put_u8 28 ;> put_stable_trait_id trait_id ;> put_refs arguments
      ;> put_stable_const_args const_arguments ;> put_stable_associated_bindings bindings
  | Projection self_ty trait_id arguments const_arguments projected =>
      put_u8 29 ;> put_u32 self_ty ;> put_stable_trait_id trait_id ;> put_refs arguments
      ;> put_stable_const_args const_arguments ;> put_u64 projected
  | ClosureState owner ordinal owner_instance captures parameters result =>
      put_u8 30 ;> put_definition owner ;> put_u32 ordinal
      ;> put_option put_owner_instance owner_instance
      ;> put_refs captures ;> put_refs parameters ;> put_u32 result
  end.

Definition TYPE_GRAPH_MAGIC : list Z := bytes_of_string "NIATYP" ++ [0; 0].
Definition TYPE_GRAPH_SCHEMA : Z := PROTOCOL_EPOCH.

Definition put_graph (graph : StableTypeGraph) : Put :=
  put_bytes TYPE_GRAPH_MAGIC ;> put_u32 TYPE_GRAPH_SCHEMA
  ;> put_list_len (len (nodes graph)) ;> put_list_len (len (roots graph))
  ;> put_each put_u32 (roots graph) ;> put_each put_node (nodes graph).

Definition encode_type_graph (graph : StableTypeGraph) : Result MetadataError (list Z) :=
  _ ← validate graph;
  output ← put_graph graph [];
  if MAX_STABLE_METADATA_BYTES <? len output then Err TooLarge else Ok output.

(** ** Reading *)

Definition read_const_value : Get StableConstValue :=
  tag ← read_u8;
  match tag with
  | 0 => hash ← get_u64; mret (GenericParamValue hash)
  | 1 => bits ← get_u128; signed ← read_bool; mret (IntegerValue bits signed)
  | 2 => value ← read_bool; mret (BoolValue value)
  | 3 =>
      v ← get_u32;
      value ← get_lift (ok_or (char_from_u32 v) InvalidManifest);
      mret (CharValue value)
  | _ => get_fail InvalidManifest
  end.

Definition read_stable_const_arg : Get StableConstArg :=
  ty ← get_u32; value ← read_const_value; mret (mkStableConstArg ty value).

Definition read_stable_const_args : Get (list StableConstArg) := get_list read_stable_const_arg.

Definition read_stable_trait_id : Get StableTraitId :=
  tag ← read_u8;
  match tag with
  | 0 => definition ← read_definition; mret (SourceTrait definition)
  | 1 => tag ← read_u8; if is_stable_tag tag then mret (Builtin tag) else get_fail InvalidManifest
  | _ => get_fail InvalidManifest
  end.

Definition read_stable_associated_binding : Get StableAssociatedTypeBinding :=
  trait_id ← read_option read_stable_trait_id;
  arguments ← read_refs;
  const_arguments ← read_stable_const_args;
  name ← get_u64;
  ty ← get_u32;
  mret (mkStableAssociatedTypeBinding trait_id arguments const_arguments name ty).

Definition read_stable_associated_bindings : Get (list StableAssociatedTypeBinding) :=
  get_list read_stable_associated_binding.

Definition read_owner_instance : Get StableClosureOwnerInstance :=
  m ← read_module_id;
  self ← read_option get_u32;
  args ← read_refs;
  const_args ← read_stable_const_args;
  mret (mkStableClosureOwnerInstance m self args const_args).

Definition read_array_length : Get StableArrayLength :=
  tag ← read_u8;
  match tag with
  | 0 => value ← get_u64; mret (ConstLength value)
  | 1 => hash ← get_u64; mret (GenericLength hash)
  | _ => get_fail InvalidManifest
  end.

(** The body of the loop over the nodes in [decode_type_graph]. *)
Definition read_node : Get StableTypeNode :=
  tag ← read_u8;
  match tag with
  | 1 => tag ← read_u8; mret (Primitive tag)
  | 2 => definition ← read_definition; mret (Named definition)
  | 11 =>
      definition ← read_definition;
      arguments ← read_refs;
      const_arguments ← read_stable_const_args;
      mret (NamedApplied definition arguments const_arguments)
  | 3 => mret UnitType
  | 4 => mret Never
  | 5 => elements ← read_refs; mret (Tuple elements)
  | 6 => element ← get_u32; length ← read_array_length; mret (Array element length)
  | 7 =>
      parameters ← read_refs; result ← get_u32; is_extern ← read_bool;
      mret (FunctionType parameters result is_extern)
  | 8 => target ← get_u32; mutable ← read_bool; mret (Reference target mutable)
  | 9 => target ← get_u32; readonly ← read_bool; mret (Pointer target readonly)
  | 10 => index ← get_u64; mret (GenericParam index)
  | 12 => mret ErrorType
  | 13 => mret ConstOnly
  | 14 => mret Opaque_
  | 15 => target ← get_u32; readonly ← read_bool; mret (VolatilePointer target readonly)
  | 16 => target ← get_u32; readonly ← read_bool; mret (Slice target readonly)
  | 17 => target ← get_u32; mret (SlicePointee target)
  | 18 => element ← read_u8; lanes ← get_u32; mret (Vector element lanes)
  | 19 => kind ← read_u8; bound ← read_option get_u32; mret (RangeType kind bound)
  | 20 => element ← get_u32; mret (Optional element)
  | 21 => error ← get_u32; value ← get_u32; mret (ErrorUnion error value)
  | 22 =>
      parameters ← read_refs; result ← get_u32; readonly ← read_bool;
      mret (Callable parameters result readonly)
  | 23 => parameters ← read_refs; result ← get_u32; mret (CallablePointee parameters result)
  | 24 => mret SelfParam
  | 25 => tag ← read_u8; if 2 <? tag then get_fail InvalidManifest else mret (BuiltinType tag)
  | 26 =>
      tag ← read_u8;
      if is_stable_tag tag then arguments ← read_refs; mret (BuiltinTrait tag arguments)
      else get_fail InvalidManifest
  | 27 =>
      readonly ← read_bool;
      trait_id ← read_stable_trait_id;
      arguments ← read_refs;
      const_arguments ← read_stable_const_args;
      bindings ← read_stable_associated_bindings;
      mret (TraitObject readonly trait_id arguments const_arguments bindings)
  | 28 =>
      trait_id ← read_stable_trait_id;
      arguments ← read_refs;
      const_arguments ← read_stable_const_args;
      bindings ← read_stable_associated_bindings;
      mret (TraitObjectPointee trait_id arguments const_arguments bindings)
  | 29 =>
      self_ty ← get_u32;
      trait_id ← read_stable_trait_id;
      arguments ← read_refs;
      const_arguments ← read_stable_const_args;
      projected ← get_u64;
      mret (Projection self_ty trait_id arguments const_arguments projected)
  | 30 =>
      owner ← read_definition;
      ordinal ← get_u32;
      owner_instance ← read_option read_owner_instance;
      captures ← read_refs;
      parameters ← read_refs;
      result ← get_u32;
      mret (ClosureState owner ordinal owner_instance captures parameters result)
  | _ => get_fail InvalidManifest
  end.

(** The header, the roots and the nodes. *)
Definition read_graph : Get StableTypeGraph :=
  magic ← read_exact 8;
  if bool_decide (magic ≠ TYPE_GRAPH_MAGIC) then get_fail BadMagic
  else
    schema ← get_u32;
    if negb (schema =? TYPE_GRAPH_SCHEMA) then get_fail (Schema schema)
    else
      n ← get_u32;
      node_count ← get_lift (bounded_count n);
      n ← get_u32;
      root_count ← get_lift (bounded_count n);
      roots ← get_many get_u32 (Z.to_nat root_count);
      nodes ← get_many read_node (Z.to_nat node_count);
      mret (mkStableTypeGraph nodes roots).

Definition decode_type_graph (bytes : list Z) : Result MetadataError StableTypeGraph :=
  if MAX_STABLE_METADATA_BYTES <? len bytes then Err TooLarge
  else
    r ← read_graph bytes;
    graph ← at_end r;
    _ ← validate graph;
    Ok graph.

(** ** Types of the source

    The machine widths of the fields, and Unicode strings. *)

Definition const_value_typed (v : StableConstValue) : Prop :=
  match v with
  | GenericParamValue hash => is_u64 hash
  | IntegerValue bits _ => is_u128 bits
  | BoolValue _ => True
  | CharValue value => is_scalar value = true
  end.

Definition const_arg_typed (a : StableConstArg) : Prop :=
  is_u32 (const_ty a) ∧ const_value_typed (const_value a).

Definition trait_typed (t : StableTraitId) : Prop :=
  match t with
  | SourceTrait definition => definition_typed definition
  | Builtin tag => is_u8 tag
  end.

Definition binding_typed (b : StableAssociatedTypeBinding) : Prop :=
  (∀ t, binding_trait b = Some t → trait_typed t) ∧ Forall is_u32 (binding_arguments b)
  ∧ Forall const_arg_typed (binding_const_arguments b) ∧ is_u64 (binding_name b)
  ∧ is_u32 (binding_ty b).

Definition instance_typed (i : StableClosureOwnerInstance) : Prop :=
  module_typed (arg_module i) ∧ (∀ ty, self_arg i = Some ty → is_u32 ty)
  ∧ Forall is_u32 (instance_args i) ∧ Forall const_arg_typed (instance_const_args i).

Definition array_length_typed (l : StableArrayLength) : Prop :=
  match l with ConstLength v | GenericLength v => is_u64 v end.

Definition node_typed (node : StableTypeNode) : Prop :=
  match node with
  | Primitive tag | BuiltinType tag => is_u8 tag
  | UnitType | Never | ErrorType | ConstOnly | Opaque_ | SelfParam => True
  | Named definition => definition_typed definition
  | NamedApplied definition arguments const_arguments =>
      definition_typed definition ∧ Forall is_u32 arguments ∧ Forall const_arg_typed const_arguments
  | Tuple elements => Forall is_u32 elements
  | Array element length => is_u32 element ∧ array_length_typed length
  | FunctionType parameters result _ | Callable parameters result _ | CallablePointee parameters result =>
      Forall is_u32 parameters ∧ is_u32 result
  | Reference target _ | Pointer target _ | VolatilePointer target _ | Slice target _
  | SlicePointee target | Optional target => is_u32 target
  | ErrorUnion error value => is_u32 error ∧ is_u32 value
  | RangeType kind bound => is_u8 kind ∧ ∀ b, bound = Some b → is_u32 b
  | Vector element lanes => is_u8 element ∧ is_u32 lanes
  | BuiltinTrait trait_id arguments => is_u8 trait_id ∧ Forall is_u32 arguments
  | TraitObject _ trait_id arguments const_arguments bindings
  | TraitObjectPointee trait_id arguments const_arguments bindings =>
      trait_typed trait_id ∧ Forall is_u32 arguments ∧ Forall const_arg_typed const_arguments
      ∧ Forall binding_typed bindings
  | Projection self_ty trait_id arguments const_arguments projected =>
      is_u32 self_ty ∧ trait_typed trait_id ∧ Forall is_u32 arguments
      ∧ Forall const_arg_typed const_arguments ∧ is_u64 projected
  | ClosureState owner ordinal owner_instance captures parameters result =>
      definition_typed owner ∧ is_u32 ordinal
      ∧ (∀ i, owner_instance = Some i → instance_typed i)
      ∧ Forall is_u32 captures ∧ Forall is_u32 parameters ∧ is_u32 result
  | GenericParam index => is_u64 index
  end.

Definition graph_typed (g : StableTypeGraph) : Prop :=
  Forall node_typed (nodes g) ∧ Forall is_u32 (roots g).

(** The builtin types that exist; a node with another tag is not refused by [validate]. *)
Definition builtin_known (node : StableTypeNode) : Prop :=
  match node with BuiltinType tag => tag ≤ 2 | _ => True end.
End StableTypes.
