(* ===== verification/StableTypesProps.v ===== *)
(** * nia-package-metadata: the binary form of type graphs is canonical *)

From Stdlib Require Import Sorting.Sorted.
From S2P Require Import Prelude RustStd PackageIds StableCodec StableCodecFacts StableIds StableIdsFacts StableTypes.

(** ** Nodes *)

(** Reads one field that was written, or returns. *)
Ltac field_ok := solve [assumption | done | unfold is_u8; lia].

Ltac reads_step :=
  lazymatch goal with
  | |- reads (mret _) [] _ => apply reads_ret
  | |- reads (_ ≫= _) (_ ++ _) _ =>
      eapply reads_codec; [|eassumption|..]; [apply _|field_ok|cbn beta iota]
  | |- reads (_ ≫= _) _ _ => reads_last
  end.

(** Follows one step of a reader to what it returned. *)
Ltac yields_step :=
  lazymatch goal with
  | |- yields (mret _) _ => apply yields_ret; rewrite ?app_nil_r
  | |- yields (get_fail _) _ => apply yields_fail
  | |- yields (_ ≫= _) _ => eapply yields_codec; [apply _|]; intros ? ? ? ?
  end.

(** The writes of a sequence, from those of its parts. *)
Ltac writes_all := repeat (apply writes_seq; [eassumption|]); eassumption.

Section Facts.
Context `{Semver}.

#[global] Instance const_value_codec : Codec put_const_value read_const_value const_value_typed.
Proof.
  split.
  - intros []; simpl; eauto with codec.
  - intros v w Hw Hv. unfold read_const_value. destruct v; simpl in *; writes_inv; repeat reads_step.
    eapply (reads_codec put_u32 _ is_u32); [apply _|eassumption|apply is_scalar_spec in Hv; unfold is_u32; lia|].
    eapply reads_lift; [|apply reads_ret]. unfold char_from_u32. by rewrite Hv.
  - unfold read_const_value. yields_step. destruct a as [|p|p]; [|do 2 (try destruct p)|]; repeat yields_step.
    all: try (split; [done|writes_all]). apply yields_lift. intros c Hc. apply yields_ret. rewrite app_nil_r.
    unfold ok_or in Hc. case_match eqn:E; simplify_eq. apply char_from_u32_Some in E as [-> E].
    split; [done|writes_all].
Qed.

#[global] Instance const_arg_codec : Codec put_stable_const_arg read_stable_const_arg const_arg_typed.
Proof.
  split.
  - intros a. unfold put_stable_const_arg. eauto with codec.
  - intros [ty v] w Hw [Hty Hv]. unfold put_stable_const_arg in Hw. writes_inv. simpl in *.
    unfold read_stable_const_arg. repeat reads_step.
  - unfold read_stable_const_arg. repeat yields_step. split; [done|writes_all].
Qed.

#[global] Instance const_args_codec :
  Codec put_stable_const_args read_stable_const_args (Forall const_arg_typed) := list_codec _ _ _ _.

(** What the reader accepts beyond the types. *)
Definition trait_readable (t : StableTraitId) : Prop :=
  match t with SourceTrait _ => True | Builtin tag => is_stable_tag tag = true end.
Definition binding_readable (b : StableAssociatedTypeBinding) : Prop :=
  ∀ t, binding_trait b = Some t → trait_readable t.
Definition node_readable (node : StableTypeNode) : Prop :=
  match node with
  | BuiltinType tag => tag ≤ 2
  | BuiltinTrait tag _ => is_stable_tag tag = true
  | TraitObject _ t _ _ bindings | TraitObjectPointee t _ _ bindings =>
      trait_readable t ∧ Forall binding_readable bindings
  | Projection _ t _ _ _ => trait_readable t
  | _ => True
  end.

#[global] Instance trait_codec : Codec put_stable_trait_id read_stable_trait_id
  (λ t, trait_typed t ∧ trait_readable t).
Proof.
  split.
  - intros []; simpl; eauto with codec.
  - intros t w Hw [Ht Hr]. unfold read_stable_trait_id. destruct t as [d|tag]; simpl in *; writes_inv;
      repeat reads_step. by rewrite Hr.
  - unfold read_stable_trait_id. yields_step. destruct a as [|p|p]; [|try destruct p|]; repeat yields_step.
    + split; [done|writes_all].
    + case_match eqn:E; yields_step. split; [done|writes_all].
Qed.

#[global] Instance binding_codec : Codec put_stable_associated_binding read_stable_associated_binding
  (λ b, binding_typed b ∧ binding_readable b).
Proof.
  split.
  - intros []. unfold put_stable_associated_binding. eauto 10 with codec.
  - intros [t args cargs n ty] w Hw [(Ht&?&?&?&?) Hr]. unfold put_stable_associated_binding in Hw.
    writes_inv. simpl in *. unfold read_stable_associated_binding.
    eapply reads_codec; [|eassumption|..]; [apply _|by intros ? ->; split; [apply Ht|apply Hr]|].
    repeat reads_step.
  - unfold read_stable_associated_binding. repeat yields_step. split; [|writes_all].
    split; [split_and!; [naive_solver|done..]|]. unfold binding_readable. naive_solver.
Qed.

#[global] Instance bindings_codec : Codec put_stable_associated_bindings read_stable_associated_bindings
  (λ bs, Forall binding_typed bs ∧ Forall binding_readable bs).
Proof. eapply codec_iff; [apply list_codec, _|]. intros bs. by rewrite <- Forall_and. Qed.

#[global] Instance instance_codec : Codec put_owner_instance read_owner_instance instance_typed.
Proof.
  split.
  - intros []. unfold put_owner_instance. eauto 10 with codec.
  - intros [m self args cargs] w Hw (?&?&?&?). unfold put_owner_instance in Hw. writes_inv. simpl in *.
    unfold read_owner_instance. repeat reads_step.
  - unfold read_owner_instance. repeat yields_step. split; [done|writes_all].
Qed.

#[global] Instance array_length_codec : Codec put_array_length read_array_length array_length_typed.
Proof.
  split.
  - intros []; simpl; eauto with codec.
  - intros [] w Hw Hl; simpl in *; writes_inv; unfold read_array_length; repeat reads_step.
  - unfold read_array_length. yields_step. destruct a as [|p|p]; [|try destruct p|]; repeat yields_step.
    all: split; [done|writes_all].
Qed.

(** A reader ends a node or goes on with a field. *)
Lemma put_node_appends node : appends (put_node node).
Proof. destruct node; simpl; eauto 20 with codec. Qed.

Lemma read_node_reads node w : writes (put_node node) w → node_typed node → node_readable node →
  reads read_node w node.
Proof.
  intros Hw Ht Hr. unfold read_node.
  destruct node; simpl in *; destruct_and?; writes_inv; repeat reads_step.
  - rewrite (proj2 (Z.ltb_ge _ _)) by done. reads_step.
  - rewrite Hr. repeat reads_step.
Qed.

Lemma read_node_yields : yields read_node (λ node w, (node_typed node ∧ node_readable node) ∧ writes (put_node node) w).
Proof.
  unfold read_node. yields_step. destruct a as [|p|p]; [| |]; [yields_step|do 5 (try destruct p)|yields_step].
  all: repeat yields_step.
  all: try (split; [simpl; naive_solver|writes_all]).
  - case_match eqn:E; yields_step. bool_to_prop. split; [done|writes_all].
  - case_match eqn:E; repeat yields_step. split; [done|writes_all].
Qed.

#[global] Instance node_codec : Codec put_node read_node (λ node, node_typed node ∧ node_readable node).
Proof.
  split; [apply put_node_appends| |apply read_node_yields].
  intros node w Hw []. by apply read_node_reads.
Qed.
End Facts.

Section Graphs.
Context `{Semver}.

(** ** Graphs *)

Lemma put_graph_appends g : appends (put_graph g).
Proof. unfold put_graph. eauto 10 with codec. Qed.

Lemma run_writes p w : appends p → p [] = Ok w ↔ writes p w.
Proof.
  intros Ha. split; [|intros Hw; apply (Hw [])]. intros Hp.
  destruct Ha as [[w' Hw]|[e He]]; [|rewrite He in Hp; discriminate].
  rewrite (Hw []) in Hp. by simplify_eq/=.
Qed.

Lemma encode_type_graph_ok g bs : encode_type_graph g = Ok bs ↔
  validate g = Ok () ∧ writes (put_graph g) bs ∧ len bs ≤ MAX_STABLE_METADATA_BYTES.
Proof.
  unfold encode_type_graph. rewrite bind_ok. setoid_rewrite bind_ok.
  setoid_rewrite run_writes; [|apply put_graph_appends]. split.
  - intros ([]&Hv&w&Hw&Hlen). case_match; bool_to_prop; simplify_eq. by split_and!.
  - intros (Hv&Hw&Hlen). exists (). split; [done|]. exists bs. split; [done|].
    case_match; bool_to_prop; [lia|done].
Qed.

Definition graph_readable (g : StableTypeGraph) : Prop :=
  Forall (λ n, node_typed n ∧ node_readable n) (nodes g) ∧ Forall is_u32 (roots g).

Lemma read_count_reads {B} n (f : Z → Get B) w1 w2 b : writes (put_list_len n) w1 → 0 ≤ n →
  reads (f n) w2 b →
  reads (v ← get_u32; count ← get_lift (bounded_count v); f count) (w1 ++ w2) b.
Proof.
  intros Hw Hn Hf. apply put_list_len_writes in Hw as [Hmax Hw]; [|done].
  eapply (reads_codec put_u32 _ is_u32 _ n); [apply _|done|by apply max_items_u32|].
  eapply reads_lift; [|done]. unfold bounded_count. by rewrite (proj2 (Z.leb_le _ _)).
Qed.

Lemma read_count_yields {B} (f : Z → Get B) Q :
  (∀ n w1, 0 ≤ n → writes (put_list_len n) w1 → yields (f n) (λ b w2, Q b (w1 ++ w2))) →
  yields (v ← get_u32; count ← get_lift (bounded_count v); f count) Q.
Proof.
  intros Hf. eapply yields_codec; [apply _|]. intros v w1 Hv Hw1. apply yields_lift. intros n Hn.
  unfold bounded_count in Hn. case_match; bool_to_prop; simplify_eq. apply Hf; [apply Hv|].
  by apply put_list_len_writes; [apply Hv|].
Qed.

Lemma read_graph_reads g w : writes (put_graph g) w → graph_readable g → reads read_graph w g.
Proof.
  intros Hw [Hn Hr]. unfold put_graph in Hw. writes_inv. unfold read_graph. destruct g as [ns rs]. simpl in *.
  apply writes_bytes_inv in H0 as ->. eapply reads_bind; [by apply read_exact_reads|].
  rewrite bool_decide_eq_false_2 by tauto.
  eapply (reads_codec put_u32 _ is_u32 _ TYPE_GRAPH_SCHEMA); [apply _|done|done|].
  rewrite Z.eqb_refl. cbn [negb].
  eapply read_count_reads; [done|unfold len; lia|]. eapply read_count_reads; [done|unfold len; lia|].
  unfold len. rewrite !Nat2Z.id. eapply reads_bind; [eapply (get_many_reads put_u32); [apply _|done..]|].
  reads_last. eapply reads_bind; [eapply (get_many_reads put_node); [apply _|done..]|apply reads_ret].
Qed.

Lemma read_graph_yields : yields read_graph (λ g w, graph_readable g ∧ writes (put_graph g) w).
Proof.
  unfold read_graph. eapply yields_bind; [apply read_exact_yields; lia|]. intros magic w0 _ [-> _].
  case_bool_decide as Hm; [apply yields_fail|]. subst w0.
  eapply yields_codec; [apply _|]. intros schema w1 _ Hw1.
  destruct (schema =? TYPE_GRAPH_SCHEMA) eqn:E; cbn [negb]; [|apply yields_fail].
  apply Z.eqb_eq in E as ->.
  apply read_count_yields. intros n w2 Hn Hw2. apply read_count_yields. intros r w3 Hr Hw3.
  eapply yields_bind; [eapply (get_many_yields put_u32), _|]. intros rs w4 _ (Hlr&Hrs&Hw4).
  eapply yields_bind; [eapply (get_many_yields put_node), _|]. intros ns w5 _ (Hln&Hns&Hw5).
  apply yields_ret. rewrite app_nil_r. split; [done|]. unfold put_graph. cbn [nodes roots].
  replace (len ns) with n by (unfold len; lia). replace (len rs) with r by (unfold len; lia).
  apply writes_seq; [apply writes_bytes|]. writes_all.
Qed.

(** Validation refuses the trait identities the reader refuses. *)
Lemma validated_trait_readable t : validate_stable_trait_id t = Ok () → trait_readable t.
Proof. destruct t; simpl; [done|]. by case_match. Qed.

Lemma validated_bindings_readable bs refs : bindings_references bs = Ok refs → Forall binding_readable bs.
Proof.
  revert refs. induction bs as [|b bs IH]; intros refs Hb; [constructor|].
  cbn [bindings_references] in Hb. apply bind_ok in Hb as (here&Hhere&Hb).
  apply bind_ok in Hb as (there&Hthere&_). constructor; [|by eapply IH].
  unfold binding_references in Hhere. apply bind_ok in Hhere as ([]&Ht&_).
  intros t Hb. rewrite Hb in Ht. by apply validated_trait_readable.
Qed.

Lemma validated_node_readable node refs :
  node_references node = Ok refs → builtin_known node → node_readable node.
Proof.
  destruct node; simpl; try done.
  - by case_match.
  - intros (?&?&(?&?&Hb)%bind_ok)%bind_ok _. destruct x, x0. split; [by apply validated_trait_readable|].
    case_match; [done|]. apply bind_ok in Hb as (?&?&_). by eapply validated_bindings_readable.
  - intros (?&?&(?&?&Hb)%bind_ok)%bind_ok _. destruct x, x0. split; [by apply validated_trait_readable|].
    case_match; [done|]. apply bind_ok in Hb as (?&?&_). by eapply validated_bindings_readable.
  - intros ([]&?&_)%bind_ok _. by apply validated_trait_readable.
Qed.

Lemma validate_nodes_ok k ns : validate_nodes k ns = Ok () ↔
  ∀ i node, ns !! i = Some node → validate_node (k + Z.of_nat i) node = Ok ().
Proof.
  revert k. induction ns as [|n ns IH]; intros k; cbn [validate_nodes]; [naive_solver|].
  rewrite bind_ok. setoid_rewrite IH. split.
  - intros ([]&Hn&Hns) [|i] node Hi; simplify_eq/=; [by rewrite Z.add_0_r|].
    replace (k + Z.of_nat (S i)) with (k + 1 + Z.of_nat i) by lia. by apply Hns.
  - intros Hi. exists (). split; [specialize (Hi 0%nat n eq_refl); by rewrite Z.add_0_r in Hi|].
    intros i node Hn. specialize (Hi (S i) node Hn).
    by replace (k + 1 + Z.of_nat i) with (k + Z.of_nat (S i)) by lia.
Qed.

Lemma validate_ok g : validate g = Ok () →
  any_window_ge (roots g) = false ∧ Forall (λ r, r < len (nodes g)) (roots g) ∧
  ∀ i node, nodes g !! i = Some node → validate_node (Z.of_nat i) node = Ok ().
Proof.
  unfold validate. case_match; [done|]. case_match eqn:E; [done|]. apply orb_false_iff in E as [E1 E2].
  rewrite validate_nodes_ok. intros Hn. split_and!; [done| |done].
  apply Forall_forall. intros r Hr. destruct (decide (r < len (nodes g))) as [|Hlt]; [done|].
  apply not_true_iff_false in E2. destruct E2. apply existsb_exists. exists r.
  split; [by apply list_elem_of_In|]. apply Z.leb_le. lia.
Qed.

Lemma validate_node_ok k node : validate_node k node = Ok () →
  ∃ refs, node_references node = Ok refs ∧ Forall (λ r, r < k) refs ∧ len refs ≤ MAX_ITEMS.
Proof.
  unfold validate_node. intros (refs&Hr&Hv)%bind_ok. exists refs. split; [done|].
  case_match eqn:E1; [done|]. case_match; [done|]. bool_to_prop. split; [|lia].
  apply Forall_forall. intros r Hin. destruct (decide (r < k)) as [|Hlt]; [done|].
  apply not_true_iff_false in E1. destruct E1. apply existsb_exists. exists r.
  split; [by apply list_elem_of_In|]. apply Z.leb_le. lia.
Qed.

Lemma validated_graph_readable g : validate g = Ok () → graph_typed g →
  Forall builtin_known (nodes g) → graph_readable g.
Proof.
  intros (_&_&Hv)%validate_ok [Hn Hr] Hk. split; [|done]. apply Forall_lookup. intros i node Hi.
  apply Hv in Hi as Hvn. apply validate_node_ok in Hvn as (refs&?&_).
  rewrite Forall_lookup in Hn, Hk. split; [by eapply Hn|]. eapply validated_node_readable; eauto.
Qed.

Lemma decode_type_graph_ok bs g : decode_type_graph bs = Ok g ↔
  len bs ≤ MAX_STABLE_METADATA_BYTES ∧ read_graph bs = Ok (g, []) ∧ validate g = Ok ().
Proof.
  unfold decode_type_graph. case_match eqn:E; bool_to_prop; [split; [done|lia]|].
  rewrite bind_ok. setoid_rewrite bind_ok. setoid_rewrite bind_ok. split.
  - intros ([g' [|]]&?&?&?&[]&?&?); simplify_eq/=. by split_and!.
  - intros (_&?&?). exists (g, []). split; [done|]. exists g. split; [done|]. by exists ().
Qed.

(** C7: A payload decodes to a graph exactly when it is the encoding of that graph: what
    is decoded has the types of the source and encodes to the same bytes, so that a
    graph has one payload only, and every graph that can be encoded is decoded back,
    provided its builtin types are the known ones. *)
Theorem type_graph_canonical (bs : list Z) (g : StableTypeGraph) (Hbs : are_bytes bs) :
  decode_type_graph bs = Ok g ↔
  graph_typed g ∧ encode_type_graph g = Ok bs ∧ Forall builtin_known (nodes g).
Proof.
  rewrite decode_type_graph_ok, encode_type_graph_ok. split.
  - intros (Hlen&Hread&Hv). destruct (read_graph_yields bs g [] Hbs Hread) as (w&->&[[Hn Hr] Hw]).
    rewrite app_nil_r in *. split_and!; [split; [|done]|done..|].
    + eapply Forall_impl; [done|]. by intros ? [].
    + eapply Forall_impl; [done|]. intros node [_ Hk]. by destruct node.
  - intros (Ht&(Hv&Hw&Hlen)&Hk). split_and!; [done| |done].
    rewrite <- (app_nil_r bs). by apply read_graph_reads, validated_graph_readable.
Qed.

(** Strictly increasing lists. *)
Lemma any_window_ge_sorted rs : any_window_ge rs = false → StronglySorted Z.lt rs.
Proof.
  intros Hr. apply Sorted_StronglySorted; [intros ???; lia|].
  induction rs as [|a [|b rs] IH]; [constructor|by constructor|].
  apply orb_false_iff in Hr as [Hb Hr]. bool_to_prop. constructor; [by apply IH|constructor; lia].
Qed.

(** ** Where a node mentions other types

    One rule for each position of the data that holds a type, independently of what
    validation collects. *)

Inductive const_mentions (arguments : list StableConstArg) : Z → Prop :=
  | mentions_const arg : arg ∈ arguments → const_mentions arguments (const_ty arg).

Inductive binding_mentions (binding : StableAssociatedTypeBinding) : Z → Prop :=
  | binding_argument r : r ∈ binding_arguments binding → binding_mentions binding r
  | binding_const r : const_mentions (binding_const_arguments binding) r → binding_mentions binding r
  | binding_type : binding_mentions binding (binding_ty binding).

Inductive instance_mentions (inst : StableClosureOwnerInstance) : Z → Prop :=
  | instance_self r : self_arg inst = Some r → instance_mentions inst r
  | instance_argument r : r ∈ instance_args inst → instance_mentions inst r
  | instance_const r : const_mentions (instance_const_args inst) r → instance_mentions inst r.

Inductive mentions : StableTypeNode → Z → Prop :=
  | applied_argument d args cs r : r ∈ args → mentions (NamedApplied d args cs) r
  | applied_const d args cs r : const_mentions cs r → mentions (NamedApplied d args cs) r
  | tuple_element ts r : r ∈ ts → mentions (Tuple ts) r
  | array_element r n : mentions (Array r n) r
  | function_parameter ps r res ext : r ∈ ps → mentions (FunctionType ps res ext) r
  | function_result ps res ext : mentions (FunctionType ps res ext) res
  | reference_target r m : mentions (Reference r m) r
  | pointer_target r ro : mentions (Pointer r ro) r
  | volatile_target r ro : mentions (VolatilePointer r ro) r
  | slice_target r ro : mentions (Slice r ro) r
  | slice_pointee r : mentions (SlicePointee r) r
  | range_bound k r : mentions (RangeType k (Some r)) r
  | optional_element r : mentions (Optional r) r
  | union_error e v : mentions (ErrorUnion e v) e
  | union_value e v : mentions (ErrorUnion e v) v
  | callable_parameter ps r res ro : r ∈ ps → mentions (Callable ps res ro) r
  | callable_result ps res ro : mentions (Callable ps res ro) res
  | callable_pointee_parameter ps r res : r ∈ ps → mentions (CallablePointee ps res) r
  | callable_pointee_result ps res : mentions (CallablePointee ps res) res
  | builtin_trait_argument t args r : r ∈ args → mentions (BuiltinTrait t args) r
  | object_argument ro t args cs bs r : r ∈ args → mentions (TraitObject ro t args cs bs) r
  | object_const ro t args cs bs r : const_mentions cs r → mentions (TraitObject ro t args cs bs) r
  | object_binding ro t args cs bs b r :
      b ∈ bs → binding_mentions b r → mentions (TraitObject ro t args cs bs) r
  | object_pointee_argument t args cs bs r : r ∈ args → mentions (TraitObjectPointee t args cs bs) r
  | object_pointee_const t args cs bs r :
      const_mentions cs r → mentions (TraitObjectPointee t args cs bs) r
  | object_pointee_binding t args cs bs b r :
      b ∈ bs → binding_mentions b r → mentions (TraitObjectPointee t args cs bs) r
  | projection_self r t args cs n : mentions (Projection r t args cs n) r
  | projection_argument ty t args cs n r : r ∈ args → mentions (Projection ty t args cs n) r
  | projection_const ty t args cs n r : const_mentions cs r → mentions (Projection ty t args cs n) r
  | closure_instance d o inst caps ps res r :
      instance_mentions inst r → mentions (ClosureState d o (Some inst) caps ps res) r
  | closure_capture d o inst caps ps res r : r ∈ caps → mentions (ClosureState d o inst caps ps res) r
  | closure_parameter d o inst caps ps res r : r ∈ ps → mentions (ClosureState d o inst caps ps res) r
  | closure_result d o inst caps ps res : mentions (ClosureState d o inst caps ps res) res.

Create Rewrite HintDb mentioned.
#[local] Hint Rewrite @elem_of_app @elem_of_cons @elem_of_nil : mentioned.

Lemma const_mentions_types cs r : const_mentions cs r → r ∈ const_ty <$> cs.
Proof. intros [arg Harg]. by apply list_elem_of_fmap_2. Qed.

Lemma binding_mentions_collected b refs r :
  binding_references b = Ok refs → binding_mentions b r → r ∈ refs.
Proof.
  intros ([]&_&([]&_&Href)%bind_ok)%bind_ok Hr. injection Href as <-.
  autorewrite with mentioned. destruct Hr as [r Hr|r Hr%const_mentions_types|]; tauto.
Qed.

Lemma bindings_mentions_collected bs refs b r :
  bindings_references bs = Ok refs → b ∈ bs → binding_mentions b r → r ∈ refs.
Proof.
  revert refs. induction bs as [|b0 bs IH]; intros refs Href Hb Hr; [by apply not_elem_of_nil in Hb|].
  cbn in Href. apply bind_ok in Href as (here&Hh&(there&Ht&[= <-])%bind_ok).
  apply elem_of_app. apply elem_of_cons in Hb as [->|Hb].
  - left. by eapply binding_mentions_collected.
  - right. by eapply IH.
Qed.

Lemma object_mentions_collected t args cs bs refs r :
  trait_object_references t args cs bs = Ok refs →
  r ∈ args ∨ const_mentions cs r ∨ (∃ b, b ∈ bs ∧ binding_mentions b r) → r ∈ refs.
Proof.
  intros ([]&_&([]&_&Href)%bind_ok)%bind_ok Hr. destruct (_ <? _); [done|].
  apply bind_ok in Href as (bound&Hb&[= <-]). autorewrite with mentioned.
  destruct Hr as [?|[?%const_mentions_types|(b&?&?)]]; [tauto..|].
  right. right. by eapply bindings_mentions_collected.
Qed.

(** Validation collects every type a node mentions. *)
Lemma mentions_collected node refs r : node_references node = Ok refs → mentions node r → r ∈ refs.
Proof.
  intros Href Hr. destruct Hr; cbn in Href;
    try (eapply object_mentions_collected; [exact Href|]; by eauto);
    repeat match goal with
    | H : mbind _ _ = Ok _ |- _ => apply bind_ok in H as (?&?&H)
    | H : (if ?c then _ else _) = Ok _ |- _ => destruct c; try done
    | H : Ok _ = Ok _ |- _ => injection H as <-
    | H : const_mentions _ _ |- _ => apply const_mentions_types in H
    | H : instance_mentions _ _ |- _ => destruct H
    | H : self_arg _ = Some _ |- _ => rewrite H in *
    end; cbn; autorewrite with mentioned; tauto.
Qed.

(** C29: A decoded graph can be rebuilt in one pass: every type a node mentions, in
    any of its fields, is a node before it, and the roots are nodes of the graph in
    strictly increasing order. *)
Theorem decoded_graph_acyclic (bs : list Z) (g : StableTypeGraph)
    (Hdec : decode_type_graph bs = Ok g) :
  StronglySorted Z.lt (roots g) ∧ Forall (λ r, r < len (nodes g)) (roots g) ∧
  ∀ i node r, nodes g !! i = Some node → mentions node r → r < Z.of_nat i.
Proof.
  apply decode_type_graph_ok in Hdec as (_&_&(Hw&Hr&Hn)%validate_ok).
  split_and!; [by apply any_window_ge_sorted|done|]. intros i node r Hi Hm. apply Hn in Hi.
  apply validate_node_ok in Hi as (refs&Href&Hlt&_). rewrite Forall_forall in Hlt.
  apply Hlt. by eapply mentions_collected.
Qed.

(** ** Encoding succeeds *)

Lemma checked_string_writes s : validate_string s = Ok () → ∃ w, writes (put_string s) w.
Proof.
  intros Hv. eexists. apply put_string_writes. split_and!; [done|..|done];
    unfold validate_string in Hv; case_match eqn:E; try done; bool_to_prop; unfold len in *; lia.
Qed.

Lemma checked_id_writes p : validate_id p = Ok () → ∃ w, writes (put_id p) w.
Proof.
  intros (H1&H2&H3&_)%validate_id_ok. apply checked_string_writes in H1 as [??], H2 as [??], H3 as [??].
  eexists. unfold put_id. writes_all.
Qed.

Lemma checked_module_writes m : validate_module_id m = Ok () → ∃ w, writes (put_module_id m) w.
Proof.
  intros Hv. pose proof Hv as [H1 H2]%validate_module_id_ok.
  apply checked_id_writes in H1 as [??]. apply checked_string_writes in H2 as [??].
  eexists. unfold put_module_id. apply writes_seq; [by apply writes_check|writes_all].
Qed.

(** An owner is valid on its own, nearer to the limit than under what it owns. *)
Lemma validate_definition_shallower d k k' : (k' ≤ k)%nat →
  validate_definition_with_depth d k = Ok () → validate_definition_with_depth d k' = Ok ().
Proof.
  revert k k'. induction d as [m n kd dis o IH] using DefinitionId_ind'. intros k k' Hk.
  rewrite !validate_definition_ok. simpl. intros (?&?&?&?&Ho). split_and!; [lia|done..|].
  intros d ->. destruct (Ho d eq_refl) as [? Hv]. split; [done|].
  eapply IH; [done| |done]. lia.
Qed.

Lemma checked_definition_writes d : validate_definition d = Ok () → ∃ w, writes (put_definition d) w.
Proof.
  induction d as [m n k dis o IH] using DefinitionId_ind'. intros Hv.
  pose proof Hv as (_&[H1 H2]%validate_module_id_ok&H3&_&Ho)%validate_definition_ok. simpl in *.
  assert (∃ w, writes (put_option put_definition o) w) as [wo Hwo].
  { destruct o as [d|]; [|by eexists]. destruct (Ho d eq_refl) as [_ Hd].
    destruct (IH d eq_refl) as [w Hw].
    - by eapply validate_definition_shallower; [|exact Hd]; lia.
    - eexists. by apply writes_seq. }
  apply checked_id_writes in H1 as [??]. apply checked_string_writes in H2 as [??], H3 as [??].
  eexists. apply put_definition_writes. split; [done|].
  apply writes_seq; [eassumption|]. apply writes_seq; [eassumption|]. apply writes_seq; [eassumption|].
  apply writes_seq; [done|]. apply writes_seq; done.
Qed.

Definition writable (p : Put) : Prop := ∃ w, writes p w.

Lemma writable_bytes bs : writable (put_bytes bs).
Proof. by exists bs. Qed.

Lemma writable_seq p q : writable p → writable q → writable (p ;> q).
Proof. intros [w1 H1] [w2 H2]. exists (w1 ++ w2). by apply writes_seq. Qed.

Lemma writable_option {A} (put : A → Put) o : (∀ a, o = Some a → writable (put a)) → writable (put_option put o).
Proof. intros Ho. destruct o; [|apply writable_bytes]. apply writable_seq; [apply writable_bytes|by apply Ho]. Qed.

Lemma writable_each {A} (put : A → Put) xs : Forall (λ a, writable (put a)) xs → writable (put_each put xs).
Proof. induction 1; [exists []; apply writes_nothing|by apply writable_seq]. Qed.

Lemma writable_list_len n : 0 ≤ n ≤ MAX_ITEMS → writable (put_list_len n).
Proof. intros Hn. eexists. apply put_list_len_writes; [lia|]. by split; [lia|]. Qed.

Lemma writable_list {A} (put : A → Put) xs : len xs ≤ MAX_ITEMS → Forall (λ a, writable (put a)) xs →
  writable (put_list put xs).
Proof.
  intros Hlen Hxs. apply writable_seq; [|by apply writable_each]. apply writable_list_len. unfold len in *. lia.
Qed.

Lemma writable_refs xs : len xs ≤ MAX_ITEMS → writable (put_refs xs).
Proof. intros. apply writable_list; [done|]. apply Forall_true. intros. apply writable_bytes. Qed.

Create HintDb writable discriminated.
Hint Resolve writable_seq writable_bytes writable_refs checked_definition_writes checked_module_writes : writable.
Hint Extern 1 (writable (put_u8 _)) => apply writable_bytes : writable.
Hint Extern 1 (writable (put_u32 _)) => apply writable_bytes : writable.
Hint Extern 1 (writable (put_u64 _)) => apply writable_bytes : writable.
Hint Extern 1 (writable (put_u128 _)) => apply writable_bytes : writable.
Hint Extern 1 (writable (put_bool _)) => apply writable_bytes : writable.
Hint Extern 1 (writable (put_definition _)) => apply checked_definition_writes : writable.
Hint Extern 1 (writable (put_module_id _)) => apply checked_module_writes : writable.
(** The references of a node bound each of its lists. *)
Hint Extern 1 (len _ ≤ MAX_ITEMS) =>
  (unfold len in *; repeat (rewrite ?length_app, ?length_fmap in *; cbn [length] in *); lia) : writable.

Lemma writable_const_args xs : len xs ≤ MAX_ITEMS → writable (put_stable_const_args xs).
Proof.
  intros. apply writable_list; [done|]. apply Forall_true. intros [ty v].
  unfold put_stable_const_arg. apply writable_seq; [apply writable_bytes|].
  destruct v; simpl; auto with writable.
Qed.
Hint Resolve writable_const_args : writable.

Lemma writable_trait t : validate_stable_trait_id t = Ok () → writable (put_stable_trait_id t).
Proof. destruct t; simpl; intros; auto with writable. Qed.
Hint Resolve writable_trait : writable.

Lemma writable_binding b refs : binding_references b = Ok refs → len refs ≤ MAX_ITEMS →
  writable (put_stable_associated_binding b).
Proof.
  unfold binding_references. intros ([]&Ht&([]&?&?)%bind_ok)%bind_ok Hlen. simplify_eq.
  unfold put_stable_associated_binding. apply writable_seq; [|auto 10 with writable].
  apply writable_option. intros t Hb. rewrite Hb in Ht. auto with writable.
Qed.

Lemma writable_bindings bs refs : bindings_references bs = Ok refs → len refs ≤ MAX_ITEMS →
  Forall (λ b, writable (put_stable_associated_binding b)) bs.
Proof.
  revert refs. induction bs as [|b bs IH]; intros refs; [constructor|].
  cbn [bindings_references]. intros (here&Hh&(there&Ht&?)%bind_ok)%bind_ok Hlen. simplify_eq.
  constructor; [eapply writable_binding; [done|auto with writable]|eapply IH; [done|auto with writable]].
Qed.

Lemma writable_trait_object t args cargs bs refs : trait_object_references t args cargs bs = Ok refs →
  len refs ≤ MAX_ITEMS →
  writable (put_stable_trait_id t ;> put_refs args ;> put_stable_const_args cargs ;> put_stable_associated_bindings bs).
Proof.
  unfold trait_object_references. intros ([]&?&([]&?&Hb)%bind_ok)%bind_ok Hlen.
  case_match eqn:E; [done|]. apply Z.ltb_ge in E. apply bind_ok in Hb as (bound&Hb&?). simplify_eq.
  assert (writable (put_stable_associated_bindings bs)); [|auto 10 with writable].
  apply writable_list; [done|]. eapply writable_bindings; [done|auto with writable].
Qed.

Lemma writable_instance inst : validate_module_id (arg_module inst) = Ok () →
  len (instance_args inst) ≤ MAX_ITEMS → len (instance_const_args inst) ≤ MAX_ITEMS →
  writable (put_owner_instance inst).
Proof.
  intros. unfold put_owner_instance. apply writable_seq; [auto with writable|].
  apply writable_seq; [|auto with writable]. apply writable_option. intros. apply writable_bytes.
Qed.

Lemma writable_node node refs : node_references node = Ok refs → len refs ≤ MAX_ITEMS →
  writable (put_node node).
Proof.
  destruct node as [| |d args cargs| | | |? l| | | | | | | | | | | |? b| | | | | | | | | | |? ? inst]; simpl;
    try (intros; simplify_eq; by auto 10 with writable).
  - intros ([]&?&?)%bind_ok. auto with writable.
  - intros ([]&?&([]&?&?)%bind_ok)%bind_ok ?. simplify_eq. auto 10 with writable.
  - intros. destruct l; simpl; auto 10 with writable.
  - intros _ _. repeat (apply writable_seq; [auto with writable|]). apply writable_option. auto with writable.
  - case_match; [|done]. intros. simplify_eq. auto with writable.
  - intros. do 2 (apply writable_seq; [auto with writable|]). by eapply writable_trait_object.
  - intros. apply writable_seq; [auto with writable|]. by eapply writable_trait_object.
  - intros ([]&?&([]&?&?)%bind_ok)%bind_ok ?. simplify_eq. auto 10 with writable.
  - intros ([]&?&(here&Hi&?)%bind_ok)%bind_ok Hlen. simplify_eq.
    assert (writable (put_option put_owner_instance inst)); [|auto 10 with writable].
    apply writable_option. intros i ->. apply bind_ok in Hi as ([]&?&([]&?&?)%bind_ok). simplify_eq.
    apply writable_instance; auto with writable.
Qed.

(** Encoding fails only where validation fails or the payload is too large: once a
    graph is valid, no writer refuses a string, a definition or a list. *)
Theorem encode_type_graph_total (g : StableTypeGraph) :
  match validate g with
  | Err e => encode_type_graph g = Err e
  | Ok _ => (∃ bs, encode_type_graph g = Ok bs) ∨ encode_type_graph g = Err TooLarge
  end.
Proof.
  destruct (validate g) as [[]|e] eqn:Hv; [|by unfold encode_type_graph; rewrite Hv].
  assert (writable (put_graph g)) as [w Hw].
  { pose proof Hv as (_&_&Hn)%validate_ok. unfold validate in Hv. case_match eqn:E; [done|]. bool_to_prop.
    assert (writable (put_each put_node (nodes g))).
    { apply writable_each, Forall_lookup. intros i node (refs&?&_&?)%Hn%validate_node_ok.
      by eapply writable_node. }
    assert (writable (put_each put_u32 (roots g))).
    { apply writable_each, Forall_true. intros. apply writable_bytes. }
    unfold put_graph, len in *. repeat (apply writable_seq; [first [apply writable_bytes|apply writable_list_len; lia|done]|]).
    done. }
  unfold encode_type_graph. rewrite Hv. csimpl. rewrite (Hw []). csimpl. case_match; [by right|left; by eexists].
Qed.
End Graphs.

(** One graph with one builtin type. *)
Definition refuses_builtin `{Semver} (tag : Z) : bool :=
  match encode_type_graph (mkStableTypeGraph [BuiltinType tag] [0]) with
  | Ok bs => match decode_type_graph bs with Err InvalidManifest => true | _ => false end
  | Err _ => false
  end.

(** C39: Validation accepts a builtin type with an unknown tag and encoding writes it,
    but the decoder refuses the payload. *)
Theorem unknown_builtin_not_decodable `{Semver} (tag : Z) (Htag : 2 < tag < 256) :
  ∃ bs, encode_type_graph (mkStableTypeGraph [BuiltinType tag] [0]) = Ok bs ∧
        decode_type_graph bs = Err InvalidManifest.
Proof.
  assert (forallb refuses_builtin (seqZ 3 253) = true) as Hall by (vm_compute; reflexivity).
  rewrite List.forallb_forall in Hall. assert (refuses_builtin tag = true) as Ht.
  { apply Hall, list_elem_of_In, elem_of_seqZ. lia. }
  unfold refuses_builtin in Ht. case_match eqn:E1; [|done]. exists a. split; [done|].
  by do 2 (case_match; try done).
Qed.

(** ** Examples *)

Definition sample_semver : Semver := {|
  Version := list Z;
  version_parse := Some;
  cmp_precedence := λ a b, Z.of_nat (length a) ?= Z.of_nat (length b);
  pre_is_empty := λ _, true;
  VersionReq := unit;
  req_matches := λ _ _, true;
  req_text := λ _, ["*"%B];
|}.

(** A tuple of a primitive and of a named type applied to it. *)
Definition sample_graph : @StableTypeGraph sample_semver :=
  let v := @mkPackageVersion sample_semver (bytes_of_string "1.0.0") (bytes_of_string "1.0.0") in
  let m := @mkModuleId sample_semver (@mkPackageId sample_semver (bytes_of_string "n") (bytes_of_string "p") v)
             (bytes_of_string "m") in
  let d := @mkDefinitionId sample_semver m (bytes_of_string "Box") 1 7 None in
  @mkStableTypeGraph sample_semver
    [@Primitive sample_semver 3;
     @NamedApplied sample_semver d [0] [mkStableConstArg 0 (CharValue 955)];
     @Tuple sample_semver [0; 1]] [1; 2].

Definition sample_payload : list Z :=
  match @encode_type_graph sample_semver sample_graph with Ok bs => bs | Err _ => [] end.

Lemma type_graph_canonical_witness :
  @encode_type_graph sample_semver sample_graph = Ok sample_payload ∧
  @decode_type_graph sample_semver sample_payload = Ok sample_graph.
Proof.
  assert (@decode_type_graph sample_semver sample_payload = Ok sample_graph) as Hdec by reflexivity.
  split; [|exact Hdec].
  apply (@type_graph_canonical sample_semver sample_payload sample_graph); [|exact Hdec].
  vm_compute. repeat constructor; intros [=].
Defined.

Lemma decoded_graph_acyclic_witness :
  StronglySorted Z.lt (@roots sample_semver sample_graph) ∧
  ∀ r, @mentions sample_semver (@Tuple sample_semver [0; 1]) r → r < 2.
Proof.
  pose proof (@decoded_graph_acyclic sample_semver sample_payload sample_graph eq_refl) as (Hr&_&Hn).
  split; [exact Hr|]. exact (λ r, Hn 2%nat _ r eq_refl).
Defined.

Lemma unknown_builtin_not_decodable_witness :
  ∃ bs, @encode_type_graph sample_semver (mkStableTypeGraph [BuiltinType 3] [0]) = Ok bs ∧
        @decode_type_graph sample_semver bs = Err InvalidManifest.
Proof. apply (@unknown_builtin_not_decodable sample_semver 3). lia. Defined.
