(* ===== verification/PlanTypes.v ===== *)
(** * nia-build-plan: names, paths and plan data
      ([crates/nia-build-plan/src/lib.rs], [crates/nia-compat/src/build_names.rs]) *)

From S2P Require Import Prelude RustStd RustOrd Target.

(** ** Names *)

Inductive StableNameError :=
  | EmptyName
  | InvalidCharacter (index : Z) (character : Z).

(** The characters of a stable name. *)
Definition is_stable_character (c : Z) : bool :=
  is_ascii_alphanumeric c || (c =? "-"%B) || (c =? "_"%B) || (c =? "."%B).

(** The loop over [char_indices]; [index] is the byte offset. *)
Fixpoint check_stable_characters (index : Z) (name : list Z) : Result StableNameError () :=
  match name with
  | [] => Ok ()
  | c :: name =>
      if is_stable_character c then check_stable_characters (index + len_utf8 c) name
      else Err (InvalidCharacter index c)
  end.

Definition validate_stable_name (name : list Z) : Result StableNameError () :=
  match name with
  | [] => Err EmptyName
  | _ => check_stable_characters 0 name
  end.

Definition INTERNAL_TEST_COMPILE_STEP_PREFIX : list Z := bytes_of_string "nia-internal-test-compile.".

Inductive PublicStepNameError :=
  | StableName (error : StableNameError)
  | LeadingHyphen
  | PathComponent
  | ReservedPrefix.

(** [str::starts_with]. *)
Definition starts_with {A} `{EqDecision A} (s prefix : list A) : bool := bool_decide (prefix `prefix_of` s).

Definition validate_public_step_name (name : list Z) : Result PublicStepNameError () :=
  match validate_stable_name name with
  | Err e => Err (StableName e)
  | Ok _ =>
      if starts_with name ["-"%B] then Err LeadingHyphen
      else if bool_decide (name = ["."%B]) || bool_decide (name = ["."%B; "."%B]) then Err PathComponent
      else if starts_with name INTERNAL_TEST_COMPILE_STEP_PREFIX then Err ReservedPrefix
      else Ok ()
  end.

(** ** Keys *)

Record PackageKey := mkPackageKey { as_str : list Z }.

(** [PackageKey::new]. *)
Definition package_key_new (name : list Z) : Result StableNameError PackageKey :=
  _ ← validate_stable_name name; Ok (mkPackageKey name).

(** The record that [define_node_key!] declares for each of the four kinds of key. *)
Record NodeKey := mkNodeKey { key_package : PackageKey; key_name : list Z }.
Notation ModuleKey := NodeKey (only parsing).
Notation ArtifactKey := NodeKey (only parsing).
Notation ActionKey := NodeKey (only parsing).
Notation StepKey := NodeKey (only parsing).

Definition node_key_new (package : PackageKey) (name : list Z) : Result StableNameError NodeKey :=
  _ ← validate_stable_name name; Ok (mkNodeKey package name).

#[global] Instance PackageKey_eq_dec : EqDecision PackageKey.
Proof. solve_decision. Defined.
#[global] Instance NodeKey_eq_dec : EqDecision NodeKey.
Proof. solve_decision. Defined.

(** The derived orders; a string compares by its scalars. *)
#[global] Instance PackageKey_ord : Ord PackageKey := λ a b, cmp (as_str a) (as_str b).
#[global] Instance NodeKey_ord : Ord NodeKey := λ a b,
  then_with (cmp (key_package a) (key_package b)) (cmp (key_name a) (key_name b)).

(** ** Logical paths *)

Inductive LogicalPathRoot :=
  | PackageRoot (package : PackageKey)
  | BuildRoot
  | CacheRoot
  | ToolchainRoot
  | ArtifactRoot (artifact : ArtifactKey).

Record LogicalPath := mkLogicalPath { root : LogicalPathRoot; components : list (list Z) }.

#[global] Instance LogicalPathRoot_eq_dec : EqDecision LogicalPathRoot.
Proof. solve_decision. Defined.
#[global] Instance LogicalPath_eq_dec : EqDecision LogicalPath.
Proof. solve_decision. Defined.

Definition root_index (r : LogicalPathRoot) : Z :=
  match r with
  | PackageRoot _ => 0
  | BuildRoot => 1
  | CacheRoot => 2
  | ToolchainRoot => 3
  | ArtifactRoot _ => 4
  end.

#[global] Instance LogicalPathRoot_ord : Ord LogicalPathRoot := λ a b,
  match a, b with
  | PackageRoot a, PackageRoot b => cmp a b
  | ArtifactRoot a, ArtifactRoot b => cmp (A := NodeKey) a b
  | _, _ => root_index a ?= root_index b
  end.
#[global] Instance LogicalPath_ord : Ord LogicalPath := λ a b,
  then_with (cmp (root a) (root b)) (cmp (components a) (components b)).

Inductive LogicalPathError :=
  | Absolute | EmptyComponent | CurrentDirectory | ParentDirectory | Backslash | Colon | Nul.

(** [str::split] at a character. *)
Fixpoint split_at (sep : Z) (s : list Z) : list (list Z) :=
  match s with
  | [] => [[]]
  | c :: s =>
      if c =? sep then [] :: split_at sep s
      else match split_at sep s with
           | part :: parts => (c :: part) :: parts
           | [] => [[c]]
           end
  end.

(** The loop over the components. *)
Fixpoint check_components (parts : list (list Z)) : Result LogicalPathError () :=
  match parts with
  | [] => Ok ()
  | part :: parts =>
      if bool_decide (part = []) then Err EmptyComponent
      else if bool_decide (part = ["."%B]) then Err CurrentDirectory
      else if bool_decide (part = ["."%B; "."%B]) then Err ParentDirectory
      else check_components parts
  end.

(** [LogicalPath::new]. *)
Definition logical_path_new (r : LogicalPathRoot) (path : list Z) : Result LogicalPathError LogicalPath :=
  if starts_with path ["/"%B] then Err Absolute
  else if bool_decide (BACKSLASH ∈ path) then Err Backslash
  else if bool_decide (":"%B ∈ path) then Err Colon
  else if bool_decide (0 ∈ path) then Err Nul
  else match path with
       | [] => Ok (mkLogicalPath r [])
       | _ =>
           let parts := split_at "/"%B path in
           _ ← check_components parts;
           Ok (mkLogicalPath r parts)
       end.

Definition protocol_path (p : LogicalPath) : list Z := join_with ["/"%B] (components p).

Definition overlaps (a b : LogicalPath) : bool :=
  bool_decide (root a = root b)
  && (starts_with (components a) (components b) || starts_with (components b) (components a)).

Definition path_is_empty (p : LogicalPath) : bool := bool_decide (components p = []).

(** ** Configuration *)

Inductive OptimizationMode := O0 | O1 | O2 | O3 | Os_ | Oz.
Inductive Runtime := Bare | Freestanding.
Inductive CompilationMode := Normal | TestMode.
Inductive ArtifactLinkage := StaticLinkage | StaticPie | DynamicLinkage.
Inductive DebugInfo := NoDebug | LineTables | FullDebug.
Inductive PanicStrategy := PanicAbort | PanicUnwind.
Inductive ArtifactLto := LtoOff | LtoThin | LtoFull.
Inductive SystemLibraryMode := DefaultLibrary | StaticLibrary | DynamicLibrary.

Record ArtifactDefine := mkArtifactDefine { define_name : list Z; define_value : option (list Z) }.
Record SystemLibrary := mkSystemLibrary { library_name : list Z; library_mode : SystemLibraryMode }.

Record ArtifactConfiguration := mkArtifactConfiguration {
  linkage : ArtifactLinkage;
  debug_info : DebugInfo;
  panic_strategy : PanicStrategy;
  lto : ArtifactLto;
  defines : list ArtifactDefine;
  system_libraries : list SystemLibrary;
}.

#[global] Instance OptimizationMode_eq_dec : EqDecision OptimizationMode.
Proof. solve_decision. Defined.
#[global] Instance Runtime_eq_dec : EqDecision Runtime.
Proof. solve_decision. Defined.
#[global] Instance CompilationMode_eq_dec : EqDecision CompilationMode.
Proof. solve_decision. Defined.
#[global] Instance ArtifactLinkage_eq_dec : EqDecision ArtifactLinkage.
Proof. solve_decision. Defined.
#[global] Instance DebugInfo_eq_dec : EqDecision DebugInfo.
Proof. solve_decision. Defined.
#[global] Instance PanicStrategy_eq_dec : EqDecision PanicStrategy.
Proof. solve_decision. Defined.
#[global] Instance ArtifactLto_eq_dec : EqDecision ArtifactLto.
Proof. solve_decision. Defined.
#[global] Instance SystemLibraryMode_eq_dec : EqDecision SystemLibraryMode.
Proof. solve_decision. Defined.
#[global] Instance ArtifactDefine_eq_dec : EqDecision ArtifactDefine.
Proof. solve_decision. Defined.
#[global] Instance SystemLibrary_eq_dec : EqDecision SystemLibrary.
Proof. solve_decision. Defined.
#[global] Instance ArtifactConfiguration_eq_dec : EqDecision ArtifactConfiguration.
Proof. solve_decision. Defined.

(** ** Declarations *)

Record ModuleImport := mkModuleImport { import_name : list Z; import_path : LogicalPath }.
#[global] Instance ModuleImport_eq_dec : EqDecision ModuleImport.
Proof. solve_decision. Defined.
#[global] Instance ModuleImport_ord : Ord ModuleImport := λ a b,
  then_with (cmp (import_name a) (import_name b)) (cmp (import_path a) (import_path b)).

Record PlanModule := mkPlanModule {
  module_key : ModuleKey;
  root_source : LogicalPath;
  optimization : OptimizationMode;
  imports : list ModuleImport;
}.

Inductive PlanPackageSource :=
  | Local (root : list Z)
  | Dependency (alias : list Z).

Record PlanPackage := mkPlanPackage { plan_package_key : PackageKey; package_source : PlanPackageSource }.

Inductive PackageRootError :=
  | RootPackageMustBeEmpty
  | ExternalPackageMustBeNonempty
  | InvalidPath (error : LogicalPathError).

Inductive PlanArtifactKind := Executable | ObjectSet | StaticArchive.
#[global] Instance PlanArtifactKind_eq_dec : EqDecision PlanArtifactKind.
Proof. solve_decision. Defined.

Record PlanArtifact := mkPlanArtifact {
  artifact_key : ArtifactKey;
  root_module : ModuleKey;
  artifact_kind : PlanArtifactKind;
  output : LogicalPath;
  artifact_runtime : Runtime;
  artifact_mode : CompilationMode;
  artifact_configuration : ArtifactConfiguration;
}.

(** ** Actions *)

Inductive CommandProgram := ProgramPath (path : LogicalPath) | SearchProgram (program : list Z).
Inductive CommandArgument :=
  | Literal (value : list Z)
  | InputArgument (path : LogicalPath)
  | OutputArgument (path : LogicalPath).
Record EnvironmentInput := mkEnvironmentInput { env_name : list Z; env_value : option (list Z) }.
Inductive CommandEnvironmentPolicy := InheritEnvironment | ClearEnvironment.
Inductive CommandStdin := NullStdin | StdinPath (path : LogicalPath).
Inductive CommandCachePolicy :=
  | UncacheablePolicy | DeclaredInputs | ToolAndInputs | FullDeclaredEnvironment | SuccessfulTests.
Inductive ActionResourceClass := Conservative | Cpu | IoClass.

#[global] Instance CommandProgram_eq_dec : EqDecision CommandProgram.
Proof. solve_decision. Defined.
#[global] Instance CommandArgument_eq_dec : EqDecision CommandArgument.
Proof. solve_decision. Defined.
#[global] Instance EnvironmentInput_eq_dec : EqDecision EnvironmentInput.
Proof. solve_decision. Defined.
#[global] Instance CommandEnvironmentPolicy_eq_dec : EqDecision CommandEnvironmentPolicy.
Proof. solve_decision. Defined.
#[global] Instance CommandCachePolicy_eq_dec : EqDecision CommandCachePolicy.
Proof. solve_decision. Defined.
#[global] Instance EnvironmentInput_ord : Ord EnvironmentInput := λ a b,
  then_with (cmp (env_name a) (env_name b)) (cmp (env_value a) (env_value b)).

Record CommandAction := mkCommandAction {
  resource_class : ActionResourceClass;
  environment_policy : CommandEnvironmentPolicy;
  cache_policy : CommandCachePolicy;
  stdin : CommandStdin;
  program : CommandProgram;
  arguments : list CommandArgument;
  working_directory : LogicalPath;
  environment : list EnvironmentInput;
  inputs : list LogicalPath;
  outputs : list LogicalPath;
}.

Inductive ActionKind :=
  | CompilerCheck (module : ModuleKey) (target : TargetConfig) (runtime : Runtime)
      (mode : CompilationMode) (configuration : ArtifactConfiguration)
  | CompilerEmit (artifact : ArtifactKey) (target : TargetConfig)
      (static_archives : list ArtifactKey) (configuration : ArtifactConfiguration)
  | ExternalCommand (command : CommandAction)
  | RunExecutable (command : CommandAction)
  | TestExecutable (command : CommandAction)
  | GeneratedFile (generated : LogicalPath) (contents : list Z)
  | InstallArtifact (artifact : ArtifactKey) (destination : LogicalPath)
  | Aggregate
  | Uncacheable (description : list Z).

Record PlanAction := mkPlanAction { action_key : ActionKey; action_kind : ActionKind }.

(** The three kinds of action that run a command. *)
Definition action_command (kind : ActionKind) : option CommandAction :=
  match kind with
  | ExternalCommand command | RunExecutable command | TestExecutable command => Some command
  | _ => None
  end.

(** ** Steps and plans *)

Inductive StepVisibility := Public | Internal.

Record PlanStep := mkPlanStep {
  step_key : StepKey;
  visibility : StepVisibility;
  step_action : ActionKey;
  dependencies : list StepKey;
}.

(** [BuildPlanDraft]; a [BuildPlan] has the same fields and the protocol epoch. *)
Record BuildPlanDraft := mkBuildPlanDraft {
  root_package : PackageKey;
  packages : list PlanPackage;
  host_target : TargetConfig;
  artifact_target : TargetConfig;
  modules : list PlanModule;
  artifacts : list PlanArtifact;
  actions : list PlanAction;
  steps : list PlanStep;
  default_step : option StepKey;
  selected_step : option StepKey;
}.

Record BuildPlan := mkBuildPlan { protocol_epoch : Z; plan_content : BuildPlanDraft }.

(** ** Errors *)

Record OutputCollision := mkOutputCollision {
  collision_path : LogicalPath;
  first_owner : ActionKey;
  second_owner : ActionKey;
}.

Inductive PlanError :=
  | DuplicatePackage (package : PackageKey)
  | MissingPackage (package : PackageKey)
  | InvalidPackageRoot (package : PackageKey) (error : PackageRootError)
  | DuplicateModule (module : ModuleKey)
  | DuplicateArtifact (artifact : ArtifactKey)
  | DuplicateAction (action : ActionKey)
  | DuplicateStep (step : StepKey)
  | InvalidPublicStepName (step : StepKey) (error : PublicStepNameError)
  | DuplicateImport (module : ModuleKey) (import : list Z)
  | MissingModule (owner : list Z) (module : ModuleKey)
  | MissingArtifact (action : ActionKey) (artifact : ArtifactKey)
  | MissingAction (step : StepKey) (action : ActionKey)
  | MissingStep (owner : list Z) (step : StepKey)
  | InternalStepSelected (step : StepKey)
  | StepCycle (steps : list StepKey)
  | InvalidOutput (action : ActionKey) (path : LogicalPath)
  | OutputCollides (collision : OutputCollision)
  | InvalidCommand (action : ActionKey) (reason : string)
  | NonExecutableTest (artifact : ArtifactKey)
  | InvalidArtifactConfiguration (artifact : ArtifactKey) (reason : string)
  | InvalidArtifactUse (action : ActionKey) (artifact : ArtifactKey) (reason : string)
  | MissingBuildInputProducer (action : ActionKey) (path : LogicalPath)
  | BuildInputProducerOutsideClosure (action : ActionKey) (path : LogicalPath) (producer : ActionKey)
  | MissingGeneratedSourceProducer (action : ActionKey) (module : ModuleKey) (path : LogicalPath)
  | GeneratedSourceProducerOutsideClosure (action : ActionKey) (module : ModuleKey)
      (path : LogicalPath) (producer : ActionKey).
