(* ===== verification/PlanValidate.v ===== *)
(** * nia-build-plan: freezing a draft
      ([crates/nia-build-plan/src/validation.rs], [actions.rs], [dependencies.rs] and
      [BuildPlan::freeze])

    A [BTreeMap] or [BTreeSet] collected from declarations is a list searched by key;
    [reason] texts are those of the source. *)

From S2P Require Import Prelude RustStd RustOrd Target PlanTypes StableCodec.

Notation Checked := (Result PlanError).

(** [iter().collect::<BTreeMap<_, _>>().get(key)]: of equal keys the last wins. *)
Definition get_by {A K} `{EqDecision K} (key : A → K) (k : K) (l : list A) : option A :=
  foldl (λ found a, if decide (key a = k) then Some a else found) None l.

(** [for x in xs { check(x)?; }]. *)
Fixpoint check_all {A} (check : A → Checked ()) (l : list A) : Checked () :=
  match l with
  | [] => Ok ()
  | a :: l => _ ← check a; check_all check l
  end.

(** [for x in xs.iter_mut() { ... ?; }]. *)
Fixpoint update_all {A} (update : A → Checked A) (l : list A) : Checked (list A) :=
  match l with
  | [] => Ok []
  | a :: l => b ← update a; l ← update_all update l; Ok (b :: l)
  end.

Definition require (b : bool) (e : PlanError) : Checked () := if b then Ok () else Err e.

Definition reject_duplicate_by {A K} `{EqDecision K} (values : list A) (key : A → K)
    (error : K → PlanError) : Checked () :=
  check_all (λ pair, if decide (key pair.1 = key pair.2) then Err (error (key pair.1)) else Ok ())
    (windows2 values).

(** ** Packages *)

Definition check_package (root_package : PackageKey) (package : PlanPackage) : Checked () :=
  let is_root := bool_decide (plan_package_key package = root_package) in
  let invalid error : Checked () := Err (InvalidPackageRoot (plan_package_key package) error) in
  match package_source package with
  | Dependency alias =>
      if is_root then invalid RootPackageMustBeEmpty
      else match validate_stable_name alias with
           | Err _ => invalid ExternalPackageMustBeNonempty
           | Ok _ =>
               if bool_decide (as_str (plan_package_key package) ≠ alias)
               then invalid ExternalPackageMustBeNonempty else Ok ()
           end
  | Local root =>
      if is_root && bool_decide (root ≠ []) then invalid RootPackageMustBeEmpty
      else if negb is_root && bool_decide (root = []) then invalid ExternalPackageMustBeNonempty
      else match logical_path_new BuildRoot root with
           | Err error => invalid (InvalidPath error)
           | Ok _ => Ok ()
           end
  end.

Definition canonicalize_packages (packages : list PlanPackage) (root_package : PackageKey) :
    Checked (list PlanPackage) :=
  let packages := sort_by (λ a b, cmp (plan_package_key a) (plan_package_key b)) packages in
  _ ← reject_duplicate_by packages plan_package_key DuplicatePackage;
  _ ← require (existsb (λ p, bool_decide (plan_package_key p = root_package)) packages)
        (MissingPackage root_package);
  _ ← check_all (check_package root_package) packages;
  Ok packages.

(** [require] of [validate_package_references]. *)
Definition require_package (packages : list PlanPackage) (package : PackageKey) : Checked () :=
  require (existsb (λ p, bool_decide (plan_package_key p = package)) packages) (MissingPackage package).

Definition validate_path_package (path : LogicalPath) (req : PackageKey → Checked ()) : Checked () :=
  match root path with
  | PackageRoot package => req package
  | ArtifactRoot artifact => req (key_package artifact)
  | _ => Ok ()
  end.

Definition validate_command_packages (req : PackageKey → Checked ()) (command : CommandAction) : Checked () :=
  _ ← match program command with
      | ProgramPath path => validate_path_package path req
      | SearchProgram _ => Ok ()
      end;
  _ ← validate_path_package (working_directory command) req;
  check_all (λ path, validate_path_package path req) (inputs command ++ outputs command).

Definition validate_action_packages (req : PackageKey → Checked ()) (action : PlanAction) : Checked () :=
  _ ← req (key_package (action_key action));
  match action_kind action with
  | CompilerCheck module _ _ _ _ => req (key_package module)
  | CompilerEmit artifact _ static_archives _ =>
      _ ← req (key_package artifact);
      check_all (λ archive, req (key_package archive)) static_archives
  | ExternalCommand command | RunExecutable command | TestExecutable command =>
      validate_command_packages req command
  | GeneratedFile generated _ => validate_path_package generated req
  | InstallArtifact artifact destination =>
      _ ← req (key_package artifact); validate_path_package destination req
  | Aggregate | Uncacheable _ => Ok ()
  end.

Definition require_step_package (req : PackageKey → Checked ()) (step : option StepKey) : Checked () :=
  match step with
  | Some step => req (key_package step)
  | None => Ok ()
  end.

Definition validate_package_references (draft : BuildPlanDraft) : Checked () :=
  let req := require_package (packages draft) in
  _ ← check_all (λ m,
        _ ← req (key_package (module_key m));
        _ ← validate_path_package (root_source m) req;
        check_all (λ i, validate_path_package (import_path i) req) (imports m)) (modules draft);
  _ ← check_all (λ a,
        _ ← req (key_package (artifact_key a));
        _ ← req (key_package (root_module a));
        validate_path_package (output a) req) (artifacts draft);
  _ ← check_all (validate_action_packages req) (actions draft);
  _ ← check_all (λ s,
        _ ← req (key_package (step_key s));
        _ ← req (key_package (step_action s));
        check_all (λ d, req (key_package d)) (dependencies s)) (steps draft);
  _ ← require_step_package req (default_step draft);
  require_step_package req (selected_step draft).

(** ** Modules and artifacts *)

Definition canonicalize_module (m : PlanModule) : Checked PlanModule :=
  let imports := sort (imports m) in
  _ ← check_all (λ pair,
        if decide (import_name pair.1 = import_name pair.2)
        then Err (DuplicateImport (module_key m) (import_name pair.1)) else Ok ()) (windows2 imports);
  Ok (mkPlanModule (module_key m) (root_source m) (optimization m) imports).

Definition canonicalize_modules (modules : list PlanModule) : Checked (list PlanModule) :=
  let modules := sort_by (λ a b, cmp (A := NodeKey) (module_key a) (module_key b)) modules in
  _ ← reject_duplicate_by modules module_key DuplicateModule;
  update_all canonicalize_module modules.

(** [name.is_empty() || name.contains('\0')]. *)
Definition bad_name (name : list Z) : bool := bool_decide (name = []) || bool_decide (0 ∈ name).

Definition check_library (a : PlanArtifact) (library : SystemLibrary) : Checked () :=
  if bad_name (library_name library) then
    Err (InvalidArtifactConfiguration (artifact_key a)
           "system library names must be non-empty and contain no NUL")
  else if bool_decide (library_mode library = DynamicLibrary)
          && bool_decide (linkage (artifact_configuration a) = StaticLinkage) then
    Err (InvalidArtifactConfiguration (artifact_key a)
           "dynamic system libraries require dynamic linkage")
  else Ok ().

Definition check_artifact (modules : list PlanModule) (a : PlanArtifact) : Checked () :=
  let not_executable := bool_decide (artifact_kind a ≠ Executable) in
  if negb (existsb (λ m, bool_decide (module_key m = root_module a)) modules) then
    Err (MissingModule (bytes_of_string "artifact " ++ key_name (artifact_key a)) (root_module a))
  else if bool_decide (artifact_mode a = TestMode) && not_executable then
    Err (NonExecutableTest (artifact_key a))
  else if not_executable && bool_decide (linkage (artifact_configuration a) = DynamicLinkage) then
    Err (InvalidArtifactConfiguration (artifact_key a) "dynamic linkage requires an executable")
  else if not_executable && bool_decide (lto (artifact_configuration a) ≠ LtoOff) then
    Err (InvalidArtifactConfiguration (artifact_key a) "LTO requires an executable")
  else
    _ ← check_all (λ define,
          if bad_name (define_name define) then
            Err (InvalidArtifactConfiguration (artifact_key a)
                   "define names must be non-empty and contain no NUL")
          else Ok ()) (defines (artifact_configuration a));
    check_all (check_library a) (system_libraries (artifact_configuration a)).

Definition canonicalize_artifacts (artifacts : list PlanArtifact) (modules : list PlanModule) :
    Checked (list PlanArtifact) :=
  let artifacts := sort_by (λ a b, cmp (A := NodeKey) (artifact_key a) (artifact_key b)) artifacts in
  _ ← reject_duplicate_by artifacts artifact_key DuplicateArtifact;
  _ ← check_all (check_artifact modules) artifacts;
  Ok artifacts.

(** ** Actions ([actions.rs]) *)

(** [emit_targets]: the target each artifact is emitted for. *)
Notation EmitTargets := (list (ArtifactKey * TargetConfig)).

Definition target_of (artifact : ArtifactKey) (targets : EmitTargets) : option TargetConfig :=
  snd <$> get_by fst artifact targets.

Fixpoint collect_emit_targets (targets : EmitTargets) (actions : list PlanAction) : Checked EmitTargets :=
  match actions with
  | [] => Ok targets
  | action :: actions =>
      match action_kind action with
      | CompilerEmit artifact target _ _ =>
          if existsb (λ p, bool_decide (p.1 = artifact)) targets then
            Err (InvalidArtifactUse (action_key action) artifact
                   "artifact has multiple compiler emit actions")
          else collect_emit_targets (targets ++ [(artifact, target)]) actions
      | _ => collect_emit_targets targets actions
      end
  end.

Definition require_artifact (action : ActionKey) (artifact : ArtifactKey) (artifacts : list PlanArtifact) :
    Checked PlanArtifact :=
  ok_or (get_by artifact_key artifact artifacts) (MissingArtifact action artifact).

Definition require_artifact_kind (action : ActionKey) (artifact : ArtifactKey)
    (artifacts : list PlanArtifact) (expected : PlanArtifactKind) (reason : string) : Checked () :=
  declared ← require_artifact action artifact artifacts;
  require (bool_decide (artifact_kind declared = expected)) (InvalidArtifactUse action artifact reason).

Definition require_artifact_root (action : ActionKey) (path : LogicalPath) (reason : string) : Checked () :=
  require (path_is_empty path) (InvalidCommand action reason).

Definition check_artifact_input (action : ActionKey) (artifacts : list PlanArtifact) (input : LogicalPath) :
    Checked () :=
  match root input with
  | ArtifactRoot artifact =>
      _ ← require_artifact_root action input "artifact input path must name the artifact root";
      _ ← require_artifact action artifact artifacts;
      Ok ()
  | _ => Ok ()
  end.

Definition check_artifact_program (action : ActionKey) (program : CommandProgram)
    (artifacts : list PlanArtifact) (emit_targets : EmitTargets) (host_target : TargetConfig) : Checked () :=
  match program with
  | ProgramPath path =>
      match root path with
      | ArtifactRoot artifact =>
          _ ← require_artifact_root action path "artifact program path must name the artifact root";
          _ ← require_artifact_kind action artifact artifacts Executable
                "external command programs must be executable artifacts";
          match target_of artifact emit_targets with
          | Some target =>
              require (bool_decide (target = host_target))
                (InvalidArtifactUse action artifact
                   "external command programs must be emitted for the host target")
          | None => Ok ()
          end
      | _ => Ok ()
      end
  | SearchProgram _ => Ok ()
  end.

Definition validate_external_command_artifacts (action : ActionKey) (program : CommandProgram)
    (working_directory : LogicalPath) (inputs : list LogicalPath) (artifacts : list PlanArtifact)
    (emit_targets : EmitTargets) (host_target : TargetConfig) : Checked () :=
  _ ← check_artifact_program action program artifacts emit_targets host_target;
  _ ← match root working_directory with
      | ArtifactRoot artifact =>
          _ ← require_artifact_root action working_directory
                "artifact working directory must name the artifact root";
          require_artifact_kind action artifact artifacts ObjectSet
            "external command working directories must be object-set artifacts"
      | _ => Ok ()
      end;
  check_all (check_artifact_input action artifacts) inputs.

(** [make_ascii_uppercase]. *)
Definition ascii_uppercase (c : Z) : Z := if ("a"%B <=? c) && (c <=? "z"%B) then c - 32 else c.

Definition upper_name (input : EnvironmentInput) : EnvironmentInput :=
  mkEnvironmentInput (ascii_uppercase <$> env_name input) (env_value input).

Definition bad_environment_input (input : EnvironmentInput) : bool :=
  bool_decide (env_name input = []) || bool_decide (0 ∈ env_name input)
  || bool_decide ("="%B ∈ env_name input)
  || match env_value input with Some value => bool_decide (0 ∈ value) | None => false end.

(** An argument that names a path names a declared one; [binary_search] on a sorted
    vector finds every element. *)
Definition check_argument (action : ActionKey) (inputs outputs : list LogicalPath) (argument : CommandArgument) :
    Checked () :=
  match argument with
  | Literal _ => Ok ()
  | InputArgument path =>
      require (bool_decide (path ∈ inputs))
        (InvalidCommand action "input argument path is not declared as an input")
  | OutputArgument path =>
      require (bool_decide (path ∈ outputs))
        (InvalidCommand action "output argument path is not declared as an output")
  end.

Definition is_output_argument (output : LogicalPath) (argument : CommandArgument) : bool :=
  match argument with
  | OutputArgument path => bool_decide (path = output)
  | _ => false
  end.

(** What [SearchProgram] and the literal arguments may contain. *)
Definition check_command_texts (action : ActionKey) (command : CommandAction) : Checked () :=
  _ ← match program command with
      | SearchProgram name =>
          _ ← require (bool_decide (name ≠ [])) (InvalidCommand action "empty program");
          require (bool_decide (0 ∉ name)) (InvalidCommand action "program contains NUL")
      | ProgramPath _ => Ok ()
      end;
  require (negb (existsb (λ argument,
                   match argument with Literal value => bool_decide (0 ∈ value) | _ => false end)
             (arguments command)))
    (InvalidCommand action "argument contains NUL").

(** The names for the host, sorted. *)
Definition canonical_environment (host_target : TargetConfig) (command : CommandAction) : list EnvironmentInput :=
  sort (if bool_decide (os host_target = Windows) then upper_name <$> environment command
        else environment command).

Definition check_environment (action : ActionKey) (env : list EnvironmentInput) : Checked () :=
  _ ← check_all (λ input,
        require (negb (bad_environment_input input)) (InvalidCommand action "invalid environment input")) env;
  require (negb (existsb (λ pair, bool_decide (env_name pair.1 = env_name pair.2)) (windows2 env)))
    (InvalidCommand action "duplicate environment input").

Definition check_cache_policy (action : ActionKey) (command : CommandAction) (env : list EnvironmentInput) :
    Checked () :=
  let policy := cache_policy command in
  _ ← require (negb (bool_decide (policy = DeclaredInputs ∨ policy = ToolAndInputs)
                     && bool_decide (environment_policy command ≠ ClearEnvironment)))
        (InvalidCommand action "cacheable command must clear inherited environment");
  _ ← require (negb (bool_decide (policy ≠ UncacheablePolicy ∧ policy ≠ SuccessfulTests)
                     && bool_decide (outputs command = [])))
        (InvalidCommand action "cacheable command must declare an output");
  _ ← require (negb (bool_decide (policy = SuccessfulTests) && bool_decide (outputs command ≠ [])))
        (InvalidCommand action "cached test suites cannot declare outputs");
  require (negb (bool_decide (policy = FullDeclaredEnvironment)
                 && (bool_decide (environment_policy command ≠ InheritEnvironment)
                     || bool_decide (env ≠ []))))
    (InvalidCommand action "full environment cache cannot declare environment overrides").

Definition check_stdin (action : ActionKey) (command : CommandAction) (inputs : list LogicalPath)
    (artifacts : list PlanArtifact) (emit_targets : EmitTargets) (host_target : TargetConfig) : Checked () :=
  match stdin command with
  | StdinPath path =>
      _ ← require (bool_decide (path ∈ inputs))
            (InvalidCommand action "stdin input path is not declared as an input");
      validate_external_command_artifacts action (SearchProgram []) (working_directory command) [path]
        artifacts emit_targets host_target
  | NullStdin => Ok ()
  end.

(** The arm of the three command actions. *)
Definition canonicalize_command (action : ActionKey) (command : CommandAction)
    (artifacts : list PlanArtifact) (emit_targets : EmitTargets) (host_target : TargetConfig) :
    Checked CommandAction :=
  _ ← validate_external_command_artifacts action (program command) (working_directory command)
        (inputs command) artifacts emit_targets host_target;
  _ ← check_command_texts action command;
  let env := canonical_environment host_target command in
  _ ← check_environment action env;
  _ ← check_cache_policy action command env;
  let ins := dedup (sort (inputs command)) in
  let outs := dedup (sort (outputs command)) in
  _ ← check_all (check_argument action ins outs) (arguments command);
  _ ← check_stdin action command ins artifacts emit_targets host_target;
  _ ← require (forallb (λ out, existsb (is_output_argument out) (arguments command)) outs)
        (InvalidCommand action "declared output has no staged command argument");
  Ok (mkCommandAction (resource_class command) (environment_policy command) (cache_policy command)
        (stdin command) (program command) (arguments command) (working_directory command) env ins outs).

Fixpoint check_archives (action : ActionKey) (target : TargetConfig) (artifacts : list PlanArtifact)
    (emit_targets : EmitTargets) (seen : list ArtifactKey) (archives : list ArtifactKey) : Checked () :=
  match archives with
  | [] => Ok ()
  | archive :: archives =>
      linked ← require_artifact action archive artifacts;
      _ ← require (bool_decide (artifact_kind linked = StaticArchive))
            (InvalidArtifactUse action archive "executable link inputs must be static archives");
      _ ← require (bool_decide (archive ∉ seen))
            (InvalidArtifactUse action archive "duplicate static archive link input");
      _ ← require (bool_decide (target_of archive emit_targets = Some target))
            (InvalidArtifactUse action archive
               "linked static archive has no emit action for the executable target");
      check_archives action target artifacts emit_targets (archive :: seen) archives
  end.

Definition check_emit (action : ActionKey) (artifact : ArtifactKey) (target : TargetConfig)
    (static_archives : list ArtifactKey) (configuration : ArtifactConfiguration)
    (artifacts : list PlanArtifact) (emit_targets : EmitTargets) : Checked () :=
  emitted ← require_artifact action artifact artifacts;
  _ ← require (bool_decide (artifact_configuration emitted = configuration))
        (InvalidArtifactUse action artifact "compiler emit configuration must match its artifact");
  _ ← require (bool_decide (artifact_kind emitted = Executable ∨ static_archives = []))
        (InvalidArtifactUse action artifact "only executable artifacts can link static archives");
  check_archives action target artifacts emit_targets [] static_archives.

(** The body of the loop over the actions, with its guards in order. *)
Definition canonicalize_action (modules : list PlanModule) (artifacts : list PlanArtifact)
    (emit_targets : EmitTargets) (host_target : TargetConfig) (action : PlanAction) : Checked PlanAction :=
  let key := action_key action in
  match action_kind action with
  | TestExecutable command =>
      _ ← require (bool_decide (cache_policy command = UncacheablePolicy ∨ cache_policy command = SuccessfulTests))
            (InvalidCommand key "test executable actions require a test cache policy");
      command ← canonicalize_command key command artifacts emit_targets host_target;
      Ok (mkPlanAction key (TestExecutable command))
  | RunExecutable command =>
      _ ← require (bool_decide (cache_policy command = UncacheablePolicy))
            (InvalidCommand key "run executable actions must be uncacheable");
      command ← canonicalize_command key command artifacts emit_targets host_target;
      Ok (mkPlanAction key (RunExecutable command))
  | ExternalCommand command =>
      _ ← require (bool_decide (cache_policy command ≠ SuccessfulTests))
            (InvalidCommand key "successful test caching requires a test action");
      command ← canonicalize_command key command artifacts emit_targets host_target;
      Ok (mkPlanAction key (ExternalCommand command))
  | CompilerCheck module _ _ _ _ =>
      _ ← require (existsb (λ m, bool_decide (module_key m = module)) modules)
            (MissingModule (bytes_of_string "action " ++ key_name key) module);
      Ok action
  | CompilerEmit artifact target static_archives configuration =>
      _ ← check_emit key artifact target static_archives configuration artifacts emit_targets;
      Ok action
  | InstallArtifact artifact _ =>
      installed ← require_artifact key artifact artifacts;
      _ ← require (bool_decide (artifact_kind installed = Executable ∨ artifact_kind installed = StaticArchive))
            (InvalidArtifactUse key artifact "only file artifacts can be installed");
      Ok action
  | GeneratedFile _ _ | Aggregate | Uncacheable _ => Ok action
  end.

Definition canonicalize_actions (actions : list PlanAction) (modules : list PlanModule)
    (artifacts : list PlanArtifact) (host_target : TargetConfig) : Checked (list PlanAction) :=
  let actions := sort_by (λ a b, cmp (A := NodeKey) (action_key a) (action_key b)) actions in
  _ ← reject_duplicate_by actions action_key DuplicateAction;
  emit_targets ← collect_emit_targets [] actions;
  update_all (canonicalize_action modules artifacts emit_targets host_target) actions.

(** ** Steps ([validation.rs]) *)

Definition canonicalize_step (actions : list PlanAction) (step_keys : list StepKey) (step : PlanStep) :
    Checked PlanStep :=
  _ ← match visibility step with
      | Public =>
          match validate_public_step_name (key_name (step_key step)) with
          | Err error => Err (InvalidPublicStepName (step_key step) error)
          | Ok _ => Ok ()
          end
      | Internal => Ok ()
      end;
  _ ← require (existsb (λ a, bool_decide (action_key a = step_action step)) actions)
        (MissingAction (step_key step) (step_action step));
  let deps := dedup (sort (A := NodeKey) (dependencies step)) in
  _ ← check_all (λ d : StepKey, require (bool_decide (d ∈ step_keys))
        (MissingStep (bytes_of_string "step " ++ key_name (step_key step)) d)) deps;
  Ok (mkPlanStep (step_key step) (visibility step) (step_action step) deps).

Definition canonicalize_steps (steps : list PlanStep) (actions : list PlanAction) : Checked (list PlanStep) :=
  let steps := sort_by (λ a b, cmp (A := NodeKey) (step_key a) (step_key b)) steps in
  _ ← reject_duplicate_by steps step_key DuplicateStep;
  update_all (canonicalize_step actions (step_key <$> steps)) steps.

Definition check_selection (steps : list PlanStep) (owner : string) (selected : option StepKey) : Checked () :=
  match selected with
  | None => Ok ()
  | Some key =>
      step ← ok_or (get_by step_key key steps) (MissingStep (bytes_of_string owner) key);
      match visibility step with
      | Internal => Err (InternalStepSelected key)
      | Public => Ok ()
      end
  end.

Definition validate_step_selection (draft : BuildPlanDraft) : Checked () :=
  _ ← check_selection (steps draft) "default" (default_step draft);
  check_selection (steps draft) "selected" (selected_step draft).

(** *** Cycles *)

(** The maps of [validate_step_cycles].  [canonicalize_steps] has sorted the steps by
    their distinct keys, so that the counters are listed in the order of the map. *)
Notation Degrees := (list (StepKey * nat)).
Notation Dependents := (list (StepKey * list StepKey)).

(** [*indegree.get_mut(key) += 1], when the key is there. *)
Fixpoint increment (key : StepKey) (indegree : Degrees) : option Degrees :=
  match indegree with
  | [] => None
  | (k, d) :: rest =>
      if decide (k = key) then Some ((k, S d) :: rest)
      else rest ← increment key rest; Some ((k, d) :: rest)
  end.

(** [*degree -= 1], and whether the degree is zero now. *)
Fixpoint decrement (key : StepKey) (indegree : Degrees) : option (Degrees * bool) :=
  match indegree with
  | [] => None
  | (k, d) :: rest =>
      if decide (k = key) then Some ((k, pred d) :: rest, (pred d =? 0)%nat)
      else '(rest, zero) ← decrement key rest; Some ((k, d) :: rest, zero)
  end.

(** [dependents.entry(dependency).or_default().push(step)]. *)
Fixpoint push_dependent (dependency step : StepKey) (dependents : Dependents) : Dependents :=
  match dependents with
  | [] => [(dependency, [step])]
  | (k, l) :: rest =>
      if decide (k = dependency) then (k, l ++ [step]) :: rest
      else (k, l) :: push_dependent dependency step rest
  end.

Fixpoint count_dependencies (step : StepKey) (deps : list StepKey) (maps : Degrees * Dependents) :
    Checked (Degrees * Dependents) :=
  match deps with
  | [] => Ok maps
  | d :: deps =>
      indegree ← ok_or (increment step maps.1) (MissingStep (bytes_of_string "cycle validator") step);
      count_dependencies step deps (indegree, push_dependent d step maps.2)
  end.

Fixpoint count_steps (steps : list PlanStep) (maps : Degrees * Dependents) : Checked (Degrees * Dependents) :=
  match steps with
  | [] => Ok maps
  | step :: steps =>
      maps ← count_dependencies (step_key step) (dependencies step) maps;
      count_steps steps maps
  end.

(** [BTreeSet::insert] and [pop_first]: the set as a sorted list. *)
Fixpoint set_insert (key : StepKey) (l : list StepKey) : list StepKey :=
  match l with
  | [] => [key]
  | k :: rest =>
      match cmp (A := NodeKey) key k with
      | Lt => key :: l
      | Eq => l
      | Gt => k :: set_insert key rest
      end
  end.

Fixpoint release_dependents (items : list StepKey) (indegree : Degrees) (ready : list StepKey) :
    Checked (Degrees * list StepKey) :=
  match items with
  | [] => Ok (indegree, ready)
  | dependent :: items =>
      r ← ok_or (decrement dependent indegree) (MissingStep (bytes_of_string "cycle validator dependent") dependent);
      release_dependents items r.1 (if r.2 : bool then set_insert dependent ready else ready)
  end.

(** The [while let Some(key) = ready.pop_first()] loop.  Every step is popped at most
    once, so that the number of steps is enough fuel ([visit_steps_fuel]). *)
Fixpoint visit_steps (fuel : nat) (dependents : Dependents) (indegree : Degrees) (ready : list StepKey)
    (visited : nat) : Checked (Degrees * nat) :=
  match fuel, ready with
  | _, [] => Ok (indegree, visited)
  | O, _ => Ok (indegree, visited)
  | S fuel, key :: ready =>
      let items := default [] (snd <$> get_by fst key dependents) in
      r ← release_dependents items indegree ready;
      visit_steps fuel dependents r.1 r.2 (S visited)
  end.

Definition validate_step_cycles (steps : list PlanStep) : Checked () :=
  let indegree := (λ step, (step_key step, O)) <$> steps in
  maps ← count_steps steps (indegree, []);
  let ready := foldl (λ ready p, if (p.2 =? 0)%nat then set_insert p.1 ready else ready) [] maps.1 in
  r ← visit_steps (length steps) maps.2 maps.1 ready 0;
  if (r.2 =? length steps)%nat then Ok ()
  else Err (StepCycle (fst <$> filter (λ p : StepKey * nat, p.2 ≠ O) r.1)).

(** ** Dependencies ([dependencies.rs]) *)

(** [BTreeMap::insert] and [entry(key).or_insert(value)]. *)
Fixpoint map_insert {V} (key : NodeKey) (value : V) (l : list (NodeKey * V)) : list (NodeKey * V) :=
  match l with
  | [] => [(key, value)]
  | (k, v) :: rest =>
      match cmp key k with
      | Lt => (key, value) :: l
      | Eq => (key, value) :: rest
      | Gt => (k, v) :: map_insert key value rest
      end
  end.

Definition map_or_insert {V} (key : NodeKey) (value : V) (l : list (NodeKey * V)) : list (NodeKey * V) :=
  if existsb (λ p, bool_decide (p.1 = key)) l then l else map_insert key value l.

(** The artifact a path is rooted at. *)
Definition path_artifact (path : LogicalPath) : option ArtifactKey :=
  match root path with ArtifactRoot artifact => Some artifact | _ => None end.

Definition command_requirements (command : CommandAction) : list (ArtifactKey * string) :=
  let required :=
    match program command with
    | ProgramPath path =>
        match path_artifact path with
        | Some artifact => map_insert artifact "artifact program has no compiler emit dependency"%string []
        | None => []
        end
    | SearchProgram _ => []
    end in
  let required :=
    match path_artifact (working_directory command) with
    | Some artifact =>
        map_insert artifact "artifact working directory has no compiler emit dependency"%string required
    | None => required
    end in
  foldl (λ required input,
    match path_artifact input with
    | Some artifact => map_or_insert artifact "artifact input has no compiler emit dependency"%string required
    | None => required
    end) required (inputs command).

(** The artifacts a step needs, with the error to report. *)
Definition required_artifacts (kind : option ActionKind) : list (ArtifactKey * string) :=
  match kind with
  | Some (ExternalCommand command) | Some (RunExecutable command) | Some (TestExecutable command) =>
      command_requirements command
  | Some (CompilerEmit _ _ static_archives _) =>
      foldl (λ required archive,
        map_insert archive "linked static archive has no compiler emit dependency"%string required)
        [] static_archives
  | Some (InstallArtifact artifact _) =>
      map_insert artifact "artifact install has no compiler emit dependency"%string []
  | _ => []
  end.

(** The loop of [dependency_action_closure]; [pending] has the top of the stack first.
    Each step pushes its dependencies once, so that the number of all dependencies is
    enough fuel ([dependency_action_closure_spec]). *)
Fixpoint closure_loop (fuel : nat) (owner : StepKey) (steps : list PlanStep) (pending visited : list StepKey)
    (actions : list ActionKey) : Checked (list ActionKey) :=
  match fuel, pending with
  | _, [] => Ok actions
  | O, _ => Ok actions
  | S fuel, dependency_key :: pending =>
      if decide (dependency_key ∈ visited) then closure_loop fuel owner steps pending visited actions
      else
        dependency ← ok_or (get_by step_key dependency_key steps)
          (MissingStep (bytes_of_string "step " ++ key_name owner ++ bytes_of_string " dependency closure")
             dependency_key);
        closure_loop fuel owner steps (rev (dependencies dependency) ++ pending) (dependency_key :: visited)
          (step_action dependency :: actions)
  end.

Definition all_dependencies (steps : list PlanStep) : nat := sum_list (length ∘ dependencies <$> steps).

Definition dependency_action_closure (step : PlanStep) (steps : list PlanStep) : Checked (list ActionKey) :=
  closure_loop (length (dependencies step) + all_dependencies steps) (step_key step) steps
    (rev (dependencies step)) [] [].

(** Whether an action of the closure emits the artifact. *)
Definition emits (actions : list PlanAction) (artifact : ArtifactKey) (action : ActionKey) : bool :=
  match action_kind <$> get_by action_key action actions with
  | Some (CompilerEmit produced _ _ _) => bool_decide (produced = artifact)
  | _ => false
  end.

Definition check_step_artifacts (actions : list PlanAction) (steps : list PlanStep) (step : PlanStep) : Checked () :=
  match required_artifacts (action_kind <$> get_by action_key (step_action step) actions) with
  | [] => Ok ()
  | required =>
      closure ← dependency_action_closure step steps;
      check_all (λ r : ArtifactKey * string,
        require (existsb (emits actions r.1) closure) (InvalidCommand (step_action step) r.2)) required
  end.

Definition validate_artifact_dependencies (actions : list PlanAction) (steps : list PlanStep) : Checked () :=
  check_all (check_step_artifacts actions steps) steps.

(** *** Outputs *)

Record ActionOutput := mkActionOutput { output_path : LogicalPath; is_directory : bool }.

Inductive BuildPathRequirement := AnyPath | FilePath | DirectoryPath.

Definition produces (out : ActionOutput) (input : LogicalPath) (requirement : BuildPathRequirement) : bool :=
  match requirement with
  | AnyPath =>
      bool_decide (output_path out = input)
      || (is_directory out && bool_decide (root (output_path out) = root input)
          && starts_with (components input) (components (output_path out)))
  | FilePath => bool_decide (output_path out = input) && negb (is_directory out)
  | DirectoryPath => bool_decide (output_path out = input) && is_directory out
  end.

Definition action_outputs (artifacts : list PlanArtifact) (action : PlanAction) : Checked (list ActionOutput) :=
  match action_kind action with
  | CompilerEmit artifact _ _ _ =>
      emitted ← require_artifact (action_key action) artifact artifacts;
      Ok [mkActionOutput (output emitted) (bool_decide (artifact_kind emitted = ObjectSet))]
  | ExternalCommand command | RunExecutable command | TestExecutable command =>
      Ok ((λ path, mkActionOutput path false) <$> outputs command)
  | GeneratedFile generated _ => Ok [mkActionOutput generated false]
  | InstallArtifact _ destination => Ok [mkActionOutput destination false]
  | _ => Ok []
  end.

Definition OUTPUT_TRANSACTION_DIRECTORY : list Z := bytes_of_string ".nia-transactions".

(** An output must be below the build root and outside the transaction directory. *)
Definition bad_output (path : LogicalPath) : bool :=
  path_is_empty path || bool_decide (root path ≠ BuildRoot)
  || bool_decide (head (components path) = Some OUTPUT_TRANSACTION_DIRECTORY).

Notation Owners := (list (LogicalPath * ActionKey)).

(** [BTreeMap::insert] on paths. *)
Fixpoint owners_insert (path : LogicalPath) (action : ActionKey) (owners : Owners) : Owners :=
  match owners with
  | [] => [(path, action)]
  | (p, a) :: rest =>
      match cmp path p with
      | Lt => (path, action) :: owners
      | Eq => (path, action) :: rest
      | Gt => (p, a) :: owners_insert path action rest
      end
  end.

Fixpoint claim_outputs (action : ActionKey) (outs : list ActionOutput) (owners : Owners) : Checked Owners :=
  match outs with
  | [] => Ok owners
  | out :: outs =>
      let path := output_path out in
      if bad_output path then Err (InvalidOutput action path)
      else match List.find (λ owner, overlaps owner.1 path) owners with
           | Some (owned, first) =>
               let collision :=
                 if (length (components path) <=? length (components owned))%nat then owned else path in
               Err (OutputCollides (mkOutputCollision collision first action))
           | None => claim_outputs action outs (owners_insert path action owners)
           end
  end.

Fixpoint claim_all (artifacts : list PlanArtifact) (actions : list PlanAction) (owners : Owners) : Checked Owners :=
  match actions with
  | [] => Ok owners
  | action :: actions =>
      outs ← action_outputs artifacts action;
      owners ← claim_outputs (action_key action) outs owners;
      claim_all artifacts actions owners
  end.

Definition validate_output_ownership (actions : list PlanAction) (artifacts : list PlanArtifact) : Checked () :=
  _ ← claim_all artifacts actions []; Ok ().

(** *** Inputs from the build directory *)

Fixpoint collect_producers (artifacts : list PlanArtifact) (actions : list PlanAction) :
    Checked (list (ActionOutput * ActionKey)) :=
  match actions with
  | [] => Ok []
  | action :: actions =>
      outs ← action_outputs artifacts action;
      rest ← collect_producers artifacts actions;
      Ok (((λ out, (out, action_key action)) <$> outs) ++ rest)
  end.

(** The paths of a command below the build root that must exist when it starts. *)
Definition build_requirements (command : CommandAction) : list (LogicalPath * BuildPathRequirement) :=
  match program command with
  | ProgramPath path => if bool_decide (root path = BuildRoot) then [(path, FilePath)] else []
  | SearchProgram _ => []
  end
  ++ (if bool_decide (root (working_directory command) = BuildRoot)
         && negb (path_is_empty (working_directory command))
      then [(working_directory command, DirectoryPath)] else [])
  ++ ((λ input, (input, AnyPath)) <$> filter (λ input, root input = BuildRoot) (inputs command)).

Definition check_build_input (steps consumer_steps : list PlanStep) (producers : list (ActionOutput * ActionKey))
    (action : ActionKey) (r : LogicalPath * BuildPathRequirement) : Checked () :=
  let input_producers := snd <$> filter (λ p : ActionOutput * ActionKey, produces p.1 r.1 r.2 = true) producers in
  match input_producers with
  | [] => Err (MissingBuildInputProducer action r.1)
  | _ =>
      check_all (λ consumer,
        closure ← dependency_action_closure consumer steps;
        check_all (λ producer, require (bool_decide (producer ∈ closure))
          (BuildInputProducerOutsideClosure action r.1 producer)) input_producers) consumer_steps
  end.

(** The steps of an action, in the order of the plan. *)
Definition steps_of (steps : list PlanStep) (action : ActionKey) : list PlanStep :=
  filter (λ step, step_action step = action) steps.

Definition validate_build_input_dependencies (draft : BuildPlanDraft) : Checked () :=
  producers ← collect_producers (artifacts draft) (actions draft);
  check_all (λ action,
    match action_command (action_kind action), steps_of (steps draft) (action_key action) with
    | Some command, (_ :: _) as consumer_steps =>
        check_all (check_build_input (steps draft) consumer_steps producers (action_key action))
          (build_requirements command)
    | _, _ => Ok ()
    end) (actions draft).

(** *** Generated sources *)

(** [producers]: of equal paths the last action wins. *)
Definition source_producers (actions : list PlanAction) : list (LogicalPath * ActionKey) :=
  actions ≫= λ action,
    match action_kind action with
    | GeneratedFile generated _ => [(generated, action_key action)]
    | ExternalCommand command | RunExecutable command | TestExecutable command =>
        (λ out, (out, action_key action)) <$> outputs command
    | _ => []
    end.

Definition compiled_module (artifacts : list PlanArtifact) (kind : ActionKind) : option ModuleKey :=
  match kind with
  | CompilerCheck module _ _ _ _ => Some module
  | CompilerEmit artifact _ _ _ => root_module <$> get_by artifact_key artifact artifacts
  | _ => None
  end.

Definition check_generated_source (draft : BuildPlanDraft) (consumer_steps : list PlanStep)
    (action : ActionKey) (module : ModuleKey) (path : LogicalPath) : Checked () :=
  if bool_decide (root path ≠ BuildRoot) then Ok ()
  else
    producer ← ok_or (snd <$> get_by fst path (source_producers (actions draft)))
      (MissingGeneratedSourceProducer action module path);
    let outside := GeneratedSourceProducerOutsideClosure action module path producer in
    _ ← require (negb (bool_decide (steps_of (steps draft) producer = []))) outside;
    check_all (λ consumer,
      closure ← dependency_action_closure consumer (steps draft);
      require (bool_decide (producer ∈ closure)) outside) consumer_steps.

Definition check_compiled_sources (draft : BuildPlanDraft) (action : PlanAction) : Checked () :=
  match compiled_module (artifacts draft) (action_kind action), steps_of (steps draft) (action_key action) with
  | Some key, (_ :: _) as consumer_steps =>
      module ← ok_or (get_by module_key key (modules draft))
        (MissingModule (bytes_of_string "action " ++ key_name (action_key action)) key);
      check_all (check_generated_source draft consumer_steps (action_key action) key)
        (root_source module :: (import_path <$> imports module))
  | _, _ => Ok ()
  end.

Definition validate_generated_source_dependencies (draft : BuildPlanDraft) : Checked () :=
  check_all (check_compiled_sources draft) (actions draft).

(** ** [BuildPlan::freeze] *)

Definition freeze (draft : BuildPlanDraft) : Checked BuildPlan :=
  let '(mkBuildPlanDraft rp ps ht at_ ms fs acts ss ds sel) := draft in
  ps ← canonicalize_packages ps rp;
  _ ← validate_package_references (mkBuildPlanDraft rp ps ht at_ ms fs acts ss ds sel);
  ms ← canonicalize_modules ms;
  fs ← canonicalize_artifacts fs ms;
  acts ← canonicalize_actions acts ms fs ht;
  ss ← canonicalize_steps ss acts;
  let draft := mkBuildPlanDraft rp ps ht at_ ms fs acts ss ds sel in
  _ ← validate_step_selection draft;
  _ ← validate_step_cycles ss;
  _ ← validate_artifact_dependencies acts ss;
  _ ← validate_output_ownership acts fs;
  _ ← validate_build_input_dependencies draft;
  _ ← validate_generated_source_dependencies draft;
  Ok (mkBuildPlan PROTOCOL_EPOCH draft).
