(* ===== verification/PlanFacts.v ===== *)
(** * nia-build-plan: lemmas on keys, orders and checks *)

From Stdlib Require Import Sorting.Sorted.
From S2P Require Import Prelude RustStd RustOrd PlanTypes PlanValidate.

(** ** The derived orders are orders *)

#[global] Instance PackageKey_laws : OrdLaws PackageKey.
Proof. apply (ord_laws_inj as_str); [|done]. by intros [] [] [= ->]. Qed.

#[global] Instance NodeKey_laws : OrdLaws NodeKey.
Proof. apply (ord_laws_inj (λ k, (key_package k, key_name k))); [|done]. by intros [] [] [= -> ->]. Qed.

(** The index of a root and the texts in it. *)
Definition root_code (r : LogicalPathRoot) : Z * list (list Z) :=
  (root_index r,
   match r with
   | PackageRoot p => [as_str p]
   | ArtifactRoot a => [as_str (key_package a); key_name a]
   | _ => []
   end).

Lemma then_with_Eq c : then_with c Eq = c.
Proof. by destruct c. Qed.

#[global] Instance LogicalPathRoot_laws : OrdLaws LogicalPathRoot.
Proof.
  apply (ord_laws_inj root_code).
  - intros [[]| | | |[[] ]] [[]| | | |[[] ]]; unfold root_code; simpl; intros; by simplify_eq.
  - intros [p| | | |a] [q| | | |b]; try done.
    + change (cmp (as_str p) (as_str q) = then_with (cmp (as_str p) (as_str q)) Eq). by rewrite then_with_Eq.
    + change (then_with (cmp (as_str (key_package a)) (as_str (key_package b))) (cmp (key_name a) (key_name b))
        = then_with (cmp (as_str (key_package a)) (as_str (key_package b)))
            (then_with (cmp (key_name a) (key_name b)) Eq)). by rewrite then_with_Eq.
Qed.

#[global] Instance LogicalPath_laws : OrdLaws LogicalPath.
Proof. apply (ord_laws_inj (λ p, (root p, components p))); [|done]. by intros [] [] [= -> ->]. Qed.

#[global] Instance ModuleImport_laws : OrdLaws ModuleImport.
Proof. apply (ord_laws_inj (λ i, (import_name i, import_path i))); [|done]. by intros [] [] [= -> ->]. Qed.

#[global] Instance EnvironmentInput_laws : OrdLaws EnvironmentInput.
Proof. apply (ord_laws_inj (λ i, (env_name i, env_value i))); [|done]. by intros [] [] [= -> ->]. Qed.

(** ** Checks *)

Lemma checked_bind {A B} (r : Checked A) (f : A → Checked B) b :
  (r ≫= f) = Ok b ↔ ∃ a, r = Ok a ∧ f a = Ok b.
Proof. destruct r; naive_solver. Qed.

Lemma require_ok b e : require b e = Ok () ↔ b = true.
Proof. by destruct b. Qed.

Lemma check_all_ok {A} (check : A → Checked ()) l :
  check_all check l = Ok () ↔ ∀ a, a ∈ l → check a = Ok ().
Proof.
  induction l as [|a l IH]; simpl; [split; [by intros _ ? ?%not_elem_of_nil|done]|].
  rewrite checked_bind. setoid_rewrite IH. setoid_rewrite elem_of_cons. split.
  - intros ([]&Ha&Hl) x [->|Hx]; auto.
  - intros H. exists (). split; [auto|]. intros x Hx. auto.
Qed.

Lemma update_all_ok {A} (update : A → Checked A) l l' :
  update_all update l = Ok l' ↔ Forall2 (λ a b, update a = Ok b) l l'.
Proof.
  revert l'. induction l as [|a l IH]; intros l'; simpl.
  - split; [by intros [= <-]|]. by intros ->%Forall2_nil_inv_l.
  - rewrite checked_bind. setoid_rewrite checked_bind. setoid_rewrite IH. split.
    + intros (b&Hb&l1&Hl&[= <-]). by constructor.
    + intros (b&l1&Hb&Hl&->)%Forall2_cons_inv_l. eauto.
Qed.

Lemma reject_duplicate_by_ok {A K} `{EqDecision K} (l : list A) (key : A → K) e :
  reject_duplicate_by l key e = Ok () ↔ distinct_neighbours (key <$> l).
Proof.
  unfold reject_duplicate_by, distinct_neighbours. rewrite check_all_ok.
  induction l as [|a [|b l] IH]; [split; [constructor|by intros _ ? ?%not_elem_of_nil]..|].
  cbn [windows2 fmap list_fmap]. rewrite Forall_cons. setoid_rewrite elem_of_cons.
  rewrite <- IH. simpl. split.
  - intros H. split; [specialize (H (a, b)); simpl in H; case_decide; naive_solver|auto].
  - intros [Hab H] x [->|Hx]; [by rewrite decide_False|auto].
Qed.

(** ** Lookup by key *)

Lemma get_by_snoc {A K} `{EqDecision K} (key : A → K) k l a :
  get_by key k (l ++ [a]) = if decide (key a = k) then Some a else get_by key k l.
Proof. unfold get_by. by rewrite foldl_app. Qed.

Lemma get_by_Some {A K} `{EqDecision K} (key : A → K) k l a : get_by key k l = Some a → a ∈ l ∧ key a = k.
Proof.
  induction l as [|b l IH] using rev_ind; [done|]. rewrite get_by_snoc, elem_of_app, list_elem_of_singleton.
  case_decide; naive_solver.
Qed.

Lemma get_by_None {A K} `{EqDecision K} (key : A → K) k l : get_by key k l = None ↔ k ∉ key <$> l.
Proof.
  induction l as [|b l IH] using rev_ind; [split; [by intros _ ?%not_elem_of_nil|done]|].
  rewrite get_by_snoc, fmap_app, elem_of_app. cbn [fmap list_fmap]. rewrite list_elem_of_singleton.
  case_decide; naive_solver.
Qed.

(** With distinct keys a declaration is found by its key. *)
Lemma get_by_elem {A K} `{EqDecision K} (key : A → K) k l a : NoDup (key <$> l) →
  get_by key k l = Some a ↔ a ∈ l ∧ key a = k.
Proof.
  intros Hnd. split; [apply get_by_Some|]. intros [Hin <-].
  destruct (get_by key (key a) l) as [b|] eqn:E.
  - apply get_by_Some in E as [Hb Hkey]. f_equal.
    apply list_elem_of_lookup in Hin as [i Hi], Hb as [j Hj].
    assert (i = j) as ->; [|congruence].
    eapply NoDup_lookup; [done|..]; rewrite list_lookup_fmap; [by rewrite Hi|rewrite Hj; simpl; by rewrite Hkey].
  - apply get_by_None in E. destruct E. by apply list_elem_of_fmap_2.
Qed.

(** ** Sorted lists with distinct neighbours *)

Definition lt `{Ord A} (a b : A) : Prop := cmp a b = Lt.

Lemma lt_trans `{OrdLaws A} (a b c : A) : lt a b → lt b c → lt a c.
Proof.
  unfold lt. intros H1 H2. pose proof (cmp_trans a b c) as H3. pose proof (cmp_trans b c a) as H4.
  rewrite (cmp_flip a c), (cmp_flip a b), H1, H2 in *.
  destruct (cmp a c); [|done|]; exfalso; [apply H4|apply H3]; done.
Qed.

Lemma lt_irrefl `{OrdLaws A} (a : A) : ¬ lt a a.
Proof. unfold lt. by rewrite (proj2 (cmp_eq a a) eq_refl). Qed.

Lemma strictly_sorted `{OrdLaws A} (l : list A) :
  Sorted (λ a b, cmp a b ≠ Gt) l → distinct_neighbours l → StronglySorted lt l.
Proof.
  intros Hs Hd. apply Sorted_StronglySorted; [intros ???; apply lt_trans|].
  unfold distinct_neighbours in Hd. induction Hs as [|a l Hs IH Ha]; [constructor|].
  destruct l as [|b l]; [by constructor|]. cbn [windows2] in Hd. apply Forall_cons in Hd as [Hab Hd].
  constructor; [by apply IH|]. inversion Ha; subst. constructor. unfold lt.
  destruct (cmp a b) eqn:E; [|done..]. by apply cmp_eq in E.
Qed.

Lemma strictly_sorted_nodup `{OrdLaws A} (l : list A) : StronglySorted lt l → NoDup l.
Proof.
  induction 1 as [|a l Hs IH Ha]; [constructor|]. constructor; [|done].
  intros Hin. rewrite Forall_forall in Ha. by apply Ha, lt_irrefl in Hin.
Qed.

Lemma sorted_fmap {A B} (R : B → B → Prop) (f : A → B) l :
  Sorted (λ a b, R (f a) (f b)) l → Sorted R (f <$> l).
Proof.
  induction 1 as [|a l Hs IH Ha]; [constructor|]. cbn. constructor; [done|]. by destruct Ha; constructor.
Qed.

(** Sorting by a key and rejecting equal neighbours leaves no equal keys. *)
Lemma sorted_keys_nodup {A} `{OrdLaws K} (key : A → K) (l : list A) :
  distinct_neighbours (key <$> sort_by (λ a b, cmp (key a) (key b)) l) →
  StronglySorted lt (key <$> sort_by (λ a b, cmp (key a) (key b)) l)
  ∧ NoDup (key <$> sort_by (λ a b, cmp (key a) (key b)) l).
Proof.
  intros Hd. assert (StronglySorted lt (key <$> sort_by (λ a b, cmp (key a) (key b)) l)) as Hs.
  { apply strictly_sorted; [|done]. apply sorted_fmap, sort_by_sorted. intros. apply cmp_flip. }
  split; [done|]. by apply strictly_sorted_nodup.
Qed.
