(* ===== verification/PlanCycles.v ===== *)
(** * nia-build-plan: the cycle check decides acyclicity

    [validate_step_cycles] removes steps without open dependencies until none is
    left.  The invariant of its loop relates the counters and the ready set to the
    list of removed steps. *)

From Stdlib Require Import Sorting.Sorted.
From stdpp Require Import relations.
From S2P Require Import Prelude RustStd RustOrd PlanTypes PlanValidate PlanFacts.

(** [a] names a step with [b] among its dependencies. *)
Definition depends (steps : list PlanStep) (a b : StepKey) : Prop :=
  ∃ s, s ∈ steps ∧ step_key s = a ∧ b ∈ dependencies s.

(** ** The ready set *)

Lemma set_insert_spec (k : StepKey) l : StronglySorted lt l →
  StronglySorted lt (set_insert k l) ∧ ∀ x, x ∈ set_insert k l ↔ x = k ∨ x ∈ l.
Proof.
  induction 1 as [|a l Hs IH Ha]; cbn [set_insert].
  { split; [repeat constructor|]. intros x. rewrite list_elem_of_singleton, elem_of_nil. naive_solver. }
  destruct (cmp (A := NodeKey) k a) eqn:E.
  - apply cmp_eq in E as ->. split; [by constructor|]. intros x. rewrite !elem_of_cons. naive_solver.
  - split; [|intros x; rewrite !elem_of_cons; naive_solver].
    constructor; [by constructor|]. constructor; [done|]. eapply Forall_impl; [done|].
    intros x. by apply lt_trans.
  - destruct IH as [IHs IHin]. split.
    + constructor; [done|]. apply Forall_forall. intros x [->|Hx]%IHin; [unfold lt; by rewrite cmp_flip, E|].
      rewrite Forall_forall in Ha. auto.
    + intros x. rewrite !elem_of_cons, IHin. naive_solver.
Qed.

(** ** The counters *)

Lemma increment_spec (k : StepKey) m n : NoDup (fst <$> m) → (k, n) ∈ m →
  ∃ m', increment k m = Some m' ∧ (fst <$> m') = (fst <$> m) ∧ (k, S n) ∈ m' ∧
    ∀ j i, j ≠ k → (j, i) ∈ m' ↔ (j, i) ∈ m.
Proof.
  induction m as [|[j i] m IH]; [by intros _ ?%not_elem_of_nil|]. cbn [fmap list_fmap fst increment].
  intros [Hj Hnd]%NoDup_cons Hin. apply elem_of_cons in Hin. case_decide as Hjk.
  - subst. assert (n = i) as ->.
    { destruct Hin as [|Hin]; [naive_solver|]. destruct Hj. by apply (list_elem_of_fmap_2 fst) in Hin. }
    eexists. split_and!; [done|done|apply elem_of_cons; by left|].
    intros j i' Hne. rewrite !elem_of_cons. naive_solver.
  - destruct Hin as [|Hin]; [naive_solver|]. destruct (IH Hnd Hin) as (m'&->&Hk&Hn&Ho).
    eexists. split_and!; [done|cbn; by rewrite Hk|apply elem_of_cons; by right|].
    intros j' i' Hne. rewrite !elem_of_cons, Ho by done. naive_solver.
Qed.

Lemma decrement_spec (k : StepKey) m n : NoDup (fst <$> m) → (k, n) ∈ m →
  ∃ m', decrement k m = Some (m', (pred n =? 0)%nat) ∧ (fst <$> m') = (fst <$> m) ∧ (k, pred n) ∈ m' ∧
    ∀ j i, j ≠ k → (j, i) ∈ m' ↔ (j, i) ∈ m.
Proof.
  induction m as [|[j i] m IH]; [by intros _ ?%not_elem_of_nil|]. cbn [fmap list_fmap fst decrement].
  intros [Hj Hnd]%NoDup_cons Hin. apply elem_of_cons in Hin. case_decide as Hjk.
  - subst. assert (n = i) as ->.
    { destruct Hin as [|Hin]; [naive_solver|]. destruct Hj. by apply (list_elem_of_fmap_2 fst) in Hin. }
    eexists. split_and!; [done|done|apply elem_of_cons; by left|].
    intros j i' Hne. rewrite !elem_of_cons. naive_solver.
  - destruct Hin as [|Hin]; [naive_solver|]. destruct (IH Hnd Hin) as (m'&->&Hk&Hn&Ho).
    eexists. split_and!; [done|cbn; by rewrite Hk|apply elem_of_cons; by right|].
    intros j' i' Hne. rewrite !elem_of_cons, Ho by done. naive_solver.
Qed.

Lemma counter_unique (m : list (StepKey * nat)) k a b : NoDup (fst <$> m) → (k, a) ∈ m → (k, b) ∈ m → a = b.
Proof.
  intros Hnd Ha Hb. assert (get_by fst k m = Some (k, a) ∧ get_by fst k m = Some (k, b)) as [E1 E2].
  { split; by apply get_by_elem. } congruence.
Qed.

(** How often a key occurs. *)
Definition count (k : StepKey) (l : list StepKey) : nat := length (filter (λ x, x = k) l).

Lemma count_cons k x l : count k (x :: l) = ((if decide (x = k) then 1 else 0) + count k l)%nat.
Proof. unfold count. rewrite filter_cons. by case_decide. Qed.

Lemma count_app k l1 l2 : count k (l1 ++ l2) = (count k l1 + count k l2)%nat.
Proof. unfold count. by rewrite filter_app, length_app. Qed.

Lemma count_elem k l : k ∈ l ↔ (0 < count k l)%nat.
Proof.
  induction l as [|x l IH]; [cbn; rewrite elem_of_nil; lia|]. rewrite count_cons, elem_of_cons, IH.
  case_decide; split; try lia; naive_solver.
Qed.

(** Releasing the dependents of a step lowers each counter by their number and makes
    ready those that reach zero. *)
Lemma release_dependents_spec items m ready : NoDup (fst <$> m) → StronglySorted lt ready →
  (∀ k, k ∈ items → ∃ n, (k, n) ∈ m ∧ (count k items ≤ n)%nat) →
  ∃ m' ready', release_dependents items m ready = Ok (m', ready') ∧
    (fst <$> m') = (fst <$> m) ∧ StronglySorted lt ready' ∧
    (∀ k n, (k, n) ∈ m → (k, n - count k items)%nat ∈ m') ∧
    ∀ x, x ∈ ready' ↔ x ∈ ready ∨ x ∈ items ∧ (x, O) ∈ m'.
Proof.
  revert m ready. induction items as [|k items IH]; intros m ready Hnd Hs Hitems.
  { exists m, ready. cbn. split_and!; [done..|intros; by rewrite Nat.sub_0_r|].
    intros x. rewrite elem_of_nil. naive_solver. }
  destruct (Hitems k) as (n&Hn&Hc); [apply elem_of_cons; by left|].
  rewrite count_cons, decide_True in Hc by done.
  destruct (decrement_spec k m n Hnd Hn) as (m1&Hd&Hk1&Hn1&Ho1).
  cbn [release_dependents]. rewrite Hd. cbn [ok_or mbind Result_bind fst snd].
  set (ready1 := if (pred n =? 0)%nat then set_insert k ready else ready).
  assert (StronglySorted lt ready1 ∧ ∀ x, x ∈ ready1 ↔ x ∈ ready ∨ x = k ∧ pred n = O) as [Hs1 Hr1].
  { subst ready1. destruct (Nat.eqb_spec (pred n) 0) as [E|E].
    - destruct (set_insert_spec k ready Hs) as [? Hx]. split; [done|]. intros x. rewrite Hx. naive_solver.
    - split; [done|]. naive_solver. }
  destruct (IH m1 ready1) as (m'&ready'&Hrel&Hk'&Hs'&Hn'&Hr'); [by rewrite Hk1|done|..].
  { intros j Hj. destruct (decide (j = k)) as [->|Hne].
    - exists (pred n). split; [done|lia].
    - destruct (Hitems j) as (i&Hi&Hci); [apply elem_of_cons; by right|]. exists i.
      split; [by apply Ho1|]. rewrite count_cons, decide_False in Hci by done. lia. }
  exists m', ready'. split_and!; [done|congruence|done|..].
  - intros j i Hi. rewrite count_cons. case_decide as Hj.
    + subst j. assert (i = n) as -> by (by eapply counter_unique).
      replace (n - (1 + count k items))%nat with (pred n - count k items)%nat by lia. by apply Hn'.
    + apply Hn', Ho1; [congruence|done].
  - intros x. rewrite Hr', Hr1, elem_of_cons. split.
    + intros [[?|[-> E]]|[??]]; [by left| |by auto]. right. split; [by left|].
      assert (count k items = O) as E0 by lia. specialize (Hn' k (pred n) Hn1). by rewrite E0, E in Hn'.
    + intros [?|[[->|?] Hz]]; [by auto| |by auto].
      destruct (decide (k ∈ items)) as [|Hni]; [by auto|]. left. right. split; [done|].
      rewrite count_elem in Hni. assert (count k items = O) as E0 by lia.
      specialize (Hn' k (pred n) Hn1). rewrite E0, Nat.sub_0_r in Hn'.
      eapply counter_unique; [|done..]. by rewrite Hk', Hk1.
Qed.

(** ** Counting the dependencies *)

Definition dependents_of (d : StepKey) (D : list (StepKey * list StepKey)) : list StepKey :=
  default [] (snd <$> get_by fst d D).

Lemma push_dependent_spec d s (D : list (StepKey * list StepKey)) : NoDup (fst <$> D) →
  NoDup (fst <$> push_dependent d s D) ∧ (∀ j, j ∈ fst <$> push_dependent d s D ↔ j = d ∨ j ∈ fst <$> D) ∧
  (∀ l, (d, l) ∈ D → (d, l ++ [s]) ∈ push_dependent d s D) ∧
  (d ∉ fst <$> D → (d, [s]) ∈ push_dependent d s D) ∧
  ∀ j l, j ≠ d → (j, l) ∈ push_dependent d s D ↔ (j, l) ∈ D.
Proof.
  induction D as [|[k l] D IH]; cbn [push_dependent].
  { intros _. cbn. split_and!.
    - apply NoDup_singleton.
    - intros j. rewrite list_elem_of_singleton, elem_of_nil. naive_solver.
    - by intros l ?%not_elem_of_nil.
    - intros _. by apply list_elem_of_singleton.
    - intros j l Hne. rewrite list_elem_of_singleton, elem_of_nil. naive_solver. }
  cbn [fmap list_fmap fst]. intros [Hk Hnd]%NoDup_cons. case_decide as Hkd.
  - subst k. cbn [fmap list_fmap fst]. split_and!.
    + by constructor.
    + intros j. rewrite !elem_of_cons. naive_solver.
    + intros l' [|Hl]%elem_of_cons; simplify_eq; [apply elem_of_cons; by left|].
      destruct Hk. by apply (list_elem_of_fmap_2 fst) in Hl.
    + intros Hn. destruct Hn. apply elem_of_cons. by left.
    + intros j l' Hne. rewrite !elem_of_cons. naive_solver.
  - destruct (IH Hnd) as (I1&I2&I3&I4&I5). cbn [fmap list_fmap fst]. split_and!.
    + constructor; [|done]. rewrite I2. naive_solver.
    + intros j. rewrite !elem_of_cons, I2. naive_solver.
    + intros l' [|Hl]%elem_of_cons; simplify_eq. apply elem_of_cons. right. by apply I3.
    + intros Hn. apply elem_of_cons. right. apply I4. intros ?. apply Hn, elem_of_cons. by right.
    + intros j l' Hne. rewrite !elem_of_cons, I5 by done. done.
Qed.

Lemma dependents_push d s D j : NoDup (fst <$> D) →
  dependents_of j (push_dependent d s D) = dependents_of j D ++ if decide (j = d) then [s] else [].
Proof.
  intros Hnd. destruct (push_dependent_spec d s D Hnd) as (P1&P2&P3&P4&P5). unfold dependents_of.
  case_decide as Hj.
  - subst j. destruct (get_by fst d D) as [[k l]|] eqn:E.
    + apply get_by_elem in E as [Hl Hk]; [|done]. simpl in Hk. subst k.
      rewrite (proj2 (get_by_elem fst d _ (d, l ++ [s]) P1)); [done|]. split; [by apply P3|done].
    + apply get_by_None in E. rewrite (proj2 (get_by_elem fst d _ (d, [s]) P1)); [done|].
      split; [by apply P4|done].
  - rewrite app_nil_r. destruct (get_by fst j D) as [[k l]|] eqn:E.
    + apply get_by_elem in E as [Hl Hk]; [|done]. simpl in Hk. subst k.
      rewrite (proj2 (get_by_elem fst j _ (j, l) P1)); [done|]. split; [by apply P5|done].
    + apply get_by_None in E. rewrite (proj2 (get_by_None fst j _)); [done|]. rewrite P2. naive_solver.
Qed.

(** What counting the dependencies of a step adds. *)
Lemma count_dependencies_spec s deps m D n : NoDup (fst <$> m) → NoDup (fst <$> D) → (s, n) ∈ m →
  ∃ m' D', count_dependencies s deps (m, D) = Ok (m', D') ∧ (fst <$> m') = (fst <$> m) ∧ NoDup (fst <$> D') ∧
    (s, n + length deps)%nat ∈ m' ∧ (∀ j i, j ≠ s → (j, i) ∈ m' ↔ (j, i) ∈ m) ∧
    ∀ d k, count k (dependents_of d D') = (count k (dependents_of d D) + if decide (k = s) then count d deps else 0)%nat.
Proof.
  revert m D n. induction deps as [|d deps IH]; intros m D n Hm HD Hn; cbn [count_dependencies].
  { exists m, D. split_and!; [done..|by rewrite Nat.add_0_r|done|]. intros d k. cbn. case_decide; lia. }
  destruct (increment_spec s m n Hm Hn) as (m1&Hi&Hk1&Hn1&Ho1). cbn [fst snd]. rewrite Hi. cbn [ok_or mbind Result_bind].
  destruct (IH m1 (push_dependent d s D) (S n)) as (m'&D'&Hc&Hk'&HD'&Hn'&Ho'&Hd'); [by rewrite Hk1| |done|].
  { by apply push_dependent_spec. }
  exists m', D'. split_and!; [done|congruence|done|..].
  - cbn [length]. by replace (n + S (length deps))%nat with (S n + length deps)%nat by lia.
  - intros j i Hj. by rewrite Ho', Ho1.
  - intros d' k. rewrite Hd', dependents_push, count_app, count_cons by done.
    destruct (decide (d' = d)), (decide (k = s)); subst; cbn [count];
      rewrite ?count_cons; repeat case_decide; try congruence; cbn; lia.
Qed.

Fixpoint total_of (k : StepKey) (steps : list PlanStep) : nat :=
  match steps with
  | [] => 0
  | s :: steps => (if decide (step_key s = k) then length (dependencies s) else 0) + total_of k steps
  end.

Fixpoint occurs_of (k d : StepKey) (steps : list PlanStep) : nat :=
  match steps with
  | [] => 0
  | s :: steps => (if decide (step_key s = k) then count d (dependencies s) else 0) + occurs_of k d steps
  end.

Lemma count_steps_spec ss m D : NoDup (fst <$> m) → NoDup (fst <$> D) →
  (∀ s, s ∈ ss → step_key s ∈ fst <$> m) →
  ∃ m' D', count_steps ss (m, D) = Ok (m', D') ∧ (fst <$> m') = (fst <$> m) ∧ NoDup (fst <$> D') ∧
    (∀ k n, (k, n) ∈ m → (k, n + total_of k ss)%nat ∈ m') ∧
    ∀ d k, count k (dependents_of d D') = (count k (dependents_of d D) + occurs_of k d ss)%nat.
Proof.
  revert m D. induction ss as [|s ss IH]; intros m D Hm HD Hss; cbn [count_steps].
  { exists m, D. split_and!; [done..| |]; intros; cbn; by rewrite Nat.add_0_r. }
  assert (∃ n, (step_key s, n) ∈ m) as [n Hn].
  { destruct (proj1 (list_elem_of_fmap fst m (step_key s))) as ([k n]&->&Hin); [|by exists n].
    apply Hss, elem_of_cons. by left. }
  destruct (count_dependencies_spec (step_key s) (dependencies s) m D n Hm HD Hn)
    as (m1&D1&Hc&Hk1&HD1&Hn1&Ho1&Hd1). rewrite Hc. cbn [mbind Result_bind].
  destruct (IH m1 D1) as (m'&D'&Hc'&Hk'&HD'&Hn'&Hd'); [by rewrite Hk1|done|..].
  { intros s' Hs'. rewrite Hk1. apply Hss, elem_of_cons. by right. }
  exists m', D'. split_and!; [done|congruence|done|..].
  - intros k i Hi. cbn [total_of]. case_decide as Hk.
    + subst k. assert (i = n) as -> by (by eapply counter_unique). rewrite Nat.add_assoc. by apply Hn'.
    + apply Hn', Ho1; [congruence|done].
  - intros d k. rewrite Hd', Hd1. cbn [occurs_of]. repeat case_decide; try congruence; lia.
Qed.

(** The steps without dependencies are ready first. *)
Lemma initial_ready_spec (m : list (StepKey * nat)) ready : StronglySorted lt ready →
  StronglySorted lt (foldl (λ r p, if (p.2 =? 0)%nat then set_insert p.1 r else r) ready m) ∧
  ∀ x, x ∈ foldl (λ r p, if (p.2 =? 0)%nat then set_insert p.1 r else r) ready m ↔ x ∈ ready ∨ (x, O) ∈ m.
Proof.
  revert ready. induction m as [|[k n] m IH]; intros ready Hs; cbn [foldl].
  { split; [done|]. intros x. rewrite elem_of_nil. naive_solver. }
  cbn [fst snd]. destruct (Nat.eqb_spec n 0) as [->|Hn].
  - destruct (set_insert_spec k ready Hs) as [Hs' Hin]. destruct (IH _ Hs') as [? Hx]. split; [done|].
    intros x. rewrite Hx, Hin, elem_of_cons. naive_solver.
  - destruct (IH _ Hs) as [? Hx]. split; [done|]. intros x. rewrite Hx, elem_of_cons. naive_solver.
Qed.

(** ** The loop *)

Section Loop.
Context (steps : list PlanStep).
Context (Hkeys : NoDup (step_key <$> steps)).
Context (Hclosed : ∀ s d, s ∈ steps → d ∈ dependencies s → d ∈ step_key <$> steps).

Definition deps_of (k : StepKey) : list StepKey :=
  match get_by step_key k steps with Some s => dependencies s | None => [] end.

Lemma depends_deps a b : depends steps a b ↔ b ∈ deps_of a.
Proof.
  unfold depends, deps_of. split.
  - intros (s&Hs&<-&Hb). by rewrite (proj2 (get_by_elem step_key (step_key s) steps s Hkeys)).
  - destruct (get_by step_key a steps) as [s|] eqn:E; [|by intros ?%not_elem_of_nil].
    apply get_by_Some in E as [??]. eauto.
Qed.

Lemma deps_closed k d : d ∈ deps_of k → k ∈ (step_key <$> steps) ∧ d ∈ (step_key <$> steps).
Proof.
  rewrite <- depends_deps. intros (s&Hs&<-&Hd). split; [by apply list_elem_of_fmap_2|by eapply Hclosed].
Qed.

Lemma total_of_deps k : total_of k steps = length (deps_of k).
Proof.
  unfold deps_of. clear Hclosed. induction steps as [|s ss IH] using rev_ind; [done|].
  rewrite get_by_snoc. rewrite fmap_app in Hkeys. apply NoDup_app in Hkeys as (Hnd&Hdis&_).
  assert (total_of k (ss ++ [s]) = (total_of k ss + if decide (step_key s = k) then length (dependencies s) else 0)%nat) as ->.
  { clear. induction ss as [|s' ss IH]; cbn; [by rewrite Nat.add_0_r|]. rewrite IH. lia. }
  rewrite IH by done. case_decide as Hk; [|lia]. subst k.
  rewrite (proj2 (get_by_None step_key (step_key s) ss)); [done|].
  intros Hin. eapply Hdis; [done|]. by apply list_elem_of_singleton.
Qed.

Lemma occurs_of_deps k d : occurs_of k d steps = count d (deps_of k).
Proof.
  unfold deps_of. clear Hclosed. induction steps as [|s ss IH] using rev_ind; [done|].
  rewrite get_by_snoc. rewrite fmap_app in Hkeys. apply NoDup_app in Hkeys as (Hnd&Hdis&_).
  assert (occurs_of k d (ss ++ [s]) = (occurs_of k d ss + if decide (step_key s = k) then count d (dependencies s) else 0)%nat) as ->.
  { clear. induction ss as [|s' ss IH]; cbn; [by rewrite Nat.add_0_r|]. rewrite IH. lia. }
  rewrite IH by done. case_decide as Hk; [|lia]. subst k.
  rewrite (proj2 (get_by_None step_key (step_key s) ss)); [done|].
  intros Hin. eapply Hdis; [done|]. by apply list_elem_of_singleton.
Qed.

(** The dependencies of a step that are still open. *)
Definition open_deps (V : list StepKey) (k : StepKey) : nat := length (filter (λ d, d ∉ V) (deps_of k)).

Lemma open_deps_nil k : open_deps [] k = length (deps_of k).
Proof.
  unfold open_deps. induction (deps_of k) as [|d l IH]; [done|].
  rewrite filter_cons_True by apply not_elem_of_nil. cbn. by rewrite IH.
Qed.

Lemma open_deps_step V x k : x ∉ V → open_deps V k = (open_deps (x :: V) k + count x (deps_of k))%nat.
Proof.
  intros Hx. unfold open_deps, count. induction (deps_of k) as [|d l IH]; [done|].
  rewrite !filter_cons. destruct (decide (d = x)) as [->|Hne].
  - rewrite (decide_True (P := x ∉ V)) by done. rewrite (decide_False (P := x ∉ x :: V)).
    + cbn [length]. lia.
    + intros H. apply H, elem_of_cons. by left.
  - destruct (decide (d ∈ V)) as [Hd|Hd].
    + rewrite (decide_False (P := d ∉ V)) by tauto. rewrite (decide_False (P := d ∉ x :: V)); [done|].
      intros H. apply H, elem_of_cons. by right.
    + rewrite (decide_True (P := d ∉ V)) by done. rewrite (decide_True (P := d ∉ x :: V)).
      * cbn [length]. lia.
      * rewrite not_elem_of_cons. done.
Qed.

Lemma open_deps_zero V k : open_deps V k = O ↔ ∀ d, d ∈ deps_of k → d ∈ V.
Proof.
  unfold open_deps. induction (deps_of k) as [|d l IH]; [cbn; split; [by intros _ ? ?%not_elem_of_nil|done]|].
  rewrite filter_cons. setoid_rewrite elem_of_cons. destruct (decide (d ∈ V)) as [Hd|Hd].
  - rewrite (decide_False (P := d ∉ V)) by tauto. rewrite IH. naive_solver.
  - rewrite (decide_True (P := d ∉ V)) by done. cbn. split; [lia|]. intros H. destruct Hd. auto.
Qed.

(** The removed steps, last first: each after its dependencies. *)
Fixpoint topological (V : list StepKey) : Prop :=
  match V with
  | [] => True
  | x :: V => (∀ d, d ∈ deps_of x → d ∈ V) ∧ topological V
  end.

Lemma topological_deps V x d : topological V → x ∈ V → d ∈ deps_of x → d ∈ V.
Proof.
  induction V as [|y V IH]; [by intros _ ?%not_elem_of_nil|]. intros [Hy Ht] [->|Hx]%elem_of_cons Hd;
    apply elem_of_cons; right; eauto.
Qed.

Record invariant (V : list StepKey) (m : list (StepKey * nat)) (ready : list StepKey) : Prop := {
  inv_keys : (fst <$> m) = (step_key <$> steps);
  inv_nodup : NoDup V;
  inv_sub x : x ∈ V → x ∈ (step_key <$> steps);
  inv_sorted : StronglySorted lt ready;
  inv_counters k : k ∈ (step_key <$> steps) → (k, open_deps V k) ∈ m;
  inv_ready x : x ∈ ready ↔ x ∈ (step_key <$> steps) ∧ (x ∉ V) ∧ open_deps V x = O;
  inv_topological : topological V;
}.

Lemma invariant_step V m x ready D : invariant V m (x :: ready) →
  (∀ d k, count k (dependents_of d D) = count d (deps_of k)) →
  ∃ m' ready', release_dependents (dependents_of x D) m ready = Ok (m', ready') ∧
    invariant (x :: V) m' ready'.
Proof.
  intros [Ik Ind Isub Is Ic Ir It] HD.
  destruct (proj1 (Ir x)) as (Hxk&HxV&Hx0); [apply elem_of_cons; by left|].
  assert (∀ k, k ∈ dependents_of x D ↔ x ∈ deps_of k) as Hdep.
  { intros k. by rewrite !count_elem, HD. }
  apply StronglySorted_inv in Is as [Is Hlt].
  destruct (release_dependents_spec (dependents_of x D) m ready) as (m'&ready'&Hrel&Hk'&Hs'&Hn'&Hr');
    [by rewrite Ik|done|..].
  { intros k Hk%Hdep. exists (open_deps V k). split; [apply Ic; exact (proj1 (deps_closed k x Hk))|].
    rewrite HD, (open_deps_step V x k HxV). lia. }
  exists m', ready'. split; [done|].
  assert (∀ k, k ∈ (step_key <$> steps) → (k, open_deps (x :: V) k) ∈ m') as Hc'.
  { intros k Hk. specialize (Hn' k _ (Ic k Hk)). rewrite HD, (open_deps_step V x k HxV) in Hn'.
    by rewrite Nat.add_sub in Hn'. }
  assert (∀ k n, (k, n) ∈ m' → n = open_deps (x :: V) k) as Hu.
  { intros k n Hn. eapply counter_unique; [by rewrite Hk', Ik|done|]. apply Hc'. rewrite <- Ik, <- Hk'.
    by apply (list_elem_of_fmap_2 fst) in Hn. }
  split; [congruence|by constructor|intros y [->|?]%elem_of_cons; auto|done|done| |].
  2: { split; [by apply open_deps_zero|done]. }
  intros y. rewrite Hr', not_elem_of_cons. split.
  - intros [Hy|[Hy H0]].
    + destruct (proj1 (Ir y)) as (?&?&Hy0); [apply elem_of_cons; by right|].
      rewrite (open_deps_step V x y HxV) in Hy0. split_and!; [done| |done|lia].
      intros ->. rewrite Forall_forall in Hlt. by apply Hlt, lt_irrefl in Hy.
    + apply Hdep in Hy. pose proof (deps_closed _ _ Hy) as [Hyk _]. apply Hu in H0 as H0'.
      split_and!; [done|..|by rewrite <- H0'].
      * intros ->. rewrite open_deps_zero in Hx0. auto.
      * intros HyV. by apply HxV, (topological_deps V y).
  - intros (Hyk&[Hne HyV]&H0). destruct (decide (x ∈ deps_of y)) as [Hd|Hd].
    + right. split; [by apply Hdep|]. rewrite <- H0. by apply Hc'.
    + left. rewrite count_elem in Hd. pose proof (open_deps_step V x y HxV) as E.
      assert (y ∈ x :: ready) as [|]%elem_of_cons by (apply Ir; split_and!; [done..|lia]); [congruence|done].
Qed.

Lemma invariant_length V m ready : invariant V m ready → (length V ≤ length steps)%nat.
Proof.
  intros [_ Hnd Hsub _ _ _ _]. rewrite <- (length_fmap step_key steps). by apply submseteq_length, NoDup_submseteq.
Qed.

(** The number of steps is enough fuel: the loop ends with nothing ready. *)
Lemma visit_steps_fuel fuel V m ready D : invariant V m ready →
  (∀ d k, count k (dependents_of d D) = count d (deps_of k)) →
  (length steps ≤ fuel + length V)%nat →
  ∃ V' m', visit_steps fuel D m ready (length V) = Ok (m', length V') ∧ invariant V' m' [].
Proof.
  revert V m ready. induction fuel as [|fuel IH]; intros V m ready HI HD Hfuel.
  - destruct ready as [|x ready]; [by exists V, m|]. exfalso.
    destruct (invariant_step _ _ _ _ _ HI HD) as (?&?&_&HI'%invariant_length). cbn in HI'. lia.
  - destruct ready as [|x ready]; [by exists V, m|]. cbn [visit_steps].
    destruct (invariant_step _ _ _ _ _ HI HD) as (m'&ready'&Hrel&HI').
    fold (dependents_of x D). rewrite Hrel. cbn [mbind Result_bind fst snd].
    destruct (IH (x :: V) m' ready' HI' HD) as (V'&m''&Hv&HI''); [cbn; lia|]. by exists V', m''.
Qed.

Lemma invariant_initial m : (fst <$> m) = (step_key <$> steps) →
  (∀ k, k ∈ (step_key <$> steps) → (k, length (deps_of k)) ∈ m) →
  invariant [] m (foldl (λ r p, if (p.2 =? 0)%nat then set_insert p.1 r else r) [] m).
Proof.
  intros Hk Hm. destruct (initial_ready_spec m []) as [Hs Hr]; [constructor|].
  split; [done|constructor|by intros x ?%not_elem_of_nil|done|..|done].
  - intros k. rewrite open_deps_nil. apply Hm.
  - intros x. rewrite Hr, open_deps_nil. split.
    + intros [?%not_elem_of_nil|Hx]; [done|]. assert (x ∈ step_key <$> steps) as Hxk.
      { rewrite <- Hk. by apply (list_elem_of_fmap_2 fst) in Hx. }
      split_and!; [done|apply not_elem_of_nil|]. eapply counter_unique; [by rewrite Hk|by apply Hm|done].
    + intros (Hxk&_&H0). right. rewrite <- H0. by apply Hm.
Qed.

(** What the whole check computes. *)
Lemma validate_step_cycles_run : ∃ V m, invariant V m [] ∧
  validate_step_cycles steps =
    if (length V =? length steps)%nat then Ok ()
    else Err (StepCycle (fst <$> filter (λ p : StepKey * nat, p.2 ≠ O) m)).
Proof.
  unfold validate_step_cycles.
  set (m0 := (λ s, (step_key s, O)) <$> steps).
  assert ((fst <$> m0) = (step_key <$> steps)) as Hk0 by (subst m0; by rewrite <- list_fmap_compose).
  destruct (count_steps_spec steps m0 []) as (m1&D&Hc&Hk1&_&Hn1&Hd1); [by rewrite Hk0|constructor|..].
  { intros s Hs. rewrite Hk0. by apply list_elem_of_fmap_2. }
  rewrite Hc. cbn [mbind Result_bind fst snd].
  assert (invariant [] m1 (foldl (λ r p, if (p.2 =? 0)%nat then set_insert p.1 r else r) [] m1)) as HI.
  { apply invariant_initial; [congruence|]. intros k Hk. rewrite <- total_of_deps. apply (Hn1 k O).
    subst m0. apply list_elem_of_fmap in Hk as (s&->&Hs). by apply (list_elem_of_fmap_2 (λ s, (step_key s, O))). }
  destruct (visit_steps_fuel (length steps) [] m1 _ D HI) as (V&m'&Hv&HI').
  { intros d k. by rewrite Hd1, occurs_of_deps. }
  { lia. }
  exists V, m'. split; [done|]. cbn [length] in Hv. rewrite Hv. done.
Qed.

Lemma topological_sn V x : topological V → x ∈ V → sn (depends steps) x.
Proof.
  revert x. induction V as [|y V IH]; intros x; [by intros _ ?%not_elem_of_nil|].
  intros [Hy Ht] [->|Hx]%elem_of_cons; [|by apply IH]. constructor. intros d Hd%depends_deps. by apply IH, Hy.
Qed.

Lemma tc_first {A} (R : relation A) x z : tc R x z → ∃ y, R x y ∧ rtc R y z.
Proof. intros [??|????]; eauto using tc_rtc, rtc_refl. Qed.

Lemma sn_acyclic x : sn (depends steps) x → ¬ tc (depends steps) x x.
Proof.
  induction 1 as [x _ IH]. intros (y&Hxy&Hyx)%tc_first. apply (IH y Hxy). by eapply tc_rtc_l, tc_once.
Qed.

(** A cycle is never removed: the steps on it stay open. *)
Lemma removed_acyclic V k : topological V → k ∈ V → ¬ tc (depends steps) k k.
Proof. intros HV Hk. by eapply sn_acyclic, topological_sn. Qed.

(** Nothing ready and steps left over: each of them waits for another of them. *)
Lemma stuck_waits V m k : invariant V m [] → k ∈ (step_key <$> steps) → k ∉ V →
  ∃ d, depends steps k d ∧ d ∈ (step_key <$> steps) ∧ d ∉ V.
Proof.
  intros [_ _ _ _ _ Ir _] Hk HV. destruct (decide (Forall (λ d, d ∈ V) (deps_of k))) as [Hd|Hd].
  - rewrite Forall_forall in Hd. apply open_deps_zero in Hd.
    destruct (not_elem_of_nil k). by apply Ir.
  - apply not_Forall_Exists in Hd; [|apply _]. apply Exists_exists in Hd as (d&Hin&HdV).
    exists d. split_and!; [by apply depends_deps|exact (proj2 (deps_closed k d Hin))|done].
Qed.

Lemma stuck_not_sn V m k : invariant V m [] → sn (depends steps) k → k ∈ (step_key <$> steps) → k ∈ V.
Proof.
  intros HI. induction 1 as [k _ IH]. intros Hk. destruct (decide (k ∈ V)) as [|HV]; [done|].
  destruct (stuck_waits V m k HI Hk HV) as (d&Hd&Hdk&HdV). destruct HdV. by apply IH.
Qed.

Lemma acyclic_sn k : (∀ x, ¬ tc (depends steps) x x) → sn (depends steps) k.
Proof.
  intros Hac. apply tc_finite_sn; [intros x; apply Hac|]. exists (step_key <$> steps).
  intros x Hx. induction Hx as [a b Hab|]; [|done].
  by apply depends_deps, deps_closed in Hab as [_ ?].
Qed.

(** When no step is left over, every step has been removed. *)
Lemma invariant_complete V m ready : invariant V m ready → length V = length steps →
  ∀ k, k ∈ (step_key <$> steps) → k ∈ V.
Proof.
  intros [_ Hnd Hsub _ _ _ _] Hlen k Hk.
  assert (V ≡ₚ (step_key <$> steps)) as Hp; [|by rewrite Hp].
  apply submseteq_length_Permutation; [by apply NoDup_submseteq|]. rewrite length_fmap. lia.
Qed.

Lemma removed_all V m : invariant V m [] →
  length V = length steps ↔ ∀ k, ¬ tc (depends steps) k k.
Proof.
  intros HI. split.
  - intros Hlen k Hk. assert (k ∈ V) as HV.
    { apply (invariant_complete V m [] HI Hlen). apply tc_first in Hk as (y&Hy&_).
      by apply depends_deps, deps_closed in Hy as [? _]. }
    by apply (removed_acyclic V k (inv_topological _ _ _ HI)).
  - intros Hac. apply Nat.le_antisymm; [by eapply invariant_length|].
    rewrite <- (length_fmap step_key steps). apply submseteq_length, NoDup_submseteq; [done|].
    intros k Hk. eapply stuck_not_sn; [done| |done]. by apply acyclic_sn.
Qed.

(** The counters that are not zero belong to the steps left over. *)
Lemma left_over V m k : invariant V m [] →
  k ∈ (fst <$> filter (λ p : StepKey * nat, p.2 ≠ O) m) ↔ k ∈ (step_key <$> steps) ∧ k ∉ V.
Proof.
  intros HI. rewrite list_elem_of_fmap. split.
  - intros ([j n]&->&[Hn Hin]%list_elem_of_filter). cbn in Hn |- *.
    assert (j ∈ (step_key <$> steps)) as Hj.
    { rewrite <- (inv_keys _ _ _ HI). by apply (list_elem_of_fmap_2 fst) in Hin. }
    split; [done|]. intros HV. apply Hn. eapply counter_unique; [|done|].
    { rewrite (inv_keys _ _ _ HI). done. }
    replace O with (open_deps V j); [by apply (inv_counters _ _ _ HI)|]. apply open_deps_zero.
    intros d Hd. eapply topological_deps; [apply (inv_topological _ _ _ HI)|done..].
  - intros [Hk HV]. exists (k, open_deps V k). split; [done|]. apply list_elem_of_filter.
    split; [|by apply (inv_counters _ _ _ HI)]. cbn. intros H0.
    destruct (not_elem_of_nil k). by apply (inv_ready _ _ _ HI).
Qed.
End Loop.

(** The whole check: acyclic steps pass, and otherwise the steps left over are reported. *)
Lemma validate_step_cycles_spec steps :
  NoDup (step_key <$> steps) →
  (∀ s d, s ∈ steps → d ∈ dependencies s → d ∈ (step_key <$> steps)) →
  (validate_step_cycles steps = Ok () ↔ ∀ k, ¬ tc (depends steps) k k) ∧
  (validate_step_cycles steps = Ok () ∨
   ∃ l, validate_step_cycles steps = Err (StepCycle l) ∧ l ≠ [] ∧
     (∀ k, k ∈ l → ∃ d, depends steps k d ∧ d ∈ l) ∧
     ∀ k, tc (depends steps) k k → k ∈ l).
Proof.
  intros Hkeys Hclosed. destruct (validate_step_cycles_run steps Hkeys Hclosed) as (V&m&HI&->).
  pose proof (removed_all steps Hkeys Hclosed V m HI) as Hall.
  destruct (Nat.eqb_spec (length V) (length steps)) as [E|E]; [split; [by rewrite <- Hall|by left]|].
  split; [by rewrite <- Hall|]. right. eexists. split; [done|]. set (l := fst <$> _).
  assert (∀ k, k ∈ l ↔ k ∈ (step_key <$> steps) ∧ k ∉ V) as Hleft by (intros k; by apply left_over).
  assert (∀ k, tc (depends steps) k k → k ∈ l) as Hcyc.
  { intros k Hk. apply Hleft. split.
    - apply tc_first in Hk as (y&Hy&_). by apply (depends_deps steps Hkeys), (deps_closed steps Hkeys Hclosed) in Hy as [? _].
    - intros HV. by apply (removed_acyclic steps Hkeys V k (inv_topological _ _ _ _ HI) HV). }
  split_and!; [|intros k Hk|done].
  - intros Hl. apply E, Hall. intros k Hk%Hcyc. rewrite Hl in Hk. by apply not_elem_of_nil in Hk.
  - apply Hleft in Hk as [Hk HV].
    destruct (stuck_waits steps Hkeys Hclosed V m k HI Hk HV) as (d&Hd&Hdk&HdV). exists d.
    split; [done|]. by apply Hleft.
Qed.
