(* ===== verification/PlanClosure.v ===== *)
(** * nia-build-plan: dependency closures and output ownership

    [dependency_action_closure] collects the actions of all steps below a step, and
    [validate_output_ownership] accepts exactly the outputs that are below the build
    root and apart from each other. *)

From stdpp Require Import relations.
From S2P Require Import Prelude RustStd RustOrd Target PlanTypes PlanValidate PlanFacts PlanCycles.

(** ** Dependency closures *)

(** A step that runs before [step]: one of its dependencies or below one. *)
Definition before (steps : list PlanStep) (step : PlanStep) (k : StepKey) : Prop :=
  ∃ d, d ∈ dependencies step ∧ rtc (depends steps) d k.

(** The dependencies that unvisited steps may still push. *)
Definition open_cost (visited : list StepKey) (ss : list PlanStep) : nat :=
  sum_list (length ∘ dependencies <$> filter (λ s, step_key s ∉ visited) ss).

Lemma open_cost_nil ss : open_cost [] ss = all_dependencies ss.
Proof.
  unfold open_cost, all_dependencies. induction ss as [|s ss IH]; [done|].
  rewrite filter_cons_True by apply not_elem_of_nil. cbn. by rewrite IH.
Qed.

Lemma open_cost_le k visited ss : (open_cost (k :: visited) ss ≤ open_cost visited ss)%nat.
Proof.
  unfold open_cost. induction ss as [|s ss IH]; [done|]. rewrite !filter_cons.
  repeat case_decide; rewrite ?not_elem_of_cons in *; cbn; try lia; naive_solver.
Qed.

Lemma open_cost_visit s visited ss : s ∈ ss → step_key s ∉ visited →
  (length (dependencies s) + open_cost (step_key s :: visited) ss ≤ open_cost visited ss)%nat.
Proof.
  intros Hs Hv. unfold open_cost. induction ss as [|s' ss IH]; [by apply not_elem_of_nil in Hs|].
  rewrite !filter_cons. apply elem_of_cons in Hs as [->|Hs].
  - rewrite (decide_True (P := step_key s' ∉ visited)) by done. rewrite decide_False.
    + pose proof (open_cost_le (step_key s') visited ss) as Hle. unfold open_cost in Hle. cbn. lia.
    + intros H. apply H, elem_of_cons. by left.
  - specialize (IH Hs). destruct (decide (step_key s' ∈ step_key s :: visited)) as [Hin|Hin].
    + rewrite (decide_False (P := step_key s' ∉ step_key s :: visited)) by tauto.
      case_decide; cbn; lia.
    + rewrite (decide_True (P := step_key s' ∉ step_key s :: visited)) by done.
      rewrite decide_True; [cbn; lia|]. intros H. apply Hin, elem_of_cons. by right.
Qed.

Section Closure.
Context (steps : list PlanStep).
Context (Hkeys : NoDup (step_key <$> steps)).
Context (Hclosed : ∀ s d, s ∈ steps → d ∈ dependencies s → d ∈ (step_key <$> steps)).
Context (step : PlanStep).
Context (Hstep : ∀ d, d ∈ dependencies step → d ∈ (step_key <$> steps)).

(** The steps seen so far are those below the step, and what they lead to is pending. *)
Record seen (pending visited : list StepKey) (acts : list ActionKey) : Prop := {
  seen_before k : k ∈ visited ∨ k ∈ pending → before steps step k;
  seen_start d : d ∈ dependencies step → d ∈ visited ∨ d ∈ pending;
  seen_next k d : k ∈ visited → depends steps k d → d ∈ visited ∨ d ∈ pending;
  seen_actions a : a ∈ acts ↔ ∃ s, s ∈ steps ∧ step_key s ∈ visited ∧ step_action s = a;
}.

Lemma before_key k : before steps step k → k ∈ (step_key <$> steps).
Proof.
  intros (d&Hd%Hstep&Hr). apply rtc_inv_r in Hr as [<-|(y&_&s&Hs&_&Hk)]; [done|by eapply Hclosed].
Qed.

Lemma before_next k d : before steps step k → depends steps k d → before steps step d.
Proof. intros (e&He&Hr) Hd. exists e. split; [done|]. by eapply rtc_r. Qed.

(** With nothing pending, everything below the step has been seen. *)
Lemma seen_all visited acts k : seen [] visited acts → before steps step k → k ∈ visited.
Proof.
  intros [_ Hst Hn _] (d&Hd&Hr).
  assert (d ∈ visited) as Hv by (destruct (Hst d Hd) as [|?%not_elem_of_nil]; done). clear Hd.
  induction Hr as [|x y z Hxy _ IH]; [done|]. apply IH.
  by destruct (Hn x y Hv Hxy) as [|?%not_elem_of_nil].
Qed.

Lemma seen_skip k pending visited acts : k ∈ visited → seen (k :: pending) visited acts → seen pending visited acts.
Proof.
  intros Hk [Hb Hst Hn Ha]. setoid_rewrite elem_of_cons in Hb. setoid_rewrite elem_of_cons in Hst.
  setoid_rewrite elem_of_cons in Hn. split; [naive_solver| | |done].
  - intros d Hd. destruct (Hst d Hd) as [|[->|]]; auto.
  - intros j d Hj Hd. destruct (Hn j d Hj Hd) as [|[->|]]; auto.
Qed.

Lemma seen_visit s pending visited acts : s ∈ steps →
  seen (step_key s :: pending) visited acts →
  seen (rev (dependencies s) ++ pending) (step_key s :: visited) (step_action s :: acts).
Proof.
  intros Hs [Hb Hst Hn Ha].
  assert (before steps step (step_key s)) as Hbs by (apply Hb; right; apply elem_of_cons; by left).
  assert (∀ x, x ∈ rev (dependencies s) ++ pending ↔ x ∈ dependencies s ∨ x ∈ pending) as Hp.
  { intros x. by rewrite elem_of_app, !list_elem_of_In, <- in_rev. }
  assert (∀ d, depends steps (step_key s) d ↔ d ∈ dependencies s) as Hd.
  { intros d. split; [|intros ?; by exists s]. intros (s'&Hs'&Hk&Hd).
    assert (get_by step_key (step_key s) steps = Some s) as E1 by (by apply get_by_elem).
    assert (get_by step_key (step_key s) steps = Some s') as E2 by (by apply get_by_elem).
    congruence. }
  setoid_rewrite elem_of_cons in Hb. setoid_rewrite elem_of_cons in Hst. setoid_rewrite elem_of_cons in Hn.
  split; setoid_rewrite elem_of_cons; try setoid_rewrite Hp.
  - intros k [[->|?]|[Hk|?]]; [done|naive_solver| |naive_solver]. eapply before_next; [done|by apply Hd].
  - naive_solver.
  - intros k d [->|Hk] Hkd; [right; left; by apply Hd|]. naive_solver.
  - intros a. rewrite Ha. split; [naive_solver|]. intros (s'&Hs'&[Hk|Hk]&<-); [|naive_solver]. left.
    assert (get_by step_key (step_key s) steps = Some s) as E1 by (by apply get_by_elem).
    assert (get_by step_key (step_key s) steps = Some s') as E2 by (by apply get_by_elem).
    congruence.
Qed.

Lemma closure_loop_spec fuel owner pending visited acts : seen pending visited acts →
  (length pending + open_cost visited steps ≤ fuel)%nat →
  ∃ acts' visited', closure_loop fuel owner steps pending visited acts = Ok acts' ∧ seen [] visited' acts'.
Proof.
  revert pending visited acts.
  induction fuel as [|fuel IH]; intros [|k pending] visited acts HI Hfuel; cbn [length] in Hfuel; try lia;
    [by exists acts, visited..|]. cbn [closure_loop]. case_decide as Hk.
  - apply IH; [by eapply seen_skip|lia].
  - assert (before steps step k) as Hkb by (apply (seen_before _ _ _ HI); right; apply elem_of_cons; by left).
    apply before_key, list_elem_of_fmap in Hkb as (s&->&Hs).
    rewrite (proj2 (get_by_elem step_key (step_key s) steps s Hkeys)) by done. cbn [ok_or mbind Result_bind].
    apply IH; [by apply seen_visit|]. pose proof (open_cost_visit s visited steps Hs Hk).
    rewrite length_app, length_rev. lia.
Qed.

(** The closure of a step has the actions of the steps below it, and no others. *)
Lemma dependency_action_closure_spec : ∃ acts, dependency_action_closure step steps = Ok acts ∧
  ∀ a, a ∈ acts ↔ ∃ s, s ∈ steps ∧ before steps step (step_key s) ∧ step_action s = a.
Proof.
  unfold dependency_action_closure.
  destruct (closure_loop_spec (length (dependencies step) + all_dependencies steps) (step_key step)
    (rev (dependencies step)) [] []) as (acts&visited&Hrun&HI).
  - split; setoid_rewrite elem_of_nil; try setoid_rewrite list_elem_of_In; try setoid_rewrite <- in_rev;
      try setoid_rewrite <- list_elem_of_In; try naive_solver.
    intros k [|Hk]; [done|]. exists k. split; [done|]. constructor.
  - rewrite length_rev, open_cost_nil. lia.
  - exists acts. split; [done|]. intros a. rewrite (seen_actions _ _ _ HI). split.
    + intros (s&Hs&Hv&<-). exists s. split_and!; [done| |done]. apply (seen_before _ _ _ HI). by left.
    + intros (s&Hs&Hb&<-). exists s. split_and!; [done| |done]. by eapply seen_all.
Qed.
End Closure.

(** ** Output ownership *)

Lemma overlaps_sym a b : overlaps a b = overlaps b a.
Proof.
  unfold overlaps. rewrite orb_comm. by rewrite (bool_decide_ext (root a = root b) (root b = root a)) by (split; congruence).
Qed.

Lemma owners_insert_elem p a owners x : p ∉ fst <$> owners →
  x ∈ owners_insert p a owners ↔ x = (p, a) ∨ x ∈ owners.
Proof.
  induction owners as [|[q b] owners IH]; cbn [owners_insert fmap list_fmap fst];
    [intros _; rewrite list_elem_of_singleton, elem_of_nil; tauto|].
  rewrite not_elem_of_cons. intros [Hne Hp]. destruct (cmp p q) eqn:E; rewrite !elem_of_cons.
  - by apply cmp_eq in E.
  - naive_solver.
  - rewrite IH by done. naive_solver.
Qed.

Lemma find_None {A} (f : A → bool) l : List.find f l = None ↔ ∀ x, x ∈ l → f x = false.
Proof.
  induction l as [|a l IH]; cbn; [split; [by intros _ ? ?%not_elem_of_nil|done]|].
  setoid_rewrite elem_of_cons. destruct (f a) eqn:E; [split; [done|naive_solver congruence]|].
  rewrite IH. naive_solver.
Qed.

(** Outputs that may be claimed one after the other when [P] holds of those claimed
    before. *)
Fixpoint claimable (P : LogicalPath → Prop) (ps : list LogicalPath) : Prop :=
  match ps with
  | [] => True
  | p :: ps => bad_output p = false ∧ (∀ o, P o → overlaps o p = false) ∧ claimable (λ o, P o ∨ o = p) ps
  end.

Lemma claimable_ext P Q ps : (∀ o, P o ↔ Q o) → claimable P ps ↔ claimable Q ps.
Proof.
  revert P Q. induction ps as [|p ps IH]; intros P Q HPQ; [done|]. cbn [claimable].
  rewrite (IH (λ o, P o ∨ o = p) (λ o, Q o ∨ o = p)); [|intros o; by rewrite HPQ].
  by setoid_rewrite HPQ at 1.
Qed.

Lemma claimable_app P ps qs : claimable P (ps ++ qs) ↔ claimable P ps ∧ claimable (λ o, P o ∨ o ∈ ps) qs.
Proof.
  revert P. induction ps as [|p ps IH]; intros P; cbn [app claimable].
  - rewrite (claimable_ext P (λ o, P o ∨ o ∈ [])); [naive_solver|]. intros o. rewrite elem_of_nil. naive_solver.
  - rewrite IH. rewrite (claimable_ext (λ o, P o ∨ o ∈ p :: ps) (λ o, (P o ∨ o = p) ∨ o ∈ ps)); [tauto|].
    intros o. rewrite elem_of_cons. tauto.
Qed.

(** One after the other is the same as any two. *)
Lemma claimable_pairs P ps : claimable P ps ↔
  (∀ p, p ∈ ps → bad_output p = false) ∧ (∀ o p, P o → p ∈ ps → overlaps o p = false) ∧
  ∀ i j p q, ps !! i = Some p → ps !! j = Some q → i ≠ j → overlaps p q = false.
Proof.
  revert P. induction ps as [|p ps IH]; intros P; cbn [claimable].
  { split; [|done]. intros _. split_and!; [by intros ? ?%not_elem_of_nil|by intros ?? _ ?%not_elem_of_nil|done]. }
  rewrite IH. setoid_rewrite elem_of_cons. split.
  - intros (Hp&Ho&Hb&Hr&Hpair). split_and!; [naive_solver|naive_solver|].
    intros [|i] [|j] a b Ha Hb' Hne; cbn in Ha, Hb'; simplify_eq.
    + apply Hr; [by right|]. by eapply list_elem_of_lookup_2.
    + rewrite overlaps_sym. apply Hr; [by right|]. by eapply list_elem_of_lookup_2.
    + eapply Hpair; [done..|congruence].
  - intros (Hb&Ho&Hpair). split_and!; [auto|auto|auto|..].
    + intros o q [HP| ->] Hq; [auto|]. apply list_elem_of_lookup in Hq as [j Hj]. by apply (Hpair O (S j)).
    + intros i j a b Ha Hb' Hne. apply (Hpair (S i) (S j)); [done..|congruence].
Qed.

Lemma overlaps_self p : overlaps p p = true.
Proof. unfold overlaps, starts_with. rewrite !bool_decide_true; [done|done..]. Qed.

Lemma claim_outputs_spec action outs owners :
  (claimable (λ p, p ∈ fst <$> owners) (output_path <$> outs) ∧
   ∃ owners', claim_outputs action outs owners = Ok owners' ∧
     ∀ p, p ∈ fst <$> owners' ↔ p ∈ fst <$> owners ∨ p ∈ output_path <$> outs) ∨
  (¬ claimable (λ p, p ∈ fst <$> owners) (output_path <$> outs) ∧
   ∃ e, claim_outputs action outs owners = Err e).
Proof.
  revert owners. induction outs as [|out outs IH]; intros owners; cbn [claim_outputs fmap list_fmap claimable].
  { left. split; [done|]. exists owners. split; [done|]. intros p. rewrite elem_of_nil. naive_solver. }
  destruct (bad_output (output_path out)) eqn:Hbad; [right; split; [naive_solver|eauto]|].
  destruct (List.find _ owners) as [[q first]|] eqn:Hf.
  - right. split; [|by eexists]. intros (_&Ho&_). apply find_some in Hf as [Hin Hov]. cbn in Hov.
    apply list_elem_of_In, (list_elem_of_fmap_2 fst), Ho in Hin. cbn in Hin. congruence.
  - assert (∀ o, o ∈ fst <$> owners → overlaps o (output_path out) = false) as Ho.
    { intros o ([??]&->&Hin)%list_elem_of_fmap. by apply (proj1 (find_None _ _) Hf) in Hin. }
    assert (output_path out ∉ fst <$> owners) as Hn.
    { intros Hin%Ho. by rewrite overlaps_self in Hin. }
    assert (∀ o, o ∈ fst <$> owners_insert (output_path out) action owners ↔ o ∈ fst <$> owners ∨ o = output_path out) as Hi.
    { intros o. rewrite !list_elem_of_fmap. split.
      - intros (y&->&[->|Hy]%owners_insert_elem); eauto.
      - intros [(y&->&Hy)| ->]; eexists; (split; [|apply owners_insert_elem; by eauto]); done. }
    destruct (IH (owners_insert (output_path out) action owners)) as [(Hc&owners'&Hrun&Hin)|(Hc&e&Hrun)].
    + left. rewrite (claimable_ext _ _ _ Hi) in Hc. split; [done|]. exists owners'. split; [done|].
      intros p. rewrite Hin, Hi, elem_of_cons. tauto.
    + right. rewrite (claimable_ext _ _ _ Hi) in Hc. split; [tauto|]. by exists e.
Qed.

Lemma claim_all_spec artifacts actions owners :
  (∃ owners', claim_all artifacts actions owners = Ok owners') ↔
  ∃ producers, collect_producers artifacts actions = Ok producers ∧
    claimable (λ p, p ∈ fst <$> owners) (output_path ∘ fst <$> producers).
Proof.
  revert owners. induction actions as [|action actions IH]; intros owners; cbn [claim_all collect_producers].
  { split; [intros _; by exists []|eauto]. }
  destruct (action_outputs artifacts action) as [outs|e] eqn:Ho; cbn [mbind Result_bind];
    [|split; [by intros [? ?]|by intros (?&?&_)]].
  assert (∀ rest : list (ActionOutput * ActionKey), (output_path ∘ fst <$> ((λ out, (out, action_key action)) <$> outs) ++ rest)
    = (output_path <$> outs) ++ (output_path ∘ fst <$> rest)) as Happ.
  { intros rest. rewrite fmap_app. f_equal. by rewrite <- list_fmap_compose. }
  destruct (claim_outputs_spec (action_key action) outs owners) as [(Hc&owners1&->&Hin)|(Hc&e&->)]; cbn [mbind Result_bind].
  - rewrite IH. split.
    + intros (rest&->&Hr). eexists. split; [done|]. rewrite Happ, claimable_app. split; [done|].
      by rewrite <- (claimable_ext _ _ _ Hin).
    + intros (producers&Hp&Hr). destruct (collect_producers artifacts actions) as [rest|]; [|done].
      cbn in Hp. injection Hp as <-. rewrite Happ, claimable_app in Hr. exists rest. split; [done|].
      rewrite (claimable_ext _ _ _ Hin). tauto.
  - split; [by intros [? ?]|]. intros (producers&Hp&Hr). destruct Hc.
    destruct (collect_producers artifacts actions) as [rest|]; [|done].
    cbn in Hp. injection Hp as <-. rewrite Happ, claimable_app in Hr. tauto.
Qed.

(** The outputs are valid and no two of them overlap. *)
Definition outputs_apart (producers : list (ActionOutput * ActionKey)) : Prop :=
  (∀ p, p ∈ producers → bad_output (output_path p.1) = false) ∧
  ∀ i j p q, producers !! i = Some p → producers !! j = Some q → i ≠ j →
    overlaps (output_path p.1) (output_path q.1) = false.

Lemma claimable_apart producers :
  claimable (λ p, p ∈ fst <$> ([] : Owners)) (output_path ∘ fst <$> producers) ↔ outputs_apart producers.
Proof.
  rewrite claimable_pairs. unfold outputs_apart. split.
  - intros (Hb&_&Hp). split.
    + intros p Hin. by apply Hb, (list_elem_of_fmap_2 (output_path ∘ fst)).
    + intros i j p q Hi Hj. apply (Hp i j); rewrite list_lookup_fmap; [by rewrite Hi|by rewrite Hj].
  - intros [Hb Hp]. split_and!.
    + intros p (x&->&Hin)%list_elem_of_fmap. by apply Hb.
    + by intros o p ?%not_elem_of_nil.
    + intros i j p q. rewrite !list_lookup_fmap. intros (x&Hi&->)%fmap_Some (y&Hj&->)%fmap_Some. by apply Hp.
Qed.

Lemma validate_output_ownership_ok actions artifacts :
  validate_output_ownership actions artifacts = Ok () ↔
  ∃ producers, collect_producers artifacts actions = Ok producers ∧ outputs_apart producers.
Proof.
  unfold validate_output_ownership. setoid_rewrite <- claimable_apart. rewrite <- claim_all_spec, checked_bind.
  naive_solver.
Qed.
