(* ===== verification/PlanFreeze.v ===== *)
(** * nia-build-plan: what a frozen plan promises

    The checks of [BuildPlan::freeze] together: the steps can be scheduled, what an
    action reads is written before, and no two actions write to the same place. *)

From Stdlib Require Import Sorting.Sorted.
From stdpp Require Import relations.
From S2P Require Import Prelude RustStd RustOrd Target PlanTypes PlanValidate PlanFacts PlanCycles PlanClosure.

(** Every bind of a successful check. *)
Ltac checked_inv :=
  repeat match goal with
  | H : (_ ≫= _) = Ok _ |- _ => apply checked_bind in H as (?&?&H)
  | H : require _ _ = Ok _ |- _ => apply require_ok in H
  | H : Ok _ = Ok _ |- _ => injection H as H; try subst
  | u : unit |- _ => destruct u
  end.

(** ** The declarations *)

Lemma update_all_keys {A K} (key : A → K) update l l' :
  (∀ a b, update a = Ok b → key b = key a) → update_all update l = Ok l' → (key <$> l') = (key <$> l).
Proof. intros Hk H%update_all_ok. induction H as [|a b l l' Hab _ IH]; [done|]. cbn. by rewrite IH, (Hk a b). Qed.

Lemma update_all_elem {A} (update : A → Checked A) l l' b :
  update_all update l = Ok l' → b ∈ l' → ∃ a, a ∈ l ∧ update a = Ok b.
Proof.
  intros H%update_all_ok Hb. apply list_elem_of_lookup in Hb as [i Hi].
  destruct (Forall2_lookup_r _ _ _ _ _ H Hi) as (a&Ha&?). exists a. split; [by eapply list_elem_of_lookup_2|done].
Qed.

Lemma canonicalize_step_key acts keys a b : canonicalize_step acts keys a = Ok b → step_key b = step_key a.
Proof. unfold canonicalize_step. intros H. checked_inv. done. Qed.

Lemma canonicalize_action_key ms fs ts ht a b : canonicalize_action ms fs ts ht a = Ok b → action_key b = action_key a.
Proof. unfold canonicalize_action. intros H. by destruct (action_kind a); checked_inv. Qed.

Lemma canonicalize_module_key a b : canonicalize_module a = Ok b → module_key b = module_key a.
Proof. unfold canonicalize_module. intros H. checked_inv. done. Qed.

(** The keys of a list that has been sorted and checked for duplicates. *)
Definition ordered {A} `{Ord K} (key : A → K) (l : list A) : Prop := StronglySorted lt (key <$> l).

Lemma ordered_nodup {A} `{OrdLaws K} (key : A → K) l : ordered key l → NoDup (key <$> l).
Proof. apply strictly_sorted_nodup. Qed.

Lemma canonicalize_packages_ordered ps rp ps' : canonicalize_packages ps rp = Ok ps' →
  ordered plan_package_key ps' ∧ rp ∈ (plan_package_key <$> ps').
Proof.
  unfold canonicalize_packages. intros H. checked_inv. rewrite reject_duplicate_by_ok in *. split.
  - by apply sorted_keys_nodup.
  - apply existsb_exists in H1 as (p&Hp%list_elem_of_In&<-%bool_decide_eq_true). by apply list_elem_of_fmap_2.
Qed.

Lemma canonicalize_modules_ordered ms ms' : canonicalize_modules ms = Ok ms' → ordered module_key ms'.
Proof.
  unfold canonicalize_modules, ordered. intros H. checked_inv. rewrite reject_duplicate_by_ok in *.
  rewrite (update_all_keys _ _ _ _ canonicalize_module_key H). by apply sorted_keys_nodup.
Qed.

Lemma canonicalize_artifacts_ordered fs ms fs' : canonicalize_artifacts fs ms = Ok fs' → ordered artifact_key fs'.
Proof.
  unfold canonicalize_artifacts. intros H. checked_inv. rewrite reject_duplicate_by_ok in *.
  by apply sorted_keys_nodup.
Qed.

Lemma canonicalize_actions_ordered acts ms fs ht acts' :
  canonicalize_actions acts ms fs ht = Ok acts' → ordered action_key acts'.
Proof.
  unfold canonicalize_actions, ordered. intros H. checked_inv. rewrite reject_duplicate_by_ok in *.
  erewrite update_all_keys; [|intros; by eapply canonicalize_action_key|done]. by apply sorted_keys_nodup.
Qed.

Lemma canonicalize_steps_ordered ss acts ss' : canonicalize_steps ss acts = Ok ss' →
  ordered step_key ss' ∧
  (∀ s d, s ∈ ss' → d ∈ dependencies s → d ∈ (step_key <$> ss')) ∧
  ∀ s, s ∈ ss' → step_action s ∈ (action_key <$> acts).
Proof.
  unfold canonicalize_steps. intros H. checked_inv. rewrite reject_duplicate_by_ok in *.
  assert ((step_key <$> ss') = (step_key <$> sort_by (λ a b, cmp (A := NodeKey) (step_key a) (step_key b)) ss)) as Hk.
  { eapply update_all_keys; [|done]. intros. by eapply canonicalize_step_key. }
  split; [unfold ordered; rewrite Hk; by apply sorted_keys_nodup|]. rewrite Hk.
  assert (∀ s, s ∈ ss' → (∀ d, d ∈ dependencies s → d ∈ (step_key <$> sort_by (λ a b, cmp (A := NodeKey) (step_key a) (step_key b)) ss)) ∧
    step_action s ∈ (action_key <$> acts)) as Hs; [|split; intros; [by eapply Hs|by apply Hs]].
  intros s Hs. destruct (update_all_elem _ _ _ _ H Hs) as (a&_&Ha). unfold canonicalize_step in Ha. checked_inv. cbn.
  split.
  - intros d Hd. rewrite check_all_ok in *. specialize (H3 d Hd). by apply require_ok, bool_decide_eq_true in H3.
  - apply existsb_exists in H2 as (x&Hx%list_elem_of_In&<-%bool_decide_eq_true). by apply list_elem_of_fmap_2.
Qed.

(** ** The checks of a frozen plan *)

Record frozen (p : BuildPlanDraft) : Prop := {
  frozen_packages : ordered plan_package_key (packages p);
  frozen_root : root_package p ∈ (plan_package_key <$> packages p);
  frozen_modules : ordered module_key (modules p);
  frozen_artifacts : ordered artifact_key (artifacts p);
  frozen_actions : ordered action_key (actions p);
  frozen_steps : ordered step_key (steps p);
  frozen_closed s d : s ∈ steps p → d ∈ dependencies s → d ∈ (step_key <$> steps p);
  frozen_step_actions s : s ∈ steps p → step_action s ∈ (action_key <$> actions p);
  frozen_selection : validate_step_selection p = Ok ();
  frozen_cycles : validate_step_cycles (steps p) = Ok ();
  frozen_artifact_dependencies : validate_artifact_dependencies (actions p) (steps p) = Ok ();
  frozen_ownership : validate_output_ownership (actions p) (artifacts p) = Ok ();
  frozen_inputs : validate_build_input_dependencies p = Ok ();
  frozen_sources : validate_generated_source_dependencies p = Ok ();
}.

Lemma freeze_frozen d plan : freeze d = Ok plan → frozen (plan_content plan).
Proof.
  destruct d as [rp ps ht at_ ms fs acts ss ds sel]. unfold freeze. intros H. checked_inv. cbn.
  destruct (canonicalize_packages_ordered _ _ _ H0). destruct (canonicalize_steps_ordered _ _ _ H5) as (?&?&?).
  split; cbn; eauto using canonicalize_modules_ordered, canonicalize_artifacts_ordered, canonicalize_actions_ordered.
Qed.

Section Frozen.
Context (p : BuildPlanDraft) (Hp : frozen p).

Definition runs_before (s s' : PlanStep) : Prop := s' ∈ steps p ∧ before (steps p) s (step_key s').

Lemma frozen_nodup : NoDup (step_key <$> steps p).
Proof. apply ordered_nodup, Hp. Qed.

Lemma frozen_closure s acts a : s ∈ steps p → dependency_action_closure s (steps p) = Ok acts →
  a ∈ acts → ∃ s', runs_before s s' ∧ step_action s' = a.
Proof.
  intros Hs Hacts Ha.
  destruct (dependency_action_closure_spec (steps p) frozen_nodup (frozen_closed _ Hp) s) as (acts'&Hrun&Hin).
  { intros d. by apply (frozen_closed _ Hp). }
  rewrite Hacts in Hrun. injection Hrun as <-. apply Hin in Ha as (s'&?&?&<-). by exists s'.
Qed.

Lemma frozen_acyclic k : ¬ tc (depends (steps p)) k k.
Proof. apply validate_step_cycles_spec; [apply frozen_nodup|by apply frozen_closed|by apply frozen_cycles]. Qed.

(** As long as a step has not run, one of those that have not can run. *)
Lemma frozen_progress (ran : list StepKey) s : s ∈ steps p → step_key s ∉ ran →
  ∃ s', s' ∈ steps p ∧ (step_key s' ∉ ran) ∧ ∀ k, k ∈ dependencies s' → k ∈ ran.
Proof.
  assert (sn (depends (steps p)) (step_key s)) as Hsn.
  { eapply acyclic_sn; [apply frozen_nodup|by apply frozen_closed|apply frozen_acyclic]. }
  remember (step_key s) as k eqn:Ek. revert s Ek. induction Hsn as [k _ IH]. intros s -> Hs Hran.
  destruct (decide (Forall (λ k, k ∈ ran) (dependencies s))) as [Hall|Hall].
  - exists s. split_and!; [done..|]. by apply Forall_forall.
  - apply not_Forall_Exists in Hall; [|apply _]. apply Exists_exists in Hall as (k&Hk&Hkran).
    pose proof (frozen_closed _ Hp s k Hs Hk) as (s'&->&Hs')%list_elem_of_fmap.
    apply (IH (step_key s')) with (s := s'); [by exists s|done..].
Qed.

(** What an action takes from an artifact. *)
Definition needs_artifact (kind : ActionKind) (artifact : ArtifactKey) : Prop :=
  match kind with
  | ExternalCommand c | RunExecutable c | TestExecutable c =>
      (∃ path, program c = ProgramPath path ∧ root path = ArtifactRoot artifact)
      ∨ root (working_directory c) = ArtifactRoot artifact
      ∨ ∃ input, input ∈ inputs c ∧ root input = ArtifactRoot artifact
  | CompilerEmit _ _ static_archives _ => artifact ∈ static_archives
  | InstallArtifact installed _ => installed = artifact
  | _ => False
  end.

Lemma path_artifact_Some path artifact : root path = ArtifactRoot artifact → path_artifact path = Some artifact.
Proof. unfold path_artifact. by intros ->. Qed.

Lemma map_insert_keys {V} k (v : V) l x : x ∈ (fst <$> map_insert k v l) ↔ x = k ∨ x ∈ (fst <$> l).
Proof.
  induction l as [|[j w] l IH]; cbn [map_insert]; [cbn; rewrite list_elem_of_singleton, elem_of_nil; naive_solver|].
  destruct (cmp k j) eqn:E; cbn [fmap list_fmap fst]; rewrite !elem_of_cons; [|done|].
  - apply cmp_eq in E as ->. tauto.
  - change (list_fmap _ _ fst (map_insert k v l)) with (fst <$> map_insert k v l). rewrite IH. tauto.
Qed.

Lemma map_or_insert_keys {V} k (v : V) l x : x ∈ (fst <$> map_or_insert k v l) ↔ x = k ∨ x ∈ (fst <$> l).
Proof.
  unfold map_or_insert. destruct (existsb _ l) eqn:E; [|apply map_insert_keys].
  apply existsb_exists in E as (y&Hy%list_elem_of_In&<-%bool_decide_eq_true). split; [tauto|].
  intros [->|?]; [by apply list_elem_of_fmap_2|done].
Qed.

Lemma input_requirements_keys l required x :
  x ∈ (fst <$> foldl (λ required input,
    match path_artifact input with
    | Some artifact => map_or_insert artifact "artifact input has no compiler emit dependency"%string required
    | None => required
    end) required l) ↔ x ∈ (fst <$> required) ∨ ∃ input, input ∈ l ∧ path_artifact input = Some x.
Proof.
  revert required. induction l as [|i l IH]; intros required; cbn [foldl].
  { setoid_rewrite elem_of_nil. naive_solver. }
  rewrite IH. setoid_rewrite elem_of_cons. destruct (path_artifact i) eqn:E; [rewrite map_or_insert_keys|]; naive_solver.
Qed.

Lemma archive_requirements_keys l required x :
  x ∈ (fst <$> foldl (λ required archive,
    map_insert archive "linked static archive has no compiler emit dependency"%string required) required l)
  ↔ x ∈ (fst <$> required) ∨ x ∈ l.
Proof.
  revert required. induction l as [|i l IH]; intros required; cbn [foldl]; [rewrite elem_of_nil; tauto|].
  rewrite IH, map_insert_keys, elem_of_cons. tauto.
Qed.

Lemma command_requirements_keys c x :
  (∃ path, program c = ProgramPath path ∧ root path = ArtifactRoot x)
  ∨ root (working_directory c) = ArtifactRoot x
  ∨ (∃ input, input ∈ inputs c ∧ root input = ArtifactRoot x) →
  x ∈ (fst <$> command_requirements c).
Proof.
  intros H. unfold command_requirements. apply input_requirements_keys.
  destruct H as [(path&->&H%path_artifact_Some)|[H%path_artifact_Some|(i&Hi&H%path_artifact_Some)]]; [..|by eauto]; left.
  - rewrite H. destruct (path_artifact (working_directory c)); rewrite ?map_insert_keys; auto.
  - rewrite H, map_insert_keys. auto.
Qed.

Lemma required_artifacts_needs kind x : needs_artifact kind x → x ∈ (fst <$> required_artifacts (Some kind)).
Proof.
  destruct kind; cbn [needs_artifact required_artifacts]; try done; try apply command_requirements_keys.
  - intros H. apply archive_requirements_keys. by right.
  - intros ->. by apply map_insert_keys; left.
Qed.

(** An artifact that a step needs is emitted by a step before it. *)
Lemma frozen_needs_emitted s a artifact : s ∈ steps p → a ∈ actions p → step_action s = action_key a →
  needs_artifact (action_kind a) artifact →
  ∃ s' a' target archives configuration, runs_before s s' ∧ a' ∈ actions p ∧ action_key a' = step_action s' ∧
    action_kind a' = CompilerEmit artifact target archives configuration.
Proof.
  intros Hs Ha Hsa Hneeds%required_artifacts_needs.
  pose proof (frozen_artifact_dependencies _ Hp) as H. unfold validate_artifact_dependencies in H.
  rewrite check_all_ok in H. specialize (H s Hs). unfold check_step_artifacts in H.
  assert (get_by action_key (step_action s) (actions p) = Some a) as Hget.
  { apply get_by_elem; [apply ordered_nodup, Hp|done]. }
  rewrite Hget in H. cbn [fmap option_fmap option_map] in H.
  destruct (required_artifacts (Some (action_kind a))) as [|r rs] eqn:Er; [by apply not_elem_of_nil in Hneeds|].
  rewrite <- Er in *. clear Er r rs. checked_inv. rewrite check_all_ok in H.
  apply list_elem_of_fmap in Hneeds as (r&->&Hr). specialize (H r Hr). checked_inv.
  apply existsb_exists in H as (k&Hk%list_elem_of_In&He).
  destruct (frozen_closure s _ k Hs H0 Hk) as (s'&Hs'&Hk'). unfold emits in He.
  destruct (get_by action_key k (actions p)) as [a'|] eqn:Ea; [|done]. cbn in He.
  apply get_by_Some in Ea as [Ha' Hka]. destruct (action_kind a') eqn:Ekind; try done.
  apply bool_decide_eq_true in He as ->. exists s', a'. do 3 eexists. split_and!; [done..|congruence|done].
Qed.

Lemma steps_of_cons s k : s ∈ steps p → step_action s = k →
  s ∈ steps_of (steps p) k ∧ ∃ s0 rest, steps_of (steps p) k = s0 :: rest.
Proof.
  intros Hs Hk. assert (s ∈ steps_of (steps p) k) as Hin by (by apply list_elem_of_filter).
  split; [done|]. destruct (steps_of _ k); [by apply not_elem_of_nil in Hin|eauto].
Qed.

(** What a command reads below the build root is produced, and only by steps before it. *)
Lemma frozen_inputs_produced s a c r : s ∈ steps p → a ∈ actions p → step_action s = action_key a →
  action_command (action_kind a) = Some c → r ∈ build_requirements c →
  ∃ producers, collect_producers (artifacts p) (actions p) = Ok producers ∧
    (∃ x, x ∈ producers ∧ produces x.1 r.1 r.2 = true) ∧
    ∀ x, x ∈ producers → produces x.1 r.1 r.2 = true → ∃ s', runs_before s s' ∧ step_action s' = x.2.
Proof.
  intros Hs Ha Hsa Hc Hr. pose proof (frozen_inputs _ Hp) as H. unfold validate_build_input_dependencies in H.
  checked_inv. rewrite check_all_ok in H. specialize (H a Ha). rewrite Hc in H.
  destruct (steps_of_cons s (action_key a) Hs Hsa) as [Hin (s0&rest&Eq)]. rewrite Eq in H. rewrite <- Eq in H.
  rewrite check_all_ok in H. specialize (H r Hr). unfold check_build_input in H.
  set (prods := filter _ _) in H. exists x. split; [done|].
  assert (∀ y, y ∈ prods ↔ y ∈ x ∧ produces y.1 r.1 r.2 = true) as Hy.
  { intros y. unfold prods. rewrite list_elem_of_filter. tauto. }
  destruct prods as [|y ys] eqn:Ep; [done|]. rewrite <- Ep in *. split.
  - exists y. apply Hy. rewrite Ep. apply elem_of_cons. by left.
  - assert (check_all (λ consumer,
      closure ← dependency_action_closure consumer (steps p);
      check_all (λ producer, require (bool_decide (producer ∈ closure))
        (BuildInputProducerOutsideClosure (action_key a) r.1 producer)) (snd <$> prods)) (steps_of (steps p) (action_key a)) = Ok ()) as H'.
    { by rewrite Ep in H |- *. }
    rewrite check_all_ok in H'. specialize (H' s Hin). checked_inv. rewrite check_all_ok in H'.
    intros z Hz Hpz. assert (z.2 ∈ (snd <$> prods)) as Hz2 by (apply list_elem_of_fmap_2, Hy; done).
    specialize (H' _ Hz2). checked_inv. apply bool_decide_eq_true in H'. by eapply frozen_closure.
Qed.

(** A source below the build root that a step compiles is written by a step before it. *)
Lemma frozen_sources_produced s a key m path : s ∈ steps p → a ∈ actions p → step_action s = action_key a →
  compiled_module (artifacts p) (action_kind a) = Some key → m ∈ modules p → module_key m = key →
  path = root_source m ∨ path ∈ (import_path <$> imports m) → root path = BuildRoot →
  ∃ s', runs_before s s' ∧ (path, step_action s') ∈ source_producers (actions p).
Proof.
  intros Hs Ha Hsa Hc Hm Hkey Hpath Hroot. pose proof (frozen_sources _ Hp) as H.
  unfold validate_generated_source_dependencies in H. rewrite check_all_ok in H. specialize (H a Ha).
  unfold check_compiled_sources in H. rewrite Hc in H.
  destruct (steps_of_cons s (action_key a) Hs Hsa) as [Hin (s0&rest&Eq)]. rewrite Eq in H. rewrite <- Eq in H.
  assert (get_by module_key key (modules p) = Some m) as Hget.
  { apply get_by_elem; [apply ordered_nodup, Hp|done]. }
  rewrite Hget in H. cbn [ok_or mbind Result_bind] in H. rewrite check_all_ok in H.
  assert (path ∈ root_source m :: (import_path <$> imports m)) as Hp' by (by apply elem_of_cons).
  specialize (H path Hp'). unfold check_generated_source in H. rewrite bool_decide_false in H by tauto.
  destruct (get_by fst path (source_producers (actions p))) as [[q k]|] eqn:Eg; [|done].
  cbn in H. checked_inv. rewrite check_all_ok in H. specialize (H s Hin). checked_inv.
  apply bool_decide_eq_true in H. apply get_by_Some in Eg as [Hq Hpq]. cbn in Hpq. subst q.
  destruct (frozen_closure s _ k Hs H1 H) as (s'&?&<-). by exists s'.
Qed.
End Frozen.
