(* ===== verification/PlanRefreeze.v ===== *)
(** * nia-build-plan: freezing is idempotent

    A frozen plan is its own canonical form: [freeze] accepts its content and changes
    nothing.  [BuildPlan::decode] relies on it. *)

From Stdlib Require Import Sorting.Sorted.
From S2P Require Import Prelude RustStd RustOrd Target PlanTypes PlanValidate PlanFacts PlanCycles PlanClosure PlanFreeze.

(** ** Sorting twice *)

Lemma sort_by_key_id {A} `{OrdLaws K} (key : A → K) l : ordered key l → sort_by (λ a b, cmp (key a) (key b)) l = l.
Proof.
  intros Ho. apply sort_by_id. unfold ordered in Ho.
  induction l as [|a l IH]; [constructor|]. cbn in Ho. apply StronglySorted_inv in Ho as [Ho Ha].
  constructor; [by apply IH|]. destruct l as [|b l]; constructor. cbn in Ha. apply Forall_cons in Ha as [Hab _].
  unfold lt in Hab. by rewrite Hab.
Qed.

Lemma sort_sorted `{OrdLaws A} (l : list A) : Sorted (λ a b, cmp a b ≠ Gt) (sort l).
Proof. apply sort_by_sorted. intros. apply cmp_flip. Qed.

Lemma sort_idem `{OrdLaws A} (l : list A) : sort (sort l) = sort l.
Proof. apply sort_by_id, sort_sorted. Qed.

Lemma sort_elem `{Ord A} (l : list A) x : x ∈ sort l ↔ x ∈ l.
Proof. unfold sort. by rewrite sort_by_perm. Qed.

Lemma dedup_sort_idem `{OrdLaws A} `{EqDecision A} (l : list A) : dedup (sort (dedup (sort l))) = dedup (sort l).
Proof.
  assert (sort (dedup (sort l)) = dedup (sort l)) as ->; [|apply dedup_id, dedup_distinct].
  apply sort_by_id, dedup_keeps_sorted, sort_sorted.
Qed.

Lemma dedup_sort_elem `{Ord A} `{EqDecision A} (l : list A) x : x ∈ dedup (sort l) ↔ x ∈ l.
Proof. by rewrite dedup_elem, sort_elem. Qed.

Lemma dedup_sort_nil `{Ord A} `{EqDecision A} (l : list A) : dedup (sort l) = [] ↔ l = [].
Proof.
  split; [|by intros ->]. intros Hn. destruct l as [|x l]; [done|]. exfalso. apply (not_elem_of_nil x).
  rewrite <- Hn. apply dedup_sort_elem, elem_of_cons. by left.
Qed.

(** ** The declarations *)

Lemma update_all_idem {A} (f : A → Checked A) l l' :
  (∀ a b, f a = Ok b → f b = Ok b) → update_all f l = Ok l' → update_all f l' = Ok l'.
Proof.
  intros Hf H%update_all_ok. apply update_all_ok. induction H; constructor; eauto.
Qed.

(** The part of a canonicalisation that sorts and rejects duplicates. *)
Lemma reject_ordered {A} `{OrdLaws K} `{EqDecision K} (key : A → K) l e : ordered key l → reject_duplicate_by l key e = Ok ().
Proof.
  intros Ho%ordered_nodup. apply reject_duplicate_by_ok. unfold distinct_neighbours.
  induction (key <$> l) as [|a ks IH]; [constructor|]. apply NoDup_cons in Ho as [Ha Ho].
  destruct ks as [|b ks]; [constructor|]. cbn [windows2]. constructor; [|by apply IH]. cbn.
  intros ->. apply Ha, elem_of_cons. by left.
Qed.

Lemma canonicalize_packages_idem ps rp ps' : canonicalize_packages ps rp = Ok ps' → canonicalize_packages ps' rp = Ok ps'.
Proof.
  intros H. destruct (canonicalize_packages_ordered _ _ _ H) as [Ho _].
  unfold canonicalize_packages in *. rewrite (sort_by_key_id plan_package_key ps' Ho).
  rewrite (reject_ordered plan_package_key) by done. checked_inv. cbn.
  rewrite (proj2 (require_ok _ _) H1). cbn. by rewrite H2.
Qed.

Lemma canonicalize_module_idem a b : canonicalize_module a = Ok b → canonicalize_module b = Ok b.
Proof.
  unfold canonicalize_module. intros H. checked_inv. cbn [module_key root_source optimization imports].
  rewrite sort_idem, H0. done.
Qed.

Lemma canonicalize_modules_idem ms ms' : canonicalize_modules ms = Ok ms' → canonicalize_modules ms' = Ok ms'.
Proof.
  intros H. pose proof (canonicalize_modules_ordered _ _ H) as Ho. unfold canonicalize_modules in *.
  rewrite (sort_by_key_id (module_key) ms' Ho), (reject_ordered module_key) by done. checked_inv. cbn.
  eapply update_all_idem; [|done]. apply canonicalize_module_idem.
Qed.

Lemma canonicalize_artifacts_idem fs ms fs' : canonicalize_artifacts fs ms = Ok fs' → canonicalize_artifacts fs' ms = Ok fs'.
Proof.
  intros H. pose proof (canonicalize_artifacts_ordered _ _ _ H) as Ho. unfold canonicalize_artifacts in *.
  rewrite (sort_by_key_id (artifact_key) fs' Ho), (reject_ordered artifact_key) by done. checked_inv. cbn.
  by rewrite H1.
Qed.

Lemma canonicalize_step_idem acts keys a b : canonicalize_step acts keys a = Ok b → canonicalize_step acts keys b = Ok b.
Proof.
  unfold canonicalize_step. intros H. checked_inv. cbn [step_key visibility step_action dependencies].
  rewrite H0, (proj2 (require_ok _ _) H1). cbn [mbind Result_bind]. rewrite dedup_sort_idem, H2. done.
Qed.

Lemma canonicalize_steps_idem ss acts ss' : canonicalize_steps ss acts = Ok ss' → canonicalize_steps ss' acts = Ok ss'.
Proof.
  intros H. destruct (canonicalize_steps_ordered _ _ _ H) as [Ho _]. unfold canonicalize_steps in *.
  rewrite (sort_by_key_id (step_key) ss' Ho), (reject_ordered step_key) by done. checked_inv. cbn.
  erewrite (update_all_keys step_key); [|intros; by eapply canonicalize_step_key|done].
  eapply update_all_idem; [|done]. intros. by eapply canonicalize_step_idem.
Qed.

(** ** Commands *)

Lemma check_all_subset {A} (f : A → Checked ()) l l' :
  (∀ x, x ∈ l' → x ∈ l) → check_all f l = Ok () → check_all f l' = Ok ().
Proof. rewrite !check_all_ok. auto. Qed.

Lemma ascii_uppercase_idem c : ascii_uppercase (ascii_uppercase c) = ascii_uppercase c.
Proof.
  unfold ascii_uppercase. change ("a"%B) with 97. change ("z"%B) with 122.
  destruct ((97 <=? c) && (c <=? 122)) eqn:E; [|by rewrite E].
  apply andb_true_iff in E as [E1%Z.leb_le E2%Z.leb_le]. by rewrite (proj2 (Z.leb_gt 97 (c - 32))) by lia.
Qed.

Lemma upper_name_idem i : upper_name (upper_name i) = upper_name i.
Proof.
  unfold upper_name. cbn. f_equal. rewrite <- list_fmap_compose. apply list_fmap_ext. intros _ c _. apply ascii_uppercase_idem.
Qed.

(** Names that are upper case already stay as they are. *)
Lemma upper_names_sorted l : upper_name <$> sort (upper_name <$> l) = sort (upper_name <$> l).
Proof.
  assert (Forall (λ i, upper_name i = i) (sort (upper_name <$> l))) as H.
  { apply Forall_forall. intros i (j&->&_)%sort_elem%list_elem_of_fmap. apply upper_name_idem. }
  induction H as [|i l' Hi _ IH]; [done|]. cbn. by rewrite Hi, IH.
Qed.

Lemma canonical_environment_idem ht c env' : env' = canonical_environment ht c →
  sort (if bool_decide (os ht = Windows) then upper_name <$> env' else env') = env'.
Proof.
  intros ->. unfold canonical_environment. case_bool_decide; [rewrite upper_names_sorted|]; apply sort_idem.
Qed.

(** A successful check, then the rest. *)
Ltac check_next := apply checked_bind; exists (); split.

Lemma external_artifacts_subset k pr wd ins ins' fs ts ht : (∀ x, x ∈ ins' → x ∈ ins) →
  validate_external_command_artifacts k pr wd ins fs ts ht = Ok () →
  validate_external_command_artifacts k pr wd ins' fs ts ht = Ok ().
Proof.
  unfold validate_external_command_artifacts. intros Hsub H. checked_inv.
  repeat (check_next; [done|]). by eapply check_all_subset.
Qed.

Lemma check_cache_policy_outputs k c env c' : cache_policy c' = cache_policy c →
  environment_policy c' = environment_policy c → (outputs c' = [] ↔ outputs c = []) →
  check_cache_policy k c' env = check_cache_policy k c env.
Proof.
  intros H1 H2 H3. unfold check_cache_policy. rewrite H1, H2.
  by rewrite (bool_decide_ext _ _ H3), (bool_decide_ext (outputs c' ≠ []) (outputs c ≠ [])) by tauto.
Qed.

Lemma canonicalize_command_idem k c fs ts ht c' :
  canonicalize_command k c fs ts ht = Ok c' → canonicalize_command k c' fs ts ht = Ok c'.
Proof.
  unfold canonicalize_command. intros H. checked_inv.
  cbn [program working_directory inputs outputs arguments stdin resource_class environment_policy cache_policy].
  set (c' := mkCommandAction _ _ _ _ _ _ _ (canonical_environment ht c) (dedup (sort (inputs c))) (dedup (sort (outputs c)))).
  assert (canonical_environment ht c' = canonical_environment ht c) as Henv.
  { exact (canonical_environment_idem ht c _ eq_refl). }
  rewrite Henv, !dedup_sort_idem.
  check_next. { eapply external_artifacts_subset; [|done]. intros x. apply dedup_sort_elem. }
  check_next; [done|]. check_next; [done|].
  check_next. { rewrite (check_cache_policy_outputs k c); [done..|]. apply dedup_sort_nil. }
  check_next; [done|]. check_next; [done|]. check_next; [by apply require_ok|]. done.
Qed.

(** ** Actions *)

(** What [collect_emit_targets] looks at. *)
Definition emitted (kind : ActionKind) : option (ArtifactKey * TargetConfig) :=
  match kind with CompilerEmit artifact target _ _ => Some (artifact, target) | _ => None end.

Lemma canonicalize_action_emitted ms fs ts ht a b :
  canonicalize_action ms fs ts ht a = Ok b → emitted (action_kind b) = emitted (action_kind a).
Proof.
  unfold canonicalize_action. intros H. destruct (action_kind a) eqn:E; checked_inv; cbn; by rewrite ?E.
Qed.

Lemma collect_emit_targets_ext ts acts acts' :
  Forall2 (λ a b, action_key b = action_key a ∧ emitted (action_kind b) = emitted (action_kind a)) acts acts' →
  collect_emit_targets ts acts' = collect_emit_targets ts acts.
Proof.
  intros H. revert ts. induction H as [|a b acts acts' [Hk He] _ IH]; intros ts; [done|].
  cbn [collect_emit_targets]. rewrite Hk.
  destruct (action_kind a), (action_kind b); simplify_eq/=; try (by rewrite IH); done.
Qed.

Lemma canonicalize_command_policy k c fs ts ht c' :
  canonicalize_command k c fs ts ht = Ok c' → cache_policy c' = cache_policy c.
Proof. unfold canonicalize_command. intros H. by checked_inv. Qed.

Lemma canonicalize_action_idem ms fs ts ht a b :
  canonicalize_action ms fs ts ht a = Ok b → canonicalize_action ms fs ts ht b = Ok b.
Proof.
  unfold canonicalize_action. intros H.
  destruct (action_kind a) eqn:E; checked_inv; cbn [action_key action_kind]; rewrite ?E;
    try (check_next; [first [done|by apply require_ok]|]; done); try done;
    try (check_next; [apply require_ok; by erewrite canonicalize_command_policy|];
         apply checked_bind; eexists; split; [by eapply canonicalize_command_idem|done]).
  apply checked_bind. eexists. split; [done|]. check_next; [by apply require_ok|done].
Qed.

Lemma canonicalize_actions_idem acts ms fs ht acts' :
  canonicalize_actions acts ms fs ht = Ok acts' → canonicalize_actions acts' ms fs ht = Ok acts'.
Proof.
  intros H. pose proof (canonicalize_actions_ordered _ _ _ _ _ H) as Ho. unfold canonicalize_actions in *.
  rewrite (sort_by_key_id action_key acts' Ho). checked_inv. check_next; [by apply (reject_ordered action_key)|].
  apply checked_bind. eexists. split.
  - erewrite collect_emit_targets_ext; [done|]. apply update_all_ok in H. eapply Forall2_impl; [done|].
    intros a b Hab. exact (conj (canonicalize_action_key _ _ _ _ _ _ Hab) (canonicalize_action_emitted _ _ _ _ _ _ Hab)).
  - eapply update_all_idem; [|done]. intros. by eapply canonicalize_action_idem.
Qed.

(** ** Package references *)

(** The packages that the paths of a command name. *)
Lemma command_packages_canonical req k c fs ts ht c' : canonicalize_command k c fs ts ht = Ok c' →
  validate_command_packages req c = Ok () → validate_command_packages req c' = Ok ().
Proof.
  unfold canonicalize_command, validate_command_packages. intros H Hc. checked_inv. cbn [program working_directory inputs outputs].
  check_next; [done|]. check_next; [done|]. eapply check_all_subset; [|done].
  intros x. by rewrite !elem_of_app, !dedup_sort_elem.
Qed.

Lemma action_packages_canonical req ms fs ts ht a b : canonicalize_action ms fs ts ht a = Ok b →
  validate_action_packages req a = Ok () → validate_action_packages req b = Ok ().
Proof.
  unfold validate_action_packages, canonicalize_action. intros H Ha.
  destruct (action_kind a) eqn:E; apply checked_bind in Ha as ([]&Ha&Hk); checked_inv; cbn [action_key action_kind];
    rewrite ?E; (check_next; [done|]); first [done|by eapply command_packages_canonical|by check_next].
Qed.

Lemma modules_packages_canonical (req : PackageKey → Checked ()) ms ms' : canonicalize_modules ms = Ok ms' →
  let check m :=
    _ ← req (key_package (module_key m));
    _ ← validate_path_package (root_source m) req;
    check_all (λ i, validate_path_package (import_path i) req) (imports m) in
  check_all check ms = Ok () → check_all check ms' = Ok ().
Proof.
  intros H check Hc. unfold canonicalize_modules in H. checked_inv. rewrite check_all_ok in Hc |- *.
  intros b Hb. destruct (update_all_elem _ _ _ _ H Hb) as (a&Ha&Hab).
  rewrite sort_by_perm in Ha. specialize (Hc a Ha). unfold check in *. unfold canonicalize_module in Hab.
  checked_inv. cbn. check_next; [done|]. check_next; [done|]. eapply check_all_subset; [|done].
  intros x. apply sort_elem.
Qed.

Lemma steps_packages_canonical (req : PackageKey → Checked ()) ss acts ss' : canonicalize_steps ss acts = Ok ss' →
  let check s :=
    _ ← req (key_package (step_key s));
    _ ← req (key_package (step_action s));
    check_all (λ d : StepKey, req (key_package d)) (dependencies s) in
  check_all check ss = Ok () → check_all check ss' = Ok ().
Proof.
  intros H check Hc. unfold canonicalize_steps in H. checked_inv. rewrite check_all_ok in Hc |- *.
  intros b Hb. destruct (update_all_elem _ _ _ _ H Hb) as (a&Ha&Hab).
  rewrite sort_by_perm in Ha. specialize (Hc a Ha). unfold check in *. unfold canonicalize_step in Hab.
  checked_inv. cbn. check_next; [done|]. check_next; [done|]. eapply check_all_subset; [|done].
  intros x. apply dedup_sort_elem.
Qed.

Lemma references_canonical rp ps ht at_ ms fs acts ss ds sel ms' fs' acts' ss' :
  validate_package_references (mkBuildPlanDraft rp ps ht at_ ms fs acts ss ds sel) = Ok () →
  canonicalize_modules ms = Ok ms' → canonicalize_artifacts fs ms' = Ok fs' →
  canonicalize_actions acts ms' fs' ht = Ok acts' → canonicalize_steps ss acts' = Ok ss' →
  validate_package_references (mkBuildPlanDraft rp ps ht at_ ms' fs' acts' ss' ds sel) = Ok ().
Proof.
  unfold validate_package_references. cbn [packages modules artifacts actions steps default_step selected_step].
  intros H Hms Hfs Hacts Hss. checked_inv.
  check_next; [by eapply modules_packages_canonical|].
  check_next.
  { unfold canonicalize_artifacts in Hfs. checked_inv. eapply check_all_subset; [|done]. intros x. by rewrite sort_by_perm. }
  check_next.
  { unfold canonicalize_actions in Hacts. checked_inv. rewrite check_all_ok in *. intros b Hb.
    destruct (update_all_elem _ _ _ _ Hacts Hb) as (a&Ha&Hab). rewrite sort_by_perm in Ha.
    eapply action_packages_canonical; [done|auto]. }
  check_next; [by eapply steps_packages_canonical|]. check_next; done.
Qed.

(** Freezing the content of a frozen plan gives the plan. *)
Lemma freeze_again d plan : freeze d = Ok plan → freeze (plan_content plan) = Ok plan.
Proof.
  destruct d as [rp ps ht at_ ms fs acts ss ds sel]. unfold freeze at 1. intros H. checked_inv. cbn [plan_content freeze].
  apply checked_bind. eexists. split; [by eapply canonicalize_packages_idem|].
  check_next; [by eapply references_canonical|].
  apply checked_bind. eexists. split; [by eapply canonicalize_modules_idem|].
  apply checked_bind. eexists. split; [by eapply canonicalize_artifacts_idem|].
  apply checked_bind. eexists. split; [by eapply canonicalize_actions_idem|].
  apply checked_bind. eexists. split; [by eapply canonicalize_steps_idem|].
  repeat (check_next; [done|]). done.
Qed.
