(* ===== verification/PlanCodec.v ===== *)
(** * nia-build-plan: the encoding of build plans
      ([crates/nia-build-plan/src/codec.rs])

    A [Writer] keeps the first size failure and writes nothing after it; a check that
    returns an error ends the encoding.  A [Reader] is its offset and the bytes from
    there on. *)

From S2P Require Import Prelude RustStd RustOrd Target PlanTypes PlanValidate StableCodec.

Definition MAX_PLAN_BYTES : Z := 64 * 1024 * 1024.
Definition MAX_ITEMS : Z := 100000.
Definition MAX_PLAN_STRING_BYTES : Z := 1024 * 1024.

(** [BUILD_PLAN.magic]. *)
Definition MAGIC : list Z := bytes_of_string "NIA-PLN" ++ [3].

Inductive PlanCodecError :=
  | TooLarge (limit actual : Z)
  | BadMagic
  | UnsupportedCompatibility (version : Z)
  | Truncated (offset : Z)
  | TrailingData (offset : Z)
  | InvalidTag (kind : string) (tag offset : Z)
  | InvalidUtf8 (offset : Z)
  | UnsupportedTargetName (name : list Z) (offset : Z)
  | InvalidStableName (error : StableNameError)
  | InvalidLogicalPath (error : LogicalPathError)
  | Semantic (error : PlanError).

(** ** [Writer] *)

Record Writer := mkWriter { w_bytes : list Z; w_failure : option PlanCodecError }.

Definition writer_new : Writer := mkWriter [] None.

(** A method of [Writer]; those without a [Result] never return an error. *)
Definition Write : Type := Writer → Result PlanCodecError Writer.

Definition w_seq (p q : Write) : Write := λ w, w ← p w; q w.

Declare Scope write_scope.
Delimit Scope write_scope with write.
Infix ";>" := w_seq (at level 60, right associativity) : write_scope.
Open Scope write_scope.

Definition w_fail (e : PlanCodecError) : Write := λ _, Err e.
Definition w_nothing : Write := λ w, Ok w.

(** [Writer::bytes]: the length is that of a vector, so that [saturating_add] adds. *)
Definition w_put (bytes : list Z) : Write := λ w,
  Ok match w_failure w with
     | Some _ => w
     | None =>
         let actual := len (w_bytes w) + len bytes in
         if MAX_PLAN_BYTES <? actual
         then mkWriter (w_bytes w) (Some (TooLarge MAX_PLAN_BYTES actual))
         else mkWriter (w_bytes w ++ bytes) None
     end.

Definition w_u8 (value : Z) : Write := w_put [value].
Definition w_u32 (value : Z) : Write := w_put (to_le_bytes 4 value).

(** [value > limit || value > u32::MAX as usize]. *)
Definition w_bounded (limit value : Z) : Write :=
  if (limit <? value) || (u32_max <? value) then w_fail (TooLarge limit value) else w_u32 value.

Definition w_count (value : Z) : Write := w_bounded MAX_ITEMS value.
Definition w_string (value : list Z) : Write :=
  w_bounded MAX_PLAN_STRING_BYTES (len (as_bytes value)) ;> w_put (as_bytes value).
Definition w_blob (value : list Z) : Write := w_bounded MAX_PLAN_BYTES (len value) ;> w_put value.

Definition writer_finish (w : Writer) : Result PlanCodecError (list Z) :=
  match w_failure w with
  | Some e => Err e
  | None => Ok (w_bytes w)
  end.

(** [for x in xs { write(x)?; }]. *)
Definition w_each {A} (write : A → Write) (xs : list A) : Write :=
  foldr (λ x p, write x ;> p) w_nothing xs.
Definition w_list {A} (write : A → Write) (xs : list A) : Write := w_count (len xs) ;> w_each write xs.

Definition w_package_key (key : PackageKey) : Write := w_string (as_str key).

(** [node_key], which the four kinds of key go through. *)
Definition w_node_key (key : NodeKey) : Write := w_package_key (key_package key) ;> w_string (key_name key).

Definition w_logical_path (path : LogicalPath) : Write :=
  match root path with
  | PackageRoot package => w_u8 0 ;> w_package_key package
  | BuildRoot => w_u8 1
  | CacheRoot => w_u8 2
  | ToolchainRoot => w_u8 3
  | ArtifactRoot artifact => w_u8 4 ;> w_node_key artifact
  end ;> w_string (protocol_path path).

Definition w_target (target : TargetConfig) : Write := w_string (bytes_of_string (target_name target)).

Definition w_optimization (value : OptimizationMode) : Write :=
  w_u8 match value with O0 => 0 | O1 => 1 | O2 => 2 | O3 => 3 | Os_ => 4 | Oz => 5 end.
Definition w_runtime (value : Runtime) : Write := w_u8 match value with Bare => 0 | Freestanding => 1 end.
Definition w_mode (value : CompilationMode) : Write := w_u8 match value with Normal => 0 | TestMode => 1 end.

Definition w_option {A} (write : A → Write) (value : option A) : Write :=
  match value with
  | Some value => w_u8 1 ;> write value
  | None => w_u8 0
  end.
Definition w_option_string : option (list Z) → Write := w_option w_string.
Definition w_option_step_key : option StepKey → Write := w_option w_node_key.

Definition w_define (define : ArtifactDefine) : Write :=
  w_string (define_name define) ;> w_option_string (define_value define).
Definition w_library (library : SystemLibrary) : Write :=
  w_string (library_name library) ;>
  w_u8 match library_mode library with DefaultLibrary => 0 | StaticLibrary => 1 | DynamicLibrary => 2 end.

Definition w_artifact_configuration (value : ArtifactConfiguration) : Write :=
  w_u8 match linkage value with StaticLinkage => 0 | StaticPie => 1 | DynamicLinkage => 2 end ;>
  w_u8 match debug_info value with NoDebug => 0 | LineTables => 1 | FullDebug => 2 end ;>
  w_u8 match panic_strategy value with PanicAbort => 0 | PanicUnwind => 1 end ;>
  w_u8 match lto value with LtoOff => 0 | LtoThin => 1 | LtoFull => 2 end ;>
  w_list w_define (defines value) ;>
  w_list w_library (system_libraries value).

Definition w_import (import : ModuleImport) : Write :=
  w_string (import_name import) ;> w_logical_path (import_path import).

Definition w_module (module : PlanModule) : Write :=
  w_node_key (module_key module) ;>
  w_logical_path (root_source module) ;>
  w_optimization (optimization module) ;>
  w_list w_import (imports module).

Definition w_artifact (artifact : PlanArtifact) : Write :=
  w_node_key (artifact_key artifact) ;>
  w_node_key (root_module artifact) ;>
  w_u8 match artifact_kind artifact with Executable => 0 | ObjectSet => 1 | StaticArchive => 2 end ;>
  w_logical_path (output artifact) ;>
  w_runtime (artifact_runtime artifact) ;>
  w_mode (artifact_mode artifact) ;>
  w_artifact_configuration (artifact_configuration artifact).

Definition w_resource_class (value : ActionResourceClass) : Write :=
  w_u8 match value with Conservative => 0 | Cpu => 1 | IoClass => 2 end.
Definition w_environment_policy (value : CommandEnvironmentPolicy) : Write :=
  w_u8 match value with InheritEnvironment => 0 | ClearEnvironment => 1 end.
Definition w_cache_policy (value : CommandCachePolicy) : Write :=
  w_u8 match value with
       | UncacheablePolicy => 0 | DeclaredInputs => 1 | ToolAndInputs => 2
       | FullDeclaredEnvironment => 3 | SuccessfulTests => 4
       end.

Definition w_argument (argument : CommandArgument) : Write :=
  match argument with
  | Literal value => w_u8 0 ;> w_string value
  | InputArgument path => w_u8 1 ;> w_logical_path path
  | OutputArgument path => w_u8 2 ;> w_logical_path path
  end.
Definition w_environment (input : EnvironmentInput) : Write :=
  w_string (env_name input) ;> w_option_string (env_value input).

Definition w_stdin (value : CommandStdin) : Write :=
  match value with
  | NullStdin => w_u8 0
  | StdinPath path => w_u8 1 ;> w_logical_path path
  end.
Definition w_program (value : CommandProgram) : Write :=
  match value with
  | ProgramPath path => w_u8 0 ;> w_logical_path path
  | SearchProgram name => w_u8 1 ;> w_string name
  end.

(** [command_action] after its tag. *)
Definition w_command (command : CommandAction) : Write :=
  w_resource_class (resource_class command) ;>
  w_environment_policy (environment_policy command) ;>
  w_cache_policy (cache_policy command) ;>
  w_stdin (stdin command) ;>
  w_program (program command) ;>
  w_list w_argument (arguments command) ;>
  w_logical_path (working_directory command) ;>
  w_list w_environment (environment command) ;>
  w_list w_logical_path (inputs command) ;>
  w_list w_logical_path (outputs command).

Definition w_action_kind (kind : ActionKind) : Write :=
  match kind with
  | CompilerCheck module target runtime mode configuration =>
      w_u8 0 ;> w_node_key module ;> w_target target ;> w_runtime runtime ;> w_mode mode ;>
      w_artifact_configuration configuration
  | CompilerEmit artifact target static_archives configuration =>
      w_u8 1 ;> w_node_key artifact ;> w_target target ;> w_list w_node_key static_archives ;>
      w_artifact_configuration configuration
  | ExternalCommand command => w_u8 2 ;> w_command command
  | TestExecutable command => w_u8 7 ;> w_command command
  | RunExecutable command => w_u8 8 ;> w_command command
  | GeneratedFile generated contents => w_u8 3 ;> w_logical_path generated ;> w_blob contents
  | InstallArtifact artifact destination => w_u8 6 ;> w_node_key artifact ;> w_logical_path destination
  | Aggregate => w_u8 4
  | Uncacheable description => w_u8 5 ;> w_string description
  end.

Definition w_action (action : PlanAction) : Write :=
  w_node_key (action_key action) ;> w_action_kind (action_kind action).

Definition w_step (step : PlanStep) : Write :=
  w_node_key (step_key step) ;>
  w_node_key (step_action step) ;>
  w_u8 match visibility step with Public => 0 | Internal => 1 end ;>
  w_list w_node_key (dependencies step).

Definition w_package (package : PlanPackage) : Write :=
  w_package_key (plan_package_key package) ;>
  match package_source package with
  | Local root => w_u8 1 ;> w_string root
  | Dependency name => w_u8 2 ;> w_string name
  end.

(** The body of [BuildPlan::encode]. *)
Definition w_draft (plan : BuildPlanDraft) : Write :=
  w_package_key (root_package plan) ;>
  w_list w_package (packages plan) ;>
  w_target (host_target plan) ;>
  w_target (artifact_target plan) ;>
  w_list w_module (modules plan) ;>
  w_list w_artifact (artifacts plan) ;>
  w_list w_action (actions plan) ;>
  w_list w_step (steps plan) ;>
  w_option_step_key (default_step plan) ;>
  w_option_step_key (selected_step plan).

Definition encode (plan : BuildPlan) : Result PlanCodecError (list Z) :=
  w ← (w_put MAGIC ;> w_u32 (protocol_epoch plan) ;> w_draft (plan_content plan)) writer_new;
  writer_finish w.

(** ** [Reader] *)

Record Reader := mkReader { r_offset : Z; r_rest : list Z }.

Definition Read (A : Type) : Type := Reader → Result PlanCodecError (A * Reader).

#[global] Instance Read_ret : MRet Read := λ A a r, Ok (a, r).
#[global] Instance Read_bind : MBind Read := λ A B f g r,
  match g r with Ok (a, r) => f a r | Err e => Err e end.

Definition r_fail {A} (e : PlanCodecError) : Read A := λ _, Err e.
Definition r_lift {A} (x : Result PlanCodecError A) : Read A := λ r,
  match x with Ok a => Ok (a, r) | Err e => Err e end.

(** [self.offset]. *)
Definition r_here : Read Z := λ r, Ok (r_offset r, r).

(** [Reader::take]: both of its failures are [Truncated] at the offset. *)
Definition r_take (n : Z) : Read (list Z) := λ r,
  if len (r_rest r) <? n then Err (Truncated (r_offset r))
  else Ok (take (Z.to_nat n) (r_rest r), mkReader (r_offset r + n) (drop (Z.to_nat n) (r_rest r))).

Definition r_u8 : Read Z := bytes ← r_take 1; mret (default 0 (head bytes)).
Definition r_u32 : Read Z := bytes ← r_take 4; mret (from_le_bytes bytes).

(** A [u32] that is at most a limit. *)
Definition r_bounded (limit : Z) : Read Z :=
  value ← r_u32;
  if limit <? value then r_fail (TooLarge limit value) else mret value.

Definition r_count : Read Z := r_bounded MAX_ITEMS.

Fixpoint r_many {A} (read : Read A) (count : nat) : Read (list A) :=
  match count with
  | O => mret []
  | S count => a ← read; l ← r_many read count; mret (a :: l)
  end.
Definition r_list {A} (read : Read A) : Read (list A) := count ← r_count; r_many read (Z.to_nat count).

Definition r_string : Read (list Z) :=
  start ← r_here;
  n ← r_bounded MAX_PLAN_STRING_BYTES;
  bytes ← r_take n;
  r_lift (ok_or (utf8_decode bytes) (InvalidUtf8 start)).

Definition r_blob : Read (list Z) := n ← r_bounded MAX_PLAN_BYTES; r_take n.

(** [map_err]. *)
Definition map_err {E F A} (f : E → F) (x : Result E A) : Result F A :=
  match x with Ok a => Ok a | Err e => Err (f e) end.

Definition r_package_key : Read PackageKey :=
  name ← r_string; r_lift (map_err InvalidStableName (package_key_new name)).

(** [node_parts] and the four readers of keys. *)
Definition r_node_key : Read NodeKey :=
  package ← r_package_key;
  name ← r_string;
  r_lift (map_err InvalidStableName (node_key_new package name)).

(** A tag byte: [choose] gives its meaning, [None] for an unknown one. *)
Definition r_tagged {A} (kind : string) (choose : Z → option (Read A)) : Read A :=
  offset ← r_here;
  tag ← r_u8;
  match choose tag with
  | Some read => read
  | None => r_fail (InvalidTag kind tag offset)
  end.

Definition r_logical_path : Read LogicalPath :=
  root ← r_tagged "logical path root" (λ tag, match tag with
    | 0 => Some (package ← r_package_key; mret (PackageRoot package))
    | 1 => Some (mret BuildRoot)
    | 2 => Some (mret CacheRoot)
    | 3 => Some (mret ToolchainRoot)
    | 4 => Some (artifact ← r_node_key; mret (ArtifactRoot artifact))
    | _ => None
    end);
  path ← r_string;
  r_lift (map_err InvalidLogicalPath (logical_path_new root path)).

(** A [str] as a name; a target name is ASCII. *)
Definition string_of_chars (s : list Z) : option string :=
  String.string_of_list_ascii <$> mapM (λ c, if c <? 128 then Some (Ascii.ascii_of_N (Z.to_N c)) else None) s.

Definition target_of_name (name : list Z) : option TargetConfig :=
  s ← string_of_chars name;
  match target_parse s with Ok t => Some t | Err _ => None end.

Definition r_target : Read TargetConfig :=
  offset ← r_here;
  name ← r_string;
  r_lift (ok_or (target_of_name name) (UnsupportedTargetName name offset)).

Definition r_optimization : Read OptimizationMode :=
  r_tagged "optimization" (λ tag, mret <$> match tag with
    | 0 => Some O0 | 1 => Some O1 | 2 => Some O2 | 3 => Some O3 | 4 => Some Os_ | 5 => Some Oz | _ => None
    end).
Definition r_runtime : Read Runtime :=
  r_tagged "runtime" (λ tag, mret <$> match tag with 0 => Some Bare | 1 => Some Freestanding | _ => None end).
Definition r_mode : Read CompilationMode :=
  r_tagged "compilation mode" (λ tag, mret <$> match tag with 0 => Some Normal | 1 => Some TestMode | _ => None end).

Definition r_option {A} (kind : string) (read : Read A) : Read (option A) :=
  r_tagged kind (λ tag, match tag with
    | 0 => Some (mret None)
    | 1 => Some (a ← read; mret (Some a))
    | _ => None
    end).
Definition r_option_string : Read (option (list Z)) := r_option "optional string" r_string.
Definition r_option_step_key : Read (option StepKey) := r_option "optional step" r_node_key.

Definition r_define : Read ArtifactDefine :=
  name ← r_string; value ← r_option_string; mret (mkArtifactDefine name value).
Definition r_library : Read SystemLibrary :=
  name ← r_string;
  mode ← r_tagged "system library mode" (λ tag, mret <$> match tag with
    | 0 => Some DefaultLibrary | 1 => Some StaticLibrary | 2 => Some DynamicLibrary | _ => None
    end);
  mret (mkSystemLibrary name mode).

Definition r_artifact_configuration : Read ArtifactConfiguration :=
  linkage ← r_tagged "artifact linkage" (λ tag, mret <$> match tag with
    | 0 => Some StaticLinkage | 1 => Some StaticPie | 2 => Some DynamicLinkage | _ => None
    end);
  debug_info ← r_tagged "debug info" (λ tag, mret <$> match tag with
    | 0 => Some NoDebug | 1 => Some LineTables | 2 => Some FullDebug | _ => None
    end);
  panic_strategy ← r_tagged "panic strategy" (λ tag, mret <$> match tag with
    | 0 => Some PanicAbort | 1 => Some PanicUnwind | _ => None
    end);
  lto ← r_tagged "artifact LTO" (λ tag, mret <$> match tag with
    | 0 => Some LtoOff | 1 => Some LtoThin | 2 => Some LtoFull | _ => None
    end);
  defines ← r_list r_define;
  system_libraries ← r_list r_library;
  mret (mkArtifactConfiguration linkage debug_info panic_strategy lto defines system_libraries).

Definition r_import : Read ModuleImport :=
  name ← r_string; path ← r_logical_path; mret (mkModuleImport name path).

Definition r_module : Read PlanModule :=
  key ← r_node_key;
  root_source ← r_logical_path;
  optimization ← r_optimization;
  imports ← r_list r_import;
  mret (mkPlanModule key root_source optimization imports).

Definition r_artifact : Read PlanArtifact :=
  key ← r_node_key;
  root_module ← r_node_key;
  kind ← r_tagged "artifact kind" (λ tag, mret <$> match tag with
    | 0 => Some Executable | 1 => Some ObjectSet | 2 => Some StaticArchive | _ => None
    end);
  output ← r_logical_path;
  runtime ← r_runtime;
  mode ← r_mode;
  configuration ← r_artifact_configuration;
  mret (mkPlanArtifact key root_module kind output runtime mode configuration).

Definition r_resource_class : Read ActionResourceClass :=
  r_tagged "action resource class" (λ tag, mret <$> match tag with
    | 0 => Some Conservative | 1 => Some Cpu | 2 => Some IoClass | _ => None
    end).
Definition r_environment_policy : Read CommandEnvironmentPolicy :=
  r_tagged "command environment policy" (λ tag, mret <$> match tag with
    | 0 => Some InheritEnvironment | 1 => Some ClearEnvironment | _ => None
    end).
Definition r_cache_policy : Read CommandCachePolicy :=
  r_tagged "command cache policy" (λ tag, mret <$> match tag with
    | 0 => Some UncacheablePolicy | 1 => Some DeclaredInputs | 2 => Some ToolAndInputs
    | 3 => Some FullDeclaredEnvironment | 4 => Some SuccessfulTests | _ => None
    end).

Definition r_argument : Read CommandArgument :=
  r_tagged "command argument" (λ tag, match tag with
    | 0 => Some (value ← r_string; mret (Literal value))
    | 1 => Some (path ← r_logical_path; mret (InputArgument path))
    | 2 => Some (path ← r_logical_path; mret (OutputArgument path))
    | _ => None
    end).
Definition r_environment : Read EnvironmentInput :=
  name ← r_string; value ← r_option_string; mret (mkEnvironmentInput name value).

Definition r_stdin : Read CommandStdin :=
  r_tagged "command stdin" (λ tag, match tag with
    | 0 => Some (mret NullStdin)
    | 1 => Some (path ← r_logical_path; mret (StdinPath path))
    | _ => None
    end).
Definition r_program : Read CommandProgram :=
  r_tagged "command program" (λ tag, match tag with
    | 0 => Some (path ← r_logical_path; mret (ProgramPath path))
    | 1 => Some (name ← r_string; mret (SearchProgram name))
    | _ => None
    end).

Definition r_command : Read CommandAction :=
  resource_class ← r_resource_class;
  environment_policy ← r_environment_policy;
  cache_policy ← r_cache_policy;
  stdin ← r_stdin;
  program ← r_program;
  arguments ← r_list r_argument;
  working_directory ← r_logical_path;
  environment ← r_list r_environment;
  inputs ← r_list r_logical_path;
  outputs ← r_list r_logical_path;
  mret (mkCommandAction resource_class environment_policy cache_policy stdin program arguments
          working_directory environment inputs outputs).

Definition r_action_kind : Read ActionKind :=
  r_tagged "action" (λ tag, match tag with
    | 0 => Some (
        module ← r_node_key; target ← r_target; runtime ← r_runtime; mode ← r_mode;
        configuration ← r_artifact_configuration;
        mret (CompilerCheck module target runtime mode configuration))
    | 1 => Some (
        artifact ← r_node_key; target ← r_target; static_archives ← r_list r_node_key;
        configuration ← r_artifact_configuration;
        mret (CompilerEmit artifact target static_archives configuration))
    | 2 => Some (command ← r_command; mret (ExternalCommand command))
    | 7 => Some (command ← r_command; mret (TestExecutable command))
    | 8 => Some (command ← r_command; mret (RunExecutable command))
    | 3 => Some (generated ← r_logical_path; contents ← r_blob; mret (GeneratedFile generated contents))
    | 4 => Some (mret Aggregate)
    | 5 => Some (description ← r_string; mret (Uncacheable description))
    | 6 => Some (artifact ← r_node_key; destination ← r_logical_path; mret (InstallArtifact artifact destination))
    | _ => None
    end).

Definition r_action : Read PlanAction :=
  key ← r_node_key; kind ← r_action_kind; mret (mkPlanAction key kind).

Definition r_step : Read PlanStep :=
  key ← r_node_key;
  action ← r_node_key;
  visibility ← r_tagged "step visibility" (λ tag, mret <$> match tag with
    | 0 => Some Public | 1 => Some Internal | _ => None
    end);
  dependencies ← r_list r_node_key;
  mret (mkPlanStep key visibility action dependencies).

(** The offset of the error is that of the tag, as [reader.offset - 1]. *)
Definition r_package : Read PlanPackage :=
  key ← r_package_key;
  source ← r_tagged "package source" (λ tag, match tag with
    | 1 => Some (root ← r_string; mret (Local root))
    | 2 => Some (name ← r_string; mret (Dependency name))
    | _ => None
    end);
  mret (mkPlanPackage key source).

Definition r_draft : Read BuildPlanDraft :=
  root_package ← r_package_key;
  packages ← r_list r_package;
  host_target ← r_target;
  artifact_target ← r_target;
  modules ← r_list r_module;
  artifacts ← r_list r_artifact;
  actions ← r_list r_action;
  steps ← r_list r_step;
  default_step ← r_option_step_key;
  selected_step ← r_option_step_key;
  mret (mkBuildPlanDraft root_package packages host_target artifact_target modules artifacts actions
          steps default_step selected_step).

(** The magic and the epoch. *)
Definition r_header : Read () :=
  magic ← r_take (len MAGIC);
  if bool_decide (magic ≠ MAGIC) then r_fail BadMagic
  else
    version ← r_u32;
    if bool_decide (version ≠ PROTOCOL_EPOCH) then r_fail (UnsupportedCompatibility version) else mret ().

Definition decode (bytes : list Z) : Result PlanCodecError BuildPlan :=
  if MAX_PLAN_BYTES <? len bytes then Err (TooLarge MAX_PLAN_BYTES (len bytes))
  else
    r ← (_ ← r_header; r_draft) (mkReader 0 bytes);
    match r_rest r.2 with
    | _ :: _ => Err (TrailingData (r_offset r.2))
    | [] => map_err Semantic (freeze r.1)
    end.
