(* ===== verification/PlanCodecFacts.v ===== *)
(** * nia-build-plan: what is written is read back

    [codes w r a] relates a writer and a reader of the same value; each part of a plan
    has an instance, and the parts compose in the order of the encoding. *)

From S2P Require Import Prelude RustStd RustOrd Target StableCodec StableCodecFacts PlanTypes PlanValidate PlanFacts PlanClosure PlanFreeze PlanRefreeze PlanCodec.

(** Whenever [w] succeeds within the size limit, what it appends reads back as [a]; the
    limit holds afterwards when it did before. *)
Definition codes {A} (w : Write) (r : Read A) (a : A) : Prop :=
  ∀ s s', w s = Ok s' → w_failure s' = None →
    w_failure s = None ∧ ∃ bs, w_bytes s' = w_bytes s ++ bs ∧
      (len (w_bytes s) ≤ MAX_PLAN_BYTES → len (w_bytes s') ≤ MAX_PLAN_BYTES) ∧
      ∀ off rest, r (mkReader off (bs ++ rest)) = Ok (a, mkReader (off + len bs) rest).

Lemma len_app {A} (l1 l2 : list A) : len (l1 ++ l2) = len l1 + len l2.
Proof. unfold len. rewrite length_app. lia. Qed.

Lemma codes_bind {A B} w1 w2 (r : Read A) (k : A → Read B) a b :
  codes w1 r a → codes w2 (k a) b → codes (w1 ;> w2) (r ≫= k) b.
Proof.
  intros H1 H2 s s' Hw Hf. unfold w_seq in Hw. destruct (w1 s) as [s1|] eqn:E1; [|done]. cbn in Hw.
  destruct (H2 s1 s' Hw Hf) as (Hf1&bs2&Hb2&Hl2&Hr2). destruct (H1 s s1 E1 Hf1) as (Hf0&bs1&Hb1&Hl1&Hr1).
  split; [done|]. exists (bs1 ++ bs2). split_and!; [by rewrite Hb2, Hb1, (assoc_L (++))|by auto|]. intros off rest.
  unfold mbind, Read_bind. rewrite <- (assoc_L (++)), Hr1, Hr2, len_app. do 3 f_equal. lia.
Qed.

Lemma codes_last {A B} w (r : Read A) (k : A → Read B) a b :
  codes w r a → k a = mret b → codes w (r ≫= k) b.
Proof.
  intros H Hk s s' Hw Hf. destruct (H s s' Hw Hf) as (Hf0&bs&Hb&Hl&Hr). split; [done|]. exists bs. split_and!; [done..|].
  intros off rest. unfold mbind, Read_bind. by rewrite Hr, Hk.
Qed.

Lemma codes_here {A} w (k : Z → Read A) a : (∀ o, codes w (k o) a) → codes w (r_here ≫= k) a.
Proof.
  intros H s s' Hw Hf. destruct (H 0 s s' Hw Hf) as (Hf0&bs&Hb&Hl&_). split; [done|]. exists bs. split_and!; [done..|].
  intros off rest. unfold mbind, Read_bind, r_here. cbn.
  destruct (H off s s' Hw Hf) as (_&bs'&Hb'&_&Hr). rewrite Hb in Hb'. apply app_inv_head in Hb' as <-. apply Hr.
Qed.

Lemma codes_nothing {A} (a : A) : codes w_nothing (mret a) a.
Proof.
  intros s s' [= ->] Hf. split; [done|]. exists []. split_and!; [by rewrite app_nil_r|done|]. intros off rest. cbn.
  unfold mret, Read_ret. cbn. do 3 f_equal. unfold len. cbn. lia.
Qed.

Lemma codes_put bs : codes (w_put bs) (r_take (len bs)) bs.
Proof.
  intros s s' Hw Hf. unfold w_put in Hw. destruct (w_failure s) eqn:Es; [injection Hw as <-; congruence|].
  split; [done|]. exists bs. destruct (MAX_PLAN_BYTES <? _) eqn:El; injection Hw as <-; [done|].
  apply Z.ltb_ge in El. split_and!; [done|cbn [w_bytes]; by rewrite len_app|].
  intros off rest. unfold r_take. cbn [r_rest r_offset]. rewrite (proj2 (Z.ltb_ge _ _)) by (rewrite len_app; unfold len; lia).
  unfold len at 1 3. rewrite Nat2Z.id, take_app_length, drop_app_length. done.
Qed.

Lemma codes_u8 v : codes (w_u8 v) r_u8 v.
Proof. eapply codes_last; [apply (codes_put [v])|done]. Qed.

Lemma codes_u32 v : is_u32 v → codes (w_u32 v) r_u32 v.
Proof.
  intros Hv. eapply codes_last; [apply (codes_put (to_le_bytes 4 v))|].
  by rewrite from_to_le_bytes by (unfold is_u32 in Hv; cbn; lia).
Qed.

Lemma codes_fail {A} e (r : Read A) a : codes (w_fail e) r a.
Proof. by intros s s' Hw. Qed.

Lemma codes_bounded limit v : 0 ≤ v → codes (w_bounded limit v) (r_bounded limit) v.
Proof.
  intros Hv. unfold w_bounded. destruct ((limit <? v) || (u32_max <? v)) eqn:E; [apply codes_fail|].
  apply orb_false_iff in E as [E1 E2]. eapply codes_last; [apply codes_u32|by rewrite E1].
  apply Z.ltb_ge in E2. unfold is_u32, u32_max in *. lia.
Qed.

Lemma codes_lift {A B} w (r : Read A) (f : A → Result PlanCodecError B) a b :
  codes w r a → f a = Ok b → codes w (x ← r; r_lift (f x)) b.
Proof. intros H Hf. eapply codes_last; [done|]. unfold r_lift. by rewrite Hf. Qed.

Lemma codes_string s : is_str s → codes (w_string s) r_string s.
Proof.
  intros Hs. apply codes_here. intros o. eapply codes_bind; [apply codes_bounded; unfold len; lia|].
  eapply codes_lift; [apply codes_put|]. by rewrite utf8_decode_as_bytes.
Qed.

Lemma codes_blob bs : codes (w_blob bs) r_blob bs.
Proof. eapply codes_bind; [apply codes_bounded; unfold len; lia|apply codes_put]. Qed.

Lemma codes_many {A} (write : A → Write) read xs : Forall (λ x, codes (write x) read x) xs →
  codes (w_each write xs) (r_many read (length xs)) xs.
Proof.
  induction 1 as [|x xs Hx _ IH]; [apply codes_nothing|]. eapply codes_bind; [done|]. by eapply codes_last.
Qed.

Lemma codes_list {A} (write : A → Write) read xs : Forall (λ x, codes (write x) read x) xs →
  codes (w_list write xs) (r_list read) xs.
Proof.
  intros H. eapply codes_bind; [apply codes_bounded; unfold len; lia|]. unfold len. rewrite Nat2Z.id. by apply codes_many.
Qed.

Lemma codes_tag {A} w t kind (choose : Z → option (Read A)) read a :
  choose t = Some read → codes w read a → codes (w_u8 t ;> w) (r_tagged kind choose) a.
Proof. intros Hc H. apply codes_here. intros o. eapply codes_bind; [apply codes_u8|]. by rewrite Hc. Qed.

Lemma codes_tag_last {A} t kind (choose : Z → option (Read A)) a :
  choose t = Some (mret a) → codes (w_u8 t) (r_tagged kind choose) a.
Proof. intros Hc. apply codes_here. intros o. eapply codes_last; [apply codes_u8|]. by rewrite Hc. Qed.

Lemma codes_option {A} kind (write : A → Write) read o :
  (∀ a, o = Some a → codes (write a) read a) → codes (w_option write o) (r_option kind read) o.
Proof.
  intros H. destruct o as [a|]; [|by apply codes_tag_last].
  eapply codes_tag; [done|]. eapply codes_last; [by apply H|done].
Qed.

(** ** Values as the constructors of the source make them *)

Class Valid (A : Type) := valid : A → Prop.

#[global] Instance Text_valid : Valid (list Z) := is_str.
#[global] Instance PackageKey_valid : Valid PackageKey := λ k, validate_stable_name (as_str k) = Ok ().
#[global] Instance NodeKey_valid : Valid NodeKey := λ k, valid (key_package k) ∧ validate_stable_name (key_name k) = Ok ().
#[global] Instance LogicalPathRoot_valid : Valid LogicalPathRoot := λ r,
  match r with
  | PackageRoot package => valid package
  | ArtifactRoot artifact => valid (A := NodeKey) artifact
  | _ => True
  end.
(** A path made by [LogicalPath::new]. *)
#[global] Instance LogicalPath_valid : Valid LogicalPath := λ p,
  valid (root p) ∧ ∃ text, is_str text ∧ logical_path_new (root p) text = Ok p.
#[global] Instance TargetConfig_valid : Valid TargetConfig := λ t, t ∈ SUPPORTED_TARGETS.

Definition valid_each {A} `{Valid A} (xs : list A) : Prop := Forall valid xs.
Definition valid_some {A} `{Valid A} (o : option A) : Prop := ∀ a, o = Some a → valid a.

#[global] Instance ArtifactDefine_valid : Valid ArtifactDefine := λ d, valid (define_name d) ∧ valid_some (define_value d).
#[global] Instance SystemLibrary_valid : Valid SystemLibrary := λ l, valid (library_name l).
#[global] Instance ArtifactConfiguration_valid : Valid ArtifactConfiguration := λ c,
  valid_each (defines c) ∧ valid_each (system_libraries c).
#[global] Instance ModuleImport_valid : Valid ModuleImport := λ i, valid (import_name i) ∧ valid (import_path i).
#[global] Instance PlanModule_valid : Valid PlanModule := λ m,
  valid (A := NodeKey) (module_key m) ∧ valid (root_source m) ∧ valid_each (imports m).
#[global] Instance PlanArtifact_valid : Valid PlanArtifact := λ a,
  valid (A := NodeKey) (artifact_key a) ∧ valid (A := NodeKey) (root_module a) ∧ valid (output a)
  ∧ valid (artifact_configuration a).
#[global] Instance PlanPackage_valid : Valid PlanPackage := λ p,
  valid (plan_package_key p) ∧ match package_source p with Local text | Dependency text => valid text end.
#[global] Instance CommandArgument_valid : Valid CommandArgument := λ a,
  match a with Literal value => valid value | InputArgument path | OutputArgument path => valid path end.
#[global] Instance EnvironmentInput_valid : Valid EnvironmentInput := λ i, valid (env_name i) ∧ valid_some (env_value i).
#[global] Instance CommandStdin_valid : Valid CommandStdin := λ s,
  match s with NullStdin => True | StdinPath path => valid path end.
#[global] Instance CommandProgram_valid : Valid CommandProgram := λ p,
  match p with ProgramPath path => valid path | SearchProgram name => valid name end.
#[global] Instance CommandAction_valid : Valid CommandAction := λ c,
  valid (stdin c) ∧ valid (program c) ∧ valid_each (arguments c) ∧ valid (working_directory c)
  ∧ valid_each (environment c) ∧ valid_each (inputs c) ∧ valid_each (outputs c).
#[global] Instance ActionKind_valid : Valid ActionKind := λ k,
  match k with
  | CompilerCheck module target _ _ configuration =>
      valid (A := NodeKey) module ∧ valid target ∧ valid configuration
  | CompilerEmit artifact target static_archives configuration =>
      valid (A := NodeKey) artifact ∧ valid target ∧ valid_each (A := NodeKey) static_archives ∧ valid configuration
  | ExternalCommand command | RunExecutable command | TestExecutable command => valid command
  | GeneratedFile generated _ => valid generated
  | InstallArtifact artifact destination => valid (A := NodeKey) artifact ∧ valid destination
  | Aggregate => True
  | Uncacheable description => valid description
  end.
#[global] Instance PlanAction_valid : Valid PlanAction := λ a,
  valid (A := NodeKey) (action_key a) ∧ valid (action_kind a).
#[global] Instance PlanStep_valid : Valid PlanStep := λ s,
  valid (A := NodeKey) (step_key s) ∧ valid (A := NodeKey) (step_action s) ∧ valid_each (A := NodeKey) (dependencies s).
#[global] Instance BuildPlanDraft_valid : Valid BuildPlanDraft := λ d,
  valid (root_package d) ∧ valid_each (packages d) ∧ valid (host_target d) ∧ valid (artifact_target d)
  ∧ valid_each (modules d) ∧ valid_each (artifacts d) ∧ valid_each (actions d) ∧ valid_each (steps d)
  ∧ valid_some (A := NodeKey) (default_step d) ∧ valid_some (A := NodeKey) (selected_step d).

(** ** Codecs *)

(** A writer and a reader of the valid values of a type. *)
Class PlanCodecOf {A} `{Valid A} (write : A → Write) (read : Read A) : Prop :=
  codes_valid a : valid a → codes (write a) read a.

#[global] Instance string_codec : PlanCodecOf w_string r_string.
Proof. intros s. apply codes_string. Qed.

Lemma stable_name_str s : validate_stable_name s = Ok () → is_str s.
Proof.
  assert (∀ i, check_stable_characters i s = Ok () → is_str s) as H.
  { induction s as [|c s IH]; intros i; [constructor|]. cbn. destruct (is_stable_character c) eqn:E; [|done].
    intros H. constructor; [|by eapply IH]. unfold is_stable_character, is_ascii_alphanumeric, is_ascii_alphabetic,
      is_ascii_digit in E. apply is_scalar_spec. left. repeat (apply orb_true_iff in E as [E|E]); lia. }
  destruct s; [constructor|]. apply H.
Qed.

#[global] Instance package_key_codec : PlanCodecOf w_package_key r_package_key.
Proof.
  intros [name] Hk. eapply codes_lift; [by apply codes_string, stable_name_str|].
  unfold valid, PackageKey_valid in Hk. cbn in *. unfold package_key_new. by rewrite Hk.
Qed.

#[global] Instance node_key_codec : PlanCodecOf w_node_key r_node_key.
Proof.
  intros [p name] [Hp Hn]. eapply codes_bind; [by apply (codes_valid p)|].
  eapply codes_lift; [by apply codes_string, stable_name_str|]. cbn in *. unfold node_key_new. by rewrite Hn.
Qed.

Lemma join_split sep s : join_with [sep] (split_at sep s) = s.
Proof.
  assert (∀ s, split_at sep s ≠ []) as Hne.
  { intros [|c t]; cbn; [done|]. destruct (c =? sep); [done|]. by destruct (split_at sep t). }
  induction s as [|c s IH]; [done|]. cbn [split_at]. specialize (Hne s).
  destruct (Z.eqb_spec c sep) as [->|]; destruct (split_at sep s) as [|part [|p ps]]; cbn in *; by rewrite ?IH.
Qed.

Lemma protocol_path_text r text p : logical_path_new r text = Ok p → root p = r ∧ protocol_path p = text.
Proof.
  unfold logical_path_new. intros H. repeat (case_match; [done|]). destruct text as [|c text]; [by injection H as <-|].
  destruct (check_components _); [|done]. cbn [mbind Result_bind] in H. injection H as <-. split; [done|].
  exact (join_split 47 (c :: text)).
Qed.

#[global] Instance logical_path_codec : PlanCodecOf w_logical_path r_logical_path.
Proof.
  intros p [Hr (text&Hs&Hp)]. pose proof (protocol_path_text _ _ _ Hp) as [_ Ht].
  unfold w_logical_path. eapply (codes_bind _ _ _ _ (root p)).
  - destruct (root p) as [package| | | |artifact]; try by apply codes_tag_last.
    + eapply codes_tag; [done|]. eapply codes_last; [by apply (codes_valid package)|done].
    + eapply codes_tag; [done|]. eapply codes_last; [by apply (codes_valid artifact)|done].
  - rewrite Ht. eapply codes_lift; [by apply codes_string|]. by rewrite Hp.
Qed.

(** Two texts that name the same target are the same. *)
Lemma target_name_text t : t ∈ SUPPORTED_TARGETS →
  is_str (bytes_of_string (target_name t)) ∧ target_of_name (bytes_of_string (target_name t)) = Some t.
Proof.
  intros Ht. set (P t := forallb is_scalar (bytes_of_string (target_name t))
    && bool_decide (target_of_name (bytes_of_string (target_name t)) = Some t)).
  assert (P t = true) as HP by (apply supported_ind; [by vm_compute|done]).
  apply andb_true_iff in HP as [H1 H2%bool_decide_eq_true]. split; [|done].
  apply Forall_forall. intros c Hc. rewrite forallb_forall in H1. by apply H1, list_elem_of_In.
Qed.

#[global] Instance target_codec : PlanCodecOf w_target r_target.
Proof.
  intros t [Hs Hn]%target_name_text. apply codes_here. intros o. eapply codes_lift; [by apply codes_string|]. by rewrite Hn.
Qed.

(** Lists and options of a type with a codec. *)
Lemma codes_each {A} `{PlanCodecOf A write read} xs : valid_each xs → codes (w_list write xs) (r_list read) xs.
Proof. intros Hxs. apply codes_list. eapply Forall_impl; [done|]. apply codes_valid. Qed.

Lemma codes_some {A} `{PlanCodecOf A write read} kind o : valid_some o → codes (w_option write o) (r_option kind read) o.
Proof. intros Ho. apply codes_option. intros a Ha. by apply codes_valid, Ho. Qed.

(** The next part of a value, by the instance of its type. *)
Ltac code_part :=
  first
  [ apply codes_tag_last; reflexivity
  | apply codes_blob
  | apply codes_each; assumption
  | apply codes_some; assumption
  | apply codes_valid; assumption ].

(** A value part by part; a tag in front of a value decides its shape. *)
Ltac code_parts :=
  repeat first
  [ code_part
  | eapply codes_tag; [reflexivity|]
  | eapply codes_bind; [code_part|]
  | eapply codes_last; [code_part|reflexivity] ].

#[global] Instance define_codec : PlanCodecOf w_define r_define.
Proof. intros [name value] [Hn Hv]. unfold w_define, r_define, w_option_string, r_option_string. cbn in *. code_parts. Qed.

#[global] Instance library_codec : PlanCodecOf w_library r_library.
Proof.
  intros [name mode] Hn. unfold w_library, r_library. unfold valid, SystemLibrary_valid in Hn. cbn in *.
  destruct mode; code_parts.
Qed.

#[global] Instance configuration_codec : PlanCodecOf w_artifact_configuration r_artifact_configuration.
Proof.
  intros [li di pa lt ds ls] [Hd Hl]. unfold w_artifact_configuration, r_artifact_configuration. cbn in *.
  eapply codes_bind; [destruct li; code_part|]. eapply codes_bind; [destruct di; code_part|].
  eapply codes_bind; [destruct pa; code_part|]. eapply codes_bind; [destruct lt; code_part|]. code_parts.
Qed.

#[global] Instance import_codec : PlanCodecOf w_import r_import.
Proof. intros [name path] [Hn Hp]. unfold w_import, r_import. cbn in *. code_parts. Qed.

Lemma codes_optimization o : codes (w_optimization o) r_optimization o.
Proof. destruct o; by apply codes_tag_last. Qed.
Lemma codes_runtime r : codes (w_runtime r) r_runtime r.
Proof. destruct r; by apply codes_tag_last. Qed.
Lemma codes_mode m : codes (w_mode m) r_mode m.
Proof. destruct m; by apply codes_tag_last. Qed.

#[global] Instance module_codec : PlanCodecOf w_module r_module.
Proof.
  intros [key src opt imps] (Hk&Hs&Hi). unfold w_module, r_module. cbn in *.
  do 2 (eapply codes_bind; [code_part|]). eapply codes_bind; [apply codes_optimization|]. code_parts.
Qed.

#[global] Instance artifact_codec : PlanCodecOf w_artifact r_artifact.
Proof.
  intros [key rm kind out rt mode conf] (Hk&Hr&Ho&Hc). unfold w_artifact, r_artifact. cbn in *.
  do 2 (eapply codes_bind; [code_part|]). eapply codes_bind; [destruct kind; code_part|].
  eapply codes_bind; [code_part|]. eapply codes_bind; [apply codes_runtime|].
  eapply codes_bind; [apply codes_mode|]. code_parts.
Qed.

#[global] Instance package_codec : PlanCodecOf w_package r_package.
Proof. intros [key [text|text]] [Hk Ht]; unfold w_package, r_package; cbn in *; (eapply codes_bind; [code_part|]);
  (eapply codes_last; [eapply codes_tag; [reflexivity|]; code_parts|done]). Qed.

#[global] Instance argument_codec : PlanCodecOf w_argument r_argument.
Proof. intros [v|p|p] H; unfold w_argument, r_argument; unfold valid, CommandArgument_valid in H; code_parts. Qed.

#[global] Instance environment_codec : PlanCodecOf w_environment r_environment.
Proof. intros [name value] [Hn Hv]. unfold w_environment, r_environment, w_option_string, r_option_string. cbn in *. code_parts. Qed.

#[global] Instance stdin_codec : PlanCodecOf w_stdin r_stdin.
Proof. intros [|p] H; unfold w_stdin, r_stdin; unfold valid, CommandStdin_valid in H; code_parts. Qed.

#[global] Instance program_codec : PlanCodecOf w_program r_program.
Proof. intros [p|s] H; unfold w_program, r_program; unfold valid, CommandProgram_valid in H; code_parts. Qed.

#[global] Instance command_codec : PlanCodecOf w_command r_command.
Proof.
  intros [rc ep cp sin prog args wd env ins outs] (H1&H2&H3&H4&H5&H6&H7). unfold w_command, r_command. cbn in *.
  eapply codes_bind; [destruct rc; by apply codes_tag_last|]. eapply codes_bind; [destruct ep; by apply codes_tag_last|].
  eapply codes_bind; [destruct cp; by apply codes_tag_last|]. code_parts.
Qed.

#[global] Instance action_kind_codec : PlanCodecOf w_action_kind r_action_kind.
Proof.
  intros k H. unfold w_action_kind, r_action_kind. unfold valid, ActionKind_valid in H.
  destruct k; destruct_and?; try by code_parts.
  eapply codes_tag; [reflexivity|]. do 2 (eapply codes_bind; [code_part|]).
  eapply codes_bind; [apply codes_runtime|]. eapply codes_bind; [apply codes_mode|]. code_parts.
Qed.

#[global] Instance action_codec : PlanCodecOf w_action r_action.
Proof. intros [key kind] [Hk Hn]. unfold w_action, r_action. cbn in *. code_parts. Qed.

#[global] Instance step_codec : PlanCodecOf w_step r_step.
Proof.
  intros [key vis act deps] (Hk&Ha&Hd). unfold w_step, r_step. cbn in *.
  do 2 (eapply codes_bind; [code_part|]). eapply codes_bind; [destruct vis; code_part|]. code_parts.
Qed.

#[global] Instance draft_codec : PlanCodecOf w_draft r_draft.
Proof.
  intros [rp ps ht at_ ms fs acts ss ds sel] (?&?&?&?&?&?&?&?&?&?). unfold w_draft, r_draft, w_option_step_key, r_option_step_key.
  cbn in *. code_parts.
Qed.

Lemma codes_assoc {A} w1 w2 w3 (r : Read A) a : codes ((w1 ;> w2) ;> w3) r a → codes (w1 ;> w2 ;> w3) r a.
Proof. intros H s s' Hw. apply H. unfold w_seq in *. by destruct (w1 s). Qed.

Lemma codes_header : codes (w_put MAGIC ;> w_u32 PROTOCOL_EPOCH) r_header ().
Proof.
  eapply codes_bind; [apply codes_put|]. rewrite bool_decide_false by tauto.
  eapply codes_last; [by apply codes_u32; vm_compute|]. by rewrite bool_decide_false by tauto.
Qed.

(** What [encode] writes, [decode] reads before it freezes. *)
Lemma encode_reads plan bs : protocol_epoch plan = PROTOCOL_EPOCH → valid (plan_content plan) → encode plan = Ok bs →
  decode bs = map_err Semantic (freeze (plan_content plan)).
Proof.
  unfold encode. intros -> Hv H. destruct ((_ ;> _) writer_new) as [s|] eqn:E; [|done]. cbn in H.
  unfold writer_finish in H. destruct (w_failure s) eqn:Ef; [done|]. injection H as <-.
  assert (codes (w_put MAGIC ;> w_u32 PROTOCOL_EPOCH ;> w_draft (plan_content plan)) (_ ← r_header; r_draft) (plan_content plan)) as Hc.
  { apply codes_assoc. eapply codes_bind; [apply codes_header|]. by apply codes_valid. }
  destruct (Hc _ _ E Ef) as (_&bs&Hb&Hl&Hr). cbn [w_bytes writer_new app] in Hb. subst bs. unfold decode.
  rewrite (proj2 (Z.ltb_ge _ _)) by (by apply Hl; vm_compute).
  specialize (Hr 0 []). rewrite app_nil_r in Hr. rewrite Hr. done.
Qed.

(** ** Freezing keeps a draft valid *)

Lemma valid_each_subset {A} `{Valid A} (l l' : list A) : (∀ x, x ∈ l' → x ∈ l) → valid_each l → valid_each l'.
Proof. unfold valid_each. rewrite !Forall_forall. auto. Qed.

Lemma update_all_valid {A} `{Valid A} (f : A → Checked A) l l' :
  (∀ a b, f a = Ok b → valid a → valid b) → valid_each l → update_all f l = Ok l' → valid_each l'.
Proof.
  unfold valid_each. intros Hf Hl Hu. apply Forall_forall. intros b Hb.
  destruct (update_all_elem _ _ _ _ Hu Hb) as (a&Ha&Hab). rewrite Forall_forall in Hl. eauto.
Qed.

Lemma valid_sorted {A} `{Valid A} c (l : list A) : valid_each l → valid_each (sort_by c l).
Proof. apply valid_each_subset. intros x. by rewrite sort_by_perm. Qed.

Lemma valid_dedup_sorted `{Valid A} `{Ord A} `{EqDecision A} (l : list A) : valid_each l → valid_each (dedup (sort l)).
Proof. apply valid_each_subset. intros x. apply dedup_sort_elem. Qed.

Lemma ascii_uppercase_scalar c : is_scalar c = true → is_scalar (ascii_uppercase c) = true.
Proof.
  unfold ascii_uppercase. rewrite !is_scalar_spec. change ("a"%B) with 97. change ("z"%B) with 122.
  destruct ((97 <=? c) && (c <=? 122)) eqn:E; [|done]. apply andb_true_iff in E as [E1%Z.leb_le E2%Z.leb_le]. lia.
Qed.

Lemma canonical_environment_valid ht c : valid_each (environment c) → valid_each (canonical_environment ht c).
Proof.
  intros H. apply valid_sorted. case_bool_decide; [|done]. unfold valid_each in *. apply Forall_fmap.
  eapply Forall_impl; [done|]. intros [name value] [Hn Hv]. split; [|done]. cbn. apply Forall_fmap.
  eapply Forall_impl; [exact Hn|]. apply ascii_uppercase_scalar.
Qed.

Lemma canonicalize_command_valid k c fs ts ht c' : canonicalize_command k c fs ts ht = Ok c' → valid c → valid c'.
Proof.
  unfold canonicalize_command. intros H (?&?&?&?&?&?&?). checked_inv. unfold valid, CommandAction_valid. cbn.
  split_and!; [done..|by apply canonical_environment_valid|by apply valid_dedup_sorted|by apply valid_dedup_sorted].
Qed.

Lemma canonicalize_action_valid ms fs ts ht a b : canonicalize_action ms fs ts ht a = Ok b → valid a → valid b.
Proof.
  unfold canonicalize_action. intros H [Hk Ha]. unfold valid, ActionKind_valid in Ha.
  destruct (action_kind a) eqn:E; checked_inv; (split; [done|]); unfold valid, ActionKind_valid; rewrite ?E; cbn;
    first [done|by eapply canonicalize_command_valid].
Qed.

Lemma freeze_valid d plan : freeze d = Ok plan → valid d → protocol_epoch plan = PROTOCOL_EPOCH ∧ valid (plan_content plan).
Proof.
  destruct d as [rp ps ht at_ ms fs acts ss ds sel]. unfold freeze. intros H (?&?&?&?&?&?&?&?&?&?). cbn in *. checked_inv.
  split; [done|]. unfold valid, BuildPlanDraft_valid. cbn. split_and!; try done.
  - unfold canonicalize_packages in *. checked_inv. by apply valid_sorted.
  - unfold canonicalize_modules in *. checked_inv. eapply update_all_valid; [|by apply valid_sorted|done].
    intros a b Hab (?&?&?). unfold canonicalize_module in Hab. checked_inv. split_and!; [done..|]. by apply valid_sorted.
  - unfold canonicalize_artifacts in *. checked_inv. by apply valid_sorted.
  - unfold canonicalize_actions in *. checked_inv. eapply update_all_valid; [|by apply valid_sorted|done].
    intros. by eapply canonicalize_action_valid.
  - unfold canonicalize_steps in *. checked_inv. eapply update_all_valid; [|by apply valid_sorted|done].
    intros a b Hab (?&?&?). unfold canonicalize_step in Hab. checked_inv. split_and!; [done..|].
    by apply (valid_dedup_sorted (A := NodeKey)).
Qed.

(** ** What the reader makes

    Every value that [Reader] returns satisfies the invariants of its type: names and
    paths have passed their constructors, targets are in the matrix, texts are UTF-8. *)

Definition ensures {A} (r : Read A) (Q : A → Prop) : Prop := ∀ s a s', r s = Ok (a, s') → Q a.

Lemma ensures_ret {A} (a : A) (Q : A → Prop) : Q a → ensures (mret a) Q.
Proof. by intros H s a' s' [= <- _]. Qed.

Lemma ensures_any {A} (r : Read A) : ensures r (λ _, True).
Proof. done. Qed.

Lemma ensures_bind {A B} (r : Read A) (k : A → Read B) P Q :
  ensures r P → (∀ a, P a → ensures (k a) Q) → ensures (r ≫= k) Q.
Proof.
  intros Hr Hk s b s' H. unfold mbind, Read_bind in H. destruct (r s) as [[a s1]|] eqn:E; [|done].
  eapply (Hk a); [by eapply Hr|done].
Qed.

Lemma ensures_lift {A} (x : Result PlanCodecError A) (Q : A → Prop) : (∀ a, x = Ok a → Q a) → ensures (r_lift x) Q.
Proof. intros H s a s'. unfold r_lift. destruct x; [|done]. intros [= <- _]. by apply H. Qed.

Lemma ensures_tagged {A} kind (choose : Z → option (Read A)) Q :
  (∀ t read, choose t = Some read → ensures read Q) → ensures (r_tagged kind choose) Q.
Proof.
  intros H. eapply ensures_bind; [apply ensures_any|]. intros o _. eapply ensures_bind; [apply ensures_any|].
  intros t _. destruct (choose t) eqn:E; [by eapply H|]. by intros s a s'.
Qed.

(** A reader that returns valid values. *)
Class Makes {A} `{Valid A} (r : Read A) : Prop := makes : ensures r valid.

Lemma ensures_many {A} (read : Read A) (Q : A → Prop) n : ensures read Q → ensures (r_many read n) (Forall Q).
Proof.
  intros H. induction n as [|n IH]; [by apply ensures_ret|]. cbn [r_many]. eapply ensures_bind; [done|]. intros a Ha.
  eapply ensures_bind; [done|]. intros l Hl. apply ensures_ret. by constructor.
Qed.

Lemma ensures_each {A} `{Makes A read} : ensures (r_list read) valid_each.
Proof. eapply ensures_bind; [apply ensures_any|]. intros n _. apply ensures_many, makes. Qed.

Lemma ensures_some {A} `{Makes A read} kind : ensures (r_option kind read) valid_some.
Proof.
  apply ensures_tagged. intros t r Hr. repeat case_match; simplify_eq.
  - by apply ensures_ret.
  - eapply ensures_bind; [apply makes|]. intros a Ha. apply ensures_ret. by intros b [= <-].
Qed.

#[global] Instance string_makes : Makes r_string.
Proof.
  eapply ensures_bind; [apply ensures_any|]. intros o _. eapply ensures_bind; [apply ensures_any|]. intros n _.
  eapply ensures_bind; [apply ensures_any|]. intros bs _. apply ensures_lift. intros s Hs.
  destruct (utf8_decode bs) eqn:E; [|done]. injection Hs as <-. by apply utf8_decode_sound in E as [? _].
Qed.

#[global] Instance package_key_makes : Makes r_package_key.
Proof.
  eapply ensures_bind; [apply ensures_any|]. intros name _. apply ensures_lift. intros k Hk.
  unfold package_key_new in Hk. destruct (validate_stable_name name) as [[]|] eqn:E; [|done]. by injection Hk as <-.
Qed.

#[global] Instance node_key_makes : Makes r_node_key.
Proof.
  eapply ensures_bind; [apply makes|]. intros p Hp. eapply ensures_bind; [apply ensures_any|]. intros name _.
  apply ensures_lift. intros k Hk. unfold node_key_new in Hk.
  destruct (validate_stable_name name) as [[]|] eqn:E; [|done]. by injection Hk as <-.
Qed.

#[global] Instance logical_path_makes : Makes r_logical_path.
Proof.
  eapply (ensures_bind _ _ valid).
  - apply ensures_tagged. intros t r Hr. repeat case_match; simplify_eq; try by apply ensures_ret.
    + eapply ensures_bind; [apply (makes (r := r_package_key))|]. intros p Hp. by apply ensures_ret.
    + eapply ensures_bind; [apply (makes (r := r_node_key))|]. intros a Ha. by apply ensures_ret.
  - intros root Hroot. eapply ensures_bind; [apply makes|]. intros text Ht. apply ensures_lift. intros p Hp.
    destruct (logical_path_new root text) as [p'|] eqn:E; [|done]. injection Hp as ->.
    destruct (protocol_path_text _ _ _ E) as [Hr _]. split; rewrite Hr; [done|by exists text].
Qed.

#[global] Instance target_makes : Makes r_target.
Proof.
  eapply ensures_bind; [apply ensures_any|]. intros o _. eapply ensures_bind; [apply ensures_any|]. intros name _.
  apply ensures_lift. intros t Ht. unfold target_of_name in Ht. destruct (string_of_chars name); [|done]. cbn in Ht.
  unfold target_parse in Ht. destruct (list_find _ SUPPORTED_TARGETS) as [[i t']|] eqn:E; [|done].
  injection Ht as <-. apply list_find_Some in E as (E&_). by eapply list_elem_of_lookup_2.
Qed.

(** The next read, by the instance of its type; what has no invariant is skipped. *)
Ltac ensure_parts :=
  repeat first
  [ apply ensures_ret
  | eapply ensures_bind; [first [apply makes|apply ensures_each|apply ensures_some|apply ensures_any]|intros ??]
  | apply ensures_tagged; intros ?? Htag; repeat case_match; simplify_eq ].

(** The arms of a tagged value. *)
Ltac ensure_arms := apply ensures_tagged; intros ? ? Htag; repeat case_match; simplify_eq; ensure_parts.

#[global] Instance define_makes : Makes r_define.
Proof. unfold Makes, r_define, r_option_string. ensure_parts. done. Qed.
#[global] Instance library_makes : Makes r_library.
Proof. unfold Makes, r_library. ensure_parts. done. Qed.
#[global] Instance configuration_makes : Makes r_artifact_configuration.
Proof. unfold Makes, r_artifact_configuration. ensure_parts. done. Qed.
#[global] Instance import_makes : Makes r_import.
Proof. unfold Makes, r_import. ensure_parts. done. Qed.
#[global] Instance module_makes : Makes r_module.
Proof. unfold Makes, r_module. ensure_parts. done. Qed.
#[global] Instance artifact_makes : Makes r_artifact.
Proof. unfold Makes, r_artifact. ensure_parts. done. Qed.
#[global] Instance package_makes : Makes r_package.
Proof.
  unfold Makes, r_package. eapply ensures_bind; [apply makes|]. intros k Hk.
  eapply (ensures_bind _ _ (λ s, match s with Local text | Dependency text => valid text end)); [by ensure_arms|].
  intros s Hs. by apply ensures_ret.
Qed.
#[global] Instance argument_makes : Makes r_argument.
Proof. unfold Makes, r_argument. by ensure_arms. Qed.
#[global] Instance environment_makes : Makes r_environment.
Proof. unfold Makes, r_environment, r_option_string. ensure_parts. done. Qed.
#[global] Instance stdin_makes : Makes r_stdin.
Proof. unfold Makes, r_stdin. by ensure_arms. Qed.
#[global] Instance program_makes : Makes r_program.
Proof. unfold Makes, r_program. by ensure_arms. Qed.
#[global] Instance command_makes : Makes r_command.
Proof. unfold Makes, r_command. ensure_parts. done. Qed.
#[global] Instance action_kind_makes : Makes r_action_kind.
Proof. unfold Makes, r_action_kind. by ensure_arms. Qed.
#[global] Instance action_makes : Makes r_action.
Proof. unfold Makes, r_action. ensure_parts. done. Qed.
#[global] Instance step_makes : Makes r_step.
Proof. unfold Makes, r_step. ensure_parts. done. Qed.
#[global] Instance draft_makes : Makes r_draft.
Proof. unfold Makes, r_draft, r_option_step_key. ensure_parts. done. Qed.

(** Decoding is reading a valid draft and freezing it. *)
Lemma decode_freezes bs plan : decode bs = Ok plan → ∃ d, valid d ∧ freeze d = Ok plan.
Proof.
  unfold decode. destruct (_ <? _); [done|]. intros H.
  destruct ((_ ← r_header; r_draft) (mkReader 0 bs)) as [[d s]|] eqn:E; [|done]. cbn in H.
  destruct (r_rest s); [|done]. exists d. split; [|by destruct (freeze d); simplify_eq/=].
  revert E. apply (ensures_bind r_header (λ _, r_draft) (λ _, True)); [done|]. intros _ _. apply makes.
Qed.
