(* ===== verification/PlanProps.v ===== *)
(** * nia-build-plan: the properties of build plans *)

From stdpp Require Import relations.
From S2P Require Import Prelude RustStd RustOrd Target PlanTypes PlanValidate PlanFacts PlanCycles PlanClosure PlanFreeze PlanRefreeze StableCodec PlanCodec PlanCodecFacts.

(** ** A plan to try the properties on *)

Module Sample.
Definition text : string → list Z := bytes_of_string.
Definition root_key : PackageKey := mkPackageKey (text "root").
Definition key (name : string) : NodeKey := mkNodeKey root_key (text name).
Definition build_path (parts : list string) : LogicalPath := mkLogicalPath BuildRoot (text <$> parts).
Definition host : TargetConfig := mkTarget X86_64 Linux.
Definition configuration : ArtifactConfiguration :=
  mkArtifactConfiguration StaticLinkage NoDebug PanicAbort LtoOff [] [].

(** Writes the source that is compiled and then run. *)
Definition command : CommandAction :=
  mkCommandAction Cpu InheritEnvironment UncacheablePolicy NullStdin
    (ProgramPath (mkLogicalPath (ArtifactRoot (key "app")) []))
    [Literal (text "-v"); InputArgument (build_path ["gen"; "main.nia"]); OutputArgument (build_path ["log"])]
    (mkLogicalPath (PackageRoot root_key) [])
    [mkEnvironmentInput (text "LANG") (Some (text "C"))]
    [build_path ["gen"; "main.nia"]] [build_path ["log"]].

Definition draft : BuildPlanDraft :=
  mkBuildPlanDraft root_key [mkPlanPackage root_key (Local [])] host host
    [mkPlanModule (key "main") (build_path ["gen"; "main.nia"]) O2 []]
    [mkPlanArtifact (key "app") (key "main") Executable (build_path ["bin"; "app"]) Freestanding Normal configuration]
    [mkPlanAction (key "run") (RunExecutable command);
     mkPlanAction (key "generate") (GeneratedFile (build_path ["gen"; "main.nia"]) (text "pub fn main() {}"));
     mkPlanAction (key "emit") (CompilerEmit (key "app") host [] configuration)]
    [mkPlanStep (key "run") Public (key "run") [key "build"];
     mkPlanStep (key "build") Public (key "emit") [key "generate"];
     mkPlanStep (key "generate") Internal (key "generate") []]
    (Some (key "build")) (Some (key "run")).

Definition plan : BuildPlan := Eval vm_compute in
  match freeze draft with Ok plan => plan | Err _ => mkBuildPlan 0 draft end.
Definition bytes : list Z := Eval vm_compute in match encode plan with Ok bytes => bytes | Err _ => [] end.

(** The plan is valid, since it can be decoded. *)
Lemma plan_valid : valid (plan_content plan).
Proof.
  destruct (decode_freezes bytes plan) as (d&Hd&Hf); [by vm_compute|]. by apply (freeze_valid d).
Qed.
End Sample.

(** ** Freezing *)

(** C13: The cycle check of a build plan accepts steps with distinct keys whose
    dependencies all name steps exactly when no step transitively depends on itself;
    otherwise it reports [StepCycle] with a non-empty list of steps, in which each waits
    for another of the list, and which has every step on a cycle. *)
Theorem validate_step_cycles_correct steps :
  NoDup (step_key <$> steps) →
  (∀ s d, s ∈ steps → d ∈ dependencies s → d ∈ (step_key <$> steps)) →
  (validate_step_cycles steps = Ok () ↔ ∀ k, ¬ tc (depends steps) k k) ∧
  (validate_step_cycles steps = Ok () ∨
   ∃ l, validate_step_cycles steps = Err (StepCycle l) ∧ l ≠ [] ∧
     (∀ k, k ∈ l → ∃ d, depends steps k d ∧ d ∈ l) ∧
     ∀ k, tc (depends steps) k k → k ∈ l).
Proof. apply validate_step_cycles_spec. Qed.

(** Two steps that wait for each other, and a third. *)
Definition cyclic_steps : list PlanStep :=
  let step name deps := mkPlanStep (Sample.key name) Internal (Sample.key "act") (Sample.key <$> deps) in
  [step "a" ["b"]; step "b" ["a"; "c"]; step "c" []]%string.

Lemma validate_step_cycles_correct_witness :
  validate_step_cycles cyclic_steps = Err (StepCycle [Sample.key "a"; Sample.key "b"]) ∧
  ∃ l, validate_step_cycles cyclic_steps = Err (StepCycle l) ∧ l ≠ [].
Proof.
  split; [by vm_compute|].
  destruct (validate_step_cycles_correct cyclic_steps) as [_ [H|(l&H&Hl&_)]].
  - apply (bool_decide_unpack _); vm_compute; done.
  - intros s d Hs Hd. repeat (apply elem_of_cons in Hs as [->|Hs]; [|]); [..|by apply not_elem_of_nil in Hs];
      apply list_elem_of_In; apply list_elem_of_In in Hd; vm_compute in Hd |- *; tauto.
  - by vm_compute in H.
  - by exists l.
Defined.

(** C11: A frozen plan never gets stuck: while some step has not run, there is one that
    has not run and whose dependencies all have. *)
Theorem frozen_plan_progresses d plan (ran : list StepKey) s :
  freeze d = Ok plan → s ∈ steps (plan_content plan) → step_key s ∉ ran →
  ∃ s', s' ∈ steps (plan_content plan) ∧ (step_key s' ∉ ran) ∧ ∀ k, k ∈ dependencies s' → k ∈ ran.
Proof. intros Hf%freeze_frozen. by apply frozen_progress. Qed.

Lemma frozen_plan_progresses_witness :
  ∃ s', s' ∈ steps (plan_content Sample.plan) ∧ (step_key s' ∉ [Sample.key "generate"])
    ∧ ∀ k, k ∈ dependencies s' → k ∈ [Sample.key "generate"].
Proof.
  apply (frozen_plan_progresses Sample.draft Sample.plan _ (mkPlanStep (Sample.key "run") Public (Sample.key "run") [Sample.key "build"])).
  - by vm_compute.
  - apply (list_elem_of_lookup_2 _ 2). by vm_compute.
  - apply (bool_decide_unpack _). by vm_compute.
Defined.

(** C10: In a frozen plan whatever a step reads has been written by a step that runs
    before it: the artifacts it needs are emitted, each path of a command below the build
    root has producers and all of them run before, and the same holds for each source and
    import below the build root of a module that is compiled. *)
Theorem frozen_reads_after_writes d plan s a :
  freeze d = Ok plan → s ∈ steps (plan_content plan) → a ∈ actions (plan_content plan) →
  step_action s = action_key a →
  (∀ artifact, needs_artifact (action_kind a) artifact →
     ∃ s' a' target archives configuration, runs_before (plan_content plan) s s' ∧
       a' ∈ actions (plan_content plan) ∧ action_key a' = step_action s' ∧
       action_kind a' = CompilerEmit artifact target archives configuration) ∧
  (∀ c r, action_command (action_kind a) = Some c → r ∈ build_requirements c →
     ∃ producers, collect_producers (artifacts (plan_content plan)) (actions (plan_content plan)) = Ok producers ∧
       (∃ x, x ∈ producers ∧ produces x.1 r.1 r.2 = true) ∧
       ∀ x, x ∈ producers → produces x.1 r.1 r.2 = true →
         ∃ s', runs_before (plan_content plan) s s' ∧ step_action s' = x.2) ∧
  ∀ m path, m ∈ modules (plan_content plan) →
    compiled_module (artifacts (plan_content plan)) (action_kind a) = Some (module_key m) →
    path = root_source m ∨ path ∈ (import_path <$> imports m) → root path = BuildRoot →
    ∃ s', runs_before (plan_content plan) s s' ∧
      (path, step_action s') ∈ source_producers (actions (plan_content plan)).
Proof.
  intros Hf%freeze_frozen Hs Ha Hsa. split_and!.
  - intros artifact. by eapply frozen_needs_emitted.
  - intros c r. by eapply frozen_inputs_produced.
  - intros m path Hm Hc. by eapply frozen_sources_produced.
Qed.

Lemma frozen_reads_after_writes_witness :
  ∃ s' a' target archives configuration, runs_before (plan_content Sample.plan)
      (mkPlanStep (Sample.key "run") Public (Sample.key "run") [Sample.key "build"]) s' ∧
    a' ∈ actions (plan_content Sample.plan) ∧ action_key a' = step_action s' ∧
    action_kind a' = CompilerEmit (Sample.key "app") target archives configuration.
Proof.
  apply (frozen_reads_after_writes Sample.draft Sample.plan
    (mkPlanStep (Sample.key "run") Public (Sample.key "run") [Sample.key "build"])
    (mkPlanAction (Sample.key "run") (RunExecutable Sample.command))).
  - by vm_compute.
  - apply (list_elem_of_lookup_2 _ 2). by vm_compute.
  - apply (list_elem_of_lookup_2 _ 2). by vm_compute.
  - done.
  - left. by eexists.
Defined.

(** C12: The outputs of a frozen plan are apart: each is a non-empty path below the build
    root and outside the transaction directory, and of two outputs, of the same action or
    of different ones, neither is the other or inside it.  Conversely a set of actions
    passes the ownership check whenever that holds of its outputs. *)
Theorem frozen_outputs_apart d plan :
  freeze d = Ok plan →
  (∃ producers, collect_producers (artifacts (plan_content plan)) (actions (plan_content plan)) = Ok producers ∧
     outputs_apart producers) ∧
  ∀ acts fs, validate_output_ownership acts fs = Ok () ↔
    ∃ producers, collect_producers fs acts = Ok producers ∧ outputs_apart producers.
Proof.
  intros Hf%freeze_frozen. split; [apply validate_output_ownership_ok, Hf|]. intros. apply validate_output_ownership_ok.
Qed.

Lemma frozen_outputs_apart_witness :
  ∃ producers, collect_producers (artifacts (plan_content Sample.plan)) (actions (plan_content Sample.plan)) = Ok producers ∧
    outputs_apart producers.
Proof. apply (frozen_outputs_apart Sample.draft). by vm_compute. Defined.

(** ** The encoding *)

(** C9: Freezing a draft, encoding the plan and decoding the bytes gives the plan back.
    In particular freezing the content of a frozen plan changes nothing. *)
Theorem plan_round_trip d plan bs :
  valid d → freeze d = Ok plan → encode plan = Ok bs → decode bs = Ok plan.
Proof.
  intros Hv Hf He. destruct (freeze_valid d plan Hf Hv) as [Hp Hc].
  rewrite (encode_reads plan bs Hp Hc He). by rewrite (freeze_again d plan Hf).
Qed.

Lemma plan_round_trip_witness : encode Sample.plan = Ok Sample.bytes ∧ decode Sample.bytes = Ok Sample.plan.
Proof.
  split; [by vm_compute|]. apply (plan_round_trip (plan_content Sample.plan)).
  - apply Sample.plan_valid.
  - by vm_compute.
  - by vm_compute.
Defined.

(** C14: Whatever bytes are decoded, an accepted plan satisfies the invariants of its
    types (names, paths, targets and texts as their constructors make them), has passed
    all checks of [freeze], and encoding it again gives bytes that decode to the same
    plan. *)
Theorem decoded_plan_well_typed bs plan :
  decode bs = Ok plan →
  protocol_epoch plan = PROTOCOL_EPOCH ∧ valid (plan_content plan) ∧ frozen (plan_content plan) ∧
  freeze (plan_content plan) = Ok plan ∧
  ∀ bs', encode plan = Ok bs' → decode bs' = Ok plan.
Proof.
  intros (d&Hv&Hf)%decode_freezes. destruct (freeze_valid d plan Hf Hv) as [Hp Hc].
  pose proof (freeze_again d plan Hf) as Hfa. split_and!; [done..|by eapply freeze_frozen|done|].
  intros bs' He. by rewrite (encode_reads plan bs' Hp Hc He), Hfa.
Qed.

Lemma decoded_plan_well_typed_witness : frozen (plan_content Sample.plan).
Proof. apply (decoded_plan_well_typed Sample.bytes). by vm_compute. Defined.
