(* ===== verification/FnIr.v ===== *)
(** * nia-function-ir: the control-flow representation of function bodies
      ([crates/nia-function-ir/src/ir.rs])

    A body owns flat tables of locals, lexical scopes and basic blocks that refer to
    one another by id; a [defer] operation carries a control-flow graph of its own,
    so blocks, operations and defer bodies are mutually inductive.  The constructors
    of the source's enums carry a prefix: [Ex] for expression kinds, [Op] for
    operations, [Tm] for terminators, [Ce] for callees, [At] for atomics, [Pb] and
    [Pe] for the bases and elements of places.  The identities of [nia-ids],
    [nia-node-id], [nia-ir-names] and [nia-source] that the nodes carry are here too.
    [usize] is [nat] for table indices and [Z] where its width matters. *)

From S2P Require Import Prelude RustStd Lexer Ty.

(** ** Identities *)

Record ModuleId := mkModuleId { owner : Z; module_index : Z; generation : Z }.
Notation DefId := Z (only parsing).
Record GlobalDefId := mkGlobalDefId { def_module : ModuleId; def_id : DefId }.
Notation LocalId := Z (only parsing).
Notation SymbolId := Z (only parsing).
Record ClosureId := mkClosureId { closure_owner : GlobalDefId; ordinal : Z }.
Record InternedTyId := mkTyId { store_id : Z; ty_index : Z }.

#[global] Instance ModuleId_eq_dec : EqDecision ModuleId.
Proof. solve_decision. Defined.
#[global] Instance GlobalDefId_eq_dec : EqDecision GlobalDefId.
Proof. solve_decision. Defined.
#[global] Instance InternedTyId_eq_dec : EqDecision InternedTyId.
Proof. solve_decision. Defined.

Inductive NodeKind :=
  NodeModule | NodeItem | NodeStmt | NodeExpr | NodeType | NodePattern | NodeParam | NodeSyntax
| NodeToken.
Inductive NodePosition :=
| PosSpan (s : Span)
| PosChildPath (steps : list Z)
| PosChildPathRange (first last : list Z).
Record NodeSite := mkNodeSite {
  source_store : Z; source_index : Z; site_kind : NodeKind; site_position : NodePosition }.
Record VersionedNodeKey := mkNodeKey { site : NodeSite; revision : Z }.
Inductive ConstExprId := CeSyntax (node : VersionedNodeKey) | CeSynthetic (index : Z).
Record GlobalConstExprId := mkConstExpr { const_module : ModuleId; const_expr_id : ConstExprId }.

Inductive BuiltinTrait :=
  BtAdd | BtSub | BtMul | BtDiv | BtRem | BtNeg | BtNot | BtBitNot | BtBitAnd | BtBitOr | BtBitXor
| BtShl | BtShr | BtEq | BtOrd | BtSized | BtUnsized | BtDeref | BtDerefMut | BtIndex | BtIndexMut
| BtSlice | BtSliceMut | BtIterable | BtIterator | BtSimd | BtSimdMask | BtIntoError.
Inductive TraitId := TraitSource (def : GlobalDefId) | TraitBuiltin (b : BuiltinTrait).
Inductive BuiltinTraitMethod :=
  BmAdd | BmSub | BmMul | BmDiv | BmRem | BmNeg | BmNot | BmBitNot | BmBitAnd | BmBitOr | BmBitXor
| BmShl | BmShr | BmEq | BmNe | BmLt | BmLe | BmGt | BmGe | BmDeref | BmDerefMut | BmIndex
| BmIndexMut | BmSlice | BmSliceMut | BmIterableIter | BmIteratorNext | BmIntoError.
Inductive ReceiverKind := RecvRefReadOnly | RecvRef | RecvValue.

Inductive ConstGenericValue :=
| CgParam (name : SymbolId)
| CgConstExpr (expr : GlobalConstExprId)
| CgInt (value : IntConst)
| CgBool (value : bool)
| CgChar (value : Z).
Record ConstGenericArg := mkConstArg { arg_ty : InternedTyId; arg_value : ConstGenericValue }.
Inductive ArrayLenTy :=
| LenInfer
| LenParam (name : SymbolId)
| LenConst (value : Z)
| LenConstExpr (expr : GlobalConstExprId)
| LenBuiltin (builtin : LayoutBuiltin) (ty : InternedTyId).

Record PromotedAllocationId := mkPromoted { alloc_module : ModuleId; alloc_span : Span }.
Record SourceLocation := mkLocation { loc_file : list Z; loc_line : Z; loc_column : Z }.
Inductive GeneratedLocalName := ForIterable | ForIterator | ForNext.
Inductive LocalName :=
| SelfValue
| Named (name : SymbolId)
| Generated (name : GeneratedLocalName)
| Temporary (id : Z)
| Anonymous.

Inductive UnaryOp := UNeg | UNot | UBitNot | URefReadOnly | URef | UDeref.
Inductive BinaryOp :=
  BMul | BDiv | BRem | BAdd | BSub | BShl | BShr | BLt | BLe | BGt | BGe | BEq | BNe | BBitAnd
| BBitXor | BBitOr | BAnd | BOr.
Inductive AssignOp :=
  AAssign | AAdd | ASub | AShl | AShr | AMul | ADiv | ARem | ABitAnd | ABitXor | ABitOr.

(** ** Leaves of the expression language *)

Notation FunctionBlockId := Z (only parsing).
Notation FunctionScopeId := Z (only parsing).

Inductive FunctionTryKind := TryOptional | TryErrorUnion.
#[global] Instance FunctionTryKind_eq_dec : EqDecision FunctionTryKind.
Proof. solve_decision. Defined.
Inductive FunctionBitIntrinsicOp := Ctz | Clz | Popcount.
Inductive FunctionRangeBound := BoundStart | BoundEnd.
Inductive FunctionMemoryIntrinsicOp := MemCopy | MemMove | MemSet.
Inductive FunctionAsmOption := AsmVolatile.
Inductive AtomicOrder := Unordered | Monotonic | Acquire | Release | AcqRel | SeqCst.
Inductive AtomicRmwOp :=
  RmwXchg | RmwAdd | RmwSub | RmwAnd | RmwNand | RmwOr | RmwXor | RmwMax | RmwMin | RmwUMax
| RmwUMin.
Inductive FunctionBuiltinMethod :=
  MSliceLen | MSlicePtr | MSlicePtrMut | MStart | MEnd | MIter.
Inductive FunctionBuiltinOperatorOp := BoUnary (op : UnaryOp) | BoBinary (op : BinaryOp).
Record FunctionBuiltinOperator := mkBuiltinOperator {
  operator_trait : BuiltinTrait; operator_op : FunctionBuiltinOperatorOp }.
Inductive FunctionBuiltinValue :=
| BvUsize (value : Z)
| BvLayout (builtin : LayoutBuiltin) (ty : InternedTyId)
| BvFieldOffset (ty : InternedTyId) (field : GlobalDefId)
| BvInt (value : IntConst).
Record FunctionAssociatedConstProjection := mkAssocConst {
  ac_self_ty : InternedTyId;
  ac_trait : TraitId;
  ac_trait_args : list InternedTyId;
  ac_trait_const_args : list ConstGenericArg;
  ac_name : SymbolId }.

(** ** Expressions, places and callees

    One mutual block: expressions contain places, callees, atomics and inline assembly,
    and these contain expressions. *)

Inductive FunctionExpr :=
| mkExpr (span : Span) (ty : InternedTyId) (kind : FunctionExprKind)
with FunctionExprKind :=
| ExError
| ExInteger (text : list Z)
| ExFloat (text : list Z)
| ExString (scalars : list Z)
| ExByteString (bytes : list Z)
| ExChar (value : Z)
| ExByteChar (text : list Z)
| ExBool (value : bool)
| ExNull
| ExLocal (local : LocalId)
| ExGlobal (def : GlobalDefId)
| ExConstGeneric (arg : ConstGenericArg)
| ExAssociatedConstProjection (projection : FunctionAssociatedConstProjection)
| ExGlobalInstance (def : GlobalDefId) (arg_module : ModuleId) (args : list InternedTyId)
    (const_args : list ConstGenericArg)
| ExFunction (def : GlobalDefId)
| ExEnumConstructor (def : GlobalDefId)
| ExFunctionInstance (def : GlobalDefId) (arg_module : ModuleId) (self_arg : option InternedTyId)
    (args : list InternedTyId) (const_args : list ConstGenericArg)
| ExEnumVariant (variant : GlobalDefId) (fields : list FunctionExpr)
| ExEnumVariantTag (variant : GlobalDefId)
| ExEnumTag (value : FunctionExpr)
| ExEnumPayloadField (value : FunctionExpr) (variant : GlobalDefId) (field : nat)
| ExBuiltinValue (value : FunctionBuiltinValue)
| ExCallerLocation (location : SourceLocation)
| ExTrap
| ExRange (range : FunctionRange)
| ExRangeBound (range : FunctionExpr) (bound : FunctionRangeBound)
| ExInlineAsm (asm : FunctionInlineAsm)
| ExAtomic (atomic : FunctionAtomic)
| ExLoadUnaligned (ty : InternedTyId) (ptr : FunctionExpr)
| ExSplat (value : FunctionExpr)
| ExExtractElement (vector index : FunctionExpr)
| ExInsertElement (vector index value : FunctionExpr)
| ExBitmask (vector : FunctionExpr)
| ExBitIntrinsic (op : FunctionBitIntrinsicOp) (value : FunctionExpr)
| ExCharFromU32 (value : FunctionExpr)
| ExStaticArrayPointer (allocation : PromotedAllocationId) (array : FunctionExpr)
    (is_readonly : bool)
| ExArrayLiteral (elems : FunctionArrayElements)
| ExTuple (elems : list FunctionExpr)
| ExTupleField (value : FunctionExpr) (index : nat)
| ExStructLiteral (def : GlobalDefId) (fields : list FunctionFieldInit)
| ExUnionLiteral (def : GlobalDefId) (field : FunctionFieldInit)
| ExUnionStorageLiteral (bytes : list (option Z)) (relocations : list FunctionUnionRelocation)
| ExUnary (op : UnaryOp) (expr : FunctionExpr)
| ExOptionalSome (expr : FunctionExpr)
| ExErrorOk (expr : FunctionExpr)
| ExErrorErr (expr : FunctionExpr)
| ExTaggedUnionTag (expr : FunctionExpr)
| ExTaggedUnionPayload (expr : FunctionExpr)
| ExTry (expr : FunctionExpr)
| ExAddrOf (place : FunctionPlace)
| ExBinary (lhs : FunctionExpr) (op : BinaryOp) (rhs : FunctionExpr)
| ExAssign (place : FunctionPlace) (op : AssignOp) (rhs : FunctionExpr)
| ExDiscard (expr : FunctionExpr)
| ExCast (expr : FunctionExpr) (ty : InternedTyId)
| ExTraitObjectUpcast (expr : FunctionExpr) (source_ty target_ty : InternedTyId)
| ExTraitObjectCoercion (expr : FunctionExpr) (target_ty self_ty : InternedTyId)
| ExCallableCoercion (state : FunctionExpr) (closure : ClosureId)
| ExFunctionCallable (function : FunctionExpr)
| ExClosureFunctionPointer (closure : ClosureId)
| ExCall (callee : FunctionCallee) (args : list FunctionExpr)
| ExField (lhs : FunctionExpr) (field : GlobalDefId)
| ExIndex (lhs index : FunctionExpr)
| ExSlice (lhs : FunctionExpr) (range : FunctionSliceRange) (is_readonly : bool)
with FunctionUnionRelocation :=
| mkRelocation (offset width : Z) (allocation : PromotedAllocationId) (pointee : FunctionExpr)
with FunctionSliceRange :=
| mkSliceRange (first last : option FunctionExpr) (inclusive : bool)
with FunctionRange :=
| mkRange (first last : option FunctionExpr) (inclusive : bool)
with FunctionInlineAsm :=
| mkAsm (code : list Z) (inputs : list FunctionAsmInput) (outputs : list FunctionAsmOutput)
    (clobbers : list (list Z)) (options : list FunctionAsmOption)
with FunctionAsmInput := mkAsmInput (constraint : list Z) (value : FunctionExpr) (span : Span)
with FunctionAsmOutput := mkAsmOutput (constraint : list Z) (place : FunctionPlace) (span : Span)
with FunctionAtomic :=
| AtLoad (ty : InternedTyId) (ptr : FunctionExpr) (order : AtomicOrder)
| AtStore (ty : InternedTyId) (ptr value : FunctionExpr) (order : AtomicOrder)
| AtRmw (ty : InternedTyId) (ptr : FunctionExpr) (op : AtomicRmwOp) (value : FunctionExpr)
    (order : AtomicOrder)
| AtCmpxchg (ty : InternedTyId) (ptr expected desired : FunctionExpr)
    (success failure : AtomicOrder) (weak : bool)
| AtFence (order : AtomicOrder)
with FunctionArrayElements :=
| ElemsList (elems : list FunctionExpr)
| ElemsRepeat (value : FunctionExpr) (count : ArrayLenTy)
with FunctionFieldInit :=
| mkFieldInit (field : option GlobalDefId) (name : list Z) (value : FunctionExpr) (span : Span)
with FunctionCallee :=
| CeTracked (callee : FunctionCallee) (location : SourceLocation)
| CeClosureEntry (closure : ClosureId) (state : FunctionExpr)
| CeFunction (def : GlobalDefId)
| CeFunctionInstance (def : GlobalDefId) (arg_module : ModuleId) (self_arg : option InternedTyId)
    (args : list InternedTyId) (const_args : list ConstGenericArg)
| CeMethod (def : GlobalDefId) (arg_module : ModuleId) (self_arg : option InternedTyId)
    (args : list InternedTyId) (const_args : list ConstGenericArg) (receiver_kind : ReceiverKind)
    (receiver : FunctionExpr)
| CeTraitMethod (trait_id method_id : GlobalDefId) (method_name : SymbolId)
    (self_ty : InternedTyId) (trait_args : list InternedTyId)
    (trait_const_args : list ConstGenericArg) (args : list InternedTyId)
    (const_args : list ConstGenericArg) (receiver_kind : ReceiverKind) (receiver : FunctionExpr)
| CeTraitAssociatedFunction (trait_id method_id : GlobalDefId) (method_name : SymbolId)
    (self_ty : InternedTyId) (trait_args : list InternedTyId)
    (trait_const_args : list ConstGenericArg) (args : list InternedTyId)
    (const_args : list ConstGenericArg)
| CeDynamicTraitMethod (object_ty : InternedTyId) (trait_id : TraitId) (method_id : GlobalDefId)
    (method_name : SymbolId) (trait_args : list InternedTyId)
    (trait_const_args : list ConstGenericArg) (slot : nat) (params : list InternedTyId)
    (return_type : InternedTyId) (receiver_kind : ReceiverKind) (receiver : FunctionExpr)
| CeBuiltinMethod (method : FunctionBuiltinMethod) (self_ty : InternedTyId)
    (receiver : FunctionExpr)
| CeBuiltinTraitMethodCall (trait_id : BuiltinTrait) (method : BuiltinTraitMethod)
    (self_ty : InternedTyId) (trait_args : list InternedTyId) (receiver : FunctionExpr)
| CeBuiltinOperator (operator : FunctionBuiltinOperator)
| CeCallable (callable : FunctionExpr)
| CeFunctionPointer (pointer : FunctionExpr)
with FunctionPlace :=
| mkPlace (span : Span) (ty : InternedTyId) (base : FunctionPlaceBase)
    (elems : list FunctionPlaceElem)
with FunctionPlaceBase :=
| PbLocal (local : LocalId)
| PbGlobal (def : GlobalDefId)
| PbGlobalInstance (def : GlobalDefId) (arg_module : ModuleId) (args : list InternedTyId)
    (const_args : list ConstGenericArg)
| PbDeref (pointer : FunctionExpr)
| PbError
with FunctionPlaceElem :=
| PeField (field : GlobalDefId)
| PeTupleField (index : nat)
| PeIndex (index : FunctionExpr)
| PeError.

Definition expr_span (e : FunctionExpr) : Span := let 'mkExpr span _ _ := e in span.
Definition expr_ty (e : FunctionExpr) : InternedTyId := let 'mkExpr _ ty _ := e in ty.
Definition expr_kind (e : FunctionExpr) : FunctionExprKind := let 'mkExpr _ _ kind := e in kind.

(** ** Blocks, operations and bodies *)

Inductive FunctionLocalKind := LkParam | LkMutableBinding | LkImmutableBinding.
#[global] Instance FunctionLocalKind_eq_dec : EqDecision FunctionLocalKind.
Proof. solve_decision. Defined.

Record FunctionLocal := mkLocal {
  local_id : LocalId;
  local_name : LocalName;
  local_kind : FunctionLocalKind;
  local_ty : InternedTyId;
  local_span : Span }.

Record FunctionScope := mkScope {
  scope_id : FunctionScopeId; parent : option FunctionScopeId; scope_span : Span }.

Record FunctionBinding := mkBinding {
  binding_local : LocalId;
  binding_name : LocalName;
  binding_ty : InternedTyId;
  binding_value : option FunctionExpr;
  is_let : bool }.

Inductive FunctionMemoryIntrinsicSource := SrcSlice (e : FunctionExpr) | SrcByte (e : FunctionExpr).
Record FunctionMemoryIntrinsic := mkMemory {
  memory_span : Span;
  memory_op : FunctionMemoryIntrinsicOp;
  memory_elem_ty : InternedTyId;
  memory_dest : FunctionExpr;
  memory_source : FunctionMemoryIntrinsicSource }.

Inductive FunctionForHeader := HeaderInfinite | HeaderCondition (cond : FunctionExpr).
Record FunctionSwitchArm := mkArm { arm_pattern : FunctionExpr; arm_target : FunctionBlockId }.

Inductive FunctionTerminator :=
| TmError (span : Span)
| TmBranch (target : FunctionBlockId) (span : Span)
| TmNext (target : FunctionBlockId) (span : Span)
| TmIf (cond : FunctionExpr) (then_target else_target : FunctionBlockId) (span : Span)
| TmSwitch (target : FunctionExpr) (arms : list FunctionSwitchArm)
    (default : option FunctionBlockId) (fallback : FunctionBlockId) (span : Span)
| TmTry (value : FunctionExpr) (kind : FunctionTryKind) (error_conversion : option FunctionExpr)
    (success_local : LocalId) (success_target : FunctionBlockId) (span : Span)
| TmLoop (header : FunctionForHeader) (body continue_target break_target : FunctionBlockId)
    (span : Span)
| TmReturn (value : option FunctionExpr) (span : Span)
| TmTail (value : option FunctionExpr) (span : Span).

(** Operations, [defer] bodies and blocks, in one mutual block. *)
Inductive FunctionOp :=
| OpBinding (binding : FunctionBinding)
| OpStoreLocal (local : LocalId) (value : FunctionExpr) (span : Span)
| OpMemoryIntrinsic (memory : FunctionMemoryIntrinsic)
| OpExpr (expr : FunctionExpr)
| OpDefer (body : FunctionDeferBody)
with FunctionDeferBody :=
| mkDefer (span : Span) (scopes : list FunctionScope) (blocks : list FunctionBlock)
    (entry : FunctionBlockId)
with FunctionBlock :=
| mkBlock (id : FunctionBlockId) (scope : FunctionScopeId) (span : Span) (ops : list FunctionOp)
    (terminator : FunctionTerminator).

Definition block_id (b : FunctionBlock) : FunctionBlockId := let 'mkBlock id _ _ _ _ := b in id.
Definition block_scope (b : FunctionBlock) : FunctionScopeId :=
  let 'mkBlock _ scope _ _ _ := b in scope.
Definition block_span (b : FunctionBlock) : Span := let 'mkBlock _ _ span _ _ := b in span.
Definition block_ops (b : FunctionBlock) : list FunctionOp := let 'mkBlock _ _ _ ops _ := b in ops.
Definition terminator (b : FunctionBlock) : FunctionTerminator :=
  let 'mkBlock _ _ _ _ t := b in t.

Definition defer_span (d : FunctionDeferBody) : Span := let 'mkDefer span _ _ _ := d in span.
Definition defer_scopes (d : FunctionDeferBody) : list FunctionScope :=
  let 'mkDefer _ scopes _ _ := d in scopes.
Definition defer_blocks (d : FunctionDeferBody) : list FunctionBlock :=
  let 'mkDefer _ _ blocks _ := d in blocks.
Definition defer_entry (d : FunctionDeferBody) : FunctionBlockId := let 'mkDefer _ _ _ e := d in e.

Record FunctionBody := mkBody {
  body_span : Span;
  locals : list FunctionLocal;
  scopes : list FunctionScope;
  blocks : list FunctionBlock;
  entry : FunctionBlockId;
  body_ty : InternedTyId }.

Record FunctionClosureEntry := mkClosureEntry {
  entry_closure : ClosureId;
  state_ty : InternedTyId;
  state_param : LocalId;
  params : list LocalId;
  return_type : InternedTyId;
  closure_body : FunctionBody }.

(** The blocks of a body replaced, everything else kept: what an in-place pass does. *)

Definition with_blocks (body : FunctionBody) (bl : list FunctionBlock) : FunctionBody :=
  mkBody (body_span body) (locals body) (scopes body) bl (entry body) (body_ty body).

(** ** Edges of a terminator *)

Definition successors (t : FunctionTerminator) : list FunctionBlockId :=
  match t with
  | TmError _ | TmReturn _ _ | TmTail _ _ => []
  | TmBranch target _ | TmNext target _ => [target]
  | TmIf _ then_target else_target _ => [then_target; else_target]
  | TmSwitch _ arms default fallback _ =>
      map arm_target arms ++ [match default with Some d => d | None => fallback end]
  | TmTry _ _ _ _ success_target _ => [success_target]
  | TmLoop _ body _ break_target _ => [body; break_target]
  end.

Definition referenced_blocks (t : FunctionTerminator) : list FunctionBlockId :=
  match t with
  | TmError _ | TmReturn _ _ | TmTail _ _ => []
  | TmBranch target _ | TmNext target _ => [target]
  | TmTry _ _ _ _ success_target _ => [success_target]
  | TmIf _ then_target else_target _ => [then_target; else_target]
  | TmSwitch _ arms default fallback _ =>
      map arm_target arms ++ option_list default ++ [fallback]
  | TmLoop _ body continue_target break_target _ => [body; continue_target; break_target]
  end.

(** ** Lexical scopes

    [scope_chain_to_root] follows parents; on a table with a parent cycle the
    source's loop does not end, which the fuel makes visible: [None] is the missing
    result, [Some None] the source's [None].  [FnValidate] shows that the loop ends
    on every table the validator accepts. *)

Definition find_scope (scopes : list FunctionScope) (id : FunctionScopeId) :
    option FunctionScope :=
  List.find (λ s, scope_id s =? id) scopes.

Fixpoint scope_chain_loop (fuel : nat) (scopes : list FunctionScope) (chain : list FunctionScopeId)
    (current : option FunctionScopeId) : option (option (list FunctionScopeId)) :=
  match current with
  | None => Some (Some chain)
  | Some scope =>
      match fuel with
      | O => None
      | S fuel =>
          match find_scope scopes scope with
          | None => Some None
          | Some candidate =>
              scope_chain_loop fuel scopes (chain ++ [scope]) (parent candidate)
          end
      end
  end.

Definition scope_chain_to_root (scopes : list FunctionScope) (scope : FunctionScopeId) :
    option (option (list FunctionScopeId)) :=
  scope_chain_loop (S (length scopes)) scopes [] (Some scope).

Fixpoint take_until (lca : option FunctionScopeId) (chain : list FunctionScopeId) :
    list FunctionScopeId :=
  match chain with
  | [] => []
  | scope :: rest => if bool_decide (Some scope = lca) then [] else scope :: take_until lca rest
  end.

Definition contains_id (id : Z) (l : list Z) : bool := existsb (Z.eqb id) l.

Definition exited_scopes_between (scopes : list FunctionScope) (from : FunctionScopeId)
    (to : option FunctionScopeId) : option (option (list FunctionScopeId)) :=
  match scope_chain_to_root scopes from with
  | None => None
  | Some None => Some None
  | Some (Some from_chain) =>
      match to with
      | None => Some (Some (take_until None from_chain))
      | Some to =>
          match scope_chain_to_root scopes to with
          | None => None
          | Some None => Some None
          | Some (Some to_chain) =>
              match List.find (λ scope, contains_id scope to_chain) from_chain with
              | None => Some None
              | Some lca => Some (Some (take_until (Some lca) from_chain))
              end
          end
      end
  end.

Definition find_block (bl : list FunctionBlock) (id : FunctionBlockId) : option FunctionBlock :=
  List.find (λ b, block_id b =? id) bl.

Definition edge_exited_scopes (scopes : list FunctionScope) (bl : list FunctionBlock)
    (from to : FunctionBlockId) : option (option (list FunctionScopeId)) :=
  match find_block bl from, find_block bl to with
  | Some from, Some to => exited_scopes_between scopes (block_scope from) (Some (block_scope to))
  | _, _ => Some None
  end.

Definition return_exited_scopes (scopes : list FunctionScope) (bl : list FunctionBlock)
    (from : FunctionBlockId) : option (option (list FunctionScopeId)) :=
  match find_block bl from with
  | Some from => exited_scopes_between scopes (block_scope from) None
  | None => Some None
  end.
