(* ===== verification/FnValidate.v ===== *)
(** * nia-function-ir: structural validation of function bodies
      ([crates/nia-function-ir/src/validate.rs])

    The validator walks every block, operation, terminator and expression of a body
    and of the [defer] bodies nested in it; the first violation is its result.  Its
    hash sets of ids are [gset]s and its table of scope parents a [gmap]; the walk of
    a parent chain with a slow and a fast pointer is the one loop that is not
    structural, and has the number of scopes as fuel. *)

From stdpp Require Import gmap pretty finite.
From Stdlib Require Import FunctionalExtensionality.
From S2P Require Import Prelude RustStd Lexer Literals Ty FnIr.

Record FunctionIrError := mkIrError { error_span : Span; error_message : string }.
Notation Checked := (Result FunctionIrError ()).

Definition fails {A} (span : Span) (message : string) : Result FunctionIrError A :=
  Err (mkIrError span message).

(** [for x in xs { f(x)?; }] *)
Definition try_each {A} (f : A → Checked) : list A → Checked :=
  fix go xs := match xs with [] => Ok () | x :: xs => f x ;; go xs end.

Definition try_opt {A} (f : A → Checked) (x : option A) : Checked :=
  match x with Some x => f x | None => Ok () end.

Definition terminator_span (t : FunctionTerminator) : Span :=
  match t with
  | TmError span | TmBranch _ span | TmNext _ span | TmIf _ _ _ span | TmSwitch _ _ _ _ span
  | TmTry _ _ _ _ _ span | TmLoop _ _ _ _ span | TmReturn _ span | TmTail _ span => span
  end.

Definition value_span (b : FunctionBinding) : Span :=
  match binding_value b with Some e => expr_span e | None => mkSpan 0 0 end.

(** ** Expressions *)

Definition atomic_is_effect_only (a : FunctionAtomic) : bool :=
  match a with AtStore _ _ _ _ | AtFence _ => true | _ => false end.

Definition is_effect_only_expr (e : FunctionExpr) : bool :=
  match expr_kind e with
  | ExTrap | ExInlineAsm _ | ExDiscard _ => true
  | ExAtomic a => atomic_is_effect_only a
  | _ => false
  end.

Definition require_local (local_ids : gset Z) (id : LocalId) (span : Span) (what : string) :
    Checked :=
  if bool_decide (id ∈ local_ids) then Ok ()
  else fails span (what ++ " references missing local `" ++ pretty id ++ "`").

Section Expressions.
Context (local_ids : gset Z).

(** With [validate_atomic], [validate_callee] and [validate_place]. *)
Fixpoint validate_expr (e : FunctionExpr) : Checked :=
  let span := expr_span e in
  let value := λ e : FunctionExpr,
    if is_effect_only_expr e
    then fails (expr_span e) "effect-only expression used where a value is required"
    else validate_expr e in
  let bounds := λ first last : option FunctionExpr, try_opt value first ;; try_opt value last in
  match expr_kind e with
  | ExLocal id => require_local local_ids id span "local expression"
  | ExStaticArrayPointer _ array is_readonly =>
      if negb is_readonly then fails span "static array pointer must be readonly" else value array
  | ExUnary _ e | ExOptionalSome e | ExErrorOk e | ExErrorErr e | ExTaggedUnionTag e
  | ExTaggedUnionPayload e | ExTry e | ExLoadUnaligned _ e | ExSplat e | ExBitmask e
  | ExBitIntrinsic _ e | ExCharFromU32 e | ExCast e _ | ExTraitObjectUpcast e _ _
  | ExTraitObjectCoercion e _ _ => value e
  | ExCallableCoercion state _ => value state
  | ExFunctionCallable function => value function
  | ExDiscard e => validate_expr e
  | ExRange (mkRange first last _) => bounds first last
  | ExRangeBound range _ => value range
  | ExAddrOf place => validate_place place
  | ExArrayLiteral (ElemsList elems) => try_each value elems
  | ExArrayLiteral (ElemsRepeat e _) => value e
  | ExTuple elems => try_each value elems
  | ExTupleField e _ => value e
  | ExStructLiteral _ fields =>
      try_each (λ f, let 'mkFieldInit _ _ e _ := f in value e) fields
  | ExUnionLiteral _ (mkFieldInit _ _ e _) => value e
  | ExUnionStorageLiteral bytes relocations =>
      (fix go (previous_end : Z) (rs : list FunctionUnionRelocation) : Checked :=
         match rs with
         | [] => Ok ()
         | mkRelocation offset width _ pointee :: rs =>
             if width =? 0 then fails span "union storage relocation has zero width"
             else
               match checked_add_usize offset width with
               | None => fails span "union storage relocation range overflows"
               | Some finish =>
                   if Z.of_nat (length bytes) <? finish
                   then fails span "union storage relocation is out of bounds"
                   else if offset <? previous_end
                   then fails span "union storage relocations overlap or are not sorted"
                   else if existsb (λ b, match b with None => true | Some _ => false end)
                             (slice bytes (Z.to_nat offset) (Z.to_nat finish))
                   then fails span "union storage relocation covers uninitialized bytes"
                   else value pointee ;; go finish rs
               end
         end) 0 relocations
  | ExBinary lhs _ rhs | ExIndex lhs rhs | ExExtractElement lhs rhs => value lhs ;; value rhs
  | ExInsertElement vector index e => value vector ;; value index ;; value e
  | ExAssign place _ rhs => validate_place place ;; value rhs
  | ExCall callee args => validate_callee callee ;; try_each value args
  | ExField lhs _ => value lhs
  | ExSlice lhs (mkSliceRange first last _) _ => value lhs ;; bounds first last
  | ExInlineAsm (mkAsm _ inputs outputs _ _) =>
      try_each (λ i, let 'mkAsmInput _ e _ := i in value e) inputs ;;
      try_each (λ o, let 'mkAsmOutput _ place _ := o in validate_place place) outputs
  | ExAtomic atomic => validate_atomic atomic
  | ExEnumVariant _ fields => try_each value fields
  | ExEnumTag e | ExEnumPayloadField e _ _ => value e
  | ExError => fails span "error expression escaped into function IR"
  | ExInteger _ | ExFloat _ | ExString _ | ExByteString _ | ExChar _ | ExByteChar _ | ExBool _
  | ExNull | ExConstGeneric _ | ExAssociatedConstProjection _ | ExGlobal _
  | ExGlobalInstance _ _ _ _ | ExFunction _ | ExEnumConstructor _ | ExFunctionInstance _ _ _ _ _
  | ExClosureFunctionPointer _ | ExEnumVariantTag _ | ExBuiltinValue _ | ExCallerLocation _
  | ExTrap => Ok ()
  end
with validate_atomic (a : FunctionAtomic) : Checked :=
  let value := λ e : FunctionExpr,
    if is_effect_only_expr e
    then fails (expr_span e) "effect-only expression used where a value is required"
    else validate_expr e in
  match a with
  | AtLoad _ ptr _ => value ptr
  | AtStore _ ptr v _ | AtRmw _ ptr _ v _ => value ptr ;; value v
  | AtCmpxchg _ ptr expected desired _ _ _ => value ptr ;; value expected ;; value desired
  | AtFence _ => Ok ()
  end
with validate_callee (c : FunctionCallee) : Checked :=
  match c with
  | CeTracked callee _ => validate_callee callee
  | CeClosureEntry _ e | CeMethod _ _ _ _ _ _ e | CeTraitMethod _ _ _ _ _ _ _ _ _ e
  | CeBuiltinMethod _ _ e | CeBuiltinTraitMethodCall _ _ _ _ e
  | CeDynamicTraitMethod _ _ _ _ _ _ _ _ _ _ e | CeCallable e | CeFunctionPointer e =>
      if is_effect_only_expr e
      then fails (expr_span e) "effect-only expression used where a value is required"
      else validate_expr e
  | CeFunction _ | CeFunctionInstance _ _ _ _ _ | CeTraitAssociatedFunction _ _ _ _ _ _ _ _
  | CeBuiltinOperator _ => Ok ()
  end
with validate_place (p : FunctionPlace) : Checked :=
  let 'mkPlace span _ base elems := p in
  let value := λ e : FunctionExpr,
    if is_effect_only_expr e
    then fails (expr_span e) "effect-only expression used where a value is required"
    else validate_expr e in
  match base with
  | PbLocal id => require_local local_ids id span "place local"
  | PbDeref e => value e
  | PbError => fails span "error place escaped into function IR"
  | PbGlobal _ | PbGlobalInstance _ _ _ _ => Ok ()
  end ;;
  try_each (λ elem,
    match elem with
    | PeIndex index => value index
    | PeError => fails span "error place element escaped into function IR"
    | PeField _ | PeTupleField _ => Ok ()
    end) elems.

Definition validate_value_expr (e : FunctionExpr) : Checked :=
  if is_effect_only_expr e
  then fails (expr_span e) "effect-only expression used where a value is required"
  else validate_expr e.

(** ** Operations and terminators *)

Definition validate_op (op : FunctionOp) : Checked :=
  match op with
  | OpBinding b =>
      require_local local_ids (binding_local b) (value_span b) "binding local" ;;
      try_opt validate_value_expr (binding_value b)
  | OpStoreLocal id e span =>
      require_local local_ids id span "store local" ;; validate_value_expr e
  | OpMemoryIntrinsic m =>
      validate_value_expr (memory_dest m) ;;
      match memory_source m with SrcSlice e | SrcByte e => validate_value_expr e end
  | OpExpr e => validate_expr e
  | OpDefer _ => Ok ()
  end.

Definition validate_for_header (h : FunctionForHeader) : Checked :=
  match h with HeaderInfinite => Ok () | HeaderCondition cond => validate_value_expr cond end.

Definition validate_terminator_payload (t : FunctionTerminator) : Checked :=
  match t with
  | TmIf cond _ _ _ => validate_value_expr cond
  | TmSwitch target arms _ _ _ =>
      validate_value_expr target ;; try_each (λ arm, validate_value_expr (arm_pattern arm)) arms
  | TmTry value kind error_conversion success_local _ _ =>
      validate_value_expr value ;;
      (if bool_decide (kind = TryOptional) && bool_decide (is_Some error_conversion)
       then fails (expr_span value) "optional propagation cannot carry an error conversion"
       else Ok ()) ;;
      try_opt validate_value_expr error_conversion ;;
      require_local local_ids success_local (expr_span value) "try success local"
  | TmLoop header _ _ _ _ => validate_for_header header
  | TmReturn value _ | TmTail value _ => try_opt validate_value_expr value
  | TmError _ | TmBranch _ _ | TmNext _ _ => Ok ()
  end.
End Expressions.

(** ** The validator of one block table *)

Record FunctionIrValidator := mkValidator {
  v_scopes : list FunctionScope;
  v_blocks : list FunctionBlock;
  v_entry : FunctionBlockId;
  local_ids : gset Z;
  scope_parents : gmap Z (option Z);
  block_ids : gset Z }.

(** The id sets of [FunctionIrValidator::new]: an id that is already there is an error. *)
Definition collect_ids {A} (id : A → Z) (span : A → Span) (message : string) :
    gset Z → list A → Result FunctionIrError (gset Z) :=
  fix go seen xs :=
    match xs with
    | [] => Ok seen
    | x :: xs =>
        if bool_decide (id x ∈ seen) then fails (span x) message else go ({[id x]} ∪ seen) xs
    end.

Fixpoint collect_parents (m : gmap Z (option Z)) (xs : list FunctionScope) :
    Result FunctionIrError (gmap Z (option Z)) :=
  match xs with
  | [] => Ok m
  | s :: xs =>
      if bool_decide (is_Some (m !! scope_id s)) then fails (scope_span s) "duplicate function scope id"
      else collect_parents (<[scope_id s := parent s]> m) xs
  end.

Definition validator_new (ls : list FunctionLocal) (scs : list FunctionScope)
    (bl : list FunctionBlock) (e : FunctionBlockId) : Result FunctionIrError FunctionIrValidator :=
  ids ← collect_ids local_id local_span "duplicate function local id" ∅ ls;
  parents ← collect_parents ∅ scs;
  bids ← collect_ids block_id block_span "duplicate function block id" ∅ bl;
  Ok (mkValidator scs bl e ids parents bids).

Section Validator.
Context (v : FunctionIrValidator).

Definition require_scope (scope : FunctionScopeId) (span : Span) (what : string) : Checked :=
  if bool_decide (is_Some (scope_parents v !! scope)) then Ok ()
  else fails span (what ++ " references missing scope `" ++ pretty scope ++ "`").

Definition require_block (b : FunctionBlockId) (span : Span) (what : string) : Checked :=
  if bool_decide (b ∈ block_ids v) then Ok ()
  else fails span (what ++ " references missing block `" ++ pretty b ++ "`").

Definition scope_parent (scope : FunctionScopeId) : option FunctionScopeId :=
  match scope_parents v !! scope with Some p => p | None => None end.

(** [while let (Some(slow_id), Some(fast_id)) = (slow, fast)] *)
Fixpoint chain_loop (fuel : nat) (span : Span) (slow fast : option FunctionScopeId) :
    option Checked :=
  match slow, fast with
  | Some slow_id, Some fast_id =>
      if slow_id =? fast_id then Some (fails span "scope parent chain contains a cycle")
      else
        match fuel with
        | O => None
        | S fuel =>
            chain_loop fuel span (scope_parent slow_id) (scope_parent fast_id ≫= scope_parent)
        end
  | _, _ => Some (Ok ())
  end.

(** [None] would be a walk that does not end; [chain_check_exact] shows that there is none. *)
Definition scope_chain_check (scope : FunctionScope) : option Checked :=
  let slow := scope_parent (scope_id scope) in
  chain_loop (S (length (v_scopes v))) (scope_span scope) slow (slow ≫= scope_parent).

Definition validate_scope_parent_chain (scope : FunctionScope) : Checked :=
  default (Ok ()) (scope_chain_check scope).

Definition validate_body_shape (span : Span) : Checked :=
  require_block (v_entry v) span "function entry block" ;;
  try_each (λ scope,
    match parent scope with
    | Some p =>
        require_scope p (scope_span scope) "scope parent" ;;
        if p =? scope_id scope then fails (scope_span scope) "scope cannot parent itself" else Ok ()
    | None => Ok ()
    end ;;
    validate_scope_parent_chain scope) (v_scopes v) ;;
  try_each (λ b, require_scope (block_scope b) (block_span b) "block scope") (v_blocks v).

Definition validate_terminator (t : FunctionTerminator) : Checked :=
  try_each (λ target, require_block target (terminator_span t) "terminator") (referenced_blocks t) ;;
  validate_terminator_payload (local_ids v) t.

Definition validate_body (span : Span) : Checked :=
  validate_body_shape span ;;
  try_each (λ b,
    try_each (validate_op (local_ids v)) (block_ops b) ;; validate_terminator (terminator b))
    (v_blocks v).

(** The blocks of the enclosing tables, which a terminator of a [defer] body may target. *)
Definition validate_defer_terminator (outer : FunctionBlockId → bool) (t : FunctionTerminator) :
    Checked :=
  try_each (λ target,
    if negb (bool_decide (target ∈ block_ids v)) && negb (outer target)
    then fails (terminator_span t) ("terminator references missing block `" ++ pretty target ++ "`")
    else Ok ()) (referenced_blocks t) ;;
  validate_terminator_payload (local_ids v) t.

Definition validate_defer_body (span : Span) (outer : FunctionBlockId → bool) : Checked :=
  validate_body_shape span ;;
  try_each (λ b,
    try_each (validate_op (local_ids v)) (block_ops b) ;;
    validate_defer_terminator outer (terminator b)) (v_blocks v).
End Validator.

(** ** Bodies *)

Definition in_namespace (ids : gset Z) (outer : FunctionBlockId → bool) (id : FunctionBlockId) :
    bool :=
  bool_decide (id ∈ ids) || outer id.

(** The [defer] bodies of a block, innermost tables last. *)
Fixpoint validate_nested (ls : list FunctionLocal) (outer : FunctionBlockId → bool)
    (b : FunctionBlock) : Checked :=
  try_each (λ op,
    match op with
    | OpDefer (mkDefer span scs bl e) =>
        v ← validator_new ls scs bl e;
        validate_defer_body v span outer ;;
        try_each (validate_nested ls (in_namespace (block_ids v) outer)) bl
    | _ => Ok ()
    end) (block_ops b).

Definition validate_function_defer_body_with_outer_blocks (ls : list FunctionLocal)
    (body : FunctionDeferBody) (outer : FunctionBlockId → bool) : Checked :=
  let 'mkDefer span scs bl e := body in
  v ← validator_new ls scs bl e;
  validate_defer_body v span outer ;;
  try_each (validate_nested ls (in_namespace (block_ids v) outer)) bl.

Definition validate_function_defer_body (ls : list FunctionLocal) (body : FunctionDeferBody) :
    Checked :=
  validate_function_defer_body_with_outer_blocks ls body (λ _, false).

Definition validate_function_body (body : FunctionBody) : Checked :=
  v ← validator_new (locals body) (scopes body) (blocks body) (entry body);
  validate_body v (body_span body) ;;
  try_each (validate_nested (locals body) (in_namespace (block_ids v) (λ _, false))) (blocks body).

Definition require_closure_param_local (body : FunctionBody) (id : LocalId) (what : string) :
    Result FunctionIrError FunctionLocal :=
  ok_or (List.find (λ l, local_id l =? id) (locals body))
    (mkIrError (body_span body)
       ("closure entry " ++ what ++ " references missing local `" ++ pretty id ++ "`")).

Fixpoint validate_closure_params (body : FunctionBody) (seen : gset Z) (ps : list LocalId) :
    Result FunctionIrError (gset Z) :=
  match ps with
  | [] => Ok seen
  | p :: ps =>
      if bool_decide (p ∈ seen)
      then fails (body_span body) "closure entry parameter list contains a duplicate local"
      else
        l ← require_closure_param_local body p "parameter";
        if bool_decide (local_kind l = LkParam) then validate_closure_params body ({[p]} ∪ seen) ps
        else fails (local_span l) "closure entry parameter local is not a parameter"
  end.

Definition validate_function_closure_entry (e : FunctionClosureEntry) : Checked :=
  let body := closure_body e in
  validate_function_body body ;;
  (if bool_decide (body_ty body = return_type e) then Ok ()
   else fails (body_span body) "closure entry body type does not match its declared return type") ;;
  state ← require_closure_param_local body (state_param e) "state parameter";
  (if bool_decide (local_kind state = LkParam) then Ok ()
   else fails (local_span state) "closure entry state local is not a parameter") ;;
  seen ← validate_closure_params body {[state_param e]} (params e);
  match List.find (λ l, bool_decide (local_kind l = LkParam) &&
                        negb (bool_decide (local_id l ∈ seen))) (locals body) with
  | Some unmapped =>
      fails (local_span unmapped)
        ("closure entry body contains unmapped parameter local `" ++ pretty (local_id unmapped) ++ "`")
  | None => Ok ()
  end.

(** ** What an accepted walk says *)

Lemma check_then (a b : Checked) : (a ;; b) = Ok () ↔ a = Ok () ∧ b = Ok ().
Proof. destruct a as [[]|e]; simpl; split; naive_solver. Qed.

Lemma try_each_ok {A} (f : A → Checked) xs : try_each f xs = Ok () ↔ Forall (λ x, f x = Ok ()) xs.
Proof.
  induction xs as [|x xs IH]; [by split|].
  change (try_each f (x :: xs)) with (f x ;; try_each f xs). by rewrite check_then, IH, Forall_cons.
Qed.

Lemma check_if (b : bool) (a : Checked) e :
  (if b then a else Err e) = Ok () ↔ b = true ∧ a = Ok ().
Proof. destruct b; naive_solver. Qed.

Lemma collect_ids_ok {A} (id : A → Z) span message seen xs out :
  collect_ids id span message seen xs = Ok out ↔
  NoDup (map id xs) ∧ (∀ x, x ∈ map id xs → x ∉ seen) ∧ out = list_to_set (map id xs) ∪ seen.
Proof.
  revert seen. induction xs as [|x xs IH]; intros seen; simpl.
  - split; [intros [= ->]|intros (_ & _ & ->)]; [|f_equal; set_solver].
    split_and!; [constructor|set_solver|set_solver].
  - case_bool_decide as Hin.
    + split; [done|]. intros (_ & Hnot & _). exfalso. apply (Hnot (id x)); [|done]. by left.
    + rewrite IH. rewrite NoDup_cons. split.
      * intros (Hnd & Hnot & ->). split_and!; set_solver.
      * intros ([Hx Hnd] & Hnot & ->). split_and!; [done|set_solver|set_solver].
Qed.

Lemma collect_parents_ok m xs out :
  collect_parents m xs = Ok out →
  NoDup (map scope_id xs) ∧ (∀ s, s ∈ xs → m !! scope_id s = None) ∧
  ∀ k, out !! k = match find_scope xs k with Some s => Some (parent s) | None => m !! k end.
Proof.
  revert m. induction xs as [|s xs IH]; intros m; simpl.
  - intros [= ->]. split_and!; [constructor|set_solver|done].
  - case_bool_decide as Hin; [done|]. intros (Hnd & Hnot & Hout)%IH.
    rewrite <- eq_None_not_Some in Hin.
    assert (Hs : scope_id s ∉ map scope_id xs).
    { rewrite list_elem_of_In, in_map_iff. intros (s' & Heq & Hs'%list_elem_of_In).
      specialize (Hnot s' Hs'). rewrite Heq, lookup_insert_eq in Hnot. done. }
    split_and!; [by constructor| |].
    + intros s' [->|Hs']%elem_of_cons; [done|]. specialize (Hnot s' Hs').
      by apply lookup_insert_None in Hnot as [? _].
    + intros k. rewrite Hout. unfold find_scope; simpl.
      destruct (Z.eqb_spec (scope_id s) k) as [<-|Hne].
      * destruct (List.find _ xs) as [s'|] eqn:Hf; [|by rewrite lookup_insert_eq].
        apply find_some in Hf as [Hs' Heq%Z.eqb_eq]. exfalso. apply Hs. rewrite <- Heq.
        apply list_elem_of_In. by apply in_map.
      * destruct (List.find _ xs); [done|]. by rewrite lookup_insert_ne.
Qed.

(** ** Chains of parents

    [ancestor up s i] is the scope [i] parents above [s]. *)

Section Chains.
Context (up : Z → option Z) (ids : list Z).
Hypothesis up_inside : ∀ s p, up s = Some p → s ∈ ids.

Fixpoint ancestor (s : Z) (i : nat) : option Z :=
  match i with O => Some s | S i => ancestor s i ≫= up end.

Lemma ancestor_add s i j :
  ancestor s (i + j) = (ancestor s i ≫= λ x, ancestor x j).
Proof.
  induction j as [|j IH]; simpl; [rewrite Nat.add_0_r; by destruct (ancestor s i)|].
  rewrite Nat.add_succ_r. simpl. rewrite IH. by destruct (ancestor s i).
Qed.

Lemma ancestor_None_le s i j : (i ≤ j)%nat → ancestor s i = None → ancestor s j = None.
Proof. intros Hle Hi. replace j with (i + (j - i))%nat by lia. by rewrite ancestor_add, Hi. Qed.

(** A scope met again repeats for ever. *)
Lemma ancestor_period s x i k q :
  ancestor s i = Some x → ancestor s (i + k) = Some x → ancestor s (i + q * k) = Some x.
Proof.
  intros Hi Hk. rewrite ancestor_add, Hi in *. simpl in *.
  induction q as [|q IH]; [done|]. simpl. rewrite ancestor_add, Hk. simpl. exact IH.
Qed.

(** A chain longer than the table meets a scope again. *)
Lemma ancestor_repeat s :
  ancestor s (S (length ids)) ≠ None →
  ∃ i j x, (i < j ≤ length ids)%nat ∧ ancestor s i = Some x ∧ ancestor s j = Some x.
Proof.
  intros Hlong. set (n := length ids) in *.
  assert (Hsome : ∀ i, (i ≤ S n)%nat → is_Some (ancestor s i)).
  { intros i Hi. apply not_eq_None_Some. intros Hn. apply Hlong. by eapply ancestor_None_le. }
  set (l := map (λ i, default 0 (ancestor s i)) (seq 0 (S n))).
  assert (Hl : ∀ i, (i ≤ n)%nat → ∃ x, l !! i = Some x ∧ ancestor s i = Some x ∧ x ∈ ids).
  { intros i Hi. destruct (Hsome i ltac:(lia)) as [x Hx]. exists x.
    destruct (Hsome (S i) ltac:(lia)) as [y Hy]. simpl in Hy. rewrite Hx in Hy. simpl in Hy.
    split_and!; [|done|by eapply up_inside]. unfold l.
    rewrite list_lookup_fmap, lookup_seq_lt by lia. simpl. by rewrite Hx. }
  destruct (list_pigeonhole l ids) as (i & j & x & Hij & Hi & Hj).
  - intros x Hx. apply list_elem_of_lookup in Hx as [i Hi].
    assert (i < length l)%nat by (by eapply lookup_lt_Some).
    unfold l in H. rewrite length_map, length_seq in H.
    destruct (Hl i ltac:(lia)) as (y & Hy & _ & Hin). congruence.
  - unfold l. rewrite length_map, length_seq. unfold n. lia.
  - assert (j < length l)%nat by (by eapply lookup_lt_Some).
    unfold l in H. rewrite length_map, length_seq in H. exists i, j, x.
    destruct (Hl i ltac:(lia)) as (y & Hy & Hay & _). destruct (Hl j ltac:(lia)) as (z & Hz & Haz & _).
    split_and!; [lia..|congruence|congruence].
Qed.

Lemma ancestor_endless s : ancestor s (S (length ids)) ≠ None → ∀ i, ancestor s i ≠ None.
Proof.
  intros Hlong i Hnone. destruct (ancestor_repeat s Hlong) as (a & b & x & Hab & Ha & Hb).
  replace b with (a + (b - a))%nat in Hb by lia.
  pose proof (ancestor_period s x a (b - a) i Ha Hb) as Hp.
  rewrite (ancestor_None_le s i) in Hp; [done| |done]. nia.
Qed.
End Chains.

(** ** The slow and the fast pointer *)

Section Pointers.
Context (v : FunctionIrValidator).
Notation up := (scope_parent v).
Notation anc := (ancestor up).

Lemma pointers_step s m slow fast :
  anc s m = Some slow → anc s (m + m) = Some fast →
  up slow = anc s (S m) ∧ (up fast ≫= up) = anc s (S m + S m).
Proof.
  intros Hs Hf. replace (S m + S m)%nat with (S (S (m + m))) by lia. simpl. by rewrite Hs, Hf.
Qed.

Lemma chain_loop_sound fuel span s m r :
  chain_loop v fuel span (anc s m) (anc s (m + m)) = Some r →
  (r = Ok () ∧ ∃ i, anc s i = None) ∨
  (r ≠ Ok () ∧ ∃ i x, (m ≤ i)%nat ∧ anc s i = Some x ∧ anc s (i + i) = Some x).
Proof.
  revert m. induction fuel as [|fuel IH]; intros m; simpl;
    destruct (anc s m) as [slow|] eqn:Hs; try (intros [= <-]; left; by eauto);
    destruct (anc s (m + m)) as [fast|] eqn:Hf; try (intros [= <-]; left; by eauto);
    destruct (Z.eqb_spec slow fast) as [->|Hne]; try (intros [= <-]; right; by eauto 10).
  destruct (pointers_step s m slow fast Hs Hf) as [-> ->].
  intros [Hok|(Hr & i & x & Hi & Hx)]%IH; [by left|right]. split; [done|].
  exists i, x. split; [lia | done].
Qed.

Lemma chain_loop_ends fuel span s m m0 :
  (m ≤ m0 ≤ m + fuel)%nat → anc s (m0 + m0) = None ∨ anc s m0 = anc s (m0 + m0) →
  is_Some (chain_loop v fuel span (anc s m) (anc s (m + m))).
Proof.
  revert m. induction fuel as [|fuel IH]; intros m Hm Hend; simpl;
    destruct (anc s m) as [slow|] eqn:Hs; try (by eexists);
    destruct (anc s (m + m)) as [fast|] eqn:Hf; try (by eexists);
    destruct (Z.eqb_spec slow fast) as [->|Hne]; try (by eexists).
  - exfalso. replace m0 with m in * by lia. destruct Hend; congruence.
  - destruct (pointers_step s m slow fast Hs Hf) as [-> ->].
    destruct (decide (m0 = m)) as [->|Hmm]; [destruct Hend; congruence|]. apply IH; [lia|done].
Qed.

Context (ids : list Z).
Hypothesis up_inside : ∀ s p, up s = Some p → s ∈ ids.

Lemma pointers_meet s n :
  length ids = n →
  ∃ m, (1 ≤ m ≤ 1 + n)%nat ∧ (anc s (m + m) = None ∨ anc s m = anc s (m + m)).
Proof.
  intros <-. destruct (decide (anc s (S (length ids)) = None)) as [Hnone|Hlong].
  - exists (S (length ids)). split; [lia|]. left. eapply ancestor_None_le; [|exact Hnone]. lia.
  - destruct (ancestor_repeat up ids up_inside s Hlong) as (i & j & x & Hij & Hi & Hj).
    set (k := (j - i)%nat). set (m := (k * (i / k + 1))%nat).
    assert (Hdiv : (i = k * (i / k) + i mod k)%nat) by (apply Nat.div_mod_eq).
    assert (Hmod : (i mod k < k)%nat) by (apply Nat.mod_upper_bound; lia).
    assert (Hm : (i < m ≤ j)%nat) by (unfold m; nia).
    exists m. split; [lia|]. right.
    replace j with (i + k)%nat in Hj by lia.
    assert (Hper : ∀ q, anc s (i + q * k) = Some x) by (intros q; by apply ancestor_period).
    assert (Hshift : ∀ q d, anc s (i + q * k + d) = anc s (i + d)).
    { intros q d. by rewrite (ancestor_add _ _ (i + q * k) d), (ancestor_add _ _ i d), Hper, Hi. }
    replace m with (i + 0 * k + (m - i))%nat at 1 by lia.
    replace (m + m)%nat with (i + (i / k + 1) * k + (m - i))%nat by (unfold m in *; nia).
    by rewrite !Hshift.
Qed.

(** The walk ends, and accepts exactly the chains that end. *)
Lemma chain_check_exact span s :
  ∃ r, chain_loop v (S (length ids)) span (anc s 1) (anc s 2) = Some r ∧
       (r = Ok () ↔ ∃ i, anc s i = None).
Proof.
  destruct (pointers_meet s (length ids) eq_refl) as (m & Hm & Hend).
  destruct (chain_loop_ends (S (length ids)) span s 1 m) as [r Hr]; [lia|done|].
  exists r. split; [exact Hr|]. apply chain_loop_sound in Hr as [[-> Hex]|(Hr & i & x & Hle & Hi & Hii)].
  - split; [by intros _ | done].
  - split; [done|]. intros [j Hj]. exfalso.
    pose proof (ancestor_period up s x i i j Hi Hii) as Hp.
    rewrite (ancestor_None_le up s j) in Hp; [done| |done]. nia.
Qed.
End Pointers.

(** ** Chains in a table of scopes *)

Definition scope_up (scs : list FunctionScope) (s : Z) : option Z :=
  match find_scope scs s with Some c => parent c | None => None end.

Lemma find_scope_Some scs s c : find_scope scs s = Some c → c ∈ scs ∧ scope_id c = s.
Proof. intros [Hin Hid]%find_some. split; [by apply list_elem_of_In | by apply Z.eqb_eq]. Qed.

Lemma scope_up_inside scs s p : scope_up scs s = Some p → s ∈ map scope_id scs.
Proof.
  unfold scope_up. destruct (find_scope scs s) as [c|] eqn:Hf; [|done]. intros _.
  apply find_scope_Some in Hf as [Hin <-]. apply list_elem_of_In, in_map. by apply list_elem_of_In.
Qed.

Lemma scope_chain_loop_None fuel scs acc s :
  scope_chain_loop fuel scs acc (Some s) = None ↔ ancestor (scope_up scs) s fuel ≠ None.
Proof.
  revert acc s. induction fuel as [|fuel IH]; intros acc s; [done|].
  change (S fuel) with (1 + fuel)%nat. rewrite ancestor_add. simpl.
  assert (Hup : scope_up scs s = find_scope scs s ≫= parent).
  { unfold scope_up. by destruct (find_scope scs s). }
  rewrite Hup. destruct (find_scope scs s) as [c|]; simpl; [|naive_solver].
  destruct (parent c) as [p|]; simpl; [apply IH|]. destruct fuel; simpl; naive_solver.
Qed.

(** [scope_chain_to_root] ends exactly on the chains that end. *)
Lemma scope_chain_ends scs s :
  is_Some (scope_chain_to_root scs s) ↔ ∃ i, ancestor (scope_up scs) s i = None.
Proof.
  rewrite <- not_eq_None_Some. unfold scope_chain_to_root. rewrite scope_chain_loop_None.
  rewrite <- (length_map scope_id scs).
  split.
  - intros Hn. exists (S (length (map scope_id scs))). by apply dec_stable.
  - intros [i Hi] Hlong. eapply (ancestor_endless (scope_up scs) (map scope_id scs)); [|exact Hlong|exact Hi].
    apply scope_up_inside.
Qed.

Lemma validator_new_parents ls scs bl e v :
  validator_new ls scs bl e = Ok v →
  scope_parent v = scope_up scs ∧ v_scopes v = scs ∧ v_blocks v = bl ∧ v_entry v = e ∧
  NoDup (map block_id bl) ∧ block_ids v = list_to_set (map block_id bl) ∧
  ∀ k, is_Some (scope_parents v !! k) ↔ is_Some (find_scope scs k).
Proof.
  unfold validator_new. destruct (collect_ids local_id _ _ _ ls) as [lids|]; [|done].
  simpl. destruct (collect_parents ∅ scs) as [parents|] eqn:Hp; [|done]. simpl.
  destruct (collect_ids block_id _ _ _ bl) as [bids|] eqn:Hb; [|done]. simpl. intros [= <-].
  apply collect_ids_ok in Hb as (Hnd & _ & ->). apply collect_parents_ok in Hp as (_ & _ & Hp).
  simpl. split_and!; [|done..|set_solver|].
  - apply functional_extensionality. intros s. unfold scope_parent, scope_up. simpl. rewrite Hp.
    destruct (find_scope scs s); [done|]. by rewrite lookup_empty.
  - intros k. rewrite Hp. destruct (find_scope scs k); [done|]. by rewrite lookup_empty.
Qed.
