(* ===== verification/FnOpt.v ===== *)
(** * nia-function-opt: the control-flow passes of the function optimiser
      ([crates/nia-function-opt/src/lib.rs], [passes/cfg.rs], [passes/cfg_passes.rs],
      [passes/purity.rs])

    A pass takes [&mut] blocks and says whether it changed them; here it returns the
    new blocks with that flag.  [HashMap] and [HashSet] are [gmap] and [gset]: no
    result of these passes depends on their iteration order.  The three loops that
    are not structural take fuel: [reachable_from] and [retarget_block_id] have
    enough in their definitions, and [merge_empty_jump_blocks], which on some bodies
    does not end, keeps its fuel as an argument and has no result without it. *)

From stdpp Require Import gmap.
From S2P Require Import Prelude RustStd Lexer Literals Ty FnIr.

(** ** The control-flow graph of a block table *)

Record FunctionCfg := mkCfg {
  blocks_by_id : gmap Z nat;
  predecessors_of : gmap Z (list Z) }.

Fixpoint block_defer_targets (b : FunctionBlock) : list FunctionBlockId :=
  referenced_blocks (terminator b) ++
  (fix collect (ops : list FunctionOp) : list FunctionBlockId :=
     match ops with
     | [] => []
     | OpDefer (mkDefer _ _ bl _) :: ops =>
         (fix each (bl : list FunctionBlock) : list FunctionBlockId :=
            match bl with
            | [] => []
            | b :: bl => block_defer_targets b ++ each bl
            end) bl ++ collect ops
     | _ :: ops => collect ops
     end) (block_ops b).

Definition op_defer_targets (op : FunctionOp) : list FunctionBlockId :=
  match op with OpDefer body => defer_blocks body ≫= block_defer_targets | _ => [] end.

Definition defer_referenced_blocks (ops : list FunctionOp) : list FunctionBlockId :=
  ops ≫= op_defer_targets.

(** [HashMap::collect] keeps the last index of a repeated id. *)
Definition index_blocks (bl : list FunctionBlock) : gmap Z nat :=
  foldl (λ m p, <[block_id p.2 := p.1]> m) ∅ (imap pair bl).

Definition add_predecessor (from : FunctionBlockId) (m : gmap Z (list Z)) (to : FunctionBlockId) :
    gmap Z (list Z) :=
  <[to := default [] (m !! to) ++ [from]]> m.

Definition cfg_block_step (by_id : gmap Z nat) (m : gmap Z (list Z)) (b : FunctionBlock) :
    gmap Z (list Z) :=
  let present := λ t, bool_decide (is_Some (by_id !! t)) in
  let m := <[block_id b := default [] (m !! block_id b)]> m in
  let m := foldl (add_predecessor (block_id b)) m
             (List.filter present (referenced_blocks (terminator b))) in
  foldl (add_predecessor (block_id b)) m
    (List.filter present (defer_referenced_blocks (block_ops b))).

Definition cfg_new (bl : list FunctionBlock) : FunctionCfg :=
  let by_id := index_blocks bl in mkCfg by_id (foldl (cfg_block_step by_id) ∅ bl).

Definition cfg_block (cfg : FunctionCfg) (id : FunctionBlockId) : option nat :=
  blocks_by_id cfg !! id.

Definition predecessors (cfg : FunctionCfg) (id : FunctionBlockId) : list FunctionBlockId :=
  default [] (predecessors_of cfg !! id).

Definition cfg_referenced_blocks (cfg : FunctionCfg) (ids : list FunctionBlockId) :
    list FunctionBlockId :=
  List.filter (λ id, bool_decide (is_Some (blocks_by_id cfg !! id))) ids.

(** One turn of the loop of [reachable_from] adds an id that was not there or takes
    one off the stack, so the edges of the table bound the number of turns. *)
Fixpoint reachable_loop (fuel : nat) (cfg : FunctionCfg) (bl : list FunctionBlock)
    (reachable : gset Z) (stack : list FunctionBlockId) : option (gset Z) :=
  match fuel, stack with
  | _, [] => Some reachable
  | O, _ => None
  | S fuel, id :: stack =>
      if bool_decide (id ∈ reachable) then reachable_loop fuel cfg bl reachable stack
      else
        let reachable := {[id]} ∪ reachable in
        match cfg_block cfg id with
        | None => reachable_loop fuel cfg bl reachable stack
        | Some index =>
            match bl !! index with
            | None => None
            | Some b =>
                let next := cfg_referenced_blocks cfg (referenced_blocks (terminator b)) ++
                            cfg_referenced_blocks cfg (defer_referenced_blocks (block_ops b)) in
                reachable_loop fuel cfg bl reachable (rev next ++ stack)
            end
        end
  end.

Definition block_edges (b : FunctionBlock) : list FunctionBlockId :=
  referenced_blocks (terminator b) ++ defer_referenced_blocks (block_ops b).

Definition reachable_fuel (bl : list FunctionBlock) : nat :=
  1 + length (bl ≫= block_edges).

Definition reachable_from (cfg : FunctionCfg) (bl : list FunctionBlock)
    (entry : FunctionBlockId) : gset Z :=
  default ∅ (reachable_loop (reachable_fuel bl) cfg bl ∅ [entry]).

(** ** Purity *)

Fixpoint is_pure_discardable_expr (e : FunctionExpr) : bool :=
  let pure_range := λ first last : option FunctionExpr,
    match first with Some e => is_pure_discardable_expr e | None => true end &&
    match last with Some e => is_pure_discardable_expr e | None => true end in
  match expr_kind e with
  | ExError | ExTrap => false
  | ExInteger _ | ExFloat _ | ExString _ | ExByteString _ | ExChar _ | ExByteChar _ | ExBool _
  | ExNull | ExConstGeneric _ | ExAssociatedConstProjection _ | ExLocal _ | ExGlobal _
  | ExGlobalInstance _ _ _ _ | ExFunction _ | ExEnumConstructor _ | ExFunctionInstance _ _ _ _ _
  | ExClosureFunctionPointer _ | ExEnumVariantTag _ | ExBuiltinValue _ | ExCallerLocation _ => true
  | ExUnionStorageLiteral _ relocations =>
      forallb (λ r, let 'mkRelocation _ _ _ pointee := r in is_pure_discardable_expr pointee)
        relocations
  | ExEnumVariant _ fields => forallb is_pure_discardable_expr fields
  | ExEnumTag value | ExEnumPayloadField value _ _ => is_pure_discardable_expr value
  | ExDiscard e => is_pure_discardable_expr e
  | ExRangeBound range _ => is_pure_discardable_expr range
  | ExRange (mkRange first last _) => pure_range first last
  | ExArrayLiteral (ElemsList elems) => forallb is_pure_discardable_expr elems
  | ExArrayLiteral (ElemsRepeat value _) => is_pure_discardable_expr value
  | ExTuple elems => forallb is_pure_discardable_expr elems
  | ExTupleField value _ => is_pure_discardable_expr value
  | ExStructLiteral _ fields =>
      forallb (λ f, let 'mkFieldInit _ _ value _ := f in is_pure_discardable_expr value) fields
  | ExUnionLiteral _ (mkFieldInit _ _ value _) => is_pure_discardable_expr value
  | ExOptionalSome e | ExErrorOk e | ExErrorErr e | ExTaggedUnionTag e | ExTaggedUnionPayload e
  | ExUnary _ e | ExSplat e | ExBitmask e | ExBitIntrinsic _ e | ExCharFromU32 e | ExCast e _ =>
      is_pure_discardable_expr e
  | ExBinary lhs _ rhs | ExIndex lhs rhs =>
      is_pure_discardable_expr lhs && is_pure_discardable_expr rhs
  | ExExtractElement vector index =>
      is_pure_discardable_expr vector && is_pure_discardable_expr index
  | ExInsertElement vector index value =>
      is_pure_discardable_expr vector && is_pure_discardable_expr index &&
      is_pure_discardable_expr value
  | ExField lhs _ => is_pure_discardable_expr lhs
  | ExSlice lhs (mkSliceRange first last _) _ =>
      is_pure_discardable_expr lhs && pure_range first last
  | ExInlineAsm _ | ExAtomic _ | ExLoadUnaligned _ _ | ExStaticArrayPointer _ _ _ | ExAddrOf _
  | ExAssign _ _ _ | ExTry _ | ExTraitObjectUpcast _ _ _ | ExTraitObjectCoercion _ _ _
  | ExCallableCoercion _ _ | ExFunctionCallable _ | ExCall _ _ => false
  end.

Definition is_pure_expr_op (op : FunctionOp) : bool :=
  match op with OpExpr e => is_pure_discardable_expr e | _ => false end.

(** ** The shape of a block pass

    Every pass over blocks recurs into the bodies of the [defer] operations of a
    block and then looks at the block itself: [keep] are the operations it retains,
    [f] is what it does to the terminator. *)

Definition any_changed {A} (l : list (A * bool)) : bool := existsb snd l.

Fixpoint pass_block (keep : FunctionOp → bool) (f : FunctionTerminator → FunctionTerminator * bool)
    (b : FunctionBlock) : FunctionBlock * bool :=
  let 'mkBlock id scope span ops t := b in
  let kept := List.filter (λ p : FunctionOp * _, keep p.1) (map (λ op, (op,
    match op with
    | OpDefer (mkDefer dspan dscopes bl e) =>
        let r := map (pass_block keep f) bl in
        (OpDefer (mkDefer dspan dscopes (map fst r) e), any_changed r)
    | op => (op, false)
    end)) ops) in
  let (t', changed) := f t in
  (mkBlock id scope span (map (λ p, p.2.1) kept) t',
   negb (length kept =? length ops)%nat || existsb (λ p, p.2.2) kept || changed).

Definition pass_blocks keep f (bl : list FunctionBlock) : list FunctionBlock * bool :=
  let r := map (pass_block keep f) bl in (map fst r, any_changed r).

Definition keep_all (op : FunctionOp) : bool := true.
Definition same_terminator (t : FunctionTerminator) : FunctionTerminator * bool := (t, false).

Definition remove_pure_expr_ops : list FunctionBlock → list FunctionBlock * bool :=
  pass_blocks (λ op, negb (is_pure_expr_op op)) same_terminator.

(** ** Folding of branches *)

Definition fold_bool_terminator (t : FunctionTerminator) : FunctionTerminator * bool :=
  match t with
  | TmIf cond then_target else_target span =>
      match expr_kind cond with
      | ExBool value => (TmBranch (if value then then_target else else_target) span, true)
      | _ => (t, false)
      end
  | _ => (t, false)
  end.

Definition fold_constant_bool_branches : list FunctionBlock → list FunctionBlock * bool :=
  pass_blocks keep_all fold_bool_terminator.

Inductive SwitchConstantValue :=
| ScInteger (value : Z)
| ScBool (value : bool)
| ScChar (value : Z)
| ScByte (value : Z)
| ScEnumVariant (variant : GlobalDefId).
#[global] Instance SwitchConstantValue_eq_dec : EqDecision SwitchConstantValue.
Proof. solve_decision. Defined.

(** The optimiser's own decoder of byte characters. *)
Module ByteChar.
Definition decode_byte_char_literal (text : list Z) : option Z :=
  text ← strip_prefix ("b"%B :: [SQUOTE]) text;
  inner ← strip_suffix_char SQUOTE text;
  '(ch, rest) ←
    match inner with
    | [] => None
    | c :: chars =>
        if c =? BACKSLASH then
          match chars with
          | [] => None
          | e :: chars =>
              if e =? "n"%B then Some (LF, chars)
              else if e =? "r"%B then Some (CR, chars)
              else if e =? "t"%B then Some (TAB, chars)
              else if e =? BACKSLASH then Some (BACKSLASH, chars)
              else if e =? SQUOTE then Some (SQUOTE, chars)
              else if e =? DQUOTE then Some (DQUOTE, chars)
              else if e =? "0"%B then Some (0, chars)
              else if e =? "x"%B then
                match chars with
                | h :: l :: chars =>
                    hi ← to_digit 16 h;
                    lo ← to_digit 16 l;
                    Some (Z.lor (Z.shiftl hi 4) lo mod 256, chars)
                | _ => None
                end
              else None
          end
        else if (0 <=? c) && (c <? 128) then Some (c, chars)
        else None
    end;
  match rest with [] => Some ch | _ :: _ => None end.
End ByteChar.

Definition switch_constant_value (e : FunctionExpr) : option SwitchConstantValue :=
  match expr_kind e with
  | ExInteger text =>
      match eval_int_literal text with Ok v => Some (ScInteger v) | Err _ => None end
  | ExBool value => Some (ScBool value)
  | ExChar value => Some (ScChar value)
  | ExByteChar text => ScByte <$> ByteChar.decode_byte_char_literal text
  | ExEnumVariant variant [] => Some (ScEnumVariant variant)
  | _ => None
  end.

Definition constant_switch_target (target : SwitchConstantValue) (arms : list FunctionSwitchArm)
    (default : option FunctionBlockId) (fallback : FunctionBlockId) : option FunctionBlockId :=
  patterns ← mapM (λ arm, switch_constant_value (arm_pattern arm)) arms;
  match List.find (λ p : FunctionSwitchArm * _, bool_decide (p.2 = target)) (zip arms patterns) with
  | Some (arm, _) => Some (arm_target arm)
  | None => Some (match default with Some d => d | None => fallback end)
  end.

Definition fold_switch_terminator (t : FunctionTerminator) : FunctionTerminator * bool :=
  match t with
  | TmSwitch target arms default fallback span =>
      match (v ← switch_constant_value target; constant_switch_target v arms default fallback) with
      | Some selected => (TmBranch selected span, true)
      | None => (t, false)
      end
  | _ => (t, false)
  end.

Definition fold_constant_switches : list FunctionBlock → list FunctionBlock * bool :=
  pass_blocks keep_all fold_switch_terminator.

Definition trivial_branch_terminator (t : FunctionTerminator) : FunctionTerminator * bool :=
  match t with
  | TmIf cond then_target else_target span =>
      if (then_target =? else_target) && is_pure_discardable_expr cond
      then (TmBranch then_target span, true) else (t, false)
  | _ => (t, false)
  end.

Definition simplify_trivial_branches : list FunctionBlock → list FunctionBlock * bool :=
  pass_blocks keep_all trivial_branch_terminator.

Definition switch_targets_same (arms : list FunctionSwitchArm) (default : option FunctionBlockId)
    (fallback : FunctionBlockId) : bool :=
  forallb (λ arm, arm_target arm =? fallback) arms &&
  match default with Some target => target =? fallback | None => true end.

Definition same_target_terminator (t : FunctionTerminator) : FunctionTerminator * bool :=
  match t with
  | TmSwitch target arms default fallback span =>
      if is_pure_discardable_expr target &&
         forallb (λ arm, is_pure_discardable_expr (arm_pattern arm)) arms &&
         switch_targets_same arms default fallback
      then (TmBranch fallback span, true) else (t, false)
  | _ => (t, false)
  end.

Definition simplify_same_target_switches : list FunctionBlock → list FunctionBlock * bool :=
  pass_blocks keep_all same_target_terminator.

(** ** Threading of empty jumps *)

Definition jump_target (t : FunctionTerminator) : option FunctionBlockId :=
  match t with
  | TmBranch target _ | TmNext target _ => Some target
  | TmError _ | TmIf _ _ _ _ | TmSwitch _ _ _ _ _ | TmTry _ _ _ _ _ _ | TmLoop _ _ _ _ _
  | TmReturn _ _ | TmTail _ _ => None
  end.

Definition is_nil {A} (l : list A) : bool := match l with [] => true | _ :: _ => false end.

Definition empty_jump (cfg : FunctionCfg) (bl : list FunctionBlock)
    (protected_entry : option FunctionBlockId) (b : FunctionBlock) :
    option (FunctionBlockId * FunctionBlockId) :=
  if bool_decide (Some (block_id b) = protected_entry) || negb (is_nil (block_ops b)) ||
     is_nil (predecessors cfg (block_id b))
  then None
  else
    target ← jump_target (terminator b);
    index ← cfg_block cfg target;
    target_block ← bl !! index;
    if negb (target =? block_id b) && (block_scope target_block =? block_scope b)
    then Some (block_id b, target) else None.

Definition empty_jump_targets (bl : list FunctionBlock) (protected_entry : option FunctionBlockId) :
    gmap Z Z :=
  let cfg := cfg_new bl in
  foldl (λ m p, <[p.1 := p.2]> m) ∅ (omap (empty_jump cfg bl protected_entry) bl).

(** [retarget_block_id] stops at the first id it has seen, so it makes at most one
    turn per jump of the table. *)
Fixpoint retarget_loop (fuel : nat) (empty_jumps : gmap Z Z) (seen : gset Z) (changed : bool)
    (target : FunctionBlockId) : FunctionBlockId * bool :=
  match empty_jumps !! target with
  | None => (target, changed)
  | Some next =>
      if bool_decide (target ∈ seen) then (target, changed)
      else
        match fuel with
        | O => (target, changed)
        | S fuel => retarget_loop fuel empty_jumps ({[target]} ∪ seen) true next
        end
  end.

Definition retarget_block_id (target : FunctionBlockId) (empty_jumps : gmap Z Z) :
    FunctionBlockId * bool :=
  retarget_loop (size empty_jumps) empty_jumps ∅ false target.

Definition retarget_terminator (empty_jumps : gmap Z Z) (t : FunctionTerminator) :
    FunctionTerminator * bool :=
  let go := λ target, retarget_block_id target empty_jumps in
  match t with
  | TmBranch target span => let (x, c) := go target in (TmBranch x span, c)
  | TmNext target span => let (x, c) := go target in (TmNext x span, c)
  | TmIf cond then_target else_target span =>
      let (x, then_changed) := go then_target in
      let (y, else_changed) := go else_target in
      (TmIf cond x y span, then_changed || else_changed)
  | TmSwitch target arms default fallback span =>
      let arms := map (λ arm, let (x, c) := go (arm_target arm) in (mkArm (arm_pattern arm) x, c))
                    arms in
      let default := go <$> default in
      let (f, fc) := go fallback in
      (TmSwitch target (map fst arms) (fst <$> default) f span,
       any_changed arms || match default with Some (_, c) => c | None => false end || fc)
  | TmLoop header body continue_target break_target span =>
      let (b, bc) := go body in
      let (c, cc) := go continue_target in
      let (k, kc) := go break_target in
      (TmLoop header b c k span, bc || cc || kc)
  | TmTry value kind error_conversion success_local success_target span =>
      let (x, c) := go success_target in
      (TmTry value kind error_conversion success_local x span, c)
  | TmError _ | TmReturn _ _ | TmTail _ _ => (t, false)
  end.

Definition retarget_block (empty_jumps : gmap Z Z) (b : FunctionBlock) : FunctionBlock * bool :=
  let 'mkBlock id scope span ops t := b in
  let (t', c) := retarget_terminator empty_jumps t in (mkBlock id scope span ops t', c).

Fixpoint merge_loop (fuel : nat) (entry : FunctionBlockId) (any : bool) (bl : list FunctionBlock) :
    option (list FunctionBlock * bool) :=
  match fuel with
  | O => None
  | S fuel =>
      let empty_jumps := empty_jump_targets bl (Some entry) in
      if bool_decide (empty_jumps = ∅) then Some (bl, any)
      else
        let r := map (retarget_block empty_jumps) bl in
        if negb (any_changed r) then Some (map fst r, any)
        else merge_loop fuel entry true (map fst r)
  end.

Definition merge_empty_jump_blocks (fuel : nat) (body : FunctionBody) :
    option (FunctionBody * bool) :=
  '(bl, changed) ← merge_loop fuel (entry body) false (blocks body);
  Some (with_blocks body bl, changed).

Definition merge_empty_defer_jump_blocks (fuel : nat) (body : FunctionDeferBody) :
    option (FunctionDeferBody * bool) :=
  let 'mkDefer span scopes bl e := body in
  '(bl, changed) ← merge_loop fuel e false bl; Some (mkDefer span scopes bl e, changed).

(** ** Removal of unreachable blocks *)

Definition reachable_blocks (body : FunctionBody) : gset Z :=
  reachable_from (cfg_new (blocks body)) (blocks body) (entry body).

Definition reachable_defer_blocks (body : FunctionDeferBody) : gset Z :=
  reachable_from (cfg_new (defer_blocks body)) (defer_blocks body) (defer_entry body).

Definition retain_reachable (reachable : gset Z) (bl : list FunctionBlock) :
    list FunctionBlock * bool :=
  if (size reachable =? length bl)%nat then (bl, false)
  else (List.filter (λ b, bool_decide (block_id b ∈ reachable)) bl, true).

Definition remove_unreachable_blocks (body : FunctionBody) : FunctionBody * bool :=
  let (bl, changed) := retain_reachable (reachable_blocks body) (blocks body) in
  (with_blocks body bl, changed).

Definition remove_unreachable_defer_blocks (body : FunctionDeferBody) : FunctionDeferBody * bool :=
  let (bl, changed) := retain_reachable (reachable_defer_blocks body) (defer_blocks body) in
  (mkDefer (defer_span body) (defer_scopes body) bl (defer_entry body), changed).

(** ** Bodies of [defer] operations

    The recursion is on the blocks the earlier passes have rewritten, which nest no
    deeper than the original ones: [depth] bounds the nesting. *)

Definition optimize_defer_op (rec : list FunctionBlock → option (list FunctionBlock * bool))
    (fuel : nat) (op : FunctionOp) : option (FunctionOp * bool) :=
  match op with
  | OpDefer (mkDefer span scopes bl e) =>
      let (bl, c1) := simplify_trivial_branches bl in
      '(body, c2) ← merge_empty_defer_jump_blocks fuel (mkDefer span scopes bl e);
      let (body, c3) := remove_unreachable_defer_blocks body in
      '(bl, c4) ← rec (defer_blocks body);
      Some (OpDefer (mkDefer span scopes bl e), c1 || c2 || c3 || c4)
  | op => Some (op, false)
  end.

Definition optimize_defer_block (rec : list FunctionBlock → option (list FunctionBlock * bool))
    (fuel : nat) (b : FunctionBlock) : option (FunctionBlock * bool) :=
  let 'mkBlock id scope span ops t := b in
  ops ← mapM (optimize_defer_op rec fuel) ops;
  Some (mkBlock id scope span (map fst ops) t, any_changed ops).

Fixpoint optimize_defer_bodies (depth fuel : nat) (bl : list FunctionBlock) :
    option (list FunctionBlock * bool) :=
  let rec := match depth with O => λ _, None | S depth => optimize_defer_bodies depth fuel end in
  r ← mapM (optimize_defer_block rec fuel) bl; Some (map fst r, any_changed r).

Fixpoint defer_depth (b : FunctionBlock) : nat :=
  (fix over_ops (ops : list FunctionOp) : nat :=
     match ops with
     | [] => O
     | OpDefer (mkDefer _ _ bl _) :: ops =>
         (S ((fix over_blocks (bl : list FunctionBlock) : nat :=
                match bl with [] => O | b :: bl => defer_depth b `max` over_blocks bl end) bl)
          `max` over_ops ops)%nat
     | _ :: ops => over_ops ops
     end) (block_ops b).

(** ** Selection of passes ([nia-opt], [FunctionOptPipeline::for_policy]) *)

Inductive OptimizationDepth := Disabled | Required | Cheap | Full | Aggressive.
Inductive NiaOptimizationLevel := LevelO0 | LevelO1 | LevelO2 | LevelO3 | LevelOs | LevelOz.
Inductive InlineThreshold :=
  InlineNever | InlineMinimal | InlineSize | InlineSmall | InlineNormal | InlineAggressive.
Inductive SpecializationPolicy := RequiredOnly | SizeAware | SpecNormal | SpecAggressive.

Record OptimizationPolicy := mkPolicy {
  policy_level : NiaOptimizationLevel;
  simplify_cfg : OptimizationDepth;
  const_fold : OptimizationDepth;
  dead_code_elim : OptimizationDepth;
  local_copy_prop : OptimizationDepth;
  inline_threshold : InlineThreshold;
  specialize_generics : SpecializationPolicy;
  dedup_monomorphized_instances : bool;
  prefer_size : bool }.

Definition depth_rank (d : OptimizationDepth) : Z :=
  match d with Disabled => 0 | Required => 1 | Cheap => 2 | Full => 3 | Aggressive => 4 end.
Definition at_least (d minimum : OptimizationDepth) : bool := depth_rank minimum <=? depth_rank d.

Definition level_policy (l : NiaOptimizationLevel) : OptimizationPolicy :=
  match l with
  | LevelO0 => mkPolicy l Required Required Disabled Disabled InlineNever RequiredOnly true false
  | LevelO1 => mkPolicy l Cheap Cheap Cheap Cheap InlineSmall RequiredOnly true false
  | LevelO2 => mkPolicy l Full Full Full Full InlineNormal SpecNormal true false
  | LevelO3 =>
      mkPolicy l Aggressive Aggressive Aggressive Aggressive InlineAggressive SpecAggressive true false
  | LevelOs => mkPolicy l Full Full Full Full InlineSize SizeAware true true
  | LevelOz => mkPolicy l Full Full Full Cheap InlineMinimal RequiredOnly true true
  end.

Inductive FunctionOptPass :=
  SimplifySameTypeCasts | RemoveNoopLocalStores | RemovePureExprOps | RemoveZstLocalRuntimeOps
| PropagateLocalCopies | PropagateLocalFunctionPointers | PropagateLocalConstants
| SimplifyConstantLogicalExprs | RemoveOverwrittenLocalStores | RemoveNeverReadLocalStores
| RemoveUnusedTempBindings | RemoveUnusedLocalBindings | FoldConstantBoolBranches
| FoldConstantSwitches | SimplifyTrivialBranches | SimplifySameTargetSwitches
| MergeEmptyJumpBlocks | RemoveUnreachableBlocks | OptimizeDeferBodies.

Definition pass_name (p : FunctionOptPass) : string :=
  match p with
  | SimplifySameTypeCasts => "simplify-same-type-casts"
  | RemoveNoopLocalStores => "remove-noop-local-stores"
  | RemovePureExprOps => "remove-pure-expr-ops"
  | RemoveZstLocalRuntimeOps => "remove-zst-local-runtime-ops"
  | PropagateLocalCopies => "propagate-local-copies"
  | PropagateLocalFunctionPointers => "propagate-local-function-pointers"
  | PropagateLocalConstants => "propagate-local-constants"
  | SimplifyConstantLogicalExprs => "simplify-constant-logical-exprs"
  | RemoveOverwrittenLocalStores => "remove-overwritten-local-stores"
  | RemoveNeverReadLocalStores => "remove-never-read-local-stores"
  | RemoveUnusedTempBindings => "remove-unused-temp-bindings"
  | RemoveUnusedLocalBindings => "remove-unused-local-bindings"
  | FoldConstantBoolBranches => "fold-constant-bool-branches"
  | FoldConstantSwitches => "fold-constant-switches"
  | SimplifyTrivialBranches => "simplify-trivial-branches"
  | SimplifySameTargetSwitches => "simplify-same-target-switches"
  | MergeEmptyJumpBlocks => "merge-empty-jump-blocks"
  | RemoveUnreachableBlocks => "remove-unreachable-blocks"
  | OptimizeDeferBodies => "optimize-defer-bodies"
  end.

Definition enabled_by (pass : FunctionOptPass) (p : OptimizationPolicy) : bool :=
  match pass with
  | SimplifySameTypeCasts | RemoveNoopLocalStores | RemovePureExprOps | RemoveZstLocalRuntimeOps
  | RemoveUnusedTempBindings => at_least (dead_code_elim p) Cheap
  | PropagateLocalCopies | PropagateLocalFunctionPointers =>
      at_least (local_copy_prop p) Full || (prefer_size p && at_least (local_copy_prop p) Cheap)
  | PropagateLocalConstants =>
      at_least (const_fold p) Aggressive && at_least (local_copy_prop p) Aggressive &&
      negb (prefer_size p)
  | SimplifyConstantLogicalExprs | FoldConstantBoolBranches => at_least (const_fold p) Cheap
  | RemoveOverwrittenLocalStores | RemoveNeverReadLocalStores | RemoveUnusedLocalBindings =>
      at_least (dead_code_elim p) Full
  | FoldConstantSwitches => at_least (const_fold p) Full && at_least (simplify_cfg p) Full
  | SimplifyTrivialBranches | MergeEmptyJumpBlocks | RemoveUnreachableBlocks | OptimizeDeferBodies =>
      at_least (simplify_cfg p) Cheap
  | SimplifySameTargetSwitches => at_least (simplify_cfg p) Full
  end.

Definition ordered_function_passes : list FunctionOptPass :=
  [SimplifySameTypeCasts; RemoveNoopLocalStores; RemovePureExprOps; RemoveZstLocalRuntimeOps;
   PropagateLocalCopies; PropagateLocalFunctionPointers; PropagateLocalConstants;
   SimplifyConstantLogicalExprs; RemoveOverwrittenLocalStores; RemoveNeverReadLocalStores;
   RemoveUnusedTempBindings; RemoveUnusedLocalBindings; FoldConstantBoolBranches;
   FoldConstantSwitches; SimplifyTrivialBranches; SimplifySameTargetSwitches;
   MergeEmptyJumpBlocks; RemoveUnreachableBlocks; OptimizeDeferBodies].

Definition for_policy (p : OptimizationPolicy) : list FunctionOptPass :=
  List.filter (λ pass, enabled_by pass p) ordered_function_passes.

Definition enabled_function_passes (p : OptimizationPolicy) : list string :=
  map pass_name (for_policy p).
