(* ===== verification/FnSem.v ===== *)
(** * What running a function body means

    The optimiser promises to keep "evaluation order and observable effects"; this
    file says what those are, so that the promise can be stated.  A [Machine] gives
    the meaning of what the control-flow passes never look into (expressions, stores,
    bulk memory operations, propagation); on top of it [runs] gives the meaning of a
    block table: operations in order, then the terminator.  An unconditional edge
    unwinds the scopes [exited_scopes_between] computes, newest [defer] first, before
    control moves; a conditional edge moves at once, and a [return], a tail or a
    failed propagation unwinds every scope, as code generation emits them.  A
    registered [defer] body is a block table of its own with private scopes: it ends
    by its tail, or returns from the function, or leaves for a block of an enclosing
    table. *)

From stdpp Require Import gmap.
From S2P Require Import Prelude RustStd Lexer Literals Ty FnIr FnOpt.

Section Meaning.
Context {D V : Type}.

Inductive Evaluated := EvValue (v : V) (d : D) | EvTrap (d : D).
Inductive Performed := Done (d : D) | Trap (d : D).
Inductive Attempted := Success (d : D) | Propagate (v : V) (d : D) | AttemptTrap (d : D).

(** The result of running a block table. *)
Inductive Outcome :=
| Returned (v : option V) (d : D)
| Fell (v : option V) (d : D)
| Exited (id : FunctionBlockId) (d : D)
| Trapped (d : D).

Class Machine := {
  eval : FunctionExpr → D → Evaluated → Prop;
  truth : V → bool;
  matches : FunctionExpr → V → bool;
  store : LocalId → V → D → D;
  memory : FunctionMemoryIntrinsic → D → Performed → Prop;
  attempt : FunctionTryKind → option FunctionExpr → LocalId → V → D → Attempted → Prop }.

Context {M : Machine}.

Definition Cleanup : Type := D → Outcome → Prop.
Definition Pending : Type := list (FunctionScopeId * Cleanup).
Inductive OpMeaning := Perform (p : D → Performed → Prop) | Register (c : Cleanup).
Record Code := mkCode {
  code_id : FunctionBlockId;
  code_scope : FunctionScopeId;
  code_ops : list OpMeaning;
  code_terminator : FunctionTerminator }.
Inductive Step := Goto (id : FunctionBlockId) (d : D) (st : Pending) | Stop (o : Outcome).

(** ** Operations *)

Inductive exec_ops (scope : FunctionScopeId) :
    list OpMeaning → D → Pending → D * Pending + D → Prop :=
| ops_nil d st : exec_ops scope [] d st (inl (d, st))
| ops_done p ops d d' st r :
    p d (Done d') → exec_ops scope ops d' st r → exec_ops scope (Perform p :: ops) d st r
| ops_trap p ops d d' st : p d (Trap d') → exec_ops scope (Perform p :: ops) d st (inr d')
| ops_register c ops d st r :
    exec_ops scope ops d ((scope, c) :: st) r → exec_ops scope (Register c :: ops) d st r.

(** ** Unwinding *)

Definition leaving (ss : list FunctionScopeId) (st : Pending) : list Cleanup :=
  ss ≫= λ s, map snd (List.filter (λ e, e.1 =? s) st).
Definition remaining (ss : list FunctionScopeId) (st : Pending) : Pending :=
  List.filter (λ e, negb (contains_id e.1 ss)) st.

Inductive run_cleanups : list Cleanup → D → D + Outcome → Prop :=
| cleanups_nil d : run_cleanups [] d (inl d)
| cleanups_fell c cs d v d' r :
    c d (Fell v d') → run_cleanups cs d' r → run_cleanups (c :: cs) d r
| cleanups_left c cs d o :
    c d o → (∀ v d', o ≠ Fell v d') → run_cleanups (c :: cs) d (inr o).

(** A cleanup that leaves for a block, returns or traps replaces what was to follow. *)
Definition interrupt (o : Outcome) (st : Pending) : Step :=
  match o with Exited id d => Goto id d st | o => Stop o end.

Definition unwind (ss : option (option (list FunctionScopeId))) (st : Pending) (d : D)
    (k : D → Pending → Step) (r : Step) : Prop :=
  match ss with
  | Some (Some ss) =>
      (∃ d', run_cleanups (leaving ss st) d (inl d') ∧ r = k d' (remaining ss st)) ∨
      (∃ o, run_cleanups (leaving ss st) d (inr o) ∧ r = interrupt o (remaining ss st))
  | _ => False
  end.

(** ** Terminators *)

Section Table.
Context (scopes : list FunctionScope) (scope_of : FunctionBlockId → option FunctionScopeId).

(** The scopes left by an unconditional edge; one that leaves the table leaves them all. *)
Definition exits (scope : FunctionScopeId) (target : FunctionBlockId) :
    option (option (list FunctionScopeId)) :=
  exited_scopes_between scopes scope (scope_of target).

Definition evaluated (e : FunctionExpr) (d : D) (k : V → D → Step → Prop) (r : Step) : Prop :=
  (∃ v d', eval e d (EvValue v d') ∧ k v d' r) ∨ (∃ d', eval e d (EvTrap d') ∧ r = Stop (Trapped d')).

Definition evaluated_opt (e : option FunctionExpr) (d : D) (k : option V → D → Step → Prop)
    (r : Step) : Prop :=
  match e with Some e => evaluated e d (λ v, k (Some v)) r | None => k None d r end.

Definition pick_arm (v : V) (arms : list FunctionSwitchArm) (default : option FunctionBlockId)
    (fallback : FunctionBlockId) : FunctionBlockId :=
  match List.find (λ arm, matches (arm_pattern arm) v) arms with
  | Some arm => arm_target arm
  | None => match default with Some d => d | None => fallback end
  end.

Definition exec_terminator (scope : FunctionScopeId) (t : FunctionTerminator) (d : D)
    (st : Pending) (r : Step) : Prop :=
  let all := exited_scopes_between scopes scope None in
  match t with
  | TmError _ => False
  | TmBranch target _ | TmNext target _ => unwind (exits scope target) st d (Goto target) r
  | TmIf cond then_target else_target _ =>
      evaluated cond d
        (λ v d r, r = Goto (if truth v then then_target else else_target) d st) r
  | TmSwitch target arms default fallback _ =>
      evaluated target d (λ v d r, r = Goto (pick_arm v arms default fallback) d st) r
  | TmTry value kind conversion local success _ =>
      evaluated value d (λ v d r,
        (∃ d', attempt kind conversion local v d (Success d') ∧ r = Goto success d' st) ∨
        (∃ w d', attempt kind conversion local v d (Propagate w d') ∧
                 unwind all st d' (λ d _, Stop (Returned (Some w) d)) r) ∨
        (∃ d', attempt kind conversion local v d (AttemptTrap d') ∧ r = Stop (Trapped d'))) r
  | TmLoop HeaderInfinite body _ _ _ => r = Goto body d st
  | TmLoop (HeaderCondition cond) body _ break _ =>
      evaluated cond d (λ v d r, r = Goto (if truth v then body else break) d st) r
  | TmReturn value _ =>
      evaluated_opt value d (λ v d, unwind all st d (λ d _, Stop (Returned v d))) r
  | TmTail value _ =>
      evaluated_opt value d (λ v d, unwind all st d (λ d _, Stop (Fell v d))) r
  end.

Definition exec_code (c : Code) (d : D) (st : Pending) (r : Step) : Prop :=
  (∃ d' st', exec_ops (code_scope c) (code_ops c) d st (inl (d', st')) ∧
             exec_terminator (code_scope c) (code_terminator c) d' st' r) ∨
  (∃ d', exec_ops (code_scope c) (code_ops c) d st (inr d') ∧ r = Stop (Trapped d')).
End Table.

(** ** Block tables *)

Definition find_code (tbl : list Code) (id : FunctionBlockId) : option Code :=
  List.find (λ c, code_id c =? id) tbl.
Definition code_scope_of (tbl : list Code) (id : FunctionBlockId) : option FunctionScopeId :=
  code_scope <$> find_code tbl id.

(** [runs scopes tbl n id d st o]: from block [id], in [n] blocks, the table ends in [o]. *)
Inductive runs (scopes : list FunctionScope) (tbl : list Code) :
    nat → FunctionBlockId → D → Pending → Outcome → Prop :=
| runs_exit id d st : find_code tbl id = None → runs scopes tbl 0 id d st (Exited id d)
| runs_stop id c d st o :
    find_code tbl id = Some c → exec_code scopes (code_scope_of tbl) c d st (Stop o) →
    runs scopes tbl 1 id d st o
| runs_goto n id c d st id' d' st' o :
    find_code tbl id = Some c → exec_code scopes (code_scope_of tbl) c d st (Goto id' d' st') →
    runs scopes tbl n id' d' st' o → runs scopes tbl (S n) id d st o.

(** A table without its entry block has no runs: code generation refuses it. *)
Definition table_runs (scopes : list FunctionScope) (tbl : list Code) (entry : FunctionBlockId)
    (d : D) (o : Outcome) : Prop :=
  is_Some (find_code tbl entry) ∧ ∃ n, runs scopes tbl n entry d [] o.

Definition perform_expr (e : FunctionExpr) (k : V → D → D) (d : D) (r : Performed) : Prop :=
  (∃ v d', eval e d (EvValue v d') ∧ r = Done (k v d')) ∨ (∃ d', eval e d (EvTrap d') ∧ r = Trap d').

Fixpoint block_code (b : FunctionBlock) : Code :=
  let 'mkBlock id scope _ ops t := b in
  mkCode id scope (map (λ op,
    match op with
    | OpBinding binding =>
        match binding_value binding with
        | Some e => Perform (perform_expr e (store (binding_local binding)))
        | None => Perform (λ d r, r = Done d)
        end
    | OpStoreLocal local e _ => Perform (perform_expr e (store local))
    | OpMemoryIntrinsic m => Perform (memory m)
    | OpExpr e => Perform (perform_expr e (λ _ d, d))
    | OpDefer (mkDefer _ scopes bl e) => Register (table_runs scopes (map block_code bl) e)
    end) ops) t.

Definition op_meaning (op : FunctionOp) : OpMeaning :=
  match op with
  | OpBinding binding =>
      match binding_value binding with
      | Some e => Perform (perform_expr e (store (binding_local binding)))
      | None => Perform (λ d r, r = Done d)
      end
  | OpStoreLocal local e _ => Perform (perform_expr e (store local))
  | OpMemoryIntrinsic m => Perform (memory m)
  | OpExpr e => Perform (perform_expr e (λ _ d, d))
  | OpDefer (mkDefer _ scopes bl e) => Register (table_runs scopes (map block_code bl) e)
  end.

Definition blocks_code (bl : list FunctionBlock) : list Code := map block_code bl.

Definition body_runs (body : FunctionBody) (d : D) (o : Outcome) : Prop :=
  table_runs (scopes body) (blocks_code (blocks body)) (entry body) d o.
End Meaning.

Arguments Evaluated : clear implicits.
Arguments Performed : clear implicits.
Arguments Attempted : clear implicits.
Arguments Outcome : clear implicits.
Arguments Machine : clear implicits.
Arguments Cleanup : clear implicits.
Arguments Pending : clear implicits.
Arguments OpMeaning : clear implicits.
Arguments Code : clear implicits.
Arguments Step : clear implicits.

(** ** What the passes rely on

    [ConstantLaws] is the meaning of literals: they evaluate without effect, a bool
    literal to its truth, and of two constants of a switch one matches the other
    exactly when they are the same.  [PureLaws] is what [is_pure_discardable_expr]
    says of an expression: its evaluation has no effect.  It gives a value or, as
    arithmetic does in the language, it traps. *)

Class ConstantLaws {D V} (M : Machine D V) : Prop := {
  bool_literal e b : expr_kind e = ExBool b →
    ∃ v, truth v = b ∧ ∀ d r, eval e d r ↔ r = EvValue v d;
  switch_literal e c : switch_constant_value e = Some c →
    ∃ v, (∀ d r, eval e d r ↔ r = EvValue v d) ∧
         ∀ pattern c', switch_constant_value pattern = Some c' →
           matches pattern v = bool_decide (c' = c) }.

Class PureLaws {D V} (M : Machine D V) : Prop := {
  pure_evaluates e d : is_pure_discardable_expr e = true →
    (∃ r, eval e d r) ∧ ∀ r, eval e d r → (∃ v, r = EvValue v d) ∨ r = EvTrap d }.
