(* ===== verification/FnOptFacts.v ===== *)
(** * Lemmas on running block tables and on the passes that rewrite them

    Two tables whose blocks execute alike run alike ([runs_same]); since the meaning
    of a [defer] is the set of runs of its table, that equivalence is an equality of
    meanings and goes through nested bodies.  [pass_block_same] lifts a rewriting of
    terminators and a removal of operations to whole block tables.  [keeps_runs] is the
    weaker relation of a pass that discards evaluations together with their traps, with
    the same lemmas ([table_runs_keeps], [pass_block_keeps]). *)

From stdpp Require Import gmap.
From Stdlib Require Import FunctionalExtensionality PropExtensionality.
From S2P Require Import Prelude RustStd Lexer Literals Ty FnIr FnOpt FnSem.

(** ** Induction through [defer] bodies *)

Definition op_all (P : FunctionBlock → Prop) (op : FunctionOp) : Prop :=
  match op with OpDefer (mkDefer _ _ bl _) => Forall P bl | _ => True end.

Lemma block_nested_ind (P : FunctionBlock → Prop)
    (step : ∀ id scope span ops t, Forall (op_all P) ops → P (mkBlock id scope span ops t)) b : P b.
Proof.
  revert b. fix IH 1. intros [id scope span ops t]. apply step.
  induction ops as [|op ops IHops]; constructor; [|exact IHops].
  destruct op as [| | | |[s scs bl e]]; simpl; try exact I.
  induction bl; constructor; [apply IH | assumption].
Qed.

(** ** Conditional edges

    Function lowering emits a conditional edge only to a block of the same scope or
    of a scope nested in it; such an edge leaves no scope. *)

Definition block_scope_of (bl : list FunctionBlock) (id : FunctionBlockId) :
    option FunctionScopeId :=
  block_scope <$> find_block bl id.

Definition conditional_enters (scs : list FunctionScope)
    (scope_of : FunctionBlockId → option FunctionScopeId) (scope : FunctionScopeId)
    (t : FunctionTerminator) : bool :=
  match t with
  | TmIf _ _ _ _ | TmSwitch _ _ _ _ _ =>
      forallb (λ target, bool_decide (exits scs scope_of scope target = Some (Some [])))
        (referenced_blocks t)
  | _ => true
  end.

Fixpoint edges_enter (scs : list FunctionScope)
    (scope_of : FunctionBlockId → option FunctionScopeId) (b : FunctionBlock) : bool :=
  let 'mkBlock _ scope _ ops t := b in
  conditional_enters scs scope_of scope t &&
  forallb (λ op,
    match op with
    | OpDefer (mkDefer _ scs bl _) => forallb (edges_enter scs (block_scope_of bl)) bl
    | _ => true
    end) ops.

Definition body_edges_enter (body : FunctionBody) : bool :=
  forallb (edges_enter (scopes body) (block_scope_of (blocks body))) (blocks body).

Section Runs.
Context {D V : Type} `{M : Machine D V}.
Implicit Types (tbl : list (Code D V)) (st : Pending D V).

Lemma block_code_eq id scope span ops t :
  block_code (mkBlock id scope span ops t) = mkCode id scope (map op_meaning ops) t.
Proof. done. Qed.

Lemma block_code_id b : code_id (block_code b) = block_id b.
Proof. by destruct b. Qed.

Lemma block_code_scope b : code_scope (block_code b) = block_scope b.
Proof. by destruct b. Qed.

Lemma find_blocks_code bl id : find_code (blocks_code bl) id = block_code <$> find_block bl id.
Proof.
  induction bl as [|b bl IH]; [done|]. unfold find_code, find_block in *; simpl.
  rewrite block_code_id. by destruct (block_id b =? id).
Qed.

Lemma scope_of_blocks bl : code_scope_of (blocks_code bl) = block_scope_of bl.
Proof.
  apply functional_extensionality. intros id. unfold code_scope_of, block_scope_of.
  rewrite find_blocks_code. destruct (find_block bl id) as [b|]; [|done]. simpl.
  by rewrite block_code_scope.
Qed.

(** ** Tables whose blocks execute alike *)

Definition same_code scs scope_of (c c' : Code D V) : Prop :=
  code_id c = code_id c' ∧ code_scope c = code_scope c' ∧
  ∀ d st r, exec_code scs scope_of c d st r ↔ exec_code scs scope_of c' d st r.

Lemma find_same scs scope_of tbl tbl' id :
  Forall2 (same_code scs scope_of) tbl tbl' →
  option_Forall2 (same_code scs scope_of) (find_code tbl id) (find_code tbl' id).
Proof.
  induction 1 as [|c c' tbl tbl' Hc _ IH]; [constructor|]. unfold find_code in *; simpl.
  pose proof (proj1 Hc) as Hid. rewrite <- Hid.
  destruct (code_id c =? id); [by constructor | exact IH].
Qed.

Lemma scope_of_same scs scope_of tbl tbl' :
  Forall2 (same_code scs scope_of) tbl tbl' → code_scope_of tbl = code_scope_of tbl'.
Proof.
  intros Hall. apply functional_extensionality. intros id. unfold code_scope_of.
  destruct (find_same _ _ _ _ id Hall) as [c c' (_ & Hs & _)|]; simpl; congruence.
Qed.

Lemma runs_same_1 scs tbl tbl' n id d st o :
  Forall2 (same_code scs (code_scope_of tbl)) tbl tbl' →
  runs scs tbl n id d st o → runs scs tbl' n id d st o.
Proof.
  intros Hall Hr. pose proof (scope_of_same _ _ _ _ Hall) as Hscope.
  induction Hr as [id d st Hf | id c d st o Hf He | n id c d st id' d' st' o Hf He _ IH];
    pose proof (find_same _ _ _ _ id Hall) as Hfind; rewrite Hf in Hfind;
    inversion Hfind as [? c' (Hid & Hs & Hexec) Heq1 Heq2|Heq2]; subst.
  - by apply runs_exit.
  - eapply runs_stop; [done|]. rewrite <- Hscope. by apply Hexec.
  - eapply runs_goto; [done| |exact IH]. rewrite <- Hscope. by apply Hexec.
Qed.

Lemma same_code_sym scs scope_of c c' : same_code scs scope_of c c' → same_code scs scope_of c' c.
Proof. intros (? & ? & H). repeat split; [done..|apply H|apply H]. Qed.

Lemma runs_same scs tbl tbl' n id d st o :
  Forall2 (same_code scs (code_scope_of tbl)) tbl tbl' →
  runs scs tbl n id d st o ↔ runs scs tbl' n id d st o.
Proof.
  intros Hall. split; [by apply runs_same_1|]. apply runs_same_1.
  rewrite <- (scope_of_same _ _ _ _ Hall). apply Forall2_flip.
  eapply Forall2_impl; [exact Hall|]. intros c c' Hc. by apply same_code_sym.
Qed.

(** Equal runs make equal meanings of [defer] bodies. *)
Lemma table_runs_eq scs tbl tbl' e :
  (∀ d o, table_runs scs tbl e d o ↔ table_runs scs tbl' e d o) →
  table_runs scs tbl e = table_runs scs tbl' e.
Proof.
  intros Heq. apply functional_extensionality. intros d. apply functional_extensionality.
  intros o. apply propositional_extensionality. apply Heq.
Qed.

Lemma table_runs_same scs tbl tbl' e :
  Forall2 (same_code scs (code_scope_of tbl)) tbl tbl' →
  table_runs scs tbl e = table_runs scs tbl' e.
Proof.
  intros Hall. apply table_runs_eq. intros d o. unfold table_runs.
  setoid_rewrite (runs_same scs tbl tbl' _ e d [] o Hall).
  destruct (find_same _ _ _ _ e Hall); [|done].
  split; intros [_ Hr]; (split; [by eexists | exact Hr]).
Qed.

(** ** Where control can go

    [P] holds of every block a step can move to when it holds of the targets of the
    terminator and of the blocks the pending cleanups can leave for. *)

Section Targets.
Context (P : FunctionBlockId → Prop).

Definition cleanup_exits (c : Cleanup D V) : Prop := ∀ d id d', c d (Exited id d') → P id.
Definition pending_exits st : Prop := Forall (λ e, cleanup_exits e.2) st.
Definition op_exits (op : OpMeaning D V) : Prop :=
  match op with Register c => cleanup_exits c | Perform _ => True end.

Lemma exec_ops_exits scope ops d st d' st' :
  Forall op_exits ops → pending_exits st →
  exec_ops scope ops d st (inl (d', st')) → pending_exits st'.
Proof.
  intros Hops Hst Hx. remember (inl (d', st')) as r eqn:Hr. revert d' st' Hr.
  induction Hx as [d st|p ops d d1 st r _ _ IH|p ops d d1 st _|c ops d st r _ IH];
    intros d' st' Hr; simplify_eq; [done|..]; apply Forall_cons in Hops as [Hop Hops].
  - by eapply IH.
  - eapply IH; [done| |done]. by constructor.
Qed.

Lemma run_cleanups_exits cs d id d' :
  Forall cleanup_exits cs → run_cleanups cs d (inr (Exited id d')) → P id.
Proof.
  intros Hcs Hx. remember (inr (Exited id d')) as r eqn:Hr. revert Hcs Hr.
  induction Hx as [d|c cs d v d1 r _ _ IH|c cs d o Hc _]; intros Hcs Hr; simplify_eq;
    apply Forall_cons in Hcs as [Hc1 Hcs]; [by apply IH|]. exact (Hc1 _ _ _ Hc).
Qed.

Lemma remaining_exits ss st : pending_exits st → pending_exits (remaining ss st).
Proof.
  intros Hst. apply Forall_forall. intros e [He _]%list_elem_of_In%List.filter_In.
  eapply Forall_forall in Hst; [exact Hst|]. by apply list_elem_of_In.
Qed.

Lemma leaving_exits ss st : pending_exits st → Forall cleanup_exits (leaving ss st).
Proof.
  intros Hst. apply Forall_forall. intros c Hc. apply list_elem_of_bind in Hc as (s & Hc & _).
  apply list_elem_of_In, in_map_iff in Hc as (e & <- & He). apply List.filter_In in He as [He _].
  eapply Forall_forall in Hst; [exact Hst|]. by apply list_elem_of_In.
Qed.

(** What a step may do, given where it may go. *)
Definition step_ok (r : Step D V) : Prop :=
  match r with
  | Goto id _ st => P id ∧ pending_exits st
  | Stop o => ∀ id d, o ≠ Exited id d
  end.

Lemma unwind_ok ss st d k r :
  pending_exits st → (∀ d st, pending_exits st → step_ok (k d st)) →
  unwind ss st d k r → step_ok r.
Proof.
  intros Hst Hk. destruct ss as [[ss|]|]; [|done..].
  intros [(d' & _ & ->)|(o & Hrun & ->)]; [by apply Hk, remaining_exits|].
  destruct o; simpl; try done. split; [|by apply remaining_exits].
  by eapply run_cleanups_exits; [apply leaving_exits|exact Hrun].
Qed.

Lemma exec_terminator_ok scs scope_of scope t d st r :
  pending_exits st → Forall P (referenced_blocks t) →
  exec_terminator scs scope_of scope t d st r → step_ok r.
Proof.
  intros Hst Href.
  assert (Hstop : ∀ ss (o : D → Outcome D V) d r, (∀ d id d', o d ≠ Exited id d') →
    unwind ss st d (λ d _, Stop (o d)) r → step_ok r).
  { intros ss o d1 r1 Ho. apply unwind_ok; [done|]. intros d2 st2 _ id d3. apply Ho. }
  destruct t as [|target|target|cond t1 t2|target arms default fallback|value kind conv l s
    |header b c k|value|value]; simpl in *; try done.
  1,2: decompose_Forall_hyps; intros Hu; eapply unwind_ok; eauto; simpl; naive_solver.
  - decompose_Forall_hyps.
    intros [(v & d' & _ & ->)|(d' & _ & ->)]; [|done]. simpl. by destruct (truth v).
  - intros [(v & d' & _ & ->)|(d' & _ & ->)]; [|done]. simpl. split; [|done].
    unfold pick_arm. apply Forall_app in Href as [Harms Hrest].
    apply Forall_app in Hrest as [Hdef Hfall].
    destruct (List.find _ arms) as [arm|] eqn:Hfind.
    + apply find_some in Hfind as [Hin _]. rewrite Forall_forall in Harms. apply Harms.
      by apply list_elem_of_In, in_map.
    + destruct default; simpl in *; by decompose_Forall_hyps.
  - decompose_Forall_hyps. intros [(v & d' & _ & Hk)|(d' & _ & ->)]; [|done].
    destruct Hk as [(d1 & _ & ->)|[(w & d1 & _ & Hu)|(d1 & _ & ->)]]; [done| |done].
    by eapply Hstop; [|exact Hu].
  - decompose_Forall_hyps. destruct header; [intros ->; by split|].
    intros [(v & d' & _ & ->)|(d' & _ & ->)]; [|done]. simpl. by destruct (truth v).
  - destruct value; simpl; [|by eapply Hstop]. intros [(v & d' & _ & Hu)|(d' & _ & ->)]; [|done].
    by eapply Hstop; [|exact Hu].
  - destruct value; simpl; [|by eapply Hstop]. intros [(v & d' & _ & Hu)|(d' & _ & ->)]; [|done].
    by eapply Hstop; [|exact Hu].
Qed.

Lemma exec_code_ok scs scope_of c d st r :
  pending_exits st → Forall op_exits (code_ops c) → Forall P (referenced_blocks (code_terminator c)) →
  exec_code scs scope_of c d st r → step_ok r.
Proof.
  intros Hst Hops Href [(d' & st' & Hx & Ht)|(d' & _ & ->)]; [|done].
  eapply exec_terminator_ok; [|done|exact Ht]. by eapply exec_ops_exits.
Qed.
End Targets.

(** ** Unwinding nothing *)

Lemma remaining_nil st : remaining [] st = st.
Proof. induction st as [|e st IH]; [done|]. unfold remaining in *; simpl. f_equal. exact IH. Qed.

Lemma unwind_nil st d k r : unwind (Some (Some [])) st d k r ↔ r = k d st.
Proof.
  simpl. rewrite remaining_nil. unfold leaving; simpl. split.
  - intros [(d' & Hrun & ->)|(o & Hrun & ->)]; by inversion Hrun.
  - intros ->. left. exists d. split; [constructor | done].
Qed.

(** ** A pass over the operations and terminators of every block *)

Definition noop (op : OpMeaning D V) : Prop :=
  ∃ p, op = Perform p ∧ ∀ d r, p d r ↔ r = Done d.

Lemma exec_ops_noop scope op ops d st r :
  noop op → exec_ops scope (op :: ops) d st r ↔ exec_ops scope ops d st r.
Proof.
  intros (p & -> & Hp). split.
  - intros Hx. inversion Hx as [|? ? ? ? ? ? Hd Ho|? ? ? ? ? Ht|]; subst.
    + apply Hp in Hd. by injection Hd as ->.
    + by apply Hp in Ht.
  - intros Hx. eapply ops_done; [by apply Hp | exact Hx].
Qed.

Lemma exec_ops_cons scope op ops ops' d st r :
  (∀ d st r, exec_ops scope ops d st r ↔ exec_ops scope ops' d st r) →
  exec_ops scope (op :: ops) d st r ↔ exec_ops scope (op :: ops') d st r.
Proof.
  intros Heq. split; intros Hx; inversion Hx; subst;
    [eapply ops_done|eapply ops_trap|eapply ops_register
    |eapply ops_done|eapply ops_trap|eapply ops_register]; eauto; by apply Heq.
Qed.

Context (keep : FunctionOp → bool) (f : FunctionTerminator → FunctionTerminator * bool).
Hypothesis dropped_noop : ∀ op, keep op = false → noop (op_meaning op).
Hypothesis rewritten_same : ∀ scs scope_of scope t d st r,
  conditional_enters scs scope_of scope t = true →
  exec_terminator scs scope_of scope (f t).1 d st r ↔ exec_terminator scs scope_of scope t d st r.

Definition pass_op (op : FunctionOp) : FunctionOp * bool :=
  match op with
  | OpDefer (mkDefer dspan dscopes bl e) =>
      let r := map (pass_block keep f) bl in
      (OpDefer (mkDefer dspan dscopes (map fst r) e), any_changed r)
  | op => (op, false)
  end.

Lemma pass_block_eq id scope span ops t :
  (pass_block keep f (mkBlock id scope span ops t)).1 =
  mkBlock id scope span (map (λ p, p.2.1)
    (List.filter (λ p : FunctionOp * _, keep p.1) (map (λ op, (op, pass_op op)) ops))) (f t).1.
Proof. simpl. by destruct (f t). Qed.

Definition pass_same (b : FunctionBlock) : Prop :=
  ∀ scs scope_of, edges_enter scs scope_of b = true →
  same_code scs scope_of (block_code b) (block_code (pass_block keep f b).1).

Lemma pass_table_same scs bl :
  Forall pass_same bl →
  forallb (edges_enter scs (block_scope_of bl)) bl = true →
  Forall2 (same_code scs (code_scope_of (blocks_code bl)))
    (blocks_code bl) (blocks_code (pass_blocks keep f bl).1).
Proof.
  intros Hall Hin. rewrite scope_of_blocks. unfold pass_blocks, blocks_code; simpl.
  rewrite map_map. revert Hin. generalize (block_scope_of bl) as scope_of. intros scope_of.
  induction Hall as [|b bl Hb _ IH]; simpl; [constructor|].
  intros [Hbin Hin]%andb_prop. rewrite map_map in IH. rewrite map_map.
  constructor; [by apply Hb | by apply IH].
Qed.

Lemma pass_op_meaning op :
  op_all pass_same op →
  match op with
  | OpDefer (mkDefer _ scs bl _) => forallb (edges_enter scs (block_scope_of bl)) bl
  | _ => true
  end = true →
  op_meaning (pass_op op).1 = op_meaning op.
Proof.
  destruct op as [| | | |[s scs bl e]]; try done. simpl. intros Hall Hin. f_equal.
  symmetry. apply table_runs_same. by apply (pass_table_same scs bl).
Qed.

Lemma pass_ops_exec ops scope d st r :
  Forall (op_all pass_same) ops →
  forallb (λ op, match op with
    | OpDefer (mkDefer _ scs bl _) => forallb (edges_enter scs (block_scope_of bl)) bl
    | _ => true end) ops = true →
  exec_ops scope (map op_meaning ops) d st r ↔
  exec_ops scope (map op_meaning (map (λ p, p.2.1)
    (List.filter (λ p : FunctionOp * _, keep p.1) (map (λ op, (op, pass_op op)) ops)))) d st r.
Proof.
  intros Hall. revert d st r. induction Hall as [|op ops Hop _ IH]; [done|].
  intros d st r [Hin Hins]%andb_prop.
  assert (IH' := λ d st r, IH d st r Hins). clear IH. simpl.
  destruct (keep op) eqn:Hk; simpl.
  - rewrite (pass_op_meaning op Hop Hin). by apply exec_ops_cons.
  - rewrite exec_ops_noop; [apply IH' | by apply dropped_noop].
Qed.

Lemma pass_block_same b : pass_same b.
Proof.
  induction b as [id scope span ops t Hops] using block_nested_ind.
  intros scs scope_of [Hcond Hin]%andb_prop. rewrite pass_block_eq, !block_code_eq.
  split_and!; [done..|]. intros d st r. unfold exec_code; simpl.
  setoid_rewrite <- (pass_ops_exec ops scope _ _ _ Hops Hin).
  by setoid_rewrite (rewritten_same scs scope_of scope t _ _ _ Hcond).
Qed.

(** A table run after the pass is the table run before it. *)
Lemma pass_blocks_runs scs bl e :
  forallb (edges_enter scs (block_scope_of bl)) bl = true →
  table_runs scs (blocks_code (pass_blocks keep f bl).1) e = table_runs scs (blocks_code bl) e.
Proof.
  intros Hin. symmetry. apply table_runs_same. apply pass_table_same; [|done].
  apply Forall_true. apply pass_block_same.
Qed.
End Runs.

(** ** Up to traps

    A pass that discards evaluations may discard their traps.  [keeps] says that it
    does no more: whatever [R] does other than trapping, [R'] does, and whatever [R']
    does, [R] does, unless [R] can trap instead. *)

Definition keeps {A B} (trap : A → Prop) (rel : A → B → Prop) (R : A → Prop) (R' : B → Prop) : Prop :=
  (∀ r, R r → trap r ∨ ∃ r', R' r' ∧ rel r r') ∧
  (∀ r', R' r' → (∃ r, R r ∧ rel r r') ∨ ∃ r, R r ∧ trap r).

Lemma keeps_refl {A} (trap : A → Prop) (rel : A → A → Prop) (R : A → Prop) :
  (∀ r, R r → rel r r) → keeps trap rel R R.
Proof. intros Hrel. split; intros r Hr; [right|left]; exists r; auto. Qed.

Lemma keeps_trans {A B} (trap : A → Prop) (rel : A → B → Prop) R R1 R' :
  keeps trap eq R R1 → keeps trap rel R1 R' → keeps trap rel R R'.
Proof.
  intros [F1 B1] [F2 B2]. split.
  - intros r [Ht|(r1 & Hr1 & <-)]%F1; [by left|]. by apply F2.
  - intros r' [(r1 & Hr1 & Hrel)|(r1 & Hr1 & Ht)]%B2.
    + apply B1 in Hr1 as [(r & Hr & ->)|Ht]; [left; by exists r1|by right].
    + apply B1 in Hr1 as [(r & Hr & ->)|Ht']; right; [by exists r1|done].
Qed.

Definition is_trap {D V} (o : Outcome D V) : Prop := ∃ d, o = Trapped d.
Definition keeps_runs {D V} (c c' : Cleanup D V) : Prop := ∀ d, keeps is_trap eq (c d) (c' d).

Section Traps.
Context {D V : Type} `{M : Machine D V}.
Implicit Types (tbl : list (Code D V)) (st : Pending D V) (c : Cleanup D V).

Lemma keeps_runs_refl c : keeps_runs c c.
Proof. intros d. by apply keeps_refl. Qed.

Lemma keeps_runs_trans c1 c2 c3 : keeps_runs c1 c2 → keeps_runs c2 c3 → keeps_runs c1 c3.
Proof. intros H12 H23 d. eapply keeps_trans; [apply H12|apply H23]. Qed.

Definition pending_keeps : Pending D V → Pending D V → Prop :=
  Forall2 (λ e e', e.1 = e'.1 ∧ keeps_runs e.2 e'.2).

Definition step_trap (r : Step D V) : Prop := ∃ d, r = Stop (Trapped d).
Definition step_keeps (r r' : Step D V) : Prop :=
  match r, r' with
  | Goto id d st, Goto id' d' st' => id = id' ∧ d = d' ∧ pending_keeps st st'
  | Stop o, Stop o' => o = o'
  | _, _ => False
  end.

Lemma pending_keeps_refl st : pending_keeps st st.
Proof. apply Forall_Forall2_diag, Forall_true. intros e. split; [done|apply keeps_runs_refl]. Qed.

Lemma step_keeps_refl r : step_keeps r r.
Proof. destruct r; simpl; auto using pending_keeps_refl. Qed.

(** *** Cleanups *)

Lemma leaving_keeps ss st st' :
  pending_keeps st st' → Forall2 keeps_runs (leaving ss st) (leaving ss st').
Proof.
  intros Hst. unfold leaving. induction ss as [|s ss IH]; simpl; [constructor|].
  apply Forall2_app; [|exact IH]. clear IH.
  induction Hst as [|e e' st st' [He Hc] _ IH]; simpl; [constructor|]. rewrite <- He.
  destruct (e.1 =? s); simpl; [by constructor|exact IH].
Qed.

Lemma remaining_keeps ss st st' :
  pending_keeps st st' → pending_keeps (remaining ss st) (remaining ss st').
Proof.
  intros Hst. unfold remaining. induction Hst as [|e e' st st' [He Hc] _ IH]; simpl; [constructor|].
  rewrite <- He. destruct (negb _); [by constructor|exact IH].
Qed.

Lemma run_cleanups_keeps (cs cs' : list (Cleanup D V)) (d : D) :
  Forall2 keeps_runs cs cs' →
  keeps (λ r : D + Outcome D V, ∃ d', r = inr (Trapped d')) eq (run_cleanups cs d) (run_cleanups cs' d).
Proof.
  intros Hcs. revert d. induction Hcs as [|c c' cs cs' Hc _ IH]; intros d; [by apply keeps_refl|].
  destruct (Hc d) as [F B]. split.
  - intros r Hr. inversion Hr as [|? ? ? v d1 ? Hv Hrest|? ? ? o Ho Hno]; subst.
    + apply F in Hv as [[? ?]|(o & Hv & <-)]; [done|]. destruct (IH d1) as [F1 _].
      apply F1 in Hrest as [Ht|(r' & Hr' & <-)]; [by left|]. right. exists r. split; [|done].
      by eapply cleanups_fell.
    + apply F in Ho as [[d1 ->]|(o' & Ho & <-)]; [left; by exists d1|]. right. eexists. split; [|done].
      by apply cleanups_left.
  - intros r Hr. inversion Hr as [|? ? ? v d1 ? Hv Hrest|? ? ? o Ho Hno]; subst.
    + apply B in Hv as [(o & Hv & ->)|(o & Hv & d2 & ->)].
      * destruct (IH d1) as [_ B1]. apply B1 in Hrest as [(r' & Hr' & ->)|(r' & Hr' & d2 & ->)].
        -- left. exists r. split; [by eapply cleanups_fell|done].
        -- right. exists (inr (Trapped d2)). split; [by eapply cleanups_fell|by exists d2].
      * right. exists (inr (Trapped d2)). split; [by apply cleanups_left|by exists d2].
    + apply B in Ho as [(o' & Ho & ->)|(o' & Ho & d2 & ->)].
      * left. eexists. split; [by apply cleanups_left|done].
      * right. exists (inr (Trapped d2)). split; [by apply cleanups_left|by exists d2].
Qed.

Lemma interrupt_keeps o st st' : pending_keeps st st' → step_keeps (interrupt o st) (interrupt o st').
Proof. intros Hst. destruct o; simpl; auto. Qed.

Lemma unwind_keeps ss st st' d (k : D → Pending D V → Step D V) :
  pending_keeps st st' → (∀ d st st', pending_keeps st st' → step_keeps (k d st) (k d st')) →
  keeps step_trap step_keeps (unwind ss st d k) (unwind ss st' d k).
Proof.
  intros Hst Hk. destruct ss as [[ss|]|]; [|by split..].
  destruct (run_cleanups_keeps _ _ d (leaving_keeps ss _ _ Hst)) as [F B].
  pose proof (remaining_keeps ss _ _ Hst) as Hrem. split.
  - intros r [(d' & Hrun & ->)|(o & Hrun & ->)]; apply F in Hrun as [[d1 Ht]|(r' & Hrun & <-)]; try done.
    + right. eexists. split; [left; by exists d'|by apply Hk].
    + injection Ht as ->. left. by exists d1.
    + right. eexists. split; [right; by exists o|by apply interrupt_keeps].
  - intros r [(d' & Hrun & ->)|(o & Hrun & ->)];
      apply B in Hrun as [(r' & Hrun & ->)|(r' & Hrun & d1 & ->)].
    + left. eexists. split; [left; by exists d'|by apply Hk].
    + right. eexists. split; [right; by exists (Trapped d1)|by exists d1].
    + left. eexists. split; [right; by exists o|by apply interrupt_keeps].
    + right. eexists. split; [right; by exists (Trapped d1)|by exists d1].
Qed.

(** *** Terminators *)

Lemma evaluated_keeps e d (k k' : V → D → Step D V → Prop) :
  (∀ v d, keeps step_trap step_keeps (k v d) (k' v d)) →
  keeps step_trap step_keeps (evaluated e d k) (evaluated e d k').
Proof.
  intros Hk. split.
  - intros r [(v & d' & He & Hr)|(d' & He & ->)]; [|left; by exists d'].
    apply (Hk v d') in Hr as [Ht|(r' & Hr' & Hrel)]; [by left|]. right. exists r'. split; [|done].
    left. by exists v, d'.
  - intros r [(v & d' & He & Hr)|(d' & He & ->)].
    + apply (Hk v d') in Hr as [(r' & Hr' & Hrel)|(r' & Hr' & Ht)]; [left|right]; exists r';
        (split; [left; by exists v, d'|done]).
    + left. exists (Stop (Trapped d')). split; [right; by exists d'|done].
Qed.

Lemma step_keeps_one r r' :
  step_keeps r r' → keeps step_trap step_keeps (λ x, x = r) (λ x, x = r').
Proof. intros Hr. split; intros x ->; [right|left]; eexists; by split. Qed.

Lemma exec_terminator_keeps scs scope_of scope t d st st' :
  pending_keeps st st' →
  keeps step_trap step_keeps (exec_terminator scs scope_of scope t d st)
    (exec_terminator scs scope_of scope t d st').
Proof.
  intros Hst.
  assert (Hgoto : ∀ id d, keeps step_trap step_keeps (λ r, r = Goto id d st) (λ r, r = Goto id d st'))
    by (intros; by apply step_keeps_one).
  assert (Hstop : ∀ ss d (o : D → Outcome D V), keeps step_trap step_keeps
    (unwind ss st d (λ d _, Stop (o d))) (unwind ss st' d (λ d _, Stop (o d))))
    by (intros; by apply unwind_keeps).
  destruct t as [|target|target|cond t1 t2|target arms default fallback|value kind conv l s
    |header b c k|value|value]; simpl; [by split|..].
  1,2: apply unwind_keeps; [done|]; intros; simpl; by split_and!.
  1,2: apply evaluated_keeps; intros; apply Hgoto.
  - apply evaluated_keeps. intros v d1. split.
    + intros r [(d2 & Ha & ->)|[(w & d2 & Ha & Hu)|(d2 & Ha & ->)]].
      * right. exists (Goto s d2 st'). split; [left; by exists d2|by split_and!].
      * apply (Hstop _ d2 (λ d, Returned (Some w) d)) in Hu as [Ht|(r' & Hr' & Hrel)]; [by left|].
        right. exists r'. split; [right; left; by exists w, d2|done].
      * left. by exists d2.
    + intros r [(d2 & Ha & ->)|[(w & d2 & Ha & Hu)|(d2 & Ha & ->)]].
      * left. exists (Goto s d2 st). split; [left; by exists d2|by split_and!].
      * apply (Hstop _ d2 (λ d, Returned (Some w) d)) in Hu as [(r' & Hr' & Hrel)|(r' & Hr' & Ht)];
          [left|right]; exists r'; (split; [right; left; by exists w, d2|done]).
      * left. exists (Stop (Trapped d2)). split; [right; right; by exists d2|done].
  - destruct header; [apply Hgoto|]. apply evaluated_keeps. intros. apply Hgoto.
  - destruct value; simpl; [apply evaluated_keeps; intros v d1|]; apply Hstop.
  - destruct value; simpl; [apply evaluated_keeps; intros v d1|]; apply Hstop.
Qed.

(** *** Operations *)

(** An operation that has no effect but may trap. *)
Definition effect_free (op : OpMeaning D V) : Prop :=
  ∃ p, op = Perform p ∧ ∀ d, (∃ r, p d r) ∧ ∀ r, p d r → r = Done d ∨ r = Trap d.

Inductive ops_keep : list (OpMeaning D V) → list (OpMeaning D V) → Prop :=
| keep_nil : ops_keep [] []
| keep_perform p ops ops' : ops_keep ops ops' → ops_keep (Perform p :: ops) (Perform p :: ops')
| keep_register c c' ops ops' :
    keeps_runs c c' → ops_keep ops ops' → ops_keep (Register c :: ops) (Register c' :: ops')
| keep_discard op ops ops' : effect_free op → ops_keep ops ops' → ops_keep (op :: ops) ops'.

Definition ops_result_keeps (r r' : D * Pending D V + D) : Prop :=
  match r, r' with
  | inl (d, st), inl (d', st') => d = d' ∧ pending_keeps st st'
  | inr d, inr d' => d = d'
  | _, _ => False
  end.

Lemma exec_ops_keeps scope ops ops' d st st' :
  ops_keep ops ops' → pending_keeps st st' →
  keeps (λ r, ∃ d, r = inr d) ops_result_keeps (exec_ops scope ops d st) (exec_ops scope ops' d st').
Proof.
  intros Hops. revert d st st'.
  induction Hops as [|p ops ops' _ IH|c c' ops ops' Hc _ IH|op ops ops' (p & -> & Hp) _ IH];
    intros d st st' Hst.
  - split; intros r Hr; inversion Hr; subst; [right|left]; (eexists; split; [constructor|by split]).
  - split; intros r Hr; inversion Hr as [|? ? ? d1 ? ? Hd Hrest|? ? ? d1 ? Ht|]; subst.
    + apply (IH d1 _ _ Hst) in Hrest as [Ht|(r' & Hr' & Hrel)]; [by left|]. right. exists r'.
      split; [by eapply ops_done|done].
    + left. by exists d1.
    + apply (IH d1 _ _ Hst) in Hrest as [(r' & Hr' & Hrel)|(r' & Hr' & Ht)]; [left|right]; exists r';
        (split; [by eapply ops_done|done]).
    + left. exists (inr d1). split; [by apply ops_trap|done].
  - assert (Hst' : pending_keeps ((scope, c) :: st) ((scope, c') :: st')) by (constructor; [by split|done]).
    destruct (IH d _ _ Hst') as [F B]. split; intros r Hr; inversion Hr as [| | |? ? ? ? ? Hrest]; subst.
    + apply F in Hrest as [Ht|(r' & Hr' & Hrel)]; [by left|]. right. exists r'.
      split; [by apply ops_register|done].
    + apply B in Hrest as [(r' & Hr' & Hrel)|(r' & Hr' & Ht)]; [left|right]; exists r';
        (split; [by apply ops_register|done]).
  - destruct (IH d _ _ Hst) as [F B]. destruct (Hp d) as [[r0 Hr0] Hall]. split.
    + intros r Hr. inversion Hr as [|? ? ? d1 ? ? Hd Hrest|? ? ? d1 ? Ht|]; subst.
      * apply Hall in Hd as [[= ->]|[=]]. by apply F.
      * left. by exists d1.
    + intros r Hr. destruct (Hall _ Hr0) as [-> | ->].
      * apply B in Hr as [(r' & Hr' & Hrel)|(r' & Hr' & Ht)]; [left|right]; exists r';
          (split; [by eapply ops_done|done]).
      * right. exists (inr d). split; [by apply ops_trap|by exists d].
Qed.

(** *** Tables *)

Definition code_keeps scs scope_of (c c' : Code D V) : Prop :=
  code_id c = code_id c' ∧ code_scope c = code_scope c' ∧
  ∀ d st st', pending_keeps st st' →
    keeps step_trap step_keeps (exec_code scs scope_of c d st) (exec_code scs scope_of c' d st').

Lemma exec_code_keeps scs scope_of id scope ops ops' t t' :
  ops_keep ops ops' →
  (∀ d st, keeps step_trap eq (exec_terminator scs scope_of scope t d st)
     (exec_terminator scs scope_of scope t' d st)) →
  code_keeps scs scope_of (mkCode id scope ops t) (mkCode id scope ops' t').
Proof.
  intros Hops Ht. split_and!; [done..|]. intros d st st' Hst.
  destruct (exec_ops_keeps scope ops ops' d st st' Hops Hst) as [F B].
  assert (Hterm : ∀ d st st', pending_keeps st st' → keeps step_trap step_keeps
    (exec_terminator scs scope_of scope t d st) (exec_terminator scs scope_of scope t' d st'))
    by (intros; eapply keeps_trans; [apply Ht|by apply exec_terminator_keeps]).
  unfold exec_code; simpl. split.
  - intros r [(d1 & st1 & Hx & Hr)|(d1 & Hx & ->)]; [|left; by exists d1].
    apply F in Hx as [[? [=]]|(r' & Hx & Hrel)]. destruct r' as [[d1' st1']|]; [|done].
    destruct Hrel as [<- Hst1]. apply (Hterm d1 _ _ Hst1) in Hr as [Htr|(r' & Hr' & Hrel)]; [by left|].
    right. exists r'. split; [left; by exists d1, st1'|done].
  - intros r [(d1 & st1 & Hx & Hr)|(d1 & Hx & ->)];
      apply B in Hx as [(r' & Hx & Hrel)|(r' & Hx & d2 & ->)].
    + destruct r' as [[d1' st1']|]; [|done]. destruct Hrel as [-> Hst1].
      apply (Hterm d1 _ _ Hst1) in Hr as [(r' & Hr' & Hrel)|(r' & Hr' & Htr)]; [left|right];
        exists r'; (split; [left; by exists d1, st1'|done]).
    + right. exists (Stop (Trapped d2)). split; [right; by exists d2|by exists d2].
    + destruct r' as [[]|]; [done|]. simpl in Hrel. subst. left. exists (Stop (Trapped d1)).
      split; [right; by exists d1|done].
    + right. exists (Stop (Trapped d2)). split; [right; by exists d2|by exists d2].
Qed.

Lemma find_keeps scs scope_of tbl tbl' id :
  Forall2 (code_keeps scs scope_of) tbl tbl' →
  option_Forall2 (code_keeps scs scope_of) (find_code tbl id) (find_code tbl' id).
Proof.
  induction 1 as [|c c' tbl tbl' Hc _ IH]; [constructor|]. unfold find_code in *; simpl.
  pose proof (proj1 Hc) as Hid. rewrite <- Hid.
  destruct (code_id c =? id); [by constructor | exact IH].
Qed.

Lemma scope_of_keeps scs scope_of tbl tbl' :
  Forall2 (code_keeps scs scope_of) tbl tbl' → code_scope_of tbl = code_scope_of tbl'.
Proof.
  intros Hall. apply functional_extensionality. intros id. unfold code_scope_of.
  destruct (find_keeps _ _ _ _ id Hall) as [c c' (_ & Hs & _)|]; simpl; congruence.
Qed.

Lemma runs_keeps_1 scs tbl tbl' n id d st st' o :
  Forall2 (code_keeps scs (code_scope_of tbl)) tbl tbl' → pending_keeps st st' →
  runs scs tbl n id d st o → is_trap o ∨ runs scs tbl' n id d st' o.
Proof.
  intros Hall Hst Hr. pose proof (scope_of_keeps _ _ _ _ Hall) as Hscope. revert st' Hst.
  induction Hr as [id d st Hf | id c d st o Hf He | n id c d st id' d' st1 o Hf He _ IH]; intros st' Hst;
    pose proof (find_keeps _ _ _ _ id Hall) as Hfind; rewrite Hf in Hfind;
    inversion Hfind as [? c' (Hid & Hs & Hexec) Heq1 Heq2|Heq2]; subst.
  - right. by apply runs_exit.
  - apply (Hexec d _ _ Hst) in He as [[d1 [= ->]]|(r' & He & Hrel)]; [left; by exists d1|].
    destruct r' as [|o']; [done|]. simpl in Hrel. subst o'. right. eapply runs_stop; [done|].
    by rewrite <- Hscope.
  - apply (Hexec d _ _ Hst) in He as [[d1 [=]]|(r' & He & Hrel)].
    destruct r' as [id1 d1 st1'|]; [|done]. destruct Hrel as (<- & <- & Hst1).
    destruct (IH st1' Hst1) as [Ht|Hr']; [by left|]. right. eapply runs_goto; [done| |exact Hr'].
    by rewrite <- Hscope.
Qed.

Lemma runs_keeps_2 scs tbl tbl' n id d st st' o :
  Forall2 (code_keeps scs (code_scope_of tbl)) tbl tbl' → pending_keeps st st' →
  runs scs tbl' n id d st' o → ∃ n o', runs scs tbl n id d st o' ∧ (o' = o ∨ is_trap o').
Proof.
  intros Hall Hst Hr. pose proof (scope_of_keeps _ _ _ _ Hall) as Hscope. revert st Hst.
  induction Hr as [id d st' Hf | id c d st' o Hf He | n id c d st' id' d' st1 o Hf He _ IH]; intros st Hst;
    pose proof (find_keeps _ _ _ _ id Hall) as Hfind; rewrite Hf in Hfind;
    inversion Hfind as [c0 ? (Hid & Hs & Hexec) Heq1 Heq2|Heq2]; subst;
    try rewrite <- Hscope in He.
  - exists 0%nat, (Exited id d). split; [by apply runs_exit|by left].
  - apply (Hexec d _ _ Hst) in He as [(r & He & Hrel)|(r & He & d1 & ->)].
    + destruct r as [|o1]; [done|]. simpl in Hrel. subst o1. exists 1%nat, o. split; [|by left].
      by eapply runs_stop.
    + exists 1%nat, (Trapped d1). split; [by eapply runs_stop|right; by exists d1].
  - apply (Hexec d _ _ Hst) in He as [(r & He & Hrel)|(r & He & d1 & ->)].
    + destruct r as [id1 d1 st1'|]; [|done]. destruct Hrel as (-> & -> & Hst1).
      destruct (IH st1' Hst1) as (m & o' & Hr' & Ho). exists (S m), o'. split; [|done].
      by eapply runs_goto.
    + exists 1%nat, (Trapped d1). split; [by eapply runs_stop|right; by exists d1].
Qed.

Lemma table_runs_keeps scs tbl tbl' e :
  Forall2 (code_keeps scs (code_scope_of tbl)) tbl tbl' →
  keeps_runs (table_runs scs tbl e) (table_runs scs tbl' e).
Proof.
  intros Hall d. assert (Hentry : is_Some (find_code tbl e) ↔ is_Some (find_code tbl' e))
    by (destruct (find_keeps _ _ _ _ e Hall); [|done]; split; by eexists).
  split.
  - intros o [He [n Hr]]. destruct (runs_keeps_1 _ _ _ _ _ _ _ [] _ Hall ltac:(constructor) Hr)
      as [Ht|Hr']; [by left|]. right. exists o. split; [|done]. split; [by apply Hentry|by exists n].
  - intros o [He [n Hr]]. destruct (runs_keeps_2 _ _ _ _ _ _ [] _ _ Hall ltac:(constructor) Hr)
      as (m & o' & Hr' & Ho).
    assert (Hrun : table_runs scs tbl e d o') by (split; [by apply Hentry|by exists m]).
    destruct Ho as [<-|Ht]; [left|right]; by exists o'.
Qed.

(** *** A pass that discards *)

Section Pass.
Context (keep : FunctionOp → bool) (f : FunctionTerminator → FunctionTerminator * bool).
Hypothesis dropped_effect_free : ∀ op, keep op = false → effect_free (op_meaning op).
Hypothesis rewritten_keeps : ∀ scs scope_of scope t d st,
  conditional_enters scs scope_of scope t = true →
  keeps step_trap eq (exec_terminator scs scope_of scope t d st)
    (exec_terminator scs scope_of scope (f t).1 d st).

Definition pass_keeps (b : FunctionBlock) : Prop :=
  ∀ scs scope_of, edges_enter scs scope_of b = true →
  code_keeps scs scope_of (block_code b) (block_code (pass_block keep f b).1).

Lemma pass_table_keeps scs bl :
  Forall pass_keeps bl → forallb (edges_enter scs (block_scope_of bl)) bl = true →
  Forall2 (code_keeps scs (code_scope_of (blocks_code bl)))
    (blocks_code bl) (blocks_code (pass_blocks keep f bl).1).
Proof.
  intros Hall Hin. rewrite scope_of_blocks. unfold pass_blocks, blocks_code; simpl.
  rewrite map_map. revert Hin. generalize (block_scope_of bl) as scope_of. intros scope_of.
  induction Hall as [|b bl Hb _ IH]; simpl; [constructor|].
  intros [Hbin Hin]%andb_prop. rewrite map_map in IH. rewrite map_map.
  constructor; [by apply Hb | by apply IH].
Qed.

Lemma pass_ops_keep ops :
  Forall (op_all pass_keeps) ops →
  forallb (λ op, match op with
    | OpDefer (mkDefer _ scs bl _) => forallb (edges_enter scs (block_scope_of bl)) bl
    | _ => true end) ops = true →
  ops_keep (map op_meaning ops) (map op_meaning (map (λ p, p.2.1)
    (List.filter (λ p : FunctionOp * _, keep p.1) (map (λ op, (op, pass_op keep f op)) ops)))).
Proof.
  induction 1 as [|op ops Hop _ IH]; [constructor|]. intros [Hin Hins]%andb_prop. simpl.
  destruct (keep op) eqn:Hk; simpl.
  - destruct op as [b| | | |[s scs bl e]]; simpl; try (apply keep_perform; by apply IH).
    + destruct (binding_value b); apply keep_perform; by apply IH.
    + apply keep_register; [|by apply IH]. apply table_runs_keeps.
      by apply (pass_table_keeps scs bl).
  - apply keep_discard; [by apply dropped_effect_free|by apply IH].
Qed.

Lemma pass_block_keeps b : pass_keeps b.
Proof.
  induction b as [id scope span ops t Hops] using block_nested_ind.
  intros scs scope_of [Hcond Hin]%andb_prop. rewrite pass_block_eq, !block_code_eq.
  apply exec_code_keeps; [by apply pass_ops_keep|]. intros d st. by apply rewritten_keeps.
Qed.

Lemma pass_blocks_keeps scs bl e :
  forallb (edges_enter scs (block_scope_of bl)) bl = true →
  keeps_runs (table_runs scs (blocks_code bl) e)
    (table_runs scs (blocks_code (pass_blocks keep f bl).1) e).
Proof.
  intros Hin. apply table_runs_keeps, pass_table_keeps; [|done].
  apply Forall_true. apply pass_block_keeps.
Qed.
End Pass.
End Traps.
