(* ===== verification/FnOptGraph.v ===== *)
(** * The graph passes: reachability, removal of blocks, threading of empty jumps

    [reachable_from] computes the reflexive and transitive closure of the edges of a
    table ([reachable_exact]), a [defer] body leaves only for blocks the optimiser
    counts among those edges ([defer_exits]), so removing the other blocks keeps
    every run ([retain_runs]).  Threading empty jumps keeps every run whatever the
    jumps are ([retarget_runs]), and ends in two rounds when they have no cycle
    ([merge_loop_ends]). *)

From stdpp Require Import gmap.
From Stdlib Require Import FunctionalExtensionality PropExtensionality.
From S2P Require Import Prelude RustStd Lexer Literals Ty FnIr FnValidate FnOpt FnSem FnOptFacts.

(** ** Lookups in a block table *)

Definition ids_distinct (bl : list FunctionBlock) : Prop := NoDup (map block_id bl).

Lemma foldl_insert_lookup {B} (l : list (Z * B)) (m : gmap Z B) k x :
  foldl (λ m p, <[p.1 := p.2]> m) m l !! k = Some x → m !! k = Some x ∨ (k, x) ∈ l.
Proof.
  revert m. induction l as [|[k1 x1] l IH]; intros m; simpl; [by left|].
  intros [Hm|Hin]%IH; [|right; by right].
  destruct (decide (k1 = k)) as [->|Hne].
  - rewrite lookup_insert_eq in Hm. simplify_eq. right. by left.
  - rewrite lookup_insert_ne in Hm; [by left | done].
Qed.

Lemma foldl_insert_None {B} (l : list (Z * B)) (m : gmap Z B) k :
  foldl (λ m p, <[p.1 := p.2]> m) m l !! k = None → m !! k = None ∧ k ∉ l.*1.
Proof.
  revert m. induction l as [|[k1 x1] l IH]; intros m; simpl; [intros ->; set_solver|].
  intros [Hm Hl]%IH. apply lookup_insert_None in Hm as [Hm Hne]. set_solver.
Qed.

Lemma index_blocks_foldl bl :
  index_blocks bl = foldl (λ m p, <[p.1 := p.2]> m) ∅ (map (λ p, (block_id p.2, p.1)) (imap pair bl)).
Proof.
  unfold index_blocks. generalize (imap pair bl) as l, (∅ : gmap Z nat) as m.
  induction l as [|p l IH]; intros m; simpl; [done | apply IH].
Qed.

Lemma index_blocks_Some bl id i :
  index_blocks bl !! id = Some i → ∃ b, bl !! i = Some b ∧ block_id b = id.
Proof.
  rewrite index_blocks_foldl. intros [Hm|Hin]%foldl_insert_lookup; [by rewrite lookup_empty in Hm|].
  apply list_elem_of_In, in_map_iff in Hin as ([j b] & Heq & Hin). simplify_eq.
  apply list_elem_of_In, elem_of_lookup_imap in Hin as (k & b' & Hb & Hk). simplify_eq. eauto.
Qed.

Lemma index_blocks_None bl id :
  index_blocks bl !! id = None ↔ find_block bl id = None.
Proof.
  split.
  - rewrite index_blocks_foldl. intros [_ Hnot]%foldl_insert_None.
    destruct (find_block bl id) as [b|] eqn:Hf; [|done]. exfalso. apply Hnot.
    apply find_some in Hf as [Hin Hid]. apply Z.eqb_eq in Hid as <-.
    apply list_elem_of_In, list_elem_of_lookup in Hin as [i Hi].
    apply list_elem_of_fmap. exists (block_id b, i). split; [done|].
    apply list_elem_of_In, in_map_iff. exists (i, b). split; [done|].
    apply list_elem_of_In, elem_of_lookup_imap. eauto.
  - intros Hf. destruct (index_blocks bl !! id) as [i|] eqn:Hi; [|done].
    apply index_blocks_Some in Hi as (b & Hb & <-).
    pose proof (find_none _ _ Hf b) as Hnone. simpl in Hnone.
    rewrite Z.eqb_refl in Hnone. discriminate Hnone.
    apply list_elem_of_In. by eapply list_elem_of_lookup_2.
Qed.

Lemma find_block_Some bl id b :
  find_block bl id = Some b → b ∈ bl ∧ block_id b = id.
Proof. intros [Hin Hid]%find_some. split; [by apply list_elem_of_In | by apply Z.eqb_eq]. Qed.

Lemma find_block_distinct bl b :
  ids_distinct bl → b ∈ bl → find_block bl (block_id b) = Some b.
Proof.
  intros Hnd Hin. induction bl as [|b1 bl IH]; [by apply not_elem_of_nil in Hin|].
  unfold find_block in *; simpl. apply NoDup_cons in Hnd as [Hnot Hnd].
  apply elem_of_cons in Hin as [<-|Hin]; [by rewrite Z.eqb_refl|].
  destruct (Z.eqb_spec (block_id b1) (block_id b)) as [Heq|_]; [|by apply IH].
  exfalso. apply Hnot. rewrite Heq. apply list_elem_of_fmap. eauto.
Qed.

Lemma cfg_block_find bl id :
  ids_distinct bl → (i ← cfg_block (cfg_new bl) id; bl !! i) = find_block bl id.
Proof.
  intros Hnd. unfold cfg_block; simpl. destruct (index_blocks bl !! id) as [i|] eqn:Hi; simpl.
  - apply index_blocks_Some in Hi as (b & Hb & <-). rewrite Hb. symmetry.
    apply find_block_distinct; [done|]. by eapply list_elem_of_lookup_2.
  - symmetry. by apply index_blocks_None.
Qed.

(** ** Where the bodies of [defer] operations can leave for *)

Lemma block_defer_targets_eq b : block_defer_targets b = block_edges b.
Proof.
  destruct b as [id scope span ops t]. unfold block_edges, defer_referenced_blocks; simpl. f_equal.
  induction ops as [|[| | | |[s scs bl e]] ops IH]; simpl; [done..|]. rewrite IH.
  induction bl as [|b bl IHbl]; simpl; [done|]. rewrite <- !app_assoc. by rewrite IHbl.
Qed.

Section Exits.
Context {D V : Type} `{M : Machine D V}.

Definition block_exits_ok (b : FunctionBlock) : Prop :=
  ∀ P, Forall P (block_edges b) → Forall (op_exits (D:=D) (V:=V) P) (code_ops (block_code b)).

Lemma table_exits scs bl e (P : FunctionBlockId → Prop) :
  Forall block_exits_ok bl → Forall P (bl ≫= block_edges) →
  cleanup_exits P (table_runs scs (blocks_code bl) e).
Proof.
  intros Hbl HP d id d' [Hentry [n Hr]].
  assert (Hblock : ∀ b, b ∈ bl → Forall P (block_edges b)).
  { intros b Hb. apply Forall_forall. intros t Ht. eapply Forall_forall; [exact HP|].
    apply list_elem_of_bind. eauto. }
  cut (∀ n id0 d st o, runs scs (blocks_code bl) n id0 d st o →
    pending_exits P st → (is_Some (find_code (blocks_code bl) id0) ∨ P id0) →
    ∀ id d', o = Exited id d' → P id).
  { intros Hcut. eapply Hcut; [exact Hr|constructor|by left|done]. }
  clear n Hr d id d' Hentry. intros n id0 d st o Hr.
  assert (Hok : ∀ id c d st r, find_code (blocks_code bl) id = Some c → pending_exits P st →
    exec_code scs (code_scope_of (blocks_code bl)) c d st r → step_ok P r).
  { intros id c d1 st1 r Hf Hst. rewrite find_blocks_code in Hf.
    apply fmap_Some in Hf as (b & [Hb _]%find_block_Some & ->). specialize (Hblock b Hb).
    apply exec_code_ok; [done| |].
    - rewrite Forall_forall in Hbl. by apply Hbl.
    - destruct b. by apply Forall_app in Hblock as [? _]. }
  induction Hr as [id d st Hf|id c d st o Hf He|n id c d st id' d' st' o Hf He _ IH];
    intros Hst Hin id2 d2 Ho.
  - simplify_eq. destruct Hin as [[? Hin]|Hin]; [congruence | done].
  - exfalso. specialize (Hok _ _ _ _ _ Hf Hst He). simpl in Hok. by eapply Hok.
  - specialize (Hok _ _ _ _ _ Hf Hst He) as [Hid Hst']. eapply IH; eauto.
Qed.

Lemma block_exits b : block_exits_ok b.
Proof.
  induction b as [id scope span ops t Hops] using block_nested_ind.
  intros P HP. rewrite block_code_eq. simpl. apply Forall_app in HP as [_ HP]. simpl in HP.
  unfold defer_referenced_blocks in HP.
  induction Hops as [|op ops Hop _ IH]; simpl in *; [constructor|].
  apply Forall_app in HP as [HP1 HP]. constructor; [|by apply IH].
  destruct op as [binding| | | |[s scs bl e]]; simpl in *; try done.
  - by destruct (binding_value binding).
  - apply table_exits; [done|]. erewrite list_bind_ext; [exact HP1| |done].
    intros b. symmetry. apply block_defer_targets_eq.
Qed.
End Exits.

(** ** Reachability *)

Definition edge (bl : list FunctionBlock) (a b : FunctionBlockId) : Prop :=
  ∃ blk, find_block bl a = Some blk ∧ b ∈ block_edges blk ∧ is_Some (find_block bl b).

Section Reachable.
Context (bl : list FunctionBlock).
Hypothesis distinct : ids_distinct bl.

Definition next_blocks (b : FunctionBlock) : list FunctionBlockId :=
  cfg_referenced_blocks (cfg_new bl) (referenced_blocks (terminator b)) ++
  cfg_referenced_blocks (cfg_new bl) (defer_referenced_blocks (block_ops b)).

Lemma elem_of_cfg_referenced y l :
  y ∈ cfg_referenced_blocks (cfg_new bl) l ↔ y ∈ l ∧ is_Some (find_block bl y).
Proof.
  unfold cfg_referenced_blocks. rewrite !list_elem_of_In, List.filter_In, bool_decide_eq_true. simpl.
  rewrite <- !not_eq_None_Some. by rewrite index_blocks_None.
Qed.

Lemma elem_of_next a b y : find_block bl a = Some b → y ∈ next_blocks b ↔ edge bl a y.
Proof.
  intros Hf. unfold next_blocks. rewrite elem_of_app, !elem_of_cfg_referenced.
  unfold edge, block_edges. setoid_rewrite elem_of_app. naive_solver.
Qed.

Lemma length_next b : (length (next_blocks b) ≤ length (block_edges b))%nat.
Proof.
  unfold next_blocks, block_edges, cfg_referenced_blocks. rewrite !length_app.
  pose proof (List.filter_length_le (λ id, bool_decide (is_Some (blocks_by_id (cfg_new bl) !! id)))
    (referenced_blocks (terminator b))).
  pose proof (List.filter_length_le (λ id, bool_decide (is_Some (blocks_by_id (cfg_new bl) !! id)))
    (defer_referenced_blocks (block_ops b))). lia.
Qed.

(** The edges still to be followed when [seen] has been visited. *)
Definition todo (l : list FunctionBlock) (seen : gset Z) : nat :=
  length (List.filter (λ b, negb (bool_decide (block_id b ∈ seen))) l ≫= block_edges).

Lemma todo_cons b l seen :
  todo (b :: l) seen =
  ((if bool_decide (block_id b ∈ seen) then 0 else length (block_edges b)) + todo l seen)%nat.
Proof. unfold todo; simpl. case_bool_decide; simpl; [done|]. by rewrite length_app. Qed.

Lemma todo_mono l seen x : (todo l ({[x]} ∪ seen) ≤ todo l seen)%nat.
Proof.
  induction l as [|b l IH]; [done|]. rewrite !todo_cons.
  repeat case_bool_decide; set_unfold; try tauto; lia.
Qed.

Lemma todo_visit l seen b :
  b ∈ l → block_id b ∉ seen →
  (length (block_edges b) + todo l ({[block_id b]} ∪ seen) ≤ todo l seen)%nat.
Proof.
  intros Hin Hnot. induction l as [|b1 l IH]; [by apply not_elem_of_nil in Hin|].
  rewrite !todo_cons. apply elem_of_cons in Hin as [<-|Hin].
  - pose proof (todo_mono l seen (block_id b)).
    rewrite bool_decide_eq_true_2 by set_solver. rewrite bool_decide_eq_false_2 by done. lia.
  - specialize (IH Hin). repeat case_bool_decide; set_unfold; try tauto; lia.
Qed.

Definition closed_under (seen : gset Z) (stack : list Z) : Prop :=
  ∀ x y, x ∈ seen → edge bl x y → y ∈ seen ∨ y ∈ stack.

Lemma reachable_loop_spec fuel seen stack :
  (length stack + todo bl seen ≤ fuel)%nat → closed_under seen stack →
  ∃ out, reachable_loop fuel (cfg_new bl) bl seen stack = Some out ∧
    seen ⊆ out ∧ (∀ x, x ∈ stack → x ∈ out) ∧ closed_under out [] ∧
    ∀ e, (∀ x, x ∈ seen ∨ x ∈ stack → rtc (edge bl) e x) → ∀ x, x ∈ out → rtc (edge bl) e x.
Proof.
  revert seen stack. induction fuel as [|fuel IH]; intros seen [|id stack] Hfuel Hclosed;
    simpl in Hfuel; try lia.
  1,2: exists seen; split_and!; [done|done|set_solver|exact Hclosed|by eauto].
  simpl. case_bool_decide as Hin.
  - destruct (IH seen stack) as (out & Hrun & Hsub & Hstack & Hcl & Hsound); [lia| |].
    { intros x y Hx Hxy. destruct (Hclosed x y Hx Hxy) as [?|[->|?]%elem_of_cons]; auto. }
    exists out. split_and!; [done|done| |done|].
    + intros x [->|Hx]%elem_of_cons; [by apply Hsub | by apply Hstack].
    + intros e He. apply Hsound. intros x Hx. apply He. set_solver.
  - pose proof (cfg_block_find bl id distinct) as Hfind.
    destruct (cfg_block (cfg_new bl) id) as [i|] eqn:Hi; simpl in Hfind.
    + destruct (bl !! i) as [b|] eqn:Hb; [|by apply index_blocks_Some in Hi as (? & ? & _); congruence].
      symmetry in Hfind. pose proof (find_block_Some _ _ _ Hfind) as [Hbl Hid].
      fold (next_blocks b). pose proof (length_next b).
      pose proof (todo_visit bl seen b Hbl) as Hvisit. rewrite Hid in Hvisit.
      assert (Hnext : ∀ y, y ∈ rev (next_blocks b) ↔ edge bl id y).
      { intros y. rewrite list_elem_of_In, <- List.in_rev, <- list_elem_of_In.
        by apply elem_of_next. }
      destruct (IH ({[id]} ∪ seen) (rev (next_blocks b) ++ stack))
        as (out & Hrun & Hsub & Hstack & Hcl & Hsound).
      { rewrite length_app, length_rev. specialize (Hvisit Hin). lia. }
      { intros x y Hx Hxy. rewrite elem_of_app, Hnext.
        apply elem_of_union in Hx as [->%elem_of_singleton|Hx]; [tauto|].
        destruct (Hclosed x y Hx Hxy) as [?|[->|?]%elem_of_cons]; set_solver. }
      exists out. split_and!; [done|set_solver| |done|].
      * intros x [->|Hx]%elem_of_cons; [set_solver|]. apply Hstack. set_solver.
      * intros e He. apply Hsound. intros x. rewrite elem_of_app, Hnext. intros [Hx|[Hx|Hx]];
          [|eapply rtc_r; [|exact Hx]|]; apply He; set_solver.
    + symmetry in Hfind. pose proof (todo_mono bl seen id).
      destruct (IH ({[id]} ∪ seen) stack) as (out & Hrun & Hsub & Hstack & Hcl & Hsound); [lia| |].
      { intros x y Hx Hxy. apply elem_of_union in Hx as [->%elem_of_singleton|Hx].
        - destruct Hxy as (b & Hb & _). congruence.
        - destruct (Hclosed x y Hx Hxy) as [?|[->|?]%elem_of_cons]; set_solver. }
      exists out. split_and!; [done|set_solver| |done|].
      * intros x [->|Hx]%elem_of_cons; [set_solver|by apply Hstack].
      * intros e He. apply Hsound. intros x Hx. apply He. set_solver.
Qed.

Lemma todo_empty : todo bl ∅ = length (bl ≫= block_edges).
Proof.
  unfold todo. f_equal. f_equal. clear distinct. induction bl as [|b l IH]; [done|]. simpl.
  rewrite bool_decide_eq_false_2 by set_solver. simpl. f_equal. exact IH.
Qed.

Lemma reachable_spec e :
  let out := reachable_from (cfg_new bl) bl e in
  e ∈ out ∧ closed_under out [] ∧ ∀ x, x ∈ out → rtc (edge bl) e x.
Proof.
  unfold reachable_from.
  destruct (reachable_loop_spec (reachable_fuel bl) ∅ [e])
    as (out & -> & _ & Hstack & Hcl & Hsound).
  - unfold reachable_fuel. rewrite todo_empty. simpl. lia.
  - intros x y Hx. set_solver.
  - simpl. split_and!; [set_solver|done|]. apply Hsound. intros x [Hx|Hx]; [set_solver|].
    apply list_elem_of_singleton in Hx as ->. done.
Qed.

Lemma reachable_exact e x :
  x ∈ reachable_from (cfg_new bl) bl e ↔ rtc (edge bl) e x.
Proof.
  pose proof (reachable_spec e) as (He & Hcl & Hsound). split; [apply Hsound|].
  revert x. apply (rtc_ind_r (λ x, x ∈ reachable_from (cfg_new bl) bl e)); [done|].
  intros y z _ Hyz IH. destruct (Hcl y z IH Hyz) as [Hz|Hz]; [done | by apply not_elem_of_nil in Hz].
Qed.
End Reachable.

(** ** Tables that agree where control can go *)

Section Agree.
Context {D V : Type} `{M : Machine D V}.
Implicit Types (tbl : list (Code D V)) (st : Pending D V).

Lemma exec_terminator_scope scs scope_of scope_of' scope t d st r :
  (∀ x, x ∈ referenced_blocks t → scope_of x = scope_of' x) →
  exec_terminator scs scope_of scope t d st r ↔ exec_terminator scs scope_of' scope t d st r.
Proof.
  intros Heq. destruct t as [|target|target| | | | | |]; simpl in *; try done;
    unfold exits; by rewrite Heq by set_solver.
Qed.

Lemma exec_code_scope scs scope_of scope_of' c d st r :
  (∀ x, x ∈ referenced_blocks (code_terminator c) → scope_of x = scope_of' x) →
  exec_code scs scope_of c d st r ↔ exec_code scs scope_of' c d st r.
Proof.
  intros Heq. unfold exec_code.
  by setoid_rewrite (exec_terminator_scope scs scope_of scope_of' _ _ _ _ _ Heq).
Qed.

Lemma runs_agree (P : FunctionBlockId → Prop) scs tbl tbl' n id d st o :
  (∀ id, P id → find_code tbl id = find_code tbl' id) →
  (∀ id c, P id → find_code tbl id = Some c →
    Forall (op_exits P) (code_ops c) ∧ Forall P (referenced_blocks (code_terminator c))) →
  P id → pending_exits P st → runs scs tbl n id d st o → runs scs tbl' n id d st o.
Proof.
  intros Hfind Hcode Hid Hst Hr.
  assert (Hstep : ∀ id c d st r, P id → pending_exits P st → find_code tbl id = Some c →
    exec_code scs (code_scope_of tbl) c d st r →
    step_ok P r ∧ find_code tbl' id = Some c ∧ exec_code scs (code_scope_of tbl') c d st r).
  { intros id1 c d1 st1 r HP Hst1 Hc Hx. destruct (Hcode id1 c HP Hc) as [Hops Href].
    split_and!; [by eapply exec_code_ok|by rewrite <- Hfind|].
    apply (exec_code_scope scs (code_scope_of tbl)); [|done].
    intros x Hin. unfold code_scope_of. rewrite Hfind; [done|]. by eapply Forall_forall in Href. }
  induction Hr as [id d st Hf|id c d st o Hf He|n id c d st id' d' st' o Hf He _ IH].
  - apply runs_exit. by rewrite <- Hfind.
  - destruct (Hstep _ _ _ _ _ Hid Hst Hf He) as (_ & ? & ?). by eapply runs_stop.
  - destruct (Hstep _ _ _ _ _ Hid Hst Hf He) as ([HP' Hst'] & ? & ?).
    eapply runs_goto; [done..|]. by apply IH.
Qed.

(** ** Removal of unreachable blocks *)

Lemma find_retained bl (R : gset Z) id :
  find_block (List.filter (λ b, bool_decide (block_id b ∈ R)) bl) id =
  if decide (id ∈ R) then find_block bl id else None.
Proof.
  induction bl as [|b bl IH]; simpl; [by destruct (decide _)|]. unfold find_block in *.
  case_bool_decide as Hb; simpl; rewrite IH; destruct (Z.eqb_spec (block_id b) id) as [<- | ];
    by destruct (decide _).
Qed.

Lemma retain_runs scs bl e :
  ids_distinct bl →
  table_runs scs (blocks_code (retain_reachable (reachable_from (cfg_new bl) bl e) bl).1) e =
  table_runs scs (blocks_code bl) e.
Proof.
  intros Hnd. unfold retain_reachable. case_match; [done|]. simpl.
  pose proof (reachable_spec bl Hnd e) as (He & Hcl & _).
  set (R := reachable_from (cfg_new bl) bl e) in *. set (P := λ id, id ∈ R ∨ find_block bl id = None).
  assert (Hfind : ∀ id, P id → find_code (blocks_code bl) id =
    find_code (blocks_code (List.filter (λ b, bool_decide (block_id b ∈ R)) bl)) id).
  { intros id HP. rewrite !find_blocks_code, find_retained.
    destruct (decide _); [done|]. by destruct HP as [?| ->]. }
  assert (Hcode : ∀ id c, P id → find_code (blocks_code bl) id = Some c →
    Forall (op_exits P) (code_ops c) ∧ Forall P (referenced_blocks (code_terminator c))).
  { intros id c HP Hc. rewrite find_blocks_code in Hc. apply fmap_Some in Hc as (b & Hb & ->).
    assert (HPb : Forall P (block_edges b)).
    { apply Forall_forall. intros y Hy. destruct (find_block bl y) eqn:Hfy; [left|by right].
      destruct HP as [HP|HP]; [|congruence].
      destruct (Hcl id y HP) as [?|Hnil]; [|done|by apply not_elem_of_nil in Hnil].
      exists b. rewrite Hfy. eauto. }
    split; [by apply block_exits|]. destruct b. by apply Forall_app in HPb as [? _]. }
  apply table_runs_eq. intros d o. unfold table_runs. rewrite <- Hfind by (by left).
  split; intros [Hs [n Hn]]; (split; [done|]); exists n; revert Hn;
    (apply (runs_agree P); [| |by left|by constructor]); [| |exact Hfind|exact Hcode].
  - intros id HP. symmetry. by apply Hfind.
  - intros id c HP Hc. apply (Hcode id); [done|]. by rewrite Hfind.
Qed.
End Agree.

(** ** Threading of empty jumps *)

Lemma scope_chain_loop_prefix fuel scs acc cur chain :
  scope_chain_loop fuel scs acc cur = Some (Some chain) → ∃ rest, chain = acc ++ rest.
Proof.
  revert acc cur. induction fuel as [|fuel IH]; intros acc [s|]; simpl; try done.
  2: destruct (find_scope scs s) as [c|]; [|done].
  2: intros [rest ->]%IH; exists (s :: rest); by rewrite <- app_assoc.
  all: intros [= ->]; exists []; by rewrite app_nil_r.
Qed.

Lemma scope_chain_head scs s chain :
  scope_chain_to_root scs s = Some (Some chain) → ∃ rest, chain = s :: rest.
Proof.
  unfold scope_chain_to_root; simpl. destruct (find_scope scs s) as [c|]; [|done].
  intros [rest ->]%scope_chain_loop_prefix. by exists rest.
Qed.

(** Every scope of a block has a chain of parents that ends. *)
Definition scopes_rooted (scs : list FunctionScope) (bl : list FunctionBlock) : Prop :=
  ∀ b, b ∈ bl → ∃ chain, scope_chain_to_root scs (block_scope b) = Some (Some chain).

Lemma exits_same_scope scs s chain :
  scope_chain_to_root scs s = Some (Some chain) →
  exited_scopes_between scs s (Some s) = Some (Some []).
Proof.
  intros Hc. destruct (scope_chain_head _ _ _ Hc) as [rest ->].
  unfold exited_scopes_between. rewrite Hc. simpl. rewrite Z.eqb_refl. simpl.
  by rewrite bool_decide_eq_true_2.
Qed.

Definition jumps_ok (bl : list FunctionBlock) (jumps : gmap Z Z) : Prop :=
  ∀ k n, jumps !! k = Some n → ∃ b t, find_block bl k = Some b ∧ block_ops b = [] ∧
    jump_target (terminator b) = Some n ∧ find_block bl n = Some t ∧ block_scope t = block_scope b.

Lemma empty_jump_Some bl pe b k n :
  ids_distinct bl → b ∈ bl → empty_jump (cfg_new bl) bl pe b = Some (k, n) →
  k = block_id b ∧ n ≠ k ∧ Some k ≠ pe ∧ predecessors (cfg_new bl) k ≠ [] ∧
  block_ops b = [] ∧ jump_target (terminator b) = Some n ∧
  ∃ t, find_block bl n = Some t ∧ block_scope t = block_scope b.
Proof.
  intros Hnd Hin. unfold empty_jump.
  destruct (bool_decide_reflect (Some (block_id b) = pe)) as [|Hpe]; [done|].
  destruct (block_ops b) eqn:Hops; [|done]. simpl.
  destruct (predecessors (cfg_new bl) (block_id b)) eqn:Hpred; [done|]. simpl.
  destruct (jump_target (terminator b)) as [n'|]; [|done]. simpl.
  pose proof (cfg_block_find bl n' Hnd) as Hfind.
  destruct (cfg_block (cfg_new bl) n') as [i|]; [|done]. simpl in *.
  destruct (bl !! i) as [t|]; [|done]. simpl.
  destruct (Z.eqb_spec n' (block_id b)) as [|Hne]; [done|].
  destruct (Z.eqb_spec (block_scope t) (block_scope b)) as [Hs|]; [|done].
  intros [= <- <-]. rewrite Hpred. split_and!; [done..|eauto].
Qed.

Lemma empty_jump_lookup bl pe k n :
  ids_distinct bl → empty_jump_targets bl pe !! k = Some n →
  ∃ b, b ∈ bl ∧ empty_jump (cfg_new bl) bl pe b = Some (k, n).
Proof.
  intros Hnd [Hm|Hin]%foldl_insert_lookup; [by rewrite lookup_empty in Hm|].
  apply list_elem_of_omap in Hin as (b & Hb & He). eauto.
Qed.

Lemma empty_jumps_ok bl pe : ids_distinct bl → jumps_ok bl (empty_jump_targets bl pe).
Proof.
  intros Hnd k n Hk. destruct (empty_jump_lookup bl pe k n Hnd Hk) as (b & Hb & He).
  apply empty_jump_Some in He as (-> & _ & _ & _ & Hops & Hj & t & Ht & Hs); [|done..].
  exists b, t. by rewrite (find_block_distinct bl b Hnd Hb).
Qed.

Definition jump_step (jumps : gmap Z Z) (x y : Z) : Prop := jumps !! x = Some y.

Lemma retarget_loop_path fuel jumps seen changed x :
  rtc (jump_step jumps) x (retarget_loop fuel jumps seen changed x).1.
Proof.
  revert seen changed x. induction fuel as [|fuel IH]; intros seen changed x; simpl;
    destruct (jumps !! x) as [y|] eqn:Hx; try done; case_bool_decide; try done.
  eapply rtc_l; [exact Hx | apply IH].
Qed.

Definition threaded (jumps : gmap Z Z) (x : Z) : Z := (retarget_block_id x jumps).1.

Lemma threaded_path jumps x : rtc (jump_step jumps) x (threaded jumps x).
Proof. apply retarget_loop_path. Qed.

Lemma jump_scope bl jumps x y :
  jumps_ok bl jumps → jump_step jumps x y → block_scope_of bl x = block_scope_of bl y.
Proof.
  intros Hok Hxy. destruct (Hok x y Hxy) as (b & t & Hb & _ & _ & Ht & Hs).
  unfold block_scope_of. rewrite Hb, Ht. simpl. by f_equal.
Qed.

Lemma threaded_scope bl jumps x :
  jumps_ok bl jumps → block_scope_of bl (threaded jumps x) = block_scope_of bl x.
Proof.
  intros Hok. induction (threaded_path jumps x) as [|x y z Hxy _ IH]; [done|].
  rewrite IH. symmetry. by eapply jump_scope.
Qed.

(** ** A terminator with its targets replaced *)

Definition map_targets (g : FunctionBlockId → FunctionBlockId) (t : FunctionTerminator) :
    FunctionTerminator :=
  match t with
  | TmBranch x span => TmBranch (g x) span
  | TmNext x span => TmNext (g x) span
  | TmIf cond x y span => TmIf cond (g x) (g y) span
  | TmSwitch v arms default fallback span =>
      TmSwitch v (map (λ arm, mkArm (arm_pattern arm) (g (arm_target arm))) arms) (g <$> default)
        (g fallback) span
  | TmLoop header b c k span => TmLoop header (g b) (g c) (g k) span
  | TmTry v kind conv l x span => TmTry v kind conv l (g x) span
  | TmError _ | TmReturn _ _ | TmTail _ _ => t
  end.

Lemma retarget_terminator_eq jumps t :
  (retarget_terminator jumps t).1 = map_targets (threaded jumps) t.
Proof.
  unfold threaded. destruct t as [| | |cond x y|v arms default fallback| |header b c k| |]; simpl;
    try (repeat case_match; by simplify_eq/=).
  destruct (retarget_block_id fallback jumps); simpl.
  f_equal; [|by destruct default]. rewrite map_map. apply map_ext. intros arm.
  by destruct (retarget_block_id (arm_target arm) jumps).
Qed.

Section MapTargets.
Context {D V : Type} `{M : Machine D V} (g : FunctionBlockId → FunctionBlockId).
Context (scs : list FunctionScope) (scope_of : FunctionBlockId → option FunctionScopeId).
Hypothesis scope_kept : ∀ x, scope_of (g x) = scope_of x.

(** A step and the one that goes on from [g] of its target, unless a cleanup chose it. *)
Definition moved (r r' : Step D V) : Prop :=
  r' = r ∨ ∃ id d st, r = Goto id d st ∧ r' = Goto (g id) d st.

Lemma moved_goto id d st : moved (Goto id d st) (Goto (g id) d st).
Proof. right. eauto. Qed.

Lemma moved_refl r : moved r r.
Proof. by left. Qed.
Hint Resolve moved_goto moved_refl : core.

Lemma pick_arm_map (v : V) arms default fallback :
  pick_arm v (map (λ arm, mkArm (arm_pattern arm) (g (arm_target arm))) arms) (g <$> default)
    (g fallback) = g (pick_arm v arms default fallback).
Proof.
  unfold pick_arm. induction arms as [|arm arms IH]; simpl; [by destruct default|].
  by destruct (matches _ _).
Qed.

Ltac follow_jump :=
  unfold exits; rewrite scope_kept; destruct (exited_scopes_between _ _ _) as [[ss|]|];
  [intros [(d' & Hd & ->)|(o & Ho & ->)]; simpl; eauto 10|done..].

Ltac follow_choice :=
  intros [(w & d' & Hw & ->)|(d' & Hd & ->)];
  (eexists; split; [by unfold evaluated; eauto 10|]); try rewrite pick_arm_map; auto;
  by destruct (truth w).

Ltac follow_try :=
  intros [(w & d' & Hw & Ha)|(d' & Hd & ->)]; [|by eexists; split; [right; eauto|]];
  destruct Ha as [(d1 & Ha & ->)|Ha];
  [by eexists; split; [left; exists w, d'; split; [done|]; left; eauto|]
  |by eexists; split; [left; eauto 10|]].

Ltac follow_targets t :=
  destruct t as [|x|x|cond x y|v arms default fallback|v kind conv l x|[|cond] b c k| |]; simpl;
  [done|follow_jump|follow_jump|follow_choice|follow_choice|follow_try|intros ->; eauto
  |follow_choice|by eauto|by eauto].

Lemma map_targets_forward scope t d st r :
  exec_terminator scs scope_of scope t d st r →
  ∃ r', exec_terminator scs scope_of scope (map_targets g t) d st r' ∧ moved r r'.
Proof. follow_targets t. Qed.

Lemma map_targets_backward scope t d st r' :
  exec_terminator scs scope_of scope (map_targets g t) d st r' →
  ∃ r, exec_terminator scs scope_of scope t d st r ∧ moved r r'.
Proof. follow_targets t. Qed.

Lemma map_targets_code id scope ops t d st :
  (∀ r, exec_code scs scope_of (mkCode id scope ops t) d st r →
    ∃ r', exec_code scs scope_of (mkCode id scope ops (map_targets g t)) d st r' ∧ moved r r') ∧
  (∀ r', exec_code scs scope_of (mkCode id scope ops (map_targets g t)) d st r' →
    ∃ r, exec_code scs scope_of (mkCode id scope ops t) d st r ∧ moved r r').
Proof.
  split.
  - intros r [(d' & st' & Ho & Ht)|(d' & Ho & ->)].
    + destruct (map_targets_forward _ _ _ _ _ Ht) as (r' & Hr & Hm). exists r'. split; [|done].
      left. eauto.
    + eexists. split; [right; eauto | done].
  - intros r' [(d' & st' & Ho & Ht)|(d' & Ho & ->)].
    + destruct (map_targets_backward _ _ _ _ _ Ht) as (r & Hr & Hm). exists r. split; [|done].
      left. eauto.
    + eexists. split; [right; eauto | done].
Qed.
End MapTargets.

Section Threading.
Context {D V : Type} `{M : Machine D V}.
Context (scs : list FunctionScope) (bl : list FunctionBlock) (jumps : gmap Z Z).
Hypothesis rooted : scopes_rooted scs bl.
Hypothesis jumps_fine : jumps_ok bl jumps.
Notation tbl := (blocks_code (D:=D) (V:=V) bl).
Notation tbl' := (blocks_code (D:=D) (V:=V) (map fst (map (retarget_block jumps) bl))).

Lemma jump_exec x y b d st r :
  jump_step jumps x y → find_block bl x = Some b →
  exec_code scs (code_scope_of tbl) (block_code b) d st r ↔ r = Goto y d st.
Proof.
  intros Hxy Hb. destruct (jumps_fine x y Hxy) as (b' & t & Hb' & Hops & Hj & Ht & Hs).
  assert (b' = b) as -> by congruence.
  destruct (rooted b) as [chain Hc]; [by apply find_block_Some in Hb as [? _]|].
  assert (Hexit : exits scs (code_scope_of tbl) (block_scope b) y = Some (Some [])).
  { unfold exits. rewrite scope_of_blocks. unfold block_scope_of. rewrite Ht. simpl.
    rewrite Hs. by eapply exits_same_scope. }
  destruct b as [id scope span ops tm]. simpl in *. subst ops. unfold exec_code; simpl.
  assert (Hterm : ∀ d st r, exec_terminator scs (code_scope_of tbl) scope tm d st r ↔
    r = Goto y d st).
  { intros d1 st1 r1. destruct tm; simplify_eq/=; rewrite Hexit; by rewrite unwind_nil. }
  setoid_rewrite Hterm. split.
  - intros [(d' & st' & Hx & ->)|(d' & Hx & _)]; by inversion Hx; subst.
  - intros ->. left. exists d, st. split; [constructor | done].
Qed.

Lemma jump_runs x y n d st o :
  jump_step jumps x y →
  runs scs tbl n x d st o ↔ ∃ m, n = S m ∧ runs scs tbl m y d st o.
Proof.
  intros Hxy. destruct (jumps_fine x y Hxy) as (b & _ & Hb & _).
  assert (Hc : find_code tbl x = Some (block_code b)) by (by rewrite find_blocks_code, Hb).
  split.
  - intros Hr. inversion Hr as [? ? ? Hf|? ? ? ? ? Hf He|m ? ? ? ? ? ? ? ? Hf He Hr'];
      simplify_eq; apply (jump_exec x y b _ _ _ Hxy Hb) in He; simplify_eq; eauto.
  - intros (m & -> & Hr). eapply runs_goto; [exact Hc| |exact Hr]. by apply (jump_exec x y b).
Qed.

Lemma path_runs x y n d st o :
  rtc (jump_step jumps) x y → runs scs tbl n x d st o →
  ∃ m, (m ≤ n)%nat ∧ runs scs tbl m y d st o.
Proof.
  intros Hpath. revert n. induction Hpath as [x|x y z Hxy _ IH]; intros n Hr; [by exists n|].
  apply (jump_runs x y) in Hr as (m & -> & Hr); [|done].
  apply IH in Hr as (k & Hk & Hr). exists k. split; [lia|done].
Qed.

Lemma path_runs_back x y n d st o :
  rtc (jump_step jumps) x y → runs scs tbl n y d st o → ∃ m, runs scs tbl m x d st o.
Proof.
  intros Hpath Hr. induction Hpath as [x|x y z Hxy _ IH]; [by exists n|].
  destruct (IH Hr) as [m Hm]. exists (S m). apply (jump_runs x y); [done|]. eauto.
Qed.

Definition thread_code (c : Code D V) : Code D V :=
  mkCode (code_id c) (code_scope c) (code_ops c) (map_targets (threaded jumps) (code_terminator c)).

Lemma retarget_block_code b :
  block_code (retarget_block jumps b).1 = thread_code (block_code b).
Proof.
  destruct b as [id scope span ops t]. unfold thread_code; simpl.
  rewrite <- retarget_terminator_eq. by destruct (retarget_terminator jumps t).
Qed.

Lemma find_threaded id : find_code tbl' id = thread_code <$> find_code tbl id.
Proof.
  clear rooted jumps_fine. induction bl as [|b l IH]; [done|].
  unfold find_code in *; simpl. rewrite retarget_block_code; simpl. by destruct (code_id (block_code b) =? id).
Qed.

Lemma scope_of_threaded : code_scope_of tbl' = code_scope_of tbl.
Proof.
  apply functional_extensionality. intros id. unfold code_scope_of. rewrite find_threaded.
  by destruct (find_code tbl id).
Qed.

Lemma thread_exec c d st :
  (∀ r, exec_code scs (code_scope_of tbl) c d st r →
    ∃ r', exec_code scs (code_scope_of tbl') (thread_code c) d st r' ∧
          moved (threaded jumps) r r') ∧
  (∀ r', exec_code scs (code_scope_of tbl') (thread_code c) d st r' →
    ∃ r, exec_code scs (code_scope_of tbl) c d st r ∧ moved (threaded jumps) r r').
Proof.
  rewrite scope_of_threaded. destruct c as [id scope ops t]. apply map_targets_code.
  intros x. rewrite scope_of_blocks. by apply threaded_scope.
Qed.

Lemma retarget_forward n id d st o :
  runs scs tbl n id d st o → ∃ m, runs scs tbl' m id d st o.
Proof.
  revert id d st o. induction n as [n IH] using lt_wf_ind. intros id d st o Hr.
  inversion Hr as [? ? ? Hf|? c ? ? ? Hf He|m ? c ? ? id' d' st' ? Hf He Hr'];
    subst; pose proof (find_threaded id) as Hf'; rewrite Hf in Hf'; simpl in Hf'.
  - exists 0%nat. by apply runs_exit.
  - destruct (proj1 (thread_exec c d st) _ He) as (r' & Hx & [->|(? & ? & ? & ? & _)]); [|done].
    exists 1%nat. by eapply runs_stop.
  - destruct (proj1 (thread_exec c d st) _ He) as (r' & Hx & Hm).
    destruct Hm as [->|(? & ? & ? & ? & ->)]; simplify_eq.
    + destruct (IH m ltac:(lia) _ _ _ _ Hr') as [k Hk]. exists (S k). by eapply runs_goto.
    + destruct (path_runs _ _ _ _ _ _ (threaded_path jumps _) Hr') as (m' & Hle & Hm').
      destruct (IH m' ltac:(lia) _ _ _ _ Hm') as [k Hk]. exists (S k). by eapply runs_goto.
Qed.

Lemma retarget_backward n id d st o :
  runs scs tbl' n id d st o → ∃ m, runs scs tbl m id d st o.
Proof.
  induction 1 as [id d st Hf|id c' d st o Hf He|n id c' d st id' d' st' o Hf He _ [m IH]];
    rewrite find_threaded in Hf.
  - exists 0%nat. apply runs_exit. by destruct (find_code tbl id).
  - apply fmap_Some in Hf as (c & Hf & ->).
    destruct (proj2 (thread_exec c d st) _ He) as (r & Hx & [<-|(? & ? & ? & _ & ?)]); [|done].
    exists 1%nat. by eapply runs_stop.
  - apply fmap_Some in Hf as (c & Hf & ->).
    destruct (proj2 (thread_exec c d st) _ He) as (r & Hx & [<-|(x & ? & ? & -> & ?)]);
      simplify_eq.
    + exists (S m). by eapply runs_goto.
    + destruct (path_runs_back _ _ _ _ _ _ (threaded_path jumps x) IH) as [k Hk].
      exists (S k). by eapply runs_goto.
Qed.

Lemma retarget_runs e : table_runs scs tbl' e = table_runs scs tbl e.
Proof.
  apply table_runs_eq. intros d o. unfold table_runs. rewrite find_threaded, fmap_is_Some.
  split; intros [Hs [n Hn]]; (split; [done|]);
    [by apply retarget_backward in Hn | by apply retarget_forward in Hn].
Qed.
End Threading.

(** ** Predecessors *)

Definition has_preds (m : gmap Z (list Z)) (k : Z) : Prop := default [] (m !! k) ≠ [].

Lemma add_predecessors_iff from l m k :
  has_preds (foldl (add_predecessor from) m l) k ↔ k ∈ l ∨ has_preds m k.
Proof.
  revert m. induction l as [|x l IH]; intros m; simpl; [set_solver|]. rewrite IH.
  unfold has_preds, add_predecessor. destruct (decide (x = k)) as [->|Hne].
  - rewrite lookup_insert_eq. simpl. split; [set_solver|]. intros _. right.
    by destruct (default [] (m !! k)).
  - rewrite lookup_insert_ne by done. set_solver.
Qed.

Lemma cfg_block_step_iff bl m b k :
  has_preds (cfg_block_step (index_blocks bl) m b) k ↔
  k ∈ next_blocks bl b ∨ has_preds m k.
Proof.
  unfold cfg_block_step. rewrite !add_predecessors_iff. unfold next_blocks, cfg_referenced_blocks.
  rewrite elem_of_app. simpl.
  assert (Hins : has_preds (<[block_id b:=default [] (m !! block_id b)]> m) k ↔ has_preds m k).
  { unfold has_preds. destruct (decide (block_id b = k)) as [->|Hne].
    - by rewrite lookup_insert_eq.
    - by rewrite lookup_insert_ne by done. }
  rewrite Hins. tauto.
Qed.

Lemma predecessors_iff bl k :
  predecessors (cfg_new bl) k ≠ [] ↔ ∃ p, p ∈ bl ∧ k ∈ block_edges p ∧ is_Some (find_block bl k).
Proof.
  unfold predecessors, cfg_new; simpl.
  assert (Hfold : ∀ l m, has_preds (foldl (cfg_block_step (index_blocks bl)) m l) k ↔
    (∃ p, p ∈ l ∧ k ∈ next_blocks bl p) ∨ has_preds m k).
  { induction l as [|b l IH]; intros m; simpl; [set_solver|]. rewrite IH, cfg_block_step_iff.
    set_solver. }
  fold (has_preds (foldl (cfg_block_step (index_blocks bl)) ∅ bl) k). rewrite Hfold.
  unfold has_preds, next_blocks. rewrite lookup_empty. simpl.
  setoid_rewrite elem_of_app. setoid_rewrite elem_of_cfg_referenced. naive_solver.
Qed.

Lemma empty_jump_is_Some bl pe b :
  ids_distinct bl → b ∈ bl → block_ops b = [] → Some (block_id b) ≠ pe →
  predecessors (cfg_new bl) (block_id b) ≠ [] →
  ∀ n t, jump_target (terminator b) = Some n → n ≠ block_id b → find_block bl n = Some t →
  block_scope t = block_scope b → is_Some (empty_jump_targets bl pe !! block_id b).
Proof.
  intros Hnd Hin Hops Hpe Hpred n t Hj Hne Ht Hs.
  assert (He : empty_jump (cfg_new bl) bl pe b = Some (block_id b, n)).
  { unfold empty_jump. rewrite bool_decide_eq_false_2 by done. rewrite Hops. simpl.
    destruct (predecessors (cfg_new bl) (block_id b)); [done|]. simpl. rewrite Hj. simpl.
    pose proof (cfg_block_find bl n Hnd) as Hfind. rewrite Ht in Hfind.
    destruct (cfg_block (cfg_new bl) n) as [i|]; [|done]. simpl in *. rewrite Hfind. simpl.
    rewrite Hs, Z.eqb_refl. by destruct (Z.eqb_spec n (block_id b)). }
  destruct (empty_jump_targets bl pe !! block_id b) eqn:Hlook; [by eexists|]. exfalso.
  apply foldl_insert_None in Hlook as [_ Hnot]. apply Hnot.
  apply list_elem_of_fmap. exists (block_id b, n). split; [done|].
  apply list_elem_of_omap. eauto.
Qed.

(** ** The end of the loop *)

Definition acyclic (jumps : gmap Z Z) : Prop := ∀ x, ¬ tc (jump_step jumps) x x.

Lemma retarget_loop_end jumps fuel seen changed x :
  acyclic jumps → (∀ y, y ∈ seen → tc (jump_step jumps) y x) → seen ⊆ dom jumps →
  (size seen + fuel = size jumps)%nat →
  jumps !! (retarget_loop fuel jumps seen changed x).1 = None.
Proof.
  intros Hac. revert seen changed x.
  induction fuel as [|fuel IH]; intros seen changed x Hseen Hdom Hsize; simpl;
    destruct (jumps !! x) as [y|] eqn:Hx; try done; case_bool_decide as Hin;
    try (exfalso; eapply Hac; by apply Hseen).
  - exfalso. assert (Hsub : {[x]} ∪ seen ⊆ dom jumps).
    { apply union_subseteq. split; [|done]. apply singleton_subseteq_l, elem_of_dom. by eexists. }
    apply subseteq_size in Hsub. rewrite size_union, size_singleton, size_dom in Hsub by set_solver.
    lia.
  - apply IH.
    + intros z [->%elem_of_singleton|Hz]%elem_of_union; [by apply tc_once|].
      eapply tc_r; [by apply Hseen|done].
    + apply union_subseteq. split; [|done]. apply singleton_subseteq_l, elem_of_dom. by eexists.
    + rewrite size_union, size_singleton by set_solver. lia.
Qed.

Lemma threaded_end jumps x : acyclic jumps → jumps !! threaded jumps x = None.
Proof.
  intros Hac. apply retarget_loop_end; [done|set_solver|set_solver|].
  by rewrite size_empty.
Qed.

Lemma threaded_id jumps x : jumps !! x = None → retarget_block_id x jumps = (x, false).
Proof. intros Hx. unfold retarget_block_id. by destruct (size jumps); simpl; rewrite Hx. Qed.

Lemma threaded_last jumps x :
  threaded jumps x = x ∨ ∃ y, jump_step jumps y (threaded jumps x).
Proof.
  destruct (rtc_inv_r _ _ (threaded_path jumps x)) as [Heq|(y & _ & Hy)]; [by left | right; eauto].
Qed.

Lemma retarget_fixed jumps t :
  Forall (λ x, jumps !! x = None) (referenced_blocks t) → (retarget_terminator jumps t).2 = false.
Proof.
  destruct t as [| | |cond x y|v arms default fallback| |header b c k| |]; simpl; intros Hall;
    try done; try (decompose_Forall_hyps; by rewrite !threaded_id).
  apply Forall_app in Hall as [Harms Hall]. apply Forall_app in Hall as [Hdef Hfall].
  decompose_Forall_hyps. rewrite threaded_id by done. simpl. rewrite orb_false_r.
  apply orb_false_intro.
  - unfold any_changed. induction arms as [|arm arms IH]; [done|]. simpl in *.
    decompose_Forall_hyps. rewrite threaded_id by done. by apply IH.
  - destruct default; simpl in *; [|done]. decompose_Forall_hyps. by rewrite threaded_id.
Qed.

Section Rounds.
Context (bl : list FunctionBlock) (e : FunctionBlockId).
Hypothesis distinct : ids_distinct bl.
Notation jumps := (empty_jump_targets bl (Some e)).
Notation bl' := (map fst (map (retarget_block jumps) bl)).

Lemma retarget_block_eq js b :
  (retarget_block js b).1 =
  mkBlock (block_id b) (block_scope b) (block_span b) (block_ops b)
    (map_targets (threaded js) (terminator b)).
Proof.
  destruct b as [id scope span ops t]. simpl. rewrite <- retarget_terminator_eq.
  by destruct (retarget_terminator js t).
Qed.

Lemma map_targets_refs g t : referenced_blocks (map_targets g t) = map g (referenced_blocks t).
Proof.
  destruct t; try done. simpl. rewrite !map_app, !map_map. f_equal. by destruct default.
Qed.

Lemma retargeted_ids js l : map block_id (map fst (map (retarget_block js) l)) = map block_id l.
Proof. rewrite !map_map. apply map_ext. intros b. by rewrite retarget_block_eq. Qed.

Lemma retargeted_distinct js l :
  ids_distinct l → ids_distinct (map fst (map (retarget_block js) l)).
Proof. unfold ids_distinct. by rewrite retargeted_ids. Qed.

Lemma elem_of_retargeted js l b' :
  b' ∈ map fst (map (retarget_block js) l) ↔ ∃ b, b ∈ l ∧ b' = (retarget_block js b).1.
Proof. rewrite map_map, list_elem_of_In, in_map_iff. setoid_rewrite list_elem_of_In. naive_solver. Qed.

Lemma retargeted_rooted scs js l :
  scopes_rooted scs l → scopes_rooted scs (map fst (map (retarget_block js) l)).
Proof.
  intros Hr b' (b & Hb & ->)%elem_of_retargeted. rewrite retarget_block_eq. exact (Hr b Hb).
Qed.

Lemma find_retargeted js l id :
  find_block (map fst (map (retarget_block js) l)) id = (λ b, (retarget_block js b).1) <$> find_block l id.
Proof.
  induction l as [|b l IH]; [done|]. unfold find_block in *; simpl.
  assert (Hid : block_id (retarget_block js b).1 = block_id b) by (by rewrite retarget_block_eq).
  rewrite Hid. by destruct (block_id b =? id).
Qed.

(** A block with a predecessor after the first round had one before it. *)
Lemma retargeted_preds k :
  predecessors (cfg_new bl') k ≠ [] → predecessors (cfg_new bl) k ≠ [].
Proof.
  rewrite !predecessors_iff. intros (p' & (p & Hp & ->)%elem_of_retargeted & Hk & Hs).
  rewrite find_retargeted, fmap_is_Some in Hs. rewrite retarget_block_eq in Hk.
  unfold block_edges in Hk; simpl in Hk. apply elem_of_app in Hk as [Hk|Hk].
  - rewrite map_targets_refs in Hk. apply list_elem_of_In, in_map_iff in Hk as (x & <- & Hx).
    destruct (threaded_last jumps x) as [Heq|(y & Hy)].
    + exists p. rewrite Heq in *. split_and!; [done| |done]. apply elem_of_app. left.
      by apply list_elem_of_In.
    + destruct (empty_jumps_ok bl (Some e) distinct _ _ Hy) as (b & t & Hb & _ & Hj & _).
      exists b. apply find_block_Some in Hb as [Hb _]. split_and!; [done| |done].
      apply elem_of_app. left. destruct (terminator b); simplify_eq/=; set_solver.
  - exists p. split_and!; [done| |done]. apply elem_of_app. by right.
Qed.

(** The second round has no jump that the first did not have. *)
Lemma second_round k : is_Some (empty_jump_targets bl' (Some e) !! k) → is_Some (jumps !! k).
Proof.
  intros [n' Hk]. pose proof (retargeted_distinct jumps bl distinct) as Hnd'.
  apply empty_jump_lookup in Hk as (b' & Hb' & He); [|done].
  apply empty_jump_Some in He as (-> & Hne & Hpe & Hpred & Hops & Hj & t' & Ht' & Hs); [|done..].
  apply elem_of_retargeted in Hb' as (b & Hb & ->). apply retargeted_preds in Hpred.
  rewrite find_retargeted in Ht'. apply fmap_Some in Ht' as (t & Ht & ->).
  rewrite !retarget_block_eq in *. simpl in *.
  assert (Hjump : ∃ n, jump_target (terminator b) = Some n ∧ n' = threaded jumps n).
  { destruct (terminator b); simplify_eq/=; eauto. }
  destruct Hjump as (n & Hn & ->).
  assert (Hscope : block_scope_of bl n = Some (block_scope b)).
  { rewrite <- (threaded_scope bl jumps n) by (by apply empty_jumps_ok).
    unfold block_scope_of. rewrite Ht. simpl. by rewrite Hs. }
  unfold block_scope_of in Hscope. apply fmap_Some in Hscope as (tn & Htn & Hscn).
  destruct (decide (n = block_id b)) as [Heq|Hneq].
  - destruct (jumps !! n) as [m|] eqn:Hm; [subst n; by rewrite Hm|].
    unfold threaded in Hne. rewrite threaded_id in Hne by done. done.
  - by eapply (empty_jump_is_Some bl (Some e) b).
Qed.

Lemma second_round_fixed :
  acyclic jumps → any_changed (map (retarget_block (empty_jump_targets bl' (Some e))) bl') = false.
Proof.
  intros Hac. apply not_true_iff_false. intros Hex. apply existsb_exists in Hex as (r & Hr & Hc).
  apply in_map_iff in Hr as (b' & <- & Hb'). apply list_elem_of_In, elem_of_retargeted in Hb'
    as (b & _ & ->). rewrite retarget_block_eq in Hc. simpl in Hc.
  pose proof (retarget_fixed (empty_jump_targets bl' (Some e))
    (map_targets (threaded jumps) (terminator b))) as Hfix.
  destruct (retarget_terminator _ _) as [t' c]. simpl in *. subst c. discriminate Hfix.
  rewrite map_targets_refs. apply Forall_forall. intros x Hx.
  apply list_elem_of_In, in_map_iff in Hx as (y & <- & _).
  destruct (empty_jump_targets bl' (Some e) !! threaded jumps y) eqn:Hk; [|done].
  destruct (second_round (threaded jumps y)) as [m Hm]; [by eexists|].
  by rewrite threaded_end in Hm.
Qed.

Lemma merge_loop_ends n any : acyclic jumps → is_Some (merge_loop (S (S n)) e any bl).
Proof.
  intros Hac. cbn [merge_loop]. case_bool_decide; [by eexists|].
  destruct (negb _); [by eexists|]. case_bool_decide; [by eexists|].
  rewrite second_round_fixed by done. by eexists.
Qed.
End Rounds.

(** ** A cycle of empty jumps keeps the loop going *)

Section Cycle.
Context (jumps : gmap Z Z).
Notation anc := (ancestor (λ x : Z, jumps !! x)).

Lemma nsteps_ancestor n x y : nsteps (jump_step jumps) n x y ↔ anc x n = Some y.
Proof.
  revert y. induction n as [|n IH]; intros y; simpl.
  - split; [intros Hn; by inversion Hn | intros [= ->]; constructor].
  - split.
    + intros (z & Hz & Hzy)%nsteps_inv_r. apply IH in Hz. by rewrite Hz.
    + destruct (anc x n) as [z|] eqn:Hz; [|done]. simpl. intros Hzy.
      eapply nsteps_r; [by apply IH | done].
Qed.

Definition on_cycle (x : Z) : Prop := ∃ k, (0 < k)%nat ∧ anc x k = Some x.

Lemma on_cycle_tc x : tc (jump_step jumps) x x ↔ on_cycle x.
Proof. rewrite tc_nsteps. unfold on_cycle. by setoid_rewrite nsteps_ancestor. Qed.

Lemma on_cycle_next x y : on_cycle x → jumps !! x = Some y → on_cycle y.
Proof.
  intros (k & Hk & Hx) Hy. exists k. split; [done|].
  assert (H1 : anc x (1 + k) = Some y) by (rewrite Nat.add_comm, ancestor_add, Hx; simpl; by rewrite Hy).
  rewrite ancestor_add in H1. simpl in H1. by rewrite Hy in H1.
Qed.

Lemma on_cycle_prev y : on_cycle y → ∃ w, on_cycle w ∧ jumps !! w = Some y.
Proof.
  intros (k & Hk & Hy). destruct k as [|k]; [lia|]. simpl in Hy.
  destruct (anc y k) as [w|] eqn:Hw; [|done]. simpl in Hy. exists w. split; [|done].
  exists (S k). split; [lia|]. simpl.
  assert (H1 : anc w (1 + k) = Some w) by (rewrite ancestor_add; simpl; by rewrite Hy).
  exact H1.
Qed.

Lemma least_period x :
  on_cycle x → ∃ p, (0 < p)%nat ∧ anc x p = Some x ∧ ∀ j, (0 < j < p)%nat → anc x j ≠ Some x.
Proof.
  intros (k & Hk & Hx). revert Hk Hx. induction k as [k IH] using lt_wf_ind. intros Hk Hx.
  destruct (decide (Exists (λ j, (0 < j)%nat ∧ anc x j = Some x) (seq 0 k))) as [Hex|Hno].
  - apply Exists_exists in Hex as (j & Hj%elem_of_seq & Hpos & Hjx). apply (IH j); [lia|done..].
  - exists k. split_and!; [done..|]. intros j Hj Hjx. apply Hno. apply Exists_exists.
    exists j. split; [apply elem_of_seq; lia | split; [lia | done]].
Qed.

Lemma period_distinct x p i j :
  anc x p = Some x → (∀ j, (0 < j < p)%nat → anc x j ≠ Some x) → (i < j < p)%nat →
  anc x i = anc x j → anc x j = None.
Proof.
  intros Hp Hleast Hij Heq. destruct (anc x j) as [y|] eqn:Hj; [|done]. exfalso.
  apply (Hleast (i + (p - j))%nat); [lia|].
  rewrite ancestor_add, Heq. simpl. rewrite <- Hp. replace p with (j + (p - j))%nat at 2 by lia.
  by rewrite ancestor_add, Hj.
Qed.

Lemma retarget_loop_cycle x p fuel seen changed i t :
  (0 < p)%nat → anc x p = Some x → (∀ j, (0 < j < p)%nat → anc x j ≠ Some x) → (i ≤ p)%nat →
  anc x i = Some t → (∀ y, y ∈ seen ↔ ∃ j, (j < i)%nat ∧ anc x j = Some y) → seen ⊆ dom jumps →
  (size seen + fuel = size jumps)%nat → ((0 < i)%nat → changed = true) →
  retarget_loop fuel jumps seen changed t = (x, true).
Proof.
  intros Hp Hpx Hleast. revert seen changed i t.
  induction fuel as [|fuel IH]; intros seen changed i t Hi Ht Hseen Hdom Hsize Hch; simpl.
  all: assert (Hsome : is_Some (jumps !! t)).
  1,3: destruct (decide (i = p)) as [->|Hip];
    [replace t with x by congruence; destruct p as [|p]; [lia|];
     change (S p) with (1 + p)%nat in Hpx; rewrite ancestor_add in Hpx; simpl in Hpx;
     by destruct (jumps !! x)|];
    assert (Hnext : anc x (S i) ≠ None)
      by (intros Hn; rewrite (ancestor_None_le _ _ (S i) p) in Hpx; [done|lia|done]);
    simpl in Hnext; rewrite Ht in Hnext; simpl in Hnext; by apply not_eq_None_Some.
  all: destruct Hsome as [n Hn]; rewrite Hn; case_bool_decide as Hin.
  1,3: apply Hseen in Hin as (j & Hj & Hjt); destruct (decide (i = p)) as [->|Hip];
    [replace x with t by congruence; by rewrite Hch by lia|];
    exfalso; assert (Hnone : anc x i = None)
      by (eapply (period_distinct x p j i); [done..|lia|congruence]); congruence.
  all: assert (Hsub : {[t]} ∪ seen ⊆ dom jumps)
    by (apply union_subseteq; split; [|done]; apply singleton_subseteq_l, elem_of_dom; by eexists).
  - exfalso. apply subseteq_size in Hsub.
    rewrite size_union, size_singleton, size_dom in Hsub by set_solver. lia.
  - assert (Hip : i ≠ p).
    { intros ->. apply Hin, Hseen. exists 0%nat. split; [lia|]. simpl. congruence. }
    apply (IH _ _ (S i)); [lia| | |done| |done].
    + simpl. by rewrite Ht.
    + intros y. rewrite elem_of_union, elem_of_singleton, Hseen. split.
      * intros [->|(j & Hj & Hjy)]; [exists i; split; [lia|done]|exists j; split; [lia|done]].
      * intros (j & Hj & Hjy). destruct (decide (j = i)) as [->|]; [left; congruence|right].
        exists j. split; [lia|done].
    + rewrite size_union, size_singleton by set_solver. lia.
Qed.

Lemma retarget_cycle x : on_cycle x → retarget_block_id x jumps = (x, true).
Proof.
  intros (p & Hp & Hpx & Hleast)%least_period. unfold retarget_block_id.
  apply (retarget_loop_cycle x p (size jumps) ∅ false 0 x Hp Hpx Hleast); try done; try lia.
  intros y. split; [set_solver|]. intros (j & Hj & _). lia.
Qed.

Lemma retarget_jump_changed t n :
  on_cycle n → jump_target t = Some n → (retarget_terminator jumps t).2 = true.
Proof. intros Hn. destruct t; try done; simpl; intros [= ->]; by rewrite retarget_cycle. Qed.
End Cycle.

Section Spinning.
Context (bl : list FunctionBlock) (e : FunctionBlockId).
Hypothesis distinct : ids_distinct bl.
Notation jumps := (empty_jump_targets bl (Some e)).
Notation bl' := (map fst (map (retarget_block jumps) bl)).

(** A jump of a cycle is there again in the next round. *)
Lemma cycle_jump_kept y n :
  on_cycle jumps y → jumps !! y = Some n → empty_jump_targets bl' (Some e) !! y = Some n.
Proof.
  intros Hy Hn. pose proof (retargeted_distinct jumps bl distinct) as Hnd'.
  pose proof (on_cycle_next _ _ _ Hy Hn) as Hcn.
  destruct (on_cycle_prev _ _ Hy) as (w & Hw & Hwy).
  destruct (empty_jumps_ok bl (Some e) distinct w y Hwy) as (bw & _ & Hbw & _ & Hjw & _).
  destruct (empty_jump_lookup bl (Some e) y n distinct Hn) as (b & Hb & He).
  apply empty_jump_Some in He as (-> & Hne & Hpe & _ & Hops & Hj & t & Ht & Hs); [|done..].
  assert (Hthread : ∀ x, on_cycle jumps x → threaded jumps x = x).
  { intros x Hx. unfold threaded. by rewrite retarget_cycle. }
  assert (Hjump : jump_target (terminator (retarget_block jumps b).1) = Some n).
  { rewrite retarget_block_eq. simpl. rewrite <- (Hthread n) by done.
    by destruct (terminator b); simplify_eq/=. }
  assert (Hb' : (retarget_block jumps b).1 ∈ bl') by (apply elem_of_retargeted; eauto).
  assert (Hid : block_id (retarget_block jumps b).1 = block_id b) by (by rewrite retarget_block_eq).
  destruct (empty_jump_is_Some bl' (Some e) (retarget_block jumps b).1 Hnd' Hb') with (n := n)
    (t := (retarget_block jumps t).1) as [m Hm]; rewrite ?Hid; try done.
  - by rewrite retarget_block_eq.
  - apply predecessors_iff. exists (retarget_block jumps bw).1. split_and!.
    + apply elem_of_retargeted. apply find_block_Some in Hbw as [? _]. eauto.
    + rewrite retarget_block_eq. apply elem_of_app. left. simpl. rewrite map_targets_refs.
      destruct (terminator bw); simplify_eq/=; rewrite Hthread by done; set_solver.
    + rewrite find_retargeted, (find_block_distinct bl b distinct Hb). by eexists.
  - by rewrite find_retargeted, Ht.
  - by rewrite !retarget_block_eq.
  - rewrite Hid in Hm. rewrite Hm. f_equal.
    destruct (empty_jumps_ok bl' (Some e) Hnd' _ _ Hm) as (b2 & _ & Hb2 & _ & Hj2 & _).
    rewrite find_retargeted, (find_block_distinct bl b distinct Hb) in Hb2. simpl in Hb2. congruence.
Qed.

Lemma cycle_kept y : on_cycle jumps y → on_cycle (empty_jump_targets bl' (Some e)) y.
Proof.
  intros Hy. destruct Hy as (k & Hk & Hyk). exists k. split; [done|].
  assert (Hpath : ∀ i z, ancestor (λ x, jumps !! x) y i = Some z →
    on_cycle jumps z ∧ ancestor (λ x, empty_jump_targets bl' (Some e) !! x) y i = Some z).
  { induction i as [|i IH]; intros z Hz; simpl in *; [simplify_eq; split; [by exists k|done]|].
    destruct (ancestor _ y i) as [x|] eqn:Hx; [|done]. simpl in Hz.
    destruct (IH x eq_refl) as [Hcx ->]. split; [by eapply on_cycle_next|]. simpl.
    by apply cycle_jump_kept. }
  by apply Hpath.
Qed.
End Spinning.

Lemma merge_loop_spins fuel e any bl y :
  ids_distinct bl → on_cycle (empty_jump_targets bl (Some e)) y → merge_loop fuel e any bl = None.
Proof.
  revert any bl. induction fuel as [|fuel IH]; intros any bl Hnd Hy; [done|]. cbn [merge_loop].
  destruct (on_cycle_prev _ _ Hy) as (w & Hw & Hwy).
  rewrite bool_decide_eq_false_2 by (intros Hempty; by rewrite Hempty, lookup_empty in Hwy).
  destruct (empty_jumps_ok bl (Some e) Hnd w y Hwy) as (b & _ & Hb & _ & Hj & _).
  assert (Hch : any_changed (map (retarget_block (empty_jump_targets bl (Some e))) bl) = true).
  { apply existsb_exists. exists (retarget_block (empty_jump_targets bl (Some e)) b). split.
    - apply in_map, list_elem_of_In. by apply find_block_Some in Hb as [? _].
    - pose proof (retarget_jump_changed _ _ _ Hy Hj) as Hc. destruct b. simpl in *.
      by destruct (retarget_terminator _ _). }
  rewrite Hch. simpl. apply IH; [by apply retargeted_distinct | by apply cycle_kept].
Qed.

Lemma merge_loop_runs {D V} `{M : Machine D V} scs fuel e any bl bl' c :
  ids_distinct bl → scopes_rooted scs bl → merge_loop fuel e any bl = Some (bl', c) →
  ids_distinct bl' ∧ scopes_rooted scs bl' ∧
  ∀ x, table_runs scs (blocks_code bl') x = table_runs scs (blocks_code bl) x.
Proof.
  revert any bl. induction fuel as [|fuel IH]; intros any bl Hnd Hroot; [done|].
  cbn [merge_loop]. case_bool_decide; [by intros [= <- <-]|].
  set (jumps := empty_jump_targets bl (Some e)).
  pose proof (retargeted_distinct jumps bl Hnd) as Hnd1.
  pose proof (retargeted_rooted scs jumps bl Hroot) as Hroot1.
  pose proof (λ x, retarget_runs scs bl jumps Hroot (empty_jumps_ok bl (Some e) Hnd) x) as Hruns.
  destruct (negb _); [by intros [= <- <-]|].
  intros Hloop. apply IH in Hloop as (Hnd2 & Hroot2 & Heq); [|done..].
  split_and!; [done..|]. intros x. by rewrite Heq.
Qed.

(** ** Nested bodies

    What a table needs all the way down: distinct block ids, scopes with a root, and
    conditional edges that leave no scope. *)

Definition table_ok (scs : list FunctionScope) (bl : list FunctionBlock) : Prop :=
  ids_distinct bl ∧ scopes_rooted scs bl ∧
  forallb (edges_enter scs (block_scope_of bl)) bl = true.

Fixpoint nested_ok (b : FunctionBlock) : Prop :=
  foldr (λ op acc,
    match op with
    | OpDefer (mkDefer _ scs bl _) => table_ok scs bl ∧ foldr (λ b acc, nested_ok b ∧ acc) True bl
    | _ => True
    end ∧ acc) True (block_ops b).

Definition op_nested_ok (op : FunctionOp) : Prop :=
  match op with
  | OpDefer (mkDefer _ scs bl _) => table_ok scs bl ∧ Forall nested_ok bl
  | _ => True
  end.

Lemma foldr_and {A} (P : A → Prop) l : foldr (λ x acc, P x ∧ acc) True l ↔ Forall P l.
Proof. induction l as [|x l IH]; simpl; [by split|]. by rewrite IH, Forall_cons. Qed.

Lemma nested_ok_eq b : nested_ok b ↔ Forall op_nested_ok (block_ops b).
Proof.
  destruct b as [id scope span ops t]. rewrite <- foldr_and. simpl.
  induction ops as [|[| | | |[s scs bl e]] ops IH]; simpl; try tauto.
  rewrite IH, foldr_and. tauto.
Qed.

Lemma forallb_all {A} (p : A → bool) l : forallb p l = true ↔ Forall (λ x, p x = true) l.
Proof. rewrite forallb_forall, Forall_forall. by setoid_rewrite list_elem_of_In. Qed.

(** A pass that keeps the conditional edges inside keeps all of it. *)
Section NestedPass.
Context (keep : FunctionOp → bool) (f : FunctionTerminator → FunctionTerminator * bool).
Hypothesis f_enters : ∀ scs scope_of scope t,
  conditional_enters scs scope_of scope t = true →
  conditional_enters scs scope_of scope (f t).1 = true.
Notation go b := (pass_block keep f b).1.

Lemma pass_block_id b : block_id (go b) = block_id b.
Proof. destruct b as [id scope span ops t]. by rewrite pass_block_eq. Qed.

Lemma pass_block_scope b : block_scope (go b) = block_scope b.
Proof. destruct b as [id scope span ops t]. by rewrite pass_block_eq. Qed.

Lemma pass_blocks_eq bl : (pass_blocks keep f bl).1 = map (λ b, go b) bl.
Proof. unfold pass_blocks; simpl. by rewrite map_map. Qed.

Lemma pass_scope_of bl : block_scope_of (pass_blocks keep f bl).1 = block_scope_of bl.
Proof.
  apply functional_extensionality. intros id. rewrite pass_blocks_eq. unfold block_scope_of.
  induction bl as [|b bl IH]; [done|]. unfold find_block in *; simpl. rewrite pass_block_id.
  destruct (block_id b =? id); [|exact IH]. simpl. by rewrite pass_block_scope.
Qed.

Lemma pass_distinct bl : ids_distinct bl → ids_distinct (pass_blocks keep f bl).1.
Proof.
  unfold ids_distinct. rewrite pass_blocks_eq, map_map.
  by rewrite (map_ext _ _ pass_block_id).
Qed.

Lemma pass_rooted scs bl : scopes_rooted scs bl → scopes_rooted scs (pass_blocks keep f bl).1.
Proof.
  intros Hr b'. rewrite pass_blocks_eq, list_elem_of_In, in_map_iff.
  intros (b & <- & Hb%list_elem_of_In). rewrite pass_block_scope. by apply Hr.
Qed.

Lemma pass_table_enters scs bl scope_of :
  Forall (λ b, ∀ scs scope_of, edges_enter scs scope_of b = true →
    edges_enter scs scope_of (go b) = true) bl →
  forallb (edges_enter scs scope_of) bl = true →
  forallb (edges_enter scs scope_of) (pass_blocks keep f bl).1 = true.
Proof.
  rewrite pass_blocks_eq. induction 1 as [|b bl Hb _ IH]; simpl; [done|].
  intros [H1 H2]%andb_prop. by rewrite Hb, IH.
Qed.

(** The operations a pass keeps are images of operations it was given. *)
Lemma pass_ops_forall (P : FunctionOp → Prop) ops :
  Forall (λ op, P (pass_op keep f op).1) ops →
  Forall P (map (λ p, p.2.1) (List.filter (λ p : FunctionOp * _, keep p.1)
    (map (λ op, (op, pass_op keep f op)) ops))).
Proof.
  induction 1 as [|op ops Hop _ IH]; simpl; [constructor|].
  destruct (keep op); simpl; [by constructor | done].
Qed.

Lemma pass_enters b scs scope_of :
  edges_enter scs scope_of b = true → edges_enter scs scope_of (go b) = true.
Proof.
  revert scs scope_of. induction b as [id scope span ops t Hops] using block_nested_ind.
  intros scs scope_of. rewrite pass_block_eq. cbn [edges_enter]. intros [Hcond Hin]%andb_prop.
  rewrite f_enters by done. simpl. apply forallb_all. apply forallb_all in Hin.
  apply pass_ops_forall. rewrite Forall_forall in *. intros op Hop.
  specialize (Hops op Hop). specialize (Hin op Hop).
  destruct op as [| | | |[s dscs dbl de]]; try done. simpl in *.
  pose proof (pass_table_enters dscs dbl (block_scope_of dbl) Hops Hin) as Hpass.
  rewrite <- (pass_scope_of dbl) in Hpass at 1. exact Hpass.
Qed.

Lemma pass_table_ok scs bl : table_ok scs bl → table_ok scs (pass_blocks keep f bl).1.
Proof.
  intros (Hnd & Hroot & Hin). split_and!; [by apply pass_distinct|by apply pass_rooted|].
  rewrite pass_scope_of. apply pass_table_enters; [|done]. apply Forall_true. apply pass_enters.
Qed.

Lemma pass_nested b : nested_ok b → nested_ok (go b).
Proof.
  induction b as [id scope span ops t Hops] using block_nested_ind.
  rewrite !nested_ok_eq, pass_block_eq. simpl. intros Hok. apply pass_ops_forall.
  rewrite Forall_forall in *. intros op Hop. specialize (Hops op Hop). specialize (Hok op Hop).
  destruct op as [| | | |[s dscs dbl de]]; try done. simpl in *. destruct Hok as [Ht Hnest].
  split; [by apply (pass_table_ok dscs dbl)|]. rewrite Forall_forall in *.
  intros b'. rewrite map_map, list_elem_of_In, in_map_iff. intros (b & <- & Hb%list_elem_of_In).
  apply Hops; [done|]. by apply Hnest.
Qed.
End NestedPass.
