(* ===== verification/FnOptProps.v ===== *)
(** * The control-flow passes keep what a function does

    The passes of [FnOpt], one by one, against the meaning of [FnSem]: folding of
    constant branches, threading of empty jumps and removal of unreachable blocks give
    a body with exactly the runs of the one they were given; the passes that discard
    evaluations, the optimisation of [defer] bodies among them, give one with the same
    runs up to traps of what they discard. *)

From stdpp Require Import gmap.
From S2P Require Import Prelude RustStd Lexer Literals Ty FnIr FnValidate FnOpt FnSem FnOptFacts FnOptGraph.

Section Terminators.
Context {D V : Type} {M : Machine D V}.

(** ** A conditional edge that enters is an unconditional one *)

Lemma branch_enters scs scope_of scope target span d st r :
  exits scs scope_of scope target = Some (Some []) →
  exec_terminator scs scope_of scope (TmBranch target span) d st r ↔ r = Goto target d st.
Proof. intros Hx. simpl. rewrite Hx. by rewrite unwind_nil. Qed.

Lemma evaluated_value (e : FunctionExpr) d v (k : V → D → Step D V → Prop) r :
  (∀ r, eval e d r ↔ r = EvValue v d) → evaluated e d k r ↔ k v d r.
Proof.
  intros He. unfold evaluated. split.
  - intros [(w & d' & [= -> ->]%He & Hk)|(d' & Ht%He & _)]; done.
  - intros Hk. left. exists v, d. by rewrite He.
Qed.

Lemma conditional_target scs scope_of scope t x :
  conditional_enters scs scope_of scope t = true → x ∈ referenced_blocks t →
  match t with TmIf _ _ _ _ | TmSwitch _ _ _ _ _ => True | _ => False end →
  exits scs scope_of scope x = Some (Some []).
Proof.
  intros Hc Hx Ht. assert (Hall : forallb (λ target, bool_decide
    (exits scs scope_of scope target = Some (Some []))) (referenced_blocks t) = true)
    by (by destruct t).
  rewrite forallb_forall in Hall. apply list_elem_of_In in Hx. by apply Hall, bool_decide_eq_true in Hx.
Qed.

Lemma fold_bool_same `{!ConstantLaws M} scs scope_of scope t d st r :
  conditional_enters scs scope_of scope t = true →
  exec_terminator scs scope_of scope (fold_bool_terminator t).1 d st r ↔
  exec_terminator scs scope_of scope t d st r.
Proof.
  intros Hc. destruct t as [| | |cond x y| | | | |]; try done. unfold fold_bool_terminator.
  destruct (expr_kind cond) eqn:Hk; try done.
  destruct (bool_literal cond _ Hk) as (v & <- & Hv).
  cbn [fst andb]. rewrite branch_enters.
  - cbn [exec_terminator]. by rewrite evaluated_value by apply Hv.
  - eapply conditional_target; [exact Hc| |done]. simpl. destruct (truth v); set_solver.
Qed.

Lemma picked_referenced (v : V) target arms default fallback span :
  pick_arm v arms default fallback ∈ referenced_blocks (TmSwitch target arms default fallback span).
Proof.
  unfold pick_arm; simpl. rewrite !elem_of_app. destruct (List.find _ arms) as [arm|] eqn:Hf.
  - left. apply find_some in Hf as [Hin _]. apply list_elem_of_In. by apply in_map.
  - right. destruct default; set_solver.
Qed.

Lemma constant_switch_pick (v : V) c arms default fallback selected :
  (∀ pattern c', switch_constant_value pattern = Some c' → matches pattern v = bool_decide (c' = c)) →
  constant_switch_target c arms default fallback = Some selected →
  pick_arm v arms default fallback = selected.
Proof.
  intros Hm. unfold constant_switch_target, pick_arm.
  destruct (mapM _ arms) as [ps|] eqn:Hps; [|done]. simpl. apply mapM_Some in Hps.
  induction Hps as [|arm p arms ps Hp _ IH]; simpl; [congruence|].
  rewrite (Hm _ _ Hp). case_bool_decide; [congruence | exact IH].
Qed.

Lemma fold_switch_same `{!ConstantLaws M} scs scope_of scope t d st r :
  conditional_enters scs scope_of scope t = true →
  exec_terminator scs scope_of scope (fold_switch_terminator t).1 d st r ↔
  exec_terminator scs scope_of scope t d st r.
Proof.
  intros Hc. destruct t as [| | | |target arms default fallback| | | |]; try done.
  unfold fold_switch_terminator.
  destruct (switch_constant_value target) as [c|] eqn:Hk; [|done]. cbn [mbind option_bind].
  destruct (constant_switch_target c arms default fallback) as [selected|] eqn:Hsel; [|done].
  destruct (switch_literal target c Hk) as (v & Hv & Hm).
  apply (constant_switch_pick v) in Hsel as <-; [|done]. cbn [fst andb]. rewrite branch_enters.
  - cbn [exec_terminator]. by rewrite evaluated_value by apply Hv.
  - eapply conditional_target; [exact Hc| |done]. apply picked_referenced.
Qed.

(** A pure evaluation whose value does not matter can be left out, up to its trap. *)
Lemma evaluated_discard `{!PureLaws M} e d st target (g : V → FunctionBlockId) :
  is_pure_discardable_expr e = true → (∀ v, g v = target) →
  keeps step_trap eq (evaluated e d (λ v d r, r = Goto (g v) d st)) (λ r, r = Goto target d st).
Proof.
  intros He Hg. destruct (pure_evaluates e d He) as [[r0 Hr0] Hall]. split.
  - intros r [(v & d' & Hv & ->)|(d' & Hv & ->)]; [|left; by exists d'].
    apply Hall in Hv as [[w [= -> ->]]|[=]]. right. exists (Goto target d st). by rewrite Hg.
  - intros r ->. destruct (Hall _ Hr0) as [[v ->]| ->].
    + left. exists (Goto target d st). split; [|done]. left. exists v, d. by rewrite Hg.
    + right. exists (Stop (Trapped d)). split; [right; by exists d|by exists d].
Qed.

Lemma keeps_same (R R' R'' : Step D V → Prop) :
  (∀ r, R'' r ↔ R' r) → keeps step_trap eq R R' → keeps step_trap eq R R''.
Proof. intros Heq [F B]. split; intros r Hr; [apply F in Hr; by setoid_rewrite Heq|by apply B, Heq]. Qed.

Lemma trivial_branch_keeps `{!PureLaws M} scs scope_of scope t d st :
  conditional_enters scs scope_of scope t = true →
  keeps step_trap eq (exec_terminator scs scope_of scope t d st)
    (exec_terminator scs scope_of scope (trivial_branch_terminator t).1 d st).
Proof.
  intros Hc. destruct t as [| | |cond x y| | | | |]; try (by apply keeps_refl).
  unfold trivial_branch_terminator.
  destruct (Z.eqb_spec x y) as [<-|]; [|by apply keeps_refl].
  destruct (is_pure_discardable_expr cond) eqn:Hp; [|by apply keeps_refl]. cbn [fst andb].
  eapply keeps_same; [intros r; apply branch_enters|].
  - eapply conditional_target; [exact Hc| |done]. simpl. set_solver.
  - apply evaluated_discard; [done|]. intros v. by destruct (truth v).
Qed.

Lemma same_targets_pick (v : V) arms default fallback :
  switch_targets_same arms default fallback = true → pick_arm v arms default fallback = fallback.
Proof.
  unfold switch_targets_same, pick_arm. intros [Harms Hdef]%andb_prop.
  destruct (List.find _ arms) as [arm|] eqn:Hf.
  - apply find_some in Hf as [Hin _]. rewrite forallb_forall in Harms. by apply Harms, Z.eqb_eq in Hin.
  - destruct default; [by apply Z.eqb_eq | done].
Qed.

Lemma same_target_keeps `{!PureLaws M} scs scope_of scope t d st :
  conditional_enters scs scope_of scope t = true →
  keeps step_trap eq (exec_terminator scs scope_of scope t d st)
    (exec_terminator scs scope_of scope (same_target_terminator t).1 d st).
Proof.
  intros Hc. destruct t as [| | | |target arms default fallback| | | |]; try (by apply keeps_refl).
  unfold same_target_terminator.
  destruct (is_pure_discardable_expr target) eqn:Hp; [|by apply keeps_refl].
  destruct (forallb _ arms); [|by apply keeps_refl].
  destruct (switch_targets_same arms default fallback) eqn:Hs; [|by apply keeps_refl]. cbn [fst andb].
  eapply keeps_same; [intros r; apply branch_enters|].
  - eapply conditional_target; [exact Hc| |done]. simpl. set_solver.
  - apply evaluated_discard; [done|]. intros v. by apply same_targets_pick.
Qed.

Lemma pure_op_effect_free `{!PureLaws M} op :
  negb (is_pure_expr_op op) = false → effect_free (op_meaning op).
Proof.
  destruct op as [| | |e|]; try done. simpl. intros Hp%negb_false_iff.
  eexists. split; [done|]. intros d. destruct (pure_evaluates e d Hp) as [[r0 Hr0] Hall]. split.
  - destruct (Hall _ Hr0) as [[v ->]| ->]; [exists (Done d); left; by exists v, d|].
    exists (Trap d). right. by exists d.
  - intros r [(v & d' & Hv & ->)|(d' & Hv & ->)]; apply Hall in Hv as [[w Hw]|Hw]; simplify_eq; auto.
Qed.

Lemma same_terminator_keeps scs scope_of scope t (d : D) st :
  conditional_enters scs scope_of scope t = true →
  keeps step_trap eq (exec_terminator scs scope_of scope t d st)
    (exec_terminator scs scope_of scope (same_terminator t).1 d st).
Proof. intros _. by apply keeps_refl. Qed.

Lemma keep_all_effect_free op : keep_all op = false → effect_free (op_meaning op).
Proof. done. Qed.

Lemma keep_all_noop op : keep_all op = false → noop (op_meaning op).
Proof. done. Qed.
End Terminators.

Lemma trivial_branch_enters scs scope_of scope t :
  conditional_enters scs scope_of scope t = true →
  conditional_enters scs scope_of scope (trivial_branch_terminator t).1 = true.
Proof.
  destruct t; try done. unfold trivial_branch_terminator.
  by destruct (_ && is_pure_discardable_expr _).
Qed.

(** ** The bodies of [defer] operations *)

Lemma nested_ok_of_ops b b' : block_ops b' = block_ops b → nested_ok b → nested_ok b'.
Proof. rewrite !nested_ok_eq. by intros ->. Qed.

Lemma merge_nested fuel e any bl bl' c :
  merge_loop fuel e any bl = Some (bl', c) → Forall nested_ok bl → Forall nested_ok bl'.
Proof.
  revert any bl. induction fuel as [|fuel IH]; intros any bl; [done|]. cbn [merge_loop].
  case_bool_decide; [by intros [= <- <-]|]. set (jumps := empty_jump_targets bl (Some e)).
  intros Hloop Hok.
  assert (Hok' : Forall nested_ok (map fst (map (retarget_block jumps) bl))).
  { rewrite Forall_forall in *. intros b' (b & Hb & ->)%elem_of_retargeted.
    apply (nested_ok_of_ops b); [by rewrite retarget_block_eq | by apply Hok]. }
  destruct (negb _); [by simplify_eq | by eapply IH].
Qed.

Lemma retain_nested R bl : Forall nested_ok bl → Forall nested_ok (retain_reachable R bl).1.
Proof.
  intros Hok. unfold retain_reachable. case_match; [done|]. simpl. rewrite Forall_forall in *.
  intros b [Hb _]%list_elem_of_In%List.filter_In. by apply Hok, list_elem_of_In.
Qed.

(** Two blocks that do the same up to traps, in any table. *)
Definition block_keeps {D V} {M : Machine D V} (b b' : FunctionBlock) : Prop :=
  ∀ scs scope_of, code_keeps scs scope_of (block_code b) (block_code b').

Lemma blocks_keep_runs {D V} {M : Machine D V} scs bl bl' e :
  Forall2 block_keeps bl bl' →
  keeps_runs (table_runs scs (blocks_code bl) e) (table_runs scs (blocks_code bl') e).
Proof.
  intros Hall. apply table_runs_keeps. generalize (code_scope_of (blocks_code bl)). intros scope_of.
  induction Hall as [|b b' bl bl' Hb _ IH]; [constructor|]. constructor; [apply Hb|exact IH].
Qed.

Lemma optimize_defer_op_keeps {D V} {M : Machine D V} `{!PureLaws M} rec fuel op op' c ops ops' :
  (∀ bl bl' c, Forall nested_ok bl → rec bl = Some (bl', c) → Forall2 block_keeps bl bl') →
  op_nested_ok op → optimize_defer_op rec fuel op = Some (op', c) → ops_keep ops ops' →
  ops_keep (op_meaning op :: ops) (op_meaning op' :: ops').
Proof.
  intros Hrec. destruct op as [b| | | |[s scs bl e]];
    try (intros _ [= <- _] Hops; by apply keep_perform).
  { intros _ [= <- _] Hops. simpl. destruct (binding_value b); by apply keep_perform. }
  intros [Hok Hnest]. unfold optimize_defer_op.
  pose proof (pass_table_ok keep_all _ trivial_branch_enters scs bl Hok) as (Hnd & Hroot & _).
  pose proof (pass_blocks_keeps keep_all trivial_branch_terminator keep_all_effect_free
    trivial_branch_keeps scs bl e (proj2 (proj2 Hok))) as Hruns1.
  assert (Hnest1 : Forall nested_ok (simplify_trivial_branches bl).1).
  { unfold simplify_trivial_branches. rewrite pass_blocks_eq. apply Forall_map.
    eapply Forall_impl; [exact Hnest|]. intros b. apply pass_nested. apply trivial_branch_enters. }
  fold (simplify_trivial_branches bl) in Hnd, Hroot, Hruns1.
  destruct (simplify_trivial_branches bl) as [bl1 c1]. simpl in *.
  destruct (merge_loop fuel e false bl1) as [[bl2 c2]|] eqn:Hmerge; [|done]. simpl.
  pose proof (merge_nested _ _ _ _ _ _ Hmerge Hnest1) as Hnest2.
  destruct (merge_loop_runs scs _ _ _ _ _ _ Hnd Hroot Hmerge) as (Hnd2 & _ & Hruns2).
  unfold remove_unreachable_defer_blocks, reachable_defer_blocks; simpl.
  pose proof (retain_runs scs bl2 e Hnd2) as Hruns3.
  pose proof (retain_nested (reachable_from (cfg_new bl2) bl2 e) bl2 Hnest2) as Hnest3.
  destruct (retain_reachable _ bl2) as [bl3 c3]. simpl in *.
  destruct (rec bl3) as [[bl4 c4]|] eqn:Hr; [|done]. simpl. intros [= <- _] Hops.
  apply keep_register; [|done]. eapply keeps_runs_trans; [exact Hruns1|].
  fold (blocks_code bl4). rewrite <- Hruns2, <- Hruns3. apply blocks_keep_runs. by eapply Hrec.
Qed.

Lemma optimize_defer_block_keeps {D V} {M : Machine D V} `{!PureLaws M} rec fuel b b' c :
  (∀ bl bl' c, Forall nested_ok bl → rec bl = Some (bl', c) → Forall2 block_keeps bl bl') →
  nested_ok b → optimize_defer_block rec fuel b = Some (b', c) → block_keeps b b'.
Proof.
  intros Hrec. rewrite nested_ok_eq. destruct b as [id scope span ops t].
  unfold optimize_defer_block; cbn [block_ops]. intros Hok.
  destruct (mapM _ ops) as [ops'|] eqn:Hops; [|done]. intros [= <- _] scs scope_of.
  rewrite !block_code_eq. apply exec_code_keeps; [|intros; by apply keeps_refl].
  apply mapM_Some in Hops. induction Hops as [|op [op' co] ops ops' Hop _ IH]; [constructor|].
  apply Forall_cons in Hok as [Hop0 Hok]. simpl.
  eapply optimize_defer_op_keeps; [exact Hrec|done|exact Hop|by apply IH].
Qed.

Lemma optimize_defer_keeps {D V} {M : Machine D V} `{!PureLaws M} depth fuel bl bl' c :
  Forall nested_ok bl → optimize_defer_bodies depth fuel bl = Some (bl', c) →
  Forall2 block_keeps bl bl'.
Proof.
  revert bl bl' c. induction depth as [|depth IH]; intros bl bl' c Hok; cbn [optimize_defer_bodies];
    (destruct (mapM _ bl) as [r|] eqn:Hr; [|done]); intros [= <- _];
    apply mapM_Some in Hr; (induction Hr as [|b [b' cb] bl r Hb _ IHr]; [constructor|]);
    apply Forall_cons in Hok as [Hb0 Hok]; simpl;
    (constructor; [|by apply IHr]); (eapply optimize_defer_block_keeps; [|done|exact Hb]); [done|exact IH].
Qed.

(** ** What validation gives *)

Lemma scope_chain_loop_found fuel scs acc s r :
  (∀ c p, c ∈ scs → parent c = Some p → is_Some (find_scope scs p)) →
  is_Some (find_scope scs s) → scope_chain_loop fuel scs acc (Some s) = Some r → is_Some r.
Proof.
  intros Hclosed. revert acc s. induction fuel as [|fuel IH]; intros acc s [c Hc]; simpl; [done|].
  rewrite Hc. destruct (parent c) as [p|] eqn:Hp.
  - apply IH. apply (Hclosed c); [|done]. by apply find_scope_Some in Hc as [? _].
  - destruct fuel; simpl; intros [= <-]; by eexists.
Qed.

Lemma scope_chain_check_ok ls scs bl e v s :
  validator_new ls scs bl e = Ok v →
  ∃ r, scope_chain_check v s = Some r ∧
       (r = Ok () ↔ is_Some (scope_chain_to_root scs (scope_id s))).
Proof.
  intros Hv. destruct (validator_new_parents _ _ _ _ _ Hv) as (Hup & Hs & _).
  destruct (chain_check_exact v (map scope_id scs)) with (span := scope_span s) (s := scope_id s)
    as (r & Hr & Hiff).
  { intros x p. rewrite Hup. apply scope_up_inside. }
  exists r. rewrite scope_chain_ends. rewrite Hup in Hiff. split; [|exact Hiff].
  unfold scope_chain_check. rewrite Hs, <- (length_map scope_id scs). exact Hr.
Qed.

Lemma require_scope_ok v s span what :
  require_scope v s span what = Ok () → is_Some (scope_parents v !! s).
Proof. unfold require_scope. intros [Hd _]%check_if. by apply bool_decide_eq_true in Hd. Qed.

Lemma shape_table ls scs bl e v span :
  validator_new ls scs bl e = Ok v → validate_body_shape v span = Ok () →
  ids_distinct bl ∧ scopes_rooted scs bl ∧ is_Some (find_block bl e).
Proof.
  intros Hv. pose proof (λ s, scope_chain_check_ok _ _ _ _ _ s Hv) as Hcheck.
  destruct (validator_new_parents _ _ _ _ _ Hv) as (_ & Hs & Hbl & He & Hnd & Hbids & Hfind).
  unfold validate_body_shape. rewrite !check_then, !try_each_ok, Hs, Hbl, He.
  intros (Hentry & Hscopes & Hblocks). split_and!; [done| |].
  - rewrite !Forall_forall in *.
    assert (Hclosed : ∀ c p, c ∈ scs → parent c = Some p → is_Some (find_scope scs p)).
    { intros c p Hc Hp. specialize (Hscopes c Hc). rewrite Hp in Hscopes.
      apply check_then in Hscopes as [[Hreq _]%check_then _].
      apply require_scope_ok in Hreq. by apply Hfind. }
    intros b Hb. specialize (Hblocks b Hb). apply require_scope_ok, Hfind in Hblocks as [c Hc].
    pose proof (find_scope_Some _ _ _ Hc) as [Hin Hid]. specialize (Hscopes c Hin).
    apply check_then in Hscopes as [_ Hchain]. unfold validate_scope_parent_chain in Hchain.
    destruct (Hcheck c) as (r & Hr & Hiff). rewrite Hr in Hchain. simpl in Hchain. subst r.
    destruct (proj1 Hiff eq_refl) as [chain Hch]. rewrite Hid in Hch. unfold scope_chain_to_root in *.
    destruct (scope_chain_loop_found _ _ _ _ _ Hclosed ltac:(by eexists) Hch) as [ch ->].
    by exists ch.
  - unfold require_block in Hentry. apply check_if in Hentry as [Hin%bool_decide_eq_true _].
    rewrite Hbids, elem_of_list_to_set in Hin. apply list_elem_of_In, in_map_iff in Hin
      as (b & Hid & Hb%list_elem_of_In). rewrite <- Hid.
    rewrite (find_block_distinct bl b Hnd Hb). by eexists.
Qed.

Lemma validate_nested_ok ls outer b scs scope_of :
  validate_nested ls outer b = Ok () → edges_enter scs scope_of b = true → nested_ok b.
Proof.
  revert outer scs scope_of. induction b as [id scope span ops t Hops] using block_nested_ind.
  intros outer scs scope_of Hval [_ Hin]%andb_prop. rewrite nested_ok_eq. cbn [block_ops].
  change (try_each (λ op, match op with
    | OpDefer (mkDefer span scs bl e) =>
        v ← validator_new ls scs bl e;
        validate_defer_body v span outer ;;
        try_each (validate_nested ls (in_namespace (block_ids v) outer)) bl
    | _ => Ok () end) ops = Ok ()) in Hval.
  rewrite try_each_ok in Hval. apply forallb_all in Hin. rewrite Forall_forall in *.
  intros op Hop. specialize (Hops op Hop). specialize (Hval op Hop). specialize (Hin op Hop).
  destruct op as [| | | |[s dscs bl e]]; try done. simpl in *.
  destruct (validator_new ls dscs bl e) as [v|] eqn:Hv; [|done]. simpl in Hval.
  apply check_then in Hval as [Hbody Hnest]. apply check_then in Hbody as [Hshape _].
  destruct (shape_table _ _ _ _ _ _ Hv Hshape) as (Hnd & Hroot & _).
  split; [by split_and!|]. rewrite try_each_ok in Hnest. apply forallb_all in Hin.
  rewrite Forall_forall in *. intros b Hb. eapply (Hops b Hb); [by apply Hnest | by apply Hin].
Qed.

(** A validated body: its tables are fine at every level. *)
Lemma validated_table body :
  validate_function_body body = Ok () →
  ids_distinct (blocks body) ∧ scopes_rooted (scopes body) (blocks body) ∧
  is_Some (find_block (blocks body) (entry body)) ∧
  (body_edges_enter body = true → Forall nested_ok (blocks body)).
Proof.
  unfold validate_function_body.
  destruct (validator_new _ _ _ _) as [v|] eqn:Hv; [|done]. simpl.
  intros [[Hshape _]%check_then Hnest]%check_then.
  destruct (shape_table _ _ _ _ _ _ Hv Hshape) as (Hnd & Hroot & Hentry). split_and!; [done..|].
  intros Hin%forallb_all. rewrite try_each_ok in Hnest. rewrite Forall_forall in *.
  intros b Hb. by eapply validate_nested_ok; [apply Hnest | apply Hin].
Qed.

(** ** Validity of a table, declaratively

    [outer] are the blocks of the enclosing tables: none for a function body. *)

Definition table_valid (ls : list FunctionLocal) (outer : FunctionBlockId → bool) (span : Span)
    (scs : list FunctionScope) (bl : list FunctionBlock) (e : FunctionBlockId) : Prop :=
  ∃ v, validator_new ls scs bl e = Ok v ∧ validate_defer_body v span outer = Ok () ∧
       Forall (λ b, validate_nested ls (in_namespace (block_ids v) outer) b = Ok ()) bl.

Definition op_valid (ls : list FunctionLocal) (outer : FunctionBlockId → bool) (op : FunctionOp) :
    Prop :=
  match op with OpDefer (mkDefer span scs bl e) => table_valid ls outer span scs bl e | _ => True end.

Lemma validate_nested_iff ls outer b :
  validate_nested ls outer b = Ok () ↔ Forall (op_valid ls outer) (block_ops b).
Proof.
  destruct b as [id scope span ops t]. cbn [block_ops].
  change (validate_nested ls outer (mkBlock id scope span ops t)) with
    (try_each (λ op, match op with
    | OpDefer (mkDefer span scs bl e) =>
        v ← validator_new ls scs bl e;
        validate_defer_body v span outer ;;
        try_each (validate_nested ls (in_namespace (block_ids v) outer)) bl
    | _ => Ok () end) ops).
  rewrite try_each_ok. apply Forall_proper; [|done]. intros [| | | |[s scs bl e]]; try done.
  simpl. unfold table_valid. destruct (validator_new ls scs bl e) as [v|]; simpl.
  - rewrite check_then, try_each_ok. naive_solver.
  - naive_solver.
Qed.

Lemma validate_body_iff body :
  validate_function_body body = Ok () ↔
  table_valid (locals body) (λ _, false) (body_span body) (scopes body) (blocks body) (entry body).
Proof.
  unfold validate_function_body, table_valid.
  destruct (validator_new _ _ _ _) as [v|]; simpl; [|naive_solver].
  rewrite check_then, try_each_ok.
  assert (Hsame : validate_body v (body_span body) = Ok () ↔
    validate_defer_body v (body_span body) (λ _, false) = Ok ()).
  { unfold validate_body, validate_defer_body. rewrite !check_then, !try_each_ok.
    apply and_iff_compat_l. apply Forall_proper; [|done]. intros b. rewrite !check_then.
    apply and_iff_compat_l. unfold validate_terminator, validate_defer_terminator.
    rewrite !check_then, !try_each_ok. apply and_iff_compat_r. apply Forall_proper; [|done].
    intros t. unfold require_block. case_bool_decide; naive_solver. }
  rewrite Hsame. naive_solver.
Qed.

(** What validation asks of the scopes, which no pass changes. *)
Definition scopes_valid (scs : list FunctionScope) (lids : gset Z) (parents : gmap Z (option Z)) :
    Prop :=
  Forall (λ scope, (match parent scope with
    | Some p =>
        require_scope (mkValidator scs [] 0 lids parents ∅) p (scope_span scope) "scope parent" ;;
        if p =? scope_id scope then fails (scope_span scope) "scope cannot parent itself" else Ok ()
    | None => Ok ()
    end ;;
    validate_scope_parent_chain (mkValidator scs [] 0 lids parents ∅) scope) = Ok ()) scs.

(** What it asks of a block, [ids] being the blocks of its table. *)
Definition block_valid (ls : list FunctionLocal) (lids ids : gset Z)
    (outer : FunctionBlockId → bool) (b : FunctionBlock) : Prop :=
  Forall (λ op, validate_op lids op = Ok ()) (block_ops b) ∧
  Forall (λ t, t ∈ ids ∨ outer t = true) (referenced_blocks (terminator b)) ∧
  validate_terminator_payload lids (terminator b) = Ok () ∧
  validate_nested ls (in_namespace ids outer) b = Ok ().

Definition block_table (bl : list FunctionBlock) : gset Z := list_to_set (map block_id bl).

Lemma elem_of_block_table x bl : x ∈ block_table bl ↔ x ∈ map block_id bl.
Proof. apply elem_of_list_to_set. Qed.

Lemma table_valid_iff ls outer span scs bl e :
  table_valid ls outer span scs bl e ↔
  ∃ lids parents,
    collect_ids local_id local_span "duplicate function local id" ∅ ls = Ok lids ∧
    collect_parents ∅ scs = Ok parents ∧ scopes_valid scs lids parents ∧
    NoDup (map block_id bl) ∧ e ∈ map block_id bl ∧
    Forall (λ b, is_Some (parents !! block_scope b) ∧ block_valid ls lids (block_table bl) outer b) bl.
Proof.
  assert (Hblocks : ∀ lids parents, let v := mkValidator scs bl e lids parents (block_table bl) in
    validate_defer_body v span outer = Ok () ∧
    Forall (λ b, validate_nested ls (in_namespace (block_ids v) outer) b = Ok ()) bl ↔
    scopes_valid scs lids parents ∧ e ∈ map block_id bl ∧
    Forall (λ b, is_Some (parents !! block_scope b) ∧ block_valid ls lids (block_table bl) outer b) bl).
  { intros lids parents v. unfold validate_defer_body, validate_body_shape.
    rewrite !check_then, !try_each_ok. change (v_scopes v) with scs. change (v_blocks v) with bl.
    assert (He : require_block v e span "function entry block" = Ok () ↔ e ∈ map block_id bl).
    { unfold require_block, fails. rewrite check_if, bool_decide_eq_true. simpl.
      rewrite elem_of_block_table. naive_solver. }
    change (v_entry v) with e. rewrite He. unfold scopes_valid, block_valid.
    rewrite !Forall_forall.
    assert (Hscope : ∀ b, require_scope v (block_scope b) (block_span b) "block scope" = Ok () ↔
      is_Some (parents !! block_scope b)).
    { intros b. unfold require_scope, fails. rewrite check_if, bool_decide_eq_true. naive_solver. }
    assert (Hterm : ∀ b, validate_defer_terminator v outer (terminator b) = Ok () ↔
      Forall (λ t, t ∈ block_table bl ∨ outer t = true) (referenced_blocks (terminator b)) ∧
      validate_terminator_payload lids (terminator b) = Ok ()).
    { intros b. unfold validate_defer_terminator. rewrite check_then, try_each_ok.
      apply and_iff_compat_r. apply Forall_proper; [|done]. intros t. simpl.
      case_bool_decide; destruct (outer t); simpl; naive_solver. }
    setoid_rewrite Hscope. setoid_rewrite check_then. setoid_rewrite Hterm.
    setoid_rewrite try_each_ok. simpl. naive_solver. }
  split.
  - intros (v & Hv & Hrest). unfold validator_new in Hv.
    destruct (collect_ids local_id _ _ _ ls) as [lids|]; [|done]. simpl in Hv.
    destruct (collect_parents ∅ scs) as [parents|]; [|done]. simpl in Hv.
    destruct (collect_ids block_id _ _ _ bl) as [bids|] eqn:Hb; [|done]. simpl in Hv.
    apply collect_ids_ok in Hb as (Hnd & _ & ->). rewrite union_empty_r_L in Hv. simplify_eq.
    exists lids, parents. apply Hblocks in Hrest. naive_solver.
  - intros (lids & parents & Hl & Hp & Hs & Hnd & He & Hbl).
    exists (mkValidator scs bl e lids parents (block_table bl)). split; [|by apply Hblocks].
    unfold validator_new. rewrite Hl. simpl. rewrite Hp. simpl.
    assert (Hb : collect_ids block_id block_span "duplicate function block id" ∅ bl =
      Ok (block_table bl)) by (apply collect_ids_ok; rewrite union_empty_r_L; set_solver).
    by rewrite Hb.
Qed.

(** The blocks of a valid table replaced by others that are valid in its place. *)
Lemma table_valid_replace ls outer span scs bl bl' e :
  table_valid ls outer span scs bl e → NoDup (map block_id bl') → e ∈ map block_id bl' →
  (∀ lids b', b' ∈ bl' → Forall (block_valid ls lids (block_table bl) outer) bl →
    ∃ b, b ∈ bl ∧ block_scope b' = block_scope b ∧
      (block_valid ls lids (block_table bl) outer b → block_valid ls lids (block_table bl') outer b')) →
  table_valid ls outer span scs bl' e.
Proof.
  rewrite !table_valid_iff. intros (lids & parents & Hl & Hp & Hs & _ & _ & Hbl) Hnd He Hrep.
  exists lids, parents. split_and!; [done..|]. apply Forall_and in Hbl as [Hsc Hval].
  apply Forall_forall. intros b' Hb'.
  destruct (Hrep lids b' Hb' Hval) as (b & Hb & -> & Hok). rewrite Forall_forall in *.
  split; [by apply Hsc | by apply Hok, Hval].
Qed.

Lemma nested_mono ls outer outer' b :
  (∀ t, t ∈ defer_referenced_blocks (block_ops b) → outer t = true → outer' t = true) →
  validate_nested ls outer b = Ok () → validate_nested ls outer' b = Ok ().
Proof.
  revert outer outer'. induction b as [id scope span ops t Hops] using block_nested_ind.
  intros outer outer' Hsub. rewrite !validate_nested_iff. cbn [block_ops] in *.
  rewrite !Forall_forall in *. intros Hval op Hop. specialize (Hval op Hop). specialize (Hops op Hop).
  destruct op as [| | | |[s scs bl e]]; try done. simpl in *. rewrite Forall_forall in Hops.
  assert (Htargets : ∀ b t, b ∈ bl → t ∈ block_edges b → outer t = true → outer' t = true).
  { intros b t' Hb Ht. apply Hsub. apply list_elem_of_bind. eexists. split; [|exact Hop].
    simpl. apply list_elem_of_bind. exists b. split; [|done]. by rewrite block_defer_targets_eq. }
  rewrite table_valid_iff in *. destruct Hval as (lids & parents & Hl & Hp & Hs & Hnd & He & Hbl).
  exists lids, parents. split_and!; [done..|]. rewrite Forall_forall in *. intros b Hb.
  destruct (Hbl b Hb) as (Hsc & Hop1 & Href & Hpay & Hnest). split; [done|].
  split_and!; [done| |done|].
  - rewrite Forall_forall in *. intros t' Ht. destruct (Href t' Ht) as [?|Hout]; [by left|right].
    eapply Htargets; [done| |done]. apply elem_of_app. by left.
  - eapply (Hops b Hb); [|exact Hnest]. intros t' Ht. unfold in_namespace.
    intros [Hin|Hout]%orb_prop; [by rewrite Hin|]. apply orb_true_intro. right.
    eapply Htargets; [done| |done]. apply elem_of_app. by right.
Qed.

(** ** The passes keep tables valid *)

Lemma find_block_is_Some bl x : is_Some (find_block bl x) ↔ x ∈ map block_id bl.
Proof.
  split.
  - intros [b [Hb <-]%find_block_Some]. apply list_elem_of_In, in_map. by apply list_elem_of_In.
  - intros (b & <- & Hb)%list_elem_of_In%in_map_iff. rewrite <- not_eq_None_Some. intros Hnone.
    apply (find_none _ _ Hnone) in Hb. by rewrite Z.eqb_refl in Hb.
Qed.

Lemma retain_sub R bl b : b ∈ (retain_reachable R bl).1 → b ∈ bl.
Proof.
  unfold retain_reachable. case_match; [done|]. simpl.
  intros [Hb _]%list_elem_of_In%List.filter_In. by apply list_elem_of_In.
Qed.

Lemma filter_ids_distinct p bl : ids_distinct bl → ids_distinct (List.filter p bl).
Proof.
  unfold ids_distinct. induction bl as [|b bl IH]; [done|]. simpl. intros [Hb Hnd]%NoDup_cons.
  destruct (p b); [|by apply IH]. simpl. constructor; [|by apply IH].
  intros (b1 & Heq & [Hb1 _]%List.filter_In)%list_elem_of_In%in_map_iff.
  apply Hb. rewrite <- Heq. by apply list_elem_of_In, in_map.
Qed.

Lemma retain_valid ls outer span scs bl e :
  table_valid ls outer span scs bl e →
  table_valid ls outer span scs (retain_reachable (reachable_from (cfg_new bl) bl e) bl).1 e.
Proof.
  intros Hval. unfold retain_reachable. case_match; [done|]. simpl.
  pose proof Hval as (_ & _ & _ & _ & _ & Hnd & He & _)%table_valid_iff.
  pose proof (reachable_spec bl Hnd e) as (Hentry & Hcl & _).
  set (R := reachable_from (cfg_new bl) bl e) in *.
  set (bl' := List.filter (λ b, bool_decide (block_id b ∈ R)) bl).
  assert (Hin : ∀ b, b ∈ bl' ↔ b ∈ bl ∧ block_id b ∈ R).
  { intros b. unfold bl'. by rewrite !list_elem_of_In, List.filter_In, bool_decide_eq_true. }
  assert (Hids : ∀ x, x ∈ map block_id bl → x ∈ R → x ∈ map block_id bl').
  { intros x (b & <- & Hb)%list_elem_of_In%in_map_iff Hx. apply list_elem_of_In, in_map.
    apply list_elem_of_In, Hin. split; [by apply list_elem_of_In | done]. }
  assert (Hedge : ∀ b t, b ∈ bl' → t ∈ block_edges b → t ∈ block_table bl → t ∈ block_table bl').
  { intros b t [Hb HR]%Hin Ht Htab. apply elem_of_block_table. apply elem_of_block_table in Htab.
    apply Hids; [done|]. destruct (Hcl (block_id b) t HR) as [?|Hnil];
      [|done|by apply not_elem_of_nil in Hnil].
    exists b. rewrite (find_block_distinct bl b Hnd Hb). by rewrite find_block_is_Some. }
  apply (table_valid_replace ls outer span scs bl); [done| |by apply Hids|].
  - by apply filter_ids_distinct.
  - intros lids b Hb' _. exists b. pose proof Hb' as [Hb _]%Hin. split_and!; [done..|].
    intros (Hops & Href & Hpay & Hnest). split_and!; [done| |done|].
    + rewrite Forall_forall in *. intros t Ht. destruct (Href t Ht) as [Htab|?]; [left|by right].
      apply (Hedge b); [done| |done]. apply elem_of_app. by left.
    + eapply nested_mono; [|exact Hnest]. intros t Ht. unfold in_namespace.
      intros [Htab%bool_decide_eq_true|Hout]%orb_prop; apply orb_true_intro; [left|by right].
      apply bool_decide_eq_true. apply (Hedge b); [done| |done]. apply elem_of_app. by right.
Qed.

Lemma retarget_valid ls outer span scs bl e jumps :
  jumps_ok bl jumps → table_valid ls outer span scs bl e →
  table_valid ls outer span scs (map fst (map (retarget_block jumps) bl)) e.
Proof.
  intros Hj Hval. pose proof Hval as (_ & _ & _ & _ & _ & Hnd & He & _)%table_valid_iff.
  assert (Htab : block_table (map fst (map (retarget_block jumps) bl)) = block_table bl).
  { unfold block_table. by rewrite retargeted_ids. }
  apply (table_valid_replace ls outer span scs bl); [done|by rewrite retargeted_ids..|].
  intros lids b' (b & Hb & ->)%elem_of_retargeted _. exists b. split_and!; [done| |].
  { by rewrite retarget_block_eq. }
  rewrite Htab, retarget_block_eq. intros (Hops & Href & Hpay & Hnest). split_and!; [done| | |].
  - simpl. rewrite map_targets_refs. rewrite Forall_forall in *.
    intros t (x & <- & Hx)%list_elem_of_In%in_map_iff. apply list_elem_of_In in Hx.
    assert (Hpath : threaded jumps x = x ∨ threaded jumps x ∈ block_table bl).
    { destruct (threaded_last jumps x) as [?|(y & Hy)]; [by left|right].
      destruct (Hj _ _ Hy) as (_ & t & _ & _ & _ & Ht & _).
      apply elem_of_block_table, find_block_is_Some. by eexists. }
    destruct Hpath as [->|?]; [by apply Href | by left].
  - simpl. destruct (terminator b); try done. simpl in *. rewrite check_then, try_each_ok in *.
    destruct Hpay as [Ht Harms]. split; [done|]. apply Forall_map. done.
  - apply validate_nested_iff. by apply validate_nested_iff in Hnest.
Qed.

Lemma merge_valid ls outer span scs fuel e any bl bl' c :
  table_valid ls outer span scs bl e → merge_loop fuel e any bl = Some (bl', c) →
  table_valid ls outer span scs bl' e.
Proof.
  revert any bl. induction fuel as [|fuel IH]; intros any bl Hval; [done|]. cbn [merge_loop].
  pose proof Hval as (_ & _ & _ & _ & _ & Hnd & _ & _)%table_valid_iff.
  case_bool_decide; [by intros [= <- <-]|].
  pose proof (retarget_valid _ _ _ _ _ _ _ (empty_jumps_ok bl (Some e) Hnd) Hval) as Hval'.
  destruct (negb _); [by intros [= <- <-] | by apply IH].
Qed.

Section ValidPass.
Context (keep : FunctionOp → bool) (f : FunctionTerminator → FunctionTerminator * bool).
Hypothesis f_refs : ∀ t x, x ∈ referenced_blocks (f t).1 → x ∈ referenced_blocks t.
Hypothesis f_payload : ∀ lids t,
  validate_terminator_payload lids t = Ok () → validate_terminator_payload lids (f t).1 = Ok ().

Lemma pass_table_valid ls outer span scs bl e :
  Forall (λ b, ∀ outer, validate_nested ls outer b = Ok () →
    validate_nested ls outer (pass_block keep f b).1 = Ok ()) bl →
  table_valid ls outer span scs bl e → table_valid ls outer span scs (pass_blocks keep f bl).1 e.
Proof.
  intros Hnested Hval. pose proof Hval as (_ & _ & _ & _ & _ & Hnd & He & _)%table_valid_iff.
  assert (Hids : map block_id (pass_blocks keep f bl).1 = map block_id bl).
  { rewrite pass_blocks_eq, map_map. by rewrite (map_ext _ _ (pass_block_id keep f)). }
  apply (table_valid_replace ls outer span scs bl); [done|by rewrite Hids..|].
  intros lids b'. rewrite pass_blocks_eq. intros (b & <- & Hb)%list_elem_of_In%in_map_iff _.
  apply list_elem_of_In in Hb. exists b. split_and!; [done|apply pass_block_scope|].
  rewrite Forall_forall in Hnested. specialize (Hnested b Hb).
  assert (Htab : block_table (map (λ b, (pass_block keep f b).1) bl) = block_table bl).
  { unfold block_table. rewrite <- pass_blocks_eq. by rewrite Hids. }
  rewrite Htab. intros (Hops & Href & Hpay & Hnest).
  split; [|split_and!; [| |by apply Hnested]]; destruct b as [id scope sp ops t];
    rewrite pass_block_eq; cbn [block_ops terminator] in *.
  - apply pass_ops_forall. eapply Forall_impl; [exact Hops|].
    intros [| | | |[s dscs dbl de]]; done.
  - rewrite Forall_forall in *. intros x Hx. by apply Href, f_refs.
  - by apply f_payload.
Qed.

Lemma pass_nested_valid ls b outer :
  validate_nested ls outer b = Ok () → validate_nested ls outer (pass_block keep f b).1 = Ok ().
Proof.
  revert outer. induction b as [id scope span ops t Hops] using block_nested_ind.
  intros outer. rewrite !validate_nested_iff, pass_block_eq. cbn [block_ops]. intros Hval.
  apply pass_ops_forall. rewrite Forall_forall in *. intros op Hop.
  specialize (Hops op Hop). specialize (Hval op Hop).
  destruct op as [| | | |[s dscs dbl de]]; try done.
  by apply (pass_table_valid ls outer s dscs dbl de).
Qed.

Lemma pass_valid ls outer span scs bl e :
  table_valid ls outer span scs bl e → table_valid ls outer span scs (pass_blocks keep f bl).1 e.
Proof. apply pass_table_valid. apply Forall_true. intros b outer'. apply pass_nested_valid. Qed.
End ValidPass.

(** A block whose [defer] bodies were replaced by others that are valid where they were. *)
Definition defers_replaced (b b' : FunctionBlock) : Prop :=
  block_id b' = block_id b ∧ block_scope b' = block_scope b ∧ terminator b' = terminator b ∧
  (∀ lids, Forall (λ op, validate_op lids op = Ok ()) (block_ops b) →
           Forall (λ op, validate_op lids op = Ok ()) (block_ops b')) ∧
  ∀ ls outer, validate_nested ls outer b = Ok () → validate_nested ls outer b' = Ok ().

Lemma replaced_ids bl bl' : Forall2 defers_replaced bl bl' → map block_id bl' = map block_id bl.
Proof. induction 1 as [|b b' bl bl' (Hid & _) _ IH]; simpl; [done|]. by rewrite Hid, IH. Qed.

Lemma replaced_valid ls outer span scs bl bl' e :
  Forall2 defers_replaced bl bl' →
  table_valid ls outer span scs bl e → table_valid ls outer span scs bl' e.
Proof.
  intros Hrep Hval. pose proof Hval as (_ & _ & _ & _ & _ & Hnd & He & _)%table_valid_iff.
  pose proof (replaced_ids _ _ Hrep) as Hids.
  apply (table_valid_replace ls outer span scs bl); [done|by rewrite Hids..|].
  intros lids b' Hb' _. apply list_elem_of_lookup in Hb' as [i Hi].
  destruct (Forall2_lookup_r _ _ _ _ _ Hrep Hi) as (b & Hb & Hid & Hs & Ht & Hops & Hnest).
  exists b. split_and!; [by eapply list_elem_of_lookup_2|done|].
  unfold block_valid, block_table. rewrite Hids, Ht. intros (Ho & Hr & Hp & Hn).
  split_and!; [by apply Hops|done|done|by apply Hnest].
Qed.

Lemma trivial_refs t x :
  x ∈ referenced_blocks (trivial_branch_terminator t).1 → x ∈ referenced_blocks t.
Proof.
  destruct t; try done. unfold trivial_branch_terminator.
  destruct (_ && is_pure_discardable_expr _); simpl; set_solver.
Qed.

Lemma trivial_payload lids t :
  validate_terminator_payload lids t = Ok () →
  validate_terminator_payload lids (trivial_branch_terminator t).1 = Ok ().
Proof.
  destruct t; try done. unfold trivial_branch_terminator.
  by destruct (_ && is_pure_discardable_expr _).
Qed.

Lemma optimize_defer_op_valid rec fuel op op' c :
  (∀ bl bl' c, rec bl = Some (bl', c) → Forall2 defers_replaced bl bl') →
  optimize_defer_op rec fuel op = Some (op', c) →
  (∀ lids, validate_op lids op = Ok () → validate_op lids op' = Ok ()) ∧
  ∀ ls outer, op_valid ls outer op → op_valid ls outer op'.
Proof.
  intros Hrec. destruct op as [| | | |[s scs bl e]]; try (by intros [= <- _]).
  unfold optimize_defer_op. destruct (simplify_trivial_branches bl) as [bl1 c1] eqn:H1.
  simpl. destruct (merge_loop fuel e false bl1) as [[bl2 c2]|] eqn:H2; [|done]. simpl.
  unfold remove_unreachable_defer_blocks, reachable_defer_blocks; simpl.
  destruct (retain_reachable _ bl2) as [bl3 c3] eqn:H3. simpl.
  destruct (rec bl3) as [[bl4 c4]|] eqn:H4; [|done]. simpl. intros [= <- _]. split; [done|].
  simpl. intros ls outer Hval. apply (replaced_valid _ _ _ _ bl3); [by eapply Hrec|].
  replace bl3 with (retain_reachable (reachable_from (cfg_new bl2) bl2 e) bl2).1 by (by rewrite H3).
  apply retain_valid. eapply merge_valid; [|exact H2].
  replace bl1 with (simplify_trivial_branches bl).1 by (by rewrite H1).
  apply pass_valid; [apply trivial_refs|apply trivial_payload|done].
Qed.

Lemma optimize_defer_block_valid rec fuel b b' c :
  (∀ bl bl' c, rec bl = Some (bl', c) → Forall2 defers_replaced bl bl') →
  optimize_defer_block rec fuel b = Some (b', c) → defers_replaced b b'.
Proof.
  intros Hrec. destruct b as [id scope span ops t]. unfold optimize_defer_block.
  destruct (mapM _ ops) as [ops'|] eqn:Hops; [|done]. intros [= <- _]. apply mapM_Some in Hops.
  assert (Hall : Forall2 (λ op op', (∀ lids, validate_op lids op = Ok () → validate_op lids op' = Ok ()) ∧
    ∀ ls outer, op_valid ls outer op → op_valid ls outer op') ops (map fst ops')).
  { induction Hops as [|op [op' co] ops ops' Hop _ IH]; constructor; [|done].
    by eapply optimize_defer_op_valid. }
  clear Hops. split_and!; [done..| |]; cbn [block_ops].
  - intros lids Hval. induction Hall as [|op op' ops2 ops2' [Hop _] _ IH]; [constructor|].
    apply Forall_cons in Hval as [Hv Hval]. constructor; [by apply Hop | by apply IH].
  - intros ls outer. rewrite !validate_nested_iff. cbn [block_ops].
    induction Hall as [|op op' ops2 ops2' [_ Hop] _ IH]; [done|].
    intros [Hv Hval]%Forall_cons. constructor; [by apply Hop | by apply IH].
Qed.

Lemma optimize_defer_valid depth fuel bl bl' c :
  optimize_defer_bodies depth fuel bl = Some (bl', c) → Forall2 defers_replaced bl bl'.
Proof.
  revert bl bl' c. induction depth as [|depth IH]; intros bl bl' c; cbn [optimize_defer_bodies];
    (destruct (mapM _ bl) as [r|] eqn:Hr; [|done]); intros [= <- _];
    apply mapM_Some in Hr; (induction Hr as [|b [b' cb] bl r Hb _ IHr]; [constructor|]);
    (constructor; [|exact IHr]); (eapply optimize_defer_block_valid; [|exact Hb]); [done|exact IH].
Qed.

(** The rewriting passes, each with what it keeps of references and payloads. *)
Lemma rewriting_pass pass :
  pass ∈ [fold_constant_bool_branches; fold_constant_switches; simplify_trivial_branches;
      simplify_same_target_switches; remove_pure_expr_ops] →
  ∃ keep f, pass = pass_blocks keep f ∧
    (∀ t x, x ∈ referenced_blocks (f t).1 → x ∈ referenced_blocks t) ∧
    ∀ lids t, validate_terminator_payload lids t = Ok () →
      validate_terminator_payload lids (f t).1 = Ok ().
Proof.
  rewrite !elem_of_cons, elem_of_nil. intros [->|[->|[->|[->|[->|[]]]]]]; do 2 eexists;
    (split; [reflexivity|]).
  - split; [intros t x|intros lids t]; destruct t; try done; unfold fold_bool_terminator;
      destruct (expr_kind cond); try done. simpl. destruct value; set_solver.
  - split; [intros t x|intros lids t]; destruct t as [| | | |target arms default fallback sp| | | |];
      try done; unfold fold_switch_terminator;
      destruct (switch_constant_value target) as [c|]; try done; cbn [mbind option_bind];
      destruct (constant_switch_target c arms default fallback) as [sel|] eqn:Hsel; try done.
    simpl. intros ->%list_elem_of_singleton. revert Hsel. unfold constant_switch_target.
    destruct (mapM _ arms) as [ps|]; [|done]. simpl.
    destruct (List.find _ _) as [[arm p]|] eqn:Hf; intros [= <-].
    + apply find_some in Hf as [Hin%in_combine_l _]. apply elem_of_app. left.
      by apply list_elem_of_In, in_map.
    + apply elem_of_app. right. destruct default; set_solver.
  - split; [apply trivial_refs|apply trivial_payload].
  - split; [intros t x|intros lids t]; destruct t as [| | | |target arms default fallback sp| | | |];
      try done; unfold same_target_terminator; destruct (_ && _); try done. simpl. set_solver.
  - by split.
Qed.

(** Equality of counts means that nothing is unreachable. *)
Lemma retain_exact bl e :
  ids_distinct bl → is_Some (find_block bl e) →
  ∀ b, b ∈ (retain_reachable (reachable_from (cfg_new bl) bl e) bl).1 ↔
    b ∈ bl ∧ block_id b ∈ reachable_from (cfg_new bl) bl e.
Proof.
  intros Hnd He b. unfold retain_reachable. destruct (_ =? _)%nat eqn:Hsize; simpl.
  - split; [|by intros [? _]]. intros Hb. split; [done|].
    assert (Hsub : reachable_from (cfg_new bl) bl e ⊆ block_table bl).
    { intros x Hx. apply (reachable_exact bl Hnd), rtc_inv_r in Hx.
      apply elem_of_block_table, find_block_is_Some.
      destruct Hx as [<-|(y & _ & blk & _ & _ & Hs)]; done. }
    apply Nat.eqb_eq in Hsize.
    assert (Hlen : size (block_table bl) = length bl).
    { unfold block_table. rewrite size_list_to_set by done. apply length_map. }
    rewrite (set_subseteq_size_eq _ _ Hsub) by lia.
    apply elem_of_block_table, list_elem_of_In, in_map. by apply list_elem_of_In.
  - by rewrite !list_elem_of_In, List.filter_In, bool_decide_eq_true.
Qed.

(** ** A deeper policy runs every pass of a shallower one *)

Definition depth_le (a b : OptimizationDepth) : Prop := depth_rank a ≤ depth_rank b.

Lemma at_least_mono a b minimum : depth_le a b → at_least a minimum = true → at_least b minimum = true.
Proof. unfold depth_le, at_least. rewrite !Z.leb_le. lia. Qed.

Lemma for_policy_mono p q :
  depth_le (simplify_cfg p) (simplify_cfg q) → depth_le (const_fold p) (const_fold q) →
  depth_le (dead_code_elim p) (dead_code_elim q) → depth_le (local_copy_prop p) (local_copy_prop q) →
  prefer_size p = prefer_size q → ∀ pass, pass ∈ for_policy p → pass ∈ for_policy q.
Proof.
  intros Hs Hc Hd Hl Hsize pass. unfold for_policy. rewrite !list_elem_of_In, !List.filter_In.
  intros [Hin Hen]. split; [done|]. revert Hen.
  destruct pass; simpl; rewrite ?Hsize, ?orb_true_iff, ?andb_true_iff;
    intuition eauto using at_least_mono.
Qed.

(** ** A small machine

    Locals hold constants; integers add, divide and compare, every other pure
    expression has the value [VOther], and what is left traps.  Division by zero
    traps, as the language has it. *)

Inductive CalcValue := VConst (c : SwitchConstantValue) | VOther.
#[global] Instance CalcValue_eq_dec : EqDecision CalcValue.
Proof. solve_decision. Defined.
Notation CalcState := (gmap Z CalcValue).

Definition calc_binary (op : BinaryOp) (x y : CalcValue) : option CalcValue :=
  match op, x, y with
  | BAdd, VConst (ScInteger a), VConst (ScInteger b) => Some (VConst (ScInteger (a + b)))
  | BDiv, VConst (ScInteger a), VConst (ScInteger b) =>
      if b =? 0 then None else Some (VConst (ScInteger (a / b)))
  | BLt, VConst (ScInteger a), VConst (ScInteger b) => Some (VConst (ScBool (a <? b)))
  | _, _, _ => Some VOther
  end.

Fixpoint calc (e : FunctionExpr) (d : CalcState) : option CalcValue :=
  match switch_constant_value e with
  | Some c => Some (VConst c)
  | None =>
      match expr_kind e with
      | ExLocal id => Some (default VOther (d !! id))
      | ExBinary lhs op rhs => x ← calc lhs d; y ← calc rhs d; calc_binary op x y
      | _ => if is_pure_discardable_expr e then Some VOther else None
      end
  end.

Definition Trapping : Machine CalcState CalcValue := {|
  eval e d r := r = match calc e d with Some v => EvValue v d | None => EvTrap d end;
  truth v := bool_decide (v = VConst (ScBool true));
  matches pattern v :=
    match switch_constant_value pattern with Some c => bool_decide (v = VConst c) | None => false end;
  store id v d := <[id := v]> d;
  memory _ d r := r = Trap d;
  attempt _ _ id v d r := r = Success (<[id := v]> d) |}.

Lemma calc_constant e c d : switch_constant_value e = Some c → calc e d = Some (VConst c).
Proof. intros Hc. destruct e. cbn [calc]. by rewrite Hc. Qed.

#[global] Instance Trapping_constants : ConstantLaws Trapping.
Proof.
  split.
  - intros e b He. exists (VConst (ScBool b)). split; [by destruct b|]. intros d r. cbn [eval Trapping].
    rewrite (calc_constant e (ScBool b)); [done|]. unfold switch_constant_value. by rewrite He.
  - intros e c He. exists (VConst c). split; [intros d r; cbn [eval Trapping]; by rewrite (calc_constant e c)|].
    intros pattern c' Hp. cbn [matches Trapping]. rewrite Hp. apply bool_decide_ext. naive_solver.
Defined.

#[global] Instance Trapping_pure : PureLaws Trapping.
Proof.
  split. intros e d _. cbn [eval Trapping]. split; [by eexists|]. intros r ->.
  destruct (calc e d) as [v|]; [left; by exists v|by right].
Defined.

(** ** Sample bodies *)

Module Sample.
Definition sp : Span := mkSpan 0 0.
Definition unit_ty : InternedTyId := mkTyId 1 0.
Definition ex (kind : FunctionExprKind) : FunctionExpr := mkExpr sp unit_ty kind.
Definition int (digit : Z) : FunctionExpr := ex (ExInteger [digit]).
Definition root_scope : FunctionScope := mkScope 0 None sp.
Definition inner_scope : FunctionScope := mkScope 1 (Some 0) sp.
Definition local0 : FunctionLocal := mkLocal 0 Anonymous LkMutableBinding unit_ty sp.
Definition body (bl : list FunctionBlock) : FunctionBody :=
  mkBody sp [local0] [root_scope; inner_scope] bl 0 unit_ty.

(** [if true { defer { x = 1 } ... }], a jump to a jump, and a block nothing reaches. *)
Definition cleanup : FunctionOp :=
  OpDefer (mkDefer sp [root_scope]
    [mkBlock 10 0 sp [OpStoreLocal 0 (int "1"%B) sp; OpExpr (int "2"%B)] (TmTail None sp)] 10).
Definition branches : FunctionBody := body [
  mkBlock 0 0 sp [] (TmIf (ex (ExBool true)) 1 2 sp);
  mkBlock 1 1 sp [cleanup] (TmBranch 2 sp);
  mkBlock 2 0 sp [] (TmNext 3 sp);
  mkBlock 3 0 sp [OpExpr (ex (ExLocal 0))] (TmTail (Some (ex (ExLocal 0))) sp);
  mkBlock 4 0 sp [] (TmTail None sp)].

(** Two empty blocks that jump to each other. *)
Definition spinning : FunctionBody := body [
  mkBlock 0 0 sp [] (TmIf (ex (ExLocal 0)) 1 3 sp);
  mkBlock 1 0 sp [] (TmBranch 2 sp);
  mkBlock 2 0 sp [] (TmBranch 1 sp);
  mkBlock 3 0 sp [] (TmTail None sp)].

(** [1 / 0;] *)
Definition division : FunctionBody :=
  body [mkBlock 0 0 sp [OpExpr (ex (ExBinary (int "1"%B) BDiv (int "0"%B)))] (TmTail None sp)].

(** [{ defer { return } if true ... }], with a conditional edge out of the scope of the
    [defer]. *)
Definition returning : FunctionOp :=
  OpDefer (mkDefer sp [root_scope] [mkBlock 10 0 sp [] (TmReturn None sp)] 10).
Definition leaving : FunctionBody := body [
  mkBlock 0 1 sp [returning] (TmIf (ex (ExBool true)) 1 1 sp);
  mkBlock 1 0 sp [] (TmTail (Some (ex (ExLocal 0))) sp)].
End Sample.

(** ** The theorems *)

(** C15: Folding branches and switches on constants keeps every run of a body whose
    conditional edges enter scopes or stay in them ([body_edges_enter]).  Where bool and
    switch literals evaluate to themselves ([ConstantLaws]), such a body has the same
    outcomes, effects, cleanups and traps included, before and after
    fold_constant_bool_branches and fold_constant_switches, which reach into nested
    defer bodies.  Validation does not ask for such edges; [folding_leaving_edge] shows
    that the passes do. *)
Theorem fold_constant_branches_sound {D V} (M : Machine D V) (L : ConstantLaws M)
    (body : FunctionBody) (Henter : body_edges_enter body = true) (d : D) (o : Outcome D V) :
  (body_runs (with_blocks body (fold_constant_bool_branches (blocks body)).1) d o ↔
   body_runs body d o) ∧
  (body_runs (with_blocks body (fold_constant_switches (blocks body)).1) d o ↔
   body_runs body d o).
Proof.
  unfold body_runs, fold_constant_bool_branches, fold_constant_switches.
  cbn [with_blocks scopes blocks entry].
  rewrite (pass_blocks_runs keep_all fold_bool_terminator keep_all_noop fold_bool_same) by done.
  by rewrite (pass_blocks_runs keep_all fold_switch_terminator keep_all_noop fold_switch_same).
Qed.

Lemma fold_constant_branches_sound_witness :
  body_edges_enter Sample.branches = true ∧
  (blocks (with_blocks Sample.branches
     (fold_constant_bool_branches (blocks Sample.branches)).1) ≠ blocks Sample.branches) ∧
  ∀ d o, body_runs (M := Trapping) (with_blocks Sample.branches
    (fold_constant_bool_branches (blocks Sample.branches)).1) d o ↔
    body_runs (M := Trapping) Sample.branches d o.
Proof.
  split_and!; [by vm_compute|by vm_compute|]. intros d o.
  apply (fold_constant_branches_sound Trapping Trapping_constants Sample.branches). by vm_compute.
Defined.

(** A run of a table of one block that only returns. *)
Lemma returning_runs d o :
  table_runs (M := Trapping) [Sample.root_scope]
    (blocks_code (M := Trapping) [mkBlock 10 0 Sample.sp [] (TmReturn None Sample.sp)]) 10 d o →
  o = Returned None d.
Proof.
  intros [_ [n Hn]].
  inversion Hn as [? ? ? Hf|? c ? ? ? Hf He|? ? c ? ? ? ? ? ? Hf He]; subst; simpl in Hf; simplify_eq;
    destruct He as [(d1 & st1 & Ho & Ht)|(d1 & Ho & Heq)]; inversion Ho; subst;
    destruct Ht as [(d2 & Hc & Hr)|(o2 & Hc & Hr)]; inversion Hc; subst; by simplify_eq.
Qed.

(** A validated body whose conditional edge leaves the scope of a [defer]: the edge does
    not run it, the branch that folding makes of the edge does. *)
Lemma folding_leaving_edge :
  validate_function_body Sample.leaving = Ok () ∧ body_edges_enter Sample.leaving = false ∧
  body_runs (M := Trapping) Sample.leaving ∅ (Fell (Some VOther) ∅) ∧
  ∀ o, body_runs (M := Trapping) (with_blocks Sample.leaving
      (fold_constant_bool_branches (blocks Sample.leaving)).1) ∅ o → o = Returned None ∅.
Proof.
  split_and!; [by vm_compute|by vm_compute|..].
  - split; [by eexists|]. exists 2%nat. eapply runs_goto; [reflexivity| |].
    + left. do 2 eexists. split; [eapply ops_register; constructor|]. left.
      exists (VConst (ScBool true)), ∅. by split.
    + eapply runs_stop; [reflexivity|]. left. do 2 eexists. split; [constructor|]. left.
      exists VOther, ∅. split; [done|]. left. exists ∅. split; [constructor|done].
  - intros o [_ [n Hn]].
    inversion Hn as [? ? ? Hf|? c ? ? ? Hf He|? ? c ? ? ? ? ? ? Hf He]; subst; simpl in Hf; simplify_eq;
      destruct He as [(d1 & st1 & Ho & Ht)|(d1 & Ho & Heq)];
      inversion Ho as [| | |? ? ? ? ? Hnil]; subst; inversion Hnil; subst;
      destruct Ht as [(d2 & Hc & Hr)|(o2 & Hc & Hr)];
      inversion Hc as [|? ? ? v d3 ? Hv|? ? ? ? Hv]; subst; apply returning_runs in Hv; simplify_eq;
      by injection Hr.
Qed.

(** C16: Threading empty jumps keeps every run of a validated body, whatever
    expressions mean: when merge_empty_jump_blocks returns, the body it returns has
    exactly the outcomes of the one it was given. *)
Theorem merge_empty_jumps_sound {D V} (M : Machine D V) (fuel : nat) (body body' : FunctionBody)
    (c : bool) (Hvalid : validate_function_body body = Ok ())
    (Hmerge : merge_empty_jump_blocks fuel body = Some (body', c)) (d : D) (o : Outcome D V) :
  body_runs body' d o ↔ body_runs body d o.
Proof.
  destruct (validated_table body Hvalid) as (Hnd & Hroot & _).
  unfold merge_empty_jump_blocks in Hmerge.
  destruct (merge_loop _ _ _ _) as [[bl c']|] eqn:Hloop; [|done]. injection Hmerge as <- <-.
  destruct (merge_loop_runs (scopes body) _ _ _ _ _ _ Hnd Hroot Hloop) as (_ & _ & Hruns).
  unfold body_runs. simpl. by rewrite Hruns.
Qed.

Lemma merge_empty_jumps_sound_witness :
  validate_function_body Sample.branches = Ok () ∧
  ∃ body', merge_empty_jump_blocks 2 Sample.branches = Some (body', true) ∧
    ∀ d o, body_runs (M := Trapping) body' d o ↔ body_runs (M := Trapping) Sample.branches d o.
Proof.
  split; [by vm_compute|].
  eexists. split; [vm_compute; reflexivity|]. intros d o.
  apply (merge_empty_jumps_sound Trapping 2 Sample.branches _ true); by vm_compute.
Defined.

(** C17: When the threading of empty jumps ends.  On a validated body the loop of
    merge_empty_jump_blocks returns if and only if the empty jumps have no cycle, and
    then two rounds are enough; on a cycle of empty blocks, which validation accepts,
    it runs for ever. *)
Theorem merge_empty_jumps_ends (body : FunctionBody)
    (Hvalid : validate_function_body body = Ok ()) :
  let jumps := empty_jump_targets (blocks body) (Some (entry body)) in
  ((∃ fuel, is_Some (merge_empty_jump_blocks fuel body)) ↔ acyclic jumps) ∧
  (acyclic jumps → is_Some (merge_empty_jump_blocks 2 body)).
Proof.
  intros jumps. destruct (validated_table body Hvalid) as (Hnd & _).
  assert (Htwo : acyclic jumps → is_Some (merge_empty_jump_blocks 2 body)).
  { intros Hac. unfold merge_empty_jump_blocks.
    destruct (merge_loop_ends (blocks body) (entry body) Hnd 0 false Hac) as [[bl c] ->].
    by eexists. }
  split; [|done]. split; [|eauto]. intros [fuel [r Hr]] x Hx%on_cycle_tc.
  unfold merge_empty_jump_blocks in Hr. by rewrite (merge_loop_spins _ _ _ _ x) in Hr.
Qed.

Lemma merge_empty_jumps_ends_witness :
  validate_function_body Sample.spinning = Ok () ∧
  ¬ (∃ fuel, is_Some (merge_empty_jump_blocks fuel Sample.spinning)) ∧
  is_Some (merge_empty_jump_blocks 2 Sample.branches).
Proof.
  split; [by vm_compute|]. split; [|by vm_compute; eexists].
  intros Hex. apply (merge_empty_jumps_ends Sample.spinning) in Hex; [|by vm_compute].
  apply (Hex 1). apply on_cycle_tc. exists 2%nat. split; [lia | by vm_compute].
Defined.

(** C18: remove_unreachable_blocks keeps every run of a validated body and keeps
    exactly the blocks that the edges of terminators and of nested defer bodies reach
    from the entry. *)
Theorem remove_unreachable_exact {D V} (M : Machine D V) (body : FunctionBody)
    (Hvalid : validate_function_body body = Ok ()) :
  (∀ d o, body_runs (remove_unreachable_blocks body).1 d o ↔ body_runs body d o) ∧
  ∀ b, b ∈ blocks (remove_unreachable_blocks body).1 ↔
    b ∈ blocks body ∧ rtc (edge (blocks body)) (entry body) (block_id b).
Proof.
  destruct (validated_table body Hvalid) as (Hnd & _ & Hentry & _).
  unfold remove_unreachable_blocks, reachable_blocks. split.
  - intros d o. pose proof (retain_runs (scopes body) (blocks body) (entry body) Hnd) as Hruns.
    destruct (retain_reachable _ _) as [bl c]. unfold body_runs; simpl in *. by rewrite Hruns.
  - intros b. rewrite <- (reachable_exact (blocks body) Hnd).
    rewrite <- (retain_exact (blocks body) (entry body) Hnd Hentry).
    by destruct (retain_reachable _ _).
Qed.

Lemma remove_unreachable_exact_witness :
  validate_function_body Sample.branches = Ok () ∧
  length (blocks (remove_unreachable_blocks Sample.branches).1) = 4%nat ∧
  ∀ d o, body_runs (M := Trapping) (remove_unreachable_blocks Sample.branches).1 d o ↔
    body_runs (M := Trapping) Sample.branches d o.
Proof.
  split; [by vm_compute|]. split; [by vm_compute|].
  apply (remove_unreachable_exact Trapping Sample.branches). by vm_compute.
Defined.

(** The outcomes of [body'] are those of [body], except that a run of [body] that
    traps may be any run of [body']. *)
Definition keeps_up_to_traps {D V} {M : Machine D V} (body body' : FunctionBody) : Prop :=
  ∀ d,
  (∀ o, body_runs body d o → (∃ d', o = Trapped d') ∨ body_runs body' d o) ∧
  (∀ o, body_runs body' d o → body_runs body d o ∨ ∃ d', body_runs body d (Trapped d')).

Lemma keeps_up_to_traps_intro {D V} {M : Machine D V} body bl :
  keeps_runs (table_runs (scopes body) (blocks_code (blocks body)) (entry body))
    (table_runs (scopes body) (blocks_code bl) (entry body)) →
  keeps_up_to_traps body (with_blocks body bl).
Proof.
  intros Hk d. destruct (Hk d) as [F B]. unfold body_runs; simpl. split; intros o Ho.
  - apply F in Ho as [Ht|(o' & Ho & <-)]; [by left|by right].
  - apply B in Ho as [(o' & Ho & ->)|(o' & Ho & d' & ->)]; [by left|right; by exists d'].
Qed.

(** C19: The passes that discard evaluations lose nothing but traps.  Let what
    is_pure_discardable_expr accepts have no effect, its evaluation giving a value or
    trapping ([PureLaws]), and let the conditional edges of a validated body enter
    scopes or stay in them ([body_edges_enter]).  Then the removal of pure expression
    operations, of branches and of switches whose targets coincide, and the
    optimisation of defer bodies, which simplifies, threads and prunes every nested
    table, keep every run that does not trap, and add none except where the body
    could trap. *)
Theorem discarding_passes_sound {D V} (M : Machine D V) (L : PureLaws M) (body : FunctionBody)
    (Hvalid : validate_function_body body = Ok ()) (Henter : body_edges_enter body = true) :
  keeps_up_to_traps body (with_blocks body (remove_pure_expr_ops (blocks body)).1) ∧
  keeps_up_to_traps body (with_blocks body (simplify_trivial_branches (blocks body)).1) ∧
  keeps_up_to_traps body (with_blocks body (simplify_same_target_switches (blocks body)).1) ∧
  (∀ depth fuel bl c, optimize_defer_bodies depth fuel (blocks body) = Some (bl, c) →
   keeps_up_to_traps body (with_blocks body bl)).
Proof.
  destruct (validated_table body Hvalid) as (_ & _ & _ & Hnested). specialize (Hnested Henter).
  split_and!; [| | |intros depth fuel bl c Hopt]; apply keeps_up_to_traps_intro.
  - by apply (pass_blocks_keeps _ same_terminator pure_op_effect_free same_terminator_keeps).
  - by apply (pass_blocks_keeps keep_all _ keep_all_effect_free trivial_branch_keeps).
  - by apply (pass_blocks_keeps keep_all _ keep_all_effect_free same_target_keeps).
  - by eapply blocks_keep_runs, optimize_defer_keeps.
Qed.

Lemma discarding_passes_sound_witness :
  validate_function_body Sample.division = Ok () ∧
  blocks (with_blocks Sample.division (remove_pure_expr_ops (blocks Sample.division)).1) ≠
    blocks Sample.division ∧
  keeps_up_to_traps (M := Trapping) Sample.division
    (with_blocks Sample.division (remove_pure_expr_ops (blocks Sample.division)).1).
Proof.
  split_and!; [by vm_compute|by vm_compute|].
  apply (discarding_passes_sound Trapping Trapping_pure Sample.division); by vm_compute.
Defined.

(** C20: What the passes leave is valid.  Every control-flow pass takes a body that
    validate_function_body accepts to one that it accepts. *)
Theorem passes_keep_valid (body : FunctionBody) (Hvalid : validate_function_body body = Ok ()) :
  validate_function_body (remove_unreachable_blocks body).1 = Ok () ∧
  (∀ fuel body' c, merge_empty_jump_blocks fuel body = Some (body', c) →
    validate_function_body body' = Ok ()) ∧
  (∀ pass, pass ∈ [fold_constant_bool_branches; fold_constant_switches; simplify_trivial_branches;
      simplify_same_target_switches; remove_pure_expr_ops] →
    validate_function_body (with_blocks body (pass (blocks body)).1) = Ok ()) ∧
  (∀ depth fuel bl c, optimize_defer_bodies depth fuel (blocks body) = Some (bl, c) →
    validate_function_body (with_blocks body bl) = Ok ()).
Proof.
  apply validate_body_iff in Hvalid. split_and!.
  - unfold remove_unreachable_blocks, reachable_blocks. pose proof (retain_valid _ _ _ _ _ _ Hvalid).
    destruct (retain_reachable _ _) as [bl c]. by apply validate_body_iff.
  - unfold merge_empty_jump_blocks. intros fuel body' c.
    destruct (merge_loop _ _ _ _) as [[bl c']|] eqn:Hloop; [|done]. intros [= <- _].
    apply validate_body_iff. by eapply merge_valid.
  - intros pass Hpass. apply validate_body_iff. apply rewriting_pass in Hpass
      as (keep & f & -> & Hrefs & Hpay). by apply pass_valid.
  - intros depth fuel bl c Hopt. apply validate_body_iff.
    eapply replaced_valid; [by eapply optimize_defer_valid | exact Hvalid].
Qed.

Lemma passes_keep_valid_witness :
  validate_function_body Sample.branches = Ok () ∧
  validate_function_body (remove_unreachable_blocks Sample.branches).1 = Ok ().
Proof.
  split; [by vm_compute|]. apply (passes_keep_valid Sample.branches). by vm_compute.
Defined.

(** C21: The cycle check on scopes is exact.  With the ids of a table collected, the
    walk of validate_scope_parent_chain with a slow and a fast pointer ends, and it
    accepts a scope exactly when scope_chain_to_root, which walks the same parents
    without a check, ends too; in a table whose shape is accepted every block has a
    chain of scopes up to a root. *)
Theorem scope_walks_end (ls : list FunctionLocal) (scs : list FunctionScope)
    (bl : list FunctionBlock) (e : FunctionBlockId) (v : FunctionIrValidator)
    (Hnew : validator_new ls scs bl e = Ok v) :
  (∀ s, ∃ r, scope_chain_check v s = Some r ∧
     (r = Ok () ↔ is_Some (scope_chain_to_root scs (scope_id s)))) ∧
  (∀ span b, validate_body_shape v span = Ok () → b ∈ bl →
     ∃ chain, scope_chain_to_root scs (block_scope b) = Some (Some chain)).
Proof.
  split; [intros s; by eapply scope_chain_check_ok|]. intros span b Hshape Hb.
  destruct (shape_table _ _ _ _ _ _ Hnew Hshape) as (_ & Hroot & _). by apply Hroot.
Qed.

Lemma scope_walks_end_witness :
  let scs := [mkScope 0 (Some 1) Sample.sp; mkScope 1 (Some 2) Sample.sp;
              mkScope 2 (Some 1) Sample.sp] in
  ∃ v, validator_new [] scs [] 0 = Ok v ∧
  ∃ r, scope_chain_check v (mkScope 0 (Some 1) Sample.sp) = Some r ∧
       (r = Ok () ↔ is_Some (scope_chain_to_root scs 0)).
Proof.
  simpl. eexists. split; [reflexivity|].
  refine (proj1 (scope_walks_end [] _ [] 0 _ _) _). reflexivity.
Defined.

(** C38: The optimiser discards traps.  is_pure_discardable_expr accepts a division,
    so that remove_pure_expr_ops deletes the statement 1 / 0: the body, which
    validation accepts, only traps before the pass, and falls off its end after it. *)
Theorem pure_division_dropped :
  validate_function_body Sample.division = Ok () ∧
  (∀ d o, body_runs (M := Trapping) Sample.division d o ↔ o = Trapped d) ∧
  (∀ d o, body_runs (M := Trapping) (with_blocks Sample.division
     (remove_pure_expr_ops (blocks Sample.division)).1) d o ↔ o = Fell None d).
Proof.
  split; [by vm_compute|]. split; intros d o; split.
  - intros [_ [n Hn]]. inversion Hn as [? ? ? Hf|? c ? ? ? Hf He|? ? c ? ? ? ? ? ? Hf He]; subst;
      simpl in Hf; simplify_eq; destruct He as [(da & sta & Ho & Ht)|(da & Ho & Heq)]; simplify_eq;
      inversion Ho as [|? ? ? db ? ? Hp|? ? ? db ? Hp|]; subst;
      destruct Hp as [(w & dc & Hw & Hr)|(dc & Hw & Hr)]; simplify_eq; vm_compute in Hw; congruence.
  - intros ->. split; [by eexists|]. exists 1%nat. eapply runs_stop; [reflexivity|].
    right. exists d. split; [|done]. apply ops_trap. right. exists d. by vm_compute.
  - intros [_ [n Hn]]. inversion Hn as [? ? ? Hf|? c ? ? ? Hf He|? ? c ? ? ? ? ? ? Hf He]; subst;
      simpl in Hf; simplify_eq; destruct He as [(da & sta & Ho & Ht)|(da & Ho & Heq)]; simplify_eq;
      inversion Ho; subst; destruct Ht as [(db & Hc & Hr)|(ob & Hc & Hr)]; simplify_eq; by inversion Hc.
  - intros ->. split; [by eexists|]. exists 1%nat. eapply runs_stop; [reflexivity|].
    left. exists d, []. split; [constructor|]. left. exists d. split; [constructor | done].
Qed.
